(* ===== verification/_CoqProject ===== *)
-Q . S2P
Prelude.v
GoStrings.v
Tenancy.v
Persistence.v
Egopb.v
StoreApi.v
EventStore.v
StateStores.v
Command.v
Protocol.v
EventSourced.v
EventSourcedSpec.v
EventSourcedSystem.v
EventSourcedReplies.v
EventSourcedCorrect.v
DurableState.v
DurableStateSpec.v
Saga.v
SagaSpec.v
SagaExamples.v
Projection.v
ProjectionSpec.v
ProjectionExamples.v
Queue.v
QueueSpec.v
Stream.v
StreamSpec.v
Delivery.v
Adoption.v
AdoptionReceipts.v
AdoptionSpec.v
AdoptionSafety.v
AdoptionRerun.v
AdoptionFences.v
AdoptionExamples.v
Migration.v
MigrationSpec.v
Lifecycle.v
ActorSystem.v
EngineConfig.v
Engine.v
EngineConfigSpec.v
EngineSpec.v
EngineLifecycleSpec.v
EngineSystem.v
EngineExamples.v
LifecycleSpec.v
SagaPump.v
ProjectionActor.v
Encryption.v
Compose.v
ComposeSpec.v
ComposeApp.v
ComposeAppSpec.v
ComposeEngineSpec.v
ComposeExamples.v
ActorExamples.v
Postgres.v
PostgresSpec.v
PostgresPages.v
PostgresConcurrent.v
PostgresProjection.v
PostgresSchema.v
PostgresSchemaSpec.v
PostgresExamples.v
Publishers.v
Scenario.v
Conformance.v
ConformanceSpec.v
