(* ===== verification/Prelude.v ===== *)
(** * Urd (module ego): verification of the event-sourcing runtime

    ** The program

    The repository is a Go library that runs event-sourced and durable-state
    entities on an actor system. An event-sourced entity receives a command,
    asks the user's behavior for events, has a child actor (the events writer)
    append them to an events store under an optional write precondition,
    applies them once the write is confirmed and answers the sender; a second
    child writes snapshots and a third (the janitor) deletes what a snapshot
    has made redundant. A durable-state entity replaces one versioned record
    per command. Both carry a tenant identity, refuse other tenants, honour the
    deadline of the command, and report failures as text that the caller's side
    classifies again. What entities publish goes to an in-process event stream
    built on a lock-free queue; sagas react to it with commands to other
    entities, publishers forward it to message brokers, and projections pull
    the journal itself. The engine is the facade: it configures the actor
    system, spawns entities under a tenant, and dispatches commands. A
    composition root builds an engine from a deployment specification, starts
    everything in order and releases it. Tools beside the engine move the data
    of a scope into tenant scopes and seed snapshots from legacy events. The
    stores are interfaces, with in-memory implementations, a PostgreSQL one and
    a conformance suite for others.

    ** Files and what they model (paths under src/)

    Foundations:
    - [Prelude]: results ([let?]), uint64 arithmetic with wrap-around, the
      tactics and hint database of the development, generic list lemmas.
    - [GoStrings]: UTF-8, [strings] and [strconv] (Quote, QuotedPrefix,
      Unquote, FormatUint, ParseUint) as the program uses them, with the
      round trips of the codecs. The table of printable runes of [strconv] is
      a parameter [print_tbl]; every theorem holds for any table.
    - [Tenancy], module [tenancy]: tenancy/*.go: identifiers, contexts,
      [Attach], [From], [Require], [VerifyUnchanged], the metadata form and
      the single-tenant resolver.
    - [Persistence], module [persistence]: persistence/precondition.go,
      scope.go, conflict.go: preconditions, scopes, conflicts, their text and
      its parser.
    - [Egopb], module [egopb]: the fields of the protobuf messages.
    - [StoreApi], module [api]: persistence/events_store.go, state_store.go,
      snapshot_store.go as type classes: the operations ([EventsStore],
      [StateStore], [SnapshotStore]), the laws a client may rely on
      ([...Laws]: an abstract stream or record per scope and id, what each
      successful call does to it, that a failed one does nothing) and the
      classes of stores that answer ([Reliable...]). The clients are proved
      against these classes only.
    - [Command], module [command]: command/*.go: operation metadata with its
      options and [Derive], the carrier codec, envelopes and results.
    - [Protocol], module [protocol]: internal/engine/protocol: the deadline
      gate, the declared revision of a command, reading and classifying
      replies.

    Stores:
    - [EventStore], module [testkit]: testkit/eventstore.go. Every mutating
      operation is a program of atomic [sync.Map] operations ([..._step]); run
      to completion it is the operation ([WriteEvents], [DeleteEvents]),
      interleaved by [step] it is the concurrent store. Logs carry an identity
      because CompareAndSwap compares pointers. [EventStore_laws] discharges
      the interface.
    - [StateStores], modules [durablestore], [snapshotstore], [offsetstore]:
      the other three in-memory stores, the first two with their laws.
    - [Postgres], [PostgresSpec], [PostgresPages], [PostgresConcurrent],
      [PostgresProjection]: persistence/postgres/event_store.go and
      offset_store.go. A transaction is a free monad of SQL statements;
      run alone, paged through, interleaved with others, and as the journal
      of the projections. [PostgresSchema], [PostgresSchemaSpec]: schema.go
      and schema_migrator.go. [PostgresExamples]: all of it on small tables.
    - [Encryption], module [encryption]: encryption/aes_encryptor.go and
      testkit/keystore.go.
    - [Conformance], [ConformanceSpec]: persistence/conformance: the checks of
      the three suites as programs over a store's interface.

    Entities:
    - [EventSourced], module [eventsource]: internal/engine/eventsource: the
      actor's record and every message handler as a function from the actor
      to the actor and the effects it requests ([Response], [Stash],
      [UnstashAll], [PipeTo], [Tell], [Shutdown]) in order; recovery; the
      handlers of the three children; [retryWithBackoff].
      [EventSourcedSpec]: replay as the abstract meaning of a history
      ([appended]). [EventSourcedSystem]: actor, mailbox, stash, write in
      flight, children and stores as a step relation, with its invariant.
      [EventSourcedReplies]: which reply belongs to which command.
      [EventSourcedCorrect]: the guarantees, and a counter over the in-memory
      stores.
    - [DurableState], [DurableStateSpec]: internal/engine/durablestate and
      the same for it.
    - [Saga], [SagaSpec], [SagaExamples]: internal/engine/saga/saga_actor.go,
      its handlers with nested synchronous commands; [SagaPump]: the goroutine
      that feeds it, on [Delivery], and stopping.
    - [Scenario]: testkit/scenario.go (modules [scenario],
      [durable_scenario]), and the check chain of internal/runner
      (module [runner]).

    Streams and projections:
    - [Queue], [QueueSpec]: internal/queue/queue.go, one step per atomic
      access, on a heap of recycled nodes.
    - [Stream], [StreamSpec]: eventstream and internal/syncmap, with shared
      topic maps and subscribers; the queue is used through [Fifo].
    - [Delivery], module [delivery]: one subscriber with its queue, access by
      access, and the goroutine that reads it (eventstream/subscriber.go,
      internal/queue/queue.go, [sendEvent] of engine/streams.go), with
      publications that do not overlap; [Engine] and [SagaPump] build their
      goroutines from it.
    - [Projection], [ProjectionSpec], [ProjectionExamples]:
      internal/projectionrunner and projection: passes, workers as steps,
      offsets, retries, recovery policies. [ProjectionActor]: the actor that
      hosts the runner and internal/extensions/lookup.go. [ActorExamples]:
      both at work.
    - [Publishers]: publisher/kafka, nats, pulsar, websocket: [Publish],
      [Close] and the address checks.

    Engine and composition:
    - [ActorSystem]: internal/extensions/extensions.go, and the interface of
      the actor library as a class with laws.
    - [EngineConfig], [Engine]: engine/*.go and port/runtime/spawn.go:
      options, commands, spawning with tenant checks, erasure, publishers,
      projections, shutdown. [EngineConfigSpec], [EngineSpec],
      [EngineLifecycleSpec]: their theorems. [EngineSystem]: the engine on any
      actor system that hosts durable-state entities, by what such a system
      promises (class [Hosts]: what an entity goes through while a caller
      waits, timeouts included), and a small node that keeps the promise.
      [EngineExamples]: instances.
    - [Lifecycle], [LifecycleSpec]: compose/internal/lifecycle.
      [Compose], [ComposeSpec]: port/adapter, compose/spec.go and
      compose/internal/adapters. [ComposeApp], [ComposeAppSpec],
      [ComposeEngineSpec], [ComposeExamples]: compose/goakt.

    Data migration:
    - [Adoption] and [AdoptionReceipts], [AdoptionSpec], [AdoptionSafety],
      [AdoptionRerun], [AdoptionFences], [AdoptionExamples]:
      migration/tenant_adoption.go, every operation in a monad over the three
      stores and the fence that knows panics and deferred releases.
    - [Migration], [MigrationSpec]: migration/migration.go with its protobuf
      field scanner.

    ** What the theorems show

    - Event-sourced entity: [entity_matches_store] (in every interleaving the
      stores hold the old history followed by what was published, the actor is
      its replay), [crash_recovery], [snapshot_then_retention_recovers],
      [replies_reach_their_commands], [declared_revision_joins_in_place],
      [late_command_persists_nothing], [foreign_tenant_refused],
      [start_is_bound], [retry_attempts].
    - Durable-state entity: [durable_command_atomic], [durable_restart],
      [conflict_resyncs], [version_advances_by_one],
      [durable_foreign_tenant_refused]. Through the engine:
      [dispatch_end_to_end].
    - Sagas: [saga_recovers], [saga_commands_attributed], [saga_settles],
      [saga_returns].
    - In-memory stores: [write_events_refines_spec],
      [conditional_writers_one_winner], [store_steps_are_atomic],
      [store_stays_well_formed], [persistence_ids_exactly_once],
      [write_state_conditional].
    - PostgreSQL: [stores_agree] (with the in-memory store, call by call),
      [serializable] (any interleaving of transactions whose deletions are
      begun on records with a revision row) and [writers_never_deadlock] (any
      interleaving), [pages_list_each_once], [migrate_resumes].
    - Conformance: [contract_passes_events_suite] (the contract the entities
      rely on implies the suite) and [scope_blind_events_store_caught] (a
      store that ignores the tenant fails every isolation check);
      [scenario_predicts_entity].
    - Queue and stream: [spsc_fifo], [stream_refines_spec], [no_lost_wakeup],
      [publisher_offered_in_order] and [saga_fed_in_order] (publications that
      do not overlap). Projections: [at_least_once] and [catches_up] (without
      a start offset, on shards in the strict order of their timestamps),
      [registered_projection_starts].
    - Engine: [spawn_binds_tenant], [command_reaches_entity],
      [erasure_removes_history], [tenancy_mode_decided].
    - Composition: [undone_exactly_once] and [app_releases_publishers]
      (starts may panic, what undoes them may fail but not panic),
      [new_exact], [accepted_spec_fits_engine].
    - Adoption and migration: [adoption_loses_nothing],
      [deletion_follows_verified_copy], [clean_run_adopts_everything],
      [adoption_completes_once], [receipts_prove_adoption],
      [fences_never_deadlock], [migration_seeds_latest],
      [legacy_state_found].
    - Codecs, keys and trust boundaries: [conflict_roundtrip],
      [carrier_roundtrip], [carrier_trust_boundary], [metadata_roundtrip],
      [derive_keeps_lineage], [attach_never_rebinds],
      [deadline_gate_classified], [shredding_is_final].
    - Behaviour at odds with a comment or a document is stated on concrete
      runs next to each component, for example [stale_actor_overwrites],
      [batch_reply_before_commit], [queue_loses_messages],
      [concurrent_subscribe_loses_one], [late_event_skipped],
      [whole_range_refused], [shard_tie_skipped], [address_check_panics],
      [unlocked_deletion_not_serializable], [panicking_close_leaks_publishers].

    ** Modelling choices

    Code outside the repository is a parameter: a field of the [Deps] record
    of an entity (behavior, event adapters, encryptor, Any codec, RFC 3339
    codec, order of map iteration) with what is relied on in [LawfulDeps]; a
    type class with laws (stores, actor library, fence, queue); or a section
    variable (SHA-256, block cipher and randomness, broker libraries, database
    codecs, collation and scan order, what a schema file does). Concrete
    instances of all of them are used by the examples. Clock readings are
    arguments ([Times], [now]). A Go panic is [None], or a constructor of the
    outcome in [Lifecycle] and [Adoption]. uint64 is [N] with wrap-around; the
    theorems on the running entity ask that the sequence numbers a command
    reaches stay within a Go [int] ([fits], [api.max_int]), since a limit is
    converted to [int] on replay. PostgreSQL integers are [bigint]: a value
    beyond it is refused, as the driver does.

    Concurrency is interleaving of atomic steps: map operations of the
    in-memory store, memory accesses of the queue, statements of a
    transaction under READ COMMITTED with row locks, steps of projection
    workers, adoption runs between fence operations. Threads and connections
    are not bounded in number.

    Loops are structural, or take fuel that a theorem shows to be enough:
    [retryWithBackoff] recurses on its retry count; paging ([list_all],
    [list_pages]) needs one page more than there are ids
    ([persistence_ids_exactly_once], [pages_list_each_once]); the nested calls
    of a saga need the rank of the entities involved ([saga_returns]); the
    protobuf scanner takes the length of the bytes; draining a subscriber
    takes the number of messages waiting; the loop of the pagination
    check stops by itself within its fuel. The loop that locks a revision row
    tries any number of rounds, an argument, and a call that gives up changes
    nothing.

    ** Not modelled

    Telemetry and logging; the length of flush windows, backoff delays and
    timers (a timeout message arrives at any time); cancellation of a context
    inside a store call; the size of worker pools; a write that is performed
    only after its request timed out and the actor has already moved on;
    passivation or stop with a write in flight; behaviors that mutate a state
    in place; failures of [anypb.New] on the event-sourced path; nil states; a
    database commit whose outcome is unknown; panics of the actor library
    where it spawns, asks or kills an actor; the JSON codecs of spawn
    dependencies; the constructors of the publishers, which dial; the
    conformance suites of schema migrators, adapters and publishers, test
    doubles, examples, benchmarks and repository tooling; internal/ticker,
    which nothing uses.

    What is left to extend: the constructors of the publishers with their
    retries, the remaining conformance suites, and the unknown outcome of a
    commit. *)

From Stdlib Require Import ZArith NArith Lia.
From stdpp Require Export base gmap strings list fin_maps sorting.

(** ** Results

    A Go function that returns [(T, error)] is a function into [result E T]:
    [Ok v] is the pair with a nil error, [Err e] the pair whose error is not
    nil (the callers modelled here never look at the value in that case). *)
Inductive result (E A : Type) : Type :=
| Ok (a : A)
| Err (e : E).
Arguments Ok {E A} a.
Arguments Err {E A} e.

Definition rbind {E A B} (f : A -> result E B) (m : result E A) : result E B :=
  match m with Ok a => f a | Err e => Err e end.

Definition rmap_err {E F A} (f : E -> F) (m : result E A) : result F A :=
  match m with Ok a => Ok a | Err e => Err (f e) end.

Definition rok {E A} (m : result E A) : option A :=
  match m with Ok a => Some a | Err _ => None end.

Declare Scope urd_scope.
Delimit Scope urd_scope with urd.

(** [let? x := e in k] is Go's [x, err := e; if err != nil { return err }]. *)
Notation "'let?' x ':=' m 'in' k" := (rbind (fun x => k) m)
  (at level 10, x pattern, m at level 100, k at level 200, only parsing) : urd_scope.
#[export] Instance result_eq_dec {E A} `{EqDecision E, EqDecision A} :
  EqDecision (result E A).
Proof. solve_decision. Defined.

(** ** Machine integers

    A Go [uint64] is an [N]; the operations that can leave the range wrap. *)
Definition two64 : N := 18446744073709551616%N.
Definition u64 (x : N) : N := (x mod two64)%N.
Definition u64_add (a b : N) : N := u64 (a + b).
Definition u64_succ (a : N) : N := u64_add a 1.
Definition u64_sub (a b : N) : N := u64 (a + two64 - u64 b).
Definition is_u64 (x : N) : Prop := (x < two64)%N.

Lemma two64_pos : (0 < two64)%N.
Proof. done. Qed.

Lemma u64_small x : is_u64 x -> u64 x = x.
Proof. unfold is_u64, u64. intros. by apply N.mod_small. Qed.

Lemma u64_range x : is_u64 (u64 x).
Proof. unfold is_u64, u64. apply N.mod_lt. done. Qed.

Lemma u64_succ_small x : (x + 1 < two64)%N -> u64_succ x = (x + 1)%N.
Proof. intros. unfold u64_succ, u64_add. by apply u64_small. Qed.

Lemma u64_sub_ge a b : is_u64 a -> (b <= a)%N -> u64_sub a b = (a - b)%N.
Proof.
  unfold is_u64, u64_sub, u64. intros Ha Hb.
  rewrite (N.mod_small b) by lia.
  replace (a + two64 - b)%N with ((a - b) + 1 * two64)%N by lia.
  rewrite N.Div0.mod_add. apply N.mod_small. lia.
Qed.

Lemma u64_sub_lt a b : is_u64 a -> is_u64 b -> (a < b)%N ->
  u64_sub a b = (a + two64 - b)%N.
Proof.
  unfold is_u64, u64_sub, u64. intros.
  rewrite (N.mod_small b) by lia. apply N.mod_small. lia.
Qed.

(** ** The development's automation *)
Create HintDb urd.
#[export] Hint Resolve u64_range u64_small : urd.

(** [lia] with division and remainder by constants. *)
Ltac dlia := zify; Z.to_euclidean_division_equations; lia.

(** Case analysis on the scrutinee of the first [match] or [if] of the goal,
    keeping the equation. *)
Ltac case_step :=
  match goal with
  | |- context [match ?x with _ => _ end] =>
      lazymatch x with
      | context [match _ with _ => _ end] => fail
      | _ => destruct x eqn:?
      end
  end.

Ltac case_step_in H :=
  match type of H with
  | context [match ?x with _ => _ end] =>
      lazymatch x with
      | context [match _ with _ => _ end] => fail
      | _ => destruct x eqn:?
      end
  end.

Ltac case_all := repeat (case_step; simplify_eq/=).
Ltac case_all_in H := repeat (case_step_in H; simplify_eq/=).

(** Turn boolean tests in the context into propositions. *)
Ltac bool_prop :=
  repeat match goal with
  | H : (_ && _)%bool = true |- _ => apply andb_prop in H as [? ?]
  | H : (_ || _)%bool = false |- _ => apply orb_false_elim in H as [? ?]
  | H : negb _ = true |- _ => apply negb_true_iff in H
  | H : negb _ = false |- _ => apply negb_false_iff in H
  | H : bool_decide _ = true |- _ => apply bool_decide_eq_true in H
  | H : bool_decide _ = false |- _ => apply bool_decide_eq_false in H
  | H : N.eqb _ _ = true |- _ => apply N.eqb_eq in H
  | H : N.eqb _ _ = false |- _ => apply N.eqb_neq in H
  | H : N.ltb _ _ = true |- _ => apply N.ltb_lt in H
  | H : N.ltb _ _ = false |- _ => apply N.ltb_ge in H
  | H : N.leb _ _ = true |- _ => apply N.leb_le in H
  | H : N.leb _ _ = false |- _ => apply N.leb_gt in H
  | H : Z.eqb _ _ = true |- _ => apply Z.eqb_eq in H
  | H : Z.eqb _ _ = false |- _ => apply Z.eqb_neq in H
  | H : Z.ltb _ _ = true |- _ => apply Z.ltb_lt in H
  | H : Z.ltb _ _ = false |- _ => apply Z.ltb_ge in H
  | H : Z.leb _ _ = true |- _ => apply Z.leb_le in H
  | H : Z.leb _ _ = false |- _ => apply Z.leb_gt in H
  end.

(** ** Lists *)
Lemma foldl_snoc {A B} (f : A -> B -> A) (a : A) (l : list B) (x : B) :
  foldl f a (l ++ [x]) = f (foldl f a l) x.
Proof. by rewrite foldl_app. Qed.

(** Monadic left fold: a Go loop that stops at the first error. *)
Fixpoint rfold {E A B} (f : A -> B -> result E A) (a : A) (l : list B) : result E A :=
  match l with
  | [] => Ok a
  | b :: l => rbind (fun a' => rfold f a' l) (f a b)
  end.

Lemma rfold_app {E A B} (f : A -> B -> result E A) a l1 l2 :
  rfold f a (l1 ++ l2) = rbind (fun a' => rfold f a' l2) (rfold f a l1).
Proof.
  revert a. induction l1 as [|b l1 IH]; intros a; simpl; [done|].
  destruct (f a b); simpl; [apply IH|done].
Qed.

Lemma rbind_Ok {E A B} (f : A -> result E B) m b :
  rbind f m = Ok b <-> exists a, m = Ok a /\ f a = Ok b.
Proof. destruct m; naive_solver. Qed.

Lemma rbind_assoc {E A B C} (f : A -> result E B) (g : B -> result E C) m :
  rbind g (rbind f m) = rbind (fun a => rbind g (f a)) m.
Proof. by destruct m. Qed.

Lemma take_drop_len {A} (l : list A) n : take n l ++ drop (length (take n l)) l = l.
Proof.
  rewrite length_take. destruct (Nat.min_spec n (length l)) as [[? ->]|[? ->]].
  - apply take_drop.
  - rewrite take_ge, drop_all by lia. apply app_nil_r.
Qed.
