(* ===== verification/GoStrings.v ===== *)
(** * Go strings: the standard-library functions the program relies on

    A Go string is a sequence of bytes; it is modelled by [string], read as
    the list of its bytes.  This file models what the program uses of
    [unicode/utf8], [unicode], [strings] and [strconv]: UTF-8 decoding (the
    [range] loop), [utf8.ValidString], [unicode.IsSpace]/[IsControl],
    [strings.TrimSpace]/[HasPrefix]/[CutPrefix]/[Cut], [strconv.FormatUint]/
    [ParseUint] and [strconv.Quote]/[QuotedPrefix]/[Unquote]. *)

From S2P Require Import Prelude.
From Stdlib Require Import ZArith NArith Lia Ascii.
Open Scope list_scope.

Abbreviation bytes := (list ascii).

Definition b2l (s : string) : bytes := String.list_ascii_of_string s.
Definition l2b (l : bytes) : string := String.string_of_list_ascii l.

(** Value of a byte, and the byte of a value. *)
Definition bv (a : ascii) : Z := Z.of_N (N_of_ascii a).
Definition vb (z : Z) : ascii := ascii_of_N (Z.to_N z).

Arguments b2l : simpl never.
Arguments l2b : simpl never.

Lemma l2b_b2l s : l2b (b2l s) = s.
Proof. apply String.string_of_list_ascii_of_string. Qed.
Lemma b2l_l2b l : b2l (l2b l) = l.
Proof. apply String.list_ascii_of_string_of_list_ascii. Qed.

Lemma b2l_inj s t : b2l s = b2l t -> s = t.
Proof. intros H. by rewrite <-(l2b_b2l s), <-(l2b_b2l t), H. Qed.

Lemma bv_range a : (0 <= bv a < 256)%Z.
Proof. unfold bv. destruct a as [[] [] [] [] [] [] [] []]; vm_compute; split; congruence. Qed.

Lemma vb_bv a : vb (bv a) = a.
Proof. unfold vb, bv. rewrite N2Z.id. apply ascii_N_embedding. Qed.

Lemma bv_vb z : (0 <= z < 256)%Z -> bv (vb z) = z.
Proof. unfold vb, bv. intros. rewrite N_ascii_embedding; lia. Qed.

Lemma bv_inj a b : bv a = bv b -> a = b.
Proof. intros H. by rewrite <-(vb_bv a), <-(vb_bv b), H. Qed.

(** ** UTF-8

    [chunks l] cuts [l] the way the [range] loop over a Go string does: each
    chunk is one well-formed encoding, or a single byte that starts none. *)
Inductive chunk :=
| C1 (a : ascii)
| C2 (a b : ascii)
| C3 (a b c : ascii)
| C4 (a b c d : ascii)
| CBad (a : ascii).

Definition inr (lo hi z : Z) : bool := (lo <=? z)%Z && (z <=? hi)%Z.
Definition is_cont (b : ascii) : bool := inr 128 191 (bv b).

(** The accept ranges of [unicode/utf8]. *)
Definition ok2 (a b : ascii) : bool := inr 194 223 (bv a) && is_cont b.
Definition ok3 (a b c : ascii) : bool :=
  ((bv a =? 224)%Z && inr 160 191 (bv b)
   || (inr 225 236 (bv a) || inr 238 239 (bv a)) && is_cont b
   || (bv a =? 237)%Z && inr 128 159 (bv b)) && is_cont c.
Definition ok4 (a b c d : ascii) : bool :=
  ((bv a =? 240)%Z && inr 144 191 (bv b)
   || inr 241 243 (bv a) && is_cont b
   || (bv a =? 244)%Z && inr 128 143 (bv b)) && is_cont c && is_cont d.

Fixpoint chunks (l : bytes) : list chunk :=
  match l with
  | [] => []
  | a :: l1 =>
    if (bv a <? 128)%Z then C1 a :: chunks l1 else
    match l1 with
    | [] => [CBad a]
    | b :: l2 =>
      if ok2 a b then C2 a b :: chunks l2 else
      match l2 with
      | [] => CBad a :: chunks l1
      | c :: l3 =>
        if ok3 a b c then C3 a b c :: chunks l3 else
        match l3 with
        | [] => CBad a :: chunks l1
        | d :: l4 =>
          if ok4 a b c d then C4 a b c d :: chunks l4 else CBad a :: chunks l1
        end
      end
    end
  end.

Definition chunk_bytes (c : chunk) : bytes :=
  match c with
  | C1 a => [a] | C2 a b => [a; b] | C3 a b c => [a; b; c]
  | C4 a b c d => [a; b; c; d] | CBad a => [a]
  end.

(** The rune the loop yields; [utf8.RuneError] for a bad byte. *)
Definition rune_error : Z := 65533.
Definition chunk_rune (k : chunk) : Z :=
  match k with
  | C1 a => bv a
  | C2 a b => (bv a - 192) * 64 + (bv b - 128)
  | C3 a b c => (bv a - 224) * 4096 + (bv b - 128) * 64 + (bv c - 128)
  | C4 a b c d => (bv a - 240) * 262144 + (bv b - 128) * 4096 + (bv c - 128) * 64 + (bv d - 128)
  | CBad _ => rune_error
  end%Z.

(** Well-formed chunks: the ones [chunks] produces that are not [CBad]. *)
Definition chunk_ok (k : chunk) : bool :=
  match k with
  | C1 a => (bv a <? 128)%Z
  | C2 a b => ok2 a b
  | C3 a b c => ok3 a b c
  | C4 a b c d => ok4 a b c d
  | CBad _ => false
  end.

Definition is_bad (k : chunk) : bool := match k with CBad _ => true | _ => false end.

Definition valid_string (s : string) : bool := forallb (fun k => negb (is_bad k)) (chunks (b2l s)).

(** Induction that follows the recursion of [chunks]: on the length. *)
Lemma bytes_ind (P : bytes -> Prop) :
  P [] -> (forall a l, (forall l', List.length l' <= List.length l -> P l') -> P (a :: l)) ->
  forall l, P l.
Proof.
  intros H0 HS l. remember (List.length l) as n eqn:Hn.
  assert (List.length l <= n) as Hle by lia. clear Hn.
  revert l Hle. induction n as [|n IH]; intros [|a l] Hle; simpl in *; try lia; auto.
  apply HS. intros l' Hl'. apply IH. lia.
Qed.

Lemma chunks_cons a l1 : chunks (a :: l1) =
  if (bv a <? 128)%Z then C1 a :: chunks l1 else
  match l1 with
  | [] => [CBad a]
  | b :: l2 =>
    if ok2 a b then C2 a b :: chunks l2 else
    match l2 with
    | [] => CBad a :: chunks l1
    | c :: l3 =>
      if ok3 a b c then C3 a b c :: chunks l3 else
      match l3 with
      | [] => CBad a :: chunks l1
      | d :: l4 =>
        if ok4 a b c d then C4 a b c d :: chunks l4 else CBad a :: chunks l1
      end
    end
  end.
Proof. reflexivity. Qed.
Arguments chunks : simpl never.

Lemma chunks_concat l : concat (map chunk_bytes (chunks l)) = l.
Proof.
  induction l as [|a l IH] using bytes_ind; [done|].
  rewrite chunks_cons. case_all; rewrite ?IH; simpl; done || lia.
Qed.

(** Every chunk of [chunks l] is well formed or bad; a chunk is recognised
    again wherever it is followed by anything (UTF-8 is self-delimiting). *)
Lemma chunks_ok l : Forall (fun k => chunk_ok k = true \/ is_bad k = true) (chunks l).
Proof.
  induction l as [|a l IH] using bytes_ind; [constructor|].
  rewrite chunks_cons. case_all; repeat constructor; simpl; auto; apply IH; simpl; lia.
Qed.

Ltac unfold_utf8 :=
  unfold chunk_ok, ok2, ok3, ok4, is_cont, inr in *;
  repeat match goal with
  | |- context [bv ?a] => lazymatch goal with H : (0 <= bv a < 256)%Z |- _ => fail | _ => pose proof (bv_range a) end
  | H : context [bv ?a] |- _ => lazymatch goal with H : (0 <= bv a < 256)%Z |- _ => fail | _ => pose proof (bv_range a) end
  end.

(** Decide the boolean range tests by linear arithmetic. *)
Ltac bsolve := unfold_utf8; lia.

Lemma chunks_ok_cons k rest :
  chunk_ok k = true -> chunks (chunk_bytes k ++ rest) = k :: chunks rest.
Proof.
  destruct k as [a|a b|a b c|a b c d|a]; intros Hok; [| | | |done];
    simpl; rewrite chunks_cons; simpl in Hok.
  - by rewrite Hok.
  - rewrite Hok. destruct (Z.ltb_spec (bv a) 128); [bsolve|done].
  - rewrite Hok. destruct (Z.ltb_spec (bv a) 128); [bsolve|].
    destruct (ok2 a b) eqn:?; [bsolve|done].
  - rewrite Hok. destruct (Z.ltb_spec (bv a) 128); [bsolve|].
    destruct (ok2 a b) eqn:?; [bsolve|]. destruct (ok3 a b c) eqn:?; [bsolve|done].
Qed.

(** ** Runes: [unicode.IsSpace] and [unicode.IsControl] *)
Definition is_space (r : Z) : bool :=
  inr 9 13 r || (r =? 32)%Z || (r =? 133)%Z || (r =? 160)%Z || (r =? 5760)%Z
  || inr 8192 8202 r || (r =? 8232)%Z || (r =? 8233)%Z || (r =? 8239)%Z
  || (r =? 8287)%Z || (r =? 12288)%Z.

Definition is_control (r : Z) : bool := inr 0 31 r || inr 127 159 r.

Definition runes (s : string) : list Z := map chunk_rune (chunks (b2l s)).

Fixpoint drop_spaces (l : list chunk) : list chunk :=
  match l with
  | k :: l' => if is_space (chunk_rune k) then drop_spaces l' else l
  | [] => []
  end.

(** [strings.TrimSpace] *)
Definition trim_space (s : string) : string :=
  l2b (concat (map chunk_bytes (rev (drop_spaces (rev (drop_spaces (chunks (b2l s)))))))).

(** [len(s)], in bytes *)
Definition go_len (s : string) : Z := Z.of_nat (String.length s).

(** ** Prefixes and cuts *)
Fixpoint strip_prefix (p l : bytes) : option bytes :=
  match p, l with
  | [], _ => Some l
  | a :: p', b :: l' => if Ascii.eqb a b then strip_prefix p' l' else None
  | _ :: _, [] => None
  end.

(** [strings.CutPrefix] *)
Definition cut_prefix (p s : string) : option string := l2b <$> strip_prefix (b2l p) (b2l s).
(** [strings.HasPrefix] *)
Definition has_prefix (p s : string) : bool :=
  match strip_prefix (b2l p) (b2l s) with Some _ => true | None => false end.

(** [strings.Cut]: split at the first occurrence of [sep]. *)
Fixpoint cut_list (sep l : bytes) : option (bytes * bytes) :=
  match strip_prefix sep l with
  | Some rest => Some ([], rest)
  | None =>
    match l with
    | [] => None
    | a :: l' => match cut_list sep l' with Some (x, y) => Some (a :: x, y) | None => None end
    end
  end.

Lemma strip_prefix_app p l : strip_prefix p (p ++ l) = Some l.
Proof. induction p as [|a p IH]; simpl; [by destruct l|]. by rewrite Ascii.eqb_refl. Qed.

Lemma strip_prefix_Some p l r : strip_prefix p l = Some r -> l = p ++ r.
Proof.
  revert l. induction p as [|a p IH]; intros l H; simpl in *; [by destruct l; simplify_eq|].
  destruct l as [|b l]; [done|]. destruct (Ascii.eqb_spec a b) as [->|]; [|done].
  by rewrite (IH _ H).
Qed.

Lemma strip_prefix_None_head a p b l : a <> b -> strip_prefix (a :: p) (b :: l) = None.
Proof. intros. simpl. by destruct (Ascii.eqb_spec a b). Qed.

Lemma cut_list_Some sep l x y : cut_list sep l = Some (x, y) -> l = x ++ sep ++ y.
Proof.
  revert x y. induction l as [|a l IH]; intros x y H; simpl in H;
    destruct (strip_prefix sep _) eqn:E; simplify_eq/=;
    try (by apply strip_prefix_Some in E; rewrite E).
  destruct (cut_list sep l) as [[x' y']|]; simplify_eq/=. by rewrite (IH x' y).
Qed.

Lemma cut_list_here sep l r : strip_prefix sep l = Some r -> cut_list sep l = Some ([], r).
Proof. intros H. destruct l; simpl; by rewrite H. Qed.

(** When the first byte of the separator does not occur in [tok], the cut is
    at the end of [tok]. *)
Lemma cut_list_token c sep tok rest :
  Forall (fun a => a <> c) tok ->
  cut_list (c :: sep) (tok ++ (c :: sep) ++ rest) = Some (tok, rest).
Proof.
  induction 1 as [|a tok Ha _ IH].
  - apply cut_list_here. exact (strip_prefix_app (c :: sep) rest).
  - rewrite <-!app_comm_cons. cbn [cut_list].
    rewrite strip_prefix_None_head by done. rewrite app_comm_cons. by rewrite IH.
Qed.

(** ** [strconv.FormatUint(n, 10)] and [strconv.ParseUint(s, 10, 64)] *)
Definition digit (d : N) : ascii := ascii_of_N (48 + d).
Definition digit_val (a : ascii) : option N :=
  let v := N_of_ascii a in
  if (48 <=? v)%N && (v <=? 57)%N then Some (v - 48)%N else None.

Fixpoint fmt_uint_aux (fuel : nat) (n : N) (acc : bytes) : bytes :=
  match fuel with
  | O => acc
  | S fuel' =>
    let acc' := digit (n mod 10) :: acc in
    if (n <? 10)%N then acc' else fmt_uint_aux fuel' (n / 10) acc'
  end.

(** Twenty digits hold every [uint64]. *)
Definition fmt_uint_list (n : N) : bytes := fmt_uint_aux 20 n [].
Definition format_uint (n : N) : string := l2b (fmt_uint_list n).

Arguments fmt_uint_list : simpl never.
Arguments format_uint : simpl never.

Fixpoint parse_digits (acc : N) (l : bytes) : option N :=
  match l with
  | [] => Some acc
  | a :: l' =>
    match digit_val a with
    | None => None
    | Some d =>
      let v := (acc * 10 + d)%N in
      if (v <? two64)%N then parse_digits v l' else None
    end
  end.

Definition parse_uint_list (l : bytes) : option N :=
  match l with [] => None | _ => parse_digits 0 l end.
Definition parse_uint (s : string) : option N := parse_uint_list (b2l s).

Lemma digit_val_digit d : (d < 10)%N -> digit_val (digit d) = Some d.
Proof.
  intros. unfold digit_val, digit. rewrite N_ascii_embedding by lia.
  destruct (N.leb_spec 48 (48 + d)); [|lia]. destruct (N.leb_spec (48 + d) 57); [|lia].
  simpl. f_equal. lia.
Qed.

Lemma parse_fmt_aux fuel n acc :
  (n < 10 ^ N.of_nat fuel)%N -> is_u64 n ->
  parse_digits 0 (fmt_uint_aux fuel n acc) = parse_digits n acc.
Proof.
  unfold is_u64. revert n acc. induction fuel as [|fuel IH]; intros n acc Hn H64.
  - simpl in *. by replace n with 0%N by lia.
  - cbn [fmt_uint_aux].
    assert (n mod 10 < 10)%N as Hd by (apply N.mod_lt; lia).
    pose proof (N.div_mod n 10 ltac:(lia)) as Hdm.
    destruct (N.ltb_spec n 10).
    + cbn [parse_digits]. rewrite digit_val_digit by done.
      rewrite N.mod_small by done.
      replace (0 * 10 + n)%N with n by lia. by destruct (N.ltb_spec n two64); [|lia].
    + rewrite IH.
      * cbn [parse_digits]. rewrite digit_val_digit by done.
        replace (n / 10 * 10 + n mod 10)%N with n by lia.
        by destruct (N.ltb_spec n two64); [|lia].
      * rewrite Nat2N.inj_succ, N.pow_succ_r' in Hn. apply N.Div0.div_lt_upper_bound. lia.
      * apply (N.le_lt_trans _ n); [apply N.Div0.div_le_upper_bound|]; lia.
Qed.

Lemma fmt_uint_aux_nonempty f n acc : acc <> [] -> fmt_uint_aux f n acc <> [].
Proof.
  revert n acc. induction f as [|f IH]; intros n acc Hacc; [done|].
  cbn [fmt_uint_aux]. destruct (n <? 10)%N; [done|]. by apply IH.
Qed.

Lemma fmt_uint_nonempty n : fmt_uint_list n <> [].
Proof.
  unfold fmt_uint_list. change 20%nat with (S 19). generalize 19%nat. intros k.
  cbn [fmt_uint_aux]. destruct (n <? 10)%N; [done|]. by apply fmt_uint_aux_nonempty.
Qed.

Lemma parse_fmt_uint n : is_u64 n -> parse_uint_list (fmt_uint_list n) = Some n.
Proof.
  intros Hn. unfold parse_uint_list.
  destruct (fmt_uint_list n) eqn:E; [by apply fmt_uint_nonempty in E|].
  rewrite <-E. unfold fmt_uint_list. rewrite parse_fmt_aux; [done| |done].
  unfold is_u64, two64 in Hn. simpl. lia.
Qed.

(** [strconv.ParseUint] reads back every [strconv.FormatUint]. *)
Lemma parse_format_uint n : is_u64 n -> parse_uint (format_uint n) = Some n.
Proof. intros. unfold parse_uint, format_uint. rewrite b2l_l2b. by apply parse_fmt_uint. Qed.

Lemma parse_digits_u64 acc l n : is_u64 acc -> parse_digits acc l = Some n -> is_u64 n.
Proof.
  revert acc. induction l as [|a l IH]; intros acc Hacc H; simpl in *; [by simplify_eq|].
  destruct (digit_val a); [|done]. destruct (N.ltb_spec (acc * 10 + n0) two64); [|done].
  eapply IH; [|done]. done.
Qed.

Lemma parse_uint_u64 l n : parse_uint_list l = Some n -> is_u64 n.
Proof. destruct l; [done|]. apply parse_digits_u64. done. Qed.

(** A decimal rendering contains digits only. *)
Definition is_digit (a : ascii) : Prop := (48 <= bv a <= 57)%Z.

Lemma digit_is_digit d : (d < 10)%N -> is_digit (digit d).
Proof. intros. unfold is_digit, bv, digit. rewrite N_ascii_embedding; lia. Qed.

Lemma fmt_uint_digits n : Forall is_digit (fmt_uint_list n).
Proof.
  unfold fmt_uint_list. generalize 20%nat. intros k.
  assert (Forall is_digit []) as Hnil by constructor. revert Hnil.
  generalize (@nil ascii). revert n.
  induction k as [|k IH]; intros n acc Hacc; [done|]. cbn [fmt_uint_aux].
  assert (Forall is_digit (digit (n mod 10) :: acc)) as Hacc'.
  { constructor; [|done]. apply digit_is_digit, N.mod_lt. lia. }
  destruct (n <? 10)%N; [done|]. by apply IH.
Qed.

(** ** [strconv.Quote], [strconv.QuotedPrefix] and [strconv.Unquote]

    [print_tbl] is [strconv.IsPrint] on the runes from 0x80 on (a Unicode
    table); below, a rune is printable exactly from 0x20 to 0x7e. *)
Definition hexd (z : Z) : ascii := if (z <? 10)%Z then vb (48 + z) else vb (87 + z).
Definition unhex (a : ascii) : option Z :=
  let v := bv a in
  if inr 48 57 v then Some (v - 48)%Z
  else if inr 97 102 v then Some (v - 87)%Z
  else if inr 65 70 v then Some (v - 55)%Z
  else None.

(** [n] hexadecimal digits of [r], most significant first. *)
Fixpoint hexs (n : nat) (r : Z) : bytes :=
  match n with O => [] | S m => hexs m (r / 16) ++ [hexd (r mod 16)] end.

Fixpoint unhexs (n : nat) (acc : Z) (l : bytes) : option (Z * bytes) :=
  match n with
  | O => Some (acc, l)
  | S m =>
    match l with
    | [] => None
    | a :: l' => match unhex a with Some x => unhexs m (acc * 16 + x) l' | None => None end
    end
  end.

Definition encode_rune (r : Z) : bytes :=
  if (r <? 128)%Z then [vb r]
  else if (r <? 2048)%Z then [vb (192 + r / 64); vb (128 + r mod 64)]
  else if inr 55296 57343 r || (1114111 <? r)%Z then [vb 239; vb 191; vb 189]
  else if (r <? 65536)%Z then
    [vb (224 + r / 4096); vb (128 + (r / 64) mod 64); vb (128 + r mod 64)]
  else [vb (240 + r / 262144); vb (128 + (r / 4096) mod 64); vb (128 + (r / 64) mod 64); vb (128 + r mod 64)].

Definition valid_rune (r : Z) : bool := inr 0 55295 r || inr 57344 1114111 r.

Definition esc (c : Z) (t : bytes) : bytes := vb 92 :: vb c :: t.

Definition quote_ascii (a : ascii) : bytes :=
  let v := bv a in
  if (v =? 34)%Z || (v =? 92)%Z then [vb 92; a]
  else if inr 32 126 v then [a]
  else if (v =? 7)%Z then esc 97 []
  else if (v =? 8)%Z then esc 98 []
  else if (v =? 12)%Z then esc 102 []
  else if (v =? 10)%Z then esc 110 []
  else if (v =? 13)%Z then esc 114 []
  else if (v =? 9)%Z then esc 116 []
  else if (v =? 11)%Z then esc 118 []
  else esc 120 (hexs 2 v).

(** The simple one-letter escapes [UnquoteChar] knows. *)
Definition simple_escape (v : Z) : option Z :=
  if (v =? 97)%Z then Some 7%Z else if (v =? 98)%Z then Some 8%Z
  else if (v =? 102)%Z then Some 12%Z else if (v =? 110)%Z then Some 10%Z
  else if (v =? 114)%Z then Some 13%Z else if (v =? 116)%Z then Some 9%Z
  else if (v =? 118)%Z then Some 11%Z else if (v =? 92)%Z then Some 92%Z
  else if (v =? 34)%Z then Some 34%Z else None.

Definition octal (a : ascii) : option Z := if inr 48 55 (bv a) then Some (bv a - 48)%Z else None.

(** [strconv.UnquoteChar] for the quote 0x22: the value, whether it is a rune
    (to be encoded) or a byte, and the remaining input. *)
Definition unquote_char (l : bytes) : option (Z * bool * bytes) :=
  match l with
  | [] => None
  | a :: l1 =>
    let v := bv a in
    if (v =? 34)%Z then None
    else if (128 <=? v)%Z then
      match chunks l with
      | k :: _ => Some (chunk_rune k, true, skipn (List.length (chunk_bytes k)) l)
      | [] => None
      end
    else if negb (v =? 92)%Z then Some (v, false, l1)
    else match l1 with
    | [] => None
    | e :: l2 =>
      let w := bv e in
      match simple_escape w with
      | Some r => Some (r, false, l2)
      | None =>
        if (w =? 120)%Z then
          match unhexs 2 0 l2 with Some (r, l3) => Some (r, false, l3) | None => None end
        else if (w =? 117)%Z || (w =? 85)%Z then
          match unhexs (if (w =? 117)%Z then 4 else 8) 0 l2 with
          | Some (r, l3) => if valid_rune r then Some (r, true, l3) else None
          | None => None
          end
        else match octal e, l2 with
        | Some o0, x :: y :: l3 =>
          match octal x, octal y with
          | Some o1, Some o2 =>
            let r := (o0 * 64 + o1 * 8 + o2)%Z in
            if (255 <? r)%Z then None else Some (r, false, l3)
          | _, _ => None
          end
        | _, _ => None
        end
      end
    end
  end.

(** The loop of [strconv.unquote] after the opening quote: the unescaped
    bytes and the input after the closing quote. *)
Fixpoint unquote_loop (fuel : nat) (l : bytes) : option (bytes * bytes) :=
  match fuel with
  | O => None
  | S fuel' =>
    match l with
    | [] => None
    | a :: l1 =>
      if (bv a =? 34)%Z then Some ([], l1)
      else if (bv a =? 10)%Z then None
      else match unquote_char l with
      | None => None
      | Some (r, multibyte, rest) =>
        match unquote_loop fuel' rest with
        | None => None
        | Some (out, rem) =>
          let b := if (r <? 128)%Z || negb multibyte then [vb r] else encode_rune r in
          Some (b ++ out, rem)
        end
      end
    end
  end.

(** [unquote(in, true)] of package strconv for a double-quoted literal; each
    turn of the loop consumes at least one byte, so the length is enough fuel. *)
Definition unquote (l : bytes) : option (bytes * bytes) :=
  match l with
  | a :: l1 => if (bv a =? 34)%Z then unquote_loop (S (List.length l1)) l1 else None
  | [] => None
  end.

Section Quote.
Context (print_tbl : Z -> bool).

Definition escape_rune (r : Z) : bytes :=
  if (r <? 65536)%Z then esc 117 (hexs 4 r) else esc 85 (hexs 8 r).

Definition quote_multi (k : chunk) : bytes :=
  if print_tbl (chunk_rune k) then chunk_bytes k else escape_rune (chunk_rune k).

Definition quote_chunk (k : chunk) : bytes :=
  match k with
  | C1 a => quote_ascii a
  | CBad a => esc 120 (hexs 2 (bv a))
  | _ => quote_multi k
  end.

Definition quote_list (l : bytes) : bytes :=
  vb 34 :: concat (map quote_chunk (chunks l)) ++ [vb 34].

(** *** Hexadecimal digits *)
Lemma unhex_hexd z : (0 <= z < 16)%Z -> unhex (hexd z) = Some z.
Proof.
  intros. unfold hexd, unhex, inr.
  destruct (Z.ltb_spec z 10); rewrite bv_vb by lia; repeat case_match; bool_prop;
    f_equal; lia.
Qed.

Lemma unhexs_app n m acc l1 l2 :
  List.length l1 = n ->
  unhexs (n + m) acc (l1 ++ l2) =
  match unhexs n acc l1 with Some (v, _) => unhexs m v l2 | None => None end.
Proof.
  revert acc l1. induction n as [|n IH]; intros acc [|a l1] Hl; simpl in *; try lia; [done|].
  destruct (unhex a); [|done]. apply IH. lia.
Qed.

Lemma hexs_length n r : List.length (hexs n r) = n.
Proof. revert r. induction n; intros r; simpl; [done|]. rewrite length_app, IHn. simpl. lia. Qed.

Lemma unhexs_hexs n r acc :
  (0 <= r < 16 ^ Z.of_nat n)%Z ->
  unhexs n acc (hexs n r) = Some ((acc * 16 ^ Z.of_nat n + r)%Z, []).
Proof.
  revert r acc. induction n as [|n IH]; intros r acc Hr.
  - simpl. do 2 f_equal. change (16 ^ Z.of_nat 0)%Z with 1%Z in *. lia.
  - rewrite Nat2Z.inj_succ, Z.pow_succ_r in Hr |- * by lia.
    cbn [hexs]. replace (S n) with (n + 1) by lia.
    rewrite unhexs_app by apply hexs_length. rewrite IH.
    2:{ split; [apply Z.div_pos; lia|apply Z.div_lt_upper_bound; lia]. }
    cbn [unhexs]. rewrite unhex_hexd by (apply Z.mod_pos_bound; lia).
    do 2 f_equal. pose proof (Z.div_mod r 16). lia.
Qed.

Lemma unhexs_hexs_app n r rest :
  (0 <= r < 16 ^ Z.of_nat n)%Z -> unhexs n 0 (hexs n r ++ rest) = Some (r, rest).
Proof.
  intros Hr. rewrite <-(Nat.add_0_r n) at 1. rewrite unhexs_app by apply hexs_length.
  by rewrite unhexs_hexs by done.
Qed.

(** *** Runes: encoding inverts decoding *)
Lemma vb_eq a z : z = bv a -> vb z = a.
Proof. intros ->. apply vb_bv. Qed.

Lemma encode_chunk_rune k : chunk_ok k = true -> encode_rune (chunk_rune k) = chunk_bytes k.
Proof.
  destruct k as [a|a b|a b c|a b c d|a]; intros Hok; [| | | |done];
    unfold encode_rune, inr, chunk_rune, chunk_bytes in *; unfold_utf8;
    repeat case_match; bool_prop; try lia; repeat f_equal; apply vb_eq; dlia.
Qed.

Lemma chunk_rune_valid k : chunk_ok k = true ->
  valid_rune (chunk_rune k) = true /\ (0 <= chunk_rune k < 1114112)%Z.
Proof.
  destruct k as [a|a b|a b c|a b c d|a]; intros Hok; [| | | |done];
    unfold valid_rune, chunk_rune; unfold_utf8; lia.
Qed.

Lemma chunk_rune_multi k : chunk_ok k = true ->
  (match k with C1 _ => False | _ => True end) -> (128 <= chunk_rune k)%Z.
Proof.
  destruct k as [a|a b|a b c|a b c d|a]; intros Hok ?; [done| | | |done];
    unfold chunk_rune; unfold_utf8; lia.
Qed.

(** *** One chunk: [UnquoteChar] inverts [appendEscapedRune] *)
Definition out_bytes (r : Z) (multibyte : bool) : bytes :=
  if (r <? 128)%Z || negb multibyte then [vb r] else encode_rune r.

Lemma unquote_quote_ascii a rest : chunk_ok (C1 a) = true ->
  exists r, unquote_char (quote_ascii a ++ rest) = Some (r, false, rest) /\ vb r = a.
Proof.
  destruct a as [[] [] [] [] [] [] [] []]; intros Hok; vm_compute in Hok; try discriminate;
    eexists; split; reflexivity.
Qed.

Lemma quote_ascii_head a : exists b t, quote_ascii a = b :: t /\ bv b <> 34%Z /\ bv b <> 10%Z.
Proof.
  destruct a as [[] [] [] [] [] [] [] []]; do 2 eexists;
    (split; [reflexivity|split; vm_compute; discriminate]).
Qed.

Lemma unquote_char_x v rest : (0 <= v < 256)%Z ->
  unquote_char (esc 120 (hexs 2 v) ++ rest) = Some (v, false, rest).
Proof.
  intros. unfold esc, unquote_char. rewrite <-!app_comm_cons, !bv_vb by lia.
  cbn -[hexs unhexs]. by rewrite unhexs_hexs_app.
Qed.

Lemma unquote_char_u r rest : (0 <= r < 1114112)%Z -> valid_rune r = true ->
  unquote_char (escape_rune r ++ rest) = Some (r, true, rest).
Proof.
  intros Hr Hv. unfold escape_rune. destruct (Z.ltb_spec r 65536);
    unfold esc, unquote_char; rewrite <-!app_comm_cons, !bv_vb by lia;
    cbn -[hexs unhexs]; rewrite unhexs_hexs_app by (simpl; lia); by rewrite Hv.
Qed.

(** The first byte of a quoted chunk is neither a quote nor a newline. *)
Definition safe_head (l : bytes) : Prop :=
  exists b t, l = b :: t /\ bv b <> 34%Z /\ bv b <> 10%Z.

Lemma esc_safe c t : safe_head (esc c t).
Proof. do 2 eexists. split; [done|]. by vm_compute. Qed.

Lemma multi_head k : chunk_ok k = true -> (match k with C1 _ => False | _ => True end) ->
  exists b t, chunk_bytes k = b :: t /\ (128 <= bv b)%Z.
Proof.
  destruct k as [a|a b|a b c|a b c d|a]; intros Hok ?; [done| | | |done];
    do 2 eexists; (split; [reflexivity|unfold_utf8; lia]).
Qed.

Lemma unquote_char_raw k rest :
  chunk_ok k = true -> (match k with C1 _ => False | _ => True end) ->
  unquote_char (chunk_bytes k ++ rest) = Some (chunk_rune k, true, rest).
Proof.
  intros Hok Hm. destruct (multi_head k Hok Hm) as (b & t & Hk & Hb).
  assert (exists t', chunk_bytes k ++ rest = b :: t') as [t' Ht'] by (rewrite Hk; eauto).
  pose proof (chunks_ok_cons k rest Hok) as Hch. rewrite Ht' in Hch.
  unfold unquote_char. rewrite Ht'.
  destruct (Z.eqb_spec (bv b) 34); [lia|]. destruct (Z.leb_spec 128 (bv b)); [|lia].
  rewrite Hch. rewrite <-Ht'. by rewrite skipn_app, skipn_all, Nat.sub_diag.
Qed.

Definition decodes_to (q : bytes) (k : chunk) (rest : bytes) : Prop :=
  safe_head q /\
  exists r m, unquote_char (q ++ rest) = Some (r, m, rest) /\ out_bytes r m = chunk_bytes k.

Lemma quote_multi_spec k rest :
  chunk_ok k = true -> (match k with C1 _ => False | _ => True end) ->
  decodes_to (quote_multi k) k rest.
Proof.
  intros Hok Hm. destruct (chunk_rune_valid k Hok) as [Hv Hr].
  pose proof (chunk_rune_multi k Hok Hm) as H128.
  assert (out_bytes (chunk_rune k) true = chunk_bytes k) as Hout.
  { unfold out_bytes. destruct (Z.ltb_spec (chunk_rune k) 128); [lia|]. by apply encode_chunk_rune. }
  unfold quote_multi. destruct (print_tbl (chunk_rune k)); split.
  - destruct (multi_head k Hok Hm) as (b & t & -> & ?). eexists _, _. split; [done|lia].
  - eexists _, true. split; [by apply unquote_char_raw|done].
  - unfold escape_rune. destruct (chunk_rune k <? 65536)%Z; apply esc_safe.
  - eexists _, true. split; [by apply unquote_char_u|done].
Qed.

Lemma quote_chunk_spec k rest : chunk_ok k = true \/ is_bad k = true ->
  decodes_to (quote_chunk k) k rest.
Proof.
  intros Hk. destruct k as [a|a b|a b c|a b c d|a]; destruct Hk as [Hk|Hk];
    try discriminate; try (by apply quote_multi_spec); split.
  - apply quote_ascii_head.
  - destruct (unquote_quote_ascii a rest Hk) as (r & Hu & Hr).
    exists r, false. split; [done|]. unfold out_bytes. rewrite orb_true_r. simpl. by rewrite Hr.
  - apply esc_safe.
  - exists (bv a), false. split; [apply unquote_char_x, bv_range|].
    unfold out_bytes. rewrite orb_true_r. simpl. by rewrite vb_bv.
Qed.

(** *** Whole strings *)
Lemma unquote_loop_quote ks rest fuel :
  Forall (fun k => chunk_ok k = true \/ is_bad k = true) ks ->
  List.length ks < fuel ->
  unquote_loop fuel (concat (map quote_chunk ks) ++ vb 34 :: rest)
  = Some (concat (map chunk_bytes ks), rest).
Proof.
  intros Hks. revert fuel. induction Hks as [|k ks Hk _ IH]; intros [|fuel] Hf; simpl in Hf; try lia.
  { reflexivity. }
  destruct (quote_chunk_spec k (concat (map quote_chunk ks) ++ vb 34 :: rest) Hk)
    as [(b & t & Hq & H34 & H10) (r & m & Hu & Ho)].
  cbn [map concat]. rewrite <-app_assoc. rewrite Hq in Hu |- *.
  rewrite <-app_comm_cons in Hu |- *. cbn [unquote_loop].
  destruct (Z.eqb_spec (bv b) 34); [done|]. destruct (Z.eqb_spec (bv b) 10); [done|].
  rewrite Hu, IH by lia. unfold out_bytes in Ho. by rewrite Ho.
Qed.

Lemma quote_chunks_length ks :
  Forall (fun k => chunk_ok k = true \/ is_bad k = true) ks ->
  List.length ks <= List.length (concat (map quote_chunk ks)).
Proof.
  induction 1 as [|k ks Hk _ IH]; simpl; [lia|]. rewrite length_app.
  destruct (quote_chunk_spec k [] Hk) as [(b & t & -> & _) _]. simpl. lia.
Qed.

(** [strconv.Unquote] reads back [strconv.Quote], whatever follows it. *)
Lemma unquote_quote l rest : unquote (quote_list l ++ rest) = Some (l, rest).
Proof.
  unfold quote_list. cbn [app unquote]. rewrite bv_vb by lia. cbn -[unquote_loop].
  rewrite <-app_assoc. cbn [app]. rewrite unquote_loop_quote.
  - by rewrite chunks_concat.
  - apply chunks_ok.
  - rewrite length_app. pose proof (quote_chunks_length (chunks l) (chunks_ok l)). simpl. lia.
Qed.

End Quote.
