(* ===== verification/Tenancy.v ===== *)
(** * Package [tenancy]: tenant identity and its propagation

    [src/tenancy]: tenant identifiers, administrative attribution, the
    [TenantContext] value, the [context.Context] operations that bind it
    ([Attach], [From], [Require], [VerifyUnchanged]), its carried metadata
    form, and the built-in single-tenant resolver. *)

From S2P Require Import Prelude GoStrings.
From Stdlib Require Import ZArith Lia.
Open Scope string_scope.
Open Scope urd_scope.

Module tenancy.

(** ** Errors ([errors.go]) *)
Inductive Reason := ReasonMissing | ReasonInvalid | ReasonDenied.
#[export] Instance Reason_eq_dec : EqDecision Reason.
Proof. solve_decision. Defined.

Record Error := mkError { err_reason : Reason; err_message : string }.
#[export] Instance Error_eq_dec : EqDecision Error.
Proof. solve_decision. Defined.

Definition newError (reason : Reason) (message : string) : Error := mkError reason message.

(** The sentinels [ErrMissing], [ErrInvalid] and [ErrDenied] are named by the
    reason they match; [Is] is the method of that name. *)
Inductive Sentinel := ErrMissing | ErrInvalid | ErrDenied.
Definition Is (e : Error) (target : Sentinel) : bool :=
  match err_reason e, target with
  | ReasonMissing, ErrMissing => true
  | ReasonInvalid, ErrInvalid => true
  | ReasonDenied, ErrDenied => true
  | _, _ => false
  end.

(** ** Tenant identifiers ([tenant_id.go]) *)
Definition maxTenantIDBytes : Z := 128.

Definition NewTenantID (s : string) : result Error string :=
  if bool_decide (s = "") then Err (newError ReasonInvalid "tenancy: tenant id must not be empty")
  else if negb (valid_string s) then Err (newError ReasonInvalid "tenancy: tenant id must be valid UTF-8")
  else if (maxTenantIDBytes <? go_len s)%Z then Err (newError ReasonInvalid "tenancy: tenant id exceeds 128 bytes")
  else if bool_decide (trim_space s ≠ s)
    then Err (newError ReasonInvalid "tenancy: tenant id must not have leading or trailing whitespace")
  else if existsb is_control (runes s)
    then Err (newError ReasonInvalid "tenancy: tenant id must not contain control characters")
  else Ok s.

(** ** Administrative attribution and tenant contexts ([tenant_context.go]) *)
Inductive Scope := ScopeNone | ScopeTenant | ScopeAdministrative.
#[export] Instance Scope_eq_dec : EqDecision Scope.
Proof. solve_decision. Defined.

Record Administrative := mkAdministrative {
  actor : string;
  reason : string;
  correlationID : string;
  hasCorrelationID : bool
}.
#[export] Instance Administrative_eq_dec : EqDecision Administrative.
Proof. solve_decision. Defined.

Definition noAdministrative : Administrative := mkAdministrative "" "" "" false.

Definition NewAdministrative (actor reason : string) : result Error Administrative :=
  if bool_decide (trim_space actor = "")
    then Err (newError ReasonInvalid "tenancy: administrative actor must not be empty")
  else if bool_decide (trim_space reason = "")
    then Err (newError ReasonInvalid "tenancy: administrative reason must not be empty")
  else Ok (mkAdministrative actor reason "" false).

Definition WithCorrelationID (a : Administrative) (id : string) : Administrative :=
  mkAdministrative (actor a) (reason a) id (negb (bool_decide (id = ""))).

Definition CorrelationID (a : Administrative) : string * bool := (correlationID a, hasCorrelationID a).

Record TenantContext := mkTenantContext {
  scope : Scope;
  tenant : string;
  admin : Administrative
}.
#[export] Instance TenantContext_eq_dec : EqDecision TenantContext.
Proof. solve_decision. Defined.

(** The zero value [TenantContext{}]. *)
Definition noTenantContext : TenantContext := mkTenantContext ScopeNone "" noAdministrative.

Definition NewTenantContext (id : string) : result Error TenantContext :=
  let? validated := NewTenantID id in
  Ok (mkTenantContext ScopeTenant validated noAdministrative).

Definition NewAdministrativeContext (a : Administrative) : result Error TenantContext :=
  if bool_decide (actor a = "") || bool_decide (reason a = "")
    then Err (newError ReasonInvalid "tenancy: administrative context requires actor and reason")
  else Ok (mkTenantContext ScopeAdministrative "" a).

Definition Tenant (c : TenantContext) : string * bool :=
  match scope c with ScopeTenant => (tenant c, true) | _ => ("", false) end.

Definition GetAdministrative (c : TenantContext) : Administrative * bool :=
  match scope c with ScopeAdministrative => (admin c, true) | _ => (noAdministrative, false) end.

Definition valid (c : TenantContext) : bool :=
  match scope c with ScopeTenant | ScopeAdministrative => true | ScopeNone => false end.

(** ** Carried metadata ([metadata.go]) *)
Definition metaKeyScope := "ego.tenant.scope".
Definition metaKeyID := "ego.tenant.id".
Definition metaKeyAdminActor := "ego.tenant.admin_actor".
Definition metaKeyAdminReason := "ego.tenant.admin_reason".
Definition metaKeyAdminCorrelation := "ego.tenant.admin_correlation_id".
Definition metaScopeValueTenant := "tenant".
Definition metaScopeValueAdmin := "administrative".

Abbreviation Metadata := (gmap string string).

(** [md[k]] of a Go map: the zero value when the key is absent. *)
Definition mget (md : gmap string string) (k : string) : string := default "" (md !! k).

Definition MarshalMetadata (tc : TenantContext) : Metadata :=
  match scope tc with
  | ScopeTenant =>
    <[metaKeyID := (Tenant tc).1]> (<[metaKeyScope := metaScopeValueTenant]> ∅)
  | ScopeAdministrative =>
    let a := (GetAdministrative tc).1 in
    let md := <[metaKeyAdminReason := reason a]>
             (<[metaKeyAdminActor := actor a]>
             (<[metaKeyScope := metaScopeValueAdmin]> ∅)) in
    let '(id, ok) := CorrelationID a in
    if ok then <[metaKeyAdminCorrelation := id]> md else md
  | ScopeNone => ∅
  end.

Definition UnmarshalMetadata (md : Metadata) : result Error TenantContext :=
  let sc := mget md metaKeyScope in
  if bool_decide (sc = metaScopeValueTenant) then
    let? id := NewTenantID (mget md metaKeyID) in
    NewTenantContext id
  else if bool_decide (sc = metaScopeValueAdmin) then
    let? a := NewAdministrative (mget md metaKeyAdminActor) (mget md metaKeyAdminReason) in
    let a' := match md !! metaKeyAdminCorrelation with
              | Some id => if bool_decide (id ≠ "") then WithCorrelationID a id else a
              | None => a
              end in
    NewAdministrativeContext a'
  else Err (newError ReasonInvalid "tenancy: metadata missing or unrecognized tenant scope").

(** ** Contexts ([context.go])

    The part of a [context.Context] the program reads: the tenant bound under
    this package's key, the command carrier bound under the engine's key, the
    deadline and the cancellation instant. *)
Record Context := mkContext {
  ctx_tenant : option TenantContext;
  ctx_carrier : option (gmap string string);
  ctx_deadline : option Z;
  ctx_canceled : option Z
}.

Definition Background : Context := mkContext None None None None.

Definition with_tenant (ctx : Context) (tc : TenantContext) : Context :=
  mkContext (Some tc) (ctx_carrier ctx) (ctx_deadline ctx) (ctx_canceled ctx).

Definition From (ctx : Context) : option TenantContext := ctx_tenant ctx.

(** [Attach] returns the context next to its error: on an error it is the
    caller's context, unchanged. *)
Definition Attach (ctx : Context) (tc : TenantContext) : Context * option Error :=
  if negb (valid tc) then
    (ctx, Some (newError ReasonInvalid "tenancy: cannot attach an invalid (zero-value) tenant context"))
  else match From ctx with
  | Some bound =>
    if bool_decide (bound = tc) then (ctx, None)
    else (ctx, Some (newError ReasonDenied "tenancy: cannot change the tenant identity already attached to this context"))
  | None => (with_tenant ctx tc, None)
  end.

Definition Require (ctx : Context) : result Error TenantContext :=
  match From ctx with
  | None => Err (newError ReasonMissing "tenancy: no tenant identity attached to context")
  | Some tc =>
    if negb (valid tc)
    then Err (newError ReasonInvalid "tenancy: tenant identity attached to context is invalid")
    else Ok tc
  end.

Definition VerifyUnchanged (bound incoming : TenantContext) : result Error unit :=
  if bool_decide (bound ≠ incoming)
  then Err (newError ReasonDenied "tenancy: tenant identity changed across a boundary")
  else Ok tt.

(** ** Resolvers ([resolver.go])

    A resolver is the interface's method, with the optional
    [FixedTenantResolver] capability. *)
Record TenantResolver := mkResolver {
  Resolve : Context -> result Error TenantContext;
  fixedTenant : option (unit -> string * bool)
}.

Definition singleTenantResolver (tc : TenantContext) : TenantResolver :=
  mkResolver (fun _ => Ok tc) (Some (fun _ => Tenant tc)).

Definition WithSingleTenant (id : string) : result Error TenantResolver :=
  let? tc := NewTenantContext id in Ok (singleTenantResolver tc).

Definition AsFixedTenantResolver (r : option TenantResolver) : option (unit -> string * bool) :=
  match r with Some r => fixedTenant r | None => None end.

Definition FixedTenantOf (r : option TenantResolver) : string * bool :=
  match AsFixedTenantResolver r with
  | None => ("", false)
  | Some fixed => let '(id, has) := fixed tt in if has then (id, true) else ("", false)
  end.

(** ** Properties *)

(** The contexts the package's constructors build. *)
Definition wf_admin (a : Administrative) : Prop :=
  trim_space (actor a) ≠ "" /\ trim_space (reason a) ≠ "" /\
  hasCorrelationID a = negb (bool_decide (correlationID a = "")).

Inductive wf : TenantContext -> Prop :=
| wf_tenant id : NewTenantID id = Ok id -> wf (mkTenantContext ScopeTenant id noAdministrative)
| wf_administrative a : wf_admin a -> wf (mkTenantContext ScopeAdministrative "" a).
#[export] Hint Constructors wf : urd.

Lemma NewTenantID_Ok s id : NewTenantID s = Ok id -> id = s /\ s ≠ "".
Proof. unfold NewTenantID. intros H. case_all_in H. bool_prop. done. Qed.

Lemma NewTenantID_idem s id : NewTenantID s = Ok id -> NewTenantID id = Ok id.
Proof. intros H. by destruct (NewTenantID_Ok _ _ H) as [-> _]. Qed.

Lemma NewTenantContext_wf id tc : NewTenantContext id = Ok tc ->
  wf tc /\ tc = mkTenantContext ScopeTenant id noAdministrative.
Proof.
  unfold NewTenantContext. intros (v & Hv & [= <-])%rbind_Ok.
  destruct (NewTenantID_Ok _ _ Hv) as [-> _]. split; [by constructor|done].
Qed.

Lemma trim_space_empty : trim_space "" = "".
Proof. reflexivity. Qed.

Lemma NewAdministrative_Ok a r x : NewAdministrative a r = Ok x ->
  x = mkAdministrative a r "" false /\ trim_space a ≠ "" /\ trim_space r ≠ "".
Proof. unfold NewAdministrative. intros H. case_all_in H. by bool_prop. Qed.

Lemma wf_admin_context a : wf_admin a -> NewAdministrativeContext a = Ok (mkTenantContext ScopeAdministrative "" a).
Proof.
  intros (Ha & Hr & _). unfold NewAdministrativeContext.
  rewrite !bool_decide_eq_false_2; [done| |]; intros E; rewrite E in *; done.
Qed.

Lemma wf_valid tc : wf tc -> valid tc = true.
Proof. by destruct 1. Qed.

Ltac meta_lookup :=
  unfold mget;
  repeat first [rewrite lookup_insert_eq | rewrite lookup_insert_ne by done | rewrite lookup_empty].

Lemma roundtrip_tenant id : NewTenantID id = Ok id ->
  let tc := mkTenantContext ScopeTenant id noAdministrative in
  UnmarshalMetadata (MarshalMetadata tc) = Ok tc.
Proof.
  intros Hid. unfold UnmarshalMetadata, MarshalMetadata. simpl. meta_lookup. simpl.
  rewrite Hid. simpl. unfold NewTenantContext. by rewrite Hid.
Qed.

Lemma roundtrip_admin a : wf_admin a ->
  let tc := mkTenantContext ScopeAdministrative "" a in
  UnmarshalMetadata (MarshalMetadata tc) = Ok tc.
Proof.
  intros Hwf. pose proof (wf_admin_context a Hwf) as Hctx. destruct Hwf as (Ha & Hr & Hc).
  destruct a as [act rea cid has]; simpl in *.
  assert (NewAdministrative act rea = Ok (mkAdministrative act rea "" false)) as Hnew.
  { unfold NewAdministrative. by rewrite !bool_decide_eq_false_2. }
  unfold UnmarshalMetadata, MarshalMetadata. simpl. subst has.
  destruct (decide (cid = "")) as [->|Hcid].
  - rewrite (bool_decide_eq_true_2 ("" = "")) by done. simpl. meta_lookup. simpl.
    rewrite Hnew. simpl. exact Hctx.
  - rewrite (bool_decide_eq_false_2 (cid = "")) in * by done. simpl. meta_lookup. simpl.
    rewrite Hnew. simpl. rewrite (bool_decide_eq_true_2 (cid ≠ "")) by done.
    unfold WithCorrelationID. simpl. by rewrite (bool_decide_eq_false_2 (cid = "")).
Qed.

Lemma UnmarshalMetadata_wf md tc : UnmarshalMetadata md = Ok tc -> wf tc.
Proof.
  unfold UnmarshalMetadata. case_bool_decide; [|case_bool_decide; [|done]].
  - intros (id & Hid & Htc)%rbind_Ok. by apply NewTenantContext_wf in Htc as [? _].
  - intros (a & Ha & Htc)%rbind_Ok.
    apply NewAdministrative_Ok in Ha as (-> & Hact & Hrea).
    unfold NewAdministrativeContext in Htc. case_all_in Htc; constructor;
      unfold wf_admin; simpl in *; bool_prop; repeat split; try done;
      by rewrite bool_decide_eq_false_2.
Qed.

Lemma VerifyUnchanged_Ok a b u : VerifyUnchanged a b = Ok u <-> a = b.
Proof. unfold VerifyUnchanged. case_bool_decide; destruct u; naive_solver. Qed.

Lemma UnmarshalMetadata_Marshal tc : wf tc -> UnmarshalMetadata (MarshalMetadata tc) = Ok tc.
Proof. intros []; [by apply roundtrip_tenant|by apply roundtrip_admin]. Qed.

(** Identity carried as metadata: every tenant context the constructors
    build survives [MarshalMetadata] followed by [UnmarshalMetadata] exactly,
    and [UnmarshalMetadata] only ever returns a context the constructors
    could have built, so the carried path admits nothing the direct one
    refuses. *)
Theorem metadata_roundtrip (tc : TenantContext) (Hwf : wf tc) :
  UnmarshalMetadata (MarshalMetadata tc) = Ok tc
  /\ forall md tc', UnmarshalMetadata md = Ok tc' ->
       wf tc' /\ UnmarshalMetadata (MarshalMetadata tc') = Ok tc'.
Proof.
  split; [by apply UnmarshalMetadata_Marshal|]. intros md tc' H. apply UnmarshalMetadata_wf in H.
  auto using UnmarshalMetadata_Marshal.
Qed.

Lemma metadata_roundtrip_witness :
  let tc := mkTenantContext ScopeAdministrative "" (mkAdministrative "ops" "shred" "req-7" true) in
  UnmarshalMetadata (MarshalMetadata tc) = Ok tc.
Proof.
  apply (metadata_roundtrip
    (mkTenantContext ScopeAdministrative "" (mkAdministrative "ops" "shred" "req-7" true))).
  apply wf_administrative. repeat split; vm_compute; congruence.
Defined.

(** Repeated [Attach] calls along one execution, errors ignored by the
    caller. *)
Definition attach_all (ctx : Context) (tcs : list TenantContext) : Context :=
  foldl (fun c tc => (Attach c tc).1) ctx tcs.

Lemma attach_all_bound ctx tc tcs : From ctx = Some tc -> attach_all ctx tcs = ctx.
Proof.
  intros H. induction tcs as [|t tcs IH]; [done|]. simpl.
  replace (Attach ctx t).1 with ctx; [done|].
  unfold Attach. rewrite H. by repeat case_match.
Qed.

(** The identity bound to a context never changes: however many contexts
    are attached along an execution, the one read back is the identity that
    was already bound, or, when none was, the first valid one; every later
    attempt to bind another is refused with [ErrDenied] and leaves the context
    as it was. *)
Theorem attach_never_rebinds (ctx : Context) (tcs : list TenantContext) :
  From (attach_all ctx tcs) =
    match From ctx with Some t => Some t | None => List.find valid tcs end
  /\ forall t tc, From ctx = Some t -> valid tc = true -> tc ≠ t ->
       exists e, Attach ctx tc = (ctx, Some e) /\ Is e ErrDenied = true.
Proof.
  split.
  - destruct (From ctx) as [t|] eqn:E; [by rewrite (attach_all_bound _ t)|].
    induction tcs as [|tc tcs IH]; [done|]. simpl.
    destruct (valid tc) eqn:Hv.
    + unfold Attach. rewrite Hv, E. simpl. by rewrite (attach_all_bound _ tc).
    + unfold Attach. by rewrite Hv.
  - intros t tc E Hv Hne. unfold Attach. rewrite Hv, E. simpl.
    rewrite bool_decide_eq_false_2 by congruence. eauto.
Qed.

(** A single-tenant resolver advertises, without being resolved, exactly
    the tenant it resolves to in every context, and it can only be built for
    an identifier [NewTenantID] accepts. *)
Theorem single_tenant_fixed (id : string) (r : TenantResolver) (H : WithSingleTenant id = Ok r) :
  NewTenantID id = Ok id /\ FixedTenantOf (Some r) = (id, true)
  /\ forall ctx, exists tc, Resolve r ctx = Ok tc /\ wf tc /\ Tenant tc = (id, true).
Proof.
  apply rbind_Ok in H as (tc & Htc & [= <-]).
  pose proof (NewTenantContext_wf _ _ Htc) as [Hwf ->].
  split; [|split; [done|]].
  - apply rbind_Ok in Htc as (v & Hv & _). pose proof (NewTenantID_Ok _ _ Hv) as [-> _]. done.
  - intros ctx. eauto.
Qed.

Lemma single_tenant_fixed_witness :
  exists r, WithSingleTenant "Acme Europe" = Ok r /\ FixedTenantOf (Some r) = ("Acme Europe", true).
Proof.
  eexists. split; [reflexivity|].
  apply (single_tenant_fixed "Acme Europe" _ eq_refl).
Defined.

End tenancy.
