(* ===== verification/Persistence.v ===== *)
(** * Package [persistence]: write preconditions, scopes and conflicts

    [src/persistence/precondition.go], [scope.go] and [conflict.go]: the
    values every store operation is addressed and guarded with, and the
    canonical text a conflict travels the wire in, with its parser. *)

From S2P Require Import Prelude GoStrings Tenancy.
From Stdlib Require Import ZArith Lia Ascii.
Open Scope string_scope.
Open Scope list_scope.
Open Scope urd_scope.

Module persistence.

(** ** Write preconditions ([precondition.go]) *)
Inductive preconditionMode :=
  preconditionUnspecified | preconditionUnconditional | preconditionGenesis | preconditionExactRevision.
#[export] Instance preconditionMode_eq_dec : EqDecision preconditionMode.
Proof. solve_decision. Defined.

Record WritePrecondition := mkWritePrecondition { mode : preconditionMode; revision : N }.
#[export] Instance WritePrecondition_eq_dec : EqDecision WritePrecondition.
Proof. solve_decision. Defined.

Definition Unconditional : WritePrecondition := mkWritePrecondition preconditionUnconditional 0.
Definition ExpectGenesis : WritePrecondition := mkWritePrecondition preconditionGenesis 0.
Definition ExpectRevision (revision : N) : WritePrecondition :=
  mkWritePrecondition preconditionExactRevision revision.

Definition IsUnconditional (p : WritePrecondition) : bool := bool_decide (mode p = preconditionUnconditional).
Definition IsGenesis (p : WritePrecondition) : bool := bool_decide (mode p = preconditionGenesis).
Definition Revision (p : WritePrecondition) : N * bool :=
  if bool_decide (mode p ≠ preconditionExactRevision) then (0%N, false) else (revision p, true).
Definition PreconditionValid (p : WritePrecondition) : bool := bool_decide (mode p ≠ preconditionUnspecified).

Definition PreconditionString (p : WritePrecondition) : string :=
  match mode p with
  | preconditionUnconditional => "unconditional"
  | preconditionGenesis => "genesis"
  | preconditionExactRevision => format_uint (revision p)
  | preconditionUnspecified => "unspecified"
  end.

(** The preconditions the constructors build from a [uint64]. *)
Inductive wf_precondition : WritePrecondition -> Prop :=
| wf_unconditional : wf_precondition Unconditional
| wf_genesis : wf_precondition ExpectGenesis
| wf_exact r : is_u64 r -> wf_precondition (ExpectRevision r).

(** ** Scopes ([scope.go]) *)
Inductive scopeKind := scopeUnspecified | scopeUnscoped | scopeTenant.
#[export] Instance scopeKind_eq_dec : EqDecision scopeKind.
Proof. solve_decision. Defined.

Record Scope := mkScope { kind : scopeKind; stenant : string }.
#[export] Instance Scope_eq_dec : EqDecision Scope.
Proof. solve_decision. Defined.
#[export] Instance Scope_countable : Countable Scope.
Proof.
  refine (inj_countable'
    (fun s => (match kind s with scopeUnspecified => 0 | scopeUnscoped => 1 | scopeTenant => 2 end, stenant s))
    (fun p => mkScope (match p.1 with O => scopeUnspecified | S O => scopeUnscoped | _ => scopeTenant end) p.2) _).
  by intros [[] ?].
Defined.

(** The zero value [Scope{}]. *)
Definition noScope : Scope := mkScope scopeUnspecified "".
Definition Unscoped : Scope := mkScope scopeUnscoped "".

Definition NewTenantScope (id : string) : result tenancy.Error Scope :=
  let? validated := tenancy.NewTenantID id in Ok (mkScope scopeTenant validated).

Definition Valid (s : Scope) : bool :=
  match kind s with scopeUnscoped | scopeTenant => true | scopeUnspecified => false end.
Definition IsUnscoped (s : Scope) : bool := bool_decide (kind s = scopeUnscoped).
Definition TenantID (s : Scope) : string :=
  if bool_decide (kind s ≠ scopeTenant) then "" else stenant s.
Definition Equal (s other : Scope) : bool :=
  if bool_decide (kind s ≠ kind other) then false
  else match kind s with
  | scopeUnscoped => true
  | scopeTenant => bool_decide (stenant s = stenant other)
  | scopeUnspecified => false
  end.
Definition ScopeString (s : Scope) : string :=
  match kind s with
  | scopeUnscoped => "unscoped"
  | scopeTenant => "tenant:" +:+ stenant s
  | scopeUnspecified => "unspecified"
  end.

(** The scopes the constructors build. *)
Inductive wf_scope : Scope -> Prop :=
| wf_unscoped : wf_scope Unscoped
| wf_tenant_scope id : tenancy.NewTenantID id = Ok id -> wf_scope (mkScope scopeTenant id).

Lemma wf_scope_valid s : wf_scope s -> Valid s = true.
Proof. by destruct 1. Qed.

Lemma NewTenantScope_wf id s : NewTenantScope id = Ok s -> wf_scope s /\ s = mkScope scopeTenant id.
Proof.
  intros (v & Hv & [= <-])%rbind_Ok.
  pose proof (tenancy.NewTenantID_Ok _ _ Hv) as [-> _]. split; [by constructor|done].
Qed.

Lemma wf_scope_Equal s t : wf_scope s -> wf_scope t -> Equal s t = true <-> s = t.
Proof.
  intros [|id Hs] [|id' Ht]; unfold Equal; simpl; repeat case_bool_decide; naive_solver.
Qed.

(** ** Conflicts ([conflict.go]) *)
Record ConflictError := mkConflictError {
  cscope : Scope;
  persistenceID : string;
  expected : WritePrecondition;
  actualRevision : N;
  hasActual : bool
}.
#[export] Instance ConflictError_eq_dec : EqDecision ConflictError.
Proof. solve_decision. Defined.

(** [opts] holds the revisions given with [WithActualRevision], in order. *)
Definition WithActualRevision (r : N) (e : ConflictError) : ConflictError :=
  mkConflictError (cscope e) (persistenceID e) (expected e) r true.
Definition NewConflictError (sc : Scope) (pid : string) (exp : WritePrecondition)
    (opts : list (ConflictError -> ConflictError)) : ConflictError :=
  foldl (fun e opt => opt e) (mkConflictError sc pid exp 0 false) opts.
Definition ActualRevision (e : ConflictError) : N * bool := (actualRevision e, hasActual e).

(** What a store operation can fail with. *)
Inductive store_error :=
| ErrInvalidScope
| ErrInvalidPrecondition
| ErrPreconditionScope
| EConflict (e : ConflictError)
| EStore (message : string).

Definition conflictGrammarPrefix := "ego: concurrency conflict: grammar=v1, scope=".
Definition conflictTenantScopePrefix := "tenant:".
Definition conflictPersistenceIDField := ", persistence_id=".
Definition conflictExpectedField := ", expected=".
Definition conflictActualField := ", actual=".
Definition conflictUnknownActualToken := "unknown".
Definition conflictUnscopedToken := "unscoped".

Section Grammar.
(** [strconv.IsPrint] beyond ASCII, on which [strconv.Quote] depends. *)
Context (print_tbl : Z -> bool).

Definition Quote (s : string) : bytes := quote_list print_tbl (b2l s).

Definition formatConflictScope (sc : Scope) : bytes :=
  if IsUnscoped sc then b2l conflictUnscopedToken
  else if Valid sc then b2l conflictTenantScopePrefix ++ Quote (TenantID sc)
  else b2l (ScopeString sc).

Definition errorList (e : ConflictError) : bytes :=
  let actual := if hasActual e then fmt_uint_list (actualRevision e) else b2l conflictUnknownActualToken in
  b2l conflictGrammarPrefix ++ formatConflictScope (cscope e) ++
  b2l conflictPersistenceIDField ++ Quote (persistenceID e) ++
  b2l conflictExpectedField ++ b2l (PreconditionString (expected e)) ++
  b2l conflictActualField ++ actual.

(** [(e *ConflictError) Error()] *)
Definition ErrorText (e : ConflictError) : string := l2b (errorList e).

Definition parseCanonicalUint (token : bytes) : option N :=
  match parse_uint_list token with
  | Some v => if bool_decide (fmt_uint_list v = token) then Some v else None
  | None => None
  end.

Definition parsePreconditionToken (token : bytes) : option WritePrecondition :=
  if bool_decide (token = b2l "unconditional") then Some Unconditional
  else if bool_decide (token = b2l "genesis") then Some ExpectGenesis
  else ExpectRevision <$> parseCanonicalUint token.

(** [QuotedPrefix] returns the literal itself: the input less what [unquote]
    leaves; [Unquote] accepts only when nothing is left. *)
Definition cutQuoted (s : bytes) : option (string * bytes) :=
  match unquote s with
  | None => None
  | Some (_, rem) =>
    let quoted := take (List.length s - List.length rem) s in
    match unquote quoted with
    | Some (value, []) =>
      if bool_decide (quote_list print_tbl value = quoted)
      then Some (l2b value, drop (List.length quoted) s) else None
    | _ => None
    end
  end.

Definition cutConflictScope (s : bytes) : option (Scope * bytes) :=
  match strip_prefix (b2l conflictUnscopedToken) s with
  | Some rest => Some (Unscoped, rest)
  | None =>
    match strip_prefix (b2l conflictTenantScopePrefix) s with
    | None => None
    | Some rest =>
      match cutQuoted rest with
      | None => None
      | Some (tid, rest') =>
        match NewTenantScope tid with
        | Ok sc => Some (sc, rest')
        | Err _ => None
        end
      end
    end
  end.

Definition parseConflictList (message : bytes) : option ConflictError :=
  rest ← strip_prefix (b2l conflictGrammarPrefix) message;
  '(sc, rest) ← cutConflictScope rest;
  rest ← strip_prefix (b2l conflictPersistenceIDField) rest;
  '(pid, rest) ← cutQuoted rest;
  rest ← strip_prefix (b2l conflictExpectedField) rest;
  '(expectedPart, actualPart) ← cut_list (b2l conflictActualField) rest;
  exp ← parsePreconditionToken expectedPart;
  if bool_decide (actualPart = b2l conflictUnknownActualToken)
  then Some (NewConflictError sc pid exp [])
  else
    actual ← parseCanonicalUint actualPart;
    Some (NewConflictError sc pid exp [WithActualRevision actual]).

Definition ParseConflictError (message : string) : option ConflictError :=
  parseConflictList (b2l message).

(** The conflicts [NewConflictError] builds from well-formed parts. *)
Definition wf_conflict (e : ConflictError) : Prop :=
  wf_scope (cscope e) /\ wf_precondition (expected e) /\ is_u64 (actualRevision e) /\
  (hasActual e = false -> actualRevision e = 0%N).

(** *** Each token is read back, and only canonical tokens are read *)
Lemma cutQuoted_Quote s rest : cutQuoted (Quote s ++ rest) = Some (s, rest).
Proof.
  unfold cutQuoted, Quote. rewrite unquote_quote, length_app.
  replace (List.length (quote_list print_tbl (b2l s)) + List.length rest - List.length rest)
    with (List.length (quote_list print_tbl (b2l s))) by lia.
  rewrite take_app_length. pose proof (unquote_quote print_tbl (b2l s) []) as H.
  rewrite app_nil_r in H. rewrite H. rewrite bool_decide_eq_true_2 by done.
  by rewrite l2b_b2l, drop_app_length.
Qed.

Lemma cutQuoted_Some s v rest : cutQuoted s = Some (v, rest) -> s = Quote v ++ rest.
Proof.
  unfold cutQuoted. destruct (unquote s) as [[out rem]|]; [|done].
  destruct (unquote (take _ s)) as [[value [|]]|]; try done.
  case_bool_decide as E; [|done]. intros [= <- <-]. unfold Quote. rewrite b2l_l2b, E.
  symmetry. apply take_drop_len.
Qed.

Lemma parseCanonicalUint_fmt n : is_u64 n -> parseCanonicalUint (fmt_uint_list n) = Some n.
Proof.
  intros. unfold parseCanonicalUint. rewrite parse_fmt_uint by done.
  by rewrite bool_decide_eq_true_2.
Qed.

Lemma parseCanonicalUint_Some l n : parseCanonicalUint l = Some n -> l = fmt_uint_list n /\ is_u64 n.
Proof.
  unfold parseCanonicalUint. intros H. case_all_in H. bool_prop.
  split; [done|]. by eapply parse_uint_u64.
Qed.

Lemma digits_not_word l a w :
  Forall is_digit l -> ~ is_digit a -> l <> a :: w.
Proof. intros Hl Ha ->. by inversion Hl. Qed.

Lemma parsePreconditionToken_String p : wf_precondition p ->
  parsePreconditionToken (b2l (PreconditionString p)) = Some p.
Proof.
  intros [| |r Hr]; [done|done|]. unfold parsePreconditionToken, PreconditionString, format_uint. simpl.
  rewrite b2l_l2b. pose proof (fmt_uint_digits r) as Hd.
  rewrite !bool_decide_eq_false_2; [by rewrite parseCanonicalUint_fmt| |];
    apply digits_not_word; try done; unfold is_digit; vm_compute; intuition congruence.
Qed.

Lemma parsePreconditionToken_Some l p : parsePreconditionToken l = Some p ->
  b2l (PreconditionString p) = l /\ wf_precondition p.
Proof.
  unfold parsePreconditionToken. intros H. repeat case_bool_decide; simplify_eq/=.
  - split; [done|constructor].
  - split; [done|constructor].
  - apply fmap_Some in H as (n & Hn & ->). apply parseCanonicalUint_Some in Hn as [-> ?].
    split; [apply b2l_l2b|by constructor].
Qed.

Lemma cutConflictScope_format sc rest : wf_scope sc ->
  cutConflictScope (formatConflictScope sc ++ rest) = Some (sc, rest).
Proof.
  intros [|id Hid]; unfold cutConflictScope, formatConflictScope.
  - change (IsUnscoped Unscoped) with true. cbv iota. by rewrite strip_prefix_app.
  - change (TenantID (mkScope scopeTenant id)) with id.
    change (IsUnscoped (mkScope scopeTenant id)) with false.
    change (Valid (mkScope scopeTenant id)) with true. cbv iota.
    rewrite <-app_assoc.
    change (strip_prefix (b2l conflictUnscopedToken) (b2l conflictTenantScopePrefix ++ Quote id ++ rest)) with (@None bytes).
    cbv iota. rewrite strip_prefix_app, cutQuoted_Quote. unfold NewTenantScope. by rewrite Hid.
Qed.

Lemma cutConflictScope_Some l sc rest : cutConflictScope l = Some (sc, rest) ->
  l = formatConflictScope sc ++ rest /\ wf_scope sc.
Proof.
  unfold cutConflictScope. destruct (strip_prefix (b2l conflictUnscopedToken) l) eqn:E1.
  { intros [= <- <-]. apply strip_prefix_Some in E1. split; [done|constructor]. }
  destruct (strip_prefix (b2l conflictTenantScopePrefix) l) eqn:E2; [|done].
  apply strip_prefix_Some in E2 as ->.
  destruct (cutQuoted l0) as [[tid r]|] eqn:E3; [|done]. apply cutQuoted_Some in E3 as ->.
  destruct (NewTenantScope tid) eqn:E4; [|done]. intros [= <- <-].
  apply NewTenantScope_wf in E4 as [Hwf ->]. split; [|done].
  by rewrite app_assoc.
Qed.

(** A precondition's rendering has no comma, so the cut that follows it is
    at its end. *)
Lemma PreconditionString_no_comma p :
  Forall (fun a => a <> vb 44) (b2l (PreconditionString p)).
Proof.
  unfold PreconditionString. destruct (mode p); try (repeat constructor; discriminate).
  unfold format_uint. rewrite b2l_l2b. eapply Forall_impl; [apply fmt_uint_digits|].
  intros a Ha ->. unfold is_digit in Ha. vm_compute in Ha. intuition congruence.
Qed.

Lemma cut_actual p rest :
  cut_list (b2l conflictActualField) (b2l (PreconditionString p) ++ b2l conflictActualField ++ rest)
  = Some (b2l (PreconditionString p), rest).
Proof.
  assert (exists t, b2l conflictActualField = vb 44 :: t) as [t ->] by (eexists; reflexivity).
  apply cut_list_token, PreconditionString_no_comma.
Qed.

(** One step of the parser over the rendering: rewrite with the token's
    lemma and go on with what it leaves. *)
Ltac read_token L := rewrite L by done; cbn [mbind option_bind].

Lemma parse_errorList e : wf_conflict e -> parseConflictList (errorList e) = Some e.
Proof.
  destruct e as [sc pid exp act has]. intros (Hsc & Hexp & Hact & Hno); simpl in *.
  unfold parseConflictList, errorList. simpl cscope; simpl persistenceID; simpl expected; simpl hasActual; simpl actualRevision.
  read_token strip_prefix_app. read_token (cutConflictScope_format sc).
  read_token strip_prefix_app. read_token cutQuoted_Quote. read_token strip_prefix_app.
  read_token cut_actual. read_token (parsePreconditionToken_String exp).
  destruct has.
  - rewrite bool_decide_eq_false_2.
    + by rewrite parseCanonicalUint_fmt.
    + apply digits_not_word; [apply fmt_uint_digits|]. unfold is_digit. vm_compute. intuition congruence.
  - rewrite bool_decide_eq_true_2 by done. by rewrite Hno.
Qed.

Lemma errorList_parse l e : parseConflictList l = Some e -> errorList e = l /\ wf_conflict e.
Proof.
  unfold parseConflictList. intros H.
  apply bind_Some in H as (r1 & ->%strip_prefix_Some & H).
  apply bind_Some in H as ([sc r2] & [-> Hsc]%cutConflictScope_Some & H).
  apply bind_Some in H as (r3 & ->%strip_prefix_Some & H).
  apply bind_Some in H as ([pid r4] & ->%cutQuoted_Some & H).
  apply bind_Some in H as (r5 & ->%strip_prefix_Some & H).
  apply bind_Some in H as ([xp ap] & ->%cut_list_Some & H).
  apply bind_Some in H as (exp & [<- Hexp]%parsePreconditionToken_Some & H).
  case_bool_decide as Hap.
  - injection H as <-. subst ap. done.
  - apply bind_Some in H as (n & [-> Hn]%parseCanonicalUint_Some & H). injection H as <-. done.
Qed.

(** C10: [ParseConflictError] is the exact inverse of [Error] on the conflicts
    with a scope and a precondition of the public constructors ([wf_conflict];
    the zero precondition, which no constructor gives, is left out: its text
    is not parsed): such a conflict is parsed back to itself, whatever bytes
    its identifiers hold, and any message that parses is byte for byte the
    rendering of the conflict returned, which is again such a conflict. *)
Theorem conflict_roundtrip (e : ConflictError) (Hwf : wf_conflict e) :
  ParseConflictError (ErrorText e) = Some e
  /\ forall m e', ParseConflictError m = Some e' -> ErrorText e' = m /\ wf_conflict e'.
Proof.
  unfold ParseConflictError, ErrorText. split.
  - rewrite b2l_l2b. by apply parse_errorList.
  - intros m e' H. apply errorList_parse in H as [H ?]. split; [|done]. rewrite H. apply l2b_b2l.
Qed.

End Grammar.

(** A conflict whose tenant and entity names contain the grammar's own
    separators, a quote, a control byte and bytes that are not UTF-8. *)
Lemma conflict_roundtrip_witness :
  let pid := l2b [vb 34; vb 44; vb 32; vb 10; vb 255; vb 195; vb 169] in
  let e := mkConflictError (mkScope scopeTenant "a, actual=unknown") pid (ExpectRevision 7) 9 true in
  ParseConflictError (fun r => (r =? 233)%Z) (ErrorText (fun r => (r =? 233)%Z) e) = Some e.
Proof.
  apply (conflict_roundtrip (fun r => (r =? 233)%Z)
    (mkConflictError (mkScope scopeTenant "a, actual=unknown")
       (l2b [vb 34; vb 44; vb 32; vb 10; vb 255; vb 195; vb 169]) (ExpectRevision 7) 9 true)).
  repeat split; [apply wf_tenant_scope|apply wf_exact|..]; done.
Defined.

(** The doc comment of [ParseConflictError] promises the round trip for
    any conflict with a valid scope; a conflict recording the zero-value
    precondition is rendered with the token [unspecified], which the parser
    refuses, so the promise needs a constructed precondition too. *)
Theorem conflict_zero_precondition_not_parsed (print_tbl : Z -> bool) :
  let e := NewConflictError Unscoped "a" (mkWritePrecondition preconditionUnspecified 0) [] in
  Valid (cscope e) = true /\ ParseConflictError print_tbl (ErrorText print_tbl e) = None.
Proof. split; reflexivity. Qed.

End persistence.
