(* ===== verification/Egopb.v ===== *)
(** * Package [egopb]: the records the stores keep and the replies actors send

    The protobuf messages of [src/egopb/ego.pb.go], field by field. A message
    field ([anypb.Any]) is a pointer and may be nil, hence an [option]. *)

From S2P Require Import Prelude.
From Stdlib Require Import ZArith.
Open Scope string_scope.

Module egopb.

(** [anypb.Any]: a type URL and the serialized message. *)
Record Any := mkAny { TypeUrl : string; Value : string }.
#[export] Instance Any_eq_dec : EqDecision Any.
Proof. solve_decision. Defined.

Record Event := mkEvent {
  PersistenceId : string;
  SequenceNumber : N;
  IsDeleted : bool;
  EventAny : option Any;
  Timestamp : Z;
  Shard : N;
  EncryptionKeyId : string;
  IsEncrypted : bool;
  TenantMetadata : gmap string string
}.
#[export] Instance Event_eq_dec : EqDecision Event.
Proof. solve_decision. Defined.

Record Snapshot := mkSnapshot {
  sPersistenceId : string;
  sSequenceNumber : N;
  sState : option Any;
  sTimestamp : Z;
  sEncryptionKeyId : string;
  sIsEncrypted : bool;
  sTenantMetadata : gmap string string
}.
#[export] Instance Snapshot_eq_dec : EqDecision Snapshot.
Proof. solve_decision. Defined.

Record DurableState := mkDurableState {
  dPersistenceId : string;
  VersionNumber : N;
  ResultingState : option Any;
  dTimestamp : Z;
  dShard : N;
  dTenantMetadata : gmap string string
}.
#[export] Instance DurableState_eq_dec : EqDecision DurableState.
Proof. solve_decision. Defined.

Record Offset := mkOffset {
  ShardNumber : N;
  ProjectionName : string;
  OffsetValue : Z;
  OffsetTimestamp : Z
}.
#[export] Instance Offset_eq_dec : EqDecision Offset.
Proof. solve_decision. Defined.

Inductive SagaLifecycleStatus :=
  STATUS_NONE | STATUS_RUNNING | STATUS_COMPLETED | STATUS_COMPENSATING | STATUS_FAILED.
#[export] Instance SagaLifecycleStatus_eq_dec : EqDecision SagaLifecycleStatus.
Proof. solve_decision. Defined.

Record StateReply := mkStateReply {
  rPersistenceId : string;
  rState : option Any;
  rSequenceNumber : N;
  rTimestamp : Z;
  rSagaStatus : SagaLifecycleStatus
}.

(** The [oneof] of a [CommandReply]; [NoReplySet] is the unset case. *)
Inductive CommandReply :=
| CommandReply_StateReply (r : StateReply)
| CommandReply_ErrorReply (message : string)
| NoReplySet.
#[export] Instance StateReply_eq_dec : EqDecision StateReply.
Proof. solve_decision. Defined.
#[export] Instance CommandReply_eq_dec : EqDecision CommandReply.
Proof. solve_decision. Defined.

Record TenantBindingReply := mkTenantBindingReply { TenantAware : bool; Matches : bool }.

End egopb.
