(* ===== verification/StoreApi.v ===== *)
(** * The contract of an events store

    [src/persistence/events_store.go]: the operations an entity uses of an
    events store, and what it may rely on. A stream is the abstract content of
    one [(scope, persistenceID)]: its storage revision and its records by
    sequence number. The actor's theorems use this interface only; the
    in-memory store of [EventStore.v] implements it. *)

From S2P Require Import Prelude Tenancy Persistence Egopb.
From Stdlib Require Import ZArith Lia.

Module api.
Import persistence egopb.

(** ** Streams *)
Record stream := mkStream { srevision : N; records : gmap N Event }.

Definition noStream : stream := mkStream 0 ∅.

Definition put (s : stream) (e : Event) : stream :=
  mkStream (N.max (srevision s) (SequenceNumber e)) (<[SequenceNumber e := e]> (records s)).

Definition commit (s : option stream) (evs : list Event) : stream :=
  foldl put (default noStream s) evs.

Definition truncate (s : stream) (toSequenceNumber : N) : stream :=
  mkStream (srevision s) (filter (fun kv => (toSequenceNumber < kv.1)%N) (records s)).

(** When a precondition holds of a stream. *)
Definition holds (p : WritePrecondition) (s : option stream) : bool :=
  match mode p with
  | preconditionUnspecified => false
  | preconditionUnconditional => true
  | preconditionGenesis => bool_decide (s = None)
  | preconditionExactRevision =>
    match s with Some s => (srevision s =? revision p)%N | None => false end
  end.

(** The batch and precondition a store accepts. *)
Definition single_target (evs : list Event) : bool :=
  match evs with
  | [] => false
  | e :: rest => forallb (fun e' => bool_decide (PersistenceId e' = PersistenceId e)) rest
  end.

Definition target (evs : list Event) : string :=
  match evs with [] => "" | e :: _ => PersistenceId e end.

Definition of_pid (pid : string) (evs : list Event) : list Event :=
  filter (fun e => PersistenceId e = pid) evs.

(** The revision never trails a record. *)
Definition stream_ok (s : stream) : Prop :=
  map_Forall (fun n e => SequenceNumber e = n /\ (n <= srevision s)%N) (records s).

Definition seq_lt (a b : Event) : Prop := (SequenceNumber a < SequenceNumber b)%N.
#[export] Instance seq_lt_trans : Transitive seq_lt.
Proof. intros ???. unfold seq_lt. lia. Qed.

(** [l] is the records of [s] numbered from [from] to [to], in order. *)
Definition range_of (s : option stream) (from to : N) (l : list Event) : Prop :=
  StronglySorted seq_lt l /\
  forall e, e ∈ l <-> (from <= SequenceNumber e <= to)%N /\
                records (default noStream s) !! SequenceNumber e = Some e.

Definition latest_of (s : option stream) (r : option Event) : Prop :=
  match r with
  | None => records (default noStream s) = ∅
  | Some e => records (default noStream s) !! SequenceNumber e = Some e /\
              forall n e', records (default noStream s) !! n = Some e' ->
                      (SequenceNumber e' <= SequenceNumber e)%N
  end.

(** ** The interface *)
Class EventsStore (St : Type) := {
  WriteEvents : St -> Scope -> list Event -> WritePrecondition -> result store_error unit * St;
  DeleteEvents : St -> Scope -> string -> N -> result store_error unit * St;
  (** [None]: the call panics *)
  ReplayEvents : St -> Scope -> string -> N -> N -> N -> option (result store_error (list Event));
  GetLatestEvent : St -> Scope -> string -> result store_error (option Event)
}.

Definition max_int : N := 9223372036854775807.

(** What an entity relies on. A store may fail for reasons of its own
    ([EStore]); it then changed nothing. *)
Class EventsStoreLaws (St : Type) `{EventsStore St} := {
  store_ok : St -> Prop;
  view : St -> Scope -> string -> option stream;
  view_ok st sc pid s : store_ok st -> view st sc pid = Some s -> stream_ok s;
  write_ok st sc evs p st' : store_ok st -> WriteEvents st sc evs p = (Ok tt, st') ->
    store_ok st' /\ Valid sc = true /\ PreconditionValid p = true /\
    (IsUnconditional p = false ->
       single_target evs = true /\ holds p (view st sc (target evs)) = true) /\
    forall sc' pid', view st' sc' pid' =
      if decide (sc' = sc /\ of_pid pid' evs <> [])
      then Some (commit (view st sc pid') (of_pid pid' evs)) else view st sc' pid';
  write_err st sc evs p e st' : store_ok st -> WriteEvents st sc evs p = (Err e, st') ->
    st' = st;
  write_conflict st sc evs p : store_ok st ->
    Valid sc = true -> PreconditionValid p = true -> single_target evs = true ->
    holds p (view st sc (target evs)) = false ->
    exists e, (WriteEvents st sc evs p).1 = Err (EConflict e) \/
         exists m, (WriteEvents st sc evs p).1 = Err (EStore m);
  delete_ok st sc pid to st' : store_ok st -> DeleteEvents st sc pid to = (Ok tt, st') ->
    store_ok st' /\ Valid sc = true /\
    forall sc' pid', view st' sc' pid' =
      if decide (sc' = sc /\ pid' = pid)
      then (fun s => truncate s to) <$> view st sc pid else view st sc' pid';
  delete_err st sc pid to e st' : store_ok st -> DeleteEvents st sc pid to = (Err e, st') ->
    st' = st;
  replay_ok st sc pid from to limit l : store_ok st -> (limit <= max_int)%N ->
    ReplayEvents st sc pid from to limit = Some (Ok l) ->
    exists all, range_of (view st sc pid) from to all /\ l = take (N.to_nat limit) all;
  replay_total st sc pid from to limit : store_ok st -> (limit <= max_int)%N ->
    ReplayEvents st sc pid from to limit <> None;
  latest_ok st sc pid r : store_ok st -> GetLatestEvent st sc pid = Ok r ->
    latest_of (view st sc pid) r
}.

(** A store that never fails on a valid scope. *)
Class ReliableEventsStore (St : Type) `{EventsStoreLaws St} := {
  write_succeeds st sc evs p : store_ok st -> Valid sc = true -> PreconditionValid p = true ->
    single_target evs = true -> holds p (view st sc (target evs)) = true ->
    exists st', WriteEvents st sc evs p = (Ok tt, st');
  replay_succeeds st sc pid from to limit : store_ok st -> Valid sc = true -> (limit <= max_int)%N ->
    exists l, ReplayEvents st sc pid from to limit = Some (Ok l);
  latest_succeeds st sc pid : store_ok st -> Valid sc = true ->
    exists r, GetLatestEvent st sc pid = Ok r
}.

(** ** Snapshot stores ([src/persistence/snapshot_store.go]) *)
Class SnapshotStore (Sn : Type) := {
  WriteSnapshot : Sn -> Scope -> Snapshot -> result store_error unit * Sn;
  GetLatestSnapshot : Sn -> Scope -> string -> result store_error (option Snapshot);
  DeleteSnapshots : Sn -> Scope -> string -> N -> result store_error unit * Sn
}.

Definition latest_snapshot (m : gmap N Snapshot) (r : option Snapshot) : Prop :=
  match r with
  | None => m = ∅
  | Some s => m !! sSequenceNumber s = Some s /\ forall n s', m !! n = Some s' -> (n <= sSequenceNumber s)%N
  end.

Class SnapshotStoreLaws (Sn : Type) `{SnapshotStore Sn} := {
  snap_ok : Sn -> Prop;
  sview : Sn -> Scope -> string -> gmap N Snapshot;
  sview_ok st sc pid n s : snap_ok st -> sview st sc pid !! n = Some s ->
    sSequenceNumber s = n /\ sPersistenceId s = pid;
  swrite_ok st sc s st' : snap_ok st -> wf_scope sc -> WriteSnapshot st sc s = (Ok tt, st') ->
    snap_ok st' /\ forall sc' pid', sview st' sc' pid' =
      if decide (sc' = sc /\ pid' = sPersistenceId s)
      then <[sSequenceNumber s := s]> (sview st sc' pid') else sview st sc' pid';
  swrite_err st sc s e st' : snap_ok st -> WriteSnapshot st sc s = (Err e, st') -> st' = st;
  slatest_ok st sc pid r : snap_ok st -> wf_scope sc -> GetLatestSnapshot st sc pid = Ok r ->
    latest_snapshot (sview st sc pid) r;
  sdelete_ok st sc pid to st' : snap_ok st -> wf_scope sc -> DeleteSnapshots st sc pid to = (Ok tt, st') ->
    snap_ok st' /\ forall sc' pid', sview st' sc' pid' =
      if decide (sc' = sc /\ pid' = pid)
      then filter (fun kv => (to < kv.1)%N) (sview st sc' pid') else sview st sc' pid';
  sdelete_err st sc pid to e st' : snap_ok st -> DeleteSnapshots st sc pid to = (Err e, st') -> st' = st
}.

Class ReliableSnapshotStore (Sn : Type) `{SnapshotStoreLaws Sn} := {
  slatest_succeeds st sc pid : snap_ok st -> wf_scope sc -> exists r, GetLatestSnapshot st sc pid = Ok r
}.

(** ** State stores ([src/persistence/state_store.go]) *)
Class StateStore (St : Type) := {
  WriteState : St -> Scope -> DurableState -> WritePrecondition -> result store_error unit * St;
  GetLatestState : St -> Scope -> string -> result store_error (option DurableState)
}.

Definition state_holds (p : WritePrecondition) (cur : option DurableState) : bool :=
  match mode p with
  | preconditionUnspecified => false
  | preconditionUnconditional => true
  | preconditionGenesis => bool_decide (cur = None)
  | preconditionExactRevision =>
    match cur with Some d => (VersionNumber d =? revision p)%N | None => false end
  end.

Class StateStoreLaws (St : Type) `{StateStore St} := {
  dview : St -> Scope -> string -> option DurableState;
  dwrite_ok st sc d p st' : WriteState st sc d p = (Ok tt, st') ->
    Valid sc = true /\ state_holds p (dview st sc (dPersistenceId d)) = true /\
    forall sc' pid', dview st' sc' pid' =
      if decide (sc' = sc /\ pid' = dPersistenceId d) then Some d else dview st sc' pid';
  dwrite_err st sc d p e st' : WriteState st sc d p = (Err e, st') -> st' = st;
  dlatest_ok st sc pid r : GetLatestState st sc pid = Ok r -> r = dview st sc pid
}.

(** ** Consequences used by the clients *)
Lemma sorted_unique (l1 l2 : list Event) :
  StronglySorted seq_lt l1 -> StronglySorted seq_lt l2 -> (forall e, e ∈ l1 <-> e ∈ l2) -> l1 = l2.
Proof.
  revert l2. induction l1 as [|a l1 IH]; intros [|b l2] H1 H2 Heq; [done| | |].
  - exfalso. apply (not_elem_of_nil b), Heq. left.
  - exfalso. apply (not_elem_of_nil a), Heq. left.
  - apply StronglySorted_inv in H1 as [H1 F1]. apply StronglySorted_inv in H2 as [H2 F2].
    rewrite Forall_forall in F1, F2.
    assert (a = b) as ->.
    { assert (a ∈ b :: l2) as [|Ha]%elem_of_cons by (apply Heq; left); [done|].
      assert (b ∈ a :: l1) as [|Hb]%elem_of_cons by (apply Heq; left); [done|].
      apply F2 in Ha. apply F1 in Hb. unfold seq_lt in *. lia. }
    f_equal. apply IH; [done..|]. intros e. specialize (Heq e). rewrite !elem_of_cons in Heq.
    split; intros He.
    + destruct (proj1 Heq (or_intror He)) as [->|]; [|done]. apply F1 in He. unfold seq_lt in He. lia.
    + destruct (proj2 Heq (or_intror He)) as [->|]; [|done]. apply F2 in He. unfold seq_lt in He. lia.
Qed.

Lemma range_of_unique s from to l1 l2 :
  range_of s from to l1 -> range_of s from to l2 -> l1 = l2.
Proof. intros [S1 E1] [S2 E2]. apply sorted_unique; [done..|]. intros e. by rewrite E1, E2. Qed.

Lemma records_commit s evs n :
  records (commit s evs) !! n =
  match last (filter (fun e => SequenceNumber e = n) evs) with
  | Some e => Some e
  | None => records (default noStream s) !! n
  end.
Proof.
  unfold commit. induction evs as [|e evs IH] using rev_ind; [done|].
  rewrite foldl_snoc, filter_app. simpl. rewrite filter_cons, filter_nil. case_decide as E.
  - rewrite last_snoc. subst. apply lookup_insert_eq.
  - rewrite app_nil_r, lookup_insert_ne by done. apply IH.
Qed.

Lemma put_ok s e : stream_ok s -> stream_ok (put s e).
Proof.
  intros Hs n e'. simpl. destruct (decide (n = SequenceNumber e)) as [->|].
  - rewrite lookup_insert_eq. intros [= ->]. split; [done|lia].
  - rewrite lookup_insert_ne by done. intros [? ?]%Hs. split; [done|lia].
Qed.

Lemma commit_ok s evs : (forall s', s = Some s' -> stream_ok s') -> stream_ok (commit s evs).
Proof.
  intros Hs. unfold commit. induction evs as [|e evs IH] using rev_ind.
  - destruct s; simpl; [auto|]. apply map_Forall_empty.
  - rewrite foldl_snoc. by apply put_ok.
Qed.

Lemma srevision_commit s evs :
  srevision (commit s evs) = foldl (fun r e => N.max r (SequenceNumber e)) (srevision (default noStream s)) evs.
Proof.
  unfold commit. induction evs as [|e evs IH] using rev_ind; [done|]. rewrite !foldl_snoc. simpl. by rewrite IH.
Qed.

Lemma truncate_ok s to : stream_ok s -> stream_ok (truncate s to).
Proof. intros Hs n e. simpl. intros [? _]%map_lookup_filter_Some. by apply Hs. Qed.

Lemma of_pid_single evs : single_target evs = true -> of_pid (target evs) evs = evs.
Proof.
  destruct evs as [|e evs]; [done|]. simpl. intros Hf. unfold of_pid.
  rewrite filter_cons_True by done. f_equal.
  induction evs as [|x evs IH]; [done|]. simpl in Hf. bool_prop.
  rewrite filter_cons_True by done. f_equal. by apply IH.
Qed.

Lemma of_pid_other evs pid : single_target evs = true -> pid <> target evs -> of_pid pid evs = [].
Proof.
  intros Hs Hne. destruct (of_pid pid evs) as [|x l] eqn:E; [done|]. exfalso.
  assert (x ∈ of_pid pid evs) as Hx by (rewrite E; left).
  unfold of_pid in Hx. apply list_elem_of_filter in Hx as [Hx Hin].
  pose proof (of_pid_single _ Hs) as Ha. rewrite <- Ha in Hin.
  apply list_elem_of_filter in Hin as [? _]. congruence.
Qed.

End api.
