(* ===== verification/EventStore.v ===== *)
(** * The in-memory events store ([src/testkit/eventstore.go])

    A [sync.Map] from [(scope, persistenceID)] to immutable logs. A log is
    published under a fresh identity, because [CompareAndSwap] compares
    pointers; every writer is a small program of atomic map operations, run to
    completion for a single caller and interleaved arbitrarily for concurrent
    ones. The file shows that the store implements the contract of
    [StoreApi.v] and that conditional writers racing on a stream have at most
    one winner. *)

From S2P Require Import Prelude Tenancy Persistence Egopb StoreApi.
From Stdlib Require Import ZArith Lia.
Open Scope list_scope.
Open Scope urd_scope.

Module testkit.
Import persistence egopb.

(** ** State *)
Record eventLog := mkEventLog { lrevision : N; events : list Event }.
#[export] Instance eventLog_eq_dec : EqDecision eventLog.
Proof. solve_decision. Defined.
Abbreviation eventStoreKey := (Scope * string)%type.

(** [*eventLog]: an identity and the immutable value behind it. *)
Abbreviation logRef := (nat * eventLog)%type.

Record EventStore := mkEventStore {
  db : gmap eventStoreKey logRef;
  fresh : nat;
  connected : bool
}.

Definition NewEventsStore : EventStore := mkEventStore ∅ 0 false.

(** ** The [sync.Map] operations *)
Definition Load (x : EventStore) (k : eventStoreKey) : option logRef := db x !! k.

Definition publish (x : EventStore) (k : eventStoreKey) (l : eventLog) : EventStore :=
  mkEventStore (<[k := (fresh x, l)]> (db x)) (S (fresh x)) (connected x).

(** Returns the value already there, if any, and otherwise stores [l]. *)
Definition LoadOrStore (x : EventStore) (k : eventStoreKey) (l : eventLog) : option logRef * EventStore :=
  match db x !! k with
  | Some actual => (Some actual, x)
  | None => (None, publish x k l)
  end.

Definition CompareAndSwap (x : EventStore) (k : eventStoreKey) (old : logRef) (l : eventLog) : bool * EventStore :=
  match db x !! k with
  | Some cur => if (cur.1 =? old.1)%nat then (true, publish x k l) else (false, x)
  | None => (false, x)
  end.

(** ** Connection *)
Definition Connect (x : EventStore) : EventStore :=
  if connected x then x else mkEventStore (db x) (fresh x) true.
Definition Disconnect (x : EventStore) : EventStore :=
  if connected x then mkEventStore ∅ (fresh x) false else x.
Definition Ping (x : EventStore) : EventStore :=
  if connected x then x else Connect x.

(** ** [newEventLog] *)
Definition index_step (acc : nat * gmap N nat) (e : Event) : nat * gmap N nat :=
  (S acc.1, <[SequenceNumber e := acc.1]> acc.2).
Definition indexBySequence (l : list Event) : gmap N nat := (foldl index_step (0%nat, ∅) l).2.

Definition mergeEvent (acc : list Event * gmap N nat * N) (event : Event) : list Event * gmap N nat * N :=
  let '(merged, index, revision) := acc in
  let sn := SequenceNumber event in
  let '(merged, index) :=
    match index !! sn with
    | Some i => (<[i := event]> merged, index)
    | None => (merged ++ [event], <[sn := length merged]> index)
    end in
  (merged, index, if (revision <? sn)%N then sn else revision).
Arguments mergeEvent : simpl never.

Definition newEventLog (old : option eventLog) (newEvents : list Event) : eventLog :=
  let revision := match old with Some l => lrevision l | None => 0%N end in
  let existing := match old with Some l => events l | None => [] end in
  let '(merged, _, revision) := foldl mergeEvent (existing, indexBySequence existing, revision) newEvents in
  mkEventLog revision merged.

(** ** Writers as programs of atomic operations

    [Start] is about to load the log, [Publish] about to store the successor
    it computed from what it loaded, [Report] about to load the revision a
    lost race is reported with. *)
Inductive pc :=
| Start
| Publish (old : option logRef) (new : eventLog)
| Report
| Done (r : result store_error unit).

Definition conflict_at (sc : Scope) (pid : string) (p : WritePrecondition) (found : option logRef) : result store_error unit :=
  Err (EConflict (NewConflictError sc pid p
    match found with Some r => [WithActualRevision (lrevision r.2)] | None => [] end)).

Section Programs.
Context (sc : Scope) (pid : string).

Definition writeConditional_step (evs : list Event) (p : WritePrecondition) (c : pc) (x : EventStore) : pc * EventStore :=
  match c with
  | Start =>
    let found := Load x (sc, pid) in
    if IsGenesis p then
      match found with
      | Some _ => (Done (conflict_at sc pid p found), x)
      | None => (Publish None (newEventLog None evs), x)
      end
    else
      let '(expectedRevision, _) := Revision p in
      match found with
      | None => (Done (conflict_at sc pid p None), x)
      | Some r =>
        if (lrevision r.2 =? expectedRevision)%N
        then (Publish (Some r) (newEventLog (Some r.2) evs), x)
        else (Done (conflict_at sc pid p found), x)
      end
  | Publish None new =>
    match LoadOrStore x (sc, pid) new with
    | (Some actual, x') => (Done (conflict_at sc pid p (Some actual)), x')
    | (None, x') => (Done (Ok tt), x')
    end
  | Publish (Some old) new =>
    match CompareAndSwap x (sc, pid) old new with
    | (true, x') => (Done (Ok tt), x')
    | (false, x') => (Report, x')
    end
  | Report => (Done (conflict_at sc pid p (Load x (sc, pid))), x)
  | Done r => (Done r, x)
  end.

(** One key of an unconditional write: retry until the log is published. *)
Definition writeGroup_step (group : list Event) (c : pc) (x : EventStore) : pc * EventStore :=
  match c with
  | Start =>
    let found := Load x (sc, pid) in
    (Publish found (newEventLog (snd <$> found) group), x)
  | Publish None new =>
    match LoadOrStore x (sc, pid) new with
    | (Some _, x') => (Start, x')
    | (None, x') => (Done (Ok tt), x')
    end
  | Publish (Some old) new =>
    match CompareAndSwap x (sc, pid) old new with
    | (true, x') => (Done (Ok tt), x')
    | (false, x') => (Start, x')
    end
  | Report => (Start, x)
  | Done r => (Done r, x)
  end.

Definition deleteEvents_step (toSequenceNumber : N) (c : pc) (x : EventStore) : pc * EventStore :=
  match c with
  | Start =>
    match Load x (sc, pid) with
    | None => (Done (Ok tt), x)
    | Some r =>
      let retained := filter (fun e => (toSequenceNumber < SequenceNumber e)%N) (events r.2) in
      if (length retained =? length (events r.2))%nat then (Done (Ok tt), x)
      else (Publish (Some r) (mkEventLog (lrevision r.2) retained), x)
    end
  | Publish (Some old) new =>
    match CompareAndSwap x (sc, pid) old new with
    | (true, x') => (Done (Ok tt), x')
    | (false, x') => (Start, x')
    end
  | Publish None _ | Report => (Start, x)
  | Done r => (Done r, x)
  end.
End Programs.

(** Run a program alone for at most [fuel] atomic operations. *)
Fixpoint run (step : pc -> EventStore -> pc * EventStore) (fuel : nat) (c : pc) (x : EventStore) : pc * EventStore :=
  match fuel with
  | O => (c, x)
  | S fuel => let '(c, x) := step c x in run step fuel c x
  end.

(** ** The operations of one caller *)
Definition finish (r : pc * EventStore) : result store_error unit * EventStore :=
  match r with
  | (Done res, x) => (res, x)
  | (_, x) => (Err (EStore "not finished"), x)
  end.

Definition writeConditional (x : EventStore) (sc : Scope) (pid : string) (evs : list Event) (p : WritePrecondition) :=
  finish (run (writeConditional_step sc pid evs p) 3 Start x).

Definition group_step (acc : gmap string (list Event) * list string) (event : Event) :=
  let '(grouped, order) := acc in
  let id := PersistenceId event in
  let order := match grouped !! id with Some _ => order | None => order ++ [id] end in
  (<[id := default [] (grouped !! id) ++ [event]]> grouped, order).

Definition groups (evs : list Event) : list (string * list Event) :=
  let '(grouped, order) := foldl group_step (∅, []) evs in
  (fun id => (id, default [] (grouped !! id))) <$> order.

Definition writeGroup (x : EventStore) (sc : Scope) (g : string * list Event) : result store_error EventStore :=
  match finish (run (writeGroup_step sc g.1 g.2) 2 Start x) with
  | (Ok _, x') => Ok x'
  | (Err e, _) => Err e
  end.

Definition writeUnconditional (x : EventStore) (sc : Scope) (evs : list Event) : result store_error unit * EventStore :=
  match rfold (fun x g => writeGroup x sc g) x (groups evs) with
  | Ok x' => (Ok tt, x')
  | Err e => (Err e, x)
  end.

Definition WriteEvents (x : EventStore) (sc : Scope) (evs : list Event) (p : WritePrecondition) : result store_error unit * EventStore :=
  if negb (Valid sc) then (Err ErrInvalidScope, x)
  else if negb (PreconditionValid p) then (Err ErrInvalidPrecondition, x)
  else if IsUnconditional p then writeUnconditional x sc evs
  else match evs with
  | [] => (Err ErrPreconditionScope, x)
  | e :: rest =>
    if existsb (fun e' => negb (bool_decide (PersistenceId e' = PersistenceId e))) rest
    then (Err ErrPreconditionScope, x)
    else writeConditional x sc (PersistenceId e) evs p
  end.

Definition DeleteEvents (x : EventStore) (sc : Scope) (pid : string) (toSequenceNumber : N) : result store_error unit * EventStore :=
  if negb (Valid sc) then (Err ErrInvalidScope, x)
  else finish (run (deleteEvents_step sc pid toSequenceNumber) 2 Start x).

(** [int(limit)]: [None] stands for the negative values, whose slice expression
    panics. *)
Definition int_of_uint64 (n : N) : option N :=
  if (n <=? api.max_int)%N then Some n else None.

(** [sort.SliceStable] on the sequence number *)
Fixpoint insert_by (lt : Event -> Event -> bool) (e : Event) (l : list Event) : list Event :=
  match l with
  | [] => [e]
  | x :: l' => if lt e x then e :: l else x :: insert_by lt e l'
  end.
Definition stable_sort (lt : Event -> Event -> bool) (l : list Event) : list Event :=
  foldl (fun acc e => insert_by lt e acc) [] l.
Definition seq_ltb (a b : Event) : bool := (SequenceNumber a <? SequenceNumber b)%N.

Definition ReplayEvents (x : EventStore) (sc : Scope) (pid : string) (from to limit : N) : option (result store_error (list Event)) :=
  if negb (Valid sc) then Some (Err ErrInvalidScope)
  else match Load x (sc, pid) with
  | None => Some (Ok [])
  | Some r =>
    let evs := filter (fun e => (from <= SequenceNumber e)%N /\ (SequenceNumber e <= to)%N) (events r.2) in
    let evs := stable_sort seq_ltb evs in
    match int_of_uint64 limit with
    | None => None
    | Some n => Some (Ok (if (n <? N.of_nat (length evs))%N then take (N.to_nat n) evs else evs))
    end
  end.

Definition GetLatestEvent (x : EventStore) (sc : Scope) (pid : string) : result store_error (option Event) :=
  if negb (Valid sc) then Err ErrInvalidScope
  else match Load x (sc, pid) with
  | None => Ok None
  | Some r =>
    match events r.2 with
    | [] => Ok None
    | e :: rest =>
      Ok (Some (foldl (fun latest event =>
        if (SequenceNumber latest <? SequenceNumber event)%N then event else latest) e rest))
    end
  end.

(** ** Enumeration and shard reads

    [sync.Map.Range] visits the entries in an order of its own. *)
Definition str_ltb (a b : string) : bool := bool_decide (String.compare a b = Lt).

(** [sort.Strings]: increasing byte-wise order *)
Definition sort_strings (l : list string) : list string := merge_sort String.le l.

(** The index of the first key after the token, 0 when there is none. *)
Fixpoint first_after (token : string) (i : nat) (keys : list string) : nat :=
  match keys with
  | [] => 0
  | k :: keys => if str_ltb token k then i else first_after token (S i) keys
  end.

Section Reads.
Context (range : gmap eventStoreKey logRef -> list (eventStoreKey * logRef)).

Definition scope_keys (x : EventStore) (sc : Scope) : list string :=
  sort_strings ((fun kv => kv.1.2) <$> filter (fun kv => Equal kv.1.1 sc = true) (range (db x))).

(** [None]: the slice expression panics ([int(pageSize)] negative, or
    [startIndex + int(pageSize)] wrapping below [startIndex]). *)
Definition PersistenceIDs (x : EventStore) (sc : Scope) (pageSize : N) (pageToken : string) : option (result store_error (list string * string)) :=
  if negb (Valid sc) then Some (Err ErrInvalidScope)
  else
    let keys := scope_keys x sc in
    let startIndex := if bool_decide (pageToken <> "") then first_after pageToken 0 keys else 0%nat in
    if (api.max_int <? N.of_nat startIndex + pageSize)%N then None
    else
      let endIndex := Nat.min (startIndex + N.to_nat pageSize) (length keys) in
      let ids := take (endIndex - startIndex) (drop startIndex keys) in
      Some (Ok (ids,
        if (endIndex <? length keys)%nat && (0 <? length ids)%nat then default "" (last ids) else "")).

(** The loop the pagination contract prescribes: call until the token is
    empty. *)
Fixpoint list_all (x : EventStore) (sc : Scope) (pageSize : N) (fuel : nat) (token : string) : option (list string) :=
  match fuel with
  | O => None
  | S fuel =>
    match PersistenceIDs x sc pageSize token with
    | Some (Ok (ids, next)) =>
      if bool_decide (next = "") then Some ids
      else (fun rest => ids ++ rest) <$> list_all x sc pageSize fuel next
    | _ => None
    end
  end.

Definition shard_events (x : EventStore) (shardNumber : N) : list Event :=
  filter (fun e => Shard e = shardNumber) (mjoin ((fun kv => events kv.2.2) <$> range (db x))).

(** [sort.SliceStable(events, func(i, j) bool { return ts(i) <= ts(j) })] *)
Context (timestamp_sort : list Event -> list Event).

(** [if len(events) <= int(limit) { append }]: a negative [int(limit)] admits
    nothing. *)
Definition admit_event (limit : N) (acc : list Event) (event : Event) : list Event :=
  match int_of_uint64 limit with
  | Some n => if (N.of_nat (length acc) <=? n)%N then acc ++ [event] else acc
  | None => acc
  end.

Definition GetShardEvents (x : EventStore) (shardNumber : N) (offset : Z) (limit : N) : list Event * Z :=
  match shard_events x shardNumber with
  | [] => ([], 0%Z)
  | shardEvents =>
    let evs := foldl (fun acc e => if (offset <? Timestamp e)%Z then admit_event limit acc e else acc) [] shardEvents in
    match evs with
    | [] => ([], 0%Z)
    | _ => let sorted := timestamp_sort evs in
      (sorted, match last sorted with Some e => Timestamp e | None => 0%Z end)
    end
  end.

Definition shard_max (offsets : gmap N Z) (event : Event) : gmap N Z :=
  if (default 0%Z (offsets !! Shard event) <? Timestamp event)%Z
  then <[Shard event := Timestamp event]> offsets else offsets.

Definition ShardOffsets (x : EventStore) : gmap N Z :=
  foldl shard_max ∅ (mjoin ((fun kv => events kv.2.2) <$> range (db x))).
End Reads.

(** ** The log against the abstract stream *)
Definition log_map (l : list Event) : gmap N Event := list_to_map ((fun e => (SequenceNumber e, e)) <$> l).
Definition log_stream (l : eventLog) : api.stream := api.mkStream (lrevision l) (log_map (events l)).

(** One record per sequence number, none above the revision. *)
Definition wf_log (l : eventLog) : Prop :=
  NoDup (SequenceNumber <$> events l) /\ Forall (fun e => (SequenceNumber e <= lrevision l)%N) (events l).

Definition wf_store (x : EventStore) : Prop := map_Forall (fun _ r => wf_log r.2) (db x).

Definition index_ok (l : list Event) (index : gmap N nat) : Prop :=
  forall sn i, index !! sn = Some i <-> exists e, l !! i = Some e /\ SequenceNumber e = sn.

Lemma index_ok_NoDup l index : index_ok l index -> NoDup (SequenceNumber <$> l).
Proof.
  intros H. apply NoDup_alt. intros i j sn Hi Hj.
  rewrite list_lookup_fmap in Hi, Hj.
  apply fmap_Some in Hi as (e & Hi & ->), Hj as (e' & Hj & Heq).
  assert (index !! SequenceNumber e = Some i) by (apply H; eauto).
  assert (index !! SequenceNumber e = Some j) by (apply H; eauto). congruence.
Qed.

Lemma indexBySequence_snoc l e :
  indexBySequence (l ++ [e]) = <[SequenceNumber e := length l]> (indexBySequence l).
Proof.
  unfold indexBySequence.
  assert (forall l acc, (foldl index_step acc l).1 = (acc.1 + length l)%nat) as Hlen.
  { clear. intros l. induction l as [|e l IH]; intros acc; simpl; [lia|]. rewrite IH. simpl. lia. }
  rewrite foldl_snoc. unfold index_step at 1. simpl. by rewrite Hlen.
Qed.

Lemma index_ok_snoc l index e :
  index_ok l index -> index !! SequenceNumber e = None ->
  index_ok (l ++ [e]) (<[SequenceNumber e := length l]> index).
Proof.
  intros H Hnone sn i. destruct (decide (sn = SequenceNumber e)) as [->|Hne].
  - rewrite lookup_insert_eq. split.
    + intros [= <-]. exists e. by rewrite lookup_app_r, Nat.sub_diag by lia.
    + intros (e' & Hl & Heq). apply lookup_app_Some in Hl as [Hl|[Hge Hl]].
      * assert (index !! SequenceNumber e = Some i) by (apply H; eauto). congruence.
      * destruct (i - length l)%nat as [|n] eqn:En; [|by destruct n]. f_equal. lia.
  - rewrite lookup_insert_ne, (H sn i) by done. split; intros (e' & Hl & <-); exists e'; (split; [|done]).
    + by apply lookup_app_l_Some.
    + apply lookup_app_Some in Hl as [Hl|[Hge Hl]]; [done|].
      destruct (i - length l)%nat as [|n]; simpl in Hl; [congruence|by destruct n].
Qed.

Lemma index_ok_replace l index e i :
  index_ok l index -> index !! SequenceNumber e = Some i -> index_ok (<[i := e]> l) index.
Proof.
  intros H Hi sn j. pose proof (proj1 (H _ _) Hi) as (e0 & Hl0 & Hsn0).
  rewrite (H sn j). destruct (decide (j = i)) as [->|Hne].
  - rewrite list_lookup_insert_eq by (by eapply lookup_lt_Some).
    split; intros (e' & Hl & Heq); simplify_eq; eauto.
  - by rewrite list_lookup_insert_ne.
Qed.

Lemma indexBySequence_ok l : NoDup (SequenceNumber <$> l) -> index_ok l (indexBySequence l).
Proof.
  induction l as [|e l IH] using rev_ind; intros Hnd.
  - intros sn i. by split; [|intros (? & ? & _)].
  - rewrite fmap_app in Hnd. apply NoDup_app in Hnd as (Hnd & Hdis & _).
    rewrite indexBySequence_snoc. apply index_ok_snoc; [by apply IH|].
    destruct (indexBySequence l !! SequenceNumber e) as [i|] eqn:E; [|done]. exfalso.
    apply IH in E as (e' & Hl & Heq); [|done].
    apply (Hdis (SequenceNumber e)); [|simpl; by left].
    rewrite <- Heq. apply list_elem_of_fmap. exists e'. split; [done|]. by eapply list_elem_of_lookup_2.
Qed.

Lemma log_map_lookup l sn e : NoDup (SequenceNumber <$> l) ->
  log_map l !! sn = Some e <-> e ∈ l /\ SequenceNumber e = sn.
Proof.
  intros Hnd. unfold log_map. rewrite <- elem_of_list_to_map.
  - rewrite list_elem_of_fmap. naive_solver.
  - by rewrite <- list_fmap_compose.
Qed.

Lemma mergeEvent_ok merged index rev e : index_ok merged index ->
  let '(merged', index', rev') := mergeEvent (merged, index, rev) e in
  index_ok merged' index' /\ log_map merged' = <[SequenceNumber e := e]> (log_map merged) /\
  rev' = N.max rev (SequenceNumber e) /\ (forall x, x ∈ merged' -> x = e \/ x ∈ merged).
Proof.
  intros Hidx. unfold mergeEvent.
  assert (forall r, (if (rev <? SequenceNumber e)%N then SequenceNumber e else rev) = r <-> r = N.max rev (SequenceNumber e)) as Hrev.
  { intros r. destruct (N.ltb_spec rev (SequenceNumber e)); lia. }
  destruct (index !! SequenceNumber e) as [i|] eqn:E.
  - pose proof (index_ok_replace _ _ _ _ Hidx E) as Hok.
    split_and!; [done| |by apply Hrev|].
    + apply map_eq. intros sn. apply option_eq. intros e'.
      rewrite lookup_insert_Some, !log_map_lookup by eauto using index_ok_NoDup.
      apply Hidx in E as (e0 & Hl0 & Hsn0). pose proof (lookup_lt_Some _ _ _ Hl0).
      rewrite !list_elem_of_lookup. split.
      * intros [[j Hj] <-]. apply list_lookup_insert_Some in Hj as [(-> & -> & _)|[Hne Hj]]; [by left|].
        right. split; [|eauto]. intros Heq. apply Hne.
        assert (index !! SequenceNumber e = Some i) by (apply Hidx; eauto).
        assert (index !! SequenceNumber e = Some j) by (apply Hidx; eauto). congruence.
      * intros [[<- ->]|[Hne [[j Hj] <-]]].
        -- split; [|done]. exists i. by apply list_lookup_insert_eq.
        -- split; [|done]. exists j. rewrite list_lookup_insert_ne; [done|]. intros ->. congruence.
    + intros x [j Hj]%list_elem_of_lookup.
      apply list_lookup_insert_Some in Hj as [(_ & -> & _)|[_ Hj]]; [by left|].
      right. by eapply list_elem_of_lookup_2.
  - pose proof (index_ok_snoc _ _ _ Hidx E) as Hok.
    split_and!; [done| |by apply Hrev|].
    + apply map_eq. intros sn. apply option_eq. intros e'.
      rewrite lookup_insert_Some, !log_map_lookup by eauto using index_ok_NoDup.
      rewrite elem_of_app, list_elem_of_singleton. split.
      * intros [[Hin| ->] <-]; [|by left]. right. split; [|done]. intros Heq.
        apply list_elem_of_lookup in Hin as [j Hj].
        assert (index !! SequenceNumber e = Some j) by (apply Hidx; eauto). congruence.
      * naive_solver.
    + intros x. rewrite elem_of_app, list_elem_of_singleton. naive_solver.
Qed.

(** The list with its index computes what overwriting a map by sequence
    number would. *)
Lemma newEventLog_spec old evs : (forall l, old = Some l -> wf_log l) ->
  wf_log (newEventLog old evs) /\
  log_stream (newEventLog old evs) = api.commit (log_stream <$> old) evs.
Proof.
  intros Hold. unfold newEventLog.
  set (existing := match old with Some l => events l | None => [] end).
  set (rev0 := match old with Some l => lrevision l | None => 0%N end).
  assert (default api.noStream (log_stream <$> old) = api.mkStream rev0 (log_map existing)) as Hdef.
  { by destruct old. }
  assert (NoDup (SequenceNumber <$> existing) /\ Forall (fun e => (SequenceNumber e <= rev0)%N) existing) as [Hnd Hle].
  { destruct old as [l|]; [by apply Hold|]. split; [apply NoDup_nil_2|constructor]. }
  unfold api.commit. rewrite Hdef. clear Hdef.
  assert (index_ok existing (indexBySequence existing)) as Hidx by by apply indexBySequence_ok.
  clearbody existing rev0. clear Hnd Hold old. revert Hidx.
  generalize (indexBySequence existing). revert existing rev0 Hle.
  induction evs as [|e evs IH]; intros existing rev0 Hle index Hidx; simpl foldl.
  - split; [|done]. split; [by eapply index_ok_NoDup|done].
  - pose proof (mergeEvent_ok existing index rev0 e Hidx) as Hm.
    destruct (mergeEvent _ _) as [[merged' index'] rev'] eqn:E. destruct Hm as (Hidx' & Hmap & -> & Hin).
    specialize (IH merged' (N.max rev0 (SequenceNumber e))).
    replace (api.put _ e) with (api.mkStream (N.max rev0 (SequenceNumber e)) (log_map merged'))
      by (rewrite Hmap; done).
    apply IH; [|done]. clear IH. apply Forall_forall. intros x Hx. rewrite Forall_forall in Hle.
    destruct (Hin _ Hx) as [->|Hx']; [lia|]. apply Hle in Hx'. lia.
Qed.

Lemma log_stream_ok l : wf_log l -> api.stream_ok (log_stream l).
Proof.
  intros [Hnd Hle] n e. simpl. rewrite log_map_lookup by done. intros [Hin <-].
  rewrite Forall_forall in Hle. auto.
Qed.

(** ** A writer running alone *)
Definition log_of (x : EventStore) (k : eventStoreKey) : option eventLog := snd <$> db x !! k.
Definition stream_of (x : EventStore) (sc : Scope) (pid : string) : option api.stream :=
  log_stream <$> log_of x (sc, pid).

Lemma log_of_publish x k l k' :
  log_of (publish x k l) k' = if decide (k' = k) then Some l else log_of x k'.
Proof.
  unfold log_of, publish. simpl. case_decide as E.
  - subst. by rewrite lookup_insert_eq.
  - by rewrite lookup_insert_ne.
Qed.

Lemma wf_publish x k l : wf_store x -> wf_log l -> wf_store (publish x k l).
Proof. intros Hx Hl. apply map_Forall_insert_2; done. Qed.

Lemma wf_log_of x k l : wf_store x -> log_of x k = Some l -> wf_log l.
Proof. intros Hx (r & Hr & ->)%fmap_Some. by apply (Hx k). Qed.

(** Whether a conditional precondition holds of the log found. *)
Definition cond_holds (p : WritePrecondition) (found : option eventLog) : bool :=
  if IsGenesis p then bool_decide (found = None)
  else match found with Some l => (lrevision l =? (Revision p).1)%N | None => false end.

Lemma cond_holds_view p x sc pid : PreconditionValid p = true -> IsUnconditional p = false ->
  cond_holds p (log_of x (sc, pid)) = api.holds p (stream_of x sc pid).
Proof.
  unfold PreconditionValid, IsUnconditional, cond_holds, IsGenesis, Revision, api.holds, stream_of.
  intros ??. bool_prop. destruct (mode p); try done; simpl; destruct (log_of x (sc, pid)); simpl;
    repeat case_bool_decide; done.
Qed.

Definition conflict_for (x : EventStore) (sc : Scope) (pid : string) (p : WritePrecondition) : ConflictError :=
  NewConflictError sc pid p
    match log_of x (sc, pid) with Some l => [WithActualRevision (lrevision l)] | None => [] end.

Lemma conflict_at_load x sc pid p :
  conflict_at sc pid p (Load x (sc, pid)) = Err (EConflict (conflict_for x sc pid p)).
Proof. unfold conflict_at, conflict_for, log_of, Load. by destruct (db x !! _). Qed.

Lemma writeConditional_spec x sc pid evs p :
  writeConditional x sc pid evs p =
  if cond_holds p (log_of x (sc, pid))
  then (Ok tt, publish x (sc, pid) (newEventLog (log_of x (sc, pid)) evs))
  else (Err (EConflict (conflict_for x sc pid p)), x).
Proof.
  rewrite <- (conflict_at_load x sc pid p). unfold writeConditional, cond_holds, log_of.
  cbn [run writeConditional_step]. unfold Load.
  destruct (Revision p) as [r b]. destruct (IsGenesis p).
  - destruct (db x !! (sc, pid)) as [[ptr l]|] eqn:E; cbn; [done|].
    unfold LoadOrStore. by rewrite E.
  - destruct (db x !! (sc, pid)) as [[ptr l]|] eqn:E; cbn; [|done].
    destruct (lrevision l =? r)%N; cbn; [|done].
    unfold CompareAndSwap. rewrite E. cbn. by rewrite Nat.eqb_refl.
Qed.

Lemma writeGroup_spec x sc g :
  writeGroup x sc g = Ok (publish x (sc, g.1) (newEventLog (log_of x (sc, g.1)) g.2)).
Proof.
  unfold writeGroup, log_of. cbn [run writeGroup_step]. unfold Load.
  destruct (db x !! (sc, g.1)) as [[ptr l]|] eqn:E; cbn.
  - unfold CompareAndSwap. rewrite E. cbn. by rewrite Nat.eqb_refl.
  - unfold LoadOrStore. by rewrite E.
Qed.

(** [groups] is the partition of the batch by persistence id. *)
Lemma group_step_spec evs :
  let '(grouped, order) := foldl group_step (∅, []) evs in
  NoDup order /\
  (forall id, id ∈ order <-> api.of_pid id evs <> []) /\
  (forall id, grouped !! id = if decide (api.of_pid id evs = []) then None else Some (api.of_pid id evs)).
Proof.
  induction evs as [|e evs IH] using rev_ind.
  - simpl. split_and!; [apply NoDup_nil_2| |done]. intros id. by rewrite elem_of_nil.
  - rewrite foldl_snoc. destruct (foldl _ _ evs) as [grouped order].
    destruct IH as (Hnd & Hin & Hg). unfold group_step.
    assert (forall id, api.of_pid id (evs ++ [e]) =
      if decide (PersistenceId e = id) then api.of_pid id evs ++ [e] else api.of_pid id evs) as Hof.
    { intros id. unfold api.of_pid. rewrite filter_app, filter_cons, filter_nil.
      case_decide; [done|apply app_nil_r]. }
    assert (forall id, id ∈ (match grouped !! PersistenceId e with Some _ => order | None => order ++ [PersistenceId e] end)
      <-> api.of_pid id (evs ++ [e]) <> []) as Hin'.
    { intros id. rewrite Hof, (Hg (PersistenceId e)). repeat case_decide; subst;
        rewrite ?elem_of_app, ?list_elem_of_singleton, ?Hin; split; intros; try naive_solver;
        try (by destruct (api.of_pid _ evs)). }
    split_and!; [|done|].
    + rewrite (Hg (PersistenceId e)). case_decide as E; [|done].
      apply NoDup_app. split_and!; [done| |apply NoDup_singleton].
      intros id Hid ->%list_elem_of_singleton. by apply Hin in Hid.
    + intros id. rewrite Hof. destruct (decide (PersistenceId e = id)) as [<-|Hne].
      * rewrite lookup_insert_eq, (Hg (PersistenceId e)).
        destruct (api.of_pid (PersistenceId e) evs); repeat case_decide; simpl; done.
      * rewrite lookup_insert_ne by done. apply Hg.
Qed.

Lemma groups_spec evs :
  NoDup (groups evs).*1 /\
  forall id g, (id, g) ∈ groups evs <-> g = api.of_pid id evs /\ g <> [].
Proof.
  unfold groups. pose proof (group_step_spec evs) as H.
  destruct (foldl _ _ evs) as [grouped order]. destruct H as (Hnd & Hin & Hg). split.
  - rewrite <- list_fmap_compose, list_fmap_id. done.
  - intros id g. rewrite list_elem_of_fmap. split.
    + intros (id' & [= -> ->] & Hid). apply Hin in Hid. rewrite Hg. by case_decide.
    + intros [-> Hne]. exists id. rewrite Hg, Hin. by case_decide.
Qed.

(** *** Unconditional writes *)
Lemma writeGroups_spec x sc gs : wf_store x -> NoDup gs.*1 ->
  exists x', rfold (fun x g => writeGroup x sc g) x gs = Ok x' /\ wf_store x' /\
    (forall sc' pid' g, (pid', g) ∈ gs -> sc' = sc ->
       stream_of x' sc' pid' = Some (api.commit (stream_of x sc' pid') g)) /\
    (forall sc' pid', sc' <> sc \/ pid' ∉ gs.*1 -> stream_of x' sc' pid' = stream_of x sc' pid').
Proof.
  revert x. induction gs as [|[id g] gs IH]; intros x Hx Hnd.
  { exists x. split_and!; try done. by intros ??? ?%not_elem_of_nil. }
  simpl in Hnd. apply NoDup_cons in Hnd as [Hid Hnd].
  pose proof (newEventLog_spec (log_of x (sc, id)) g (fun l => wf_log_of x _ l Hx)) as [Hwf Hst].
  set (x1 := publish x (sc, id) (newEventLog (log_of x (sc, id)) g)) in *.
  destruct (IH x1) as (x' & Hr & Hwf' & Hin & Hout); [by apply wf_publish|done|].
  assert (forall sc' pid', stream_of x1 sc' pid' = if decide ((sc', pid') = (sc, id))
    then Some (api.commit (stream_of x sc id) g) else stream_of x sc' pid') as H1.
  { intros. unfold stream_of, x1. rewrite log_of_publish. case_decide; simplify_eq/=; [by rewrite Hst|done]. }
  exists x'. split_and!; [by simpl; rewrite writeGroup_spec|done| |].
  - intros sc' pid' g' [[= -> ->]|Hin']%elem_of_cons ->.
    + rewrite Hout, H1 by (by right). by case_decide.
    + rewrite (Hin _ _ _ Hin' eq_refl), H1. case_decide; [|done]. simplify_eq.
      destruct Hid. apply list_elem_of_fmap. by exists (id, g').
  - intros sc' pid' Hor. simpl in Hor. rewrite not_elem_of_cons in Hor.
    rewrite Hout, H1 by tauto. case_decide; [naive_solver|done].
Qed.

Lemma writeUnconditional_spec x sc evs : wf_store x ->
  exists x', writeUnconditional x sc evs = (Ok tt, x') /\ wf_store x' /\
    forall sc' pid', stream_of x' sc' pid' =
      if decide (sc' = sc /\ api.of_pid pid' evs <> [])
      then Some (api.commit (stream_of x sc pid') (api.of_pid pid' evs)) else stream_of x sc' pid'.
Proof.
  intros Hx. pose proof (groups_spec evs) as [Hnd Hgs].
  destruct (writeGroups_spec x sc (groups evs) Hx Hnd) as (x' & Hr & Hwf & Hin & Hout).
  exists x'. unfold writeUnconditional. rewrite Hr. split_and!; [done..|].
  intros sc' pid'. case_decide as Hd.
  - destruct Hd as [-> Hne]. apply Hin; [|done]. by apply Hgs.
  - apply Hout. destruct (decide (sc' = sc)) as [->|]; [right|by left].
    intros ([id g] & -> & Hg)%list_elem_of_fmap. apply Hgs in Hg as [-> Hne]. by apply Hd.
Qed.

(** *** Conditional writes *)
Lemma single_target_existsb e rest :
  existsb (fun e' => negb (bool_decide (PersistenceId e' = PersistenceId e))) rest =
  negb (api.single_target (e :: rest)).
Proof.
  simpl. induction rest as [|e' rest IH]; simpl; [done|].
  rewrite IH. by rewrite negb_andb.
Qed.

Lemma WriteEvents_conditional x sc evs p :
  Valid sc = true -> PreconditionValid p = true -> IsUnconditional p = false ->
  WriteEvents x sc evs p =
  if api.single_target evs then writeConditional x sc (api.target evs) evs p
  else (Err ErrPreconditionScope, x).
Proof.
  intros Hs Hp Hu. unfold WriteEvents. rewrite Hs, Hp, Hu. simpl. destruct evs as [|e rest]; [done|].
  rewrite single_target_existsb. by destruct (api.single_target _).
Qed.

Lemma stream_of_publish x sc evs pid : wf_store x -> evs <> [] ->
  api.of_pid pid evs = evs -> (forall pid', pid' <> pid -> api.of_pid pid' evs = []) ->
  let x' := publish x (sc, pid) (newEventLog (log_of x (sc, pid)) evs) in
  wf_store x' /\ forall sc' pid', stream_of x' sc' pid' =
    if decide (sc' = sc /\ api.of_pid pid' evs <> [])
    then Some (api.commit (stream_of x sc pid') (api.of_pid pid' evs)) else stream_of x sc' pid'.
Proof.
  intros Hx Hne Hof Hother.
  destruct (newEventLog_spec (log_of x (sc, pid)) evs) as [Hwf Hst]; [eauto using wf_log_of|].
  split; [by apply wf_publish|]. intros sc' pid'. unfold stream_of. rewrite log_of_publish.
  destruct (decide (pid' = pid)) as [->|Hp]; [rewrite Hof|rewrite (Hother pid') by done];
    repeat case_decide; simplify_eq/=; try naive_solver; by rewrite Hst.
Qed.

(** *** Reads *)
Lemma insert_by_perm lt e l : insert_by lt e l ≡ₚ e :: l.
Proof.
  induction l as [|x l IH]; simpl; [done|]. destruct (lt e x); [done|]. rewrite IH. constructor.
Qed.

Lemma stable_sort_perm lt l : stable_sort lt l ≡ₚ l.
Proof.
  unfold stable_sort. induction l as [|e l IH] using rev_ind; [done|].
  rewrite foldl_snoc, insert_by_perm, IH. by rewrite Permutation_app_comm.
Qed.

Lemma insert_by_sorted e l : StronglySorted api.seq_lt l -> SequenceNumber e ∉ (SequenceNumber <$> l) ->
  StronglySorted api.seq_lt (insert_by seq_ltb e l).
Proof.
  induction l as [|x l IH]; intros Hs Hni; simpl.
  { constructor; constructor. }
  apply StronglySorted_inv in Hs as [Hs Hf]. simpl in Hni. apply not_elem_of_cons in Hni as [Hne Hni].
  unfold seq_ltb. destruct (N.ltb_spec (SequenceNumber e) (SequenceNumber x)).
  - constructor; [by constructor|]. constructor; [done|].
    eapply Forall_impl; [exact Hf|]. unfold api.seq_lt. intros. simpl in *. lia.
  - constructor; [by apply IH|]. change (fun a b => _) with seq_ltb. rewrite insert_by_perm.
    constructor; [unfold api.seq_lt; lia|done].
Qed.

Lemma stable_sort_sorted l : NoDup (SequenceNumber <$> l) ->
  StronglySorted api.seq_lt (stable_sort seq_ltb l).
Proof.
  induction l as [|e l IH] using rev_ind; intros Hnd.
  { constructor. }
  rewrite fmap_app in Hnd. apply NoDup_app in Hnd as (Hnd & Hdis & _).
  unfold stable_sort. rewrite foldl_snoc. apply insert_by_sorted; [by apply IH|].
  change (foldl _ [] l) with (stable_sort seq_ltb l). rewrite stable_sort_perm.
  intros Hin. apply (Hdis _ Hin). by left.
Qed.

Lemma NoDup_fmap_filter {B} (f : Event -> B) (P : Event -> Prop) (D : forall e, Decision (P e)) l :
  NoDup (f <$> l) -> NoDup (f <$> filter P l).
Proof.
  intros Hnd. eapply sublist_NoDup; [exact Hnd|]. apply fmap_sublist.
  induction l as [|e l IH]; [constructor|]. rewrite filter_cons.
  apply NoDup_cons in Hnd as [_ Hnd]. case_decide; [apply sublist_skip|apply sublist_cons]; by apply IH.
Qed.

Lemma ReplayEvents_spec x sc pid from to limit : wf_store x -> Valid sc = true -> (limit <= api.max_int)%N ->
  exists all, api.range_of (stream_of x sc pid) from to all /\
    ReplayEvents x sc pid from to limit = Some (Ok (take (N.to_nat limit) all)).
Proof.
  intros Hx Hs Hl. unfold ReplayEvents, stream_of, log_of, Load. rewrite Hs. simpl.
  destruct (db x !! (sc, pid)) as [[ptr l]|] eqn:E; simpl.
  - destruct (Hx _ _ E) as [Hnd _]. simpl in Hnd. unfold int_of_uint64.
    rewrite (proj2 (N.leb_le _ _) Hl).
    exists (stable_sort seq_ltb (filter (fun e => (from <= SequenceNumber e)%N /\ (SequenceNumber e <= to)%N) (events l))).
    split; [split|].
    + apply stable_sort_sorted. by apply NoDup_fmap_filter.
    + intros e. rewrite stable_sort_perm, list_elem_of_filter. simpl.
      rewrite log_map_lookup by done. naive_solver.
    + case_match eqn:El; [done|]. apply N.ltb_ge in El. rewrite take_ge by lia. done.
  - exists []. split; [split|]; [constructor| |by rewrite take_nil].
    intros e. simpl. rewrite lookup_empty. split; [by intros ?%not_elem_of_nil|naive_solver].
Qed.

Lemma latest_fold_spec e rest :
  let r := foldl (fun latest event => if (SequenceNumber latest <? SequenceNumber event)%N then event else latest) e rest in
  r ∈ e :: rest /\ forall e', e' ∈ e :: rest -> (SequenceNumber e' <= SequenceNumber r)%N.
Proof.
  revert e. induction rest as [|x rest IH]; intros e; simpl.
  { split; [left|]. by intros e' ->%list_elem_of_singleton. }
  destruct (IH (if (SequenceNumber e <? SequenceNumber x)%N then x else e)) as [Hin Hmax].
  split.
  - destruct (SequenceNumber e <? SequenceNumber x)%N; set_solver.
  - intros e' He'. destruct (N.ltb_spec (SequenceNumber e) (SequenceNumber x)).
    + pose proof (Hmax x). apply elem_of_cons in He' as [->|He']; [|by apply Hmax].
      specialize (H0 ltac:(left)). lia.
    + pose proof (Hmax e ltac:(left)). apply elem_of_cons in He' as [->|He']; [done|].
      apply elem_of_cons in He' as [->|He']; [lia|]. apply Hmax. by right.
Qed.

Lemma log_map_nil l : log_map l = ∅ -> l = [].
Proof.
  destruct l as [|e l]; [done|]. unfold log_map. simpl. intros H. exfalso.
  by apply (insert_non_empty _ (SequenceNumber e) e) in H.
Qed.

Lemma GetLatestEvent_spec x sc pid : wf_store x -> Valid sc = true ->
  exists r, GetLatestEvent x sc pid = Ok r /\ api.latest_of (stream_of x sc pid) r.
Proof.
  intros Hx Hs. unfold GetLatestEvent, stream_of, log_of, Load. rewrite Hs. simpl.
  destruct (db x !! (sc, pid)) as [[ptr l]|] eqn:E; simpl; [|by eexists].
  destruct (Hx _ _ E) as [Hnd _]. simpl in Hnd.
  destruct (events l) as [|e rest] eqn:El.
  { eexists. split; [done|]. simpl. by rewrite El. }
  eexists. split; [done|]. simpl. rewrite El. destruct (latest_fold_spec e rest) as [Hin Hmax].
  split; [by apply log_map_lookup|]. intros n e' [Hin' _]%log_map_lookup; [auto|done].
Qed.

(** *** Deletion *)
Lemma filter_full (P : Event -> Prop) (D : forall e, Decision (P e)) l :
  length (filter P l) = length l -> filter P l = l.
Proof.
  induction l as [|e l IH]; [done|]. rewrite filter_cons. pose proof (length_filter P l).
  case_decide; simpl; intros; [f_equal; apply IH; lia|lia].
Qed.

Lemma DeleteEvents_spec x sc pid to : wf_store x -> Valid sc = true ->
  exists x', DeleteEvents x sc pid to = (Ok tt, x') /\ wf_store x' /\
    forall sc' pid', stream_of x' sc' pid' =
      if decide (sc' = sc /\ pid' = pid)
      then (fun s => api.truncate s to) <$> stream_of x sc pid else stream_of x sc' pid'.
Proof.
  intros Hx Hs. unfold DeleteEvents. rewrite Hs. cbn [negb run deleteEvents_step]. unfold Load.
  destruct (db x !! (sc, pid)) as [[ptr l]|] eqn:E; cbn.
  2: { exists x. split_and!; [done..|]. intros. case_decide as Hd; [|done]. destruct Hd as [-> ->].
       unfold stream_of, log_of. by rewrite E. }
  destruct (Hx _ _ E) as [Hnd Hle]. simpl in Hnd, Hle.
  set (retained := filter _ (events l)).
  assert (log_map retained = filter (fun kv => (to < kv.1)%N) (log_map (events l))) as Hmap.
  { apply map_eq. intros n. apply option_eq. intros e.
    rewrite map_lookup_filter_Some, !log_map_lookup by (done || by apply NoDup_fmap_filter).
    unfold retained. rewrite list_elem_of_filter. naive_solver. }
  destruct (Nat.eqb_spec (length retained) (length (events l))) as [Hlen|Hlen]; cbn.
  - exists x. split_and!; [done..|]. intros. case_decide as Hd; [|done]. destruct Hd as [-> ->].
    unfold stream_of, log_of. rewrite E. simpl. unfold api.truncate, log_stream. simpl.
    rewrite <- Hmap. do 2 f_equal. unfold retained. by rewrite filter_full.
  - unfold CompareAndSwap. rewrite E. cbn. rewrite Nat.eqb_refl. cbn.
    eexists. split_and!; [done| |].
    + apply wf_publish; [done|]. split; [by apply NoDup_fmap_filter|].
      rewrite Forall_forall in Hle |- *. intros e [_ He]%list_elem_of_filter. by apply Hle.
    + intros sc' pid'. unfold stream_of. rewrite log_of_publish. unfold log_of at 2. rewrite E.
      repeat case_decide; simplify_eq/=; try naive_solver.
      unfold log_stream, api.truncate. simpl. by rewrite Hmap.
Qed.

#[export] Instance EventStore_ops : api.EventsStore EventStore := {|
  api.WriteEvents := WriteEvents; api.DeleteEvents := DeleteEvents;
  api.ReplayEvents := ReplayEvents; api.GetLatestEvent := GetLatestEvent
|}.

(** ** The store implements the contract *)
Lemma WriteEvents_invalid x sc evs p : Valid sc = false \/ PreconditionValid p = false ->
  (WriteEvents x sc evs p).2 = x /\ exists e, (WriteEvents x sc evs p).1 = Err e.
Proof.
  unfold WriteEvents. destruct (Valid sc); simpl; [|eauto]. destruct (PreconditionValid p); simpl; [|eauto].
  by intros [].
Qed.

Lemma WriteEvents_Ok x sc evs p x' : wf_store x -> WriteEvents x sc evs p = (Ok tt, x') ->
  wf_store x' /\ Valid sc = true /\ PreconditionValid p = true /\
  (IsUnconditional p = false ->
     api.single_target evs = true /\ api.holds p (stream_of x sc (api.target evs)) = true) /\
  forall sc' pid', stream_of x' sc' pid' =
    if decide (sc' = sc /\ api.of_pid pid' evs <> [])
    then Some (api.commit (stream_of x sc pid') (api.of_pid pid' evs)) else stream_of x sc' pid'.
Proof.
  intros Hx Hw. destruct (Valid sc) eqn:Hs; [destruct (PreconditionValid p) eqn:Hp|].
  2,3: destruct (WriteEvents_invalid x sc evs p) as [_ [e He]]; [auto|]; rewrite Hw in He; done.
  destruct (IsUnconditional p) eqn:Hu.
  - unfold WriteEvents in Hw. rewrite Hs, Hp, Hu in Hw. simpl in Hw.
    destruct (writeUnconditional_spec x sc evs Hx) as (x'' & Hw' & Hwf & Hv).
    rewrite Hw' in Hw. injection Hw as <-. split_and!; try done.
  - rewrite WriteEvents_conditional in Hw by done. destruct (api.single_target evs) eqn:Hst; [|done].
    rewrite writeConditional_spec, cond_holds_view in Hw by done.
    destruct (api.holds _ _) eqn:Hh; [|done]. simplify_eq.
    destruct (stream_of_publish x sc evs (api.target evs)) as [Hwf Hv]; [done|by intros ->|..].
    { by apply api.of_pid_single. }
    { intros. by apply api.of_pid_other. }
    split_and!; done.
Qed.

Lemma WriteEvents_Err x sc evs p e x' : wf_store x -> WriteEvents x sc evs p = (Err e, x') -> x' = x.
Proof.
  intros Hx Hw. destruct (Valid sc) eqn:Hs; [destruct (PreconditionValid p) eqn:Hp|].
  2,3: destruct (WriteEvents_invalid x sc evs p) as [He _]; [auto|]; rewrite Hw in He; done.
  destruct (IsUnconditional p) eqn:Hu.
  - unfold WriteEvents in Hw. rewrite Hs, Hp, Hu in Hw. simpl in Hw.
    destruct (writeUnconditional_spec x sc evs Hx) as (x'' & Hw' & _). by rewrite Hw' in Hw.
  - rewrite WriteEvents_conditional in Hw by done. destruct (api.single_target evs) eqn:Hst; [|by simplify_eq].
    rewrite writeConditional_spec in Hw. by destruct (cond_holds _ _); simplify_eq.
Qed.

Lemma WriteEvents_holds x sc evs p : wf_store x ->
  Valid sc = true -> PreconditionValid p = true -> api.single_target evs = true ->
  if api.holds p (stream_of x sc (api.target evs))
  then exists x', WriteEvents x sc evs p = (Ok tt, x')
  else WriteEvents x sc evs p = (Err (EConflict (conflict_for x sc (api.target evs) p)), x).
Proof.
  intros Hx Hs Hp Hst. destruct (IsUnconditional p) eqn:Hu.
  - assert (api.holds p (stream_of x sc (api.target evs)) = true) as ->.
    { unfold IsUnconditional in Hu. bool_prop. unfold api.holds. by rewrite Hu. }
    unfold WriteEvents. rewrite Hs, Hp, Hu. simpl.
    destruct (writeUnconditional_spec x sc evs Hx) as (x'' & Hw' & _). eauto.
  - rewrite WriteEvents_conditional, Hst, writeConditional_spec, cond_holds_view by done.
    destruct (api.holds _ _); eauto.
Qed.

#[export] Instance EventStore_laws : api.EventsStoreLaws EventStore.
Proof.
  refine {| api.store_ok := wf_store; api.view := stream_of |}; simpl.
  - intros st sc pid s Hx (l & Hl & ->)%fmap_Some. apply log_stream_ok. by eapply wf_log_of.
  - intros. by apply WriteEvents_Ok.
  - intros. by eapply WriteEvents_Err.
  - intros st sc evs p Hx Hs Hp Hst Hh. pose proof (WriteEvents_holds st sc evs p Hx Hs Hp Hst) as H.
    rewrite Hh in H. rewrite H. eexists. by left.
  - intros st sc pid to st' Hx Hd. destruct (Valid sc) eqn:Hs.
    + destruct (DeleteEvents_spec st sc pid to Hx Hs) as (x' & Hd' & ? & ?).
      rewrite Hd' in Hd. by simplify_eq.
    + unfold DeleteEvents in Hd. by rewrite Hs in Hd.
  - intros st sc pid to e st' Hx Hd. destruct (Valid sc) eqn:Hs.
    + destruct (DeleteEvents_spec st sc pid to Hx Hs) as (x' & Hd' & ? & ?).
      rewrite Hd' in Hd. by simplify_eq.
    + unfold DeleteEvents in Hd. rewrite Hs in Hd. by injection Hd as <-.
  - intros st sc pid from to limit l Hx Hl Hr. destruct (Valid sc) eqn:Hs.
    + destruct (ReplayEvents_spec st sc pid from to limit Hx Hs Hl) as (all & ? & Hr').
      rewrite Hr' in Hr. simplify_eq. eauto.
    + unfold ReplayEvents in Hr. by rewrite Hs in Hr.
  - intros st sc pid from to limit Hx Hl. destruct (Valid sc) eqn:Hs.
    + destruct (ReplayEvents_spec st sc pid from to limit Hx Hs Hl) as (all & ? & ->). done.
    + unfold ReplayEvents. by rewrite Hs.
  - intros st sc pid r Hx Hr. destruct (Valid sc) eqn:Hs.
    + destruct (GetLatestEvent_spec st sc pid Hx Hs) as (r' & Hr' & ?).
      rewrite Hr' in Hr. by simplify_eq.
    + unfold GetLatestEvent in Hr. by rewrite Hs in Hr.
Defined.

#[export] Instance EventStore_reliable : api.ReliableEventsStore EventStore.
Proof.
  split; simpl.
  - intros st sc evs p Hx Hs Hp Hst Hh. pose proof (WriteEvents_holds st sc evs p Hx Hs Hp Hst) as H.
    by rewrite Hh in H.
  - intros st sc pid from to limit Hx Hs Hl.
    destruct (ReplayEvents_spec st sc pid from to limit Hx Hs Hl) as (all & ? & ->). eauto.
  - intros st sc pid Hx Hs. destruct (GetLatestEvent_spec st sc pid Hx Hs) as (r & ? & _). eauto.
Qed.

(** ** Concurrent callers

    A thread is a caller in the middle of an operation; a step lets one of
    them perform its next atomic map operation. *)
Inductive thread :=
| TWrite (sc : Scope) (pid : string) (evs : list Event) (p : WritePrecondition) (c : pc)
| TGroups (sc : Scope) (gs : list (string * list Event)) (c : pc)
| TDelete (sc : Scope) (pid : string) (toSequenceNumber : N) (c : pc).

Definition thread_step (t : thread) (x : EventStore) : thread * EventStore :=
  match t with
  | TWrite sc pid evs p c =>
    let '(c, x) := writeConditional_step sc pid evs p c x in (TWrite sc pid evs p c, x)
  | TGroups sc [] c => (t, x)
  | TGroups sc (g :: gs) c =>
    match writeGroup_step sc g.1 g.2 c x with
    | (Done _, x) => (TGroups sc gs Start, x)
    | (c, x) => (TGroups sc (g :: gs) c, x)
    end
  | TDelete sc pid to c =>
    let '(c, x) := deleteEvents_step sc pid to c x in (TDelete sc pid to c, x)
  end.

Inductive step : list thread * EventStore -> list thread * EventStore -> Prop :=
| step_thread ts x i t t' x' :
    ts !! i = Some t -> thread_step t x = (t', x') -> step (ts, x) (<[i := t']> ts, x').

Definition starting (t : thread) : Prop :=
  match t with TWrite _ _ _ _ c | TGroups _ _ c | TDelete _ _ _ c => c = Start end.

(** What a thread holds about the store: the log it loaded is either still
    the one published, or it has been replaced under another identity. *)
Definition holds_ref (x : EventStore) (k : eventStoreKey) (old : logRef) : Prop :=
  (old.1 < fresh x)%nat /\ forall r, db x !! k = Some r -> r.1 = old.1 -> r = old.

Definition thread_ok (x : EventStore) (t : thread) : Prop :=
  match t with
  | TWrite sc pid evs p c =>
    match c with
    | Publish (Some old) new =>
      holds_ref x (sc, pid) old /\ new = newEventLog (Some old.2) evs /\ IsGenesis p = false /\
      cond_holds p (Some old.2) = true
    | Publish None new => new = newEventLog None evs /\ IsGenesis p = true
    | Done (Ok _) => exists l, log_of x (sc, pid) = Some l /\ Forall (fun e => (SequenceNumber e <= lrevision l)%N) evs
    | _ => True
    end
  | TGroups sc (g :: _) (Publish (Some old) new) =>
    holds_ref x (sc, g.1) old /\ new = newEventLog (Some old.2) g.2
  | TGroups sc (g :: _) (Publish None new) => new = newEventLog None g.2
  | TDelete sc pid to (Publish (Some old) new) =>
    holds_ref x (sc, pid) old /\
    new = mkEventLog (lrevision old.2) (filter (fun e => (to < SequenceNumber e)%N) (events old.2))
  | _ => True
  end.

Definition refs_ok (x : EventStore) : Prop := forall k r, db x !! k = Some r -> (r.1 < fresh x)%nat.

(** The atomic effect a thread has when it changes the store. *)
Definition atomic_effect (t t' : thread) (x x' : EventStore) : Prop :=
  match t with
  | TWrite sc pid evs p _ =>
    cond_holds p (log_of x (sc, pid)) = true /\ t' = TWrite sc pid evs p (Done (Ok tt)) /\
    x' = publish x (sc, pid) (newEventLog (log_of x (sc, pid)) evs)
  | TGroups sc (g :: gs) _ =>
    t' = TGroups sc gs Start /\ x' = publish x (sc, g.1) (newEventLog (log_of x (sc, g.1)) g.2)
  | TGroups _ [] _ => False
  | TDelete sc pid to _ =>
    t' = TDelete sc pid to (Done (Ok tt)) /\
    exists l, log_of x (sc, pid) = Some l /\
      x' = publish x (sc, pid) (mkEventLog (lrevision l) (filter (fun e => (to < SequenceNumber e)%N) (events l)))
  end.

Lemma newEventLog_revision old evs :
  lrevision (newEventLog old evs) =
  foldl (fun r e => N.max r (SequenceNumber e)) (match old with Some l => lrevision l | None => 0%N end) evs.
Proof.
  unfold newEventLog.
  generalize (match old with Some l => events l | None => [] end) at 2.
  generalize (match old with Some l => lrevision l | None => 0%N end).
  generalize (match old with Some l => events l | None => [] end). clear old.
  intros l0 rev l1. generalize (indexBySequence l1). clear l1. revert l0 rev.
  induction evs as [|e evs IH]; intros merged rev index; simpl; [done|].
  unfold mergeEvent at 2.
  assert ((if (rev <? SequenceNumber e)%N then SequenceNumber e else rev) = N.max rev (SequenceNumber e)) as ->
    by (destruct (N.ltb_spec rev (SequenceNumber e)); lia).
  destruct (index !! SequenceNumber e); apply IH.
Qed.

Lemma foldl_max_ge r evs :
  (r <= foldl (fun r e => N.max r (SequenceNumber e)) r evs)%N /\
  Forall (fun e => SequenceNumber e <= foldl (fun r e => N.max r (SequenceNumber e)) r evs)%N evs.
Proof.
  revert r. induction evs as [|e evs IH]; intros r; simpl; [by split|].
  destruct (IH (N.max r (SequenceNumber e))) as [H1 H2]. split; [lia|]. constructor; [lia|done].
Qed.

(** How the store may change from one moment to a later one. *)
Definition store_le (x x' : EventStore) : Prop :=
  (fresh x <= fresh x')%nat /\
  (forall k r, db x' !! k = Some r -> db x !! k = Some r \/ (fresh x <= r.1)%nat) /\
  (forall k l, log_of x k = Some l -> exists l', log_of x' k = Some l' /\ (lrevision l <= lrevision l')%N).

Lemma store_le_refl x : store_le x x.
Proof. split_and!; [done|by left|]. intros k l Hl. by exists l. Qed.

Lemma store_le_publish x k l :
  (forall l0, log_of x k = Some l0 -> (lrevision l0 <= lrevision l)%N) -> store_le x (publish x k l).
Proof.
  intros Hle. split_and!; [simpl; lia| |].
  - intros k' r Hr. simpl in Hr. apply lookup_insert_Some in Hr as [[<- <-]|[_ ?]]; [by right|by left].
  - intros k' l' Hl'. rewrite log_of_publish. case_decide; [subst; eauto|eauto].
Qed.

Lemma refs_ok_publish x k l : refs_ok x -> refs_ok (publish x k l).
Proof.
  intros H k' r Hr. simpl in Hr |- *. apply lookup_insert_Some in Hr as [[_ <-]|[_ Hr]]; simpl; [lia|].
  apply H in Hr. lia.
Qed.

Lemma holds_ref_le x x' k old : store_le x x' -> holds_ref x k old -> holds_ref x' k old.
Proof.
  intros (Hf & Hdb & _) [Hlt Hold]. split; [lia|]. intros r Hr Heq.
  destruct (Hdb _ _ Hr) as [Hr'|Hge]; [by apply Hold|]. lia.
Qed.

Lemma thread_ok_le x x' t : store_le x x' -> thread_ok x t -> thread_ok x' t.
Proof.
  intros Hle. pose proof (fun k old => holds_ref_le x x' k old Hle) as Hh.
  destruct t as [sc pid evs p [|[old|] new| |[[]|]]|sc [|g gs] [|[old|] new| |]|sc pid to [|[old|] new| |]];
    simpl; try done; try naive_solver.
  intros (l & Hl & Hf). destruct Hle as (_ & _ & Hlog). apply Hlog in Hl as (l' & Hl' & Hrev).
  exists l'. split; [done|]. eapply Forall_impl; [exact Hf|]. simpl. intros. lia.
Qed.

Lemma atomic_effect_le t t' x x' : refs_ok x -> atomic_effect t t' x x' -> store_le x x' /\ refs_ok x'.
Proof.
  intros Hr. assert (forall k evs, store_le x (publish x k (newEventLog (log_of x k) evs))) as Hp.
  { intros k evs. apply store_le_publish. intros l0 Hl0. rewrite newEventLog_revision, Hl0. apply foldl_max_ge. }
  destruct t as [sc pid evs p c|sc [|g gs] c|sc pid to c]; simpl; [|done| |].
  - intros (_ & _ & ->). auto using refs_ok_publish.
  - intros (_ & ->). auto using refs_ok_publish.
  - intros (_ & l & Hl & ->). split; [|auto using refs_ok_publish].
    apply store_le_publish. intros l0. rewrite Hl. by intros [= ->].
Qed.

Lemma CompareAndSwap_ref x k old l : holds_ref x k old ->
  CompareAndSwap x k old l =
  if decide (db x !! k = Some old) then (true, publish x k l) else (false, x).
Proof.
  intros [_ Hold]. unfold CompareAndSwap. destruct (db x !! k) as [cur|] eqn:E.
  - destruct (Nat.eqb_spec cur.1 old.1) as [Heq|Hne].
    + apply Hold in Heq as ->; [|done]. by case_decide.
    + case_decide; [congruence|done].
  - by case_decide.
Qed.

Lemma Load_holds_ref x k r : refs_ok x -> Load x k = Some r -> holds_ref x k r.
Proof. intros Hr Hl. split; [by eapply Hr|]. intros r' Hr' _. unfold Load in Hl. congruence. Qed.

Lemma newEventLog_covers old evs : Forall (fun e => (SequenceNumber e <= lrevision (newEventLog old evs))%N) evs.
Proof. rewrite newEventLog_revision. apply foldl_max_ge. Qed.

Lemma write_step_ok x sc pid evs p c t' x' : refs_ok x -> thread_ok x (TWrite sc pid evs p c) ->
  thread_step (TWrite sc pid evs p c) x = (t', x') ->
  (x' = x \/ atomic_effect (TWrite sc pid evs p c) t' x x') /\ thread_ok x' t'.
Proof.
  intros Hr Hok Hst. simpl in Hst. destruct c as [|[old|] new| |r]; simpl in Hst.
  - destruct (Revision p) as [er b] eqn:Er. destruct (IsGenesis p) eqn:Eg.
    + destruct (Load x (sc, pid)); simplify_eq; simpl; auto.
    + destruct (Load x (sc, pid)) as [r|] eqn:El; [|simplify_eq; simpl; auto].
      destruct (lrevision r.2 =? er)%N eqn:Ee; injection Hst as <- <-; simpl; [|auto].
      split; [auto|]. split_and!; [by apply Load_holds_ref|done..|].
      unfold cond_holds. by rewrite Eg, Er.
  - destruct Hok as (Hh & -> & Hg & Hc). rewrite CompareAndSwap_ref in Hst by done.
    case_decide as Hd; simplify_eq; simpl; [|auto].
    unfold log_of. rewrite Hd. simpl. split; [by right|].
    eexists. rewrite lookup_insert_eq. split; [done|]. apply newEventLog_covers.
  - destruct Hok as [-> Hg]. unfold LoadOrStore in Hst.
    destruct (db x !! (sc, pid)) as [actual|] eqn:E; simplify_eq; simpl; [auto|].
    unfold log_of. rewrite E. simpl. split; [right|].
    + split_and!; [|done..]. unfold cond_holds. by rewrite Hg.
    + eexists. rewrite lookup_insert_eq. split; [done|]. apply newEventLog_covers.
  - simplify_eq. simpl. auto.
  - simplify_eq. simpl. auto.
Qed.

Lemma group_step_ok x sc g gs c t' x' : refs_ok x -> thread_ok x (TGroups sc (g :: gs) c) ->
  thread_step (TGroups sc (g :: gs) c) x = (t', x') ->
  (x' = x \/ atomic_effect (TGroups sc (g :: gs) c) t' x x') /\ thread_ok x' t'.
Proof.
  intros Hr Hok Hst. assert (thread_ok x' (TGroups sc gs Start)) as Hs by (by destruct gs).
  simpl in Hst. destruct c as [|[old|] new| |r]; simpl in Hst.
  - injection Hst as <- <-. split; [auto|]. destruct (Load x (sc, g.1)) as [r|] eqn:El; simpl; [|done].
    split; [by apply Load_holds_ref|done].
  - destruct Hok as [Hh ->]. rewrite CompareAndSwap_ref in Hst by done.
    case_decide as Hd; simplify_eq; [|by split; [left|]]. split; [|done]. right. simpl.
    unfold log_of. by rewrite Hd.
  - simpl in Hok. subst. unfold LoadOrStore in Hst.
    destruct (db x !! (sc, g.1)) as [actual|] eqn:E; simplify_eq; [by split; [left|]|].
    split; [|done]. right. simpl. unfold log_of. by rewrite E.
  - simplify_eq. by split; [left|].
  - simplify_eq. by split; [left|].
Qed.

Lemma delete_step_ok x sc pid to c t' x' : refs_ok x -> thread_ok x (TDelete sc pid to c) ->
  thread_step (TDelete sc pid to c) x = (t', x') ->
  (x' = x \/ atomic_effect (TDelete sc pid to c) t' x x') /\ thread_ok x' t'.
Proof.
  intros Hr Hok Hst. simpl in Hst. destruct c as [|[old|] new| |r]; simpl in Hst.
  - destruct (Load x (sc, pid)) as [r|] eqn:El; [|simplify_eq; simpl; auto].
    destruct (_ =? _)%nat; injection Hst as <- <-; simpl; [auto|]. split; [auto|]. split; [by apply Load_holds_ref|done].
  - destruct Hok as [Hh ->]. rewrite CompareAndSwap_ref in Hst by done.
    case_decide as Hd; simplify_eq; simpl; [|auto]. split; [|done]. right. split; [done|].
    eexists. unfold log_of. by rewrite Hd.
  - simplify_eq. simpl. auto.
  - simplify_eq. simpl. auto.
  - simplify_eq. simpl. auto.
Qed.

Lemma thread_step_ok x t t' x' : refs_ok x -> thread_ok x t -> thread_step t x = (t', x') ->
  (x' = x \/ atomic_effect t t' x x') /\ thread_ok x' t'.
Proof.
  destruct t as [| sc [|g gs] c |]; [apply write_step_ok| |apply group_step_ok|apply delete_step_ok].
  simpl. intros. simplify_eq. auto.
Qed.

Definition config_ok (c : list thread * EventStore) : Prop :=
  refs_ok c.2 /\ Forall (thread_ok c.2) c.1.

Lemma thread_step_le x t t' x' : refs_ok x -> thread_ok x t -> thread_step t x = (t', x') ->
  store_le x x' /\ refs_ok x'.
Proof.
  intros Hr Ht Hs. destruct (thread_step_ok _ _ _ _ Hr Ht Hs) as [[->|He] _].
  - split; [apply store_le_refl|done].
  - by eapply atomic_effect_le.
Qed.

Lemma step_config_ok c c' : step c c' -> config_ok c -> config_ok c'.
Proof.
  intros [ts x i t t' x' Hi Hs] [Hr Hf]. simpl in *.
  assert (thread_ok x t) as Ht by (by eapply Forall_lookup_1).
  destruct (thread_step_le _ _ _ _ Hr Ht Hs) as [Hle Hr']. split; [done|]. simpl.
  apply Forall_insert; [|by apply (thread_step_ok _ _ _ _ Hr Ht Hs)].
  eapply Forall_impl; [exact Hf|]. intros ?. by apply thread_ok_le.
Qed.

Lemma starting_ok x t : starting t -> thread_ok x t.
Proof. destruct t as [|sc [|] c|]; simpl; [intros ->|intros ->..]; done. Qed.

Lemma reachable_config_ok ts x c : refs_ok x -> Forall starting ts -> rtc step (ts, x) c -> config_ok c.
Proof.
  intros Hr Hs Hrtc. assert (config_ok (ts, x)) as Hi.
  { split; [done|]. eapply Forall_impl; [exact Hs|]. intros. by apply starting_ok. }
  clear Hr Hs. induction Hrtc; eauto using step_config_ok.
Qed.

(** A write that can only succeed once per revision: a genesis write, or an
    exact-revision write whose batch moves the revision forward. *)
Definition contending (p : WritePrecondition) (evs : list Event) : Prop :=
  p = ExpectGenesis \/ exists r, p = ExpectRevision r /\ exists e, e ∈ evs /\ (r < SequenceNumber e)%N.

Definition exclusive (ts : list thread) : Prop :=
  forall i j sc pid evs evs' p, i <> j ->
    ts !! i = Some (TWrite sc pid evs p (Done (Ok tt))) ->
    ts !! j = Some (TWrite sc pid evs' p (Done (Ok tt))) ->
    contending p evs -> contending p evs' -> False.

(** A committed contending write falsifies its own precondition. *)
Lemma won_not_holds x sc pid evs p : contending p evs ->
  thread_ok x (TWrite sc pid evs p (Done (Ok tt))) -> cond_holds p (log_of x (sc, pid)) = false.
Proof.
  intros Hc (l & -> & Hf). destruct Hc as [->|(r & -> & e & He & Hlt)]; [done|].
  unfold cond_holds. simpl. rewrite Forall_forall in Hf. apply Hf in He.
  apply N.eqb_neq. lia.
Qed.

(** A write reports success only at the moment its precondition holds. *)
Lemma step_wins x t sc pid evs p x' : thread_ok x t ->
  thread_step t x = (TWrite sc pid evs p (Done (Ok tt)), x') ->
  t = TWrite sc pid evs p (Done (Ok tt)) \/ cond_holds p (log_of x (sc, pid)) = true.
Proof.
  destruct t as [sc0 pid0 evs0 p0 c0| sc0 [|g gs] c0|sc0 pid0 to0 c0]; intros Hok Hs; cbn [thread_step] in Hs.
  2: done. 2: by destruct (writeGroup_step _ _ _ _ _) as [[]]. 2: by destruct (deleteEvents_step _ _ _ _ _).
  destruct (writeConditional_step _ _ _ _ _ _) as [c1 x1] eqn:E. simplify_eq.
  destruct c0 as [|[old|] new| |r]; simpl in E.
  - destruct (Revision p), (IsGenesis p), (Load x (sc, pid)); try case_match; simplify_eq.
  - destruct Hok as (Hh & _ & _ & Hc). rewrite CompareAndSwap_ref in E by done.
    case_decide as Hd; simplify_eq. right. unfold log_of. by rewrite Hd.
  - destruct Hok as (_ & Hg). unfold LoadOrStore in E.
    destruct (db x !! (sc, pid)) eqn:Ed; simplify_eq. right. unfold log_of, cond_holds. by rewrite Hg, Ed.
  - done.
  - simplify_eq. by left.
Qed.

Lemma step_exclusive c c' : step c c' -> config_ok c -> exclusive c.1 -> exclusive c'.1.
Proof.
  intros [ts x i t t' x' Hi Hs] [Hr Hf] Hex. simpl in *.
  assert (thread_ok x t) as Ht by (by eapply Forall_lookup_1).
  assert (forall j sc pid evs evs' p, i <> j -> t' = TWrite sc pid evs p (Done (Ok tt)) ->
    ts !! j = Some (TWrite sc pid evs' p (Done (Ok tt))) ->
    contending p evs -> contending p evs' -> False) as Hnew.
  { intros j sc pid evs evs' p Hij -> Hj Hc Hc'.
    assert (thread_ok x (TWrite sc pid evs' p (Done (Ok tt)))) as Hokj by (by eapply Forall_lookup_1).
    apply (won_not_holds _ _ _ _ _ Hc') in Hokj.
    destruct (step_wins _ _ _ _ _ _ _ Ht Hs) as [->|Hh]; [by eapply (Hex i j)|congruence]. }
  intros a b sc pid evs evs' p Hab Ha Hb Hc Hc'.
  apply list_lookup_insert_Some in Ha as [(<- & -> & _)|[Hia Ha]];
    apply list_lookup_insert_Some in Hb as [(<- & Hb & _)|[Hib Hb]]; try done.
  - by eapply Hnew.
  - eapply Hnew; [|exact Hb|exact Ha|..]; done.
  - by apply (Hex a b sc pid evs evs' p).
Qed.

Definition ev (pid : string) (n : N) : Event := mkEvent pid n false None 0 0 "" false ∅.

(** ** Enumeration *)
Lemma str_ltb_spec a b : str_ltb a b = true <-> String.le a b /\ a <> b.
Proof.
  unfold str_ltb, String.le, String.leb. rewrite bool_decide_eq_true.
  destruct (String.compare a b) eqn:E; simpl; [|split; [intros _; split; [done|]|done]|split; [done|by intros []]].
  - apply String.compare_eq_iff in E. split; [done|by intros []].
  - intros ->. pose proof (String.compare_antisym b b) as H. by rewrite E in H.
Qed.

Lemma first_after_split token pre rest i : Forall (fun k => String.le k token) pre ->
  match rest with [] => False | k :: _ => str_ltb token k = true end ->
  first_after token i (pre ++ rest) = (i + length pre)%nat.
Proof.
  revert i. induction pre as [|k pre IH]; intros i Hpre Hrest; simpl.
  - destruct rest; [done|]. simpl. rewrite Hrest. lia.
  - apply Forall_cons in Hpre as [Hk Hpre]. destruct (str_ltb token k) eqn:E.
    + apply str_ltb_spec in E as [Hle Hne]. exfalso. apply Hne. by apply (anti_symm String.le).
    + rewrite IH by done. lia.
Qed.

Section Enumeration.
Context (range : gmap eventStoreKey logRef -> list (eventStoreKey * logRef)).
Hypothesis range_perm : forall m, range m ≡ₚ map_to_list m.

Lemma scope_keys_spec x sc : wf_scope sc -> map_Forall (fun k _ => wf_scope k.1) (db x) ->
  StronglySorted String.le (scope_keys range x sc) /\ NoDup (scope_keys range x sc) /\
  forall id, id ∈ scope_keys range x sc <-> is_Some (db x !! (sc, id)).
Proof.
  intros Hsc Hwf. unfold scope_keys, sort_strings.
  assert (forall kv, kv ∈ range (db x) -> (Equal kv.1.1 sc = true <-> kv.1.1 = sc)) as Heq.
  { intros [k r] Hin. rewrite range_perm in Hin. apply elem_of_map_to_list in Hin.
    apply wf_scope_Equal; [|done]. by apply (Hwf k r). }
  split_and!.
  - apply Sorted_StronglySorted; [apply _|]. apply (Sorted_merge_sort String.le).
  - rewrite merge_sort_Permutation. apply NoDup_fmap_2_strong.
    + intros [[s1 p1] r1] [[s2 p2] r2] H1 H2 Hp. simpl in Hp. subst.
      apply list_elem_of_filter in H1 as [E1 H1], H2 as [E2 H2].
      apply Heq in E1; [|done]. apply Heq in E2; [|done]. simpl in *. subst.
      rewrite range_perm in H1, H2. apply elem_of_map_to_list in H1, H2. congruence.
    + apply NoDup_filter. rewrite range_perm. apply NoDup_map_to_list.
  - intros id. rewrite merge_sort_Permutation, list_elem_of_fmap. split.
    + intros ([[s' p'] r] & -> & [E Hin]%list_elem_of_filter). apply Heq in E; [|done]. simpl in *. subst.
      rewrite range_perm in Hin. apply elem_of_map_to_list in Hin. by rewrite Hin.
    + intros [r Hr]. exists ((sc, id), r). split; [done|]. apply list_elem_of_filter.
      assert (((sc, id), r) ∈ range (db x)) as Hin by (rewrite range_perm; by apply elem_of_map_to_list).
      split; [|done]. by apply Heq.
Qed.

Lemma StronglySorted_app_le (pre rest : list string) token :
  StronglySorted String.le (pre ++ rest) -> NoDup (pre ++ rest) -> last pre = Some token ->
  Forall (fun k => String.le k token) pre /\
  Forall (fun k => str_ltb token k = true) rest.
Proof.
  intros Hs Hnd Hl. apply last_Some in Hl as [pre' ->]. split.
  - apply Forall_app. split; [|by constructor].
    rewrite <- app_assoc in Hs. apply Forall_forall. intros k Hk.
    eapply (StronglySorted_app_1_elem_of String.le); [exact Hs|done|]. by left.
  - apply Forall_forall. intros k Hk. apply str_ltb_spec. split.
    + eapply (StronglySorted_app_1_elem_of String.le); [exact Hs| |done]. apply elem_of_app. right. by left.
    + intros ->. apply NoDup_app in Hnd as (_ & Hdis & _). apply (Hdis k); [|done].
      apply elem_of_app. right. by left.
Qed.

(** One page, from the position its token stands for. *)
Lemma page_spec x sc pageSize token pre rest : Valid sc = true ->
  scope_keys range x sc = pre ++ rest -> (rest <> [] \/ pre = []) ->
  StronglySorted String.le (pre ++ rest) -> NoDup (pre ++ rest) ->
  token = default "" (last pre) -> "" ∉ pre ->
  (N.of_nat (length (pre ++ rest)) + pageSize <= api.max_int)%N ->
  let ids := take (N.to_nat pageSize) rest in
  PersistenceIDs range x sc pageSize token =
    Some (Ok (ids, if (length ids <? length rest)%nat && (0 <? length ids)%nat then default "" (last ids) else "")).
Proof.
  intros Hv Hk Hrest Hs Hnd -> Hne Hmax. cbv zeta. unfold PersistenceIDs. rewrite Hv, Hk. cbn [negb].
  assert ((if bool_decide (default "" (last pre) <> "")
    then first_after (default "" (last pre)) 0 (pre ++ rest) else 0%nat) = length pre) as ->.
  { destruct (last pre) as [token|] eqn:El.
    - destruct (StronglySorted_app_le _ _ _ Hs Hnd El) as [Hpre Hr]. simpl.
      assert (token ∈ pre) as Htok by (apply last_Some in El as [? ->]; apply elem_of_app; right; by left).
      rewrite bool_decide_eq_true_2 by (intros ->; done).
      apply first_after_split; [done|]. destruct rest as [|k rest].
      + destruct Hrest as [| ->]; [done|]. by apply not_elem_of_nil in Htok.
      + by apply Forall_cons in Hr as [? _].
    - simpl. apply last_None in El. by subst. }
  rewrite length_app in Hmax |- *.
  destruct (N.ltb_spec api.max_int (N.of_nat (length pre) + pageSize)%N); [lia|].
  rewrite drop_app_length.
  replace (Nat.min (length pre + N.to_nat pageSize) (length pre + length rest) - length pre)%nat
    with (Nat.min (N.to_nat pageSize) (length rest)) by lia.
  assert (take (Nat.min (N.to_nat pageSize) (length rest)) rest = take (N.to_nat pageSize) rest) as ->.
  { destruct (Nat.min_spec (N.to_nat pageSize) (length rest)) as [[? ->]|[? ->]]; [done|].
    by rewrite !take_ge. }
  do 3 f_equal. rewrite length_take.
  replace (_ <? _)%nat with (Nat.min (N.to_nat pageSize) (length rest) <? length rest)%nat; [done|].
  apply eq_true_iff_eq. rewrite !Nat.ltb_lt. lia.
Qed.

Lemma list_all_spec x sc pageSize pre rest fuel : Valid sc = true -> (0 < pageSize)%N ->
  scope_keys range x sc = pre ++ rest -> (rest <> [] \/ pre = []) ->
  StronglySorted String.le (pre ++ rest) -> NoDup (pre ++ rest) -> "" ∉ pre ++ rest ->
  (N.of_nat (length (pre ++ rest)) + pageSize <= api.max_int)%N -> (length rest < fuel)%nat ->
  list_all range x sc pageSize fuel (default "" (last pre)) = Some rest.
Proof.
  intros Hv Hps. revert pre rest. induction fuel as [|fuel IH]; intros pre rest Hk Hrest Hs Hnd Hne Hmax Hlt; [lia|].
  cbn [list_all]. rewrite (page_spec x sc pageSize _ pre rest) by (done || (rewrite elem_of_app in Hne; tauto)).
  set (ids := take (N.to_nat pageSize) rest). assert (length ids = Nat.min (N.to_nat pageSize) (length rest)) as Hlen
    by apply length_take.
  destruct (decide (length ids < length rest)%nat) as [Hshort|Hall].
  - assert (exists a, last ids = Some a) as [a Ha].
    { destruct (last ids) eqn:El; [eauto|]. apply last_None in El. rewrite El in Hlen. simpl in Hlen. lia. }
    rewrite (proj2 (Nat.ltb_lt _ _) Hshort), (proj2 (Nat.ltb_lt 0 (length ids))) by lia. rewrite Ha. simpl.
    assert (rest = ids ++ drop (N.to_nat pageSize) rest) as Hsplit by (symmetry; apply take_drop).
    assert (a ∈ ids) as Hain by (apply last_Some in Ha as [? ->]; apply elem_of_app; right; by left).
    rewrite bool_decide_eq_false_2.
    2: { intros ->. apply Hne. rewrite Hsplit. set_solver. }
    assert (last (pre ++ ids) = Some a) as Hla.
    { rewrite last_app, Ha. done. }
    specialize (IH (pre ++ ids) (drop (N.to_nat pageSize) rest)). rewrite Hla in IH. simpl in IH.
    rewrite <- app_assoc, <- Hsplit in IH. rewrite IH; [by rewrite Hsplit at 2|done| |done..|].
    + left. intros E. rewrite E, app_nil_r in Hsplit. rewrite <- Hsplit in Hshort. lia.
    + rewrite length_drop. lia.
  - rewrite (proj2 (Nat.ltb_ge _ _)) by lia. simpl. f_equal. unfold ids. apply take_ge. lia.
Qed.

(** The pagination contract: starting from the empty token and following
    the returned tokens, every persistence id of the scope is listed exactly
    once, in order, and no id of another scope; the loop ends within one call
    more than there are ids. (No id is the empty string, which the protocol
    reserves for "no more pages".) *)
Theorem persistence_ids_exactly_once x sc pageSize :
  wf_scope sc -> map_Forall (fun k _ => wf_scope k.1) (db x) -> (0 < pageSize)%N ->
  db x !! (sc, "") = None ->
  (N.of_nat (length (scope_keys range x sc)) + pageSize <= api.max_int)%N ->
  exists ids, list_all range x sc pageSize (S (length ids)) "" = Some ids /\ NoDup ids /\
    StronglySorted String.le ids /\ forall id, id ∈ ids <-> is_Some (stream_of x sc id).
Proof.
  intros Hsc Hwf Hps Hempty Hmax. destruct (scope_keys_spec x sc Hsc Hwf) as (Hs & Hnd & Hin).
  exists (scope_keys range x sc). split_and!; [|done..|].
  - apply (list_all_spec x sc pageSize [] (scope_keys range x sc)); try done.
    + by apply wf_scope_valid.
    + by right.
    + simpl. rewrite Hin, Hempty. by intros [].
    + lia.
  - intros id. rewrite Hin. unfold stream_of, log_of. by rewrite !fmap_is_Some.
Qed.
End Enumeration.

Definition three_ids : EventStore :=
  (WriteEvents NewEventsStore Unscoped [ev "b" 1; ev "a" 1; ev "c" 1] Unconditional).2.

Lemma persistence_ids_exactly_once_witness :
  exists ids, list_all map_to_list three_ids Unscoped 1 (S (length ids)) "" = Some ids.
Proof.
  destruct (persistence_ids_exactly_once map_to_list (fun m => reflexivity _) three_ids Unscoped 1)
    as (ids & H & _).
  - constructor.
  - intros k r Hr. destruct (decide (k.1 = Unscoped)) as [->|Hne]; [constructor|]. exfalso.
    assert (db three_ids = <[(Unscoped, "c") := (2%nat, newEventLog None [ev "c" 1])]>
      (<[(Unscoped, "a") := (1%nat, newEventLog None [ev "a" 1])]>
      (<[(Unscoped, "b") := (0%nat, newEventLog None [ev "b" 1])]> ∅))) as E by reflexivity.
    rewrite E in Hr. rewrite !lookup_insert_ne in Hr by (intros <-; done). done.
  - reflexivity.
  - reflexivity.
  - vm_compute. discriminate.
  - exists ids. exact H.
Defined.

(** An id equal to the empty string breaks the contract: it sorts first,
    so with a page size of one it becomes the token, which a caller reads as
    the end of the iteration, while "a" is still unlisted. *)
Theorem empty_persistence_id_ends_iteration :
  let x := (WriteEvents NewEventsStore Unscoped [ev "" 1; ev "a" 1] Unconditional).2 in
  PersistenceIDs map_to_list x Unscoped 1 "" = Some (Ok ([""], "")) /\ is_Some (stream_of x Unscoped "a").
Proof. split; [reflexivity|]. eexists. vm_compute. reflexivity. Qed.

Definition ev_at (pid : string) (n : N) (ts : Z) : Event := mkEvent pid n false None ts 7 "" false ∅.
Definition by_timestamp : list Event -> list Event :=
  stable_sort (fun a b => (Timestamp a <? Timestamp b)%Z).

(** A shard read returns one event more than the limit, and because it
    stops collecting before it sorts, the offset it hands back can be past
    events it never returned: with three events of one shard and a limit of
    one, two are returned, and a read from the returned offset misses the
    third for good. *)
Theorem shard_events_exceed_limit :
  let x := (WriteEvents NewEventsStore Unscoped [ev_at "a" 1 30; ev_at "a" 2 10; ev_at "a" 3 20] Unconditional).2 in
  GetShardEvents map_to_list by_timestamp x 7 0 1 = ([ev_at "a" 2 10; ev_at "a" 1 30], 30%Z) /\
  GetShardEvents map_to_list by_timestamp x 7 30 1 = ([], 0%Z).
Proof. split; reflexivity. Qed.

(** Retention running beside a writer can make a write fail although
    nobody else wrote and the revision it expects is the persisted one: the
    conflict reports an actual revision equal to the expected one. *)
Theorem retention_causes_spurious_conflict :
  let x0 := (WriteEvents NewEventsStore Unscoped [ev "a" 1; ev "a" 2] ExpectGenesis).2 in
  exists x' d, rtc step ([TWrite Unscoped "a" [ev "a" 3] (ExpectRevision 2) Start; TDelete Unscoped "a" 1 Start], x0)
    ([TWrite Unscoped "a" [ev "a" 3] (ExpectRevision 2)
        (Done (Err (EConflict (NewConflictError Unscoped "a" (ExpectRevision 2) [WithActualRevision 2])))); d], x').
Proof.
  intros x0. eexists _, _.
  eapply rtc_l; [eapply (step_thread _ _ 0); reflexivity|].
  eapply rtc_l; [eapply (step_thread _ _ 1); reflexivity|].
  eapply rtc_l; [eapply (step_thread _ _ 1); reflexivity|].
  eapply rtc_l; [eapply (step_thread _ _ 0); reflexivity|].
  eapply rtc_l; [eapply (step_thread _ _ 0); reflexivity|].
  apply rtc_refl.
Qed.

(** ** Properties *)
(** C5: A batch for one persistence id in a valid scope commits exactly when
    its precondition holds of the persisted stream; the stream then becomes
    the old one with the batch's records put by sequence number and the
    revision raised to the highest of them, and no other scope or persistence
    id changes. When the precondition does not hold the caller gets a conflict
    carrying the actual revision and the store is unchanged. *)
Theorem write_events_refines_spec x sc evs p : wf_store x ->
  Valid sc = true -> PreconditionValid p = true -> api.single_target evs = true ->
  exists x', wf_store x' /\
  if api.holds p (stream_of x sc (api.target evs))
  then WriteEvents x sc evs p = (Ok tt, x') /\
    stream_of x' sc (api.target evs) = Some (api.commit (stream_of x sc (api.target evs)) evs) /\
    forall sc' pid', (sc', pid') <> (sc, api.target evs) -> stream_of x' sc' pid' = stream_of x sc' pid'
  else WriteEvents x sc evs p = (Err (EConflict (conflict_for x sc (api.target evs) p)), x') /\ x' = x.
Proof.
  intros Hx Hs Hp Hst. pose proof (WriteEvents_holds x sc evs p Hx Hs Hp Hst) as H.
  destruct (api.holds _ _); [|by exists x]. destruct H as [x' Hw]. exists x'.
  destruct (WriteEvents_Ok _ _ _ _ _ Hx Hw) as (Hwf & _ & _ & _ & Hv).
  split_and!; [done|done| |].
  - rewrite Hv, api.of_pid_single by done. case_decide as Hd; [done|]. destruct Hd. by destruct evs.
  - intros sc' pid' Hne. rewrite Hv. case_decide as Hd; [|done]. destruct Hd as [-> Hd].
    destruct Hd. apply api.of_pid_other; [done|]. by intros ->.
Qed.

Lemma write_events_refines_spec_witness : exists x',
  WriteEvents NewEventsStore Unscoped [ev "a" 1; ev "a" 2] ExpectGenesis = (Ok tt, x').
Proof.
  destruct (write_events_refines_spec NewEventsStore Unscoped [ev "a" 1; ev "a" 2] ExpectGenesis)
    as (x' & _ & Hw & _); [apply map_Forall_empty|reflexivity..|].
  exists x'. exact Hw.
Defined.

(** C4: Whatever conditional writers, unconditional writers and retention
    deletes run concurrently, and however their map operations interleave, two
    writes that declare the same expectation (genesis, or the same revision
    with batches that advance it) on one stream are never both committed. *)
Theorem conditional_writers_one_winner ts x ts' x' i j sc pid evs evs' p :
  refs_ok x -> Forall starting ts -> rtc step (ts, x) (ts', x') -> i <> j ->
  contending p evs -> contending p evs' ->
  ts' !! i = Some (TWrite sc pid evs p (Done (Ok tt))) ->
  ts' !! j <> Some (TWrite sc pid evs' p (Done (Ok tt))).
Proof.
  intros Hr Hst Hrtc Hij Hc Hc' Hi Hj.
  assert (config_ok (ts, x) /\ exclusive ts) as [Hok Hex].
  { split; [by eapply reachable_config_ok, rtc_refl|].
    intros a b ????? _ Ha _ _ _. apply (Forall_lookup_1 _ _ _ _ Hst) in Ha. done. }
  assert (exclusive (ts', x').1) as Hex'; [|by eapply (Hex' i j)].
  change ts with (ts, x).1 in Hex. clear Hi Hj Hst Hr.
  induction Hrtc; eauto using step_config_ok, step_exclusive.
Qed.

Lemma conditional_writers_one_winner_witness :
  let w e := TWrite Unscoped "a" [ev "a" e] ExpectGenesis Start in
  exists x', [TWrite Unscoped "a" [ev "a" 1] ExpectGenesis (Done (Ok tt));
         TWrite Unscoped "a" [ev "a" 2] ExpectGenesis (Publish None (newEventLog None [ev "a" 2]))] !! 1%nat
    <> Some (TWrite Unscoped "a" [ev "a" 2] ExpectGenesis (Done (Ok tt))) /\
    rtc step ([w 1%N; w 2%N], NewEventsStore)
    ([TWrite Unscoped "a" [ev "a" 1] ExpectGenesis (Done (Ok tt));
      TWrite Unscoped "a" [ev "a" 2] ExpectGenesis (Publish None (newEventLog None [ev "a" 2]))], x').
Proof.
  intros w. eexists. refine ((fun Hrun => conj _ Hrun) _).
  - eapply (conditional_writers_one_winner [w 1%N; w 2%N] NewEventsStore _ _ 0 1 Unscoped "a"
      [ev "a" 1] [ev "a" 2] ExpectGenesis); [by intros ??|by repeat constructor|exact Hrun|done|by left|by left|reflexivity].
  - eapply rtc_l; [eapply (step_thread _ _ 0); reflexivity|].
    eapply rtc_l; [eapply (step_thread _ _ 1); reflexivity|].
    eapply rtc_l; [eapply (step_thread _ _ 0); reflexivity|]. apply rtc_refl.
Defined.

(** C9: In every reachable configuration, whatever conditional writes,
    unconditional batches and retention deletes run at once, one map operation
    of a caller either leaves the store as it is or changes one stream, from
    what is stored there at that instant: a conditional write puts its whole
    batch on the current log, whose precondition holds now; an unconditional
    batch puts all its events for one persistence id on the current log and
    goes on to the next id (a batch over several ids is committed id by id); a
    delete truncates the current log and keeps its revision. No update is
    computed from a stale log. *)
Theorem store_steps_are_atomic ts x ts' x' i t t' x'' :
  refs_ok x -> Forall starting ts -> rtc step (ts, x) (ts', x') ->
  ts' !! i = Some t -> thread_step t x' = (t', x'') ->
  x'' = x' \/ atomic_effect t t' x' x''.
Proof.
  intros Hr Hst Hrtc Hi Hs. destruct (reachable_config_ok _ _ _ Hr Hst Hrtc) as [Hr' Hf].
  apply (thread_step_ok x' t t' x'' Hr'); [|done]. by eapply Forall_lookup_1.
Qed.

(** Two writers have read the empty store; the first publishes. *)
Lemma store_steps_are_atomic_witness :
  let w e c := TWrite Unscoped "a" [ev "a" e] ExpectGenesis c in
  let read e := w e (Publish None (newEventLog None [ev "a" e])) in
  let x'' := (thread_step (read 1%N) NewEventsStore).2 in
  rtc step ([w 1%N Start; w 2%N Start], NewEventsStore) ([read 1%N; read 2%N], NewEventsStore) /\
  x'' <> NewEventsStore /\ atomic_effect (read 1%N) (w 1%N (Done (Ok tt))) NewEventsStore x''.
Proof.
  intros w read x''. assert (rtc step ([w 1%N Start; w 2%N Start], NewEventsStore) ([read 1%N; read 2%N], NewEventsStore)) as Hrun.
  { eapply rtc_l; [eapply (step_thread _ _ 0); reflexivity|]. eapply rtc_l; [eapply (step_thread _ _ 1); reflexivity|]. apply rtc_refl. }
  assert (x'' <> NewEventsStore) as Hne by (intros [=]). split; [exact Hrun|]. split; [exact Hne|].
  destruct (store_steps_are_atomic [w 1%N Start; w 2%N Start] NewEventsStore [read 1%N; read 2%N] NewEventsStore 0 (read 1%N) (w 1%N (Done (Ok tt))) x'')
    as [H|H]; [by intros ??|by repeat constructor|exact Hrun|reflexivity|reflexivity|by destruct Hne|exact H].
Defined.

Lemma atomic_effect_wf t t' x x' : atomic_effect t t' x x' -> wf_store x -> wf_store x'.
Proof.
  assert (forall k evs, wf_store x -> wf_store (publish x k (newEventLog (log_of x k) evs))) as Hnew.
  { intros k evs Hwf. apply wf_publish; [done|]. apply newEventLog_spec. intros l. by apply wf_log_of. }
  destruct t as [sc pid evs p c|sc [|g gs] c|sc pid to c]; simpl; [|done| |].
  - intros (_ & _ & ->). apply Hnew.
  - intros (_ & ->). apply Hnew.
  - intros (_ & l & Hl & ->) Hwf. apply wf_publish; [done|]. destruct (wf_log_of _ _ _ Hwf Hl) as [Hn Hr]. split; simpl.
    + by apply NoDup_fmap_filter.
    + rewrite Forall_forall in *. intros e [_ He]%list_elem_of_filter. by apply Hr.
Qed.

(** C39: The store keeps its type invariant under any concurrency: whatever writers
    and retention runs interleave, every stream has at most one record per
    sequence number and none above its revision. *)
Theorem store_stays_well_formed ts x ts' x' :
  refs_ok x -> wf_store x -> Forall starting ts -> rtc step (ts, x) (ts', x') -> wf_store x'.
Proof.
  intros Hr Hwf Hst Hrtc.
  enough (forall c c', rtc step c c' -> config_ok c -> wf_store c.2 -> wf_store c'.2) as H.
  { eapply (H _ _ Hrtc); [|done]. split; [done|]. eapply Forall_impl; [exact Hst|]. intros. by apply starting_ok. }
  clear. induction 1 as [|c c1 c2 Hs _ IH]; [done|]. intros Hok Hwf. apply IH; [by eapply step_config_ok|].
  destruct Hs as [ts x i t t' x' Hi Hs]. destruct Hok as [Hr Hf]. simpl in *.
  destruct (thread_step_ok x t t' x' Hr) as [[->|He] _]; [by eapply Forall_lookup_1|done..|]. by eapply atomic_effect_wf.
Qed.

Lemma store_stays_well_formed_witness : exists ts' x',
  rtc step ([TWrite Unscoped "a" [ev "a" 1; ev "a" 1] ExpectGenesis Start; TDelete Unscoped "a" 1 Start], NewEventsStore) (ts', x') /\
  wf_store x' /\ is_Some (stream_of x' Unscoped "a").
Proof.
  assert (exists ts' x', rtc step ([TWrite Unscoped "a" [ev "a" 1; ev "a" 1] ExpectGenesis Start; TDelete Unscoped "a" 1 Start], NewEventsStore) (ts', x') /\
    is_Some (stream_of x' Unscoped "a")) as (ts' & x' & Hrtc & Hsome).
  { eexists _, _. split.
    - eapply rtc_l; [eapply (step_thread _ _ 0); reflexivity|].
      eapply rtc_l; [eapply (step_thread _ _ 0); reflexivity|].
      eapply rtc_l; [eapply (step_thread _ _ 1); reflexivity|]. apply rtc_refl.
    - vm_compute. by eexists. }
  exists ts', x'. split; [exact Hrtc|]. split; [|exact Hsome].
  eapply (store_stays_well_formed _ NewEventsStore ts' x'); [|apply map_Forall_empty| |exact Hrtc]; [|by repeat constructor].
  intros k r Hr. simpl in Hr. by rewrite lookup_empty in Hr.
Defined.

(** A conditional write never waits: whatever other callers did to the
    store between its operations, it is decided after its third one. *)
Theorem conditional_write_wait_free sc pid evs p x1 x2 x3 :
  let c1 := (writeConditional_step sc pid evs p Start x1).1 in
  let c2 := (writeConditional_step sc pid evs p c1 x2).1 in
  let c3 := (writeConditional_step sc pid evs p c2 x3).1 in
  exists r, c3 = Done r.
Proof.
  cbv zeta. unfold writeConditional_step at 3.
  destruct (Revision p) as [r b]. destruct (IsGenesis p), (Load x1 (sc, pid)) as [l|]; simpl;
    try (destruct (_ =? _)%N); simpl; eauto;
    unfold LoadOrStore, CompareAndSwap; destruct (db x2 !! (sc, pid)); simpl; eauto;
    destruct (_ =? _)%nat; simpl; eauto.
Qed.

(** Retention never resets the storage revision: after a delete the
    records above the bound remain, the revision is the one before, and a
    writer that expects any other revision still conflicts. *)
Theorem retention_keeps_revision x sc pid to s : wf_store x -> Valid sc = true ->
  stream_of x sc pid = Some s ->
  exists x', DeleteEvents x sc pid to = (Ok tt, x') /\
    stream_of x' sc pid = Some (api.truncate s to) /\ api.srevision (api.truncate s to) = api.srevision s /\
    forall e r, PersistenceId e = pid -> r <> api.srevision s ->
      WriteEvents x' sc [e] (ExpectRevision r) = (Err (EConflict (conflict_for x' sc pid (ExpectRevision r))), x').
Proof.
  intros Hx Hs Hst. destruct (DeleteEvents_spec x sc pid to Hx Hs) as (x' & Hd & Hwf & Hv).
  exists x'. specialize (Hv sc pid). rewrite decide_True, Hst in Hv by done. split_and!; [done..|].
  intros e r He Hne. pose proof (WriteEvents_holds x' sc [e] (ExpectRevision r) Hwf Hs eq_refl eq_refl) as H.
  simpl in H. rewrite He, Hv in H. unfold api.holds in H. simpl in H.
  by rewrite (proj2 (N.eqb_neq _ _)) in H.
Qed.

Lemma retention_keeps_revision_witness :
  let x := (WriteEvents NewEventsStore Unscoped [ev "a" 1; ev "a" 2] ExpectGenesis).2 in
  exists x', DeleteEvents x Unscoped "a" 2 = (Ok tt, x') /\
    (WriteEvents x' Unscoped [ev "a" 3] (ExpectRevision 0)).1 =
    Err (EConflict (conflict_for x' Unscoped "a" (ExpectRevision 0))).
Proof.
  intros x. destruct (retention_keeps_revision x Unscoped "a" 2
    (log_stream (newEventLog None [ev "a" 1; ev "a" 2]))) as (x' & Hd & _ & _ & Hw).
  - apply (WriteEvents_Ok NewEventsStore Unscoped [ev "a" 1; ev "a" 2] ExpectGenesis x);
      [apply map_Forall_empty|reflexivity].
  - reflexivity.
  - reflexivity.
  - exists x'. split; [exact Hd|]. by rewrite (Hw (ev "a" 3) 0%N).
Defined.

End testkit.
