(* ===== verification/StateStores.v ===== *)
(** * The in-memory state, snapshot and offset stores

    [src/testkit/durablestore.go], [snapshotstore.go] and [offsetstore.go]:
    their operations, and that the first two implement the interfaces of
    [StoreApi.v]. *)

From S2P Require Import Prelude Tenancy Persistence Egopb StoreApi.
From Stdlib Require Import ZArith Lia.
Open Scope list_scope.

(** ** [DurableStore] *)
Module durablestore.
Import persistence egopb.

(** The values are pointers: [CompareAndSwap] compares identities. *)
Abbreviation stateRef := (nat * DurableState)%type.
Record DurableStore := mkDurableStore {
  db : gmap (Scope * string) stateRef;
  fresh : nat;
  connected : bool
}.
Definition NewDurableStore : DurableStore := mkDurableStore ∅ 0 false.

Definition Connect (d : DurableStore) : DurableStore :=
  if connected d then d else mkDurableStore (db d) (fresh d) true.
Definition Disconnect (d : DurableStore) : DurableStore :=
  if connected d then mkDurableStore ∅ (fresh d) false else d.
Definition Ping (d : DurableStore) : DurableStore := if connected d then d else Connect d.

Definition Store (d : DurableStore) (k : Scope * string) (s : DurableState) : DurableStore :=
  mkDurableStore (<[k := (fresh d, s)]> (db d)) (S (fresh d)) (connected d).
Definition LoadOrStore (d : DurableStore) (k : Scope * string) (s : DurableState) : option stateRef * DurableStore :=
  match db d !! k with Some actual => (Some actual, d) | None => (None, Store d k s) end.
Definition CompareAndSwap (d : DurableStore) (k : Scope * string) (old : stateRef) (s : DurableState) : bool * DurableStore :=
  match db d !! k with
  | Some cur => if (cur.1 =? old.1)%nat then (true, Store d k s) else (false, d)
  | None => (false, d)
  end.

Definition conflict (sc : Scope) (pid : string) (p : WritePrecondition) (found : option stateRef) : store_error :=
  EConflict (NewConflictError sc pid p
    match found with Some r => [WithActualRevision (VersionNumber r.2)] | None => [] end).

Definition errNotConnected := EStore "durable store is not connected".

Definition WriteState (d : DurableStore) (sc : Scope) (state : DurableState) (p : WritePrecondition) : result store_error unit * DurableStore :=
  if negb (connected d) then (Err errNotConnected, d)
  else if negb (Valid sc) then (Err ErrInvalidScope, d)
  else if negb (PreconditionValid p) then (Err ErrInvalidPrecondition, d)
  else
    let pid := dPersistenceId state in
    let key := (sc, pid) in
    if IsUnconditional p then (Ok tt, Store d key state)
    else
      let current := db d !! key in
      if IsGenesis p then
        match current with
        | Some _ => (Err (conflict sc pid p current), d)
        | None =>
          match LoadOrStore d key state with
          | (Some actual, d) => (Err (conflict sc pid p (Some actual)), d)
          | (None, d) => (Ok tt, d)
          end
        end
      else
        let '(expectedRevision, _) := Revision p in
        match current with
        | None => (Err (conflict sc pid p None), d)
        | Some r =>
          if negb (VersionNumber r.2 =? expectedRevision)%N then (Err (conflict sc pid p current), d)
          else match CompareAndSwap d key r state with
          | (true, d) => (Ok tt, d)
          | (false, d) => (Err (conflict sc pid p (db d !! key)), d)
          end
        end.

Definition GetLatestState (d : DurableStore) (sc : Scope) (pid : string) : result store_error (option DurableState) :=
  if negb (connected d) then Err errNotConnected
  else if negb (Valid sc) then Err ErrInvalidScope
  else Ok (snd <$> db d !! (sc, pid)).

Definition state_of (d : DurableStore) (sc : Scope) (pid : string) : option DurableState :=
  snd <$> db d !! (sc, pid).

Lemma state_of_Store d sc pid s sc' pid' :
  state_of (Store d (sc, pid) s) sc' pid' = if decide (sc' = sc /\ pid' = pid) then Some s else state_of d sc' pid'.
Proof.
  unfold state_of, Store. simpl. case_decide as E.
  - destruct E as [-> ->]. by rewrite lookup_insert_eq.
  - rewrite lookup_insert_ne; [done|naive_solver].
Qed.

(** The whole behaviour of a write on a connected store. *)
Lemma WriteState_spec d sc s p :
  connected d = true -> Valid sc = true -> PreconditionValid p = true ->
  WriteState d sc s p =
  if api.state_holds p (state_of d sc (dPersistenceId s))
  then (Ok tt, Store d (sc, dPersistenceId s) s)
  else (Err (conflict sc (dPersistenceId s) p (db d !! (sc, dPersistenceId s))), d).
Proof.
  intros Hc Hs Hp. unfold WriteState, state_of. rewrite Hc, Hs, Hp. simpl.
  unfold PreconditionValid in Hp. bool_prop.
  unfold IsUnconditional, IsGenesis, Revision, api.state_holds, LoadOrStore, CompareAndSwap.
  destruct (mode p) eqn:Em; [done|done|..]; simpl; destruct (db d !! _) as [r|] eqn:E; simpl; try done.
  destruct (_ =? _)%N; simpl; [|done]. by rewrite Nat.eqb_refl.
Qed.

Lemma WriteState_refused d sc s p :
  connected d = false \/ Valid sc = false \/ PreconditionValid p = false ->
  (WriteState d sc s p).2 = d /\ exists e, (WriteState d sc s p).1 = Err e.
Proof.
  unfold WriteState. destruct (connected d); simpl; [|eauto]. destruct (Valid sc); simpl; [|eauto].
  destruct (PreconditionValid p); simpl; [|eauto]. by intros [|[]].
Qed.

#[export] Instance DurableStore_ops : api.StateStore DurableStore :=
  {| api.WriteState := WriteState; api.GetLatestState := GetLatestState |}.

Lemma WriteState_cases d sc s p :
  (connected d = true /\ Valid sc = true /\ PreconditionValid p = true) \/
  ((WriteState d sc s p).2 = d /\ exists e, (WriteState d sc s p).1 = Err e).
Proof.
  destruct (connected d) eqn:Hc; [|right; apply WriteState_refused; auto].
  destruct (Valid sc) eqn:Hs; [|right; apply WriteState_refused; auto].
  destruct (PreconditionValid p) eqn:Hp; [|right; apply WriteState_refused; auto]. by left.
Qed.

#[export] Instance DurableStore_laws : api.StateStoreLaws DurableStore.
Proof.
  refine {| api.dview := state_of |}; simpl.
  - intros d sc s p d' Hw. destruct (WriteState_cases d sc s p) as [(Hc & Hs & Hp)|[_ [e He]]]; [|by rewrite Hw in He].
    rewrite WriteState_spec in Hw by done. destruct (api.state_holds _ _) eqn:Hh; [|done].
    injection Hw as <-. split_and!; [done..|]. intros. apply state_of_Store.
  - intros d sc s p e d' Hw. destruct (WriteState_cases d sc s p) as [(Hc & Hs & Hp)|[He _]]; [|by rewrite Hw in He].
    rewrite WriteState_spec in Hw by done. destruct (api.state_holds _ _); [done|]. by injection Hw as _ <-.
  - intros d sc pid r. unfold GetLatestState. repeat case_match; naive_solver.
Defined.

(** A write to a connected state store commits exactly when its
    precondition holds of the stored version; it then replaces the record of
    its own scope and persistence id and no other, and the next read returns
    it. Otherwise the caller gets a conflict with the stored version and the
    store is unchanged. *)
Theorem write_state_conditional d sc s p :
  connected d = true -> Valid sc = true -> PreconditionValid p = true ->
  let '(r, d') := WriteState d sc s p in
  if api.state_holds p (state_of d sc (dPersistenceId s))
  then r = Ok tt /\ GetLatestState d' sc (dPersistenceId s) = Ok (Some s) /\
    forall sc' pid', (sc', pid') <> (sc, dPersistenceId s) -> state_of d' sc' pid' = state_of d sc' pid'
  else d' = d /\ r = Err (EConflict (NewConflictError sc (dPersistenceId s) p
    match state_of d sc (dPersistenceId s) with Some cur => [WithActualRevision (VersionNumber cur)] | None => [] end)).
Proof.
  intros Hc Hs Hp. rewrite WriteState_spec by done. destruct (api.state_holds _ _).
  - split_and!; [done| |].
    + unfold GetLatestState. simpl. rewrite Hc, Hs. simpl. by rewrite lookup_insert_eq.
    + intros sc' pid' Hne. rewrite state_of_Store. case_decide; naive_solver.
  - split; [done|]. unfold conflict, state_of. by destruct (db d !! _).
Qed.

Definition sample (v : N) : DurableState := mkDurableState "a" v None 0 0 ∅.
Lemma write_state_conditional_witness :
  let d := (WriteState (Connect NewDurableStore) Unscoped (sample 1) ExpectGenesis).2 in
  (WriteState d Unscoped (sample 2) (ExpectRevision 1)).1 = Ok tt.
Proof.
  intros d. pose proof (write_state_conditional d Unscoped (sample 2) (ExpectRevision 1) eq_refl eq_refl eq_refl) as H.
  destruct (WriteState d Unscoped (sample 2) (ExpectRevision 1)) as [r d']. apply H.
Defined.

End durablestore.

(** ** [SnapshotStore] *)
Module snapshotstore.
Import persistence egopb.

Abbreviation SnapshotKey := (Scope * string * N)%type.
Record SnapshotStore := mkSnapshotStore { db : gmap SnapshotKey Snapshot; connected : bool }.
Definition NewSnapshotStore : SnapshotStore := mkSnapshotStore ∅ false.
Definition Connect (x : SnapshotStore) : SnapshotStore := if connected x then x else mkSnapshotStore (db x) true.
Definition Disconnect (x : SnapshotStore) : SnapshotStore := if connected x then mkSnapshotStore ∅ false else x.
Definition Ping (x : SnapshotStore) : SnapshotStore := if connected x then x else Connect x.

Definition WriteSnapshot (x : SnapshotStore) (sc : Scope) (s : Snapshot) : result store_error unit * SnapshotStore :=
  if negb (Valid sc) then (Err ErrInvalidScope, x)
  else (Ok tt, mkSnapshotStore (<[(sc, sPersistenceId s, sSequenceNumber s) := s]> (db x)) (connected x)).

(** [sort.SliceStable] by decreasing sequence number; only the head is used. *)
Fixpoint insert_desc (s : Snapshot) (l : list Snapshot) : list Snapshot :=
  match l with
  | [] => [s]
  | x :: l' => if (sSequenceNumber x <? sSequenceNumber s)%N then s :: l else x :: insert_desc s l'
  end.
Definition sort_desc (l : list Snapshot) : list Snapshot := foldl (fun acc s => insert_desc s acc) [] l.

Definition DeleteSnapshots (x : SnapshotStore) (sc : Scope) (pid : string) (to : N) : result store_error unit * SnapshotStore :=
  if negb (Valid sc) then (Err ErrInvalidScope, x)
  else (Ok tt, mkSnapshotStore
    (filter (fun kv => ~ (Equal kv.1.1.1 sc = true /\ kv.1.1.2 = pid /\ (kv.1.2 <= to)%N)) (db x)) (connected x)).

Section Range.
(** The visiting order of [sync.Map.Range]. *)
Context (range : gmap SnapshotKey Snapshot -> list (SnapshotKey * Snapshot)).

Definition GetLatestSnapshot (x : SnapshotStore) (sc : Scope) (pid : string) : result store_error (option Snapshot) :=
  if negb (Valid sc) then Err ErrInvalidScope
  else
    let snapshots := snd <$> filter (fun kv => Equal kv.1.1.1 sc = true /\ kv.1.1.2 = pid) (range (db x)) in
    Ok (head (sort_desc snapshots)).

Hypothesis range_perm : forall m, range m ≡ₚ map_to_list m.

(** Every record is filed under its own identity, in a constructed scope. *)
Definition wf_store (x : SnapshotStore) : Prop :=
  map_Forall (fun k s => wf_scope k.1.1 /\ k.1.2 = sPersistenceId s /\ k.2 = sSequenceNumber s) (db x).

Definition snapshots_of (x : SnapshotStore) (sc : Scope) (pid : string) : gmap N Snapshot :=
  list_to_map ((fun kv => (kv.1.2, kv.2)) <$> filter (fun kv => kv.1.1 = (sc, pid)) (map_to_list (db x))).

Lemma snapshots_of_lookup x sc pid n s : snapshots_of x sc pid !! n = Some s <-> db x !! (sc, pid, n) = Some s.
Proof.
  unfold snapshots_of. rewrite <- elem_of_list_to_map.
  - rewrite list_elem_of_fmap. split.
    + intros ([[[sc' pid'] n'] s'] & Heq & [Hk Hin]%list_elem_of_filter). simplify_eq/=.
      by apply elem_of_map_to_list in Hin.
    + intros H. exists ((sc, pid, n), s). split; [done|]. apply list_elem_of_filter. split; [done|].
      by apply elem_of_map_to_list.
  - rewrite <- list_fmap_compose. apply NoDup_fmap_2_strong.
    + intros [[[sc1 pid1] n1] s1] [[[sc2 pid2] n2] s2] H1 H2 Hn. simpl in Hn. subst.
      apply list_elem_of_filter in H1 as [E1 H1], H2 as [E2 H2]. simplify_eq/=.
      apply elem_of_map_to_list in H1, H2. congruence.
    + apply NoDup_filter, NoDup_map_to_list.
Qed.

Lemma insert_desc_elem s l x : x ∈ insert_desc s l <-> x = s \/ x ∈ l.
Proof.
  induction l as [|y l IH]; simpl; [set_solver|]. destruct (_ <? _)%N; [set_solver|].
  rewrite elem_of_cons, IH. set_solver.
Qed.

Lemma sort_desc_head l : match head (sort_desc l) with
  | None => l = []
  | Some s => s ∈ l /\ forall s', s' ∈ l -> (sSequenceNumber s' <= sSequenceNumber s)%N
  end.
Proof.
  assert (forall x, x ∈ sort_desc l <-> x ∈ l) as Hel.
  { unfold sort_desc. induction l as [|s l IH] using rev_ind; [done|]. intros x.
    rewrite foldl_snoc, insert_desc_elem, elem_of_app, list_elem_of_singleton, IH. tauto. }
  assert (match head (sort_desc l) with None => l = [] | Some s =>
    forall s', s' ∈ l -> (sSequenceNumber s' <= sSequenceNumber s)%N end) as H.
  { clear Hel. unfold sort_desc. induction l as [|s l IH] using rev_ind; [done|].
    rewrite foldl_snoc. destruct (foldl _ [] l) as [|h t] eqn:E; simpl in *.
    - subst. simpl. intros s' ->%list_elem_of_singleton. done.
    - destruct (N.ltb_spec (sSequenceNumber h) (sSequenceNumber s)); simpl;
        intros s' [Hs'| ->%list_elem_of_singleton]%elem_of_app; try lia; apply IH in Hs'; lia. }
  destruct (head (sort_desc l)) as [s|] eqn:E; [|done]. split; [|done].
  apply Hel. destruct (sort_desc l); simplify_eq/=. left.
Qed.

Lemma GetLatestSnapshot_spec x sc pid r : wf_store x -> wf_scope sc ->
  GetLatestSnapshot x sc pid = Ok r -> api.latest_snapshot (snapshots_of x sc pid) r.
Proof.
  intros Hwf Hsc. unfold GetLatestSnapshot. rewrite wf_scope_valid by done. simpl. intros [= <-].
  set (l := snd <$> _).
  assert (forall s, s ∈ l <-> snapshots_of x sc pid !! sSequenceNumber s = Some s) as Hl.
  { intros s. rewrite snapshots_of_lookup. unfold l. rewrite list_elem_of_fmap. split.
    - intros ([[[sc' pid'] n] s'] & -> & [[He Hp] Hin]%list_elem_of_filter). simpl in *. subst.
      rewrite range_perm in Hin. apply elem_of_map_to_list in Hin.
      destruct (Hwf _ _ Hin) as (Hw & _ & Hn). simpl in *. subst.
      apply wf_scope_Equal in He; [|done..]. by subst.
    - intros Hs. exists ((sc, pid, sSequenceNumber s), s). split; [done|]. apply list_elem_of_filter.
      split; [split; [|done]|rewrite range_perm; by apply elem_of_map_to_list].
      by apply wf_scope_Equal. }
  assert (forall n s, snapshots_of x sc pid !! n = Some s -> n = sSequenceNumber s) as Hn.
  { intros n s Hs. rewrite snapshots_of_lookup in Hs. by apply Hwf in Hs as (_ & _ & ?). }
  pose proof (sort_desc_head l) as Hh. destruct (head (sort_desc l)) as [s|]; simpl.
  - destruct Hh as [Hin Hmax]. split; [by apply Hl|]. intros n s' Hs'. pose proof (Hn _ _ Hs') as ->.
    apply Hmax. by apply Hl.
  - apply map_empty. intros n. destruct (snapshots_of x sc pid !! n) as [s|] eqn:E; [|done].
    pose proof (Hn _ _ E) as ->. apply Hl in E. rewrite Hh in E. by apply not_elem_of_nil in E.
Qed.

Definition SnapshotStore_ops : api.SnapshotStore SnapshotStore := {|
  api.WriteSnapshot := WriteSnapshot; api.GetLatestSnapshot := GetLatestSnapshot;
  api.DeleteSnapshots := DeleteSnapshots
|}.

Lemma WriteSnapshot_spec x sc s x' : wf_store x -> wf_scope sc -> WriteSnapshot x sc s = (Ok tt, x') ->
  wf_store x' /\ forall sc' pid', snapshots_of x' sc' pid' =
    if decide (sc' = sc /\ pid' = sPersistenceId s)
    then <[sSequenceNumber s := s]> (snapshots_of x sc' pid') else snapshots_of x sc' pid'.
Proof.
  intros Hwf Hsc. unfold WriteSnapshot. rewrite wf_scope_valid by done. intros [= <-]. split.
  - apply map_Forall_insert_2; done.
  - intros sc' pid'. apply map_eq. intros n. apply option_eq. intros s'. rewrite snapshots_of_lookup. simpl.
    case_decide as Hd.
    + destruct Hd as [-> ->]. rewrite !lookup_insert_Some, snapshots_of_lookup. naive_solver.
    + rewrite lookup_insert_ne, snapshots_of_lookup; [done|]. naive_solver.
Qed.

Lemma DeleteSnapshots_spec x sc pid to x' : wf_store x -> wf_scope sc ->
  DeleteSnapshots x sc pid to = (Ok tt, x') ->
  wf_store x' /\ forall sc' pid', snapshots_of x' sc' pid' =
    if decide (sc' = sc /\ pid' = pid)
    then filter (fun kv => (to < kv.1)%N) (snapshots_of x sc' pid') else snapshots_of x sc' pid'.
Proof.
  intros Hwf Hsc. unfold DeleteSnapshots. rewrite wf_scope_valid by done. intros [= <-]. split.
  - intros k s [? _]%map_lookup_filter_Some. by apply Hwf.
  - intros sc' pid'. apply map_eq. intros n. apply option_eq. intros s. rewrite snapshots_of_lookup. simpl.
    rewrite map_lookup_filter_Some. simpl. case_decide as Hd.
    + destruct Hd as [-> ->]. rewrite map_lookup_filter_Some, snapshots_of_lookup. simpl.
      assert (Equal sc sc = true) by (by apply wf_scope_Equal). split; intros [? ?]; (split; [done|]); [|naive_solver lia].
      destruct (N.lt_ge_cases to n); [done|]. exfalso. naive_solver.
    + rewrite snapshots_of_lookup. split; [by intros []|]. intros Hs. split; [done|].
      intros (He & -> & _). destruct (Hwf _ _ Hs) as [Hw _]. simpl in Hw.
      apply wf_scope_Equal in He; [|done..]. naive_solver.
Qed.

Definition SnapshotStore_laws : @api.SnapshotStoreLaws SnapshotStore SnapshotStore_ops.
Proof.
  refine {| api.snap_ok := wf_store; api.sview := snapshots_of |}; simpl.
  - intros st sc pid n s Hwf Hs. rewrite snapshots_of_lookup in Hs. by apply Hwf in Hs as (_ & ? & ?).
  - apply WriteSnapshot_spec.
  - intros st sc s e st' _. unfold WriteSnapshot. by destruct (Valid sc); intros [= <-].
  - apply GetLatestSnapshot_spec.
  - apply DeleteSnapshots_spec.
  - intros st sc pid to e st' _. unfold DeleteSnapshots. by destruct (Valid sc); intros [= <-].
Defined.

Definition SnapshotStore_reliable : @api.ReliableSnapshotStore SnapshotStore SnapshotStore_ops SnapshotStore_laws.
Proof.
  split. simpl. intros st sc pid _ Hsc. unfold GetLatestSnapshot. rewrite wf_scope_valid by done. simpl. eauto.
Qed.
End Range.
End snapshotstore.

(** ** [OffsetStore] *)
Module offsetstore.
Import egopb.

Abbreviation OffsetKey := (string * N)%type.
Record OffsetStore := mkOffsetStore { db : gmap OffsetKey Offset; connected : bool }.
Definition NewOffsetStore : OffsetStore := mkOffsetStore ∅ false.
Definition Connect (x : OffsetStore) : OffsetStore := if connected x then x else mkOffsetStore (db x) true.
Definition Disconnect (x : OffsetStore) : OffsetStore := if connected x then mkOffsetStore ∅ false else x.
Definition Ping (x : OffsetStore) : OffsetStore := if connected x then x else Connect x.

Definition WriteOffset (x : OffsetStore) (offset : Offset) : OffsetStore :=
  mkOffsetStore (<[(ProjectionName offset, ShardNumber offset) := offset]> (db x)) (connected x).

Definition GetCurrentOffset (x : OffsetStore) (projectionName : string) (shardNumber : N) : option Offset :=
  db x !! (projectionName, shardNumber).

(** What [sync.Map.Range] hands to the callback: keys and values of dynamic
    type. [v.(OffsetKey)] on a value that is not an [OffsetKey] panics. *)
Inductive dyn := DOffsetKey (k : OffsetKey) | DOffset (o : Offset).
Definition as_OffsetKey (v : dyn) : option OffsetKey := match v with DOffsetKey k => Some k | _ => None end.
Definition as_Offset (v : dyn) : option Offset := match v with DOffset o => Some o | _ => None end.

(** [None]: a type assertion panics. *)
Definition ResetOffset (x : OffsetStore) (projectionName : string) (value ts : Z) : option OffsetStore :=
  foldl (fun acc (kv : OffsetKey * Offset) =>
    x ← acc;
    let v := DOffset kv.2 in
    key ← as_OffsetKey v;
    val ← as_Offset v;
    if bool_decide (key.1 = projectionName)
    then Some (mkOffsetStore (<[key := mkOffset (ShardNumber val) (egopb.ProjectionName val) value ts]> (db x)) (connected x))
    else Some x) (Some x) (map_to_list (db x)).

(** An offset written is the one read back for its projection and shard,
    and other projections and shards keep theirs. *)
Theorem offset_roundtrip x o name shard :
  GetCurrentOffset (WriteOffset x o) name shard =
  if decide ((name, shard) = (ProjectionName o, ShardNumber o)) then Some o else GetCurrentOffset x name shard.
Proof.
  unfold GetCurrentOffset, WriteOffset. simpl. case_decide as E.
  - rewrite E. apply lookup_insert_eq.
  - by rewrite lookup_insert_ne.
Qed.

(** Resetting offsets panics on every store that holds an offset: the
    callback asserts that the visited value, an [*egopb.Offset], is the key. *)
Theorem reset_offset_panics x o name value ts :
  ResetOffset (WriteOffset x o) name value ts = None.
Proof.
  unfold ResetOffset. set (l := map_to_list _).
  assert (l <> []) as Hl.
  { intros E. apply map_to_list_empty_iff in E. simpl in E.
    by apply (insert_non_empty (db x) (ProjectionName o, ShardNumber o) o). }
  destruct l as [|kv l]; [done|]. simpl. clear Hl. induction l as [|kv' l IH]; [done|]. exact IH.
Qed.
End offsetstore.
