(* ===== verification/Command.v ===== *)
(** * Package [command]: operation metadata, its carrier, envelopes, results

    [src/command]: identities, principals, the [Metadata] value with its
    options and [Derive], the flat [Carrier] it travels in, envelopes, and the
    six-kind result taxonomy. A protobuf message is a value of the parameter
    [msg]; a nil interface is [None]. *)

From S2P Require Import Prelude GoStrings Tenancy Persistence.
From Stdlib Require Import ZArith Lia DecimalString DecimalZ.
Open Scope string_scope.
Open Scope list_scope.
Open Scope urd_scope.

Module command.

(** ** Outcomes, failures and errors ([result.go], [errors.go]) *)
Inductive Outcome :=
| OutcomeZero | OutcomeSuccess | OutcomeSuccessNoState | OutcomeRejected
| OutcomeFailed | OutcomeTimedOut | OutcomeCanceled.
#[export] Instance Outcome_eq_dec : EqDecision Outcome.
Proof. solve_decision. Defined.

Definition OutcomeString (o : Outcome) : string :=
  match o with
  | OutcomeSuccess => "success"
  | OutcomeSuccessNoState => "success_no_state"
  | OutcomeRejected => "rejected"
  | OutcomeFailed => "failed"
  | OutcomeTimedOut => "timed_out"
  | OutcomeCanceled => "canceled"
  | OutcomeZero => "unknown"
  end.

Definition CodeConcurrencyConflict := "concurrency_conflict".

(** The underlying errors a failure or an error can wrap. *)
Inductive Cause :=
| DeadlineExceeded | Canceled
| CauseConflict (e : persistence.ConflictError)
| CauseText (message : string).

Record Failure := mkFailure { message : string; code : string; hasCode : bool; cause : option Cause }.
Definition noFailure : Failure := mkFailure "" "" false None.

Inductive Sentinel :=
| ErrRejected | ErrFailed | ErrTimedOut | ErrCanceled
| ErrInvalidMetadata | ErrInvalidEnvelope | ErrInvalidResult | ErrInvalidPrincipal
| ErrReservedKey | ErrSameOperationID | ErrDeadlineExtension.
#[export] Instance Sentinel_eq_dec : EqDecision Sentinel.
Proof. solve_decision. Defined.

Record Error := mkError {
  sentinel : Sentinel;
  emessage : string;
  ecause : option Cause;
  eoutcome : option Outcome;
  efailure : option Failure
}.

Definition NewError (s : Sentinel) (m : string) (c : option Cause) : Error := mkError s m c None None.
Definition newOutcomeError (s : Sentinel) (o : Outcome) (f : Failure) : Error :=
  mkError s (message f) (cause f) (Some o) (Some f).
Definition Is (e : Error) (target : Sentinel) : bool := bool_decide (sentinel e = target).

(** What a constructor of this package fails with: its own error, or one of
    package [tenancy] passed through. *)
Inductive error := ECommand (e : Error) | ETenancy (e : tenancy.Error).
Definition fail {A} (s : Sentinel) (m : string) : result error A := Err (ECommand (NewError s m None)).

Definition FailureOption := Failure -> Failure.
Definition WithFailureCode (c : string) : FailureOption := fun f => mkFailure (message f) c true (cause f).
Definition WithFailureCause (c : Cause) : FailureOption := fun f => mkFailure (message f) (code f) (hasCode f) (Some c).
Definition NewFailure (m : string) (opts : list FailureOption) : result error Failure :=
  if bool_decide (m = "") then fail ErrInvalidResult "command: failure message must not be empty"
  else Ok (foldl (fun f opt => opt f) (mkFailure m "" false None) opts).
Definition Code (f : Failure) : string * bool := (code f, hasCode f).

(** ** Identities ([identity.go], [principal.go]) *)
Definition maxOperationIDBytes : Z := 128.
Definition maxCustomValueBytes : Z := 1024.

Definition NewOperationID (s : string) : result error string :=
  if bool_decide (s = "") then fail ErrInvalidMetadata "command: operation id must not be empty"
  else if negb (valid_string s) then fail ErrInvalidMetadata "command: operation id must be valid UTF-8"
  else if (maxOperationIDBytes <? go_len s)%Z then fail ErrInvalidMetadata "command: operation id exceeds 128 bytes"
  else if bool_decide (trim_space s <> s)
    then fail ErrInvalidMetadata "command: operation id must not have leading or trailing whitespace"
  else if existsb is_control (runes s)
    then fail ErrInvalidMetadata "command: operation id must not contain control characters"
  else Ok s.

Record Principal := mkPrincipal { pid : string; kind : string; hasKind : bool }.
Definition noPrincipal : Principal := mkPrincipal "" "" false.
Definition WithPrincipalKind (k : string) (p : Principal) : Principal := mkPrincipal (pid p) k true.
Definition NewPrincipal (id : string) (opts : list (Principal -> Principal)) : result error Principal :=
  if bool_decide (id = "") then fail ErrInvalidPrincipal "command: principal id must not be empty"
  else Ok (foldl (fun p opt => opt p) (mkPrincipal id "" false) opts).
Definition PrincipalKind (p : Principal) : string * bool := (kind p, hasKind p).

(** ** Metadata ([metadata.go])

    A [time.Time] is its instant in nanoseconds since the Unix epoch; the zero
    [time.Time] of an absent deadline is [0]. *)
Record Metadata := mkMetadata {
  operationID : string;
  correlationID : string;
  causationID : string;
  hasCausation : bool;
  tenant : tenancy.TenantContext;
  hasTenant : bool;
  principal : Principal;
  hasPrincipal : bool;
  custom : gmap string string;
  timestamp : Z;
  deadline : Z;
  hasDeadline : bool;
  expectedRevision : N;
  hasExpectedRevision : bool
}.

Definition noMetadata : Metadata :=
  mkMetadata "" "" "" false tenancy.noTenantContext false noPrincipal false ∅ 0 0 false 0 false.

Definition reservedCustomPrefix := "ego.".
Definition reservedCustomKeys : list string :=
  ["operation_id"; "correlation_id"; "causation_id"; "timestamp"; "deadline";
   "principal_id"; "principal_kind"; "tenant"; "expected_revision"].

Definition validateCustomKey (key : string) : result error unit :=
  if has_prefix reservedCustomPrefix key
    then fail ErrReservedKey "command: custom metadata key must not use the reserved 'ego.' prefix"
  else if bool_decide (key ∈ reservedCustomKeys)
    then fail ErrReservedKey "command: custom metadata key must not shadow a canonical field"
  else if bool_decide (key = "") then fail ErrReservedKey "command: custom metadata key must not be empty"
  else if negb (valid_string key) then fail ErrReservedKey "command: custom metadata key must be valid UTF-8"
  else if (maxOperationIDBytes <? go_len key)%Z
    then fail ErrReservedKey "command: custom metadata key exceeds the maximum length"
  else if bool_decide (trim_space key <> key)
    then fail ErrReservedKey "command: custom metadata key must not have leading or trailing whitespace"
  else if existsb is_control (runes key)
    then fail ErrReservedKey "command: custom metadata key must not contain control characters"
  else Ok tt.

Definition validateCustomValue (value : string) : result error unit :=
  if negb (valid_string value) then fail ErrInvalidMetadata "command: custom metadata value must be valid UTF-8"
  else if (maxCustomValueBytes <? go_len value)%Z
    then fail ErrInvalidMetadata "command: custom metadata value exceeds the maximum length"
  else if existsb is_control (runes value)
    then fail ErrInvalidMetadata "command: custom metadata value must not contain control characters"
  else Ok tt.

Definition MetadataOption := Metadata -> result error Metadata.

Definition WithCorrelationID (id : string) : MetadataOption := fun m =>
  Ok (mkMetadata (operationID m) id (causationID m) (hasCausation m) (tenant m) (hasTenant m)
    (principal m) (hasPrincipal m) (custom m) (timestamp m) (deadline m) (hasDeadline m)
    (expectedRevision m) (hasExpectedRevision m)).
Definition WithTenant (tc : tenancy.TenantContext) : MetadataOption := fun m =>
  Ok (mkMetadata (operationID m) (correlationID m) (causationID m) (hasCausation m) tc true
    (principal m) (hasPrincipal m) (custom m) (timestamp m) (deadline m) (hasDeadline m)
    (expectedRevision m) (hasExpectedRevision m)).
Definition WithPrincipal (p : Principal) : MetadataOption := fun m =>
  Ok (mkMetadata (operationID m) (correlationID m) (causationID m) (hasCausation m) (tenant m) (hasTenant m)
    p true (custom m) (timestamp m) (deadline m) (hasDeadline m)
    (expectedRevision m) (hasExpectedRevision m)).
Definition WithCustom (key value : string) : MetadataOption := fun m =>
  let? _ := validateCustomKey key in
  let? _ := validateCustomValue value in
  Ok (mkMetadata (operationID m) (correlationID m) (causationID m) (hasCausation m) (tenant m) (hasTenant m)
    (principal m) (hasPrincipal m) (<[key := value]> (custom m)) (timestamp m) (deadline m) (hasDeadline m)
    (expectedRevision m) (hasExpectedRevision m)).
Definition WithTimestamp (t : Z) : MetadataOption := fun m =>
  Ok (mkMetadata (operationID m) (correlationID m) (causationID m) (hasCausation m) (tenant m) (hasTenant m)
    (principal m) (hasPrincipal m) (custom m) t (deadline m) (hasDeadline m)
    (expectedRevision m) (hasExpectedRevision m)).
Definition WithDeadline (t : Z) : MetadataOption := fun m =>
  Ok (mkMetadata (operationID m) (correlationID m) (causationID m) (hasCausation m) (tenant m) (hasTenant m)
    (principal m) (hasPrincipal m) (custom m) (timestamp m) t true
    (expectedRevision m) (hasExpectedRevision m)).
Definition WithExpectedRevision (r : N) : MetadataOption := fun m =>
  Ok (mkMetadata (operationID m) (correlationID m) (causationID m) (hasCausation m) (tenant m) (hasTenant m)
    (principal m) (hasPrincipal m) (custom m) (timestamp m) (deadline m) (hasDeadline m) r true).

Definition apply_opts (m : Metadata) (opts : list MetadataOption) : result error Metadata :=
  rfold (fun m opt => opt m) m opts.

(** [now] is what [time.Now().UTC()] returned. *)
Definition NewMetadata (now : Z) (op : string) (opts : list MetadataOption) : result error Metadata :=
  apply_opts (mkMetadata op op "" false tenancy.noTenantContext false noPrincipal false ∅ now 0 false 0 false) opts.

Definition ExpectedRevision (m : Metadata) : N * bool := (expectedRevision m, hasExpectedRevision m).

Definition Derive (now : Z) (m : Metadata) (op : string) (opts : list MetadataOption) : result error Metadata :=
  if bool_decide (op = operationID m)
    then fail ErrSameOperationID "command: derived operation id must differ from parent"
  else
    let? child := apply_opts
      (mkMetadata op (correlationID m) (operationID m) true (tenant m) (hasTenant m) (principal m) (hasPrincipal m)
        ∅ now (deadline m) (hasDeadline m) 0 false) opts in
    let? _ :=
      if hasTenant child && hasTenant m
      then rmap_err ETenancy (tenancy.VerifyUnchanged (tenant m) (tenant child)) else Ok tt in
    if hasDeadline child && hasDeadline m && (deadline m <? deadline child)%Z
    then fail ErrDeadlineExtension "command: derived deadline must not extend the parent's"
    else Ok child.

(** ** The carrier ([carrier.go]) *)
Definition carrierKeyOperationID := "ego.cmd.operation_id".
Definition carrierKeyCorrelationID := "ego.cmd.correlation_id".
Definition carrierKeyCausationID := "ego.cmd.causation_id".
Definition carrierKeyTimestamp := "ego.cmd.timestamp".
Definition carrierKeyDeadline := "ego.cmd.deadline".
Definition carrierKeyPrincipalID := "ego.cmd.principal_id".
Definition carrierKeyPrincipalKind := "ego.cmd.principal_kind".
Definition carrierKeyExpectedRevision := "ego.cmd.expected_revision".
Definition carrierCmdPrefix := "ego.cmd.".
Definition carrierTenantPrefix := "ego.tenant.".

Abbreviation Carrier := (gmap string string).

(** [c[k] = v] for the keys that are present. *)
Definition put_opt (k : string) (v : option string) (c : Carrier) : Carrier :=
  match v with Some v => <[k := v]> c | None => c end.
Definition when {A} (b : bool) (a : A) : option A := if b then Some a else None.

Section Carrier.
(** The RFC 3339 text of an instant and its reader, and the order in which a
    map is visited. *)
Context (fmt_time : Z -> string) (parse_time : string -> option Z).
Context (range : Carrier -> list (string * string)).

Definition MarshalMetadata (m : Metadata) : Carrier :=
  let c := <[carrierKeyTimestamp := fmt_time (timestamp m)]>
          (<[carrierKeyCorrelationID := correlationID m]>
          (<[carrierKeyOperationID := operationID m]> ∅)) in
  let c := put_opt carrierKeyCausationID (when (hasCausation m) (causationID m)) c in
  let c := put_opt carrierKeyDeadline (when (hasDeadline m) (fmt_time (deadline m))) c in
  let c := put_opt carrierKeyExpectedRevision (when (hasExpectedRevision m) (format_uint (expectedRevision m))) c in
  let c := put_opt carrierKeyPrincipalID (when (hasPrincipal m) (pid (principal m))) c in
  let c := put_opt carrierKeyPrincipalKind
    (when (hasPrincipal m && hasKind (principal m)) (kind (principal m))) c in
  let c := (if hasTenant m then tenancy.MarshalMetadata (tenant m) else ∅) ∪ c in
  custom m ∪ c.

Definition tenantSubset (c : Carrier) : Carrier :=
  filter (fun kv => has_prefix carrierTenantPrefix kv.1 = true) c.

Definition custom_opts (c : Carrier) : list MetadataOption :=
  (fun kv => WithCustom kv.1 kv.2) <$>
  filter (fun kv => has_prefix carrierCmdPrefix kv.1 = false /\ has_prefix carrierTenantPrefix kv.1 = false) (range c).

Definition require_key (c : Carrier) (k : string) (m : string) : result error string :=
  match c !! k with Some v => Ok v | None => fail ErrInvalidMetadata m end.

Definition parse_or {A} (parse : string -> option A) (raw : string) (m : string) : result error A :=
  match parse raw with
  | Some a => Ok a
  | None => Err (ECommand (NewError ErrInvalidMetadata m (Some (CauseText "parse error"))))
  end.

(** An option contributed by a key when it is present. *)
Definition opt_key (c : Carrier) (k : string) (f : string -> result error MetadataOption) : result error (list MetadataOption) :=
  match c !! k with
  | Some v => let? o := f v in Ok [o]
  | None => Ok []
  end.

Definition UnmarshalMetadata (now : Z) (c : Carrier) : result error Metadata :=
  let? opID := require_key c carrierKeyOperationID "command: carrier missing operation id" in
  let? op := NewOperationID opID in
  let? correlationID := require_key c carrierKeyCorrelationID "command: carrier missing correlation id" in
  let? rawTimestamp := require_key c carrierKeyTimestamp "command: carrier missing timestamp" in
  let? ts := parse_or parse_time rawTimestamp "command: carrier timestamp is not a valid RFC3339 timestamp" in
  let? o1 := opt_key c carrierKeyDeadline (fun raw =>
    let? d := parse_or parse_time raw "command: carrier deadline is not a valid RFC3339 timestamp" in
    Ok (WithDeadline d)) in
  let? o2 := opt_key c carrierKeyExpectedRevision (fun raw =>
    let? r := parse_or parse_uint raw "command: carrier expected revision is not a valid unsigned integer" in
    Ok (WithExpectedRevision r)) in
  let? o3 := opt_key c carrierKeyPrincipalID (fun id =>
    let? p := NewPrincipal id
      match c !! carrierKeyPrincipalKind with Some k => [WithPrincipalKind k] | None => [] end in
    Ok (WithPrincipal p)) in
  let? o4 :=
    if bool_decide (tenantSubset c = ∅) then Ok []
    else let? t := rmap_err ETenancy (tenancy.UnmarshalMetadata (tenantSubset c)) in Ok [WithTenant t] in
  let opts := [WithCorrelationID correlationID; WithTimestamp ts] ++ o1 ++ o2 ++ o3 ++ o4 ++ custom_opts c in
  let? m := NewMetadata now op opts in
  match c !! carrierKeyCausationID with
  | Some id => Ok (mkMetadata (operationID m) (command.correlationID m) id true (tenant m) (hasTenant m)
      (principal m) (hasPrincipal m) (custom m) (timestamp m) (deadline m) (hasDeadline m)
      (expectedRevision m) (hasExpectedRevision m))
  | None => Ok m
  end.
End Carrier.

(** ** Envelopes and results ([envelope.go], [result.go]) *)
Section Messages.
Context {msg : Type}.

Record Envelope := mkEnvelope { payload : msg; metadata : Metadata }.
Definition NewEnvelope (payload : option msg) (md : Metadata) : result error Envelope :=
  match payload with
  | None => fail ErrInvalidEnvelope "command: envelope payload must not be nil"
  | Some p => Ok (mkEnvelope p md)
  end.
Definition EnvelopeDerive (now : Z) (e : Envelope) (payload : option msg) (op : string) (opts : list MetadataOption) : result error Envelope :=
  match payload with
  | None => fail ErrInvalidEnvelope "command: envelope payload must not be nil"
  | Some p => let? md := Derive now (metadata e) op opts in Ok (mkEnvelope p md)
  end.

Record Result := mkResult {
  rmetadata : Metadata;
  outcome : Outcome;
  rstate : option msg;
  rrevision : N;
  rfailure : Failure;
  hasFailure : bool
}.
Definition NewSuccess (md : Metadata) (state : option msg) (rev : N) : result error Result :=
  match state with
  | None => fail ErrInvalidResult "command: success result state must not be nil"
  | Some _ => Ok (mkResult md OutcomeSuccess state rev noFailure false)
  end.
Definition NewSuccessNoState (md : Metadata) : result error Result :=
  Ok (mkResult md OutcomeSuccessNoState None 0 noFailure false).
Definition NewRejected (md : Metadata) (f : Failure) : result error Result :=
  Ok (mkResult md OutcomeRejected None 0 f true).
Definition NewFailed (md : Metadata) (f : Failure) : result error Result :=
  Ok (mkResult md OutcomeFailed None 0 f true).
Definition with_default_cause (c : Cause) (f : Failure) : Failure :=
  match cause f with None => mkFailure (message f) (code f) (hasCode f) (Some c) | Some _ => f end.
Definition NewTimedOut (md : Metadata) (f : Failure) : result error Result :=
  Ok (mkResult md OutcomeTimedOut None 0 (with_default_cause DeadlineExceeded f) true).
Definition NewCanceled (md : Metadata) (f : Failure) : result error Result :=
  Ok (mkResult md OutcomeCanceled None 0 (with_default_cause Canceled f) true).
Definition State (r : Result) : option msg :=
  if bool_decide (outcome r <> OutcomeSuccess) then None else rstate r.
Definition ResultErr (r : Result) : option Error :=
  match outcome r with
  | OutcomeSuccess | OutcomeSuccessNoState => None
  | OutcomeRejected => Some (newOutcomeError ErrRejected (outcome r) (rfailure r))
  | OutcomeFailed => Some (newOutcomeError ErrFailed (outcome r) (rfailure r))
  | OutcomeTimedOut => Some (newOutcomeError ErrTimedOut (outcome r) (rfailure r))
  | OutcomeCanceled => Some (newOutcomeError ErrCanceled (outcome r) (rfailure r))
  | OutcomeZero => None
  end.
End Messages.
Arguments Envelope : clear implicits.
Arguments Result : clear implicits.

(** ** The carrier round trip *)
Lemma has_prefix_split p s : has_prefix p s = true -> exists r, b2l s = b2l p ++ r.
Proof.
  unfold has_prefix. destruct (strip_prefix _ _) as [r|] eqn:E; [|done].
  intros _. exists r. by apply strip_prefix_Some.
Qed.

Lemma has_prefix_weaken p q s : has_prefix q s = true -> has_prefix p q = true -> has_prefix p s = true.
Proof.
  intros (r & Hr)%has_prefix_split (r' & Hr')%has_prefix_split. unfold has_prefix.
  by rewrite Hr, Hr', <- app_assoc, strip_prefix_app.
Qed.

(** The instants RFC 3339 can write: years 0 to 9999. *)
Definition time_ok (t : Z) : Prop := (-62167219200000000000 <= t < 253402300800000000000)%Z.

Definition wf_principal (p : Principal) : Prop := pid p <> "" /\ (hasKind p = false -> kind p = "").

(** The metadata the constructors build. *)
Record wf_metadata (m : Metadata) : Prop := {
  wf_op : NewOperationID (operationID m) = Ok (operationID m);
  wf_causation : hasCausation m = false -> causationID m = "";
  wf_tenant : if hasTenant m then tenancy.wf (tenant m) else tenant m = tenancy.noTenantContext;
  wf_prin : if hasPrincipal m then wf_principal (principal m) else principal m = noPrincipal;
  wf_custom : map_Forall (fun k v => validateCustomKey k = Ok tt /\ validateCustomValue v = Ok tt) (custom m);
  wf_timestamp : time_ok (timestamp m);
  wf_deadline : if hasDeadline m then time_ok (deadline m) else deadline m = 0%Z;
  wf_revision : if hasExpectedRevision m then is_u64 (expectedRevision m) else expectedRevision m = 0%N
}.

Lemma validateCustomKey_prefix k : validateCustomKey k = Ok tt -> has_prefix reservedCustomPrefix k = false.
Proof. unfold validateCustomKey. by destruct (has_prefix _ k). Qed.

Lemma custom_no_ego m k : wf_metadata m -> has_prefix reservedCustomPrefix k = true -> custom m !! k = None.
Proof.
  intros Hwf Hp. destruct (custom m !! k) eqn:E; [|done].
  apply (wf_custom m Hwf) in E as [E _]. apply validateCustomKey_prefix in E. congruence.
Qed.

Lemma tenant_keys tc k v : tenancy.MarshalMetadata tc !! k = Some v -> has_prefix carrierTenantPrefix k = true.
Proof.
  unfold tenancy.MarshalMetadata. destruct (tenancy.scope tc); [by rewrite lookup_empty| |].
  - rewrite !lookup_insert_Some, lookup_empty. intros [[<- _]|[_ [[<- _]|[_ ?]]]]; done.
  - destruct (tenancy.CorrelationID _) as [id []];
      rewrite !lookup_insert_Some, lookup_empty;
      intros H; repeat destruct H as [[<- _]|[_ H]]; done.
Qed.

Lemma put_opt_eq k v (c : Carrier) : c !! k = None -> put_opt k v c !! k = v.
Proof. destruct v; simpl; [by rewrite lookup_insert_eq|done]. Qed.

Lemma put_opt_ne k k' v (c : Carrier) : k <> k' -> put_opt k v c !! k' = c !! k'.
Proof. destruct v; simpl; [intros; by rewrite lookup_insert_ne|done]. Qed.

Ltac carrier_lookup :=
  repeat first [rewrite put_opt_ne by done | rewrite put_opt_eq | rewrite lookup_insert_eq
               | rewrite lookup_insert_ne by done | rewrite lookup_empty].

Section RoundTrip.
Context (fmt_time : Z -> string) (parse_time : string -> option Z).
Context (range : Carrier -> list (string * string)).
(** [time.Parse] reads back what [Format] wrote, for the years RFC 3339 has. *)
Hypothesis time_roundtrip : forall t, time_ok t -> parse_time (fmt_time t) = Some t.
Hypothesis range_perm : forall c, range c ≡ₚ map_to_list c.

(** What is under the [ego.cmd.] keys. *)
Definition cmd_part (m : Metadata) : Carrier :=
  put_opt carrierKeyPrincipalKind (when (hasPrincipal m && hasKind (principal m)) (kind (principal m)))
  (put_opt carrierKeyPrincipalID (when (hasPrincipal m) (pid (principal m)))
  (put_opt carrierKeyExpectedRevision (when (hasExpectedRevision m) (format_uint (expectedRevision m)))
  (put_opt carrierKeyDeadline (when (hasDeadline m) (fmt_time (deadline m)))
  (put_opt carrierKeyCausationID (when (hasCausation m) (causationID m))
  (<[carrierKeyTimestamp := fmt_time (timestamp m)]>
  (<[carrierKeyCorrelationID := correlationID m]>
  (<[carrierKeyOperationID := operationID m]> ∅))))))).
Definition tenant_part (m : Metadata) : Carrier :=
  if hasTenant m then tenancy.MarshalMetadata (tenant m) else ∅.

Lemma MarshalMetadata_parts m : MarshalMetadata fmt_time m = custom m ∪ (tenant_part m ∪ cmd_part m).
Proof. reflexivity. Qed.

Lemma put_opt_keys k v (c : Carrier) k' v' : put_opt k v c !! k' = Some v' -> k' = k \/ c !! k' = Some v'.
Proof. destruct v; simpl; [|by right]. intros [[-> _]|[_ ?]]%lookup_insert_Some; auto. Qed.

Lemma cmd_part_keys m k v : cmd_part m !! k = Some v -> has_prefix carrierCmdPrefix k = true.
Proof.
  unfold cmd_part. intros H.
  do 5 (apply put_opt_keys in H as [->|H]; [reflexivity|]).
  rewrite !lookup_insert_Some, lookup_empty in H. repeat destruct H as [[<- _]|[_ H]]; done.
Qed.

Lemma tenant_part_keys m k v : tenant_part m !! k = Some v -> has_prefix carrierTenantPrefix k = true.
Proof. unfold tenant_part. destruct (hasTenant m); [apply tenant_keys|by rewrite lookup_empty]. Qed.

(** The three namespaces are disjoint. *)
Lemma prefixes_disjoint k : has_prefix carrierCmdPrefix k = true -> has_prefix carrierTenantPrefix k = true -> False.
Proof.
  intros (r & Hr)%has_prefix_split (r' & Hr')%has_prefix_split. rewrite Hr in Hr'.
  by apply (f_equal (fun l => nth_error l 4)) in Hr'.
Qed.

Lemma prefix_ego q k : has_prefix q k = true -> q = carrierCmdPrefix \/ q = carrierTenantPrefix ->
  has_prefix reservedCustomPrefix k = true.
Proof. intros H [-> | ->]; by apply (has_prefix_weaken _ _ _ H). Qed.

Lemma lookup_cmd m k : wf_metadata m -> has_prefix carrierCmdPrefix k = true ->
  MarshalMetadata fmt_time m !! k = cmd_part m !! k.
Proof.
  intros Hwf Hp. rewrite MarshalMetadata_parts, !lookup_union_r; [done| |].
  - destruct (tenant_part m !! k) eqn:E; [|done]. apply tenant_part_keys in E. by destruct (prefixes_disjoint k).
  - apply custom_no_ego; [done|]. by eapply prefix_ego; [|left].
Qed.

Lemma tenantSubset_Marshal m : wf_metadata m -> tenantSubset (MarshalMetadata fmt_time m) = tenant_part m.
Proof.
  intros Hwf. apply map_eq. intros k. apply option_eq. intros v. unfold tenantSubset.
  rewrite map_lookup_filter_Some, MarshalMetadata_parts. simpl. split.
  - intros [Hl Hp]. rewrite lookup_union_r in Hl.
    + apply lookup_union_Some_raw in Hl as [?|[_ Hc]]; [done|]. apply cmd_part_keys in Hc.
      by destruct (prefixes_disjoint k).
    + apply custom_no_ego; [done|]. by eapply prefix_ego; [|right].
  - intros Hl. pose proof (tenant_part_keys _ _ _ Hl) as Hp. split; [|done].
    rewrite lookup_union_r; [by apply lookup_union_Some_l|].
    apply custom_no_ego; [done|]. by eapply prefix_ego; [|right].
Qed.

Definition custom_entry (kv : string * string) : Prop :=
  has_prefix carrierCmdPrefix kv.1 = false /\ has_prefix carrierTenantPrefix kv.1 = false.

Lemma custom_not_prefixed m k v : wf_metadata m -> custom m !! k = Some v -> custom_entry (k, v).
Proof.
  intros Hwf Hl. apply (wf_custom m Hwf) in Hl as [Hk _]. apply validateCustomKey_prefix in Hk.
  split; simpl; apply not_true_is_false; intros H;
    (assert (has_prefix reservedCustomPrefix k = true); [|congruence]); eapply prefix_ego; eauto.
Qed.

Lemma custom_entries m : wf_metadata m ->
  filter (fun kv => has_prefix carrierCmdPrefix kv.1 = false /\ has_prefix carrierTenantPrefix kv.1 = false)
    (range (MarshalMetadata fmt_time m)) ≡ₚ map_to_list (custom m).
Proof.
  intros Hwf. apply NoDup_Permutation.
  - apply NoDup_filter. rewrite range_perm. apply NoDup_map_to_list.
  - apply NoDup_map_to_list.
  - intros [k v]. rewrite list_elem_of_filter, range_perm, !elem_of_map_to_list, MarshalMetadata_parts. simpl. split.
    + intros [[H1 H2] Hl]. apply lookup_union_Some_raw in Hl as [?|[_ Hl]]; [done|].
      apply lookup_union_Some_raw in Hl as [Hl|[_ Hl]].
      * apply tenant_part_keys in Hl. congruence.
      * apply cmd_part_keys in Hl. congruence.
    + intros Hl. split; [by eapply custom_not_prefixed|]. by apply lookup_union_Some_l.
Qed.

Definition set_custom (m : Metadata) (c : gmap string string) : Metadata :=
  mkMetadata (operationID m) (correlationID m) (causationID m) (hasCausation m) (tenant m) (hasTenant m)
    (principal m) (hasPrincipal m) c (timestamp m) (deadline m) (hasDeadline m)
    (expectedRevision m) (hasExpectedRevision m).

Lemma WithCustom_Ok m k v : validateCustomKey k = Ok tt -> validateCustomValue v = Ok tt ->
  WithCustom k v m = Ok (set_custom m (<[k := v]> (custom m))).
Proof. intros Hk Hv. unfold WithCustom. by rewrite Hk, Hv. Qed.

Lemma apply_custom m l :
  Forall (fun kv => validateCustomKey kv.1 = Ok tt /\ validateCustomValue kv.2 = Ok tt) l ->
  apply_opts m ((fun kv => WithCustom kv.1 kv.2) <$> l) =
  Ok (set_custom m (foldl (fun c kv => <[kv.1 := kv.2]> c) (custom m) l)).
Proof.
  unfold apply_opts. intros Hl. revert m. induction Hl as [|[k v] l [Hk Hv] Hl IH]; intros m.
  { by destruct m. }
  cbn [fmap list_fmap rfold]. rewrite WithCustom_Ok by done. simpl. by rewrite IH.
Qed.

Lemma foldl_insert_perm (m : gmap string string) l : l ≡ₚ map_to_list m ->
  foldl (fun c kv => <[kv.1 := kv.2]> c) ∅ l = m.
Proof.
  intros Hp. assert (NoDup l.*1) as Hnd by (rewrite Hp; apply NoDup_fst_map_to_list).
  transitivity (list_to_map l : gmap string string).
  - clear Hp. induction l as [|[k v] l IH] using rev_ind; [done|].
    rewrite fmap_app in Hnd. apply NoDup_app in Hnd as (Hnd & Hdis & _).
    rewrite foldl_snoc, IH, list_to_map_snoc; [done| |done].
    intros Hin. apply (Hdis k); [done|]. by left.
  - rewrite (list_to_map_proper l (map_to_list m)) by done. apply list_to_map_to_list.
Qed.

Lemma NewPrincipal_wf p : wf_principal p ->
  NewPrincipal (pid p) (match when (hasKind p) (kind p) with Some k => [WithPrincipalKind k] | None => [] end) = Ok p.
Proof.
  intros [Hid Hk]. unfold NewPrincipal. rewrite bool_decide_eq_false_2 by done.
  destruct p as [id k []]; simpl in *; [done|]. by rewrite Hk.
Qed.

Lemma tenant_part_empty m : wf_metadata m -> tenant_part m = ∅ <-> hasTenant m = false.
Proof.
  intros Hwf. unfold tenant_part. pose proof (wf_tenant m Hwf) as Ht. destruct (hasTenant m); [|done].
  split; [|done]. intros E. exfalso.
  apply tenancy.UnmarshalMetadata_Marshal in Ht. rewrite E in Ht. by vm_compute in Ht.
Qed.

Lemma carrier_roundtrip_lemma now m : wf_metadata m ->
  UnmarshalMetadata parse_time range now (MarshalMetadata fmt_time m) = Ok m.
Proof.
  intros Hwf. pose proof (lookup_cmd m) as Hcmd.
  unfold UnmarshalMetadata, require_key, opt_key, custom_opts.
  rewrite !Hcmd by done. rewrite tenantSubset_Marshal by done.
  set (entries := filter _ (range _)).
  assert (entries ≡ₚ map_to_list (custom m)) as Hent by (by apply custom_entries).
  assert (Forall (fun kv => validateCustomKey kv.1 = Ok tt /\ validateCustomValue kv.2 = Ok tt) entries) as Hval.
  { apply Forall_forall. intros [k v] Hin. rewrite Hent in Hin. apply elem_of_map_to_list in Hin.
    by apply (wf_custom m Hwf). }
  clearbody entries. unfold cmd_part. carrier_lookup; try done. unfold parse_or.
  set (o4 := if bool_decide (tenant_part m = ∅) then Ok [] else _).
  assert (o4 = Ok (if hasTenant m then [WithTenant (tenant m)] else [])) as ->.
  { unfold o4. pose proof (tenant_part_empty m Hwf) as He. pose proof (wf_tenant m Hwf) as Ht.
    case_bool_decide as Hd; [apply He in Hd; by rewrite Hd|].
    unfold tenant_part in *. destruct (hasTenant m); [|tauto].
    by rewrite tenancy.UnmarshalMetadata_Marshal. }
  pose proof (wf_deadline m Hwf) as Hdl. pose proof (wf_revision m Hwf) as Hrev.
  pose proof (wf_prin m Hwf) as Hpr. pose proof (wf_causation m Hwf) as Hca. pose proof (wf_tenant m Hwf) as Ht.
  pose proof (foldl_insert_perm _ _ Hent) as Hfold.
  cbn [rbind]. rewrite (wf_op m Hwf). cbn [rbind]. rewrite time_roundtrip by apply Hwf. cbn [rbind].
  destruct m as [op corr ca [] tn [] pr [] cu ts dl [] er []]; simpl in *; subst;
    rewrite ?(time_roundtrip dl), ?parse_format_uint by done; cbn [rbind];
    try (rewrite (NewPrincipal_wf pr) by done; cbn [rbind]);
    unfold NewMetadata, apply_opts; simpl; change (rfold (fun m opt => opt m)) with apply_opts;
    rewrite apply_custom by done; unfold set_custom; simpl; rewrite ?Hfold; try done;
    by rewrite Hca.
Qed.

(** Metadata survives the actor boundary: whatever the constructors can
    build (identities, causation, tenant, principal, deadline, expected
    revision, custom entries) is read back exactly from its carrier. *)
Theorem carrier_roundtrip now m (Hwf : wf_metadata m) :
  UnmarshalMetadata parse_time range now (MarshalMetadata fmt_time m) = Ok m.
Proof. by apply carrier_roundtrip_lemma. Qed.
End RoundTrip.

(** A concrete clock text: the decimal instant. *)
Definition decimal_time (t : Z) : string := DecimalString.NilZero.string_of_int (Z.to_int t).
Definition parse_decimal_time (s : string) : option Z := Z.of_int <$> DecimalString.NilZero.int_of_string s.

Lemma decimal_time_roundtrip t : parse_decimal_time (decimal_time t) = Some t.
Proof.
  unfold parse_decimal_time, decimal_time. rewrite DecimalString.NilZero.isi.
  - simpl. by rewrite DecimalZ.of_to.
  - intros E. pose proof (DecimalZ.of_to t) as H. rewrite E in H. simpl in H. by subst.
  - intros E. pose proof (DecimalZ.of_to t) as H. rewrite E in H. simpl in H. by subst.
Qed.

Definition sample_metadata : Metadata :=
  mkMetadata "op-1" "flow" "op-0" true
    (tenancy.mkTenantContext tenancy.ScopeTenant "acme" tenancy.noAdministrative) true
    (mkPrincipal "ana" "user" true) true (<["region" := "eu"]> ∅) 7 9 true 3 true.

Lemma sample_metadata_wf : wf_metadata sample_metadata.
Proof.
  split; simpl; try done.
  - by constructor.
  - apply map_Forall_insert_2; [done|apply map_Forall_empty].
Qed.

Lemma carrier_roundtrip_witness :
  UnmarshalMetadata parse_decimal_time map_to_list 0 (MarshalMetadata decimal_time sample_metadata) = Ok sample_metadata.
Proof.
  apply (carrier_roundtrip decimal_time parse_decimal_time map_to_list
    (fun t _ => decimal_time_roundtrip t) (fun c => reflexivity _) 0 sample_metadata).
  apply sample_metadata_wf.
Defined.

(** ** What options can do *)

(** The options this package exports; no other package can write the fields. *)
Inductive metadata_option : MetadataOption -> Prop :=
| opt_correlation id : metadata_option (WithCorrelationID id)
| opt_tenant tc : metadata_option (WithTenant tc)
| opt_principal p : metadata_option (WithPrincipal p)
| opt_custom k v : metadata_option (WithCustom k v)
| opt_timestamp t : metadata_option (WithTimestamp t)
| opt_deadline t : metadata_option (WithDeadline t)
| opt_revision r : metadata_option (WithExpectedRevision r).

Lemma option_preserves opt m m' : metadata_option opt -> opt m = Ok m' ->
  operationID m' = operationID m /\ causationID m' = causationID m /\ hasCausation m' = hasCausation m /\
  (hasTenant m = true -> hasTenant m' = true) /\ (hasDeadline m = true -> hasDeadline m' = true) /\
  (map_Forall (fun k v => validateCustomKey k = Ok tt /\ validateCustomValue v = Ok tt) (custom m) ->
   map_Forall (fun k v => validateCustomKey k = Ok tt /\ validateCustomValue v = Ok tt) (custom m')).
Proof.
  intros Ho H. destruct Ho as [id|tc|p|k v|t|t|r];
    try (unfold WithCorrelationID, WithTenant, WithPrincipal, WithTimestamp, WithDeadline, WithExpectedRevision in H;
         injection H as <-; done).
  unfold WithCustom in H. apply rbind_Ok in H as ([] & Hk & H). apply rbind_Ok in H as ([] & Hv & H).
  injection H as <-. split_and!; try done. simpl. intros. by apply map_Forall_insert_2.
Qed.

Lemma options_preserve opts m m' : Forall metadata_option opts -> apply_opts m opts = Ok m' ->
  operationID m' = operationID m /\ causationID m' = causationID m /\ hasCausation m' = hasCausation m /\
  (hasTenant m = true -> hasTenant m' = true) /\ (hasDeadline m = true -> hasDeadline m' = true) /\
  (map_Forall (fun k v => validateCustomKey k = Ok tt /\ validateCustomValue v = Ok tt) (custom m) ->
   map_Forall (fun k v => validateCustomKey k = Ok tt /\ validateCustomValue v = Ok tt) (custom m')).
Proof.
  intros Ho. revert m. induction Ho as [|opt opts Ho Hos IH]; intros m H; simpl in H.
  { injection H as <-. done. }
  apply rbind_Ok in H as (m1 & H1 & H2). apply option_preserves in H1; [|done]. apply IH in H2.
  destruct H1 as (-> & -> & -> & ? & ? & ?) || idtac. naive_solver congruence.
Qed.

(** Deriving metadata for a follow-up operation keeps the chain intact
    whatever options are given: the child has the requested identity, distinct
    from the parent's, names the parent as its cause, never leaves the parent's
    tenant, never outlives the parent's deadline, and carries only validated
    custom entries. *)
Theorem derive_keeps_lineage now m op opts child :
  Forall metadata_option opts -> Derive now m op opts = Ok child ->
  operationID child = op /\ op <> operationID m /\
  causationID child = operationID m /\ hasCausation child = true /\
  (hasTenant m = true -> hasTenant child = true /\ tenant child = tenant m) /\
  (hasDeadline m = true -> hasDeadline child = true /\ (deadline child <= deadline m)%Z) /\
  map_Forall (fun k v => validateCustomKey k = Ok tt /\ validateCustomValue v = Ok tt) (custom child).
Proof.
  intros Ho. unfold Derive. case_bool_decide as Hop; [done|].
  intros (c & Hc & (u & Hv & H)%rbind_Ok)%rbind_Ok.
  apply options_preserve in Hc as (H1 & H2 & H3 & H4 & H5 & H6); [|done]. simpl in *.
  destruct (hasDeadline c && hasDeadline m && (deadline m <? deadline c)%Z) eqn:Hd; [done|].
  injection H as <-. split_and!; try done.
  - intros Ht. rewrite Ht in *. specialize (H4 eq_refl). rewrite H4 in *. split; [done|]. simpl in Hv.
    destruct (tenancy.VerifyUnchanged _ _) eqn:Hb; [|done]. symmetry. by apply tenancy.VerifyUnchanged_Ok in Hb.
  - intros Ht. specialize (H5 Ht). rewrite H5, Ht in *. split; [done|]. simpl in Hd.
    by apply Z.ltb_ge in Hd.
  - apply H6, map_Forall_empty.
Qed.

Lemma derive_keeps_lineage_witness :
  exists child, Derive 8 sample_metadata "op-2" [WithDeadline 8; WithCustom "k" "v"] = Ok child /\
    tenant child = tenant sample_metadata /\ (deadline child <= 9)%Z.
Proof.
  eexists. split; [reflexivity|].
  destruct (derive_keeps_lineage 8 sample_metadata "op-2" [WithDeadline 8; WithCustom "k" "v"] _
    ltac:(by repeat constructor) eq_refl) as (_ & _ & _ & _ & Ht & Hd & _).
  split; [exact (proj2 (Ht eq_refl))|exact (proj2 (Hd eq_refl))].
Defined.

(** The correlation of a derived operation is not inherited
    unconditionally: an option replaces it. *)
Theorem derive_correlation_overridable :
  exists child, Derive 8 sample_metadata "op-2" [WithCorrelationID "other"] = Ok child /\
    correlationID child = "other" /\ correlationID sample_metadata = "flow".
Proof. eexists. split; [reflexivity|]. done. Qed.

(** ** The trust boundary *)
Section Trust.
Context (parse_time : string -> option Z) (range : Carrier -> list (string * string)).
Hypothesis range_perm : forall c, range c ≡ₚ map_to_list c.

Lemma apply_custom_Ok l m m' : apply_opts m ((fun kv => WithCustom kv.1 kv.2) <$> l) = Ok m' ->
  Forall (fun kv => validateCustomKey kv.1 = Ok tt /\ validateCustomValue kv.2 = Ok tt) l /\
  m' = set_custom m (foldl (fun c kv => <[kv.1 := kv.2]> c) (custom m) l).
Proof.
  unfold apply_opts. revert m. induction l as [|[k v] l IH]; intros m H; simpl in H.
  - injection H as <-. split; [constructor|by destruct m].
  - apply rbind_Ok in H as (m1 & H1 & H2).
    assert (validateCustomKey k = Ok tt /\ validateCustomValue v = Ok tt) as [Hk Hv].
    { unfold WithCustom in H1. apply rbind_Ok in H1 as ([] & Hk & H1). by apply rbind_Ok in H1 as ([] & Hv & _). }
    rewrite WithCustom_Ok in H1 by done. injection H1 as <-. apply IH in H2 as [Hf ->].
    split; [by constructor|done].
Qed.

Definition custom_subset (c : Carrier) : Carrier :=
  filter (fun kv => has_prefix carrierCmdPrefix kv.1 = false /\ has_prefix carrierTenantPrefix kv.1 = false) c.

(** The custom options of a carrier, folded in the order of any iteration,
    give its keys outside the two reserved prefixes. *)
Abbreviation custom_pairs c :=
  (filter (fun kv => has_prefix carrierCmdPrefix kv.1 = false /\ has_prefix carrierTenantPrefix kv.1 = false) (range c)).

Lemma custom_fold c : foldl (fun c0 kv => <[kv.1:=kv.2]> c0) ∅ (custom_pairs c) = custom_subset c.
Proof.
  apply foldl_insert_perm. apply NoDup_Permutation.
  - apply NoDup_filter. rewrite range_perm. apply NoDup_map_to_list.
  - apply NoDup_map_to_list.
  - intros [k v]. unfold custom_subset.
    rewrite list_elem_of_filter, range_perm, elem_of_map_to_list.
    rewrite elem_of_map_to_list, map_lookup_filter_Some. tauto.
Qed.

Lemma custom_valid (P : string -> string -> Prop) c :
  Forall (fun kv => P kv.1 kv.2) (custom_pairs c) -> map_Forall P (custom_subset c).
Proof.
  intros Hf k v Hkv. rewrite Forall_forall in Hf. apply (Hf (k, v)). apply list_elem_of_filter.
  apply map_lookup_filter_Some in Hkv as [Hl Hp]. split; [done|]. rewrite range_perm. by apply elem_of_map_to_list.
Qed.

Lemma NewOperationID_idem x y : NewOperationID x = Ok y -> NewOperationID y = Ok y.
Proof.
  intros H. assert (y = x) as ->; [|done]. unfold NewOperationID in H. by case_all_in H.
Qed.

(** What holds of the metadata while the options other than the custom ones
    are applied. *)
Definition boundary (op : string) (m : Metadata) : Prop :=
  operationID m = op /\ (hasTenant m = true -> tenancy.wf (tenant m)) /\
  (hasPrincipal m = true -> pid (principal m) <> "").
Definition bounded (opt : MetadataOption) : Prop :=
  forall op m m', opt m = Ok m' -> boundary op m -> boundary op m' /\ custom m' = custom m.

Lemma keeps_boundary op opts m m' : apply_opts m opts = Ok m' -> boundary op m -> Forall bounded opts ->
  custom m = ∅ -> boundary op m' /\ custom m' = ∅.
Proof.
  intros H Hb Hf. revert m H Hb. induction Hf as [|opt opts Ho _ IH]; intros m H Hb Hc; simpl in H.
  { by injection H as <-. }
  apply rbind_Ok in H as (m1 & H1 & H2). destruct (Ho _ _ _ H1 Hb) as [Hb1 Hc1]. apply (IH m1); [done..|congruence].
Qed.

Lemma opt_key_bounded c k f o : (forall v opt, f v = Ok opt -> bounded opt) -> opt_key c k f = Ok o -> Forall bounded o.
Proof.
  unfold opt_key. intros Hf H. destruct (c !! k); [|by injection H as <-].
  apply rbind_Ok in H as (opt & Ho & [= <-]). constructor; [eauto|constructor].
Qed.

Lemma bounded_simple opt : metadata_option opt ->
  (forall m m', opt m = Ok m' -> hasTenant m' = hasTenant m /\ tenant m' = tenant m /\
    hasPrincipal m' = hasPrincipal m /\ principal m' = principal m /\ custom m' = custom m) -> bounded opt.
Proof.
  intros Ho Hs op m m' H (H1 & H2 & H3). apply option_preserves in H as Hp; [|done].
  apply Hs in H as (E1 & E2 & E3 & E4 & E5). unfold boundary. rewrite E1, E2, E3, E4, E5.
  destruct Hp as [-> _]. done.
Qed.

Lemma bounded_principal p : pid p <> "" -> bounded (WithPrincipal p).
Proof. by intros Hp op m m' [= <-] (? & ? & ?). Qed.
Lemma bounded_tenant tc : tenancy.wf tc -> bounded (WithTenant tc).
Proof. by intros Hp op m m' [= <-] (? & ? & ?). Qed.
Lemma NewPrincipal_pid id opts p :
  (forall opt, opt ∈ opts -> exists k, opt = WithPrincipalKind k) -> NewPrincipal id opts = Ok p -> pid p <> "".
Proof.
  intros Ho. unfold NewPrincipal. case_bool_decide as Hid; [done|]. intros [= <-].
  assert (forall p0, pid p0 = id -> pid (foldl (fun p opt => opt p) p0 opts) = id) as H; [|by rewrite H].
  induction opts as [|opt opts IH]; intros p0 Hp0; [done|]. simpl. apply IH.
  - intros opt' Hin. apply Ho. by right.
  - destruct (Ho opt) as [k ->]; [left|]. done.
Qed.

(** A carrier that is accepted holds nothing direct construction would
    refuse: its operation id, principal and tenant are valid, its custom
    entries are exactly its keys outside [ego.cmd.] and [ego.tenant.], and each
    of them is an admissible custom key; in particular no other [ego.] key
    gets through. *)
Theorem carrier_trust_boundary now c m : UnmarshalMetadata parse_time range now c = Ok m ->
  NewOperationID (operationID m) = Ok (operationID m) /\
  (hasTenant m = true -> tenancy.wf (tenant m)) /\ (hasPrincipal m = true -> pid (principal m) <> "") /\
  custom m = custom_subset c /\
  map_Forall (fun k v => has_prefix reservedCustomPrefix k = false /\ validateCustomKey k = Ok tt /\
    validateCustomValue v = Ok tt) (custom m).
Proof.
  intros H. unfold UnmarshalMetadata in H.
  repeat match type of H with rbind _ _ = Ok _ => apply rbind_Ok in H as (? & ? & H) end.
  rename x0 into op, x8 into m0.
  assert (NewOperationID op = Ok op) as Hop by (eapply NewOperationID_idem; eassumption).
  match goal with Hm : NewMetadata _ _ _ = Ok m0 |- _ => rename Hm into Hnew end.
  assert (boundary op m0 /\ custom m0 = custom_subset c /\ map_Forall (fun k v => validateCustomKey k = Ok tt /\
    validateCustomValue v = Ok tt) (custom m0)) as (Hb & Hcu & Hval).
  { unfold NewMetadata in Hnew. rewrite !app_assoc in Hnew. unfold apply_opts in Hnew. rewrite rfold_app in Hnew.
    apply rbind_Ok in Hnew as (m1 & Hpre & Hpost). change (rfold (fun m opt => opt m)) with apply_opts in *.
    apply (keeps_boundary op) in Hpre as [Hb Hempty]; [|done| |done].
    - unfold custom_opts in Hpost. apply apply_custom_Ok in Hpost as [Hf ->]. rewrite Hempty. split; [done|].
      simpl. rewrite (custom_fold c). split; [done|]. by apply custom_valid.
    - rewrite <- !app_assoc. repeat (apply Forall_app; split).
      + apply Forall_cons; split; [|apply Forall_cons; split; [|constructor]].
        * apply bounded_simple; [apply opt_correlation|]. by intros ?? [= <-].
        * apply bounded_simple; [apply opt_timestamp|]. by intros ?? [= <-].
      + eapply opt_key_bounded; [|eassumption]. simpl. intros v opt (d & _ & [= <-])%rbind_Ok.
        apply bounded_simple; [constructor|]. by intros ?? [= <-].
      + eapply opt_key_bounded; [|eassumption]. simpl. intros v opt (d & _ & [= <-])%rbind_Ok.
        apply bounded_simple; [constructor|]. by intros ?? [= <-].
      + eapply opt_key_bounded; [|eassumption]. simpl. intros v opt (p & Hp & [= <-])%rbind_Ok.
        apply bounded_principal. eapply NewPrincipal_pid; [|exact Hp]. intros o.
        destruct (c !! carrierKeyPrincipalKind); [|by intros ?%not_elem_of_nil].
        intros ->%list_elem_of_singleton. eauto.
      + case_bool_decide; simplify_eq; [constructor|].
        match goal with Ht : rbind _ _ = Ok _ |- _ => apply rbind_Ok in Ht as (t & Ht & [= <-]) end.
        constructor; [|constructor]. apply bounded_tenant.
        destruct (tenancy.UnmarshalMetadata _) eqn:Hu; simplify_eq/=. by eapply tenancy.UnmarshalMetadata_wf. }
  assert (boundary op m /\ custom m = custom m0) as [(E & Ht & Hp) ->].
  { destruct (c !! carrierKeyCausationID); by injection H as <-. }
  rewrite E. split_and!; [done..|]. intros k v Hkv. apply Hval in Hkv as [Hk Hv].
  split; [by apply validateCustomKey_prefix|done].
Qed.

End Trust.

Lemma carrier_trust_boundary_witness :
  NewOperationID (operationID sample_metadata) = Ok (operationID sample_metadata) /\
  custom sample_metadata = custom_subset (MarshalMetadata decimal_time sample_metadata).
Proof.
  destruct (carrier_trust_boundary parse_decimal_time map_to_list (fun c => reflexivity _) 0
    (MarshalMetadata decimal_time sample_metadata) sample_metadata) as (Hop & _ & _ & Hc & _).
  - apply carrier_roundtrip_lemma; [intros t _; apply decimal_time_roundtrip|by intros|apply sample_metadata_wf].
  - split; [exact Hop|exact Hc].
Defined.

End command.
