(* ===== verification/Protocol.v ===== *)
(** * Package [protocol]: what actors of every kind share

    [src/internal/engine/protocol]: the deadline gate, the command carrier in
    a context, the write precondition a command declares, the reading of a
    reply and the classification of an error reply, and the answer to a tenant
    binding query. *)

From S2P Require Import Prelude GoStrings Tenancy Persistence Egopb Command.
From Stdlib Require Import ZArith Lia.
Open Scope string_scope.
Open Scope list_scope.
Open Scope urd_scope.

Module protocol.
Import persistence egopb tenancy.

(** ** The deadline gate ([deadline_gate.go]) *)
Inductive ctx_error := CtxDeadlineExceeded | CtxCanceled.

(** [ctx.Err()] at the instant [now]: whichever of the cancellation and the
    deadline came first decides, for good. *)
Definition ctx_err (now : Z) (ctx : Context) : option ctx_error :=
  match ctx_canceled ctx, ctx_deadline ctx with
  | None, None => None
  | Some c, None => if (c <=? now)%Z then Some CtxCanceled else None
  | None, Some d => if (d <=? now)%Z then Some CtxDeadlineExceeded else None
  | Some c, Some d =>
    if (c <=? now)%Z && (c <=? d)%Z then Some CtxCanceled
    else if (d <=? now)%Z then Some CtxDeadlineExceeded else None
  end.

Definition errActorDeadlineExceeded := "urd: command deadline exceeded".
Definition errActorContextCanceled := "urd: command context canceled".

(** The error text, if the gate is closed. *)
Definition CheckDeadline (now : Z) (ctx : Context) (stage : string) : option string :=
  match ctx_err now ctx with
  | None => None
  | Some CtxCanceled => Some (errActorContextCanceled +:+ ": " +:+ stage)
  | Some CtxDeadlineExceeded => Some (errActorDeadlineExceeded +:+ ": " +:+ stage)
  end.

(** ** Command metadata in a context ([command_context.go], [expected_revision.go]) *)
Definition AttachCarrier (ctx : Context) (c : gmap string string) : Context :=
  mkContext (ctx_tenant ctx) (Some c) (ctx_deadline ctx) (ctx_canceled ctx).
Definition CarrierFromContext (ctx : Context) : option (gmap string string) := ctx_carrier ctx.

Section Metadata.
Context (parse_time : string -> option Z) (range : gmap string string -> list (string * string)).

Definition MetadataFromContext (now : Z) (ctx : Context) : option command.Metadata :=
  match CarrierFromContext ctx with
  | None => None
  | Some c => rok (command.UnmarshalMetadata parse_time range now c)
  end.

Definition ExpectedRevisionFromContext (now : Z) (ctx : Context) : N * bool :=
  match MetadataFromContext now ctx with
  | None => (0%N, false)
  | Some md => command.ExpectedRevision md
  end.
End Metadata.

Definition PreconditionFromRevision (revision : N) (hasRevision : bool) : WritePrecondition :=
  if negb hasRevision then Unconditional
  else if (revision =? 0)%N then ExpectGenesis
  else ExpectRevision revision.

(** ** Replies ([reply.go], [reply_classification.go]) *)
Definition ErrConcurrencyConflict := "ego: concurrency conflict".

Section Replies.
Context {msg : Type}.
(** [anypb.Any.UnmarshalNew] *)
Context (UnmarshalNew : option Any -> result string msg).
(** [strconv.IsPrint] beyond ASCII *)
Context (print_tbl : Z -> bool).

Inductive reply_error := EText (message : string) | EBuild (e : command.error).

Definition ParseCommandReply (reply : CommandReply) : result string (msg * N) :=
  match reply with
  | CommandReply_StateReply r =>
    let? m := UnmarshalNew (rState r) in Ok (m, rSequenceNumber r)
  | CommandReply_ErrorReply m => Err m
  | NoReplySet => Err "no state received"
  end.

Definition resultBuilder := command.Metadata -> string -> result command.error (command.Result msg).

Definition buildCanceledResult : resultBuilder := fun md message =>
  let? failure := command.NewFailure message [] in command.NewCanceled md failure.
Definition buildTimedOutResult : resultBuilder := fun md message =>
  let? failure := command.NewFailure message [] in command.NewTimedOut md failure.
Definition buildConcurrencyConflictResult : resultBuilder := fun md message =>
  let opts := [command.WithFailureCode command.CodeConcurrencyConflict] ++
    match ParseConflictError print_tbl message with
    | Some conflictErr => [command.WithFailureCause (command.CauseConflict conflictErr)]
    | None => []
    end in
  let? failure := command.NewFailure message opts in command.NewRejected md failure.

Definition classifierRegistry : list (string * resultBuilder) :=
  [(errActorContextCanceled, buildCanceledResult);
   (errActorDeadlineExceeded, buildTimedOutResult);
   (ErrConcurrencyConflict, buildConcurrencyConflictResult)].

Definition ClassifyErrorReply (md : command.Metadata) (message : string) : result command.error (command.Result msg) :=
  match List.find (fun entry => has_prefix entry.1 message) classifierRegistry with
  | Some entry => entry.2 md message
  | None => let? failure := command.NewFailure message [] in command.NewFailed md failure
  end.

Definition ResultFromReply (reply : CommandReply) (md : command.Metadata) : result reply_error (command.Result msg) :=
  match reply with
  | CommandReply_StateReply r =>
    let? state := rmap_err EText (UnmarshalNew (rState r)) in
    rmap_err EBuild (command.NewSuccess md (Some state) (rSequenceNumber r))
  | CommandReply_ErrorReply m =>
    let m := if bool_decide (m = "") then "command: empty error reply message" else m in
    rmap_err EBuild (ClassifyErrorReply md m)
  | NoReplySet => Err (EText "no state received")
  end.

(** ** Tenant binding ([tenant_binding.go]) *)
Definition AnswerTenantBinding (tenantAware : bool) (sc : persistence.Scope) (tenantId : string) : TenantBindingReply :=
  if negb tenantAware || negb (Valid sc) || IsUnscoped sc then mkTenantBindingReply false false
  else mkTenantBindingReply true
    match NewTenantScope tenantId with Ok queried => Equal sc queried | Err _ => false end.

#[local] Arguments has_prefix : simpl never.
#[local] Arguments ErrorText : simpl never.

(** ** Properties *)
Lemma has_prefix_app p s : has_prefix p (p +:+ s) = true.
Proof.
  unfold has_prefix. assert (forall p s, b2l (p +:+ s) = b2l p ++ b2l s) as ->.
  { clear. intros p s. unfold b2l. induction p as [|a p IH]; [done|]. simpl. by f_equal. }
  by rewrite strip_prefix_app.
Qed.

Lemma ErrorText_prefix e : has_prefix ErrConcurrencyConflict (ErrorText print_tbl e) = true.
Proof.
  unfold has_prefix, ErrorText, errorList. rewrite b2l_l2b.
  replace (b2l conflictGrammarPrefix) with (b2l ErrConcurrencyConflict ++ b2l ": grammar=v1, scope=") by reflexivity.
  by rewrite <- app_assoc, strip_prefix_app.
Qed.

Lemma ErrorText_not_actor e :
  has_prefix errActorContextCanceled (ErrorText print_tbl e) = false /\
  has_prefix errActorDeadlineExceeded (ErrorText print_tbl e) = false.
Proof. split; unfold has_prefix, ErrorText, errorList; by rewrite b2l_l2b. Qed.

Lemma ErrorText_not_empty e : ErrorText print_tbl e <> "".
Proof. unfold ErrorText, errorList. done. Qed.

(** A conflict raised by a store crosses the text-only wire without loss:
    the caller's result is a rejection with the concurrency-conflict code
    whose cause is the very conflict the store built, expected and actual
    revisions included. *)
Theorem conflict_survives_wire md e : wf_conflict e ->
  exists r, ResultFromReply (CommandReply_ErrorReply (ErrorText print_tbl e)) md = Ok r /\
    command.outcome r = command.OutcomeRejected /\ command.rmetadata r = md /\
    command.Code (command.rfailure r) = (command.CodeConcurrencyConflict, true) /\
    command.cause (command.rfailure r) = Some (command.CauseConflict e).
Proof.
  intros Hwf. unfold ResultFromReply. rewrite bool_decide_eq_false_2 by apply ErrorText_not_empty.
  unfold ClassifyErrorReply, classifierRegistry, List.find. cbn [fst snd].
  destruct (ErrorText_not_actor e) as [-> ->]. rewrite ErrorText_prefix. cbn [snd].
  unfold buildConcurrencyConflictResult, command.NewFailure.
  assert (ParseConflictError print_tbl (ErrorText print_tbl e) = Some e) as ->.
  { unfold ParseConflictError, ErrorText. rewrite b2l_l2b. by apply parse_errorList. }
  rewrite bool_decide_eq_false_2 by apply ErrorText_not_empty. simpl. by eexists.
Qed.

(** What the deadline gate answers is classified for the caller as what
    happened: an expired deadline as timed out with a deadline cause, a
    cancelled context as canceled, whatever stage the gate fired at; and the
    gate is silent exactly while the context is live. *)
Theorem deadline_gate_classified now ctx stage md :
  match CheckDeadline now ctx stage with
  | None => ctx_err now ctx = None
  | Some m => exists r, ResultFromReply (CommandReply_ErrorReply m) md = Ok r /\
      match ctx_err now ctx with
      | Some CtxDeadlineExceeded => command.outcome r = command.OutcomeTimedOut /\
          command.cause (command.rfailure r) = Some command.DeadlineExceeded
      | Some CtxCanceled => command.outcome r = command.OutcomeCanceled /\
          command.cause (command.rfailure r) = Some command.Canceled
      | None => False
      end
  end.
Proof.
  unfold CheckDeadline. destruct (ctx_err now ctx) as [[]|]; [| |done];
    unfold ResultFromReply, ClassifyErrorReply, classifierRegistry, List.find; cbn [fst snd].
  - replace (has_prefix errActorContextCanceled _) with false by reflexivity.
    replace (has_prefix errActorDeadlineExceeded _) with true by (symmetry; apply has_prefix_app).
    by eexists.
  - replace (has_prefix errActorContextCanceled _) with true by (symmetry; apply has_prefix_app).
    by eexists.
Qed.

(** Any other error text is reported as a failure with that text, and an
    error reply always yields a result, even with an empty message. *)
Theorem error_reply_total md m :
  exists r, ResultFromReply (CommandReply_ErrorReply m) md = Ok r /\
    (Forall (fun entry => has_prefix entry.1 m = false) classifierRegistry -> m <> "" ->
     command.outcome r = command.OutcomeFailed /\ command.message (command.rfailure r) = m /\
     command.hasFailure r = true).
Proof.
  unfold ResultFromReply. set (m' := if bool_decide (m = "") then _ else m).
  assert (m' <> "") as Hm' by (unfold m'; by case_bool_decide).
  assert (m <> "" -> m' = m) as Heq by (intros; unfold m'; by rewrite bool_decide_eq_false_2).
  clearbody m'. unfold ClassifyErrorReply.
  destruct (List.find _ _) as [entry|] eqn:E.
  - apply find_some in E as [Hin Hp].
    assert (exists r, entry.2 md m' = Ok r) as [r Hr].
    { unfold buildCanceledResult, buildTimedOutResult, buildConcurrencyConflictResult, command.NewFailure in *.
      destruct Hin as [<-|[<-|[<-|[]]]]; simpl;
        unfold buildCanceledResult, buildTimedOutResult, buildConcurrencyConflictResult, command.NewFailure;
        rewrite bool_decide_eq_false_2 by done; by eexists. }
    rewrite Hr. simpl. exists r. split; [done|]. intros Hf Hne. exfalso.
    rewrite Heq in Hp by done. rewrite Forall_forall in Hf. apply list_elem_of_In in Hin.
    apply Hf in Hin. congruence.
  - unfold command.NewFailure. rewrite bool_decide_eq_false_2 by done. simpl. eexists. split; [done|].
    intros _ Hne. simpl. by rewrite Heq.
Qed.
End Replies.

Lemma conflict_survives_wire_witness :
  let e := NewConflictError Unscoped "a" (ExpectRevision 2) [WithActualRevision 3] in
  exists r, ResultFromReply (msg := unit) (fun _ => Ok tt) (fun _ => false)
    (CommandReply_ErrorReply (ErrorText (fun _ => false) e)) command.noMetadata = Ok r /\
    command.cause (command.rfailure r) = Some (command.CauseConflict e).
Proof.
  intros e. destruct (conflict_survives_wire (msg := unit) (fun _ => Ok tt) (fun _ => false) command.noMetadata e)
    as (r & H & _ & _ & _ & Hc).
  - repeat split; [apply wf_unscoped|apply wf_exact|..]; done.
  - exists r. split; [exact H|exact Hc].
Defined.

End protocol.
