(* ===== verification/EventSourced.v ===== *)
(** * The event-sourced entity ([src/internal/engine/eventsource])

    The actor of [event_sourced_actor.go] with its direct and batched command
    paths, recovery, and the three children it works with: the events writer,
    the snapshots writer and the events janitor. A message handler is a
    function from the actor's state to its new state and the effects it asks
    of the actor runtime, in order. User code (behavior, event adapters,
    encryptor) and the protobuf library are fields of [Deps]. *)

From S2P Require Import Prelude GoStrings Tenancy Persistence Egopb StoreApi Command Protocol.
From Stdlib Require Import ZArith Lia.
Open Scope string_scope.
Open Scope list_scope.
Open Scope urd_scope.

Module eventsource.
Import persistence egopb tenancy.

(** ** Errors an entity replies with *)
Inductive error :=
| EText (message : string)
| EStoreError (e : store_error)
| ETenancy (e : tenancy.Error)
(** [fmt.Errorf("...: %w", err)] *)
| EWrap (prefix : string) (e : error).

(** What [errors.As] finds. *)
Fixpoint cause (e : error) : error :=
  match e with EWrap _ e => cause e | _ => e end.

Definition wrap {A} (prefix : string) (r : result error A) : result error A := rmap_err (EWrap prefix) r.

(** [err.Error()]; [print_tbl] is [strconv.IsPrint] beyond ASCII. *)
Fixpoint error_text (print_tbl : Z -> bool) (e : error) : string :=
  match e with
  | EWrap p e => p +:+ ": " +:+ error_text print_tbl e
  | EText m => m
  | ETenancy e => err_message e
  | EStoreError ErrInvalidScope => "persistence: scope is not valid"
  | EStoreError ErrInvalidPrecondition => "persistence: write precondition is not valid"
  | EStoreError ErrPreconditionScope => "persistence: conditional write spans multiple persistence ids"
  | EStoreError (EConflict c) => ErrorText print_tbl c
  | EStoreError (EStore m) => m
  end.

(** ** What the entity is given *)
Record Encryptor := mkEncryptor {
  Encrypt : Context -> string -> string -> result string (string * string);
  Decrypt : Context -> string -> string -> string -> result string string
}.

Record Deps := mkDeps {
  State : Type;
  DomainEvent : Type;
  Cmd : Type;
  (** the nil [State] *)
  nilState : State;
  (** [behaviorport.EventSourced], and the optional [HandleEnvelope] *)
  InitialState : State;
  HandleCommand : Context -> Cmd -> State -> result string (list DomainEvent);
  HandleEvent : Context -> DomainEvent -> State -> result string State;
  HandleEnvelope : option (Context -> command.Envelope Cmd -> State -> result string (list DomainEvent));
  (** [anypb.New], [Any.UnmarshalTo] and [Any.UnmarshalNew] *)
  anyOfState : State -> Any;
  UnmarshalTo : option Any -> result string State;
  anyOfEvent : DomainEvent -> Any;
  UnmarshalNew : option Any -> result string DomainEvent;
  (** [proto.Marshal] and [proto.Unmarshal] of an [Any] *)
  protoMarshal : Any -> result string string;
  protoUnmarshal : string -> result string Any;
  encryptor : option Encryptor;
  (** [EventAdapter.Adapt], in registration order *)
  eventAdapters : list (option Any -> N -> result string (option Any));
  (** what reading a carrier depends on *)
  parse_time : string -> option Z;
  map_range : gmap string string -> list (string * string);
  (** [strconv.IsPrint] beyond ASCII *)
  print_tbl : Z -> bool
}.

Section Actor.
Context (D : Deps).

(** ** State *)
Inductive persistPhase :=
  phaseProcessing | phaseFlushing | phaseReplying | phasePersisting | phaseDirectReplying.
#[export] Instance persistPhase_eq_dec : EqDecision persistPhase.
Proof. solve_decision. Defined.

Record retentionPolicy := mkRetentionPolicy {
  DeleteEventsOnSnapshot : bool;
  DeleteSnapshotsOnSnapshot : bool;
  EventsRetentionCount : N
}.

(** Set once, while the actor starts. *)
Record Config := mkConfig {
  persistenceID : string;
  hasSnapshotStore : bool;
  snapshotInterval : N;
  retention : option retentionPolicy;
  hasSnapshotsWriter : bool;
  hasJanitor : bool;
  shardNumber : N;
  batchThreshold : Z;
  tenantAware : bool;
  scope : persistence.Scope
}.

Record Batch := mkBatch {
  batchBuffer : list Event;
  batchEntries : list CommandReply;
  batchState : State D;
  batchCounter : N;
  batchTime : Z;
  batchNumEvents : Z;
  remainingReplies : Z;
  shutdownOnDrain : bool;
  batchBase : N;
  batchHasPrecondition : bool
}.

(** [time.Time{}.UnixNano()] *)
Definition zeroTime : Z := -6795364578871345152.
Definition resetBatch : Batch :=
  mkBatch [] [] (nilState D) 0 zeroTime 0 0 false 0 false.

Record Direct := mkDirect {
  directPendingState : State D;
  directPendingCounter : N;
  directPendingTime : Z;
  directNumEvents : Z;
  directErr : option error;
  directShutdown : bool
}.
Definition noDirect : Direct := mkDirect (nilState D) 0 zeroTime 0 None false.

Record Actor := mkActor {
  config : Config;
  currentState : State D;
  cachedStateAny : option Any;
  eventsCounter : N;
  lastCommandTime : Z;
  phase : persistPhase;
  batch : Batch;
  direct : Direct;
  flushTimer : bool;
  actorTenant : TenantContext
}.

Definition set_phase (a : Actor) (p : persistPhase) : Actor :=
  mkActor (config a) (currentState a) (cachedStateAny a) (eventsCounter a) (lastCommandTime a)
    p (batch a) (direct a) (flushTimer a) (actorTenant a).
Definition set_batch (a : Actor) (b : Batch) : Actor :=
  mkActor (config a) (currentState a) (cachedStateAny a) (eventsCounter a) (lastCommandTime a)
    (phase a) b (direct a) (flushTimer a) (actorTenant a).
Definition set_direct (a : Actor) (d : Direct) : Actor :=
  mkActor (config a) (currentState a) (cachedStateAny a) (eventsCounter a) (lastCommandTime a)
    (phase a) (batch a) d (flushTimer a) (actorTenant a).
Definition set_tenant (a : Actor) (tc : TenantContext) : Actor :=
  mkActor (config a) (currentState a) (cachedStateAny a) (eventsCounter a) (lastCommandTime a)
    (phase a) (batch a) (direct a) (flushTimer a) tc.
Definition set_timer (a : Actor) (t : bool) : Actor :=
  mkActor (config a) (currentState a) (cachedStateAny a) (eventsCounter a) (lastCommandTime a)
    (phase a) (batch a) (direct a) t (actorTenant a).
Definition set_state (a : Actor) (s : State D) : Actor :=
  mkActor (config a) s (cachedStateAny a) (eventsCounter a) (lastCommandTime a)
    (phase a) (batch a) (direct a) (flushTimer a) (actorTenant a).
Definition set_counter (a : Actor) (n : N) : Actor :=
  mkActor (config a) (currentState a) (cachedStateAny a) n (lastCommandTime a)
    (phase a) (batch a) (direct a) (flushTimer a) (actorTenant a).

Definition pid (a : Actor) : string := persistenceID (config a).
Definition batchEnabled (a : Actor) : bool := (0 <? batchThreshold (config a))%Z.

(** ** Messages and effects *)
Record persistEventsRequest := mkPersistEventsRequest {
  envelopes : list Event;
  precondition : WritePrecondition;
  rscope : persistence.Scope
}.

Record applyRetentionRequest := mkApplyRetentionRequest {
  ar_persistenceID : string;
  ar_eventsCounter : N;
  ar_snapshotInterval : N;
  ar_deleteEventsOnSnapshot : bool;
  ar_deleteSnapshotsOnSnapshot : bool;
  ar_eventsRetentionCount : N;
  ar_scope : persistence.Scope
}.

Record persistSnapshotRequest := mkPersistSnapshotRequest {
  snapshot : Snapshot;
  retentionReq : option applyRetentionRequest;
  ps_scope : persistence.Scope
}.

Inductive message :=
| MGetState (ctx : Context)
| MTenantBindingQuery (tenantId : string)
| MBatchFlushTick
| MPersistResponse (err : option error)
| MCommand (ctx : Context) (cmd : Cmd D)
| MOther.

Inductive effect :=
| Response (r : CommandReply)
| ResponseBinding (r : TenantBindingReply)
| Stash
| UnstashAll
| PipeTo (req : persistEventsRequest)
| Tell (req : persistSnapshotRequest)
| Shutdown
| Unhandled.

(** What [time.Now] returned at the points of one invocation. *)
Record Times := mkTimes { t_gate1 : Z; t_build : Z; t_gate2 : Z; t_meta : Z }.

(** ** Recovery *)
Section Recovery.
Context {St Sn : Type} `{api.EventsStore St} `{api.SnapshotStore Sn}.

Definition seedActorTenant (a : Actor) (tc : TenantContext) : result error Actor :=
  if negb (tenantAware (config a)) then Ok a
  else if bool_decide (actorTenant a = noTenantContext) then Ok (set_tenant a tc)
  else let? _ := rmap_err ETenancy (VerifyUnchanged (actorTenant a) tc) in Ok a.

Definition decryptPayload (a : Actor) (ctx : Context) (payload : option Any) (encrypted : bool) (keyID : string) : result error (option Any) :=
  match encryptor D with
  | None => Ok payload
  | Some enc =>
    if negb encrypted then Ok payload
    else
      let? plaintext := rmap_err EText (Decrypt enc ctx (pid a) (match payload with Some p => Value p | None => "" end) keyID) in
      let? decrypted := wrap "failed to unmarshal decrypted payload" (rmap_err EText (protoUnmarshal D plaintext)) in
      Ok (Some decrypted)
  end.

(** [eventadapter.Chain] *)
Definition Chain (adapters : list (option Any -> N -> result string (option Any))) (event : option Any) (revision : N) : result string (option Any) :=
  rfold (fun current adapt => adapt current revision) event adapters.

(** The tenant metadata a record must carry when the actor is tenant-aware. *)
Definition unmarshalTenant (md : gmap string string) : result error TenantContext :=
  rmap_err ETenancy (UnmarshalMetadata md).

Definition applyPersistedEvent (a : Actor) (ctx : Context) (state : State D) (envelope : Event) : result error (State D) :=
  let seqNr := SequenceNumber envelope in
  let at_seq what := what +:+ " at sequence " +:+ format_uint seqNr in
  let? _ :=
    if tenantAware (config a) then
      let? eventTenant := wrap (at_seq "failed to unmarshal event tenant metadata") (unmarshalTenant (TenantMetadata envelope)) in
      wrap (at_seq "tenant mismatch replaying event") (rmap_err ETenancy (VerifyUnchanged (actorTenant a) eventTenant))
    else Ok tt in
  let? evt := wrap (at_seq "failed to decrypt event")
    (decryptPayload a ctx (EventAny envelope) (IsEncrypted envelope) (EncryptionKeyId envelope)) in
  let? evt := match eventAdapters D with
    | [] => Ok evt
    | _ => wrap (at_seq "failed to adapt event") (rmap_err EText (Chain (eventAdapters D) evt seqNr))
    end in
  let? eventMsg := wrap (at_seq "failed to unmarshal event") (rmap_err EText (UnmarshalNew D evt)) in
  wrap (at_seq "failed to handle event") (rmap_err EText (HandleEvent D ctx eventMsg state)).

(** [None]: the store panics. *)
Definition replayEvents (a : Actor) (st : St) (ctx : Context) (state : State D) (from to : N) : option (result error (State D)) :=
  match api.ReplayEvents st (scope (config a)) (pid a) from to (u64_succ (u64_sub to from)) with
  | None => None
  | Some (Err e) => Some (Err (EWrap "failed to replay events" (EStoreError e)))
  | Some (Ok evs) => Some (rfold (applyPersistedEvent a ctx) state evs)
  end.

Definition recoverFromSnapshot (a : Actor) (sn : Sn) (ctx : Context) (initial : State D) : result error (Actor * State D * N) :=
  let? snapshot := wrap "failed to load snapshot" (rmap_err EStoreError (api.GetLatestSnapshot sn (scope (config a)) (pid a))) in
  match snapshot with
  | None => Ok (a, initial, 1%N)
  | Some snapshot =>
    match sState snapshot with
    | None => Ok (a, initial, 1%N)
    | Some _ =>
      let? a :=
        if tenantAware (config a) then
          let? snapshotTenant := wrap "failed to unmarshal snapshot tenant metadata" (unmarshalTenant (sTenantMetadata snapshot)) in
          seedActorTenant a snapshotTenant
        else Ok a in
      let? snapshotState := wrap "failed to decrypt snapshot"
        (decryptPayload a ctx (sState snapshot) (sIsEncrypted snapshot) (sEncryptionKeyId snapshot)) in
      let? restored := wrap "failed to unmarshal snapshot state" (rmap_err EText (UnmarshalTo D snapshotState)) in
      let seqNr := sSequenceNumber snapshot in
      Ok (set_counter a seqNr, restored, u64_succ seqNr)
    end
  end.

Definition recover (a : Actor) (st : St) (sn : Sn) (ctx : Context) : option (result error Actor) :=
  let state := InitialState D in
  let seeded := if hasSnapshotStore (config a) then recoverFromSnapshot a sn ctx state else Ok (a, state, 1%N) in
  match seeded with
  | Err e => Some (Err e)
  | Ok (a, state, replayFrom) =>
    match api.GetLatestEvent st (scope (config a)) (pid a) with
    | Err e => Some (Err (EWrap "failed to get latest event" (EStoreError e)))
    | Ok None => Some (Ok (set_state a state))
    | Ok (Some latestEvent) =>
      let latestSeqNr := SequenceNumber latestEvent in
      let tenant_checked :=
        if tenantAware (config a) then
          let? eventTenant := wrap "failed to unmarshal event tenant metadata" (unmarshalTenant (TenantMetadata latestEvent)) in
          seedActorTenant a eventTenant
        else Ok a in
      match tenant_checked with
      | Err e => Some (Err e)
      | Ok a =>
        if (replayFrom <=? latestSeqNr)%N then
          match replayEvents a st ctx state replayFrom latestSeqNr with
          | None => None
          | Some (Err e) => Some (Err e)
          | Some (Ok state) => Some (Ok (set_state (set_counter a latestSeqNr) state))
          end
        else Some (Ok (set_state a state))
      end
    end
  end.
End Recovery.

(** ** Start ([PreStart], [resolveScope], [setConfig]) *)
Record EntityConfig := mkEntityConfig {
  ec_SnapshotInterval : N;
  ec_HasRetentionPolicy : bool;
  ec_DeleteEventsOnSnapshot : bool;
  ec_DeleteSnapshotsOnSnapshot : bool;
  ec_EventsRetentionCount : N;
  ec_BatchThreshold : Z
}.

(** The dependencies injected at spawn time. *)
Inductive dependency :=
| DepNil
| DepBehavior
| DepEntityConfig (c : EntityConfig)
| DepEntityTenantScope (tenantID : string)
| DepOther.

Definition ErrEntityTenantScopeMissing := "urd: tenant-aware actor spawned without a bound tenant scope".

(** The scope and the tenant the actor is bound to before any store read. *)
Fixpoint resolveTenantScope (deps : list dependency) : result error (persistence.Scope * TenantContext) :=
  match deps with
  | [] => Err (EText ErrEntityTenantScopeMissing)
  | DepEntityTenantScope id :: _ =>
    match NewTenantScope id with
    | Err e => Err (EWrap ErrEntityTenantScopeMissing (ETenancy e))
    | Ok sc =>
      match NewTenantContext (TenantID sc) with
      | Err e => Err (EWrap ErrEntityTenantScopeMissing (ETenancy e))
      | Ok tc => Ok (sc, tc)
      end
    end
  | _ :: deps => resolveTenantScope deps
  end.

Definition resolveScope (aware : bool) (deps : list dependency) : result error (persistence.Scope * TenantContext) :=
  if negb aware then Ok (Unscoped, noTenantContext) else resolveTenantScope deps.

(** The settings [setConfig] reads: interval, retention, batch threshold and
    whether a behavior was injected. *)
Definition setConfig (deps : list dependency) : N * option retentionPolicy * Z * bool :=
  foldl (fun '(interval, ret, threshold, beh) d =>
    match d with
    | DepBehavior => (interval, ret, threshold, true)
    | DepEntityConfig c =>
      (ec_SnapshotInterval c,
       (if ec_HasRetentionPolicy c
        then Some (mkRetentionPolicy (ec_DeleteEventsOnSnapshot c) (ec_DeleteSnapshotsOnSnapshot c) (ec_EventsRetentionCount c))
        else ret),
       ec_BatchThreshold c, beh)
    | _ => (interval, ret, threshold, beh)
    end) (0%N, None, 0%Z, false) deps.

Section Start.
Context {St Sn : Type} `{api.EventsStore St} `{api.SnapshotStore Sn}.

(** [snapshotStore] is the registered one, if any; [pings] are the outcomes of
    pinging the stores. Children exist from [PostStart] on. *)
Definition PreStart (name : string) (tenancyMarker : bool) (deps : list dependency) (shard : N)
    (st : St) (snapshotStore : option Sn) (pingEvents pingSnapshots : option error) (ctx : Context)
    (emptySn : Sn) : option (result error Actor) :=
  match resolveScope tenancyMarker deps with
  | Err e => Some (Err e)
  | Ok (sc, tc) =>
    let '(interval, ret, threshold, beh) := setConfig deps in
    let hasSn := match snapshotStore with Some _ => true | None => false end in
    let cfg := mkConfig name hasSn interval ret hasSn
      (match ret with Some _ => true | None => false end) shard threshold tenancyMarker sc in
    let a := mkActor cfg (nilState D) None 0 zeroTime phaseProcessing resetBatch noDirect false tc in
    if negb beh then Some (Err (EText "behavior is required"))
    else match pingEvents with
    | Some e => Some (Err e)
    | None =>
      match snapshotStore, pingSnapshots with
      | Some _, Some e => Some (Err e)
      | _, _ => recover a st (default emptySn snapshotStore) ctx
      end
    end
  end.
End Start.

(** ** Replies *)
Definition currentStateAny (a : Actor) : Any :=
  match cachedStateAny a with Some s => s | None => anyOfState D (currentState a) end.

Definition cache (a : Actor) : Actor :=
  mkActor (config a) (currentState a) (Some (currentStateAny a)) (eventsCounter a) (lastCommandTime a)
    (phase a) (batch a) (direct a) (flushTimer a) (actorTenant a).

Definition errorReply (e : error) : CommandReply := CommandReply_ErrorReply (error_text (print_tbl D) e).
Definition stateReply (a : Actor) (s : Any) (seqNr : N) (ts : Z) : CommandReply :=
  CommandReply_StateReply (mkStateReply (pid a) (Some s) seqNr ts STATUS_NONE).

Definition sendErrorReply (a : Actor) (e : error) : Actor * list effect := (a, [Response (errorReply e)]).
Definition sendStateReply (a : Actor) : Actor * list effect :=
  (cache a, [Response (stateReply a (currentStateAny a) (eventsCounter a) (lastCommandTime a))]).

(** ** The gates every command passes *)
Definition tenantGate (a : Actor) (ctx : Context) : result error TenantContext :=
  if negb (tenantAware (config a)) then Ok noTenantContext
  else
    let? tc := rmap_err ETenancy (Require ctx) in
    let? _ :=
      if bool_decide (actorTenant a <> noTenantContext)
      then rmap_err ETenancy (VerifyUnchanged (actorTenant a) tc) else Ok tt in
    Ok tc.

Definition getStateAndReply (a : Actor) (ctx : Context) : Actor * list effect :=
  match tenantGate a ctx with
  | Err e => sendErrorReply a e
  | Ok _ => sendStateReply a
  end.

Definition handleGetStateCommand (a : Actor) (ctx : Context) : Actor * list effect :=
  if negb (batchEnabled a) && match phase a with phasePersisting | phaseDirectReplying => true | _ => false end
  then (a, [Stash])
  else getStateAndReply a ctx.

Definition dispatchToBehavior (ctx : Context) (cmd : Cmd D) (priorState : State D) (T : Times) : result string (list (DomainEvent D)) :=
  match HandleEnvelope D with
  | None => HandleCommand D ctx cmd priorState
  | Some handleEnvelope =>
    match protocol.MetadataFromContext (parse_time D) (map_range D) (t_meta T) ctx with
    | None => HandleCommand D ctx cmd priorState
    | Some md =>
      match command.NewEnvelope (Some cmd) md with
      | Err _ => HandleCommand D ctx cmd priorState
      | Ok env => handleEnvelope ctx env priorState
      end
    end
  end.

(** ** Envelopes *)
Definition marshalEvent (a : Actor) (ctx : Context) (event : DomainEvent D) (tc : TenantContext) (seqNr : N) (ts : Z) : result error Event :=
  let eventAny := anyOfEvent D event in
  let? (eventAny, encKeyID, isEncrypted) :=
    match encryptor D with
    | None => Ok (eventAny, "", false)
    | Some enc =>
      let? eventBytes := wrap "failed to marshal event for encryption" (rmap_err EText (protoMarshal D eventAny)) in
      let? (ciphertext, keyID) := wrap "failed to encrypt event" (rmap_err EText (Encrypt enc ctx (pid a) eventBytes)) in
      Ok (mkAny (TypeUrl eventAny) ciphertext, keyID, true)
    end in
  Ok (mkEvent (pid a) seqNr false (Some eventAny) ts (shardNumber (config a)) encKeyID isEncrypted
    (if tenantAware (config a) then tenancy.MarshalMetadata tc else ∅)).

Definition buildStep (a : Actor) (ctx : Context) (tc : TenantContext) (ts : Z)
    (acc : list Event * State D * N) (event : DomainEvent D) : result error (list Event * State D * N) :=
  let '(envs, pendingState, pendingCounter) := acc in
  let? resultingState := rmap_err EText (HandleEvent D ctx event pendingState) in
  let pendingCounter := u64_succ pendingCounter in
  let? envelope := marshalEvent a ctx event tc pendingCounter ts in
  Ok (envs ++ [envelope], resultingState, pendingCounter).

Definition buildEnvelopes (a : Actor) (ctx : Context) (events : list (DomainEvent D)) (tc : TenantContext)
    (startState : State D) (startCounter : N) (ts : Z) : result error (list Event * State D * N) :=
  rfold (buildStep a ctx tc ts) ([], startState, startCounter) events.

Definition verifyTenantForPersist (a : Actor) (ctx : Context) : result error unit :=
  if negb (tenantAware (config a)) then Ok tt
  else let? _ := rmap_err ETenancy (Require ctx) in Ok tt.

Definition establishActorTenant (a : Actor) (tc : TenantContext) : Actor :=
  if tenantAware (config a) && bool_decide (actorTenant a = noTenantContext) then set_tenant a tc else a.

Definition shouldStayAliveAfterConflict (a : Actor) (e : error) : bool :=
  match cause e with
  | EStoreError (EConflict c) => let '(actual, ok) := ActualRevision c in ok && (actual =? eventsCounter a)%N
  | _ => false
  end.

(** ** Confirmed writes and snapshots *)
Definition applyConfirmedState (a : Actor) (state : State D) (counter : N) (ts : Z) : Actor :=
  mkActor (config a) state (Some (anyOfState D state)) counter ts
    (phase a) (batch a) (direct a) (flushTimer a) (actorTenant a).

Definition newSnapshotEnvelope (a : Actor) (state : Any) : Snapshot :=
  mkSnapshot (pid a) (eventsCounter a) (Some state) (lastCommandTime a) "" false
    (if tenantAware (config a) then tenancy.MarshalMetadata (actorTenant a) else ∅).

Definition snapshotAndRetain (a : Actor) : effect :=
  Tell (mkPersistSnapshotRequest (newSnapshotEnvelope a (currentStateAny a))
    (match retention (config a) with
     | Some p =>
       if hasJanitor (config a)
       then Some (mkApplyRetentionRequest (pid a) (eventsCounter a) (snapshotInterval (config a))
         (DeleteEventsOnSnapshot p) (DeleteSnapshotsOnSnapshot p) (EventsRetentionCount p) (scope (config a)))
       else None
     | None => None
     end) (scope (config a))).

Definition triggerSnapshotAndRetention (a : Actor) : list effect :=
  if negb (hasSnapshotsWriter (config a)) || (snapshotInterval (config a) =? 0)%N
     || negb (eventsCounter a mod snapshotInterval (config a) =? 0)%N
  then [] else [snapshotAndRetain a].

Definition crossedSnapshotBoundary (a : Actor) (previousCounter : N) : bool :=
  if negb (hasSnapshotsWriter (config a)) || (snapshotInterval (config a) =? 0)%N then false
  else (previousCounter / snapshotInterval (config a) <? eventsCounter a / snapshotInterval (config a))%N.

(** ** The direct path *)
Definition persistAsync (a : Actor) (envs : list Event) (pendingState : State D) (pendingCounter : N)
    (commandTime : Z) (p : WritePrecondition) : Actor * list effect :=
  let d := mkDirect pendingState pendingCounter commandTime (Z.of_nat (length envs))
    (directErr (direct a)) (directShutdown (direct a)) in
  (set_phase (set_direct a d) phasePersisting,
   [Stash; PipeTo (mkPersistEventsRequest envs p (scope (config a)))]).

Definition processCommandAndReply (a : Actor) (ctx : Context) (cmd : Cmd D) (T : Times) : Actor * list effect :=
  match tenantGate a ctx with
  | Err e => sendErrorReply a e
  | Ok tc =>
    match protocol.CheckDeadline (t_gate1 T) ctx "before handler execution" with
    | Some m => sendErrorReply a (EText m)
    | None =>
      match dispatchToBehavior ctx cmd (currentState a) T with
      | Err m => sendErrorReply a (EText m)
      | Ok [] => sendStateReply a
      | Ok events =>
        match buildEnvelopes a ctx events tc (currentState a) (eventsCounter a) (t_build T) with
        | Err e => sendErrorReply a e
        | Ok (envs, pendingState, pendingCounter) =>
          match protocol.CheckDeadline (t_gate2 T) ctx "before persistence" with
          | Some m => sendErrorReply a (EText m)
          | None =>
            match verifyTenantForPersist a ctx with
            | Err e => sendErrorReply a e
            | Ok _ =>
              let a := establishActorTenant a tc in
              let '(revision, hasRevision) := protocol.ExpectedRevisionFromContext (parse_time D) (map_range D) (t_meta T) ctx in
              persistAsync a envs pendingState pendingCounter (t_build T)
                (protocol.PreconditionFromRevision revision hasRevision)
            end
          end
        end
      end
    end
  end.

Definition handleDirectPersistResponse (a : Actor) (err : option error) : Actor * list effect :=
  match phase a with
  | phasePersisting =>
    match err with
    | Some e =>
      let d := mkDirect (directPendingState (direct a)) (directPendingCounter (direct a)) (directPendingTime (direct a))
        (directNumEvents (direct a)) (Some e) (negb (shouldStayAliveAfterConflict a e)) in
      (set_phase (set_direct a d) phaseDirectReplying, [UnstashAll])
    | None =>
      let d := direct a in
      let a := applyConfirmedState a (directPendingState d) (directPendingCounter d) (directPendingTime d) in
      let effs := triggerSnapshotAndRetention a in
      let d := mkDirect (directPendingState d) (directPendingCounter d) (directPendingTime d)
        (directNumEvents d) None (directShutdown d) in
      (set_phase (set_direct a d) phaseDirectReplying, effs ++ [UnstashAll])
    end
  | _ => (a, [])
  end.

Definition replyDirect (a : Actor) : Actor * list effect :=
  let a := set_phase a phaseProcessing in
  match directErr (direct a) with
  | Some e =>
    let shutdown := directShutdown (direct a) in
    let d := mkDirect (directPendingState (direct a)) (directPendingCounter (direct a)) (directPendingTime (direct a))
      (directNumEvents (direct a)) None false in
    (set_direct a d, [Response (errorReply e); UnstashAll] ++ (if shutdown then [Shutdown] else []))
  | None =>
    let '(a, effs) := sendStateReply a in (a, effs ++ [UnstashAll])
  end.

(** ** The batched path *)
Definition latestState (a : Actor) : State D :=
  match batchEntries (batch a) with [] => currentState a | _ => batchState (batch a) end.
Definition latestCounter (a : Actor) : N :=
  match batchEntries (batch a) with [] => eventsCounter a | _ => batchCounter (batch a) end.

Definition resolveBatchPrecondition (a : Actor) : WritePrecondition :=
  if negb (batchHasPrecondition (batch a)) then Unconditional
  else if (batchBase (batch a) =? 0)%N then ExpectGenesis
  else ExpectRevision (batchBase (batch a)).

Definition flushBatch (a : Actor) : Actor * list effect :=
  let a := set_timer a false in
  (set_phase a phaseFlushing,
   [PipeTo (mkPersistEventsRequest (batchBuffer (batch a)) (resolveBatchPrecondition a) (scope (config a)))]).

Definition set_hasPrecondition (a : Actor) : Actor :=
  let b := batch a in
  set_batch a (mkBatch (batchBuffer b) (batchEntries b) (batchState b) (batchCounter b) (batchTime b)
    (batchNumEvents b) (remainingReplies b) (shutdownOnDrain b) (batchBase b) true).

(** Fold an admitted command's output into the batch. *)
Definition appendToBatch (a : Actor) (envs : list Event) (pendingState : State D) (pendingCounter : N)
    (commandTime : Z) (counter revision : N) (hasRevision : bool) : Actor :=
  let b := batch a in
  let founding := match batchEntries b with [] => true | _ => false end in
  let base := if founding then (if hasRevision then revision else counter) else batchBase b in
  let pre := if founding then hasRevision else batchHasPrecondition b in
  let reply := stateReply a (anyOfState D pendingState) pendingCounter commandTime in
  set_batch a (mkBatch (batchBuffer b ++ envs) (batchEntries b ++ [reply]) pendingState pendingCounter commandTime
    (batchNumEvents b + Z.of_nat (length envs)) (remainingReplies b) (shutdownOnDrain b) base pre).

Definition processAndBatch (a : Actor) (ctx : Context) (cmd : Cmd D) (T : Times) : Actor * list effect :=
  let state := latestState a in
  let counter := latestCounter a in
  match tenantGate a ctx with
  | Err e => sendErrorReply a e
  | Ok tc =>
    match protocol.CheckDeadline (t_gate1 T) ctx "before handler execution" with
    | Some m => sendErrorReply a (EText m)
    | None =>
      let '(revision, hasRevision) := protocol.ExpectedRevisionFromContext (parse_time D) (map_range D) (t_meta T) ctx in
      let openBatch := match batchEntries (batch a) with [] => false | _ => true end in
      if openBatch && hasRevision && negb (revision =? counter)%N then
        let '(a, effs) := flushBatch a in (a, effs ++ [Stash])
      else
        let a := if openBatch && hasRevision then set_hasPrecondition a else a in
        match dispatchToBehavior ctx cmd state T with
        | Err m => sendErrorReply a (EText m)
        | Ok [] =>
          if openBatch
          then (a, [Response (stateReply a (anyOfState D state) counter (lastCommandTime a))])
          else (cache a, [Response (stateReply a (currentStateAny a) counter (lastCommandTime a))])
        | Ok events =>
          match buildEnvelopes a ctx events tc state counter (t_build T) with
          | Err e => sendErrorReply a e
          | Ok (envs, pendingState, pendingCounter) =>
            match protocol.CheckDeadline (t_gate2 T) ctx "before persistence" with
            | Some m => sendErrorReply a (EText m)
            | None =>
              let a := establishActorTenant a tc in
              let a := appendToBatch a envs pendingState pendingCounter (t_build T) counter revision hasRevision in
              if (batchThreshold (config a) <=? batchNumEvents (batch a))%Z
              then let '(a, effs) := flushBatch a in (a, Stash :: effs)
              else (set_timer a true, [Stash])
            end
          end
        end
    end
  end.

Definition handleBatchFlushTick (a : Actor) : Actor * list effect :=
  let a := set_timer a false in
  match phase a, batchEntries (batch a) with
  | phaseProcessing, _ :: _ => flushBatch a
  | _, _ => (a, [])
  end.

Definition handleBatchPersistResponse (a : Actor) (err : option error) : Actor * list effect :=
  match phase a with
  | phaseFlushing =>
    let b := batch a in
    match err with
    | Some e =>
      let b' := mkBatch (batchBuffer b) ((fun _ => errorReply e) <$> batchEntries b) (batchState b) (batchCounter b)
        (batchTime b) (batchNumEvents b) (Z.of_nat (length (batchEntries b)))
        (negb (shouldStayAliveAfterConflict a e)) (batchBase b) (batchHasPrecondition b) in
      (set_phase (set_batch a b') phaseReplying, [UnstashAll])
    | None =>
      let previousCounter := eventsCounter a in
      let a := applyConfirmedState a (batchState b) (batchCounter b) (batchTime b) in
      let effs := if crossedSnapshotBoundary a previousCounter then [snapshotAndRetain a] else [] in
      let b' := mkBatch (batchBuffer b) (batchEntries b) (batchState b) (batchCounter b)
        (batchTime b) (batchNumEvents b) (Z.of_nat (length (batchEntries b)))
        (shutdownOnDrain b) (batchBase b) (batchHasPrecondition b) in
      (set_phase (set_batch a b') phaseReplying, effs ++ [UnstashAll])
    end
  | _ => (a, [])
  end.

Definition replyFromBatch (a : Actor) (ctx : Context) (cmd : Cmd D) (T : Times) : Actor * list effect :=
  let b := batch a in
  if (remainingReplies b <=? 0)%Z then processAndBatch (set_phase a phaseProcessing) ctx cmd T
  else
    let idx := (Z.of_nat (length (batchEntries b)) - remainingReplies b)%Z in
    let reply := default NoReplySet (batchEntries b !! Z.to_nat idx) in
    let remaining := (remainingReplies b - 1)%Z in
    if (remaining =? 0)%Z
    then (set_phase (set_batch a resetBatch) phaseProcessing,
          Response reply :: (if shutdownOnDrain b then [Shutdown] else []))
    else (set_batch a (mkBatch (batchBuffer b) (batchEntries b) (batchState b) (batchCounter b) (batchTime b)
            (batchNumEvents b) remaining (shutdownOnDrain b) (batchBase b) (batchHasPrecondition b)),
          [Response reply]).

Definition handleCommandBatched (a : Actor) (ctx : Context) (cmd : Cmd D) (T : Times) : Actor * list effect :=
  match phase a with
  | phaseProcessing => processAndBatch a ctx cmd T
  | phaseFlushing => (a, [Stash])
  | phaseReplying => replyFromBatch a ctx cmd T
  | _ => (a, [])
  end.

(** ** [Receive] *)
Definition Receive (a : Actor) (m : message) (T : Times) : Actor * list effect :=
  match m with
  | MGetState ctx => handleGetStateCommand a ctx
  | MTenantBindingQuery id =>
    (a, [ResponseBinding (protocol.AnswerTenantBinding (tenantAware (config a)) (scope (config a)) id)])
  | MBatchFlushTick => handleBatchFlushTick a
  | MPersistResponse err =>
    if batchEnabled a then handleBatchPersistResponse a err else handleDirectPersistResponse a err
  | MCommand ctx cmd =>
    if batchEnabled a then handleCommandBatched a ctx cmd T
    else match phase a with
    | phasePersisting => (a, [Stash])
    | phaseDirectReplying => replyDirect a
    | _ => processCommandAndReply a ctx cmd T
    end
  | MOther => (a, [Unhandled])
  end.

Definition PostStop (a : Actor) : Actor := set_batch (set_timer a false) resetBatch.

(** ** The children *)
Section Children.
Context {St Sn : Type} `{api.EventsStore St} `{api.SnapshotStore Sn}.

(** [handlePersistEvents]: the response, the new store and what is published. *)
Definition handlePersistEvents (st : St) (req : persistEventsRequest) : option error * St * list Event :=
  match api.WriteEvents st (rscope req) (envelopes req) (precondition req) with
  | (Err e, st') => (Some (EStoreError e), st', [])
  | (Ok _, st') => (None, st', envelopes req)
  end.

(** [retryWithBackoff]: [n + 1] attempts at most; [canceled i] says the context
    was cancelled while waiting after attempt [i]. *)
Fixpoint retryWithBackoff {X E} (op : X -> result E unit * X) (canceled : nat -> option E) (maxRetries attempt : nat) (x : X) : result E unit * X :=
  match op x with
  | (Ok u, x') => (Ok u, x')
  | (Err e, x') =>
    match maxRetries with
    | O => (Err e, x')
    | S n =>
      match canceled attempt with
      | Some ce => (Err ce, x')
      | None => retryWithBackoff op canceled n (S attempt) x'
      end
    end
  end.
Definition defaultMaxRetries : nat := 3.

Definition encryptSnapshotState (enc : Encryptor) (ctx : Context) (s : Snapshot) (state : Any) : result string Snapshot :=
  let? stateBytes := protoMarshal D state in
  let? (ciphertext, keyID) := Encrypt enc ctx (sPersistenceId s) stateBytes in
  Ok (mkSnapshot (sPersistenceId s) (sSequenceNumber s) (Some (mkAny (TypeUrl state) ciphertext))
    (sTimestamp s) keyID true (sTenantMetadata s)).

(** The new store and the retention request forwarded to the janitor. *)
Definition handlePersistSnapshot (sn : Sn) (ctx : Context) (req : persistSnapshotRequest) (canceled : nat -> option store_error) : Sn * option applyRetentionRequest :=
  let prepared :=
    match encryptor D, sState (snapshot req) with
    | Some enc, Some state => encryptSnapshotState enc ctx (snapshot req) state
    | _, _ => Ok (snapshot req)
    end in
  match prepared with
  | Err _ => (sn, None)
  | Ok s =>
    match retryWithBackoff (fun sn => api.WriteSnapshot sn (ps_scope req) s) canceled defaultMaxRetries 0 sn with
    | (Err _, sn') => (sn', None)
    | (Ok _, sn') => (sn', retentionReq req)
    end
  end.

Definition handleApplyRetention (st : St) (sn : Sn) (hasSn : bool) (req : applyRetentionRequest)
    (canceled1 canceled2 : nat -> option store_error) : St * Sn :=
  let st :=
    if ar_deleteEventsOnSnapshot req then
      let deleteUpTo := ar_eventsCounter req in
      let deleteUpTo :=
        if (0 <? ar_eventsRetentionCount req)%N
        then u64_sub deleteUpTo (N.min deleteUpTo (ar_eventsRetentionCount req)) else deleteUpTo in
      if (0 <? deleteUpTo)%N
      then (retryWithBackoff (fun st => api.DeleteEvents st (ar_scope req) (ar_persistenceID req) deleteUpTo)
              canceled1 defaultMaxRetries 0 st).2
      else st
    else st in
  let sn :=
    if ar_deleteSnapshotsOnSnapshot req && hasSn && (ar_snapshotInterval req <? ar_eventsCounter req)%N then
      let previousSnapshotSeqNr := u64_sub (ar_eventsCounter req) (ar_snapshotInterval req) in
      (retryWithBackoff (fun sn => api.DeleteSnapshots sn (ar_scope req) (ar_persistenceID req) previousSnapshotSeqNr)
         canceled2 defaultMaxRetries 0 sn).2
    else sn in
  (st, sn).
End Children.
End Actor.
Arguments MGetState {D}.
Arguments MTenantBindingQuery {D}.
Arguments MBatchFlushTick {D}.
Arguments MPersistResponse {D}.
Arguments MCommand {D}.
Arguments MOther {D}.
End eventsource.
