(* ===== verification/EventSourcedSpec.v ===== *)
(** * Correctness of the event-sourced entity

    The history of an entity is the list of envelopes its writes committed.
    This file shows that what the actor appends replays to the state it
    computed, that recovery rebuilds that state from any mixture of snapshot
    and remaining events, that retention keeps this possible, and that through
    every interleaving of commands, writes and failures the in-memory state is
    the replay of what is stored. *)

From S2P Require Import Prelude GoStrings Tenancy Persistence Egopb StoreApi Command Protocol EventSourced.
From Stdlib Require Import ZArith Lia.
Open Scope string_scope.
Open Scope list_scope.
Open Scope urd_scope.

Module eventsource_spec.
Import persistence egopb tenancy eventsource.

(** ** What the user code and the protobuf library promise *)
Class LawfulDeps (D : Deps) := {
  any_state s : UnmarshalTo D (Some (anyOfState D s)) = Ok s;
  any_event e : UnmarshalNew D (Some (anyOfEvent D e)) = Ok e;
  proto_roundtrip x b : protoMarshal D x = Ok b -> protoUnmarshal D b = Ok x;
  decrypt_encrypt enc ctx pid b c k : encryptor D = Some enc -> Encrypt enc ctx pid b = Ok (c, k) ->
    forall ctx', Decrypt enc ctx' pid c k = Ok b;
  (** an adapter leaves events of the current schema alone *)
  adapt_current adapt e n : adapt ∈ eventAdapters D -> adapt (Some (anyOfEvent D e)) n = Ok (Some (anyOfEvent D e));
  (** the event handler is a function of the event and the state *)
  event_pure ctx ctx' e s : HandleEvent D ctx e s = HandleEvent D ctx' e s
}.

Section Entity.
Context {D : Deps} `{!LawfulDeps D}.

Abbreviation Actor := (Actor D).
Abbreviation State := (State D).

(** ** Envelopes and their replay *)
Definition numbered (n : N) (l : list Event) : Prop :=
  forall i e, l !! i = Some e -> SequenceNumber e = (n + 1 + N.of_nat i)%N.

(** The envelope [env] holds the domain event [e] in the form an actor
    configured like [c], bound to the tenant [tc], reads back. *)
Record carries (c : Config) (tc : TenantContext) (e : DomainEvent D) (env : Event) : Prop := {
  car_pid : PersistenceId env = persistenceID c;
  car_tenant : tenantAware c = true -> UnmarshalMetadata (TenantMetadata env) = Ok tc;
  car_apply : forall (a : Actor) ctx s s', config D a = c -> (tenantAware c = true -> actorTenant D a = tc) ->
    HandleEvent D Background e s = Ok s' -> applyPersistedEvent D a ctx s env = Ok s'
}.

Definition evolve (s : State) (evs : list (DomainEvent D)) : result string State :=
  rfold (fun s e => HandleEvent D Background e s) s evs.

(** [l] continues a stream at [n] and takes state [s] to [s']. *)
Definition appended (c : Config) (tc : TenantContext) (n : N) (s : State) (l : list Event) (s' : State) : Prop :=
  numbered n l /\ exists evs, Forall2 (carries c tc) evs l /\ evolve s evs = Ok s'.

Lemma numbered_nil n : numbered n [].
Proof. by intros i e Hi. Qed.

Lemma numbered_app n l1 l2 : numbered n (l1 ++ l2) <-> numbered n l1 /\ numbered (n + N.of_nat (length l1)) l2.
Proof.
  split.
  - intros H. split; intros i e Hi.
    + apply H. by apply lookup_app_l_Some.
    + specialize (H (length l1 + i)%nat e). rewrite lookup_app_r in H by lia.
      replace (length l1 + i - length l1)%nat with i in H by lia. specialize (H Hi). lia.
  - intros [H1 H2] i e Hi. apply lookup_app_Some in Hi as [Hi|[Hge Hi]]; [by apply H1|].
    apply H2 in Hi. lia.
Qed.

Lemma appended_nil c tc n s : appended c tc n s [] s.
Proof. split; [apply numbered_nil|]. by exists []. Qed.

Lemma appended_app c tc n s l1 l2 s2 :
  appended c tc n s (l1 ++ l2) s2 <->
  exists s1, appended c tc n s l1 s1 /\ appended c tc (n + N.of_nat (length l1)) s1 l2 s2.
Proof.
  split.
  - intros ([N1 N2]%numbered_app & evs & Hf & He).
    apply Forall2_app_inv_r in Hf as (e1 & e2 & H1 & H2 & ->).
    unfold evolve in He. rewrite rfold_app in He. apply rbind_Ok in He as (s1 & E1 & E2).
    exists s1. split; split; eauto.
  - intros (s1 & (N1 & e1 & H1 & E1) & (N2 & e2 & H2 & E2)). split; [by apply numbered_app|].
    exists (e1 ++ e2). split; [by apply Forall2_app|]. unfold evolve in *. by rewrite rfold_app, E1.
Qed.

(** Replaying appended envelopes rebuilds the state. *)
Lemma appended_replay c tc n s l s' (a : Actor) ctx : appended c tc n s l s' ->
  config D a = c -> (tenantAware c = true -> actorTenant D a = tc) ->
  rfold (applyPersistedEvent D a ctx) s l = Ok s'.
Proof.
  intros (_ & evs & Hf & He) Hc Ht. revert s He.
  induction Hf as [|e env evs l Hcar Hf IH]; intros s He; unfold evolve in He; simpl in *.
  { by injection He as <-. }
  destruct (HandleEvent D Background e s) as [s1|] eqn:He1; [|done].
  rewrite (car_apply _ _ _ _ Hcar a ctx s s1 Hc Ht He1). simpl in *. by apply IH.
Qed.

Lemma adapters_current e n : Chain (eventAdapters D) (Some (anyOfEvent D e)) n = Ok (Some (anyOfEvent D e)).
Proof.
  unfold Chain. assert (forall adapt, adapt ∈ eventAdapters D -> adapt (Some (anyOfEvent D e)) n = Ok (Some (anyOfEvent D e))) as H
    by (intros; by apply adapt_current).
  induction (eventAdapters D) as [|f l IH]; [done|]. simpl. rewrite H by left. simpl. apply IH.
  intros. apply H. by right.
Qed.

(** What [marshalEvent] writes, [applyPersistedEvent] reads. *)
Lemma marshalEvent_carries (a0 : Actor) ctx tc n ts e env :
  marshalEvent D a0 ctx e tc n ts = Ok env -> (tenantAware (config D a0) = true -> tenancy.wf tc) ->
  SequenceNumber env = n /\ carries (config D a0) tc e env.
Proof.
  intros Hm Ht. unfold marshalEvent in Hm.
  apply rbind_Ok in Hm as ([[any kid] ienc] & Henc & [= <-]). split; [done|].
  assert (tenantAware (config D a0) = true ->
    UnmarshalMetadata (if tenantAware (config D a0) then MarshalMetadata tc else ∅) = Ok tc) as Hmd.
  { intros Ha. rewrite Ha. by apply UnmarshalMetadata_Marshal, Ht. }
  split; [done|done|]. intros a ctx' s s' Hc Hten Hs'. unfold applyPersistedEvent, wrap. simpl. rewrite Hc.
  match goal with |- rbind _ ?m = _ => assert (m = Ok tt) as -> end.
  { destruct (tenantAware _); [|done]. unfold unmarshalTenant. rewrite Hmd, Hten by done. simpl.
    by rewrite (proj2 (VerifyUnchanged_Ok tc tc tt)). }
  simpl.
  assert (decryptPayload D a ctx' (Some any) ienc kid = Ok (Some (anyOfEvent D e))) as ->.
  { unfold decryptPayload. destruct (encryptor D) as [enc|] eqn:E; [|by simplify_eq].
    unfold wrap in Henc.
    apply rbind_Ok in Henc as (b & Hb & Henc). apply rbind_Ok in Henc as ([ci k] & Hci & [= <- <- <-]).
    destruct (protoMarshal D (anyOfEvent D e)) as [b'|] eqn:Ep; simplify_eq/=.
    destruct (Encrypt enc ctx (pid D a0) b) as [[ci' k']|] eqn:Ee; simplify_eq/=.
    replace (pid D a) with (pid D a0) by (unfold pid; by rewrite Hc).
    rewrite (decrypt_encrypt _ _ _ _ _ _ E Ee). simpl. by rewrite (proto_roundtrip _ _ Ep). }
  simpl. rewrite adapters_current. destruct (eventAdapters D); simpl; rewrite any_event; simpl;
    by rewrite (event_pure ctx' Background), Hs'.
Qed.

Lemma buildEnvelopes_appended (a0 : Actor) ctx events tc s n ts envs s' n' :
  buildEnvelopes D a0 ctx events tc s n ts = Ok (envs, s', n') ->
  (n + N.of_nat (length events) < two64)%N -> (tenantAware (config D a0) = true -> tenancy.wf tc) ->
  appended (config D a0) tc n s envs s' /\ n' = (n + N.of_nat (length envs))%N /\ length envs = length events.
Proof.
  unfold buildEnvelopes. revert envs s' n'. induction events as [|e events IH] using rev_ind; intros envs s' n' H Hlt Hwf.
  { injection H as <- <- <-. split; [apply appended_nil|]. simpl. split; [lia|done]. }
  rewrite rfold_app in H. apply rbind_Ok in H as ([[envs1 s1] n1] & H1 & H2). rewrite length_app in Hlt. simpl in Hlt.
  destruct (IH _ _ _ H1) as (Happ & -> & Hlen); [lia|done|]. simpl in H2.
  apply rbind_Ok in H2 as ([[envs2 s2] n2] & H2 & [= <- <- <-]).
  apply rbind_Ok in H2 as (s3 & Hs & H2). apply rbind_Ok in H2 as (env & Hm & [= <- <- <-]).
  destruct (HandleEvent D ctx e s1) as [s3'|] eqn:He; simplify_eq/=.
  rewrite u64_succ_small in Hm |- * by lia. apply marshalEvent_carries in Hm as [Hsn Hcar]; [|done].
  split_and!.
  - apply appended_app. exists s1. split; [done|]. split.
    + intros i x Hx. destruct i as [|i]; simpl in Hx; [|by destruct i]. injection Hx as <-. lia.
    + exists [e]. split; [constructor; [done|apply Forall2_nil_2]|]. unfold evolve. simpl.
      by rewrite (event_pure Background ctx), He.
  - rewrite length_app. simpl. lia.
  - rewrite !length_app, Hlen. done.
Qed.

Lemma marshalEvent_seq (a : Actor) ctx tc n ts e env :
  marshalEvent D a ctx e tc n ts = Ok env -> SequenceNumber env = n /\ PersistenceId env = pid D a.
Proof. unfold marshalEvent. by intros ([[any kid] ienc] & _ & [= <-])%rbind_Ok. Qed.

(** The envelopes of a command are numbered from its starting counter. *)
Lemma buildEnvelopes_numbered (a0 : Actor) ctx events tc s n ts envs s' n' :
  buildEnvelopes D a0 ctx events tc s n ts = Ok (envs, s', n') -> (n + N.of_nat (length events) < two64)%N ->
  numbered n envs /\ n' = (n + N.of_nat (length envs))%N /\ length envs = length events.
Proof.
  unfold buildEnvelopes. revert envs s' n'. induction events as [|e events IH] using rev_ind; intros envs s' n' H Hlt.
  { injection H as <- <- <-. split_and!; [apply numbered_nil|simpl; lia|done]. }
  rewrite rfold_app in H. apply rbind_Ok in H as ([[envs1 s1] n1] & H1 & H2). rewrite length_app in Hlt. simpl in Hlt.
  destruct (IH _ _ _ H1) as (Hnum & -> & Hlen); [lia|]. simpl in H2.
  apply rbind_Ok in H2 as ([[envs2 s2] n2] & H2 & [= <- <- <-]).
  apply rbind_Ok in H2 as (s3 & Hs & H2). apply rbind_Ok in H2 as (env & Hm & [= <- <- <-]).
  rewrite u64_succ_small in Hm |- * by lia. apply marshalEvent_seq in Hm as [Hsn _].
  split_and!.
  - apply numbered_app. split; [done|]. intros [|i] x Hx; simpl in Hx; [|by destruct i]. injection Hx as <-. lia.
  - rewrite length_app. simpl. lia.
  - rewrite !length_app, Hlen. done.
Qed.

(** ** Histories in the stores *)
Section Stores.
Context {St Sn : Type} {ESO : api.EventsStore St} {ESL : api.EventsStoreLaws St}.
Context {SSO : api.SnapshotStore Sn} {SSL : api.SnapshotStoreLaws Sn}.

Abbreviation stream st c := (api.view (St := St) st (scope c) (persistenceID c)).

(** The events store holds the history [h] of the entity, less the first [d]
    events that retention deleted. *)
Record stored (st : St) (c : Config) (h : list Event) (d : N) : Prop := {
  st_ok : api.store_ok st;
  st_records k e : api.records (default api.noStream (stream st c)) !! k = Some e <->
    (d < k)%N /\ h !! N.to_nat (N.pred k) = Some e;
  st_revision : match h with
    | [] => stream st c = None
    | _ => exists s, stream st c = Some s /\ api.srevision s = N.of_nat (length h)
    end;
  st_deleted : (d <= N.of_nat (length h))%N;
  st_bounded : (N.of_nat (length h) <= api.max_int)%N
}.

(** The snapshot [s] restores to the state [x]. *)
Definition snapshot_holds (c : Config) (tc : TenantContext) (s : Snapshot) (x : State) : Prop :=
  (exists any, sState s = Some any) /\
  (tenantAware c = true -> UnmarshalMetadata (sTenantMetadata s) = Ok tc) /\
  forall (a : Actor) ctx, config D a = c -> exists any,
    decryptPayload D a ctx (sState s) (sIsEncrypted s) (sEncryptionKeyId s) = Ok any /\ UnmarshalTo D any = Ok x.

(** Every snapshot is the state after the prefix of the history it names. *)
Record snapshots_ok (sn : Sn) (c : Config) (tc : TenantContext) (h : list Event) : Prop := {
  sn_ok : api.snap_ok sn;
  sn_each k s : api.sview sn (scope c) (persistenceID c) !! k = Some s ->
    (0 < k <= N.of_nat (length h))%N /\
    exists x, appended c tc 0 (InitialState D) (take (N.to_nat k) h) x /\ snapshot_holds c tc s x
}.

(** There is a snapshot at [j] or later. *)
Definition snapshot_from (sn : Sn) (c : Config) (j : N) : Prop :=
  exists k s, api.sview sn (scope c) (persistenceID c) !! k = Some s /\ (j <= k)%N.

(** Deleted events are covered by a snapshot. *)
Definition covered (sn : Sn) (c : Config) (d : N) : Prop :=
  d = 0%N \/ (hasSnapshotStore c = true /\ snapshot_from sn c d).

Lemma appended_unique c tc n s l s1 s2 (a : Actor) : config D a = c ->
  (tenantAware c = true -> actorTenant D a = tc) ->
  appended c tc n s l s1 -> appended c tc n s l s2 -> s1 = s2.
Proof.
  intros Hc Ht H1 H2. apply (appended_replay _ _ _ _ _ _ a Background) in H1; [|done..].
  apply (appended_replay _ _ _ _ _ _ a Background) in H2; [|done..]. congruence.
Qed.

Lemma numbered_sorted n l : numbered n l -> StronglySorted api.seq_lt l.
Proof.
  revert n. induction l as [|e l IH]; intros n Hn; [constructor|].
  change (e :: l) with ([e] ++ l) in Hn. apply numbered_app in Hn as [H1 H2]. simpl in H2.
  constructor; [by eapply IH|]. apply Forall_forall. intros x [i Hi]%list_elem_of_lookup.
  apply H2 in Hi. specialize (H1 0%nat e eq_refl). unfold api.seq_lt. lia.
Qed.

(** What replaying from position [k] reads. *)
Lemma stored_range st c h d k : stored st c h d -> numbered 0 h -> (d <= k)%N ->
  api.range_of (stream st c) (k + 1) (N.of_nat (length h)) (drop (N.to_nat k) h).
Proof.
  intros Hst Hn Hd.
  pose proof Hn as Hn'. rewrite <- (take_drop (N.to_nat k) h) in Hn'. apply numbered_app in Hn' as [_ Hn'].
  split; [by eapply numbered_sorted|]. intros e. rewrite (st_records _ _ _ _ Hst). split.
  - intros [i Hi]%list_elem_of_lookup. rewrite lookup_drop in Hi. pose proof (Hn _ _ Hi) as Hsn.
    pose proof (lookup_lt_Some _ _ _ Hi). rewrite Hsn.
    replace (N.to_nat (N.pred (0 + 1 + N.of_nat (N.to_nat k + i)))) with (N.to_nat k + i)%nat by lia.
    split; [lia|]. split; [lia|done].
  - intros [Hr [_ Hi]]. apply list_elem_of_lookup. exists (N.to_nat (N.pred (SequenceNumber e)) - N.to_nat k)%nat.
    rewrite lookup_drop. rewrite <- Hi. f_equal. lia.
Qed.

Lemma stored_latest st c h d r : stored st c h d -> numbered 0 h -> api.latest_of (stream st c) r ->
  match r with
  | None => d = N.of_nat (length h)
  | Some e => h !! Nat.pred (length h) = Some e /\ SequenceNumber e = N.of_nat (length h) /\ (d < N.of_nat (length h))%N
  end.
Proof.
  intros Hst Hn Hl. pose proof (st_deleted _ _ _ _ Hst) as Hd.
  assert (forall n, (d < n <= N.of_nat (length h))%N ->
    exists e, api.records (default api.noStream (stream st c)) !! n = Some e /\ SequenceNumber e = n) as Hall.
  { intros n Hr. destruct (lookup_lt_is_Some_2 h (N.to_nat (N.pred n))) as [e He]; [lia|].
    exists e. split; [apply (st_records _ _ _ _ Hst); split; [lia|done]|]. apply Hn in He. lia. }
  destruct r as [e|]; simpl in Hl.
  - destruct Hl as [Hrec Hmax]. apply (st_records _ _ _ _ Hst) in Hrec as [Hlt He].
    pose proof (lookup_lt_Some _ _ _ He). pose proof (Hn _ _ He) as Hsn.
    destruct (Hall (N.of_nat (length h))) as (e' & He' & Hsn'); [lia|].
    specialize (Hmax _ _ He'). assert (SequenceNumber e = N.of_nat (length h)) as Heq by lia.
    split_and!; [|done|lia]. rewrite <- He. f_equal. lia.
  - destruct (decide (d < N.of_nat (length h))%N) as [Hlt|]; [|lia].
    destruct (Hall (N.of_nat (length h))) as (e & He & _); [lia|]. rewrite Hl in He. by rewrite lookup_empty in He.
Qed.

(** *** Writes extend the stored history *)
Lemma commit_numbered s n l : numbered n l -> (api.srevision (default api.noStream s) = n)%N ->
  api.srevision (api.commit s l) = (n + N.of_nat (length l))%N /\
  forall k, api.records (api.commit s l) !! k =
    if decide (n < k <= n + N.of_nat (length l))%N then l !! N.to_nat (k - n - 1)
    else api.records (default api.noStream s) !! k.
Proof.
  intros Hn Hrev. unfold api.commit. induction l as [|e l IH] using rev_ind.
  { simpl. split; [lia|]. intros k. case_decide; [lia|done]. }
  apply numbered_app in Hn as [Hn1 Hn2]. destruct (IH Hn1) as [IHr IHk]. rewrite foldl_snoc, length_app. simpl.
  pose proof (Hn2 0%nat e eq_refl) as He. simpl in He. split; [rewrite IHr; lia|].
  intros k. destruct (decide (k = SequenceNumber e)) as [->|Hne].
  - rewrite lookup_insert_eq. case_decide; [|lia]. rewrite lookup_app_r by lia.
    by replace (N.to_nat (SequenceNumber e - n - 1) - length l)%nat with 0%nat by lia.
  - rewrite lookup_insert_ne by done. rewrite IHk. repeat case_decide; try done; try lia.
    rewrite lookup_app_l by lia. done.
Qed.

Lemma of_pid_same (pid : string) l : Forall (fun e => PersistenceId e = pid) l -> api.of_pid pid l = l.
Proof.
  unfold api.of_pid. induction 1 as [|e l He Hl IH]; [done|]. rewrite filter_cons_True by done. by rewrite IH.
Qed.

Lemma stored_commit st c h d l p st' : stored st c h d -> l <> [] ->
  numbered (N.of_nat (length h)) l -> Forall (fun e => PersistenceId e = persistenceID c) l ->
  (N.of_nat (length (h ++ l)) <= api.max_int)%N ->
  api.WriteEvents st (scope c) l p = (Ok tt, st') -> stored st' c (h ++ l) d.
Proof.
  intros Hst Hne Hn Hp Hb Hw. destruct (api.write_ok _ _ _ _ _ (st_ok _ _ _ _ Hst) Hw) as (Hok & _ & _ & _ & Hv).
  specialize (Hv (scope c) (persistenceID c)). rewrite of_pid_same in Hv by done.
  rewrite decide_True in Hv by done.
  assert (api.srevision (default api.noStream (stream st c)) = N.of_nat (length h)) as Hrev.
  { pose proof (st_revision _ _ _ _ Hst) as Hr. destruct h; [by rewrite Hr|]. destruct Hr as (s & -> & Hs). done. }
  destruct (commit_numbered (stream st c) _ l Hn Hrev) as [Hr Hk]. rewrite length_app in Hb.
  split.
  - done.
  - intros k e. rewrite Hv. simpl. rewrite Hk, lookup_app. pose proof (st_deleted _ _ _ _ Hst) as Hd.
    pose proof (st_records _ _ _ _ Hst k e) as Hrec. case_decide as Hc.
    + rewrite (lookup_ge_None_2 h) by lia.
      replace (N.to_nat (N.pred k) - length h)%nat with (N.to_nat (k - N.of_nat (length h) - 1)) by lia.
      split; [intros ?; split; [lia|done]|by intros []].
    + rewrite Hrec. destruct (h !! N.to_nat (N.pred k)) as [x|] eqn:E; [done|].
      split; intros [Hd' Hx]; [done|]. exfalso. apply lookup_lt_Some in Hx. apply lookup_ge_None in E. lia.
  - destruct (h ++ l) as [|x r] eqn:E; [by destruct h|]. rewrite <- E. eexists. split; [exact Hv|]. rewrite Hr, length_app. lia.
  - rewrite length_app. pose proof (st_deleted _ _ _ _ Hst). lia.
  - by rewrite length_app.
Qed.

Lemma stored_delete st c h d to st' : stored st c h d -> (to <= N.of_nat (length h))%N ->
  api.DeleteEvents st (scope c) (persistenceID c) to = (Ok tt, st') -> stored st' c h (N.max d to).
Proof.
  intros Hst Hto Hdel. destruct (api.delete_ok _ _ _ _ _ (st_ok _ _ _ _ Hst) Hdel) as (Hok & _ & Hv).
  specialize (Hv (scope c) (persistenceID c)). rewrite decide_True in Hv by done.
  split; [done| | |pose proof (st_deleted _ _ _ _ Hst); lia|apply Hst].
  - intros k e. pose proof (st_records _ _ _ _ Hst k e) as Hrec. rewrite Hv.
    destruct (stream st c) as [s|]; simpl in *.
    + rewrite map_lookup_filter_Some, Hrec. simpl. split; [intros [[] ?]|intros []]; split_and?; try done; lia.
    + rewrite Hrec. rewrite lookup_empty in Hrec. split; [|intros [? ?]; split; [lia|done]].
      intros Hx. by apply Hrec in Hx.
  - pose proof (st_revision _ _ _ _ Hst) as Hr. rewrite Hv. destruct h; [by rewrite Hr|].
    destruct Hr as (s & -> & Hs). by eexists.
Qed.

(** ** Recovery *)
Section Recover.
Context (c : Config) (tc : TenantContext) (h : list Event) (d : N) (s : State) (st : St) (sn : Sn).
Hypothesis Hscope : wf_scope (scope c).
Hypothesis Hist : appended c tc 0 (InitialState D) h s.
Hypothesis Hst : stored st c h d.
Hypothesis Hsn : snapshots_ok sn c tc h.
Hypothesis Hcov : covered sn c d.
(** A freshly started actor, already bound to its tenant. *)
Context (a : Actor).
Hypothesis Hcfg : config D a = c.
Hypothesis Hctr : eventsCounter D a = 0%N.
Hypothesis Hten : tenantAware c = true -> actorTenant D a = tc.

Lemma seed_bound (a' : Actor) : config D a' = c -> actorTenant D a' = actorTenant D a ->
  tenantAware c = true -> seedActorTenant D a' tc = Ok a' \/ (seedActorTenant D a' tc = Ok (set_tenant D a' tc) /\ actorTenant D a' = tc).
Proof.
  intros Hc Ha Haw. unfold seedActorTenant. rewrite Hc, Haw. simpl. rewrite Ha, Hten by done.
  case_bool_decide; [by right|]. left. by rewrite (proj2 (VerifyUnchanged_Ok tc tc tt)).
Qed.

Definition restored (k : N) (x : State) (a' : Actor) : Prop :=
  config D a' = c /\ eventsCounter D a' = k /\ actorTenant D a' = actorTenant D a /\ phase D a' = phase D a /\
  batch D a' = batch D a /\ direct D a' = direct D a /\ cachedStateAny D a' = cachedStateAny D a /\
  appended c tc 0 (InitialState D) (take (N.to_nat k) h) x /\ (d <= k <= N.of_nat (length h))%N.

Lemma recoverFromSnapshot_spec ctx :
  (exists e, api.GetLatestSnapshot sn (scope c) (persistenceID c) = Err e /\
        recoverFromSnapshot D a sn ctx (InitialState D) = Err (EWrap "failed to load snapshot" (EStoreError e))) \/
  (hasSnapshotStore c = true -> exists a' x k, recoverFromSnapshot D a sn ctx (InitialState D) = Ok (a', x, (k + 1)%N) /\ restored k x a').
Proof.
  unfold recoverFromSnapshot. rewrite Hcfg. unfold pid. rewrite Hcfg.
  destruct (api.GetLatestSnapshot sn (scope c) (persistenceID c)) as [r|e] eqn:E; [right|left; eauto].
  intros Hhas. simpl. apply api.slatest_ok in E; [|apply Hsn|done].
  destruct r as [snap|]; simpl in E.
  - destruct E as [Hk Hmax]. destruct (sn_each _ _ _ _ Hsn _ _ Hk) as (Hrange & x & Happ & (any & Hany) & Hmd & Hdec).
    rewrite Hany. rewrite <- Hany.
    assert (exists a1, (if tenantAware c then rbind (fun t => seedActorTenant D a t) (wrap "failed to unmarshal snapshot tenant metadata" (unmarshalTenant (sTenantMetadata snap))) else Ok a) = Ok a1
      /\ config D a1 = c /\ actorTenant D a1 = actorTenant D a /\ phase D a1 = phase D a /\
      batch D a1 = batch D a /\ direct D a1 = direct D a /\ cachedStateAny D a1 = cachedStateAny D a) as (a1 & -> & Hc1 & Ht1 & Hrest).
    { pose proof (seed_bound a Hcfg eq_refl) as Hseed. destruct (tenantAware c) eqn:Haw; [|by exists a]. unfold unmarshalTenant. rewrite Hmd by done. simpl.
      destruct (Hseed eq_refl) as [->|[-> Htc]]; [by exists a|].
      exists (set_tenant D a tc). simpl. by rewrite <- Htc. }
    simpl. destruct (Hdec a1 ctx Hc1) as (any' & -> & Hun). simpl. rewrite Hun. simpl.
    pose proof (st_bounded _ _ _ _ Hst) as Hb. unfold api.max_int in Hb.
    rewrite u64_succ_small by (unfold two64; lia).
    eexists _, _, _. split; [done|]. unfold restored. simpl. destruct Hrest as (? & ? & ? & ?).
    split_and!; try done; try lia.
    destruct Hcov as [->|(_ & k' & s' & Hk' & Hd)]; [lia|]. apply Hmax in Hk'. lia.
  - exists a, (InitialState D), 0%N. split; [done|]. unfold restored. split_and!; try done; try lia.
    + simpl. apply appended_nil.
    + destruct Hcov as [->|(_ & k' & s' & Hk' & _)]; [lia|]. rewrite E in Hk'. by rewrite lookup_empty in Hk'.
Qed.

(** What a successful recovery produces. *)
Definition recovered (a' : Actor) : Prop :=
  config D a' = c /\ currentState D a' = s /\ eventsCounter D a' = N.of_nat (length h) /\
  (tenantAware c = true -> actorTenant D a' = tc) /\ phase D a' = phase D a /\
  batch D a' = batch D a /\ direct D a' = direct D a /\ cachedStateAny D a' = cachedStateAny D a.

Lemma restored_all k x a' : restored k x a' -> k = N.of_nat (length h) -> x = s.
Proof.
  intros (Hc & _ & _ & _ & _ & _ & _ & Happ & _) ->. rewrite take_ge in Happ by lia.
  by apply (appended_unique c tc 0 (InitialState D) h x s a).
Qed.

Lemma replay_rest ctx k x a' : restored k x a' -> (k < N.of_nat (length h))%N ->
  (exists e, api.ReplayEvents st (scope c) (persistenceID c) (k + 1) (N.of_nat (length h)) (N.of_nat (length h) - k) = Some (Err e)) \/
  replayEvents D a' st ctx x (k + 1) (N.of_nat (length h)) = Some (Ok s).
Proof.
  intros (Hc & _ & Ht & _ & _ & _ & _ & Happ & Hk) Hlt.
  pose proof (st_bounded _ _ _ _ Hst) as Hb.
  assert (u64_succ (u64_sub (N.of_nat (length h)) (k + 1)) = N.of_nat (length h) - k)%N as Hlim.
  { unfold api.max_int in Hb. rewrite u64_sub_ge, u64_succ_small by (unfold is_u64, two64; lia). lia. }
  unfold replayEvents. rewrite Hc, Hlim. unfold pid. rewrite Hc.
  destruct (api.ReplayEvents st _ _ _ _ _) as [[l|e]|] eqn:E; [|left; eauto|].
  - right. apply api.replay_ok in E as (all & Hrange & ->); [|apply Hst|lia].
    pose proof (api.range_of_unique _ _ _ _ _ Hrange (stored_range st c h d k Hst (proj1 Hist) (proj1 Hk))) as ->.
    rewrite take_ge by (rewrite length_drop; lia).
    destruct (proj1 (appended_app c tc 0 (InitialState D) (take (N.to_nat k) h) (drop (N.to_nat k) h) s)) as (x' & H1 & H2);
      [by rewrite take_drop|].
    assert (x' = x) as -> by (eapply (appended_unique c tc 0); [exact Hc| |exact H1|exact Happ]; by rewrite Ht).
    f_equal. eapply appended_replay; [exact H2|done|]. by rewrite Ht.
  - exfalso. eapply api.replay_total; [apply Hst| |exact E]. lia.
Qed.

(** The stores failed one of the reads recovery needs. *)
Definition read_failed (e : store_error) : Prop :=
  api.GetLatestSnapshot sn (scope c) (persistenceID c) = Err e \/
  api.GetLatestEvent st (scope c) (persistenceID c) = Err e \/
  exists from to limit, (limit <= api.max_int)%N /\
    api.ReplayEvents st (scope c) (persistenceID c) from to limit = Some (Err e).

Lemma recover_spec ctx :
  (exists e err, recover D a st sn ctx = Some (Err err) /\ cause err = EStoreError e /\ read_failed e) \/
  (exists a', recover D a st sn ctx = Some (Ok a') /\ recovered a').
Proof.
  unfold recover. rewrite Hcfg.
  set (seeded := if hasSnapshotStore c then _ else _).
  assert ((exists e err, seeded = Err err /\ cause err = EStoreError e /\ read_failed e) \/
    exists a' x k, seeded = Ok (a', x, (k + 1)%N) /\ restored k x a') as [(e & err & He & Hc & Hf)|(a1 & x & k & -> & Hres)].
  { unfold seeded. pose proof (recoverFromSnapshot_spec ctx) as Hr.
    destruct (hasSnapshotStore c) eqn:Hhas.
    - destruct Hr as [(e & He & ->)|Hr]; [left; eexists e, _; split; [done|split; [done|by left]]|]. right. by apply Hr.
    - right. exists a, (InitialState D), 0%N. split; [done|].
      unfold restored. split_and!; try done; try lia; [apply appended_nil|].
      destruct Hcov as [->|[Hno _]]; [lia|]. congruence. }
  { rewrite He. left. eexists _, _. split; [done|]. split; [exact Hc|exact Hf]. }
  pose proof Hres as (Hc1 & Hctr1 & Ht1 & Hph & Hba & Hdi & Hca & Happ & Hk).
  assert (forall a', config D a' = c -> actorTenant D a' = actorTenant D a -> phase D a' = phase D a ->
     batch D a' = batch D a -> direct D a' = direct D a -> cachedStateAny D a' = cachedStateAny D a ->
     eventsCounter D a' = N.of_nat (length h) -> recovered (set_state D a' s)) as Hrec.
  { intros a' E1 E2 E3 E4 E5 E6 E7. unfold recovered. simpl. rewrite E1, E2, E3, E4, E5, E6, E7. done. }
  rewrite Hc1. unfold pid. rewrite Hc1.
  destruct (api.GetLatestEvent st (scope c) (persistenceID c)) as [r|e] eqn:El;
    [|left; eexists e, _; split; [done|split; [done|right; by left]]].
  apply api.latest_ok in El; [|apply Hst].
  pose proof (stored_latest st c h d r Hst (proj1 Hist) El) as Hr. destruct r as [latest|].
  - destruct Hr as (Hlast & Hsn' & Hd).
    assert (exists a2, (if tenantAware c then rbind (fun t => seedActorTenant D a1 t) (wrap "failed to unmarshal event tenant metadata" (unmarshalTenant (TenantMetadata latest))) else Ok a1) = Ok a2 /\
      config D a2 = c /\ eventsCounter D a2 = k /\ actorTenant D a2 = actorTenant D a /\ phase D a2 = phase D a /\
      batch D a2 = batch D a /\ direct D a2 = direct D a /\ cachedStateAny D a2 = cachedStateAny D a)
      as (a2 & -> & Hc2 & Hctr2 & Ht2 & Hph2 & Hba2 & Hdi2 & Hca2).
    { pose proof (seed_bound a1 Hc1 Ht1) as Hseed.
      assert (tenantAware c = true -> UnmarshalMetadata (TenantMetadata latest) = Ok tc) as Hmd.
      { destruct Hist as (_ & evs & Hf & _).
        destruct (Forall2_lookup_r _ _ _ _ _ Hf Hlast) as (e & _ & Hcar). apply Hcar. }
      destruct (tenantAware c) eqn:Haw; [|by exists a1]. unfold unmarshalTenant. rewrite Hmd by done. simpl.
      destruct (Hseed eq_refl) as [->|[-> Htc]]; [by exists a1|].
      exists (set_tenant D a1 tc). simpl. split_and!; try done. by rewrite <- Htc. }
    rewrite Hsn'. destruct (N.leb_spec (k + 1) (N.of_nat (length h))).
    + assert (restored k x a2) as Hres2 by (unfold restored; split_and!; try done; lia).
      destruct (replay_rest ctx k x a2 Hres2) as [[e Herr]| ->]; [lia| |].
      * left. exists e, (EWrap "failed to replay events" (EStoreError e)). split; [|split; [|right; right; do 3 eexists; split; [|exact Herr]]];
          [|done|pose proof (st_bounded _ _ _ _ Hst); lia]. unfold replayEvents. rewrite Hc2. unfold pid. rewrite Hc2.
        pose proof (st_bounded _ _ _ _ Hst) as Hb. unfold api.max_int in Hb.
        rewrite u64_sub_ge, u64_succ_small by (unfold is_u64, two64; lia).
        replace (N.of_nat (length h) - (k + 1) + 1)%N with (N.of_nat (length h) - k)%N by lia. by rewrite Herr.
      * right. eexists. split; [done|]. by apply Hrec.
    + right. eexists. split; [done|]. assert (k = N.of_nat (length h)) as Hkn by lia.
      rewrite (restored_all k x a1 Hres Hkn). apply Hrec; try done. by rewrite Hctr2.
  - right. eexists. split; [done|]. assert (k = N.of_nat (length h)) as Hkn by lia.
    rewrite (restored_all k x a1 Hres Hkn). apply Hrec; try done. by rewrite Hctr1.
Qed.
End Recover.

(** ** Snapshots and retention *)

(** The stores hold the history in a form recovery can rebuild. *)
Definition recoverable (st : St) (sn : Sn) (c : Config) (tc : TenantContext) (h : list Event) : Prop :=
  exists d, stored st c h d /\ snapshots_ok sn c tc h /\ covered sn c d.

Lemma retry_inv {X E} (P : X -> Prop) (op : X -> result E unit * X) canceled n k x :
  P x -> (forall x, P x -> P (op x).2) -> P (retryWithBackoff op canceled n k x).2.
Proof.
  intros Hx Hop. revert k x Hx. induction n as [|n IH]; intros k x Hx; simpl;
    destruct (op x) as [[u|e] x'] eqn:Eop; simpl; pose proof (Hop _ Hx) as Hx'; rewrite Eop in Hx'; try done.
  destruct (canceled k); [done|]. by apply IH.
Qed.

Lemma retry_Ok {X E} (P : X -> Prop) (op : X -> result E unit * X) canceled n k x u x' :
  P x -> (forall x, P x -> P (op x).2) -> retryWithBackoff op canceled n k x = (Ok u, x') ->
  exists x0, P x0 /\ op x0 = (Ok u, x').
Proof.
  intros Hx Hop. revert k x Hx. induction n as [|n IH]; intros k x Hx; simpl;
    destruct (op x) as [[u'|e] x1] eqn:Eop; simpl; pose proof (Hop _ Hx) as Hx'; rewrite Eop in Hx'; try done.
  - intros [= -> ->]. eauto.
  - intros [= -> ->]. eauto.
  - destruct (canceled k); [done|]. by apply IH.
Qed.

(** The snapshot a child is asked to write: the state after the first [k]
    events of the history. *)
Record snapshot_request (c : Config) (tc : TenantContext) (h : list Event) (k : N) (s : Snapshot) : Prop := {
  sr_pid : sPersistenceId s = persistenceID c;
  sr_seq : sSequenceNumber s = k;
  sr_range : (0 < k <= N.of_nat (length h))%N;
  sr_state : exists x, appended c tc 0 (InitialState D) (take (N.to_nat k) h) x /\ sState s = Some (anyOfState D x);
  sr_plain : sIsEncrypted s = false;
  sr_tenant : tenantAware c = true -> UnmarshalMetadata (sTenantMetadata s) = Ok tc
}.

Lemma request_holds c tc h k s : snapshot_request c tc h k s ->
  exists x, appended c tc 0 (InitialState D) (take (N.to_nat k) h) x /\ snapshot_holds c tc s x.
Proof.
  intros [Hp Hseq Hr (x & Happ & Hx) Hpl Ht]. exists x. split; [done|]. split; [eauto|]. split; [done|].
  intros a ctx Hc. exists (Some (anyOfState D x)). rewrite Hx, Hpl. split; [|apply any_state].
  unfold decryptPayload. by destruct (encryptor D).
Qed.

Lemma encrypted_holds c tc h k s enc ctx state s' : snapshot_request c tc h k s -> encryptor D = Some enc ->
  sState s = Some state -> encryptSnapshotState D enc ctx s state = Ok s' ->
  sPersistenceId s' = persistenceID c /\ sSequenceNumber s' = k /\
  exists x, appended c tc 0 (InitialState D) (take (N.to_nat k) h) x /\ snapshot_holds c tc s' x.
Proof.
  intros [Hp Hseq Hr (x & Happ & Hx) Hpl Ht] Henc Hst He. rewrite Hx in Hst. injection Hst as <-.
  unfold encryptSnapshotState in He. apply rbind_Ok in He as (b & Hb & He).
  apply rbind_Ok in He as ([ci kid] & Hci & [= <-]). simpl. split_and!; [done|done|].
  exists x. split; [done|]. split; [by eexists|]. split; [done|].
  intros a ctx' Hc. exists (Some (anyOfState D x)). split; [|apply any_state].
  unfold decryptPayload. rewrite Henc. simpl. unfold pid. rewrite Hc, <- Hp.
  rewrite (decrypt_encrypt _ _ _ _ _ _ Henc Hci). simpl. by rewrite (proto_roundtrip _ _ Hb).
Qed.

(** Writing a snapshot keeps the snapshots right, loses none, and on success
    leaves one at its position. *)
Lemma write_snapshot_ok sn c tc h k s sn' : wf_scope (scope c) -> snapshots_ok sn c tc h ->
  sPersistenceId s = persistenceID c -> sSequenceNumber s = k -> (0 < k <= N.of_nat (length h))%N ->
  (exists x, appended c tc 0 (InitialState D) (take (N.to_nat k) h) x /\ snapshot_holds c tc s x) ->
  api.WriteSnapshot sn (scope c) s = (Ok tt, sn') ->
  snapshots_ok sn' c tc h /\ snapshot_from sn' c k /\
  forall j, snapshot_from sn c j -> snapshot_from sn' c j.
Proof.
  intros Hsc [Hok Heach] Hp Hseq Hr Hx Hw. destruct (api.swrite_ok _ _ _ _ Hok Hsc Hw) as [Hok' Hv].
  specialize (Hv (scope c) (persistenceID c)). rewrite Hp, Hseq in Hv. rewrite decide_True in Hv by done.
  split_and!.
  - split; [done|]. intros k' s'. rewrite Hv. intros [[<- <-]|[_ Hs']]%lookup_insert_Some; [by split|by apply Heach].
  - exists k, s. by rewrite Hv, lookup_insert_eq.
  - intros j (k' & s' & Hs' & Hd). unfold snapshot_from. rewrite Hv.
    destruct (decide (k' = k)) as [->|Hne].
    + exists k, s. by rewrite lookup_insert_eq.
    + exists k', s'. by rewrite lookup_insert_ne.
Qed.

Lemma handlePersistSnapshot_ok sn c tc h k req ctx canceled : wf_scope (scope c) -> snapshots_ok sn c tc h ->
  snapshot_request c tc h k (snapshot req) -> ps_scope req = scope c ->
  let '(sn', r) := handlePersistSnapshot D sn ctx req canceled in
  snapshots_ok sn' c tc h /\ (forall j, snapshot_from sn c j -> snapshot_from sn' c j) /\
  match r with
  | Some r => retentionReq req = Some r /\ snapshot_from sn' c k
  | None => True
  end.
Proof.
  intros Hsc Hok Hreq Hps. unfold handlePersistSnapshot. rewrite Hps.
  set (prepared := match encryptor D with Some enc => _ | None => _ end).
  assert (forall s, prepared = Ok s -> sPersistenceId s = persistenceID c /\ sSequenceNumber s = k /\
    exists x, appended c tc 0 (InitialState D) (take (N.to_nat k) h) x /\ snapshot_holds c tc s x) as Hprep.
  { intros s. unfold prepared. pose proof (request_holds _ _ _ _ _ Hreq) as Hx.
    destruct (encryptor D) as [enc|] eqn:Henc; [destruct (sState (snapshot req)) as [state|] eqn:Hs|].
    - intros He. by eapply encrypted_holds.
    - intros [= <-]. by destruct Hreq.
    - intros [= <-]. by destruct Hreq. }
  destruct prepared as [s|]; [|done]. destruct (Hprep s eq_refl) as (Hp & Hseq & Hx).
  set (P := fun sn' => snapshots_ok sn' c tc h /\ forall j, snapshot_from sn c j -> snapshot_from sn' c j).
  assert (forall sn1, P sn1 -> P (api.WriteSnapshot sn1 (scope c) s).2) as Hstep.
  { intros sn1 [H1 H2]. destruct (api.WriteSnapshot sn1 (scope c) s) as [[[]|e] sn2] eqn:Hw; simpl.
    - destruct (write_snapshot_ok sn1 c tc h k s sn2 Hsc H1 Hp Hseq (sr_range _ _ _ _ _ Hreq) Hx Hw) as (? & _ & ?).
      split; auto.
    - apply api.swrite_err in Hw as ->; [done|apply H1]. }
  assert (P sn) as HP by by split.
  destruct (retryWithBackoff _ _ _ _ _) as [[[]|e] sn'] eqn:Ew.
  - destruct (retry_Ok P _ _ _ _ _ _ _ HP Hstep Ew) as (sn0 & [H1 H2] & Hw).
    destruct (write_snapshot_ok sn0 c tc h k s sn' Hsc H1 Hp Hseq (sr_range _ _ _ _ _ Hreq) Hx Hw) as (? & ? & ?).
    split_and!; [done|auto|]. by destruct (retentionReq req).
  - pose proof (retry_inv P _ canceled defaultMaxRetries 0 sn HP Hstep) as H'. rewrite Ew in H'. destruct H'. done.
Qed.

Record retention_request (c : Config) (k : N) (r : applyRetentionRequest) : Prop := {
  rr_pid : ar_persistenceID r = persistenceID c;
  rr_scope : ar_scope r = scope c;
  rr_counter : ar_eventsCounter r = k;
  rr_interval : (0 < ar_snapshotInterval r)%N
}.

(** Deleting snapshots below one that exists keeps a snapshot wherever there
    was one at or after. *)
Lemma delete_snapshots_ok sn c tc h k to sn' : wf_scope (scope c) -> snapshots_ok sn c tc h ->
  snapshot_from sn c k -> (to < k)%N ->
  api.DeleteSnapshots sn (scope c) (persistenceID c) to = (Ok tt, sn') ->
  snapshots_ok sn' c tc h /\ forall j, snapshot_from sn c j -> snapshot_from sn' c j.
Proof.
  intros Hsc [Hok Heach] (k0 & s0 & Hk0 & Hle) Hto Hdel. destruct (api.sdelete_ok _ _ _ _ _ Hok Hsc Hdel) as [Hok' Hv].
  specialize (Hv (scope c) (persistenceID c)). rewrite decide_True in Hv by done. split.
  - split; [done|]. intros k' s'. rewrite Hv. intros [? _]%map_lookup_filter_Some. by apply Heach.
  - intros j (k' & s' & Hk' & Hj). unfold snapshot_from. rewrite Hv. destruct (decide (to < k')%N) as [Hkeep|Hdrop].
    + exists k', s'. split; [by apply map_lookup_filter_Some|done].
    + exists k0, s0. split; [apply map_lookup_filter_Some; simpl; split; [done|lia]|lia].
Qed.

Lemma handleApplyRetention_ok st sn c tc h k req c1 c2 : wf_scope (scope c) ->
  recoverable st sn c tc h -> hasSnapshotStore c = true -> retention_request c k req ->
  (k <= N.of_nat (length h))%N -> snapshot_from sn c k ->
  let '(st', sn') := handleApplyRetention st sn true req c1 c2 in
  recoverable st' sn' c tc h /\ forall j, snapshot_from sn c j -> snapshot_from sn' c j.
Proof.
  intros Hsc (d & Hst & Hsn & Hcov) Hhas [Hp Hs Hc Hi] Hkl Hk. unfold handleApplyRetention. rewrite Hp, Hs, Hc.
  pose proof (st_bounded _ _ _ _ Hst) as Hb. unfold api.max_int in Hb.
  set (del := if (0 <? ar_eventsRetentionCount req)%N then _ else k).
  assert (del <= k)%N as Hdel.
  { unfold del. destruct (0 <? _)%N; [|lia]. rewrite u64_sub_ge; unfold is_u64, two64; lia. }
  clearbody del.
  set (st' := if ar_deleteEventsOnSnapshot req then _ else st).
  assert (exists d', stored st' c h d' /\ (d' = d \/ d' <= k)%N) as (d' & Hst' & Hd').
  { unfold st'. destruct (ar_deleteEventsOnSnapshot req); [|eauto]. destruct (0 <? del)%N; [|eauto].
    apply (retry_inv (fun st1 => exists d', stored st1 c h d' /\ (d' = d \/ d' <= k)%N)); [eauto|].
    intros st1 (d1 & H1 & H2). destruct (api.DeleteEvents st1 (scope c) (persistenceID c) del) as [[[]|e] st2] eqn:Ed; simpl.
    - exists (N.max d1 del). split; [apply (stored_delete st1 c h d1 del); [done|lia|done]|].
      destruct (N.max_spec d1 del) as [[? ->]|[? ->]]; [lia|done].
    - apply api.delete_err in Ed as ->; [eauto|apply H1]. }
  clearbody st'.
  assert (covered sn c d') as Hcov'.
  { destruct Hd' as [->|Hd']; [done|]. right. split; [done|].
    destruct Hk as (k0 & s0 & ? & ?). exists k0, s0. split; [done|lia]. }
  set (sn' := if _ && _ && _ then _ else sn).
  assert (snapshots_ok sn' c tc h /\ forall j, snapshot_from sn c j -> snapshot_from sn' c j) as [Hsn' Hfrom].
  { unfold sn'. destruct (_ && _ && _) eqn:Eg; [|done]. bool_prop.
    apply (retry_inv (fun sn1 => snapshots_ok sn1 c tc h /\ forall j, snapshot_from sn c j -> snapshot_from sn1 c j)); [done|].
    intros sn1 [K1 K2].
    destruct (api.DeleteSnapshots sn1 _ _ _) as [[[]|e] sn2] eqn:Ed; simpl.
    - assert (u64_sub k (ar_snapshotInterval req) < k)%N as Hto by (rewrite u64_sub_ge; unfold is_u64, two64; lia).
      destruct (delete_snapshots_ok sn1 c tc h k _ sn2 Hsc K1 (K2 _ Hk) Hto Ed) as [K3 K4]. split; auto.
    - apply api.sdelete_err in Ed as ->; [done|apply K1]. }
  clearbody sn'. split; [|done]. exists d'. split_and!; [done..|].
  destruct Hcov' as [->|[_ ?]]; [by left|right; split; auto].
Qed.
End Stores.
End Entity.
End eventsource_spec.
