(* ===== verification/EventSourcedSystem.v ===== *)
(** * The event-sourced entity in its runtime

    The actor with its mailbox and stash, the asynchronous write in flight,
    the snapshot and retention children with their queues, and the stores, as
    a step relation that interleaves all of them. The runtime is what the
    code relies on of the actor library: messages are handled one at a time in
    mailbox order, [Stash] sets the current message aside, [UnstashAll] puts
    the stashed ones back in front of the mailbox in their order, and the
    result of a piped write arrives as a message. *)

From S2P Require Import Prelude GoStrings Tenancy Persistence Egopb StoreApi Command Protocol EventSourced EventSourcedSpec.
From Stdlib Require Import ZArith Lia.
Open Scope string_scope.
Open Scope list_scope.
Open Scope urd_scope.

Module eventsource_system.
Import persistence egopb tenancy eventsource eventsource_spec.

Section System.
Context {D : Deps} {LD : LawfulDeps D}.
Context {St Sn : Type} {ESO : api.EventsStore St} {ESL : api.EventsStoreLaws St}.
Context {SSO : api.SnapshotStore Sn} {SSL : api.SnapshotStoreLaws Sn}.

Abbreviation Actor := (Actor D).
Abbreviation State := (State D).
Abbreviation msg := (nat * message D)%type.

Record Sys := mkSys {
  actor : Actor;
  alive : bool;
  mailbox : list msg;
  stash : list msg;
  store : St;
  snaps : Sn;
  inflight : list persistEventsRequest;
  snapq : list persistSnapshotRequest;
  retq : list applyRetentionRequest;
  replies : list (nat * CommandReply);
  published : list Event;
  (** which commands the pending write was computed from, in order *)
  owners : list nat
}.

Definition apply_effect (m : msg) (x : Sys) (e : effect) : Sys :=
  let with_ al mb sh fl sq rp :=
    mkSys (actor x) al mb sh (store x) (snaps x) fl sq (retq x) rp (published x) (owners x) in
  match e with
  | Response r => with_ (alive x) (mailbox x) (stash x) (inflight x) (snapq x) (replies x ++ [(m.1, r)])
  | Stash => with_ (alive x) (mailbox x) (stash x ++ [m]) (inflight x) (snapq x) (replies x)
  | UnstashAll => with_ (alive x) (stash x ++ mailbox x) [] (inflight x) (snapq x) (replies x)
  | PipeTo req => with_ (alive x) (mailbox x) (stash x) (inflight x ++ [req]) (snapq x) (replies x)
  | Tell req => with_ (alive x) (mailbox x) (stash x) (inflight x) (snapq x ++ [req]) (replies x)
  | Shutdown => with_ false (mailbox x) (stash x) (inflight x) (snapq x) (replies x)
  | ResponseBinding _ | Unhandled => x
  end.

(** A command joins the pending write when it starts a direct write or adds
    an entry to the batch. *)
Definition joins (a a' : Actor) : bool :=
  match phase D a, phase D a' with
  | phaseProcessing, phasePersisting => true
  | _, _ => (length (batchEntries D (batch D a)) <? length (batchEntries D (batch D a')))%nat
  end.

Definition idle (a : Actor) : bool :=
  match phase D a, batchEntries D (batch D a) with phaseProcessing, [] => true | _, _ => false end.

Definition deliver (x : Sys) (m : msg) (rest : list msg) (T : Times) : Sys :=
  let '(a', effs) := Receive D (actor x) m.2 T in
  let owners' := if idle a' then [] else if joins (actor x) a' then owners x ++ [m.1] else owners x in
  foldl (apply_effect m)
    (mkSys a' (alive x) rest (stash x) (store x) (snaps x) (inflight x) (snapq x) (retq x)
       (replies x) (published x) owners') effs.

(** Sequence numbers have not run out: the command's events still fit. *)
Definition fits (a : Actor) (m : message D) (T : Times) : Prop :=
  match m with
  | MCommand ctx cmd =>
    match dispatchToBehavior D ctx cmd (latestState D a) T with
    | Ok evs => (latestCounter D a + N.of_nat (length evs) <= api.max_int)%N
    | Err _ => True
    end
  | _ => True
  end.

Definition external (m : message D) : bool :=
  match m with MPersistResponse _ => false | _ => true end.

Inductive step : Sys -> Sys -> Prop :=
| step_arrive x id m : external m = true ->
    step x (mkSys (actor x) (alive x) (mailbox x ++ [(id, m)]) (stash x) (store x) (snaps x) (inflight x)
      (snapq x) (retq x) (replies x) (published x) (owners x))
| step_deliver x m rest T : alive x = true -> mailbox x = m :: rest -> fits (actor x) m.2 T ->
    step x (deliver x m rest T)
(** the events writer performs the write and its response arrives *)
| step_write x req fl r st' evs id : inflight x = req :: fl ->
    handlePersistEvents (store x) req = (r, st', evs) ->
    step x (mkSys (actor x) (alive x) (mailbox x ++ [(id, MPersistResponse r)]) (stash x) st' (snaps x) fl
      (snapq x) (retq x) (replies x) (published x ++ evs) (owners x))
(** the request to the writer fails before or after the write is performed *)
| step_write_lost x req fl text id : inflight x = req :: fl ->
    step x (mkSys (actor x) (alive x) (mailbox x ++ [(id, MPersistResponse (Some (EText text)))]) (stash x) (store x) (snaps x) fl
      (snapq x) (retq x) (replies x) (published x) (owners x))
| step_write_unacknowledged x req fl r st' evs text id : inflight x = req :: fl ->
    handlePersistEvents (store x) req = (r, st', evs) ->
    step x (mkSys (actor x) (alive x) (mailbox x ++ [(id, MPersistResponse (Some (EText text)))]) (stash x) st' (snaps x) fl
      (snapq x) (retq x) (replies x) (published x ++ evs) (owners x))
| step_snapshot x req q ctx canceled sn' r : snapq x = req :: q ->
    handlePersistSnapshot D (snaps x) ctx req canceled = (sn', r) ->
    step x (mkSys (actor x) (alive x) (mailbox x) (stash x) (store x) sn' (inflight x)
      q (retq x ++ match r with Some r => [r] | None => [] end) (replies x) (published x) (owners x))
| step_retain x req q c1 c2 st' sn' : retq x = req :: q ->
    handleApplyRetention (store x) (snaps x) true req c1 c2 = (st', sn') ->
    step x (mkSys (actor x) (alive x) (mailbox x) (stash x) st' sn' (inflight x)
      (snapq x) q (replies x) (published x) (owners x)).

(** ** The invariant *)
Section Invariant.
Context (c : Config) (tc : TenantContext).
Hypothesis Hscope : wf_scope (scope c).
Hypothesis Htenant : tenantAware c = true -> tenancy.wf tc.
Hypothesis Hwriter : hasSnapshotsWriter c = true -> hasSnapshotStore c = true.

(** The actor is at the state the history [h] replays to. *)
Record sync (a : Actor) (h : list Event) (s : State) : Prop := {
  sy_config : config D a = c;
  sy_state : currentState D a = s;
  sy_counter : eventsCounter D a = N.of_nat (length h);
  sy_tenant : tenantAware c = true -> actorTenant D a = tc;
  sy_cache : cachedStateAny D a = None \/ cachedStateAny D a = Some (anyOfState D s);
  sy_history : appended c tc 0 (InitialState D) h s
}.

Definition queued_snapshot (h : list Event) (r : persistSnapshotRequest) : Prop :=
  exists k, snapshot_request (D := D) c tc h k (snapshot r) /\ ps_scope r = scope c /\ hasSnapshotStore c = true /\
    forall rr, retentionReq r = Some rr -> retention_request c k rr.
Definition queued_retention (sn : Sn) (h : list Event) (r : applyRetentionRequest) : Prop :=
  exists k, retention_request c k r /\ (k <= N.of_nat (length h))%N /\ snapshot_from sn c k /\ hasSnapshotStore c = true.

(** The stores hold exactly the history [h], and what the children are asked
    to do is about it. *)
Record committed (x : Sys) (h : list Event) : Prop := {
  cm_replays : exists s, appended (D := D) c tc 0 (InitialState D) h s;
  cm_stored : recoverable (D := D) (store x) (snaps x) c tc h;
  cm_snapq : Forall (queued_snapshot h) (snapq x);
  cm_retq : Forall (queued_retention (snaps x) h) (retq x)
}.

Definition no_resp (l : list msg) : Prop := Forall (fun m => external m.2 = true) l.
Definition quiet (x : Sys) : Prop := inflight x = [] /\ no_resp (mailbox x).

(** The write of [l] is on its way, or its outcome is. *)
Definition flight (x : Sys) (H h l : list Event) : Prop :=
  (exists req, inflight x = [req] /\ envelopes req = l /\ rscope req = scope c /\ no_resp (mailbox x) /\ H = h) \/
  (inflight x = [] /\ exists pre id r post, mailbox x = pre ++ (id, MPersistResponse r) :: post /\
    no_resp pre /\ no_resp post /\
    match r with
    | None => H = h ++ l
    | Some e => H = h \/ (H = h ++ l /\ forall ce, cause e <> EStoreError (EConflict ce))
    end).

Definition pending_ok (h : list Event) (s : State) (l : list Event) (s' : State) (n : N) : Prop :=
  l <> [] /\ appended c tc (N.of_nat (length h)) s l s' /\ n = (N.of_nat (length (h ++ l)))%N /\ (n <= api.max_int)%N.

Definition batch_ok (a : Actor) (h : list Event) (s : State) : Prop :=
  shutdownOnDrain D (batch D a) = false /\
  match batchEntries D (batch D a) with
  | [] => batchBuffer D (batch D a) = []
  | _ => pending_ok h s (batchBuffer D (batch D a)) (batchState D (batch D a)) (batchCounter D (batch D a))
  end.

Definition direct_ok (a : Actor) : Prop :=
  batchEntries D (batch D a) = [] /\ directErr D (direct D a) = None /\ directShutdown D (direct D a) = false.

Definition phase_ok (x : Sys) (H h : list Event) (s : State) : Prop :=
  let a := actor x in
  if batchEnabled D a then
    match phase D a with
    | phaseProcessing => quiet x /\ H = h /\ batch_ok a h s
    | phaseFlushing => batch_ok a h s /\ batchEntries D (batch D a) <> [] /\ flight x H h (batchBuffer D (batch D a))
    | phaseReplying => quiet x /\ (h `prefix_of` H /\ (shutdownOnDrain D (batch D a) = false -> H = h)) /\
        (0 < remainingReplies D (batch D a) <= Z.of_nat (length (batchEntries D (batch D a))))%Z
    | _ => False
    end
  else
    match phase D a with
    | phaseProcessing => quiet x /\ H = h /\ direct_ok a
    | phasePersisting => direct_ok a /\ exists l,
        pending_ok h s l (directPendingState D (direct D a)) (directPendingCounter D (direct D a)) /\ flight x H h l
    | phaseDirectReplying => quiet x /\ batchEntries D (batch D a) = [] /\
        match directErr D (direct D a) with
        | None => H = h /\ directShutdown D (direct D a) = false
        | Some _ => h `prefix_of` H /\ (directShutdown D (direct D a) = false -> H = h)
        end
    | _ => False
    end.

Record Inv (x : Sys) (H : list Event) : Prop := {
  inv_committed : committed x H;
  inv_stash : no_resp (stash x);
  inv_dead : alive x = false -> inflight x = [];
  inv_alive : alive x = true -> exists h s, sync (actor x) h s /\ phase_ok x H h s
}.

(** ** A longer history *)
Lemma take_prefix (h l : list Event) k : (k <= N.of_nat (length h))%N -> take (N.to_nat k) (h ++ l) = take (N.to_nat k) h.
Proof. intros. apply take_app_le. lia. Qed.

Lemma snapshot_request_app h l k r : snapshot_request (D := D) c tc h k r -> snapshot_request (D := D) c tc (h ++ l) k r.
Proof.
  intros [Hp Hs Hr Hx Hpl Ht]. split; try done.
  - rewrite length_app. lia.
  - by rewrite take_prefix by lia.
Qed.

Lemma queued_snapshot_app h l r : queued_snapshot h r -> queued_snapshot (h ++ l) r.
Proof. intros (k & Hr & ?). exists k. split; [by apply snapshot_request_app|done]. Qed.

Lemma queued_retention_app sn h l r : queued_retention sn h r -> queued_retention sn (h ++ l) r.
Proof. intros (k & ? & ? & ?). exists k. rewrite length_app. split_and!; try done; [lia|by destruct H1..]. Qed.

Lemma snapshots_ok_app (sn : Sn) h l : snapshots_ok (D := D) sn c tc h -> snapshots_ok (D := D) sn c tc (h ++ l).
Proof.
  intros [Hok He]. split; [done|]. intros k r Hr. destruct (He _ _ Hr) as [Hk Hx].
  rewrite length_app, take_prefix by lia. split; [lia|done].
Qed.

Lemma appended_pid n s l s' : appended (D := D) c tc n s l s' -> Forall (fun e => PersistenceId e = persistenceID c) l.
Proof.
  intros (_ & evs & Hf & _). induction Hf as [|e env evs l Hc Hf IH]; [constructor|].
  constructor; [apply Hc|done].
Qed.

Lemma recoverable_commit st sn h s l s' n p st' :
  recoverable (D := D) st sn c tc h -> pending_ok h s l s' n ->
  api.WriteEvents st (scope c) l p = (Ok tt, st') -> recoverable (D := D) st' sn c tc (h ++ l).
Proof.
  intros (d & Hst & Hsn & Hcov) (Hne & Happ & Hn & Hb) Hw. exists d. split_and!; [|by apply snapshots_ok_app|done].
  eapply stored_commit; [exact Hst|done|apply Happ|by eapply appended_pid|lia|done].
Qed.

(** ** What a command does to an actor that is in step with the store *)
Section Handlers.
Context (a : Actor) (h : list Event) (s : State).
Hypothesis Hsync : sync a h s.

Lemma wf_not_none t : tenancy.wf t -> t <> noTenantContext.
Proof. by destruct 1. Qed.

Lemma tenantGate_Ok ctx t : tenantGate D a ctx = Ok t -> tenantAware c = true -> t = tc.
Proof.
  destruct Hsync as [Hc _ _ Ht _ _]. unfold tenantGate. rewrite Hc. intros Hg Haw. rewrite Haw in Hg. simpl in Hg.
  apply rbind_Ok in Hg as (t' & Hreq & Hg). apply rbind_Ok in Hg as (u & Hv & [= ->]).
  rewrite Ht in Hv by done. rewrite bool_decide_eq_true_2 in Hv by (by apply wf_not_none, Htenant).
  destruct (VerifyUnchanged tc t) eqn:E; simplify_eq/=. symmetry. by eapply VerifyUnchanged_Ok.
Qed.

Lemma sync_core (a' : Actor) : config D a' = config D a -> currentState D a' = currentState D a ->
  eventsCounter D a' = eventsCounter D a -> actorTenant D a' = actorTenant D a ->
  (cachedStateAny D a' = cachedStateAny D a \/ cachedStateAny D a' = Some (currentStateAny D a)) -> sync a' h s.
Proof.
  destruct Hsync as [H1 H2 H3 H4 H5 H6]. intros E1 E2 E3 E4 E5.
  split; rewrite ?E1, ?E2, ?E3, ?E4; try done.
  destruct E5 as [->|E5]; [done|]. right. rewrite E5. unfold currentStateAny.
  destruct H5 as [->| ->]; [by rewrite H2|done].
Qed.

Lemma sync_establish t : (tenantAware c = true -> t = tc) -> sync (establishActorTenant D a t) h s /\
  batch D (establishActorTenant D a t) = batch D a /\ direct D (establishActorTenant D a t) = direct D a /\
  phase D (establishActorTenant D a t) = phase D a.
Proof.
  intros Ht. unfold establishActorTenant. destruct Hsync as [Hc Hs Hn Hten Hca Hh]. rewrite Hc.
  destruct (tenantAware c) eqn:Haw; simpl; [|done]. case_bool_decide as Hb; [|done].
  exfalso. rewrite Hten in Hb by done. by apply (wf_not_none tc (Htenant eq_refl)).
Qed.

(** What a handler reports without touching the write path. *)
Definition only_replies (a' : Actor) (effs : list effect) : Prop :=
  sync a' h s /\ phase D a' = phase D a /\ direct D a' = direct D a /\ flushTimer D a' = flushTimer D a /\
  batchBuffer D (batch D a') = batchBuffer D (batch D a) /\ batchEntries D (batch D a') = batchEntries D (batch D a) /\
  batchState D (batch D a') = batchState D (batch D a) /\ batchCounter D (batch D a') = batchCounter D (batch D a) /\
  shutdownOnDrain D (batch D a') = shutdownOnDrain D (batch D a) /\
  remainingReplies D (batch D a') = remainingReplies D (batch D a) /\
  exists r, effs = [Response r].

Lemma reply_error e : only_replies (sendErrorReply D a e).1 (sendErrorReply D a e).2.
Proof. unfold only_replies. split_and!; try done. eauto. Qed.

Lemma reply_state : only_replies (sendStateReply D a).1 (sendStateReply D a).2.
Proof. unfold only_replies. split_and!; try done; [apply sync_core; auto|eauto]. Qed.

(** The outcome of a command on the direct path. *)
Definition starts_write (a' : Actor) (effs : list effect) : Prop :=
  sync a' h s /\ phase D a' = phasePersisting /\ batch D a' = batch D a /\
  directErr D (direct D a') = directErr D (direct D a) /\ directShutdown D (direct D a') = directShutdown D (direct D a) /\
  exists l req, effs = [Stash; PipeTo req] /\ envelopes req = l /\ rscope req = scope c /\
    pending_ok h s l (directPendingState D (direct D a')) (directPendingCounter D (direct D a')).

Lemma events_pending ctx evs t st ctr ts l s' n' base sb :
  buildEnvelopes D a ctx evs t st ctr ts = Ok (l, s', n') -> evs <> [] -> (tenantAware c = true -> t = tc) ->
  appended c tc (N.of_nat (length h)) s base sb -> st = sb -> ctr = N.of_nat (length (h ++ base)) ->
  (ctr + N.of_nat (length evs) <= api.max_int)%N ->
  pending_ok h s (base ++ l) s' n'.
Proof.
  intros Hb Hne Ht Hbase -> -> Hfit. destruct Hsync as [Hc _ _ _ _ _].
  assert (forall n, (n <= api.max_int)%N -> (n < two64)%N) as Hlt by (intros; unfold api.max_int, two64 in *; lia).
  destruct (buildEnvelopes_appended a ctx evs t sb _ ts l s' n' Hb (Hlt _ Hfit)) as (Happ & -> & Hlen).
  { rewrite Hc. intros Haw. rewrite Ht by done. by apply Htenant. }
  rewrite Hc in Happ. split_and!.
  - intros E. apply app_nil in E as [_ ->]. by destruct evs.
  - apply appended_app. exists sb. split; [done|]. rewrite length_app, Nat2N.inj_add in Happ.
    destruct (tenantAware c) eqn:Haw.
    + by rewrite (Ht eq_refl) in Happ.
    + destruct Happ as (Hnum & evs' & Hf & He). split; [done|]. exists evs'. split; [|done].
      eapply Forall2_impl; [exact Hf|]. intros x y [C1 C2 C3]. split; try done.
      * rewrite Haw. done.
      * intros a1 ctx1 s1 s2 Hc1 _ Hh. apply (C3 a1); [done| |done]. by rewrite Haw.
  - rewrite !length_app. lia.
  - rewrite Hlen. lia.
Qed.

Lemma processCommandAndReply_ok ctx cmd T : batchEntries D (batch D a) = [] ->
  fits a (MCommand ctx cmd) T -> let '(a', effs) := processCommandAndReply D a ctx cmd T in
  only_replies a' effs \/ starts_write a' effs.
Proof.
  intros Hentries Hfit. unfold fits, latestState, latestCounter in Hfit. rewrite Hentries in Hfit.
  unfold processCommandAndReply.
  destruct (tenantGate D a ctx) as [t|e] eqn:Hg; [|left; apply reply_error].
  destruct (protocol.CheckDeadline _ _ _); [left; apply reply_error|].
  destruct (dispatchToBehavior D ctx cmd (currentState D a) T) as [[|ev evs]|m] eqn:Hd;
    [left; apply reply_state| |left; apply reply_error].
  destruct (buildEnvelopes D a ctx (ev :: evs) t _ _ _) as [[[l s'] n']|e] eqn:Hb; [|left; apply reply_error].
  destruct (protocol.CheckDeadline _ _ _); [left; apply reply_error|].
  destruct (verifyTenantForPersist D a ctx); [|left; apply reply_error].
  destruct (protocol.ExpectedRevisionFromContext _ _ _ _) as [r b]. right.
  destruct (sync_establish t (tenantGate_Ok ctx t Hg)) as (Hs' & Hba & Hdi & Hph).
  unfold persistAsync, starts_write. simpl. rewrite Hdi. split_and!; try done.
  - destruct Hs' as [? ? ? ? ? ?]. by split.
  - eexists _, _. split_and!; [done|done|by rewrite (sy_config _ _ _ Hs')|].
    rewrite <- (app_nil_l l). eapply events_pending; [exact Hb|done|by apply (tenantGate_Ok ctx)|apply appended_nil| | |done].
    + apply Hsync.
    + rewrite app_nil_r. apply Hsync.
Qed.

(** The outcomes of a command on the batched path: besides replying, flush
    what is open and set the command aside, or join the batch, with or without
    a flush. *)
Definition flushes (a' : Actor) (effs : list effect) : Prop :=
  sync a' h s /\ phase D a' = phaseFlushing /\ batch D a' = batch D a /\ batchEntries D (batch D a) <> [] /\
  exists req, effs = [PipeTo req; Stash] /\ envelopes req = batchBuffer D (batch D a) /\ rscope req = scope c.

Definition joins_batch (a' : Actor) (effs : list effect) : Prop :=
  sync a' h s /\ batch_ok a' h s /\
  (exists r, batchEntries D (batch D a') = batchEntries D (batch D a) ++ [r]) /\
  ((phase D a' = phase D a /\ effs = [Stash]) \/
   (phase D a' = phaseFlushing /\ exists req, effs = [Stash; PipeTo req] /\
      envelopes req = batchBuffer D (batch D a') /\ rscope req = scope c)).

Lemma batch_base : batch_ok a h s -> exists base sb,
  batchBuffer D (batch D a) = base /\ appended c tc (N.of_nat (length h)) s base sb /\
  latestState D a = sb /\ latestCounter D a = N.of_nat (length (h ++ base)).
Proof.
  intros [_ Hb]. unfold latestState, latestCounter. destruct (batchEntries D (batch D a)).
  - exists [], s. rewrite app_nil_r. split_and!; [done|apply appended_nil|apply Hsync|apply Hsync].
  - destruct Hb as (_ & Happ & Hn & _). eexists _, _. split_and!; [done|exact Happ|done|done].
Qed.

Lemma processAndBatch_ok ctx cmd T : batch_ok a h s -> fits a (MCommand ctx cmd) T ->
  let '(a', effs) := processAndBatch D a ctx cmd T in
  only_replies a' effs \/ flushes a' effs \/ joins_batch a' effs.
Proof.
  intros Hbok Hfit. unfold fits in Hfit. destruct (batch_base Hbok) as (base & sb & Hbuf & Hbase & Hls & Hlc).
  unfold processAndBatch.
  destruct (tenantGate D a ctx) as [t|e] eqn:Hg; [|left; apply reply_error].
  destruct (protocol.CheckDeadline _ _ _); [left; apply reply_error|].
  destruct (protocol.ExpectedRevisionFromContext _ _ _ _) as [rev has] eqn:Hrev.
  set (openb := match batchEntries D (batch D a) with [] => false | _ => true end).
  destruct (openb && has && negb (rev =? latestCounter D a)%N) eqn:Hadm.
  { right. left. simpl. unfold flushes. simpl. split_and!; try done.
    - destruct Hsync as [? ? ? ? ? ?]. by split.
    - unfold openb in Hadm. by destruct (batchEntries D (batch D a)).
    - eexists. split_and!; [done|done|]. by rewrite (sy_config _ _ _ Hsync). }
  set (a1 := if openb && has then set_hasPrecondition D a else a).
  assert (config D a1 = config D a /\ currentState D a1 = currentState D a /\ eventsCounter D a1 = eventsCounter D a /\
    actorTenant D a1 = actorTenant D a /\ cachedStateAny D a1 = cachedStateAny D a /\ phase D a1 = phase D a /\
    direct D a1 = direct D a /\ flushTimer D a1 = flushTimer D a /\
    batchBuffer D (batch D a1) = batchBuffer D (batch D a) /\ batchEntries D (batch D a1) = batchEntries D (batch D a) /\
    batchState D (batch D a1) = batchState D (batch D a) /\ batchCounter D (batch D a1) = batchCounter D (batch D a) /\
    shutdownOnDrain D (batch D a1) = shutdownOnDrain D (batch D a) /\
    remainingReplies D (batch D a1) = remainingReplies D (batch D a))
    as (E1 & E2 & E3 & E4 & E5 & E6 & E7 & E8 & E9 & E10 & E11 & E12 & E13 & E14).
  { unfold a1. by destruct (openb && has). }
  assert (sync a1 h s) as Hs1 by (apply sync_core; auto). clearbody a1.
  assert (forall a2 r, config D a2 = config D a1 -> currentState D a2 = currentState D a1 -> eventsCounter D a2 = eventsCounter D a1 ->
    actorTenant D a2 = actorTenant D a1 -> sync a2 h s -> phase D a2 = phase D a1 -> direct D a2 = direct D a1 ->
    flushTimer D a2 = flushTimer D a1 -> batch D a2 = batch D a1 -> only_replies a2 [Response r]) as Hreply.
  { intros a2 r _ _ _ _ Hs2 Hp2 Hd2 Hf2 Hb2. unfold only_replies. rewrite Hb2, Hp2, Hd2, Hf2. split_and!; try done. eauto. }
  destruct (dispatchToBehavior D ctx cmd (latestState D a) T) as [[|ev evs]|m] eqn:Hd.
  - destruct openb; left; [by apply Hreply|]. apply Hreply; try done.
    destruct Hs1 as [K1 K2 K3 K4 K5 K6]. split; try done. right. simpl. unfold currentStateAny.
    destruct K5 as [->| ->]; [by rewrite K2|done].
  - destruct (buildEnvelopes D a1 ctx (ev :: evs) t _ _ _) as [[[l s'] n']|e] eqn:Hb; [|left; by apply Hreply].
    destruct (protocol.CheckDeadline _ _ _); [left; by apply Hreply|].
    assert (pending_ok h s (base ++ l) s' n') as Hp.
    { assert (buildEnvelopes D a ctx (ev :: evs) t (latestState D a) (latestCounter D a) (t_build T) = Ok (l, s', n')) as Hb'.
      { rewrite <- Hb. unfold buildEnvelopes. f_equal. unfold buildStep, marshalEvent, pid. by rewrite E1. }
      eapply events_pending; [exact Hb'|done|by apply (tenantGate_Ok ctx)|exact Hbase|done|done|done]. }
    set (a2 := establishActorTenant D a1 t).
    assert (sync a2 h s /\ batch D a2 = batch D a1 /\ phase D a2 = phase D a1) as (Hs2 & Hb2 & Hp2).
    { unfold a2, establishActorTenant. pose proof Hs1 as [K1 K2 K3 K4 K5 K6]. rewrite K1.
      destruct (tenantAware c) eqn:Haw; simpl; [|done]. case_bool_decide as Hbd; [|done].
      exfalso. rewrite K4 in Hbd by done. by apply (wf_not_none tc (Htenant eq_refl)). }
    clearbody a2.
    set (a3 := appendToBatch D a2 l s' n' (t_build T) (latestCounter D a) rev has).
    assert (sync a3 h s /\ batch_ok a3 h s /\ (exists r, batchEntries D (batch D a3) = batchEntries D (batch D a) ++ [r]) /\
      phase D a3 = phase D a) as (Hs3 & Hok3 & He3 & Hp3).
    { unfold a3. split_and!.
      - destruct Hs2 as [? ? ? ? ? ?]. by split.
      - split; simpl; rewrite Hb2; [by rewrite E13; apply Hbok|]. rewrite E9, Hbuf.
        destruct (batchEntries D (batch D a1) ++ _) eqn:En; [by destruct (batchEntries D (batch D a1))|done].
      - simpl. rewrite Hb2, E10. eauto.
      - simpl. by rewrite Hp2, E6. }
    clearbody a3. destruct (_ <=? _)%Z; right; right; unfold joins_batch; simpl.
    + split_and!.
      * destruct Hs3 as [? ? ? ? ? ?]. by split.
      * done.
      * done.
      * right. split; [done|]. eexists. split_and!; [done|done|]. by rewrite (sy_config _ _ _ Hs3).
    + split_and!.
      * destruct Hs3 as [? ? ? ? ? ?]. by split.
      * done.
      * done.
      * by left.
  - left. by apply Hreply.
Qed.
End Handlers.

(** ** Preservation *)
Lemma snapshotAndRetain_ok (a : Actor) h s : sync a h s -> h <> [] -> hasSnapshotsWriter c = true ->
  (0 < snapshotInterval c)%N -> exists req, snapshotAndRetain D a = Tell req /\ queued_snapshot h req.
Proof.
  intros [Hc Hs Hn Ht Hca Hh] Hne Hw Hi. unfold snapshotAndRetain. rewrite Hc. eexists. split; [done|].
  exists (N.of_nat (length h)). split_and!; [|done|by apply Hwriter|].
  - split; simpl; try done.
    + unfold pid. by rewrite Hc.
    + destruct h; [done|]. simpl. lia.
    + exists s. rewrite take_ge by lia. split; [done|]. do 2 f_equal.
      unfold currentStateAny. destruct Hca as [->| ->]; [by rewrite Hs|done].
    + intros Haw. rewrite Hc, Haw, Ht by done. by apply UnmarshalMetadata_Marshal, Htenant.
  - simpl. intros rr. destruct (retention c); [|done]. destruct (hasJanitor c); [|done]. intros [= <-].
    split; simpl; try done. unfold pid. by rewrite Hc.
Qed.

(** The part of the actor [phase_ok] reads. *)
Definition same_write_path (a a' : Actor) : Prop :=
  config D a' = config D a /\ phase D a' = phase D a /\ direct D a' = direct D a /\
  batchBuffer D (batch D a') = batchBuffer D (batch D a) /\ batchEntries D (batch D a') = batchEntries D (batch D a) /\
  batchState D (batch D a') = batchState D (batch D a) /\ batchCounter D (batch D a') = batchCounter D (batch D a) /\
  shutdownOnDrain D (batch D a') = shutdownOnDrain D (batch D a) /\
  remainingReplies D (batch D a') = remainingReplies D (batch D a).

Lemma flight_tail x x' m H h l : flight x H h l -> inflight x' = inflight x -> mailbox x = m :: mailbox x' ->
  external m.2 = true -> flight x' H h l.
Proof.
  intros [(req & E1 & E2 & E3 & Hno & ->)|(E1 & pre & id & r & post & Hmb & Hpre & Hpost & Hr)] Hfl Hm Hext.
  - left. exists req. rewrite Hfl. rewrite Hm in Hno. apply Forall_cons in Hno as [_ Hno]. done.
  - right. split; [by rewrite Hfl|]. rewrite Hm in Hmb. destruct pre as [|m' pre]; simplify_eq/=.
    apply Forall_cons in Hpre as [_ Hpre]. by exists pre, id, r, post.
Qed.

Lemma phase_ok_frame x x' m H h s : phase_ok x H h s -> same_write_path (actor x) (actor x') ->
  inflight x' = inflight x -> mailbox x = m :: mailbox x' -> external m.2 = true -> phase_ok x' H h s.
Proof.
  intros Hp (E1 & E2 & E3 & E4 & E5 & E6 & E7 & E8 & E9) Hfl Hm Hext.
  assert (quiet x -> quiet x') as Hq.
  { intros [? Hno]. rewrite Hm in Hno. apply Forall_cons in Hno as [_ Hno]. split; [congruence|done]. }
  assert (forall l, flight x H h l -> flight x' H h l) as Hf by (intros; by eapply flight_tail).
  unfold phase_ok, batch_ok, direct_ok, batchEnabled in *. rewrite E1, E2, E3, E4, E5, E6, E7, E8, E9.
  destruct (0 <? _)%Z, (phase D (actor x)); try done.
  - destruct Hp as (? & ? & ?). auto.
  - destruct Hp as (? & ? & ?). auto.
  - destruct Hp as (? & ? & ?). auto.
  - destruct Hp as (? & ? & ?). auto.
  - destruct Hp as (? & l & ? & ?). split; [done|]. exists l. auto.
  - destruct Hp as (? & ? & ?). auto.
Qed.

Lemma committed_same x x' H : committed x H -> store x' = store x -> snaps x' = snaps x -> retq x' = retq x ->
  (exists q, snapq x' = snapq x ++ q /\ Forall (queued_snapshot H) q) -> committed x' H.
Proof.
  intros [C1 C2 C3] E1 E2 E3 (q & E4 & Hq). split; rewrite ?E1, ?E2, ?E3, ?E4; try done. by apply Forall_app.
Qed.

(** Delivering an external message whose handling leaves the write path alone:
    at most a reply, or the message is set aside. *)
Lemma deliver_frame x m rest T H a' effs : Inv x H -> alive x = true -> mailbox x = m :: rest -> external m.2 = true ->
  Receive D (actor x) m.2 T = (a', effs) ->
  (forall h s, sync (actor x) h s -> sync a' h s) -> same_write_path (actor x) a' ->
  (effs = [] \/ (exists r, effs = [Response r]) \/ (exists r, effs = [ResponseBinding r]) \/ effs = [Unhandled] \/ effs = [Stash]) ->
  Inv (deliver x m rest T) H.
Proof.
  intros [Ic Is Id Ia] Hal Hm Hext Hr Hsy Hsame Heff. unfold deliver. rewrite Hr.
  destruct (Ia Hal) as (h & s & Hs & Hp).
  set (ow := if idle a' then _ else _).
  destruct Heff as [->|[[r ->]|[[r ->]|[-> | ->]]]]; (split; simpl;
    [eapply committed_same; [exact Ic|try done..]; exists []; by rewrite app_nil_r
    |try (apply Forall_app; split; [done|by constructor]); done|done
    |intros _; exists h, s; split; [by apply Hsy|]; eapply (phase_ok_frame x _ m); eauto]).
Qed.

Lemma batchEnabled_config (a a' : Actor) : config D a' = config D a -> batchEnabled D a' = batchEnabled D a.
Proof. unfold batchEnabled. by intros ->. Qed.

Lemma sync_config (a a' : Actor) h s h' s' : sync a h s -> sync a' h' s' -> batchEnabled D a' = batchEnabled D a.
Proof. intros [E1 _ _ _ _ _] [E2 _ _ _ _ _]. apply batchEnabled_config. congruence. Qed.

Lemma tells_effect m x q effs :
  foldl (apply_effect m) x ((Tell <$> q) ++ effs) =
  foldl (apply_effect m) (mkSys (actor x) (alive x) (mailbox x) (stash x) (store x) (snaps x) (inflight x)
    (snapq x ++ q) (retq x) (replies x) (published x) (owners x)) effs.
Proof.
  revert x. induction q as [|req q IH]; intros x; simpl.
  - rewrite app_nil_r. by destruct x.
  - rewrite IH. simpl. by rewrite <- app_assoc.
Qed.

Ltac sys_parts :=
  split; simpl; [ | | | ].

(** *** Direct path *)
Lemma deliver_starts_write x m rest T H h s a' effs : Inv x H -> alive x = true -> mailbox x = m :: rest ->
  external m.2 = true -> batchEnabled D (actor x) = false -> phase D (actor x) = phaseProcessing ->
  sync (actor x) h s -> phase_ok x H h s ->
  Receive D (actor x) m.2 T = (a', effs) -> starts_write (actor x) h s a' effs -> Inv (deliver x m rest T) H.
Proof.
  intros [Ic Is Id Ia] Hal Hm Hext Hbe Hph Hs Hp Hr (Hs' & Hph' & Hba & Hde & Hds & l & req & -> & Hl & Hrs & Hpend).
  unfold phase_ok in Hp. rewrite Hbe, Hph in Hp. destruct Hp as ([Hfl Hno] & -> & Hent & Herr & Hsd).
  rewrite Hm in Hno. apply Forall_cons in Hno as [_ Hno].
  unfold deliver. rewrite Hr. simpl. sys_parts.
  - eapply committed_same; [exact Ic|done..|]. exists []. by rewrite app_nil_r.
  - apply Forall_app. split; [done|]. by constructor.
  - congruence.
  - intros _. exists h, s. split; [done|]. unfold phase_ok. simpl. rewrite (sync_config _ _ _ _ _ _ Hs Hs'), Hbe, Hph'.
    unfold direct_ok. rewrite Hba, Hde, Hds. split; [done|]. exists l. split; [done|]. left. exists req.
    rewrite Hfl. done.
Qed.

Lemma sync_confirm (a : Actor) h s l s' n ts : sync a h s -> pending_ok h s l s' n ->
  sync (applyConfirmedState D a s' n ts) (h ++ l) s'.
Proof.
  intros [Hc Hs Hn Ht Hca Hh] (Hne & Happ & -> & Hb). split; simpl; try done; [by right|].
  apply appended_app. exists s. split; [done|]. by rewrite N.add_0_l.
Qed.

Lemma sync_set_phase (a a' : Actor) h s : sync a h s -> config D a' = config D a -> currentState D a' = currentState D a ->
  eventsCounter D a' = eventsCounter D a -> actorTenant D a' = actorTenant D a -> cachedStateAny D a' = cachedStateAny D a ->
  sync a' h s.
Proof. intros [H1 H2 H3 H4 H5 H6] E1 E2 E3 E4 E5. split; rewrite ?E1, ?E2, ?E3, ?E4, ?E5; done. Qed.

(** The outcome of a write that reaches the actor. *)
Lemma flight_response x H h l id r rest : flight x H h l -> mailbox x = (id, MPersistResponse r) :: rest ->
  inflight x = [] /\ no_resp rest /\
  match r with None => H = h ++ l | Some e => H = h \/ (H = h ++ l /\ forall ce, cause e <> EStoreError (EConflict ce)) end.
Proof.
  intros [(req & _ & _ & _ & Hno & _)|(Hfl & pre & id' & r' & post & Hmb & Hpre & Hpost & Hr)] Hm.
  - rewrite Hm in Hno. by apply Forall_cons in Hno as [? _].
  - rewrite Hm in Hmb. destruct pre as [|m' pre]; simplify_eq/=; [done|]. by apply Forall_cons in Hpre as [? _].
Qed.

(** A failed write that leaves the actor alive was refused by the store. *)
Lemma survives_conflict (a : Actor) e : shouldStayAliveAfterConflict D a e = true -> exists ce, cause e = EStoreError (EConflict ce).
Proof. unfold shouldStayAliveAfterConflict. repeat case_match; naive_solver. Qed.

Lemma failed_outcome (a : Actor) e (H h l : list Event) :
  H = h \/ (H = h ++ l /\ forall ce, cause e <> EStoreError (EConflict ce)) ->
  h `prefix_of` H /\ (negb (shouldStayAliveAfterConflict D a e) = false -> H = h).
Proof.
  intros Hout. split; [destruct Hout as [->|[-> _]]; [done|by exists l]|].
  intros Hstay. apply negb_false_iff, survives_conflict in Hstay as [ce Hce].
  destruct Hout as [|[_ Hnc]]; [done|]. by destruct (Hnc ce).
Qed.

Lemma no_resp_app l1 l2 : no_resp l1 -> no_resp l2 -> no_resp (l1 ++ l2).
Proof. intros. by apply Forall_app. Qed.

Lemma deliver_direct_response x id r rest T H h s : Inv x H -> alive x = true ->
  mailbox x = (id, MPersistResponse r) :: rest -> batchEnabled D (actor x) = false ->
  phase D (actor x) = phasePersisting -> sync (actor x) h s -> phase_ok x H h s ->
  Inv (deliver x (id, MPersistResponse r) rest T) H.
Proof.
  intros [Ic Is Id Ia] Hal Hm Hbe Hph Hs Hp. unfold phase_ok in Hp. rewrite Hbe, Hph in Hp.
  destruct Hp as ((Hent & Herr & Hsd) & l & Hpend & Hfl).
  destruct (flight_response _ _ _ _ _ _ _ Hfl Hm) as (Hin & Hno & Hout).
  unfold deliver. simpl Receive. rewrite Hbe. unfold handleDirectPersistResponse. rewrite Hph.
  assert (forall a', config D a' = config D (actor x) -> batchEnabled D a' = false) as Hbe'.
  { intros a' E. by rewrite (batchEnabled_config _ _ E). }
  destruct r as [e|].
  - simpl. sys_parts.
    + eapply committed_same; [exact Ic|done..|]. exists []. by rewrite app_nil_r.
    + constructor.
    + congruence.
    + intros _. exists h, s. split; [by eapply sync_set_phase|].
      unfold phase_ok. simpl. rewrite Hbe' by done. split; [split; simpl; [done|by apply no_resp_app]|]. split; [done|].
      by eapply failed_outcome.
  - subst H. set (a1 := applyConfirmedState D (actor x) _ _ _).
    assert (sync a1 (h ++ l) (directPendingState D (direct D (actor x)))) as Hs1 by by eapply sync_confirm.
    assert (exists q, triggerSnapshotAndRetention D a1 = (Tell <$> q) /\ Forall (queued_snapshot (h ++ l)) q) as (q & Hq & Hqok).
    { unfold triggerSnapshotAndRetention. destruct (_ || _) eqn:Ho; [by exists []|]. bool_prop.
      rewrite (sy_config _ _ _ Hs1) in *.
      destruct (snapshotAndRetain_ok a1 _ _ Hs1) as (req & -> & Hreq); try done.
      - destruct Hpend as (Hne & _). intros E. by apply app_nil in E as [_ ->].
      - lia.
      - exists [req]. split; [done|]. by constructor. }
    rewrite Hq, tells_effect. simpl. sys_parts.
    + eapply committed_same; [exact Ic|done..|]. by exists q.
    + constructor.
    + congruence.
    + intros _. eexists _, _. split; [by eapply (sync_set_phase a1)|].
      unfold phase_ok. simpl. rewrite Hbe' by done. split_and!; try done. split; simpl; [done|by apply no_resp_app].
Qed.

Lemma deliver_reply_direct x id ctx cmd rest T H h s : Inv x H -> alive x = true ->
  mailbox x = (id, MCommand ctx cmd) :: rest -> batchEnabled D (actor x) = false ->
  phase D (actor x) = phaseDirectReplying -> sync (actor x) h s -> phase_ok x H h s ->
  Inv (deliver x (id, MCommand ctx cmd) rest T) H.
Proof.
  intros [Ic Is Id Ia] Hal Hm Hbe Hph Hs Hp. unfold phase_ok in Hp. rewrite Hbe, Hph in Hp.
  destruct Hp as ([Hfl Hno] & Hent & Hout). rewrite Hm in Hno. apply Forall_cons in Hno as [_ Hno].
  unfold deliver. simpl Receive. rewrite Hbe, Hph. unfold replyDirect. simpl.
  assert (forall a', config D a' = config D (actor x) -> batchEnabled D a' = false) as Hbe'.
  { intros a' E. by rewrite (batchEnabled_config _ _ E). }
  assert (forall y, store y = store x -> snaps y = snaps x -> retq y = retq x -> snapq y = snapq x -> committed y H) as Hcm.
  { intros y E1 E2 E3 E4. eapply committed_same; [exact Ic|done..|]. exists []. by rewrite app_nil_r. }
  destruct (directErr D (direct D (actor x))) as [e|] eqn:Herr.
  - destruct Hout as [_ Hout].
    destruct (directShutdown D (direct D (actor x))) eqn:Hsd; simpl; sys_parts; try (by apply Hcm); try (by constructor); try done.
    intros _. exists h, s. split; [by eapply sync_set_phase|].
    unfold phase_ok. simpl. rewrite Hbe' by done. split_and!; [split; simpl; [done|by apply no_resp_app]|auto|].
    by split_and!.
  - destruct Hout as [-> Hsd]. simpl. sys_parts; try (by apply Hcm); try (by constructor); try congruence.
    intros _. exists h, s. split.
    + eapply (sync_core (actor x)); [exact Hs|done..|]. by right.
    + unfold phase_ok. simpl. rewrite Hbe' by done. split_and!; [split; simpl; [done|by apply no_resp_app]|auto|].
      by split_and!.
Qed.

(** *** Batched path *)
Lemma deliver_flushes x m rest T H h s a' effs : Inv x H -> alive x = true -> mailbox x = m :: rest ->
  external m.2 = true -> batchEnabled D (actor x) = true -> phase D (actor x) = phaseProcessing ->
  sync (actor x) h s -> phase_ok x H h s ->
  Receive D (actor x) m.2 T = (a', effs) -> flushes (actor x) h s a' effs -> Inv (deliver x m rest T) H.
Proof.
  intros [Ic Is Id Ia] Hal Hm Hext Hbe Hph Hs Hp Hr (Hs' & Hph' & Hba & Hent & req & -> & Hl & Hrs).
  unfold phase_ok in Hp. rewrite Hbe, Hph in Hp. destruct Hp as ([Hfl Hno] & -> & Hbok).
  rewrite Hm in Hno. apply Forall_cons in Hno as [_ Hno].
  unfold deliver. rewrite Hr. simpl. sys_parts.
  - eapply committed_same; [exact Ic|done..|]. exists []. by rewrite app_nil_r.
  - apply no_resp_app; [done|]. by constructor.
  - congruence.
  - intros _. exists h, s. split; [done|]. unfold phase_ok. simpl. rewrite (sync_config _ _ _ _ _ _ Hs Hs'), Hbe, Hph'.
    unfold batch_ok. rewrite Hba. split_and!; [apply Hbok..|done|]. left. exists req. rewrite Hfl. done.
Qed.

Lemma deliver_joins x m rest T H h s a' effs : Inv x H -> alive x = true -> mailbox x = m :: rest ->
  external m.2 = true -> batchEnabled D (actor x) = true -> phase D (actor x) = phaseProcessing ->
  sync (actor x) h s -> phase_ok x H h s ->
  Receive D (actor x) m.2 T = (a', effs) -> joins_batch (actor x) h s a' effs -> Inv (deliver x m rest T) H.
Proof.
  intros [Ic Is Id Ia] Hal Hm Hext Hbe Hph Hs Hp Hr (Hs' & Hbok' & (r & Hent) & Hcase).
  unfold phase_ok in Hp. rewrite Hbe, Hph in Hp. destruct Hp as ([Hfl Hno] & -> & Hbok).
  rewrite Hm in Hno. apply Forall_cons in Hno as [_ Hno].
  assert (batchEntries D (batch D a') <> []) as Hne by (rewrite Hent; by destruct (batchEntries D (batch D (actor x)))).
  unfold deliver. rewrite Hr.
  destruct Hcase as [[Hph' ->]|(Hph' & req & -> & Hl & Hrs)]; simpl; sys_parts;
    try (eapply committed_same; [exact Ic|done..|]; exists []; by rewrite app_nil_r);
    try (apply no_resp_app; [done|]; by constructor); try congruence.
  - intros _. exists h, s. split; [done|]. unfold phase_ok. simpl. rewrite (sync_config _ _ _ _ _ _ Hs Hs'), Hbe, Hph', Hph.
    done.
  - intros _. exists h, s. split; [done|]. unfold phase_ok. simpl. rewrite (sync_config _ _ _ _ _ _ Hs Hs'), Hbe, Hph'.
    split_and!; [done..|]. left. exists req. rewrite Hfl. done.
Qed.

Lemma deliver_tick x id rest T H h s : Inv x H -> alive x = true -> mailbox x = (id, MBatchFlushTick) :: rest ->
  sync (actor x) h s -> phase_ok x H h s -> Inv (deliver x (id, MBatchFlushTick) rest T) H.
Proof.
  intros Hinv Hal Hm Hs Hp. 
  assert (forall a', a' = set_timer D (actor x) false -> Receive D (actor x) MBatchFlushTick T = (a', []) ->
    Inv (deliver x (id, MBatchFlushTick) rest T) H) as Hidle.
  { intros a' -> Hr. eapply deliver_frame; try done; [|by left].
    intros h' s' Hs'. by eapply sync_set_phase. }
  simpl Receive in Hidle. unfold handleBatchFlushTick in Hidle. simpl in Hidle.
  destruct (phase D (actor x)) eqn:Hph; try (by eapply Hidle).
  destruct (batchEntries D (batch D (actor x))) as [|en ents] eqn:Hent; [by eapply Hidle|].
  clear Hidle. destruct (batchEnabled D (actor x)) eqn:Hbe.
  2: { unfold phase_ok in Hp. rewrite Hbe, Hph in Hp. destruct Hp as (_ & _ & Hd & _). congruence. }
  destruct Hinv as [Ic Is Id Ia].
  unfold phase_ok in Hp. rewrite Hbe, Hph in Hp. destruct Hp as ([Hfl Hno] & -> & Hbok).
  rewrite Hm in Hno. apply Forall_cons in Hno as [_ Hno].
  unfold deliver. simpl Receive. unfold handleBatchFlushTick. simpl. rewrite Hph, Hent. simpl. sys_parts.
  - eapply committed_same; [exact Ic|done..|]. exists []. by rewrite app_nil_r.
  - done.
  - congruence.
  - intros _. exists h, s. split; [by eapply sync_set_phase|]. unfold phase_ok. simpl.
    rewrite (batchEnabled_config (actor x)) by done. rewrite Hbe. split_and!; [apply Hbok..|by rewrite Hent|].
    left. eexists. rewrite Hfl. split_and!; [done|done|by rewrite <- (sy_config _ _ _ Hs)|done|done].
Qed.

Lemma deliver_batch_response x id r rest T H h s : Inv x H -> alive x = true ->
  mailbox x = (id, MPersistResponse r) :: rest -> batchEnabled D (actor x) = true ->
  phase D (actor x) = phaseFlushing -> sync (actor x) h s -> phase_ok x H h s ->
  Inv (deliver x (id, MPersistResponse r) rest T) H.
Proof.
  intros [Ic Is Id Ia] Hal Hm Hbe Hph Hs Hp. unfold phase_ok in Hp. rewrite Hbe, Hph in Hp.
  destruct Hp as ([Hsd Hbok] & Hent & Hfl).
  destruct (flight_response _ _ _ _ _ _ _ Hfl Hm) as (Hin & Hno & Hout).
  assert (pending_ok h s (batchBuffer D (batch D (actor x))) (batchState D (batch D (actor x))) (batchCounter D (batch D (actor x)))) as Hpend.
  { destruct (batchEntries D (batch D (actor x))); done. }
  unfold deliver. simpl Receive. rewrite Hbe. unfold handleBatchPersistResponse. rewrite Hph.
  assert (forall a', config D a' = config D (actor x) -> batchEnabled D a' = true) as Hbe'.
  { intros a' E. by rewrite (batchEnabled_config _ _ E). }
  destruct r as [e|].
  - simpl. sys_parts.
    + eapply committed_same; [exact Ic|done..|]. exists []. by rewrite app_nil_r.
    + constructor.
    + congruence.
    + intros _. exists h, s. split; [by eapply sync_set_phase|].
      unfold phase_ok. simpl. rewrite Hbe' by done. split; [split; simpl; [done|by apply no_resp_app]|]. split; [|split].
      * by eapply failed_outcome.
      * destruct (batchEntries D (batch D (actor x))); simpl; [done|lia].
      * rewrite length_fmap. lia.
  - subst H. set (a1 := applyConfirmedState D (actor x) _ _ _).
    assert (sync a1 (h ++ batchBuffer D (batch D (actor x))) (batchState D (batch D (actor x)))) as Hs1 by by eapply sync_confirm.
    assert (exists q, (if crossedSnapshotBoundary D a1 (eventsCounter D (actor x)) then [snapshotAndRetain D a1] else []) = (Tell <$> q) /\
      Forall (queued_snapshot (h ++ batchBuffer D (batch D (actor x)))) q) as (q & Hq & Hqok).
    { unfold crossedSnapshotBoundary. destruct (_ || _) eqn:Ho; [by exists []|]. bool_prop.
      destruct (_ <? _)%N; [|by exists []]. rewrite (sy_config _ _ _ Hs1) in *.
      destruct (snapshotAndRetain_ok a1 _ _ Hs1) as (req & -> & Hreq); try done.
      - destruct Hpend as (Hne & _). intros E. apply app_nil in E as [_ E]. done.
      - lia.
      - exists [req]. split; [done|]. by constructor. }
    rewrite Hq, tells_effect. simpl. sys_parts.
    + eapply committed_same; [exact Ic|done..|]. by exists q.
    + constructor.
    + congruence.
    + intros _. eexists _, _. split; [by eapply (sync_set_phase a1)|].
      unfold phase_ok. simpl. rewrite Hbe' by done. split_and!; [split; simpl; [done|by apply no_resp_app]|done|done| |].
      * destruct (batchEntries D (batch D (actor x))); simpl; [done|lia].
      * lia.
Qed.

Lemma deliver_reply_batch x id ctx cmd rest T H h s : Inv x H -> alive x = true ->
  mailbox x = (id, MCommand ctx cmd) :: rest -> batchEnabled D (actor x) = true ->
  phase D (actor x) = phaseReplying -> sync (actor x) h s -> phase_ok x H h s ->
  Inv (deliver x (id, MCommand ctx cmd) rest T) H.
Proof.
  intros [Ic Is Id Ia] Hal Hm Hbe Hph Hs Hp. unfold phase_ok in Hp. rewrite Hbe, Hph in Hp.
  destruct Hp as ([Hfl Hno] & [Hpre Hsd] & Hrem). rewrite Hm in Hno. apply Forall_cons in Hno as [_ Hno].
  unfold deliver. simpl Receive. rewrite Hbe. unfold handleCommandBatched. rewrite Hph. unfold replyFromBatch.
  rewrite (proj2 (Z.leb_gt _ _)) by lia.
  assert (forall a', config D a' = config D (actor x) -> batchEnabled D a' = true) as Hbe'.
  { intros a' E. by rewrite (batchEnabled_config _ _ E). }
  assert (forall y, store y = store x -> snaps y = snaps x -> retq y = retq x -> snapq y = snapq x -> committed y H) as Hcm.
  { intros y E1 E2 E3 E4. eapply committed_same; [exact Ic|done..|]. exists []. by rewrite app_nil_r. }
  destruct (Z.eqb_spec (remainingReplies D (batch D (actor x)) - 1) 0) as [Hz|Hz].
  - destruct (shutdownOnDrain D (batch D (actor x))) eqn:Hdr; simpl; sys_parts; try (by apply Hcm); try done.
    intros _. exists h, s. split; [by eapply sync_set_phase|]. unfold phase_ok. simpl. rewrite Hbe' by done.
    split_and!; [by split|auto|by split].
  - simpl. sys_parts; [by apply Hcm|done|congruence|].
    intros _. exists h, s. split; [by eapply sync_set_phase|]. unfold phase_ok. simpl. rewrite Hbe' by done. rewrite Hph.
    split_and!; [by split|done|done|lia|lia].
Qed.

Lemma only_replies_same (a : Actor) h s a' effs : sync a h s -> only_replies a h s a' effs -> same_write_path a a'.
Proof.
  intros [Hc _ _ _ _ _] ([Hc' _ _ _ _ _] & ?). unfold same_write_path. rewrite Hc, Hc'. naive_solver.
Qed.

Lemma deliver_only_replies x m rest T H h s a' effs : Inv x H -> alive x = true -> mailbox x = m :: rest ->
  external m.2 = true -> sync (actor x) h s -> phase_ok x H h s ->
  Receive D (actor x) m.2 T = (a', effs) -> only_replies (actor x) h s a' effs -> Inv (deliver x m rest T) H.
Proof.
  intros [Ic Is Id Ia] Hal Hm Hext Hs Hp Hr Ho. pose proof (only_replies_same _ _ _ _ _ Hs Ho) as Hsame.
  destruct Ho as (Hs' & _ & _ & _ & _ & _ & _ & _ & _ & _ & r & ->).
  unfold deliver. rewrite Hr. simpl. sys_parts.
  - eapply committed_same; [exact Ic|done..|]. exists []. by rewrite app_nil_r.
  - done.
  - done.
  - intros _. exists h, s. split; [done|]. by eapply (phase_ok_frame x _ m).
Qed.

Lemma same_refl (a : Actor) : same_write_path a a.
Proof. done. Qed.

Lemma deliver_get_state x id ctx rest T H h s : Inv x H -> alive x = true -> mailbox x = (id, MGetState ctx) :: rest ->
  sync (actor x) h s -> phase_ok x H h s -> Inv (deliver x (id, MGetState ctx) rest T) H.
Proof.
  intros Hinv Hal Hm Hs Hp.
  destruct (handleGetStateCommand D (actor x) ctx) as [a' effs] eqn:Hr. pose proof Hr as Hr'.
  unfold handleGetStateCommand in Hr'. destruct (negb _ && _).
  - injection Hr' as <- <-. eapply deliver_frame; [done..|exact Hr|done|done|by do 4 right].
  - eapply deliver_only_replies; [done|done|done|done|done|done|exact Hr|].
    unfold getStateAndReply in Hr'. destruct (tenantGate D (actor x) ctx) as [t|e].
    + pose proof (reply_state _ _ _ Hs) as Ho. by rewrite Hr' in Ho.
    + pose proof (reply_error _ _ _ Hs e) as Ho. by rewrite Hr' in Ho.
Qed.

Lemma deliver_command_direct x id ctx cmd rest T H h s : Inv x H -> alive x = true ->
  mailbox x = (id, MCommand ctx cmd) :: rest -> fits (actor x) (MCommand ctx cmd) T -> batchEnabled D (actor x) = false ->
  sync (actor x) h s -> phase_ok x H h s -> Inv (deliver x (id, MCommand ctx cmd) rest T) H.
Proof.
  intros Hinv Hal Hm Hfit Hbe Hs Hp. pose proof Hp as Hp'. unfold phase_ok in Hp'. rewrite Hbe in Hp'.
  destruct (phase D (actor x)) eqn:Hph; try done.
  - destruct Hp' as (_ & _ & Hent & _).
    pose proof (processCommandAndReply_ok _ _ _ Hs ctx cmd T Hent Hfit) as Hok.
    destruct (processCommandAndReply D (actor x) ctx cmd T) as [a' effs] eqn:Hr.
    assert (Receive D (actor x) (MCommand ctx cmd) T = (a', effs)) as Hrec by (simpl; by rewrite Hbe, Hph).
    destruct Hok as [Ho|Ho]; [by eapply deliver_only_replies|by eapply deliver_starts_write].
  - eapply deliver_frame; [done..|simpl; by rewrite Hbe, Hph|done|done|by do 4 right].
  - by eapply deliver_reply_direct.
Qed.

Lemma deliver_command_batched x id ctx cmd rest T H h s : Inv x H -> alive x = true ->
  mailbox x = (id, MCommand ctx cmd) :: rest -> fits (actor x) (MCommand ctx cmd) T -> batchEnabled D (actor x) = true ->
  sync (actor x) h s -> phase_ok x H h s -> Inv (deliver x (id, MCommand ctx cmd) rest T) H.
Proof.
  intros Hinv Hal Hm Hfit Hbe Hs Hp. pose proof Hp as Hp'. unfold phase_ok in Hp'. rewrite Hbe in Hp'.
  destruct (phase D (actor x)) eqn:Hph; try done.
  - destruct Hp' as (_ & _ & Hbok).
    pose proof (processAndBatch_ok _ _ _ Hs ctx cmd T Hbok Hfit) as Hok.
    destruct (processAndBatch D (actor x) ctx cmd T) as [a' effs] eqn:Hr.
    assert (Receive D (actor x) (MCommand ctx cmd) T = (a', effs)) as Hrec
      by (simpl; rewrite Hbe; unfold handleCommandBatched; by rewrite Hph).
    destruct Hok as [Ho|[Ho|Ho]]; [by eapply deliver_only_replies|by eapply deliver_flushes|by eapply deliver_joins].
  - eapply deliver_frame; [done..|simpl; rewrite Hbe; unfold handleCommandBatched; by rewrite Hph|done|done|by do 4 right].
  - by eapply deliver_reply_batch.
Qed.

(** A response in the mailbox means a write was awaited. *)
Lemma response_phase x id r rest H h s : phase_ok x H h s -> mailbox x = (id, MPersistResponse r) :: rest ->
  if batchEnabled D (actor x) then phase D (actor x) = phaseFlushing else phase D (actor x) = phasePersisting.
Proof.
  intros Hp Hm. assert (quiet x -> False) as Hq.
  { intros [_ Hno]. rewrite Hm in Hno. by apply Forall_cons in Hno as [? _]. }
  unfold phase_ok in Hp. destruct (batchEnabled D (actor x)), (phase D (actor x)); naive_solver.
Qed.

Lemma deliver_inv x m rest T H : Inv x H -> alive x = true -> mailbox x = m :: rest -> fits (actor x) m.2 T ->
  Inv (deliver x m rest T) H.
Proof.
  intros Hinv Hal Hm Hfit. destruct (inv_alive _ _ Hinv Hal) as (h & s & Hs & Hp).
  destruct m as [id [ctx|tid| |r|ctx cmd|]].
  - by eapply deliver_get_state.
  - eapply deliver_frame; try done. right. right. left. by eexists.
  - by eapply deliver_tick.
  - pose proof (response_phase _ _ _ _ _ _ _ Hp Hm) as Hph. destruct (batchEnabled D (actor x)) eqn:Hbe;
      [by eapply deliver_batch_response|by eapply deliver_direct_response].
  - destruct (batchEnabled D (actor x)) eqn:Hbe; [by eapply deliver_command_batched|by eapply deliver_command_direct].
  - eapply deliver_frame; try done. do 3 right. by left.
Qed.

(** ** The steps of the environment *)
Lemma quiet_arrive x x' m : quiet x -> external m.2 = true -> inflight x' = inflight x -> mailbox x' = mailbox x ++ [m] -> quiet x'.
Proof. intros [Hq Hno] Hext E1 E2. split; [congruence|]. rewrite E2. apply no_resp_app; [done|]. by constructor. Qed.

Lemma flight_arrive x x' m H h l : flight x H h l -> external m.2 = true -> inflight x' = inflight x ->
  mailbox x' = mailbox x ++ [m] -> flight x' H h l.
Proof.
  intros [(req & E1 & E2 & E3 & Hno & ->)|(E1 & pre & id & r & post & Hmb & Hpre & Hpost & Hr)] Hext Hfl Hm.
  - left. exists req. rewrite Hfl, Hm. split_and!; try done. apply no_resp_app; [done|]. by constructor.
  - right. split; [by rewrite Hfl|]. exists pre, id, r, (post ++ [m]). rewrite Hm, Hmb, <- app_assoc.
    split_and!; try done. apply no_resp_app; [done|]. by constructor.
Qed.

(** [phase_ok] depends on the actor and, in the phases without and with a
    write, on [quiet] and [flight]. *)
Lemma phase_ok_env x x' H H' h s : phase_ok x H h s -> actor x' = actor x ->
  (quiet x -> quiet x' /\ H' = H) -> (forall l, flight x H h l -> l = [] \/ flight x' H' h l) -> phase_ok x' H' h s.
Proof.
  intros Hp Ha Hq Hf. unfold phase_ok in *. rewrite Ha.
  destruct (batchEnabled D (actor x)), (phase D (actor x)); try done.
  - destruct Hp as (K & -> & ?). destruct (Hq K) as [? ->]. done.
  - destruct Hp as (Hb & Hent & Hfl). destruct (Hf _ Hfl) as [E|]; [|done]. exfalso.
    destruct Hb as [_ Hb]. destruct (batchEntries D (batch D (actor x))); [done|]. by destruct Hb as (? & _).
  - destruct Hp as (K & ?). destruct (Hq K) as [? ->]. done.
  - destruct Hp as (K & -> & ?). destruct (Hq K) as [? ->]. done.
  - destruct Hp as (K & l & Hpend & Hfl). split; [done|]. exists l. split; [done|].
    destruct (Hf _ Hfl) as [E|]; [|done]. by destruct Hpend as (? & _).
  - destruct Hp as (K & ?). destruct (Hq K) as [? ->]. done.
Qed.

Lemma arrive_inv x x' m H : Inv x H -> external m.2 = true -> mailbox x' = mailbox x ++ [m] ->
  actor x' = actor x -> alive x' = alive x -> stash x' = stash x -> store x' = store x -> snaps x' = snaps x ->
  inflight x' = inflight x -> snapq x' = snapq x -> retq x' = retq x -> Inv x' H.
Proof.
  intros [Ic Is Id Ia] Hext Hm E1 E2 E3 E4 E5 E6 E7 E8. split; rewrite ?E1, ?E2, ?E3, ?E6; [|done..|].
  - destruct Ic as [K0 K1 K2 K3]. split; by rewrite ?E4, ?E5, ?E7, ?E8.
  - intros Hal. destruct (Ia Hal) as (h & s & Hs & Hp). exists h, s. split; [done|].
    eapply phase_ok_env; [exact Hp|done|intros; split; [by eapply quiet_arrive|done]|].
    intros l Hl. right. by eapply flight_arrive.
Qed.

(** A system with a write on its way has it pending in the actor. *)
Lemma flight_pending x H req fl : Inv x H -> inflight x = req :: fl -> fl = [] /\ alive x = true /\ no_resp (mailbox x) /\
  exists s s' n, sync (actor x) H s /\ phase_ok x H H s /\ pending_ok H s (envelopes req) s' n /\ rscope req = scope c.
Proof.
  intros [Ic Is Id Ia] Hfl. destruct (alive x) eqn:Hal; [|by rewrite Id in Hfl].
  destruct (Ia eq_refl) as (h & s & Hs & Hp). pose proof Hp as Hp'. unfold phase_ok in Hp'.
  assert (quiet x -> False) as Hq by (intros [? _]; congruence).
  assert (forall l, flight x H h l -> inflight x = [req] /\ envelopes req = l /\ rscope req = scope c /\ no_resp (mailbox x) /\ H = h) as Hf.
  { intros l [(r & E & ?)|[E _]]; [|congruence]. rewrite E in Hfl. by injection Hfl as -> <-. }
  destruct (batchEnabled D (actor x)), (phase D (actor x)); try done; try (destruct Hp' as [K _]; by destruct (Hq K)).
  - destruct Hp' as ((_ & Hb) & Hent & Hl). destruct (Hf _ Hl) as (E1 & E2 & E3 & E4 & ->).
    rewrite E1 in Hfl. injection Hfl as <-. rewrite E2. split_and!; try done. eexists s, _, _. split_and!; try done.
    by destruct (batchEntries D (batch D (actor x))).
  - destruct Hp' as (_ & l & Hpend & Hl). destruct (Hf _ Hl) as (E1 & E2 & E3 & E4 & ->).
    rewrite E1 in Hfl. injection Hfl as <-. rewrite E2. split_and!; try done. eexists s, _, _. by split_and!.
Qed.

(** The outcome of a write and its response. *)
Lemma write_outcome_inv x req fl H l id r st' published' :
  Inv x H -> inflight x = req :: fl -> (l = [] \/ l = envelopes req) ->
  recoverable (D := D) st' (snaps x) c tc (H ++ l) ->
  match r with
  | None => l = envelopes req
  | Some e => l = [] \/ forall ce, cause e <> EStoreError (EConflict ce)
  end ->
  Inv (mkSys (actor x) (alive x) (mailbox x ++ [(id, MPersistResponse r)]) (stash x) st' (snaps x) fl
      (snapq x) (retq x) (replies x) published' (owners x)) (H ++ l).
Proof.
  intros Hinv Hfl Hl Hrec Hr. destruct (flight_pending _ _ _ _ Hinv Hfl) as (-> & Hal & Hno & s & s' & n & Hs & Hp & Hpend & Hsc).
  destruct Hinv as [[K0 K1 K2 K3] Is Id Ia]. sys_parts.
  - split; simpl; [|done|by eapply Forall_impl; [exact K2|]; intros; apply queued_snapshot_app
      |by eapply Forall_impl; [exact K3|]; intros; apply queued_retention_app].
    destruct Hl as [->| ->]; [by rewrite app_nil_r|]. exists s'. apply appended_app. exists s.
    split; [apply Hs|]. rewrite N.add_0_l. apply Hpend.
  - done.
  - done.
  - intros _. exists H, s. split; [done|]. eapply phase_ok_env; [exact Hp|done|intros [? _]; congruence|].
    intros l' Hl'. right. right. split; [done|]. exists (mailbox x), id, r, []. split_and!; try done; [by constructor|].
    assert (envelopes req = l') as <-.
    { destruct Hl' as [(r' & E & <- & _)|[E _]]; rewrite E in Hfl; by simplify_eq. }
    destruct r as [e|]; [|by subst]. destruct Hr as [->|Hr]; [left; by rewrite app_nil_r|].
    destruct Hl as [->| ->]; [left; by rewrite app_nil_r|by right].
Qed.

(** What the events writer does to the stored history. *)
Lemma handlePersistEvents_ok x req fl H r st' evs : Inv x H -> inflight x = req :: fl ->
  handlePersistEvents (store x) req = (r, st', evs) ->
  recoverable (D := D) st' (snaps x) c tc (H ++ evs) /\
  match r with None => evs = envelopes req | Some _ => evs = [] end.
Proof.
  intros Hinv Hfl. destruct (flight_pending _ _ _ _ Hinv Hfl) as (_ & _ & _ & s & s' & n & _ & _ & Hpend & Hsc).
  destruct Hinv as [[_ K1 _ _] _ _ _]. unfold handlePersistEvents. rewrite Hsc.
  destruct (api.WriteEvents (store x) (scope c) (envelopes req) (precondition req)) as [[[]|e] st1] eqn:Hw; intros [= <- <- <-].
  - split; [|done]. by eapply recoverable_commit.
  - rewrite app_nil_r. split; [|done]. pose proof K1 as (d & Hst & _).
    apply api.write_err in Hw as ->; [done|apply Hst].
Qed.

Lemma snapshot_inv x req q ctx canceled sn' r H : Inv x H -> snapq x = req :: q ->
  handlePersistSnapshot D (snaps x) ctx req canceled = (sn', r) ->
  Inv (mkSys (actor x) (alive x) (mailbox x) (stash x) (store x) sn' (inflight x)
      q (retq x ++ match r with Some r => [r] | None => [] end) (replies x) (published x) (owners x)) H.
Proof.
  intros [[K0 K1 K2 K3] Is Id Ia] Hq Hh. rewrite Hq in K2. apply Forall_cons in K2 as [(k & Hreq & Hps & Hhas & Hret) K2].
  destruct K1 as (d & Hst & Hsn & Hcov).
  pose proof (handlePersistSnapshot_ok (snaps x) c tc H k req ctx canceled Hscope Hsn Hreq Hps) as Hok. rewrite Hh in Hok.
  destruct Hok as (Hsn' & Hfrom & Hr). split; [|done..|].
  - split; simpl; [done| |done|].
    + exists d. split_and!; [done..|]. destruct Hcov as [->|[? ?]]; [by left|right; auto].
    + apply Forall_app. split.
      * eapply Forall_impl; [exact K3|]. intros rr (k' & ? & ? & ? & ?). exists k'. auto.
      * destruct r as [r|]; [|constructor]. destruct Hr as [Hr Hk]. constructor; [|done].
        exists k. pose proof (sr_range _ _ _ _ _ Hreq). split_and!; [by apply Hret|lia|done|done].
  - simpl. intros Hal. destruct (Ia Hal) as (h & s & Hs & Hp). by exists h, s.
Qed.

Lemma retain_inv x req q c1 c2 st' sn' H : Inv x H -> retq x = req :: q ->
  handleApplyRetention (store x) (snaps x) true req c1 c2 = (st', sn') ->
  Inv (mkSys (actor x) (alive x) (mailbox x) (stash x) st' sn' (inflight x)
      (snapq x) q (replies x) (published x) (owners x)) H.
Proof.
  intros [[K0 K1 K2 K3] Is Id Ia] Hq Hh. rewrite Hq in K3. apply Forall_cons in K3 as [(k & Hreq & Hk & Hfrom & Hhas) K3].
  pose proof (handleApplyRetention_ok (store x) (snaps x) c tc H k req c1 c2 Hscope K1 Hhas Hreq Hk Hfrom) as Hok. rewrite Hh in Hok.
  destruct Hok as [Hrec Hmono]. split; [|done..|].
  - split; simpl; [done|done|done|]. eapply Forall_impl; [exact K3|]. intros rr (k' & ? & ? & ? & ?). exists k'. auto.
  - simpl. intros Hal. destruct (Ia Hal) as (h & s & Hs & Hp). by exists h, s.
Qed.

(** The handlers of the actor leave the published events alone. *)
Lemma deliver_published x m rest T : published (deliver x m rest T) = published x.
Proof.
  unfold deliver. destruct (Receive D (actor x) m.2 T) as [a' effs].
  assert (forall effs x, published (foldl (apply_effect m) x effs) = published x) as Hpub.
  { induction effs0 as [|e effs0 IH]; intros y; simpl; [done|]. rewrite IH. by destruct e. }
  by rewrite Hpub.
Qed.

(** One step: the history grows by exactly what is published. *)
Lemma step_inv x x' H : Inv x H -> step x x' -> exists l, Inv x' (H ++ l) /\ published x' = published x ++ l.
Proof.
  intros Hinv Hstep. destruct Hstep.
  - exists []. rewrite !app_nil_r. split; [|done]. by eapply (arrive_inv x _ (id, m)).
  - exists []. rewrite !app_nil_r. split; [by apply deliver_inv|]. apply deliver_published.
  - destruct (handlePersistEvents_ok _ _ _ _ _ _ _ Hinv H0 H1) as [Hrec Hr]. exists evs. split; [|done].
    eapply write_outcome_inv; [done|done| |done|]; destruct r; auto.
  - exists []. rewrite !app_nil_r. split; [|done]. rewrite <- (app_nil_r H).
    eapply write_outcome_inv; [done|done|auto| |auto]. rewrite app_nil_r. apply Hinv.
  - destruct (handlePersistEvents_ok _ _ _ _ _ _ _ Hinv H0 H1) as [Hrec Hr]. exists evs. split; [|done].
    eapply write_outcome_inv; [done|done| |done|]; [destruct r; auto|]. by right.
  - exists []. rewrite !app_nil_r. split; [|done]. by eapply snapshot_inv.
  - exists []. rewrite !app_nil_r. split; [|done]. by eapply retain_inv.
Qed.

Lemma steps_inv x x' H : Inv x H -> rtc step x x' -> exists l, Inv x' (H ++ l) /\ published x' = published x ++ l.
Proof.
  intros Hinv Hsteps. revert H Hinv. induction Hsteps as [x|x y z Hxy Hyz IH]; intros H Hinv.
  - exists []. by rewrite !app_nil_r.
  - destruct (step_inv _ _ _ Hinv Hxy) as (l1 & Hinv1 & E1). destruct (IH _ Hinv1) as (l2 & Hinv2 & E2).
    exists (l1 ++ l2). rewrite E2, E1, <- !app_assoc. split; [|done]. by rewrite app_assoc.
Qed.
End Invariant.
End System.
End eventsource_system.
