(* ===== verification/EventSourcedReplies.v ===== *)
(** * Replies reach the command they were computed from

    A command that joins the pending write is set aside and answered when it
    is delivered again; the reply it then receives is chosen by position. This
    file shows that through every interleaving the commands set aside stay in
    the order of the pending entries, so that the position is right. *)

From S2P Require Import Prelude GoStrings Tenancy Persistence Egopb StoreApi Command Protocol EventSourced EventSourcedSpec EventSourcedSystem.
From Stdlib Require Import ZArith Lia.
Open Scope string_scope.
Open Scope list_scope.
Open Scope urd_scope.

Module eventsource_replies.
Import persistence egopb tenancy eventsource eventsource_spec eventsource_system.

Section Replies.
Context {D : Deps} {LD : LawfulDeps D}.
Context {St Sn : Type} {ESO : api.EventsStore St} {ESL : api.EventsStoreLaws St}.
Context {SSO : api.SnapshotStore Sn} {SSL : api.SnapshotStoreLaws Sn}.
Context (c : Config) (tc : TenantContext).
Hypothesis Hscope : wf_scope (scope c).
Hypothesis Htenant : tenantAware c = true -> tenancy.wf tc.
Hypothesis Hwriter : hasSnapshotsWriter c = true -> hasSnapshotStore c = true.

Abbreviation Actor := (Actor D).
Abbreviation State := (State D).
Abbreviation msg := (nat * message D)%type.
Abbreviation Sys := (Sys (D := D) (St := St) (Sn := Sn)).
Abbreviation Inv := (Inv c tc).
Abbreviation sync := (sync c tc).
Abbreviation phase_ok := (phase_ok c tc).

Definition is_command (m : msg) : Prop := match m.2 with MCommand _ _ => True | _ => False end.

(** [own] are the commands of the pending write, by the ghost field. *)
Definition owned (ids : list nat) (own : list msg) : Prop := Forall is_command own /\ fst <$> own = ids.

Definition aligned (x : Sys) : Prop :=
  let a := actor x in
  let entries := batchEntries D (batch D a) in
  if batchEnabled D a then
    length (owners x) = length entries /\
    match phase D a with
    | phaseProcessing => owned (owners x) (stash x)
    | phaseFlushing => exists own extra, stash x = own ++ extra /\ owned (owners x) own
    | phaseReplying => stash x = [] /\ exists own rest, mailbox x = own ++ rest /\
        owned (drop (length entries - Z.to_nat (remainingReplies D (batch D a))) (owners x)) own
    | _ => True
    end
  else
    match phase D a with
    | phaseProcessing => stash x = [] /\ owners x = []
    | phasePersisting => exists m extra, stash x = m :: extra /\ owned (owners x) [m]
    | phaseDirectReplying => stash x = [] /\ exists m rest, mailbox x = m :: rest /\ owned (owners x) [m]
    | _ => True
    end.

(** ** Deliveries that leave the write path alone *)
Lemma idle_same (a a' : Actor) : same_write_path a a' -> idle a' = idle a.
Proof. intros (_ & Hph & _ & _ & Hent & _). unfold idle. by rewrite Hph, Hent. Qed.

Lemma joins_same (a a' : Actor) : same_write_path a a' -> joins a a' = false.
Proof.
  intros (_ & Hph & _ & _ & Hent & _). unfold joins. rewrite Hph, Hent, Nat.ltb_irrefl. by destruct (phase D a).
Qed.

Lemma idle_owners x : aligned x -> idle (actor x) = true -> owners x = [].
Proof.
  unfold aligned, idle. destruct (batchEnabled D (actor x)), (phase D (actor x)), (batchEntries D (batch D (actor x))); try done.
  - intros [Hl _] _. by apply nil_length_inv.
  - by intros [_ ?].
Qed.

Lemma owners_same x (a' : Actor) m : aligned x -> same_write_path (actor x) a' ->
  (if idle a' then [] else if joins (actor x) a' then owners x ++ [m] else owners x) = owners x.
Proof.
  intros Hal Hsame. rewrite (idle_same _ _ Hsame), (joins_same _ _ Hsame).
  destruct (idle (actor x)) eqn:Hid; [|done]. symmetry. by apply idle_owners.
Qed.

(** The state after a delivery that stashes or not, with nothing else that
    [aligned] reads. *)
Lemma aligned_frame x x' m : aligned x -> same_write_path (actor x) (actor x') -> owners x' = owners x ->
  phase D (actor x) <> phaseReplying -> phase D (actor x) <> phaseDirectReplying ->
  (stash x' = stash x \/ (stash x' = stash x ++ [m] /\ phase D (actor x) <> phaseProcessing)) -> aligned x'.
Proof.
  intros Hal (E1 & E2 & E3 & E4 & E5 & E6 & E7 & E8 & E9) Ho Hn1 Hn2 Hst. unfold aligned in *.
  rewrite (batchEnabled_config _ _ E1), E2, E5, E9, Ho.
  destruct (batchEnabled D (actor x)), (phase D (actor x)) eqn:Hph; try done.
  - destruct Hal as [Hl Hown]. destruct Hst as [->|[_ ?]]; [done|congruence].
  - destruct Hal as (Hl & own & extra & E & Hown). split; [done|].
    destruct Hst as [->|[-> _]]; [by exists own, extra|]. exists own, (extra ++ [m]). by rewrite E, app_assoc.
  - destruct Hst as [->|[_ ?]]; [done|congruence].
  - destruct Hal as (m' & extra & E & Hown). destruct Hst as [->|[-> _]]; [by exists m', extra|].
    exists m', (extra ++ [m]). by rewrite E.
Qed.

(** The message next in a replying phase is a command. *)
Lemma reply_head x H h s m rest : aligned x -> phase_ok x H h s -> mailbox x = m :: rest ->
  phase D (actor x) = phaseReplying \/ phase D (actor x) = phaseDirectReplying -> is_command m.
Proof.
  intros Hal Hp Hm Hph. unfold aligned in Hal. unfold eventsource_system.phase_ok in Hp.
  destruct (batchEnabled D (actor x)), Hph as [Hph|Hph]; rewrite Hph in Hal, Hp; try done.
  - destruct Hal as (Hl & _ & own & rest' & E & Hcmd & Hids), Hp as (_ & _ & Hrem).
    destruct own as [|m' own].
    + apply (f_equal length) in Hids. rewrite length_drop in Hids. simpl in Hids. lia.
    + rewrite Hm in E. injection E as -> _. by apply Forall_cons in Hcmd as [? _].
  - destruct Hal as (_ & m' & rest' & E & Hcmd & _). rewrite Hm in E. injection E as -> _.
    by apply Forall_cons in Hcmd as [? _].
Qed.

Lemma deliver_aligned_frame x m rest T a' effs : aligned x ->
  Receive D (actor x) m.2 T = (a', effs) -> same_write_path (actor x) a' ->
  phase D (actor x) <> phaseReplying -> phase D (actor x) <> phaseDirectReplying ->
  (effs = [] \/ (exists r, effs = [Response r]) \/ (exists r, effs = [ResponseBinding r]) \/ effs = [Unhandled] \/
   (effs = [Stash] /\ phase D (actor x) <> phaseProcessing)) ->
  aligned (deliver x m rest T).
Proof.
  intros Hal Hr Hsame Hn1 Hn2 Heff. unfold deliver. rewrite Hr, (owners_same x a' m.1 Hal Hsame).
  destruct Heff as [->|[[r ->]|[[r ->]|[-> |[-> Hne]]]]]; simpl; (eapply (aligned_frame x _ m); simpl; eauto).
Qed.

(** ** Deliveries on the write path *)
Lemma aligned_starts_write x m rest T h s a' effs : aligned x -> is_command m -> batchEnabled D (actor x) = false ->
  phase D (actor x) = phaseProcessing -> sync (actor x) h s -> Receive D (actor x) m.2 T = (a', effs) ->
  starts_write c tc (actor x) h s a' effs -> aligned (deliver x m rest T).
Proof.
  intros Hal Hcmd Hbe Hph Hs Hr (Hs' & Hph' & Hba & _ & _ & l & req & -> & _).
  unfold aligned in Hal. rewrite Hbe, Hph in Hal. destruct Hal as [Hst How].
  unfold deliver, idle, joins. rewrite Hr, Hph, Hph'. unfold aligned. simpl. rewrite (sync_config _ _ _ _ _ _ _ _ Hs Hs'), Hbe, Hph'.
  exists m, []. rewrite Hst, How. split; [done|]. split; [by constructor|done].
Qed.

Lemma aligned_flushes x m rest T h s a' effs : aligned x -> batchEnabled D (actor x) = true ->
  phase D (actor x) = phaseProcessing -> sync (actor x) h s -> Receive D (actor x) m.2 T = (a', effs) ->
  flushes c tc (actor x) h s a' effs -> aligned (deliver x m rest T).
Proof.
  intros Hal Hbe Hph Hs Hr (Hs' & Hph' & Hba & Hne & req & -> & _).
  unfold aligned in Hal. rewrite Hbe, Hph in Hal. destruct Hal as [Hl Hown].
  unfold deliver, idle, joins. rewrite Hr, Hph, Hph', Hba, Nat.ltb_irrefl. unfold aligned. simpl.
  rewrite (sync_config _ _ _ _ _ _ _ _ Hs Hs'), Hbe, Hph', Hba. split; [done|]. by exists (stash x), [m].
Qed.

Lemma aligned_joins x m rest T h s a' effs : aligned x -> is_command m -> batchEnabled D (actor x) = true ->
  phase D (actor x) = phaseProcessing -> sync (actor x) h s -> Receive D (actor x) m.2 T = (a', effs) ->
  joins_batch c tc (actor x) h s a' effs -> aligned (deliver x m rest T).
Proof.
  intros Hal Hcmd Hbe Hph Hs Hr (Hs' & _ & (r & Hent) & Hcase).
  unfold aligned in Hal. rewrite Hbe, Hph in Hal. destruct Hal as [Hl [Hc Hids]].
  assert (joins (actor x) a' = true) as Hj.
  { unfold joins. rewrite Hph, Hent, length_app. simpl.
    replace (length _ <? _)%nat with true by (symmetry; apply Nat.ltb_lt; lia).
    destruct Hcase as [[-> _]|[-> _]]; by rewrite ?Hph. }
  assert (idle a' = false) as Hid.
  { unfold idle. rewrite Hent. destruct (phase D a'); try done. by destruct (batchEntries D (batch D (actor x))). }
  assert (owned (owners x ++ [m.1]) (stash x ++ [m])) as Hown.
  { split; [apply Forall_app; split; [done|by constructor]|]. by rewrite fmap_app, Hids. }
  unfold deliver. rewrite Hr, Hid, Hj.
  destruct Hcase as [[Hph' ->]|(Hph' & req & -> & _)]; unfold aligned; simpl;
    rewrite (sync_config _ _ _ _ _ _ _ _ Hs Hs'), Hbe, Hph', ?Hph, Hent, !length_app; simpl; (split; [lia|]); [done|].
  exists (stash x ++ [m]), []. by rewrite app_nil_r.
Qed.

Lemma aligned_direct_response x id r rest T : aligned x -> batchEnabled D (actor x) = false ->
  phase D (actor x) = phasePersisting -> aligned (deliver x (id, MPersistResponse r) rest T).
Proof.
  intros Hal Hbe Hph. unfold aligned in Hal. rewrite Hbe, Hph in Hal. destruct Hal as (m & extra & Hst & Hown).
  assert (forall a' q, Receive D (actor x) (MPersistResponse r) T = (a', (Tell <$> q) ++ [UnstashAll]) ->
    config D a' = config D (actor x) -> phase D a' = phaseDirectReplying -> batch D a' = batch D (actor x) ->
    aligned (deliver x (id, MPersistResponse r) rest T)) as Hdone.
  { intros a' q Hr Hc Hph' Hba. unfold deliver, idle, joins. simpl snd. rewrite Hr, Hph, Hph', Hba, Nat.ltb_irrefl, tells_effect.
    unfold aligned. simpl. rewrite (batchEnabled_config _ _ Hc), Hbe, Hph'. split; [done|].
    exists m, (extra ++ rest). by rewrite Hst. }
  simpl Receive in Hdone. unfold handleDirectPersistResponse, triggerSnapshotAndRetention, snapshotAndRetain in Hdone.
  rewrite Hbe, Hph in Hdone. destruct r as [e|]; [by eapply (Hdone _ [])|].
  destruct (_ || _); [by eapply (Hdone _ [])|by eapply (Hdone _ [_])].
Qed.

Lemma aligned_batch_response x id r rest T : aligned x -> batchEnabled D (actor x) = true ->
  phase D (actor x) = phaseFlushing -> aligned (deliver x (id, MPersistResponse r) rest T).
Proof.
  intros Hal Hbe Hph. unfold aligned in Hal. rewrite Hbe, Hph in Hal. destruct Hal as (Hl & own & extra & Hst & Hown).
  assert (forall a' q, Receive D (actor x) (MPersistResponse r) T = (a', (Tell <$> q) ++ [UnstashAll]) ->
    config D a' = config D (actor x) -> phase D a' = phaseReplying ->
    length (batchEntries D (batch D a')) = length (batchEntries D (batch D (actor x))) ->
    remainingReplies D (batch D a') = Z.of_nat (length (batchEntries D (batch D (actor x)))) ->
    aligned (deliver x (id, MPersistResponse r) rest T)) as Hdone.
  { intros a' q Hr Hc Hph' Hba Hrem. unfold deliver, idle, joins. simpl snd. rewrite Hr, Hph, Hph', Hba, Nat.ltb_irrefl, tells_effect.
    unfold aligned. simpl. rewrite (batchEnabled_config _ _ Hc), Hbe, Hph', Hba, Hrem. split_and!; [done..|].
    exists own, (extra ++ rest). rewrite Hst, <- app_assoc. split; [done|].
    replace (length _ - _)%nat with 0%nat by lia. done. }
  simpl Receive in Hdone. unfold handleBatchPersistResponse, snapshotAndRetain in Hdone.
  rewrite Hbe, Hph in Hdone. destruct r as [e|].
  - eapply (Hdone _ []); try done. simpl. by rewrite length_fmap.
  - destruct (crossedSnapshotBoundary _ _ _); [by eapply (Hdone _ [_])|by eapply (Hdone _ [])].
Qed.

Lemma aligned_reply_direct x id ctx cmd rest T H h s : aligned x -> mailbox x = (id, MCommand ctx cmd) :: rest ->
  batchEnabled D (actor x) = false -> phase D (actor x) = phaseDirectReplying -> phase_ok x H h s ->
  aligned (deliver x (id, MCommand ctx cmd) rest T).
Proof.
  intros Hal Hm Hbe Hph Hp. unfold eventsource_system.phase_ok in Hp. rewrite Hbe, Hph in Hp. destruct Hp as (_ & Hent & _).
  unfold aligned in Hal. rewrite Hbe, Hph in Hal. destruct Hal as (Hst & _).
  unfold deliver. simpl Receive. rewrite Hbe, Hph. unfold replyDirect. simpl.
  assert (forall a', config D a' = config D (actor x) -> batchEnabled D a' = false) as Hbe'.
  { intros a' E. by rewrite (batchEnabled_config _ _ E). }
  destruct (directErr D (direct D (actor x))) as [e|]; [destruct (directShutdown D (direct D (actor x)))|];
    simpl; unfold aligned, idle; simpl; by rewrite Hbe', Hent by done.
Qed.

(** In the replying phase of a batch the next message is the command of the
    next entry. *)
Lemma next_owner x H h s m rest : aligned x -> phase_ok x H h s -> mailbox x = m :: rest ->
  batchEnabled D (actor x) = true -> phase D (actor x) = phaseReplying ->
  let i := (length (batchEntries D (batch D (actor x))) - Z.to_nat (remainingReplies D (batch D (actor x))))%nat in
  owners x !! i = Some m.1 /\ is_command m /\ (i < length (batchEntries D (batch D (actor x))))%nat /\
  stash x = [] /\ exists own rest', rest = own ++ rest' /\ owned (drop (S i) (owners x)) own.
Proof.
  intros Hal Hp Hm Hbe Hph i. unfold aligned in Hal. unfold eventsource_system.phase_ok in Hp.
  rewrite Hbe, Hph in Hal, Hp. destruct Hp as (_ & _ & Hrem). destruct Hal as (Hl & Hst & own & rest' & E & Hcmd & Hids). fold i in Hids.
  assert (i < length (owners x))%nat as Hi by (unfold i; lia).
  destruct (lookup_lt_is_Some_2 _ _ Hi) as [o Ho]. rewrite (drop_S _ _ _ Ho) in Hids.
  destruct own as [|m' own]; [done|]. rewrite Hm in E. injection E as <- ->. injection Hids as <- Hids.
  apply Forall_cons in Hcmd as [Hc Hcmd]. split_and!; [done|done|lia|done|]. by exists own, rest'.
Qed.

Lemma aligned_reply_batch x id ctx cmd rest T H h s : aligned x -> mailbox x = (id, MCommand ctx cmd) :: rest ->
  batchEnabled D (actor x) = true -> phase D (actor x) = phaseReplying -> phase_ok x H h s ->
  aligned (deliver x (id, MCommand ctx cmd) rest T).
Proof.
  intros Hal Hm Hbe Hph Hp. destruct (next_owner _ _ _ _ _ _ Hal Hp Hm Hbe Hph) as (_ & _ & _ & Hst & own & rest' & -> & Hown).
  unfold aligned in Hal. rewrite Hbe in Hal. destruct Hal as (Hl & _).
  unfold eventsource_system.phase_ok in Hp. rewrite Hbe, Hph in Hp. destruct Hp as (_ & _ & Hrem).
  unfold deliver. simpl Receive. rewrite Hbe. unfold handleCommandBatched. rewrite Hph. unfold replyFromBatch.
  rewrite (proj2 (Z.leb_gt _ _)) by lia.
  assert (forall a', config D a' = config D (actor x) -> batchEnabled D a' = true) as Hbe'.
  { intros a' E. by rewrite (batchEnabled_config _ _ E). }
  destruct (Z.eqb_spec (remainingReplies D (batch D (actor x)) - 1) 0) as [Hz|Hz].
  - destruct (shutdownOnDrain D (batch D (actor x))); simpl; unfold aligned, idle; simpl; rewrite Hbe' by done;
      rewrite Hst; (split; [done|]); split; [constructor|done|constructor|done].
  - unfold idle, joins. simpl. rewrite Hph, Nat.ltb_irrefl. unfold aligned. simpl. rewrite Hbe', Hph by done. split_and!; [done|done|].
    exists own, rest'. split; [done|]. by replace (length _ - _)%nat with (S (length (batchEntries D (batch D (actor x))) - Z.to_nat (remainingReplies D (batch D (actor x))))) by lia.
Qed.

(** ** Preservation *)
Lemma aligned_replies x m rest T h s a' effs : aligned x -> sync (actor x) h s ->
  phase D (actor x) <> phaseReplying -> phase D (actor x) <> phaseDirectReplying ->
  Receive D (actor x) m.2 T = (a', effs) -> only_replies c tc (actor x) h s a' effs -> aligned (deliver x m rest T).
Proof.
  intros Hal Hs Hn1 Hn2 Hr Ho. assert (same_write_path (actor x) a') as Hsame by by eapply only_replies_same.
  destruct Ho as (_ & _ & _ & _ & _ & _ & _ & _ & _ & _ & r & ->). eapply deliver_aligned_frame; eauto.
Qed.

Lemma aligned_get_state x id ctx rest T h s : aligned x -> sync (actor x) h s ->
  phase D (actor x) <> phaseReplying -> phase D (actor x) <> phaseDirectReplying ->
  aligned (deliver x (id, MGetState ctx) rest T).
Proof.
  intros Hal Hs Hn1 Hn2. destruct (handleGetStateCommand D (actor x) ctx) as [a' effs] eqn:Hr. pose proof Hr as Hr'.
  unfold handleGetStateCommand in Hr'. destruct (negb _ && _) eqn:Hg.
  - injection Hr' as <- <-. eapply deliver_aligned_frame; [done|exact Hr|done..|]. do 4 right. split; [done|].
    intros E. rewrite E, andb_false_r in Hg. done.
  - eapply aligned_replies; [done|exact Hs|done|done|exact Hr|].
    unfold getStateAndReply in Hr'. destruct (tenantGate D (actor x) ctx) as [t|e].
    + pose proof (reply_state _ _ _ _ _ Hs) as Ho. by rewrite Hr' in Ho.
    + pose proof (reply_error _ _ _ _ _ Hs e) as Ho. by rewrite Hr' in Ho.
Qed.

Lemma aligned_tick x id rest T H h s : aligned x -> sync (actor x) h s -> phase_ok x H h s ->
  phase D (actor x) <> phaseReplying -> phase D (actor x) <> phaseDirectReplying ->
  aligned (deliver x (id, MBatchFlushTick) rest T).
Proof.
  intros Hal Hs Hp Hn1 Hn2.
  assert (forall a', a' = set_timer D (actor x) false -> Receive D (actor x) MBatchFlushTick T = (a', []) ->
    aligned (deliver x (id, MBatchFlushTick) rest T)) as Hidle.
  { intros a' -> Hr. eapply deliver_aligned_frame; [done|exact Hr|done..|by left]. }
  simpl Receive in Hidle. unfold handleBatchFlushTick in Hidle. simpl in Hidle.
  destruct (phase D (actor x)) eqn:Hph; try (by eapply Hidle).
  destruct (batchEntries D (batch D (actor x))) as [|en ents] eqn:Hent; [by eapply Hidle|].
  unfold aligned in Hal. unfold eventsource_system.phase_ok in Hp. rewrite Hph, Hent in *.
  destruct (batchEnabled D (actor x)) eqn:Hbe; [|by destruct Hp as (_ & _ & [Hd _]); rewrite Hent in Hd].
  destruct Hal as [Hl Hown]. unfold deliver. simpl Receive. unfold handleBatchFlushTick. simpl. rewrite Hph, Hent. simpl.
  unfold idle, joins, aligned. simpl. rewrite Hph, Nat.ltb_irrefl.
  rewrite (batchEnabled_config (actor x)) by done. rewrite Hbe, Hent. split; [done|].
  exists (stash x), []. by rewrite app_nil_r.
Qed.

Lemma aligned_command x id ctx cmd rest T H h s : aligned x -> mailbox x = (id, MCommand ctx cmd) :: rest ->
  fits (actor x) (MCommand ctx cmd) T -> sync (actor x) h s -> phase_ok x H h s ->
  aligned (deliver x (id, MCommand ctx cmd) rest T).
Proof.
  intros Hal Hm Hfit Hs Hp. pose proof Hp as Hp'. unfold eventsource_system.phase_ok in Hp'.
  destruct (batchEnabled D (actor x)) eqn:Hbe, (phase D (actor x)) eqn:Hph; try done.
  - destruct Hp' as (_ & _ & Hbok).
    pose proof (processAndBatch_ok c tc Htenant _ _ _ Hs ctx cmd T Hbok Hfit) as Hok.
    destruct (processAndBatch D (actor x) ctx cmd T) as [a' effs] eqn:Hr.
    assert (Receive D (actor x) (MCommand ctx cmd) T = (a', effs)) as Hrec
      by (simpl; rewrite Hbe; unfold handleCommandBatched; by rewrite Hph).
    destruct Hok as [Ho|[Ho|Ho]]; [by eapply aligned_replies; eauto; congruence|by eapply aligned_flushes|by eapply aligned_joins].
  - eapply deliver_aligned_frame; [done|simpl; rewrite Hbe; unfold handleCommandBatched; by rewrite Hph|done|congruence|congruence|].
    do 4 right. split; [done|congruence].
  - by eapply aligned_reply_batch.
  - destruct Hp' as (_ & _ & Hent & _).
    pose proof (processCommandAndReply_ok c tc Htenant _ _ _ Hs ctx cmd T Hent Hfit) as Hok.
    destruct (processCommandAndReply D (actor x) ctx cmd T) as [a' effs] eqn:Hr.
    assert (Receive D (actor x) (MCommand ctx cmd) T = (a', effs)) as Hrec by (simpl; by rewrite Hbe, Hph).
    destruct Hok as [Ho|Ho]; [by eapply aligned_replies; eauto; congruence|by eapply aligned_starts_write].
  - eapply deliver_aligned_frame; [done|simpl; by rewrite Hbe, Hph|done|congruence|congruence|].
    do 4 right. split; [done|congruence].
  - by eapply aligned_reply_direct.
Qed.

Lemma deliver_aligned x m rest T H : Inv x H -> aligned x -> alive x = true -> mailbox x = m :: rest ->
  fits (actor x) m.2 T -> aligned (deliver x m rest T).
Proof.
  intros Hinv Hal Hlive Hm Hfit. destruct (inv_alive _ _ _ _ Hinv Hlive) as (h & s & Hs & Hp).
  assert (is_command m \/ (phase D (actor x) <> phaseReplying /\ phase D (actor x) <> phaseDirectReplying)) as Hq.
  { destruct (decide (phase D (actor x) = phaseReplying \/ phase D (actor x) = phaseDirectReplying)) as [?|Hn].
    - left. by eapply reply_head.
    - right. naive_solver. }
  destruct m as [id [ctx|tid| |r|ctx cmd|]].
  - destruct Hq as [[]|[? ?]]. by eapply aligned_get_state.
  - destruct Hq as [[]|[? ?]]. eapply deliver_aligned_frame; try done. right. right. left. by eexists.
  - destruct Hq as [[]|[? ?]]. by eapply aligned_tick.
  - pose proof (response_phase _ _ _ _ _ _ _ _ _ Hp Hm) as Hph. destruct (batchEnabled D (actor x)) eqn:Hbe;
      [by apply aligned_batch_response|by apply aligned_direct_response].
  - by eapply aligned_command.
  - destruct Hq as [[]|[? ?]]. eapply deliver_aligned_frame; try done. do 3 right. by left.
Qed.

(** The steps around the actor only append to the mailbox. *)
Lemma aligned_env x x' l : aligned x -> actor x' = actor x -> mailbox x' = mailbox x ++ l -> stash x' = stash x ->
  owners x' = owners x -> aligned x'.
Proof.
  intros Hal Ha Hm Hs Ho. unfold aligned in *. rewrite Ha, Hm, Hs, Ho.
  destruct (batchEnabled D (actor x)), (phase D (actor x)); try done.
  - destruct Hal as (? & ? & own & rest & -> & ?). split_and!; try done. exists own, (rest ++ l). by rewrite app_assoc.
  - destruct Hal as (? & m & rest & -> & ?). split; [done|]. by exists m, (rest ++ l).
Qed.

Lemma step_aligned x x' H : Inv x H -> step x x' -> (alive x = true -> aligned x) -> alive x' = true -> aligned x'.
Proof.
  intros Hinv Hstep Hal Hlive. destruct Hstep; simpl in Hlive;
    try (by eapply (aligned_env x); [auto|done|done|done|done]);
    try (eapply (aligned_env x _ []); [by auto|done|by rewrite app_nil_r|done|done]).
  eapply deliver_aligned; eauto.
Qed.

Lemma steps_aligned x x' H : Inv x H -> rtc step x x' -> (alive x = true -> aligned x) ->
  exists l, Inv x' (H ++ l) /\ published x' = published x ++ l /\ (alive x' = true -> aligned x').
Proof.
  intros Hinv Hsteps Hal. destruct (steps_inv c tc Hscope Htenant Hwriter _ _ _ Hinv Hsteps) as (l & Hinv' & Hpub).
  exists l. split_and!; [done..|]. clear l Hinv' Hpub.
  revert H Hinv Hal. induction Hsteps as [x|x y z Hxy Hyz IH]; intros H Hinv Hal; [done|].
  destruct (step_inv c tc Hscope Htenant Hwriter _ _ _ Hinv Hxy) as (l1 & Hinv1 & _).
  apply (IH _ Hinv1). intros Hy. exact (step_aligned x y H Hinv Hxy Hal Hy).
Qed.
End Replies.
End eventsource_replies.
