(* ===== verification/EventSourcedCorrect.v ===== *)
(** * What an event-sourced entity guarantees

    The theorems on the whole entity: start, running, failure, restart, and
    the gates a command passes. They follow from the invariants of
    [EventSourcedSystem.v] and [EventSourcedReplies.v]. The last part runs a
    concrete entity, a counter, on the in-memory stores. *)

From S2P Require Import Prelude GoStrings Tenancy Persistence Egopb StoreApi EventStore StateStores Command Protocol EventSourced EventSourcedSpec EventSourcedSystem EventSourcedReplies.
From Stdlib Require Import ZArith Lia.
Open Scope string_scope.
Open Scope list_scope.
Open Scope urd_scope.

Module eventsource_correct.
Import persistence egopb tenancy eventsource eventsource_spec eventsource_system eventsource_replies.

Section Guarantees.
Context {D : Deps} {LD : LawfulDeps D}.
Context {St Sn : Type} {ESO : api.EventsStore St} {ESL : api.EventsStoreLaws St}.
Context {SSO : api.SnapshotStore Sn} {SSL : api.SnapshotStoreLaws Sn}.

(** What [PreStart] hands to recovery. *)
Definition fresh (c : Config) (tc : TenantContext) : Actor D :=
  mkActor D c (nilState D) None 0 zeroTime phaseProcessing (resetBatch D) (noDirect D) false tc.

(** The runtime around an actor that has just started. *)
Definition boot (a : Actor D) (st : St) (sn : Sn) : Sys (D := D) :=
  mkSys a true [] [] st sn [] [] [] [] [] [].

(** A configuration a started entity can have. *)
Record sound (c : Config) (tc : TenantContext) : Prop := {
  so_scope : wf_scope (scope c);
  so_tenant : tenantAware c = true -> tenancy.wf tc;
  so_writer : hasSnapshotsWriter c = true -> hasSnapshotStore c = true
}.

(** The stores hold the history [h], and it replays. *)
Definition holds_history (c : Config) (tc : TenantContext) (st : St) (sn : Sn) (h : list Event) : Prop :=
  recoverable (D := D) st sn c tc h /\ exists s, appended c tc 0 (InitialState D) h s.

(** The actor is not waiting for a write nor about to stop. *)
Definition settled (a : Actor D) : bool :=
  match phase D a with
  | phaseProcessing => true
  | phaseReplying => negb (shutdownOnDrain D (batch D a))
  | phaseDirectReplying => negb (directShutdown D (direct D a))
  | _ => false
  end.

Lemma recover_fresh c tc st sn h ctx : sound c tc -> holds_history c tc st sn h ->
  (exists e err, recover D (fresh c tc) st sn ctx = Some (Err err) /\ cause err = EStoreError e /\ read_failed c st sn e) \/
  (exists s a', appended c tc 0 (InitialState D) h s /\ recover D (fresh c tc) st sn ctx = Some (Ok a') /\
    recovered c tc h s (fresh c tc) a').
Proof.
  intros [Hsc Ht Hw] [(d & Hst & Hsn & Hcov) [s Hs]].
  destruct (recover_spec c tc h d s st sn Hsc Hs Hst Hsn Hcov (fresh c tc) eq_refl eq_refl (fun _ => eq_refl) ctx)
    as [?|(a' & Ha & Hr)]; [by left|]. right. by exists s, a'.
Qed.

Lemma boot_inv c tc st sn h ctx a : sound c tc -> holds_history c tc st sn h ->
  recover D (fresh c tc) st sn ctx = Some (Ok a) -> Inv c tc (boot a st sn) h /\ aligned (boot a st sn).
Proof.
  intros Hso Hh Ha. destruct (recover_fresh c tc st sn h ctx Hso Hh) as [(e & err & He & _)|(s & a' & Hs & Ha' & Hr)]; [congruence|].
  rewrite Ha in Ha'. injection Ha' as <-. destruct Hr as (Hc & Hcur & Hctr & Hten & Hph & Hba & Hdi & Hca). simpl in *.
  assert (batchEntries D (batch D a) = [] /\ batchBuffer D (batch D a) = [] /\ shutdownOnDrain D (batch D a) = false) as (B1 & B2 & B3)
    by by rewrite Hba.
  split.
  - split; simpl; [split; simpl; [by exists s|apply Hh|constructor|constructor]|constructor|done|].
    intros _. exists h, s. split; [split; try done; by left|]. unfold phase_ok. simpl. rewrite Hph.
    unfold quiet, batch_ok, direct_ok. simpl. rewrite B1, B2, B3, Hdi. destruct (batchEnabled D a); (split_and!; try done; constructor).
  - unfold aligned. simpl. rewrite Hph, B1. destruct (batchEnabled D a); [|done]. split; [done|]. split; [constructor|done].
Qed.

(** The reachable states of the entity. *)
Lemma reachable_inv c tc st sn h ctx a x : sound c tc -> holds_history c tc st sn h ->
  recover D (fresh c tc) st sn ctx = Some (Ok a) -> rtc step (boot a st sn) x ->
  Inv c tc x (h ++ published x) /\ (alive x = true -> aligned x).
Proof.
  intros Hso Hh Ha Hx. destruct (boot_inv _ _ _ _ _ _ _ Hso Hh Ha) as [Hinv Hal]. destruct Hso as [Hsc Ht Hw].
  destruct (steps_aligned c tc Hsc Ht Hw _ _ _ Hinv Hx (fun _ => Hal)) as (l & Hinv' & -> & Hal'). done.
Qed.

Lemma phase_ok_prefix c tc (x : Sys (D := D) (St := St) (Sn := Sn)) H h s : phase_ok c tc x H h s ->
  h `prefix_of` H /\ (settled (actor x) = true -> H = h).
Proof.
  assert (forall l, flight c x H h l -> h `prefix_of` H) as Hf.
  { intros l [(_ & _ & _ & _ & _ & ->)|(_ & _ & _ & r & _ & _ & _ & _ & Hr)]; [done|].
    destruct r; [destruct Hr as [->|[-> _]]|subst]; try done; by exists l. }
  unfold phase_ok, settled. destruct (batchEnabled D (actor x)), (phase D (actor x)); try done.
  - by intros (_ & -> & _).
  - intros (_ & _ & Hl). split; [by eapply Hf|done].
  - intros (_ & [? Hsd] & _). split; [done|]. intros Hn. apply Hsd. by apply negb_true_iff in Hn.
  - by intros (_ & -> & _).
  - intros (_ & l & _ & Hl). split; [by eapply Hf|done].
  - intros (_ & _ & Hr). destruct (directErr D (direct D (actor x))); [|by destruct Hr as [-> _]].
    destruct Hr as [? Hsd]. split; [done|]. intros Hn. apply Hsd. by apply negb_true_iff in Hn.
Qed.

(** C1: Through every interleaving of commands, writes that succeed, are
    refused, lost or committed without acknowledgement, snapshots and
    retention: the stores hold the history the entity started from followed
    by exactly the events published, in order; the actor's state and counter
    are always the replay of a prefix of that history, so it never exposes as
    current what is not stored; and whenever it is not waiting for a write nor
    about to stop, they are the replay of all of it. *)
Theorem entity_matches_store c tc st sn h ctx a x : sound c tc -> holds_history c tc st sn h ->
  recover D (fresh c tc) st sn ctx = Some (Ok a) -> rtc step (boot a st sn) x ->
  recoverable (D := D) (store x) (snaps x) c tc (h ++ published x) /\
  (alive x = true -> exists h' s, h' `prefix_of` h ++ published x /\ appended c tc 0 (InitialState D) h' s /\
    currentState D (actor x) = s /\ eventsCounter D (actor x) = N.of_nat (length h') /\
    (settled (actor x) = true -> h' = h ++ published x)).
Proof.
  intros Hso Hh Ha Hx. destruct (reachable_inv _ _ _ _ _ _ _ _ Hso Hh Ha Hx) as [Hinv _].
  split; [apply Hinv|]. intros Hal. destruct (inv_alive _ _ _ _ Hinv Hal) as (h' & s & [? ? ? ? ? ?] & Hp).
  apply phase_ok_prefix in Hp as [Hpre Hset]. exists h', s. split_and!; try done. intros Hs. symmetry. by apply Hset.
Qed.

Lemma recover_reliable c tc st sn h ctx {ESR : api.ReliableEventsStore St} {SSR : api.ReliableSnapshotStore Sn} :
  sound c tc -> holds_history c tc st sn h ->
  exists s a', appended c tc 0 (InitialState D) h s /\ recover D (fresh c tc) st sn ctx = Some (Ok a') /\
    currentState D a' = s /\ eventsCounter D a' = N.of_nat (length h) /\ (tenantAware c = true -> actorTenant D a' = tc).
Proof.
  intros Hso Hh. destruct (recover_fresh c tc st sn h ctx Hso Hh) as [(e & err & _ & _ & Hf)|(s & a' & Hs & Ha' & Hr)].
  - exfalso. destruct Hh as [(d & Hst & Hsn & _) _]. pose proof (so_scope _ _ Hso) as Hsc.
    destruct Hf as [He|[He|(from & to & limit & Hl & He)]].
    + destruct (api.slatest_succeeds sn (scope c) (persistenceID c) (sn_ok _ _ _ _ Hsn) Hsc). congruence.
    + destruct (api.latest_succeeds st (scope c) (persistenceID c) (st_ok _ _ _ _ Hst) (wf_scope_valid _ Hsc)). congruence.
    + destruct (api.replay_succeeds st (scope c) (persistenceID c) from to limit (st_ok _ _ _ _ Hst) (wf_scope_valid _ Hsc) Hl). congruence.
  - destruct Hr as (_ & ? & ? & ? & _). exists s, a'. split_and!; done.
Qed.

(** C2: An entity that crashes at any point, in any of those interleavings,
    and is started again on stores that answer, recovers: it rebuilds the
    state and the counter of the whole stored history, whatever snapshots were
    written and whatever retention deleted. *)
Theorem crash_recovery c tc st sn h ctx a x ctx'
  {ESR : api.ReliableEventsStore St} {SSR : api.ReliableSnapshotStore Sn} : sound c tc -> holds_history c tc st sn h ->
  recover D (fresh c tc) st sn ctx = Some (Ok a) -> rtc step (boot a st sn) x ->
  exists s a', appended c tc 0 (InitialState D) (h ++ published x) s /\
    recover D (fresh c tc) (store x) (snaps x) ctx' = Some (Ok a') /\
    currentState D a' = s /\ eventsCounter D a' = N.of_nat (length (h ++ published x)) /\
    (tenantAware c = true -> actorTenant D a' = tc).
Proof.
  intros Hso Hh Ha Hx. destruct (reachable_inv _ _ _ _ _ _ _ _ Hso Hh Ha Hx) as [[[K0 K1 _ _] _ _ _] _].
  by apply recover_reliable.
Qed.

(** C3: A command that was set aside while its write was pending is answered
    with the reply computed from it: whenever the entity hands out the replies
    of a batch, the next message in its mailbox is the command whose entry is
    next, and delivering it sends that entry to its sender; on the direct path
    the next message is the command that started the write, and delivering it
    sends it the outcome of that write: the error, or the state the actor then
    has, with its counter. *)
Theorem replies_reach_their_commands c tc st sn h ctx a x : sound c tc -> holds_history c tc st sn h ->
  recover D (fresh c tc) st sn ctx = Some (Ok a) -> rtc step (boot a st sn) x -> alive x = true ->
  let entries := batchEntries D (batch D (actor x)) in
  let i := (length entries - Z.to_nat (remainingReplies D (batch D (actor x))))%nat in
  (batchEnabled D (actor x) = true -> phase D (actor x) = phaseReplying ->
   exists id ctx cmd rest r, mailbox x = (id, MCommand ctx cmd) :: rest /\ owners x !! i = Some id /\ entries !! i = Some r /\
     forall T, replies (deliver x (id, MCommand ctx cmd) rest T) = replies x ++ [(id, r)]) /\
  (batchEnabled D (actor x) = false -> phase D (actor x) = phaseDirectReplying ->
   exists id ctx cmd rest, mailbox x = (id, MCommand ctx cmd) :: rest /\ owners x = [id] /\
     forall T, replies (deliver x (id, MCommand ctx cmd) rest T) = replies x ++ [(id,
       match directErr D (direct D (actor x)) with
       | Some e => errorReply D e
       | None => stateReply D (actor x) (currentStateAny D (actor x)) (eventsCounter D (actor x)) (lastCommandTime D (actor x))
       end)]).
Proof.
  intros Hso Hh Ha Hx Hlive entries i. destruct (reachable_inv _ _ _ _ _ _ _ _ Hso Hh Ha Hx) as [Hinv Hal].
  specialize (Hal Hlive). destruct (inv_alive _ _ _ _ Hinv Hlive) as (h' & s & Hs & Hp). split.
  - intros Hbe Hph. destruct (mailbox x) as [|m rest] eqn:Hm.
    { exfalso. unfold aligned in Hal. unfold phase_ok in Hp. rewrite Hbe, Hph in Hal, Hp.
      destruct Hal as (Hl & _ & own & rest & E & _ & Hids), Hp as (_ & _ & Hrem). rewrite Hm in E.
      symmetry in E. apply app_nil in E as [-> _]. apply (f_equal length) in Hids. rewrite length_drop in Hids. simpl in Hids. lia. }
    destruct (next_owner c tc _ _ _ _ _ _ Hal Hp Hm Hbe Hph) as (How & Hcmd & Hi & _ & _). fold entries i in How, Hi.
    destruct (lookup_lt_is_Some_2 _ _ Hi) as [r Hr]. destruct m as [id [ | | | |ctx1 cmd| ]]; try done.
    exists id, ctx1, cmd, rest, r. split_and!; try done. intros T.
    unfold phase_ok in Hp. rewrite Hbe, Hph in Hp. destruct Hp as (_ & _ & Hrem).
    unfold deliver. simpl Receive. rewrite Hbe. unfold handleCommandBatched. rewrite Hph. unfold replyFromBatch.
    rewrite (proj2 (Z.leb_gt _ _)) by lia. fold entries.
    replace (Z.to_nat _) with i by (unfold i, entries; lia). rewrite Hr.
    destruct (_ =? 0)%Z; [|done]. by destruct (shutdownOnDrain D (batch D (actor x))).
  - intros Hbe Hph. unfold aligned in Hal. rewrite Hbe, Hph in Hal. destruct Hal as (_ & m & rest & Hm & Hcmd & How).
    apply Forall_cons in Hcmd as [Hcmd _]. destruct m as [id [ | | | |ctx1 cmd| ]]; try done.
    exists id, ctx1, cmd, rest. split_and!; try done. intros T.
    unfold deliver. simpl Receive. rewrite Hbe, Hph. unfold replyDirect. simpl directErr.
    destruct (directErr D (direct D (actor x))); [|done]. simpl. by destruct (directShutdown D (direct D (actor x))).
Qed.

(** ** Start *)

(** An entity starts bound to its tenant or not at all: with tenancy on,
    an entity without an injected, valid tenant scope fails to start before
    any store is read; one that starts has the scope and the tenant identity
    of the injected id, and what it recovers is what [recover] finds for that
    configuration. *)
Theorem start_is_bound name aware deps shard (st : St) (store : option Sn) pe ps ctx emptySn a :
  PreStart D name aware deps shard st store pe ps ctx emptySn = Some (Ok a) ->
  exists c tc, sound c tc /\ persistenceID c = name /\ tenantAware c = aware /\
    recover D (fresh c tc) st (default emptySn store) ctx = Some (Ok a) /\
    (aware = true -> exists id pre post, deps = pre ++ DepEntityTenantScope id :: post /\
       NewTenantID id = Ok id /\ scope c = mkScope scopeTenant id /\ tc = mkTenantContext ScopeTenant id noAdministrative) /\
    (aware = false -> scope c = Unscoped).
Proof.
  unfold PreStart. destruct (resolveScope aware deps) as [[sc tc]|] eqn:Hsc; [|done].
  destruct (setConfig deps) as [[[interval ret] threshold] beh]. destruct (negb beh); [done|].
  destruct pe; [done|]. set (c := mkConfig _ _ _ _ _ _ _ _ _ _). intros Hr.
  assert (recover D (fresh c tc) st (default emptySn store) ctx = Some (Ok a)) as Hrec.
  { destruct store; [destruct ps; [done|]|]; exact Hr. }
  exists c, tc. unfold resolveScope in Hsc. destruct aware; simpl in Hsc.
  - assert (exists id pre post, deps = pre ++ DepEntityTenantScope id :: post /\ NewTenantID id = Ok id /\
      sc = mkScope scopeTenant id /\ tc = mkTenantContext ScopeTenant id noAdministrative) as Hid.
    { clear - Hsc. induction deps as [|d deps IH]; [done|].
      destruct d as [| | |id|]; try (destruct (IH Hsc) as (id' & pre & post & -> & ?); by eexists id', (_ :: pre), post).
      simpl in Hsc. destruct (NewTenantScope id) as [sc'|] eqn:E1; [|done].
      destruct (NewTenantScope_wf _ _ E1) as [Hwf ->]. change (TenantID (mkScope scopeTenant id)) with id in Hsc.
      destruct (NewTenantContext id) as [tc'|] eqn:E2; [|done]. injection Hsc as <- <-.
      destruct (NewTenantContext_wf _ _ E2) as [_ ->]. inversion Hwf. by exists id, [], deps. }
    destruct Hid as (id & pre & post & Hd & Hid & -> & ->). split_and!; try done.
    + split; simpl; [by constructor|intros _; by constructor|done].
    + intros _. by exists id, pre, post.
  - injection Hsc as <- <-. split_and!; try done. split; simpl; [constructor|done|done].
Qed.

(** ** The gates *)
Lemma gate_foreign (a : Actor D) ctx t : tenantAware (config D a) = true -> actorTenant D a <> noTenantContext ->
  From ctx = Some t -> t <> actorTenant D a -> exists e, tenantGate D a ctx = Err e.
Proof.
  intros Haw Hne Hf Ht. unfold tenantGate, Require. rewrite Haw, Hf. simpl. destruct (valid t); simpl; [|eauto].
  rewrite bool_decide_eq_true_2 by done. unfold VerifyUnchanged. rewrite bool_decide_eq_true_2 by done. simpl. eauto.
Qed.

Lemma gate_missing (a : Actor D) ctx : tenantAware (config D a) = true -> From ctx = None -> exists e, tenantGate D a ctx = Err e.
Proof. intros Haw Hf. unfold tenantGate, Require. rewrite Haw, Hf. simpl. eauto. Qed.

(** C30: A tenant-aware entity that is bound to a tenant neither runs a command
    nor shows its state to anyone else. A command without a tenant, or with
    another one, that finds it processing is answered with an error, the actor
    is unchanged and nothing is persisted, staged or set aside; one that comes
    while a write is in progress (a flush of the batch, or the write of a
    command when batching is off) is set aside and changes nothing else; what
    comes while the replies of a finished write are handed out, which are the
    commands set aside, is not the subject here. A state query of such a
    caller is answered with an error in every phase, the actor unchanged,
    except that without batching one that comes while a write is in progress
    or its reply is due is set aside. *)
Theorem foreign_tenant_refused (a : Actor D) ctx cmd T : tenantAware (config D a) = true ->
  actorTenant D a <> noTenantContext -> From ctx <> Some (actorTenant D a) ->
  (phase D a = phaseProcessing -> exists text, Receive D a (MCommand ctx cmd) T = (a, [Response (CommandReply_ErrorReply text)])) /\
  (phase D a = (if batchEnabled D a then phaseFlushing else phasePersisting) -> Receive D a (MCommand ctx cmd) T = (a, [Stash])) /\
  if negb (batchEnabled D a) && bool_decide (phase D a = phasePersisting \/ phase D a = phaseDirectReplying)
  then Receive D a (MGetState ctx) T = (a, [Stash])
  else exists text, Receive D a (MGetState ctx) T = (a, [Response (CommandReply_ErrorReply text)]).
Proof.
  intros Haw Hne Hf.
  assert (exists e, tenantGate D a ctx = Err e) as [e He].
  { destruct (From ctx) as [t|] eqn:E; [eapply gate_foreign; [done|done|exact E|congruence]|by apply gate_missing]. }
  split_and!; simpl.
  - intros Hph. exists (error_text (print_tbl D) e). unfold handleCommandBatched, processAndBatch, processCommandAndReply. rewrite Hph, He. by destruct (batchEnabled D a).
  - intros Hph. unfold handleCommandBatched. destruct (batchEnabled D a); by rewrite Hph.
  - unfold handleGetStateCommand, getStateAndReply. rewrite He.
    destruct (batchEnabled D a), (phase D a); simpl; try (by eexists); done.
Qed.

(** A command whose deadline has passed, or whose caller has gone, when it
    arrives or while its handler runs, persists nothing of its own: whatever
    the handler produced, the confirmed state and the batch's events and
    entries do not change, and the only write it can cause is the flush of
    what other commands had already staged. *)
Theorem late_command_persists_nothing (a : Actor D) ctx cmd T : phase D a = phaseProcessing ->
  protocol.CheckDeadline (t_gate1 T) ctx "before handler execution" <> None \/
  protocol.CheckDeadline (t_gate2 T) ctx "before persistence" <> None ->
  let '(a', effs) := Receive D a (MCommand ctx cmd) T in
  currentState D a' = currentState D a /\ eventsCounter D a' = eventsCounter D a /\
  batchBuffer D (batch D a') = batchBuffer D (batch D a) /\ batchEntries D (batch D a') = batchEntries D (batch D a) /\
  forall req, PipeTo req ∈ effs -> batchEnabled D a = true /\ envelopes req = batchBuffer D (batch D a).
Proof.
  intros Hph Hd. simpl. unfold handleCommandBatched. rewrite Hph.
  assert (forall a' r, currentState D a' = currentState D a -> eventsCounter D a' = eventsCounter D a ->
    batchBuffer D (batch D a') = batchBuffer D (batch D a) -> batchEntries D (batch D a') = batchEntries D (batch D a) ->
    currentState D a' = currentState D a /\ eventsCounter D a' = eventsCounter D a /\
    batchBuffer D (batch D a') = batchBuffer D (batch D a) /\ batchEntries D (batch D a') = batchEntries D (batch D a) /\
    forall req, PipeTo req ∈ [Response r] -> batchEnabled D a = true /\ envelopes req = batchBuffer D (batch D a)) as Hreply.
  { intros a' r ? ? ? ?. split_and!; try done. by intros req Hr%list_elem_of_singleton. }
  destruct (batchEnabled D a) eqn:Hbe.
  - unfold processAndBatch. destruct (tenantGate D a ctx); [|by apply Hreply].
    destruct (protocol.CheckDeadline (t_gate1 T) _ _); [by apply Hreply|]. destruct Hd as [?|Hd]; [done|].
    destruct (protocol.ExpectedRevisionFromContext _ _ _ _) as [r has].
    set (openb := match batchEntries D (batch D a) with [] => false | _ => true end).
    destruct (_ && _ && _).
    { simpl. split_and!; try done. intros req Hr. apply elem_of_cons in Hr as [[= ->]|Hr]; [done|].
      by apply list_elem_of_singleton in Hr. }
    destruct (dispatchToBehavior D ctx cmd _ T) as [[|ev evs]|]; [|destruct (buildEnvelopes D _ ctx _ _ _ _ _) as [[[? ?] ?]|];
      [destruct (protocol.CheckDeadline (t_gate2 T) _ _); [|done]|]|];
      destruct (openb && has), openb; by apply Hreply.
  - unfold processCommandAndReply. destruct (tenantGate D a ctx); [|by apply Hreply].
    destruct (protocol.CheckDeadline (t_gate1 T) _ _); [by apply Hreply|]. destruct Hd as [?|Hd]; [done|].
    destruct (dispatchToBehavior D ctx cmd _ T) as [[|ev evs]|]; [by apply Hreply| |by apply Hreply].
    destruct (buildEnvelopes D _ ctx _ _ _ _ _) as [[[? ?] ?]|]; [|by apply Hreply].
    destruct (protocol.CheckDeadline (t_gate2 T) _ _); [by apply Hreply|done].
Qed.

(** A command that declares the revision it expects joins an open batch
    only in the place it names: when it is staged, its declared revision is
    the one the batch had reached, its events are numbered from there on, and
    the batch will be written under the precondition of its own base. *)
Theorem declared_revision_joins_in_place (a : Actor D) ctx cmd T r :
  batchEnabled D a = true -> phase D a = phaseProcessing -> batchEntries D (batch D a) <> [] ->
  protocol.ExpectedRevisionFromContext (parse_time D) (map_range D) (t_meta T) ctx = (r, true) ->
  fits a (MCommand ctx cmd) T ->
  let '(a', effs) := Receive D a (MCommand ctx cmd) T in
  length (batchEntries D (batch D a')) <> length (batchEntries D (batch D a)) ->
  r = latestCounter D a /\ (exists envs, batchBuffer D (batch D a') = batchBuffer D (batch D a) ++ envs /\ numbered r envs) /\
  resolveBatchPrecondition D a' = protocol.PreconditionFromRevision (batchBase D (batch D a)) true.
Proof.
  intros Hbe Hph Hne Hrev Hfit. simpl. unfold handleCommandBatched. rewrite Hbe, Hph. unfold fits in Hfit.
  unfold processAndBatch. destruct (tenantGate D a ctx) as [t|]; [|by intros []].
  destruct (protocol.CheckDeadline (t_gate1 T) _ _); [by intros []|]. rewrite Hrev.
  destruct (batchEntries D (batch D a)) as [|en ents] eqn:Hent; [done|]. simpl.
  destruct (N.eqb_spec r (latestCounter D a)) as [->|]; simpl; [|by simpl; rewrite ?Hent; intros []].
  destruct (dispatchToBehavior D ctx cmd _ T) as [[|ev evs]|]; [by simpl; rewrite ?Hent; intros []| |by simpl; rewrite ?Hent; intros []].
  destruct (buildEnvelopes D _ ctx _ t _ _ _) as [[[envs s'] n']|] eqn:Hb; [|by simpl; rewrite ?Hent; intros []].
  destruct (protocol.CheckDeadline (t_gate2 T) _ _); [by simpl; rewrite ?Hent; intros []|].
  apply buildEnvelopes_numbered in Hb as (Hnum & _ & _); [|unfold api.max_int, two64 in *; lia].
  set (a1 := establishActorTenant D _ t).
  assert (batch D a1 = batch D (set_hasPrecondition D a)) as Hb1.
  { unfold a1, establishActorTenant. by destruct (_ && _). }
  destruct (_ <=? _)%Z; simpl; intros _; (split; [done|]);
    (split; [exists envs; by rewrite Hb1|]); unfold resolveBatchPrecondition; simpl; rewrite Hb1; simpl; rewrite Hent; done.
Qed.

(** ** Snapshots, retention and retries *)

(** C6: Retention runs behind the snapshot it relies on: for the snapshot of
    any prefix of the history, whether its write succeeds, is retried or
    fails, and for the retention request forwarded then, in any configuration
    of what is deleted and of how many events are kept, the stores still
    recover the whole history. *)
Theorem snapshot_then_retention_recovers c tc st sn h k req ctx canceled c1 c2 ctx'
  {ESR : api.ReliableEventsStore St} {SSR : api.ReliableSnapshotStore Sn} :
  sound c tc -> hasSnapshotStore c = true -> holds_history c tc st sn h ->
  snapshot_request (D := D) c tc h k (snapshot req) -> ps_scope req = scope c ->
  (forall r, retentionReq req = Some r -> retention_request c k r) ->
  let '(sn1, forwarded) := handlePersistSnapshot D sn ctx req canceled in
  let '(st2, sn2) := match forwarded with
    | Some r => handleApplyRetention st sn1 true r c1 c2
    | None => (st, sn1)
    end in
  exists s a', appended c tc 0 (InitialState D) h s /\
    recover D (fresh c tc) st2 sn2 ctx' = Some (Ok a') /\
    currentState D a' = s /\ eventsCounter D a' = N.of_nat (length h).
Proof.
  intros Hso Hhas [(d & Hst & Hsn & Hcov) Hrep] Hreq Hps Hret. pose proof (so_scope _ _ Hso) as Hsc.
  pose proof (handlePersistSnapshot_ok sn c tc h k req ctx canceled Hsc Hsn Hreq Hps) as Hok.
  destruct (handlePersistSnapshot D sn ctx req canceled) as [sn1 fw]. destruct Hok as (Hsn1 & Hmono & Hfw).
  assert (recoverable (D := D) st sn1 c tc h) as Hr1.
  { exists d. split_and!; [done..|]. destruct Hcov as [->|[_ ?]]; [by left|right; auto]. }
  assert (recoverable (D := D) (match fw with Some r => handleApplyRetention st sn1 true r c1 c2 | None => (st, sn1) end).1
    (match fw with Some r => handleApplyRetention st sn1 true r c1 c2 | None => (st, sn1) end).2 c tc h) as Hr2.
  { destruct fw as [r|]; [|done]. destruct Hfw as [Hr Hk].
    pose proof (handleApplyRetention_ok st sn1 c tc h k r c1 c2 Hsc Hr1 Hhas (Hret _ Hr)) as Ha.
    pose proof (sr_range _ _ _ _ _ Hreq). destruct (handleApplyRetention st sn1 true r c1 c2).
    destruct Ha as [? _]; [lia|done|done]. }
  destruct (match fw with Some r => _ | None => _ end) as [st2 sn2]. simpl in Hr2.
  destruct (recover_reliable c tc st2 sn2 h ctx' Hso (conj Hr2 Hrep)) as (s & a' & Hs & Ha & Hc & Hn & _). by exists s, a'.
Qed.

(** A retried operation is attempted at most [n + 1] times (the children
    pass 3), stops at its first success, and gives up early only when the context is cancelled: the
    result is that of one attempt [k], every attempt before it failed without
    a cancellation, and a failure is that of the last attempt or the
    cancellation's. *)
Theorem retry_attempts {X E} (op : X -> result E unit * X) canceled n x :
  exists k, (k <= n)%nat /\
    (forall j, (j < k)%nat -> (exists e, (op (Nat.iter j (fun x => (op x).2) x)).1 = Err e) /\ canceled j = None) /\
    let last := op (Nat.iter k (fun x => (op x).2) x) in
    (retryWithBackoff op canceled n 0 x).2 = last.2 /\
    match (retryWithBackoff op canceled n 0 x).1 with
    | Ok _ => last.1 = Ok tt
    | Err e => (exists e', last.1 = Err e') /\ ((last.1 = Err e /\ k = n) \/ canceled k = Some e)
    end.
Proof.
  assert (forall n m x, exists k, (k <= n)%nat /\
    (forall j, (j < k)%nat -> (exists e, (op (Nat.iter j (fun x => (op x).2) x)).1 = Err e) /\ canceled (m + j)%nat = None) /\
    let last := op (Nat.iter k (fun x => (op x).2) x) in
    (retryWithBackoff op canceled n m x).2 = last.2 /\
    match (retryWithBackoff op canceled n m x).1 with
    | Ok _ => last.1 = Ok tt
    | Err e => (exists e', last.1 = Err e') /\ ((last.1 = Err e /\ k = n) \/ canceled (m + k)%nat = Some e)
    end) as H; [|apply (H n 0%nat x)].
  clear n x. induction n as [|n IH]; intros m x; simpl; destruct (op x) as [[[]|e] x'] eqn:Hop.
  1, 3: exists 0%nat; split_and!; [lia|intros; lia|simpl; by rewrite Hop..].
  - exists 0%nat. split_and!; [lia|intros; lia|simpl; by rewrite Hop|]. simpl. rewrite Hop. simpl. eauto.
  - destruct (canceled m) as [ce|] eqn:Hca.
    + exists 0%nat. split_and!; [lia|intros; lia|simpl; by rewrite Hop|]. simpl. rewrite Hop. simpl.
      rewrite Nat.add_0_r. eauto.
    + destruct (IH (S m) x') as (k & Hk & Hbefore & Hlast & Hres). exists (S k).
      assert (forall j, Nat.iter (S j) (fun x => (op x).2) x = Nat.iter j (fun x => (op x).2) x') as Hit.
      { intros j. rewrite Nat.iter_succ_r. by rewrite Hop. }
      rewrite Hit. split; [lia|]. split_and!; [|done|].
      * intros [|j] Hj; [simpl; rewrite Hop, Nat.add_0_r; eauto|]. rewrite Hit, <- plus_n_Sm. apply Hbefore. lia.
      * rewrite <- plus_n_Sm. simpl in Hres. destruct (retryWithBackoff op canceled n (S m) x').1; [done|].
        destruct Hres as (? & [[? ->]|?]); eauto.
Qed.
End Guarantees.

(** ** A concrete entity

    A counter: a command is the list of increments it wants recorded. *)
Definition any_of_Z (url : string) (z : Z) : Any := mkAny url (command.decimal_time z).
Definition Z_of_any (a : option Any) : result string Z :=
  match a with
  | Some a => match command.parse_decimal_time (Value a) with Some z => Ok z | None => Err "malformed" end
  | None => Err "nil"
  end.

Definition counterDeps : Deps := mkDeps Z Z (list Z) 0%Z 0%Z
  (fun _ cmd _ => Ok cmd) (fun _ e s => Ok (s + e)%Z) None
  (any_of_Z "state") Z_of_any (any_of_Z "event") Z_of_any
  (fun _ => Err "unused") (fun _ => Err "unused") None [] command.parse_decimal_time map_to_list (fun _ => false).

#[export] Instance counter_lawful : LawfulDeps counterDeps.
Proof.
  split; simpl; try done.
  - intros s. by rewrite command.decimal_time_roundtrip.
  - intros e. by rewrite command.decimal_time_roundtrip.
  - intros adapt e n Hin. by apply not_elem_of_nil in Hin.
Qed.

#[export] Existing Instances testkit.EventStore_ops testkit.EventStore_laws testkit.EventStore_reliable.
#[export] Instance snap_ops : api.SnapshotStore snapshotstore.SnapshotStore := snapshotstore.SnapshotStore_ops map_to_list.
#[export] Instance snap_laws : api.SnapshotStoreLaws snapshotstore.SnapshotStore :=
  snapshotstore.SnapshotStore_laws map_to_list (fun m => reflexivity (R := Permutation) _).
#[export] Instance snap_reliable : api.ReliableSnapshotStore snapshotstore.SnapshotStore :=
  snapshotstore.SnapshotStore_reliable map_to_list (fun m => reflexivity (R := Permutation) _).

(** Snapshots every [interval] events, batches of [threshold] events, and a
    retention policy. *)
Definition counter_config (interval : N) (threshold : Z) (ret : option retentionPolicy) : Config :=
  mkConfig "counter" true interval ret true (match ret with Some _ => true | None => false end) 0 threshold false Unscoped.

Definition st0 : testkit.EventStore := testkit.Connect testkit.NewEventsStore.
Definition sn0 : snapshotstore.SnapshotStore := snapshotstore.Connect snapshotstore.NewSnapshotStore.
Definition T0 : Times := mkTimes 1 2 3 4.

Lemma counter_sound interval threshold ret : sound (counter_config interval threshold ret) noTenantContext.
Proof. split; simpl; [constructor|done|done]. Qed.

Lemma empty_history interval threshold ret : holds_history (D := counterDeps) (counter_config interval threshold ret) noTenantContext st0 sn0 [].
Proof.
  split; [|exists 0%Z; apply appended_nil]. exists 0%N. split_and!; [|split; simpl|by left].
  - split; simpl; try done. intros k e.
    change (testkit.stream_of st0 Unscoped "counter") with (@None api.stream).
    simpl. rewrite lookup_empty. split; [done|by intros [_ ?]].
  - apply map_Forall_empty.
  - intros k s Hs. unfold snapshotstore.snapshots_of in Hs. by vm_compute in Hs.
Qed.

(** The counter, started on empty stores. *)
Definition counter0 (interval : N) (threshold : Z) (ret : option retentionPolicy) : Actor counterDeps :=
  set_state counterDeps (fresh (counter_config interval threshold ret) noTenantContext) 0%Z.

Lemma counter_starts interval threshold ret :
  recover counterDeps (fresh (counter_config interval threshold ret) noTenantContext) st0 sn0 Background = Some (Ok (counter0 interval threshold ret)).
Proof. reflexivity. Qed.

(** One schedule: command [m] arrives, is handled, its write is performed and
    the response handled. *)
Definition next (x : Sys (D := counterDeps) (St := testkit.EventStore) (Sn := snapshotstore.SnapshotStore)) : Sys :=
  match mailbox x with m :: rest => deliver x m rest T0 | [] => x end.
Definition arrive (x : Sys (D := counterDeps) (St := testkit.EventStore) (Sn := snapshotstore.SnapshotStore)) (id : nat) (m : message counterDeps) : Sys :=
  mkSys (actor x) (alive x) (mailbox x ++ [(id, m)]) (stash x) (store x) (snaps x) (inflight x)
    (snapq x) (retq x) (replies x) (published x) (owners x).
Definition write (x : Sys (D := counterDeps) (St := testkit.EventStore) (Sn := snapshotstore.SnapshotStore)) : Sys :=
  match inflight x with
  | req :: fl =>
    let '(r, st', evs) := handlePersistEvents (store x) req in
    mkSys (actor x) (alive x) (mailbox x ++ [(0%nat, MPersistResponse r)]) (stash x) st' (snaps x) fl
      (snapq x) (retq x) (replies x) (published x ++ evs) (owners x)
  | [] => x
  end.

Lemma next_step x m rest : alive x = true -> mailbox x = m :: rest -> fits (actor x) m.2 T0 -> step x (next x).
Proof. intros Hal Hm Hf. unfold next. rewrite Hm. by apply step_deliver. Qed.
Lemma arrive_step x id m : external m = true -> step x (arrive x id m).
Proof. apply step_arrive. Qed.
Lemma write_step x req fl : inflight x = req :: fl -> step x (write x).
Proof.
  intros Hfl. unfold write. rewrite Hfl. destruct (handlePersistEvents (store x) req) as [[r st'] evs] eqn:E.
  by eapply step_write.
Qed.

Definition add (l : list Z) : message counterDeps := MCommand (D := counterDeps) Background l.
Definition run_direct : Sys :=
  next (write (next (arrive (boot (counter0 2 0 None) st0 sn0) 1 (add [5; 7]%Z)))).

Ltac schedule :=
  repeat (first [ apply rtc_refl
    | eapply rtc_r; [|first [ eapply next_step; [reflexivity|reflexivity|vm_compute; done]
                            | eapply write_step; reflexivity | eapply arrive_step; reflexivity ]] ]).

Lemma run_direct_steps : rtc step (boot (counter0 2 0 None) st0 sn0) run_direct.
Proof. unfold run_direct. schedule. Qed.

Lemma entity_matches_store_witness :
  recoverable (D := counterDeps) (store run_direct) (snaps run_direct) (counter_config 2 0 None) noTenantContext (published run_direct) /\
  length (published run_direct) = 2%nat /\ currentState counterDeps (actor run_direct) = 12%Z.
Proof.
  destruct (entity_matches_store (counter_config 2 0 None) noTenantContext st0 sn0 [] Background (counter0 2 0 None) run_direct
    (counter_sound 2 0 None) (empty_history 2 0 None) (counter_starts 2 0 None) run_direct_steps) as [H _].
  rewrite app_nil_l in H. split; [exact H|]. split; reflexivity.
Defined.

Lemma crash_recovery_witness : exists a',
  recover counterDeps (fresh (counter_config 2 0 None) noTenantContext) (store run_direct) (snaps run_direct) Background = Some (Ok a') /\
  eventsCounter counterDeps a' = 2%N.
Proof.
  destruct (crash_recovery (counter_config 2 0 None) noTenantContext st0 sn0 [] Background (counter0 2 0 None) run_direct Background
    (counter_sound 2 0 None) (empty_history 2 0 None) (counter_starts 2 0 None) run_direct_steps) as (s & a' & _ & Ha & _ & Hn & _).
  exists a'. split; [exact Ha|exact Hn].
Defined.

(** Two commands fill a batch of two events; it is flushed and written. *)
Definition run_batched : Sys :=
  next (write (next (next (arrive (arrive (boot (counter0 2 2 None) st0 sn0) 1 (add [5]%Z)) 2 (add [7]%Z))))).

Lemma run_batched_steps : rtc step (boot (counter0 2 2 None) st0 sn0) run_batched.
Proof. unfold run_batched. schedule. Qed.

Lemma replies_reach_their_commands_witness : exists id ctx cmd rest r,
  mailbox run_batched = (id, MCommand ctx cmd) :: rest /\ owners run_batched !! 0%nat = Some id /\ id = 1%nat /\
  forall T, replies (deliver run_batched (id, MCommand ctx cmd) rest T) = replies run_batched ++ [(id, r)].
Proof.
  destruct (replies_reach_their_commands (counter_config 2 2 None) noTenantContext st0 sn0 [] Background (counter0 2 2 None) run_batched
    (counter_sound 2 2 None) (empty_history 2 2 None) (counter_starts 2 2 None) run_batched_steps eq_refl) as [H _].
  destruct (H eq_refl eq_refl) as (id & ctx & cmd & rest & r & Hm & Ho & _ & Hr).
  change (owners run_batched !! 0%nat = Some id) in Ho.
  exists id, ctx, cmd, rest, r. split; [exact Hm|]. split; [exact Ho|]. split; [|exact Hr].
  assert (owners run_batched !! 0%nat = Some 1%nat) as E by reflexivity. rewrite E in Ho. by injection Ho.
Defined.

Definition acme : TenantContext := mkTenantContext ScopeTenant "acme" noAdministrative.

Lemma start_is_bound_witness : exists a c tc,
  PreStart counterDeps "counter" true [DepBehavior; DepEntityTenantScope "acme"] 0 st0 (Some sn0) None None Background sn0 = Some (Ok a) /\
  sound c tc /\ scope c = mkScope scopeTenant "acme" /\ tc = acme.
Proof.
  destruct (start_is_bound "counter" true [DepBehavior; DepEntityTenantScope "acme"] 0 st0 (Some sn0) None None Background sn0
    (set_state counterDeps (fresh (mkConfig "counter" true 0 None true false 0 0 true (mkScope scopeTenant "acme")) acme) 0%Z))
    as (c & tc & Hs & _ & _ & _ & Hb & _); [reflexivity|].
  destruct (Hb eq_refl) as (id & pre & post & Hd & _ & Hsc & Htc).
  assert (id = "acme") as ->.
  { destruct pre as [|? [|? [|? pre]]]; simpl in Hd; injection Hd; intros; subst; try discriminate; congruence. }
  eexists _, c, tc. split; [reflexivity|]. split; [exact Hs|]. split; [exact Hsc|exact Htc].
Defined.

(** The counter of a tenant. *)
Definition acme_counter : Actor counterDeps :=
  set_state counterDeps (fresh (mkConfig "counter" true 0 None true false 0 0 true (mkScope scopeTenant "acme")) acme) 0%Z.

Lemma foreign_tenant_refused_witness : exists text,
  Receive counterDeps acme_counter
    (MCommand (D := counterDeps) (with_tenant Background (mkTenantContext ScopeTenant "other" noAdministrative)) [1%Z]) T0
  = (acme_counter, [Response (CommandReply_ErrorReply text)]).
Proof.
  destruct (foreign_tenant_refused acme_counter
    (with_tenant Background (mkTenantContext ScopeTenant "other" noAdministrative)) [1%Z] T0) as [H _];
    [reflexivity|discriminate|discriminate|exact (H eq_refl)].
Defined.

Lemma late_command_persists_nothing_witness :
  eventsCounter counterDeps (Receive counterDeps (counter0 2 0 None)
    (MCommand (D := counterDeps) (mkContext None None (Some 3%Z) None) [1%Z]) T0).1 = 0%N.
Proof.
  pose proof (late_command_persists_nothing (D := counterDeps) (counter0 2 0 None) (mkContext None None (Some 3%Z) None) [1%Z] T0 eq_refl) as H.
  destruct (Receive counterDeps (counter0 2 0 None) (MCommand (D := counterDeps) (mkContext None None (Some 3%Z) None) [1%Z]) T0) as [a' effs].
  destruct H as (_ & H & _); [right; discriminate|exact H].
Defined.

(** A command context that declares an expected revision. *)
Definition expecting (n : N) : Context :=
  protocol.AttachCarrier Background (command.MarshalMetadata command.decimal_time
    (command.mkMetadata "op-1" "flow" "" false noTenantContext false command.noPrincipal false ∅ 1 0 false n true)).

(** The batched counter with one command staged. *)
Definition staged : Sys := next (arrive (boot (counter0 2 3 None) st0 sn0) 1 (add [5]%Z)).

Lemma declared_revision_joins_in_place_witness :
  let a' := (Receive counterDeps (actor staged) (MCommand (D := counterDeps) (expecting 1) [7%Z]) T0).1 in
  exists envs, batchBuffer counterDeps (batch counterDeps a') = batchBuffer counterDeps (batch counterDeps (actor staged)) ++ envs /\
    numbered 1 envs /\ resolveBatchPrecondition counterDeps a' = ExpectGenesis.
Proof.
  pose proof (declared_revision_joins_in_place (actor staged) (expecting 1) [7%Z] T0 1 eq_refl eq_refl) as H.
  destruct (Receive counterDeps (actor staged) (MCommand (D := counterDeps) (expecting 1) [7%Z]) T0) as [a' effs] eqn:E.
  destruct H as (_ & (envs & Hb & Hn) & Hp); [discriminate|vm_compute; reflexivity|vm_compute; discriminate| |].
  - replace a' with (Receive counterDeps (actor staged) (MCommand (D := counterDeps) (expecting 1) [7%Z]) T0).1 by (by rewrite E).
    vm_compute. discriminate.
  - exists envs. split; [exact Hb|]. split; [exact Hn|exact Hp].
Defined.

(** The counter with retention, after the events of its first snapshot. *)
Definition delete_all := Some (mkRetentionPolicy true true 0).
Definition run_retained : Sys :=
  next (write (next (arrive (boot (counter0 2 0 delete_all) st0 sn0) 1 (add [5; 7]%Z)))).

Lemma run_retained_steps : rtc step (boot (counter0 2 0 delete_all) st0 sn0) run_retained.
Proof. unfold run_retained. schedule. Qed.

Definition requested : persistSnapshotRequest :=
  match snapq run_retained with
  | r :: _ => r
  | [] => mkPersistSnapshotRequest (newSnapshotEnvelope counterDeps (actor run_retained) (any_of_Z "" 0)) None Unscoped
  end.

(** Retention then deletes every event. *)
Lemma retained_empty :
  let '(sn1, forwarded) := handlePersistSnapshot counterDeps (snaps run_retained) Background requested (fun _ => None) in
  let '(st2, sn2) := match forwarded with
    | Some r => handleApplyRetention (store run_retained) sn1 true r (fun _ => None) (fun _ => None)
    | None => (store run_retained, sn1)
    end in
  api.GetLatestEvent st2 Unscoped "counter" = Ok None.
Proof. vm_compute. reflexivity. Qed.

Lemma requested_only : snapq run_retained = [requested].
Proof. vm_compute. reflexivity. Qed.
Lemma retained_length : N.of_nat (length (published run_retained)) = 2%N.
Proof. vm_compute. reflexivity. Qed.

Lemma requested_ok : holds_history (D := counterDeps) (counter_config 2 0 delete_all) noTenantContext
    (store run_retained) (snaps run_retained) (published run_retained) /\
  exists k, snapshot_request (D := counterDeps) (counter_config 2 0 delete_all) noTenantContext (published run_retained) k (snapshot requested) /\
    ps_scope requested = Unscoped /\
    forall r, retentionReq requested = Some r -> retention_request (counter_config 2 0 delete_all) k r.
Proof.
  destruct (reachable_inv _ _ _ _ _ _ _ _ (counter_sound 2 0 delete_all) (empty_history 2 0 delete_all)
    (counter_starts 2 0 delete_all) run_retained_steps) as [[[K0 K1 K2 _] _ _ _] _].
  rewrite app_nil_l in K0, K1, K2. rewrite requested_only in K2. apply Forall_cons in K2 as [(k & Hreq & Hps & _ & Hret) _].
  split; [exact (conj K1 K0)|]. exists k. split; [exact Hreq|]. split; [exact Hps|exact Hret].
Qed.

Lemma snapshot_then_retention_recovers_witness :
  let '(sn1, forwarded) := handlePersistSnapshot counterDeps (snaps run_retained) Background requested (fun _ => None) in
  let '(st2, sn2) := match forwarded with
    | Some r => handleApplyRetention (store run_retained) sn1 true r (fun _ => None) (fun _ => None)
    | None => (store run_retained, sn1)
    end in
  api.GetLatestEvent st2 Unscoped "counter" = Ok None /\
  exists a', recover counterDeps (fresh (counter_config 2 0 delete_all) noTenantContext) st2 sn2 Background = Some (Ok a') /\
    eventsCounter counterDeps a' = 2%N.
Proof.
  destruct requested_ok as (Hh & k & Hreq & Hps & Hret).
  pose proof (snapshot_then_retention_recovers (counter_config 2 0 delete_all) noTenantContext (store run_retained) (snaps run_retained)
    (published run_retained) k requested Background (fun _ => None) (fun _ => None) (fun _ => None) Background
    (counter_sound 2 0 delete_all) eq_refl Hh Hreq Hps Hret) as H.
  pose proof retained_empty as He.
  destruct (handlePersistSnapshot counterDeps _ _ _ _) as [sn1 fw]. destruct (match fw with Some r => _ | None => _ end) as [st2 sn2].
  destruct H as (s & a' & _ & Ha & _ & Hn).
  split; [exact He|]. exists a'. split; [exact Ha|]. rewrite Hn. exact retained_length.
Defined.

(** ** What the direct and batched paths do not do *)

(** On the direct path a snapshot is requested only when the counter lands
    on a multiple of the interval: an entity with an interval of two whose
    first command records one event and each later one two never requests a
    snapshot, although each of those commands crosses a multiple, which the
    batched path would detect. *)
Theorem direct_path_skips_snapshots (k : N) s ts ca :
  let c := counter_config 2 0 None in
  let a := mkActor counterDeps c s ca (1 + 2 * k) ts phasePersisting (resetBatch counterDeps)
    (mkDirect counterDeps s (3 + 2 * k) ts 2 None false) false noTenantContext in
  let '(a', effs) := handleDirectPersistResponse counterDeps a None in
  effs = [UnstashAll] /\ eventsCounter counterDeps a' = (3 + 2 * k)%N /\
  crossedSnapshotBoundary counterDeps a' (eventsCounter counterDeps a) = true.
Proof.
  simpl. unfold triggerSnapshotAndRetention, crossedSnapshotBoundary. simpl.
  replace ((3 + 2 * k) mod 2)%N with 1%N.
  2: { replace (3 + 2 * k)%N with (1 + (k + 1) * 2)%N by lia. by rewrite N.Div0.mod_add. }
  split_and!; [done|done|]. apply N.ltb_lt.
  replace (3 + 2 * k)%N with (1 + (k + 1) * 2)%N by lia. replace (1 + 2 * k)%N with (1 + k * 2)%N by lia.
  rewrite !N.div_add by done. change (1 / 2)%N with 0%N. lia.
Qed.

(** A command that records nothing is answered at once even while a batch
    is open, and from the batch's unconfirmed state: here a caller is told the
    counter is 5 at sequence number 1 while nothing is stored; when the
    pending write then fails, the entity stops and the next start is back at
    0. *)
Theorem batch_reply_before_commit :
  let x := next (arrive staged 2 (add [])) in
  replies x = [(2%nat, CommandReply_StateReply (mkStateReply "counter" (Some (any_of_Z "state" 5)) 1 zeroTime STATUS_NONE))] /\
  store x = st0 /\ published x = [] /\
  match recover counterDeps (fresh (counter_config 2 3 None) noTenantContext) (store x) (snaps x) Background with
  | Some (Ok a') => currentState counterDeps a' = 0%Z
  | _ => False
  end.
Proof. vm_compute. repeat split. Qed.

(** The declared revision is compared with the store only, and the events
    are numbered from the actor's own counter: an actor that is behind, at
    revision 1, while another writer has committed revision 2, accepts a
    command that expects revision 2; its write passes the store's check and
    replaces the other writer's event, whose increment of 10 is gone. *)
Theorem stale_actor_overwrites :
  let c := counter_config 0 0 None in
  let env n e := mkEvent "counter" n false (Some (any_of_Z "event" e)) 0 0 "" false ∅ in
  let st1 := (api.WriteEvents st0 Unscoped [env 1%N 1%Z] ExpectGenesis).2 in
  let st2 := (api.WriteEvents st1 Unscoped [env 2%N 10%Z] (ExpectRevision 1)).2 in
  match recover counterDeps (fresh c noTenantContext) st1 sn0 Background with
  | Some (Ok a) =>
    match Receive counterDeps a (MCommand (D := counterDeps) (expecting 2) [100%Z]) T0 with
    | (_, [Stash; PipeTo req]) =>
      precondition req = ExpectRevision 2 /\
      match handlePersistEvents st2 req with
      | (None, st3, _) =>
        match recover counterDeps (fresh c noTenantContext) st3 sn0 Background with
        | Some (Ok a3) => eventsCounter counterDeps a3 = 2%N /\ currentState counterDeps a3 = 101%Z
        | _ => False
        end
      | _ => False
      end
    | _ => False
    end
  | _ => False
  end.
Proof. vm_compute. repeat split. Qed.
End eventsource_correct.
