(* ===== verification/DurableState.v ===== *)
(** * The durable-state entity ([src/internal/engine/durablestate])

    The actor of [durable_state_actor.go]: it keeps one record per entity in
    the state store and commits a command by one conditional write. Its store
    calls are synchronous, so a handler takes the store and returns it next to
    the reply and what it published. User code and the protobuf library are
    fields of [Deps]. *)

From S2P Require Import Prelude GoStrings Tenancy Persistence Egopb StoreApi StateStores Command Protocol EventSourced.
From Stdlib Require Import ZArith Lia.
Open Scope string_scope.
Open Scope list_scope.
Open Scope urd_scope.

Module durablestate.
Import persistence egopb tenancy.

(** Errors, their wrapping and their text are those of the event-sourced
    entity. *)
Abbreviation error := eventsource.error.
Abbreviation EText := eventsource.EText.
Abbreviation EStoreError := eventsource.EStoreError.
Abbreviation ETenancy := eventsource.ETenancy.
Abbreviation EWrap := eventsource.EWrap.
Abbreviation wrap := eventsource.wrap.
Abbreviation cause := eventsource.cause.

Record Deps := mkDeps {
  State : Type;
  Cmd : Type;
  nilState : State;
  (** [ProtoReflect().Descriptor().FullName()] *)
  stateType : State -> string;
  (** [behaviorport.DurableState], and the optional [HandleEnvelope] *)
  InitialState : State;
  HandleCommand : Context -> Cmd -> N -> State -> result string (State * N);
  HandleEnvelope : option (Context -> command.Envelope Cmd -> N -> State -> result string (State * N));
  (** [anypb.New] and [Any.UnmarshalTo] *)
  anyOfState : State -> result string Any;
  UnmarshalTo : Any -> result string State;
  (** [int] of a [float64] beyond its range: implementation-specific in Go *)
  int_overflow : Z;
  parse_time : string -> option Z;
  map_range : gmap string string -> list (string * string);
  print_tbl : Z -> bool
}.

Section Actor.
Context (D : Deps).

(** ** State *)
Record Config := mkConfig {
  persistenceID : string;
  shardNumber : N;
  tenantAware : bool;
  scope : persistence.Scope
}.

Record Actor := mkActor {
  config : Config;
  currentState : State D;
  cachedStateAny : option Any;
  currentVersion : N;
  lastCommandTime : Z;
  actorTenant : TenantContext
}.

Definition pid (a : Actor) : string := persistenceID (config a).

(** [float64(n)] of a [uint64]: 53 significant bits, ties to even. *)
Definition float64_of_u64 (n : N) : N :=
  let extra := (N.size n - 53)%N in
  if (extra =? 0)%N then n
  else
    let q := N.shiftr n extra in
    let r := (n - N.shiftl q extra)%N in
    let half := N.shiftl 1 (N.pred extra) in
    let q := if (half <? r)%N || ((r =? half)%N && N.odd q) then (q + 1)%N else q in
    N.shiftl q extra.

(** [int(x)] of a non-negative whole [float64]. *)
Definition int_of_float (x : N) : Z :=
  if (x <? 9223372036854775808)%N then Z.of_N x else int_overflow D.

Definition checkPreconditions (a : Actor) (newState : State D) (newVersion : N) : result error unit :=
  let currentStateType := stateType D (currentState a) in
  let latestStateType := stateType D newState in
  if negb (bool_decide (currentStateType = latestStateType))
  then Err (EText ("mismatch state types: " +:+ currentStateType +:+ " != " +:+ latestStateType))
  else
    let proceed := (int_of_float (float64_of_u64 (u64_sub newVersion (currentVersion a))) =? 1)%Z in
    if negb proceed
    then Err (EText (pid a +:+ " received version=(" +:+ format_uint newVersion +:+
      ") while current version is (" +:+ format_uint (currentVersion a) +:+ ")"))
    else Ok tt.

Definition currentStateAny (a : Actor) : option Any :=
  match cachedStateAny a with Some s => Some s | None => rok (anyOfState D (currentState a)) end.

(** The field assignment of [currentStateAny]. *)
Definition cache (a : Actor) : Actor :=
  mkActor (config a) (currentState a) (currentStateAny a) (currentVersion a) (lastCommandTime a) (actorTenant a).

Definition sendErrorReply (e : error) : CommandReply := CommandReply_ErrorReply (eventsource.error_text (print_tbl D) e).
Definition sendStateReply (a : Actor) : Actor * CommandReply :=
  (cache a, CommandReply_StateReply (mkStateReply (pid a) (currentStateAny a) (currentVersion a) (lastCommandTime a) STATUS_NONE)).

Definition dispatchToBehavior (ctx : Context) (cmd : Cmd D) (priorVersion : N) (priorState : State D) (now : Z) : result string (State D * N) :=
  match HandleEnvelope D with
  | None => HandleCommand D ctx cmd priorVersion priorState
  | Some handleEnvelope =>
    match protocol.MetadataFromContext (parse_time D) (map_range D) now ctx with
    | None => HandleCommand D ctx cmd priorVersion priorState
    | Some md =>
      match command.NewEnvelope (Some cmd) md with
      | Err _ => HandleCommand D ctx cmd priorVersion priorState
      | Ok env => handleEnvelope ctx env priorVersion priorState
      end
    end
  end.

(** The tenant gate of [processCommand] and [getStateAndReply]. *)
Definition tenantGate (a : Actor) (ctx : Context) : result error TenantContext :=
  if negb (tenantAware (config a)) then Ok noTenantContext
  else
    let? tc := rmap_err ETenancy (Require ctx) in
    let? _ :=
      if bool_decide (actorTenant a <> noTenantContext)
      then rmap_err ETenancy (VerifyUnchanged (actorTenant a) tc) else Ok tt in
    Ok tc.

Definition verifyTenantForPersist (a : Actor) (ctx : Context) : result error unit :=
  if negb (tenantAware (config a)) then Ok tt
  else let? _ := rmap_err ETenancy (Require ctx) in Ok tt.

Definition provablyInSyncAfterConflict (a : Actor) (e : error) : bool :=
  match cause e with
  | EStoreError (EConflict c) => let '(actual, ok) := ActualRevision c in ok && (actual =? currentVersion a)%N
  | _ => false
  end.

Inductive dependency :=
| DepNil
| DepBehavior
| DepEntityTenantScope (tenantID : string)
| DepOther.

Fixpoint resolveTenantScope (deps : list dependency) : result error (persistence.Scope * TenantContext) :=
  match deps with
  | [] => Err (EText eventsource.ErrEntityTenantScopeMissing)
  | DepEntityTenantScope id :: _ =>
    match NewTenantScope id with
    | Err e => Err (EWrap eventsource.ErrEntityTenantScopeMissing (ETenancy e))
    | Ok sc =>
      match NewTenantContext (TenantID sc) with
      | Err e => Err (EWrap eventsource.ErrEntityTenantScopeMissing (ETenancy e))
      | Ok tc => Ok (sc, tc)
      end
    end
  | _ :: deps => resolveTenantScope deps
  end.

Definition resolveScope (aware : bool) (deps : list dependency) : result error (persistence.Scope * TenantContext) :=
  if negb aware then Ok (Unscoped, noTenantContext) else resolveTenantScope deps.

(** What [time.Now] returned at the points of one command. *)
Record Times := mkTimes { t_gate1 : Z; t_meta : Z; t_gate2 : Z; t_commit : Z }.

Section Store.
Context {St : Type} `{api.StateStore St}.

Definition recoverFromStore (a : Actor) (st : St) : result error Actor :=
  let? durableState := wrap "failed to get the latest state"
    (rmap_err EStoreError (api.GetLatestState st (scope (config a)) (pid a))) in
  match durableState with
  | None => Ok (mkActor (config a) (InitialState D) (cachedStateAny a) (currentVersion a) (lastCommandTime a) (actorTenant a))
  | Some d =>
    if tenantAware (config a) && (VersionNumber d =? 0)%N
    then Ok (mkActor (config a) (InitialState D) (cachedStateAny a) (currentVersion a) (lastCommandTime a) (actorTenant a))
    else
      let? tenant :=
        if tenantAware (config a) then
          let? tc := wrap "failed to unmarshal durable state tenant metadata"
            (rmap_err ETenancy (UnmarshalMetadata (dTenantMetadata d))) in
          if bool_decide (actorTenant a <> noTenantContext) then
            let? _ := wrap "recovered tenant metadata does not match the spawn-bound tenant"
              (rmap_err ETenancy (VerifyUnchanged (actorTenant a) tc)) in
            Ok (actorTenant a)
          else Ok tc
        else Ok (actorTenant a) in
      let? state :=
        match ResultingState d with
        | None => Ok (InitialState D)
        | Some any => wrap "failed to unmarshal the latest state" (rmap_err EText (UnmarshalTo D any))
        end in
      Ok (mkActor (config a) state (cachedStateAny a) (VersionNumber d) (lastCommandTime a) tenant)
  end.

(** On an error of the corrective read the actor keeps what it had, except
    that a tenant read before the failing step stays assigned; with the tenant
    bound at spawn that step assigns nothing. *)
Definition recoverFromConflictIfNeeded (a : Actor) (st : St) (e : error) : Actor :=
  if provablyInSyncAfterConflict a e then a
  else match recoverFromStore a st with Ok a' => a' | Err _ => a end.

(** The new actor, the new store, the error and what is published. *)
Definition commitState (a : Actor) (st : St) (newState : State D) (newVersion : N) (commandTime : Z)
    (candidateTenant : TenantContext) (p : WritePrecondition) : Actor * St * option error * list DurableState :=
  match anyOfState D newState with
  | Err m => (a, st, Some (EText m), [])
  | Ok newStateAny =>
    let d := mkDurableState (pid a) newVersion (Some newStateAny) commandTime (shardNumber (config a))
      (if tenantAware (config a) then tenancy.MarshalMetadata candidateTenant else ∅) in
    match api.WriteState st (scope (config a)) d p with
    | (Err e, st') => (a, st', Some (EStoreError e), [])
    | (Ok _, st') =>
      (mkActor (config a) newState (Some newStateAny) newVersion commandTime
         (if tenantAware (config a) then candidateTenant else actorTenant a), st', None, [d])
    end
  end.

(** ** Messages *)
Inductive message :=
| MGetState (ctx : Context)
| MTenantBindingQuery (tenantId : string)
| MCommand (ctx : Context) (cmd : Cmd D).

Inductive response := RCommand (r : CommandReply) | RBinding (r : TenantBindingReply).

Definition processCommand (a : Actor) (st : St) (ctx : Context) (cmd : Cmd D) (T : Times) : Actor * St * CommandReply * list DurableState :=
  let refuse e := (a, st, sendErrorReply e, []) in
  match tenantGate a ctx with
  | Err e => refuse e
  | Ok candidateTenant =>
    match protocol.CheckDeadline (t_gate1 T) ctx "before handler execution" with
    | Some m => refuse (EText m)
    | None =>
      match dispatchToBehavior ctx cmd (currentVersion a) (currentState a) (t_meta T) with
      | Err m => refuse (EText m)
      | Ok (newState, newVersion) =>
        match checkPreconditions a newState newVersion with
        | Err e => refuse e
        | Ok _ =>
          match protocol.CheckDeadline (t_gate2 T) ctx "before persistence" with
          | Some m => refuse (EText m)
          | None =>
            match verifyTenantForPersist a ctx with
            | Err e => refuse e
            | Ok _ =>
              let '(revision, hasRevision) := protocol.ExpectedRevisionFromContext (parse_time D) (map_range D) (t_meta T) ctx in
              let p := protocol.PreconditionFromRevision revision hasRevision in
              match commitState a st newState newVersion (t_commit T) candidateTenant p with
              | (a', st', Some e, pub) => (recoverFromConflictIfNeeded a' st' e, st', sendErrorReply e, pub)
              | (a', st', None, pub) => let '(a'', r) := sendStateReply a' in (a'', st', r, pub)
              end
            end
          end
        end
      end
    end
  end.

Definition getStateAndReply (a : Actor) (ctx : Context) : Actor * CommandReply :=
  match tenantGate a ctx with
  | Err e => (a, sendErrorReply e)
  | Ok _ => sendStateReply a
  end.

Definition Receive (a : Actor) (st : St) (m : message) (T : Times) : Actor * St * response * list DurableState :=
  match m with
  | MGetState ctx => let '(a', r) := getStateAndReply a ctx in (a', st, RCommand r, [])
  | MTenantBindingQuery id =>
    (a, st, RBinding (protocol.AnswerTenantBinding (tenantAware (config a)) (scope (config a)) id), [])
  | MCommand ctx cmd => let '(a', st', r, pub) := processCommand a st ctx cmd T in (a', st', RCommand r, pub)
  end.

(** ** Start and stop *)
Definition PreStart (name : string) (tenancyMarker : bool) (deps : list dependency) (shard : N)
    (st : option St) (ping : option error) : result error Actor :=
  let? (sc, tc) := resolveScope tenancyMarker deps in
  match st with
  | None => Err (EText "durable state store is required")
  | Some st =>
    if negb (existsb (fun d => match d with DepBehavior => true | _ => false end) deps) then Err (EText "behavior is required")
    else match ping with
    | Some e => Err e
    | None => recoverFromStore (mkActor (mkConfig name shard tenancyMarker sc) (nilState D) None 0 eventsource.zeroTime tc) st
    end
  end.

Definition persistStateAndPublish (a : Actor) (st : St) : St * option error * list DurableState :=
  let d := mkDurableState (pid a) (currentVersion a) (currentStateAny a) (lastCommandTime a) (shardNumber (config a))
    (if tenantAware (config a) then tenancy.MarshalMetadata (actorTenant a) else ∅) in
  match api.WriteState st (scope (config a)) d Unconditional with
  | (Err e, st') => (st', Some (EStoreError e), [])
  | (Ok _, st') => (st', None, [d])
  end.

Definition PostStop (a : Actor) (st : St) (ping : option error) : St * option error * list DurableState :=
  match ping with
  | Some e => (st, Some e, [])
  | None =>
    if negb (tenantAware (config a)) || (0 <? currentVersion a)%N then persistStateAndPublish a st
    else (st, None, [])
  end.
End Store.
End Actor.
Arguments MGetState {D}.
Arguments MTenantBindingQuery {D}.
Arguments MCommand {D}.
End durablestate.
