(* ===== verification/DurableStateSpec.v ===== *)
(** * Correctness of the durable-state entity

    A command commits completely or not at all; the record in the store, the
    state in memory and the reply agree; versions advance by exactly one; a
    restart finds what was committed. The last part shows, on a concrete
    entity, what does not hold when another writer or an idle stop is
    involved. *)

From S2P Require Import Prelude GoStrings Tenancy Persistence Egopb StoreApi StateStores Command Protocol EventSourced DurableState.
From Stdlib Require Import ZArith Lia.
Open Scope string_scope.
Open Scope list_scope.
Open Scope urd_scope.

Module durablestate_spec.
Import persistence egopb tenancy durablestate.

(** ** What the user code, the protobuf library and Go promise *)
Class LawfulDeps (D : Deps) := {
  any_state s any : anyOfState D s = Ok any -> UnmarshalTo D any = Ok s;
  overflow_not_one : int_overflow D <> 1%Z;
  (** a version is a [uint64] *)
  version_u64 ctx cmd v s now s' v' : dispatchToBehavior D ctx cmd v s now = Ok (s', v') -> is_u64 v'
}.

(** ** The version check *)
Lemma float64_one n : float64_of_u64 n = 1%N <-> n = 1%N.
Proof.
  unfold float64_of_u64. set (extra := (N.size n - 53)%N).
  destruct (N.eqb_spec extra 0) as [|Hx]; [done|].
  assert (n <> 1%N) as Hn1 by (intros ->; by vm_compute in Hx).
  assert (2 ^ extra <= n)%N as Hle.
  { assert (n <> 0%N) as Hn0 by (intros ->; by vm_compute in Hx).
    pose proof (N.size_log2 n Hn0) as Hs. pose proof (N.log2_spec n ltac:(lia)) as [Hl _].
    etransitivity; [|exact Hl]. apply N.pow_le_mono_r; [done|]. lia. }
  assert (1 <= N.shiftr n extra)%N as Hq.
  { rewrite N.shiftr_div_pow2. apply N.div_le_lower_bound; [apply N.pow_nonzero; done|lia]. }
  set (q := if _ || _ then _ else _). assert (1 <= q)%N as Hq' by (unfold q; case_match; lia).
  rewrite N.shiftl_mul_pow2. assert (2 <= 2 ^ extra)%N as H2.
  { replace extra with (N.succ (N.pred extra)) by lia. rewrite N.pow_succ_r by lia.
    pose proof (N.pow_nonzero 2 (N.pred extra)). lia. }
  split; [|done]. intros E. exfalso. nia.
Qed.

Lemma checkPreconditions_exact {D : Deps} (a : Actor D) s v : int_overflow D <> 1%Z -> is_u64 v -> is_u64 (currentVersion D a) ->
  checkPreconditions D a s v = Ok tt <->
  stateType D (currentState D a) = stateType D s /\ v = u64_succ (currentVersion D a).
Proof.
  intros Hov Hv Hc. unfold checkPreconditions. case_bool_decide as Ht; simpl; [|naive_solver].
  assert (int_of_float D (float64_of_u64 (u64_sub v (currentVersion D a))) = 1%Z <-> u64_sub v (currentVersion D a) = 1%N) as Hone.
  { rewrite <- float64_one. unfold int_of_float. destruct (_ <? _)%N eqn:E; [lia|].
    bool_prop. split; [done|]. intros E1. rewrite E1 in E. done. }
  assert (u64_sub v (currentVersion D a) = 1%N <-> v = u64_succ (currentVersion D a)) as Hsub.
  { unfold is_u64, two64 in *. unfold u64_succ, u64_add, u64.
    destruct (N.le_gt_cases (currentVersion D a) v) as [Hle|Hlt].
    - rewrite u64_sub_ge by done. destruct (decide (currentVersion D a + 1 < two64)%N) as [Hs|Hs]; unfold two64 in *.
      + rewrite N.mod_small by done. lia.
      + assert (currentVersion D a = 18446744073709551615)%N as -> by lia. split; [lia|].
        intros E. vm_compute in E. subst. lia.
    - rewrite u64_sub_lt by done. unfold two64.
      destruct (decide (currentVersion D a + 1 < 18446744073709551616)%N) as [Hs|Hs].
      + rewrite N.mod_small by done. split; [|lia]. intros E. lia.
      + assert (currentVersion D a = 18446744073709551615)%N as -> by lia.
        change ((18446744073709551615 + 1) mod 18446744073709551616)%N with 0%N. lia. }
  destruct (Z.eqb_spec (int_of_float D (float64_of_u64 (u64_sub v (currentVersion D a)))) 1) as [E|E]; simpl.
  - split; [|done]. intros _. split; [done|]. by apply Hsub, Hone.
  - split; [done|]. intros [_ Hs]. by apply Hsub, Hone in Hs.
Qed.

(** C40: The version check, for any state and any two [uint64] versions, the
    largest included, provided that converting a [float64] beyond the range of
    [int], which Go leaves to the implementation, does not give 1: it admits a
    new state exactly when it has the type of the current one and its version
    is the current version plus one modulo 2^64, whatever the conversion to
    [float64] does to large differences; a version not above the current one
    passes in one case only, 0 after 2^64-1. *)
Theorem version_advances_by_one {D : Deps} (a : Actor D) s v : int_overflow D <> 1%Z -> is_u64 v -> is_u64 (currentVersion D a) ->
  (checkPreconditions D a s v = Ok tt <->
   stateType D (currentState D a) = stateType D s /\ v = ((currentVersion D a + 1) mod two64)%N) /\
  ((v <= currentVersion D a)%N -> checkPreconditions D a s v = Ok tt -> v = 0%N /\ currentVersion D a = (two64 - 1)%N).
Proof.
  intros Hov Hv Hc. pose proof (checkPreconditions_exact a s v Hov Hv Hc) as H. split; [exact H|]. intros Hle Hok.
  apply H in Hok as [_ ->]. unfold is_u64 in Hc. unfold u64_succ, u64_add, u64 in *. destruct (decide (currentVersion D a + 1 < two64)%N) as [Hs|Hs].
  - rewrite N.mod_small in Hle by done. lia.
  - assert (currentVersion D a = two64 - 1)%N as -> by (unfold two64 in *; lia). done.
Qed.

Section Spec.
Context {D : Deps} {LD : LawfulDeps D}.
Abbreviation Actor := (Actor D).
Abbreviation State := (State D).

Lemma checkPreconditions_Ok (a : Actor) s v : is_u64 v -> is_u64 (currentVersion D a) ->
  checkPreconditions D a s v = Ok tt <->
  stateType D (currentState D a) = stateType D s /\ v = u64_succ (currentVersion D a).
Proof. apply checkPreconditions_exact, overflow_not_one. Qed.

Section Store.
Context {St : Type} {SO : api.StateStore St} {SL : api.StateStoreLaws St}.

(** The stored record [r] stands for the state [s] at version [v]. *)
Definition restores (c : Config) (tc : TenantContext) (r : option DurableState) (s : State) (v : N) : Prop :=
  match r with
  | None => s = InitialState D /\ v = 0%N
  | Some d =>
    if tenantAware c && (VersionNumber d =? 0)%N then s = InitialState D /\ v = 0%N
    else VersionNumber d = v /\ (tenantAware c = true -> UnmarshalMetadata (dTenantMetadata d) = Ok tc) /\
      match ResultingState d with None => s = InitialState D | Some any => UnmarshalTo D any = Ok s end
  end.

Definition record (st : St) (c : Config) : option DurableState := api.dview st (scope c) (persistenceID c).

Record in_sync (c : Config) (tc : TenantContext) (a : Actor) (st : St) : Prop := {
  is_config : config D a = c;
  is_tenant : tenantAware c = true -> actorTenant D a = tc;
  is_record : restores c tc (record st c) (currentState D a) (currentVersion D a);
  is_cache : cachedStateAny D a = None \/
    exists any, cachedStateAny D a = Some any /\ anyOfState D (currentState D a) = Ok any
}.

Lemma recoverFromStore_ok c tc (a : Actor) st s v : (tenantAware c = true -> tenancy.wf tc) ->
  config D a = c -> (tenantAware c = true -> actorTenant D a = tc) -> restores c tc (record st c) s v ->
  (v = 0%N -> currentVersion D a = 0%N) ->
  (exists e, api.GetLatestState st (scope c) (persistenceID c) = Err e) \/
  exists a', recoverFromStore D a st = Ok a' /\ config D a' = c /\ currentState D a' = s /\ currentVersion D a' = v /\
    actorTenant D a' = actorTenant D a /\ cachedStateAny D a' = cachedStateAny D a /\ lastCommandTime D a' = lastCommandTime D a.
Proof.
  intros Hwf Hc Ht Hr Hv. unfold recoverFromStore, pid. rewrite Hc.
  destruct (api.GetLatestState st (scope c) (persistenceID c)) as [r|e] eqn:E; [right|left; eauto].
  apply api.dlatest_ok in E as ->. simpl. unfold wrap. fold (record st c).
  unfold restores in Hr. destruct (record st c) as [d|].
  2: { destruct Hr as [-> ->]. eexists. split; [done|]. simpl. rewrite Hv by done. by split_and!. }
  destruct (tenantAware c && (VersionNumber d =? 0)%N).
  { destruct Hr as [-> ->]. eexists. split; [done|]. simpl. rewrite Hv by done. by split_and!. }
  destruct Hr as (<- & Hmd & Hs).
  assert ((if tenantAware c then
     rbind (fun t => if bool_decide (actorTenant D a <> noTenantContext)
       then rbind (fun _ => Ok (actorTenant D a)) (rmap_err (EWrap "recovered tenant metadata does not match the spawn-bound tenant")
              (rmap_err ETenancy (VerifyUnchanged (actorTenant D a) t)))
       else Ok t) (rmap_err (EWrap "failed to unmarshal durable state tenant metadata") (rmap_err ETenancy (UnmarshalMetadata (dTenantMetadata d))))
     else Ok (actorTenant D a)) = Ok (actorTenant D a)) as ->.
  { destruct (tenantAware c) eqn:Haw; [|done]. rewrite Hmd by done. simpl. rewrite Ht by done.
    assert (tc <> noTenantContext) by (destruct (Hwf eq_refl); done).
    rewrite bool_decide_eq_true_2 by done. by rewrite (proj2 (VerifyUnchanged_Ok tc tc tt)). }
  simpl. destruct (ResultingState d) as [any|]; [rewrite Hs|subst s]; simpl; eexists; (split; [done|]); by split_and!.
Qed.

(** The record [commitState] writes restores the new state. *)
Lemma commit_restores c tc (a : Actor) newState v any ts : config D a = c ->
  (tenantAware c = true -> tenancy.wf tc) -> anyOfState D newState = Ok any -> v <> 0%N ->
  restores c tc (Some (mkDurableState (pid D a) v (Some any) ts (shardNumber c)
    (if tenantAware c then tenancy.MarshalMetadata tc else ∅))) newState v.
Proof.
  intros Hc Hwf Hany Hv. unfold restores. simpl. rewrite (proj2 (N.eqb_neq _ _) Hv), andb_false_r.
  split_and!; [done| |by apply any_state]. intros Haw. rewrite Haw. by apply UnmarshalMetadata_Marshal, Hwf.
Qed.

Lemma durable_tenantGate_Ok c tc (a : Actor) ctx t : config D a = c -> (tenantAware c = true -> actorTenant D a = tc) ->
  (tenantAware c = true -> tenancy.wf tc) -> tenantGate D a ctx = Ok t -> tenantAware c = true -> t = tc.
Proof.
  intros Hc Ht Hwf Hg Haw. unfold tenantGate in Hg. rewrite Hc, Haw in Hg. simpl in Hg.
  apply rbind_Ok in Hg as (t' & _ & Hg). apply rbind_Ok in Hg as (u & Hv & [= ->]).
  rewrite Ht in Hv by done. assert (tc <> noTenantContext) by (destruct (Hwf Haw); done).
  rewrite bool_decide_eq_true_2 in Hv by done.
  destruct (VerifyUnchanged tc t) eqn:E; simplify_eq/=. symmetry. by eapply VerifyUnchanged_Ok.
Qed.

(** ** One command *)
Section Command.
Context (c : Config) (tc : TenantContext) (a : Actor) (st : St).
Hypothesis Hwf : tenantAware c = true -> tenancy.wf tc.
Hypothesis Hsync : in_sync c tc a st.
Hypothesis Hu64 : is_u64 (currentVersion D a).

(** The command changed nothing. *)
Definition refused (a' : Actor) (st' : St) (r : CommandReply) (pub : list DurableState) : Prop :=
  st' = st /\ pub = [] /\ (exists text, r = CommandReply_ErrorReply text) /\
  currentState D a' = currentState D a /\ currentVersion D a' = currentVersion D a /\ in_sync c tc a' st'.

(** The command committed: memory, store, event stream and reply agree on the
    new state and the next version. *)
Definition committed (a' : Actor) (st' : St) (r : CommandReply) (pub : list DurableState) : Prop :=
  currentVersion D a' = u64_succ (currentVersion D a) /\
  (exists d any, record st' c = Some d /\ pub = [d] /\ VersionNumber d = currentVersion D a' /\
     ResultingState d = Some any /\ anyOfState D (currentState D a') = Ok any /\
     r = CommandReply_StateReply (mkStateReply (persistenceID c) (Some any) (currentVersion D a') (dTimestamp d) STATUS_NONE)) /\
  in_sync c tc a' st'.

Lemma refused_here e : refused a st (sendErrorReply D e) [].
Proof. unfold refused. split_and!; try done. by eexists. Qed.

Lemma resync e st' : st' = st -> let a' := recoverFromConflictIfNeeded D a st' e in
  currentState D a' = currentState D a /\ currentVersion D a' = currentVersion D a /\ in_sync c tc a' st'.
Proof.
  intros ->. unfold recoverFromConflictIfNeeded. destruct (provablyInSyncAfterConflict D a e); [done|].
  destruct Hsync as [Hc Ht Hr Hca].
  destruct (recoverFromStore_ok c tc a st _ _ Hwf Hc Ht Hr (fun E => E)) as [[e' He]|(a' & -> & E1 & E2 & E3 & E4 & E5 & _)].
  - unfold recoverFromStore, pid. rewrite Hc, He. done.
  - split_and!; try done. split; rewrite ?E1, ?E2, ?E3, ?E4, ?E5; done.
Qed.

Lemma processCommand_spec ctx cmd T :
  (currentVersion D a + 1 < two64)%N ->
  let '(a', st', r, pub) := processCommand D a st ctx cmd T in refused a' st' r pub \/ committed a' st' r pub.
Proof.
  intros Hroom. unfold processCommand. pose proof Hsync as [Hc Ht Hr Hca].
  destruct (tenantGate D a ctx) as [t|e] eqn:Hg; [|left; apply refused_here].
  destruct (protocol.CheckDeadline _ _ _); [left; apply refused_here|].
  destruct (dispatchToBehavior D ctx cmd _ _ _) as [[s v]|m] eqn:Hdis; [|left; apply refused_here].
  destruct (checkPreconditions D a s v) as [[]|e] eqn:Hp; [|left; apply refused_here].
  apply checkPreconditions_Ok in Hp as [_ Hv]; [|by eapply version_u64|done].
  destruct (protocol.CheckDeadline _ _ _); [left; apply refused_here|].
  destruct (verifyTenantForPersist D a ctx); [|left; apply refused_here].
  destruct (protocol.ExpectedRevisionFromContext _ _ _ _) as [rev has].
  unfold commitState. rewrite Hc. destruct (anyOfState D s) as [any|m] eqn:Hany.
  2: { left. destruct (resync (EText m) st eq_refl) as (? & ? & ?). unfold refused. split_and!; try done. by eexists. }
  set (d := mkDurableState _ _ _ _ _ _).
  destruct (api.WriteState st (scope c) d _) as [[[]|e] st'] eqn:Hw.
  - right. destruct (api.dwrite_ok _ _ _ _ _ Hw) as (_ & _ & Hv').
    assert (record st' c = Some d) as Hrec.
    { unfold record. rewrite Hv', decide_True; [done|]. unfold d. simpl. unfold pid. by rewrite Hc. }
    assert (restores c tc (Some d) s v) as Hres.
    { unfold d. replace (if tenantAware c then MarshalMetadata t else ∅) with (if tenantAware c then MarshalMetadata tc else ∅).
      - apply commit_restores; try done. rewrite Hv, u64_succ_small by done. lia.
      - destruct (tenantAware c) eqn:Haw; [|done]. f_equal. symmetry. by eapply (durable_tenantGate_Ok c tc a ctx); rewrite ?Haw. }
    simpl. unfold committed. simpl. rewrite Hrec. split_and!; [done| |].
    + exists d, any. split_and!; try done.
    + split; simpl; try done.
      * intros Haw. rewrite Haw. by eapply (durable_tenantGate_Ok c tc a ctx).
      * by rewrite Hrec.
      * right. by exists any.
  - left. assert (st' = st) as Hst by (by eapply api.dwrite_err).
    destruct (resync (EStoreError e) st' Hst) as (? & ? & ?). unfold refused. split_and!; try done. by eexists.
Qed.
End Command.

(** C7: A command on an entity that is in step with its store either commits
    or leaves no trace. It commits: the store's record, the published record,
    the state in memory and the reply all carry the new state at the next
    version. Or it is refused, by a gate, the handler, the version check or
    the store: the store and the state and version in memory are unchanged,
    nothing is published and the reply is an error. Either way the entity is
    in step again. *)
Theorem durable_command_atomic c tc (a : Actor) st ctx cmd T : (tenantAware c = true -> tenancy.wf tc) ->
  in_sync c tc a st -> (currentVersion D a + 1 < two64)%N ->
  let '(a', st', r, pub) := processCommand D a st ctx cmd T in
  refused c tc a st a' st' r pub \/ committed c tc a a' st' r pub.
Proof.
  intros Hwf Hs Hroom. apply processCommand_spec; try done. unfold is_u64. lia.
Qed.

(** ** Runs *)
Fixpoint run (a : Actor) (st : St) (l : list (message D * Times)) : Actor * St :=
  match l with
  | [] => (a, st)
  | (m, T) :: l => let '(a', st', _, _) := Receive D a st m T in run a' st' l
  end.

Lemma sync_cache c tc (a : Actor) st : in_sync c tc a st -> in_sync c tc (cache D a) st.
Proof.
  intros [Hc Ht Hr Hca]. split; simpl; try done. unfold currentStateAny. destruct Hca as [->|(any & -> & ?)]; [|right; by exists any].
  destruct (anyOfState D (currentState D a)) as [any|]; [right; by exists any|by left].
Qed.

Lemma Receive_in_sync c tc (a : Actor) st m T : (tenantAware c = true -> tenancy.wf tc) ->
  in_sync c tc a st -> (currentVersion D a + 1 < two64)%N ->
  let '(a', st', _, _) := Receive D a st m T in in_sync c tc a' st' /\ (currentVersion D a' <= currentVersion D a + 1)%N.
Proof.
  intros Hwf Hs Hroom. destruct m as [ctx|id|ctx cmd]; simpl.
  - unfold getStateAndReply. destruct (tenantGate D a ctx); simpl; split; try lia; [by apply sync_cache|done].
  - split; [done|lia].
  - assert (is_u64 (currentVersion D a)) as Hu by (unfold is_u64; lia).
    pose proof (processCommand_spec c tc a st Hwf Hs Hu ctx cmd T Hroom) as Hp.
    destruct (processCommand D a st ctx cmd T) as [[[a' st'] r] pub].
    destruct Hp as [(_ & _ & _ & _ & Hv & ?)|(Hv & _ & ?)]; (split; [done|]); rewrite Hv; [lia|].
    rewrite u64_succ_small by done. lia.
Qed.

Lemma run_in_sync c tc (a : Actor) st l : (tenantAware c = true -> tenancy.wf tc) ->
  in_sync c tc a st -> (currentVersion D a + N.of_nat (length l) < two64)%N ->
  in_sync c tc (run a st l).1 (run a st l).2.
Proof.
  intros Hwf. revert a st. induction l as [|[m T] l IH]; intros a st Hs Hroom; [done|]. simpl in *.
  pose proof (Receive_in_sync c tc a st m T Hwf Hs) as Hr.
  destruct (Receive D a st m T) as [[[a' st'] r] pub]. destruct Hr as [Hs' Hv]; [lia|]. apply IH; [done|lia].
Qed.

Definition fresh (c : Config) (tc : TenantContext) : Actor :=
  mkActor D c (nilState D) None 0 eventsource.zeroTime tc.

Lemma fresh_in_sync c tc st s v a : (tenantAware c = true -> tenancy.wf tc) -> restores c tc (record st c) s v ->
  recoverFromStore D (fresh c tc) st = Ok a -> in_sync c tc a st /\ currentState D a = s /\ currentVersion D a = v.
Proof.
  intros Hwf Hr Ha.
  destruct (recoverFromStore_ok c tc (fresh c tc) st s v Hwf eq_refl (fun _ => eq_refl) Hr (fun _ => eq_refl))
    as [[e He]|(a' & Ha' & E1 & E2 & E3 & E4 & E5 & _)].
  - unfold recoverFromStore, pid in Ha. simpl in Ha. by rewrite He in Ha.
  - rewrite Ha in Ha'. injection Ha' as <-. split; [|done]. split; rewrite ?E2, ?E3, ?E4, ?E5; try done. by left.
Qed.

Lemma PostStop_restores c tc (a : Actor) st ping any : (tenantAware c = true -> tenancy.wf tc) -> in_sync c tc a st ->
  anyOfState D (currentState D a) = Ok any ->
  restores c tc (record (PostStop D a st ping).1.1 c) (currentState D a) (currentVersion D a).
Proof.
  intros Hwf [Hc Ht Hr Hca] Hany. unfold PostStop. rewrite Hc.
  destruct ping; [done|]. destruct (negb (tenantAware c) || (0 <? currentVersion D a)%N) eqn:Hflush; [|done].
  unfold persistStateAndPublish. rewrite Hc. set (d := mkDurableState _ _ _ _ _ _).
  assert (currentStateAny D a = Some any) as Hcur.
  { unfold currentStateAny. destruct Hca as [->|(any' & -> & E)]; [by rewrite Hany|congruence]. }
  destruct (api.WriteState st (scope c) d Unconditional) as [[[]|e] st'] eqn:Hw; simpl.
  - destruct (api.dwrite_ok _ _ _ _ _ Hw) as (_ & _ & Hv'). unfold record. rewrite Hv', decide_True.
    2: { unfold d. simpl. unfold pid. by rewrite Hc. }
    unfold restores, d. simpl. rewrite Hcur. destruct (tenantAware c) eqn:Haw; simpl in *.
    + bool_prop. rewrite (proj2 (N.eqb_neq _ _)) by lia. rewrite Ht by done.
      split_and!; [done|intros _; by apply UnmarshalMetadata_Marshal, Hwf|by apply any_state].
    + split_and!; [done|done|by apply any_state].
  - apply api.dwrite_err in Hw as ->. done.
Qed.

(** C8: What an entity has accepted survives a restart: after any sequence of
    messages, and after its orderly stop, starting again on the same store
    finds the state and the version it had, and the tenant it was bound to. *)
Theorem durable_restart c tc st s v a l ping b : (tenantAware c = true -> tenancy.wf tc) ->
  (forall s, exists any, anyOfState D s = Ok any) ->
  restores c tc (record st c) s v -> recoverFromStore D (fresh c tc) st = Ok a ->
  (v + N.of_nat (length l) < two64)%N ->
  let '(a', st') := run a st l in
  let st'' := (PostStop D a' st' ping).1.1 in
  (recoverFromStore D (fresh c tc) st' = Ok b \/ recoverFromStore D (fresh c tc) st'' = Ok b) ->
  currentState D b = currentState D a' /\ currentVersion D b = currentVersion D a' /\
  (tenantAware c = true -> actorTenant D b = tc).
Proof.
  intros Hwf Hany Hr Ha Hroom. destruct (fresh_in_sync c tc st s v a Hwf Hr Ha) as (Hs & _ & Hv).
  rewrite <- Hv in Hroom. pose proof (run_in_sync c tc a st l Hwf Hs Hroom) as Hrun.
  destruct (run a st l) as [a' st']. simpl in Hrun. intros st'' Hb.
  destruct (Hany (currentState D a')) as [any Hany']. pose proof Hrun as [_ _ Hr' _].
  destruct Hb as [Hb|Hb].
  - destruct (fresh_in_sync c tc st' _ _ b Hwf Hr' Hb) as (Hsb & -> & ->). split_and!; try done. apply Hsb.
  - pose proof (PostStop_restores c tc a' st' ping any Hwf Hrun Hany') as Hr''.
    destruct (fresh_in_sync c tc st'' _ _ b Hwf Hr'' Hb) as (Hsb & -> & ->). split_and!; try done. apply Hsb.
Qed.

(** A refused write never leaves the entity behind: the refused command
    changed neither the actor nor the store; when the conflict proves the
    actor is in step it stays as it is, and otherwise it reads the record
    again, after which its state and version are those of the stored record,
    whatever other writers had committed. *)
Theorem conflict_resyncs c tc (a : Actor) st s v newState newVersion ts t p a1 st1 e pub :
  (tenantAware c = true -> tenancy.wf tc) ->
  config D a = c -> (tenantAware c = true -> actorTenant D a = tc) ->
  restores c tc (record st c) s v -> (0 < v)%N ->
  (exists r, api.GetLatestState st (scope c) (persistenceID c) = Ok r) ->
  commitState D a st newState newVersion ts t p = (a1, st1, Some e, pub) ->
  a1 = a /\ st1 = st /\ pub = [] /\
  let b := recoverFromConflictIfNeeded D a1 st1 e in
  if provablyInSyncAfterConflict D a e then b = a
  else currentState D b = s /\ currentVersion D b = v /\ actorTenant D b = actorTenant D a.
Proof.
  intros Hwf Hc Ht Hr Hv [r0 Hread] Hcommit.
  assert (a1 = a /\ st1 = st /\ pub = []) as (-> & -> & ->).
  { unfold commitState in Hcommit. destruct (anyOfState D newState); [|by simplify_eq].
    destruct (api.WriteState st _ _ _) as [[[]|e'] st2] eqn:Hw; simplify_eq.
    split_and!; try done. by eapply api.dwrite_err. }
  split_and!; try done. unfold recoverFromConflictIfNeeded.
  destruct (provablyInSyncAfterConflict D a e); [done|].
  destruct (recoverFromStore_ok c tc a st s v Hwf Hc Ht Hr) as [[e' He]|(b & -> & _ & ? & ? & ? & _)]; [lia|congruence|done].
Qed.

(** A tenant-aware durable entity bound to a tenant answers a command or a
    state query of anyone else, or of no tenant at all, with an error, and
    neither its memory nor the store changes. *)
Theorem durable_foreign_tenant_refused (a : Actor) st ctx cmd T : tenantAware (config D a) = true ->
  actorTenant D a <> noTenantContext -> From ctx <> Some (actorTenant D a) ->
  (exists text, Receive D a st (MCommand ctx cmd) T = (a, st, RCommand (CommandReply_ErrorReply text), [])) /\
  (exists text, Receive D a st (MGetState ctx) T = (a, st, RCommand (CommandReply_ErrorReply text), [])).
Proof.
  intros Haw Hne Hf.
  assert (exists e, tenantGate D a ctx = Err e) as [e He].
  { unfold tenantGate, Require. rewrite Haw. destruct (From ctx) as [t|] eqn:E; [|by eexists]. simpl.
    destruct (valid t); [|by eexists]. simpl. rewrite bool_decide_eq_true_2 by done.
    unfold VerifyUnchanged. rewrite bool_decide_eq_true_2 by congruence. by eexists. }
  split; exists (eventsource.error_text (print_tbl D) e); simpl.
  - unfold processCommand. by rewrite He.
  - unfold getStateAndReply. by rewrite He.
Qed.
End Store.
End Spec.

(** ** A concrete entity: an account *)
Definition any_of_Z (z : Z) : Any := mkAny "account" (command.decimal_time z).
Definition Z_of_any (a : Any) : result string Z :=
  match command.parse_decimal_time (Value a) with Some z => Ok z | None => Err "malformed" end.

(** A command is the amount to add. *)
Definition accountDeps : Deps := mkDeps Z Z 0%Z (fun _ => "account") 0%Z
  (fun _ cmd v s => Ok ((s + cmd)%Z, u64_succ v)) None (fun s => Ok (any_of_Z s)) Z_of_any
  (-9223372036854775808) command.parse_decimal_time map_to_list (fun _ => false).

#[export] Instance account_lawful : LawfulDeps accountDeps.
Proof.
  split; simpl.
  - intros s any [= <-]. unfold Z_of_any. simpl. by rewrite command.decimal_time_roundtrip.
  - done.
  - intros ctx cmd v s now s' v' [= _ <-]. apply u64_range.
Qed.

#[export] Existing Instances durablestore.DurableStore_ops durablestore.DurableStore_laws.

Definition account_config : Config := mkConfig "account-1" 0 false Unscoped.
Definition st0 : durablestore.DurableStore := durablestore.Connect durablestore.NewDurableStore.
Definition T0 : Times := mkTimes 1 2 3 4.

(** A command, and the contexts that declare an expected revision. *)
Definition expecting (n : N) : Context :=
  protocol.AttachCarrier Background (command.MarshalMetadata command.decimal_time
    (command.mkMetadata "op-1" "flow" "" false noTenantContext false command.noPrincipal false ∅ 1 0 false n true)).
Definition add (z : Z) : message accountDeps * Times := (MCommand (D := accountDeps) Background z, T0).
Definition account0 : Actor accountDeps := mkActor accountDeps account_config 0%Z None 0 eventsource.zeroTime noTenantContext.

(** The record another writer leaves. *)
Definition other (v : N) (z ts : Z) : DurableState := mkDurableState "account-1" v (Some (any_of_Z z)) ts 0 ∅.

Lemma version_advances_by_one_witness :
  checkPreconditions accountDeps account0 5%Z 1 = Ok tt /\
  checkPreconditions accountDeps (mkActor accountDeps account_config 0%Z None (two64 - 1) 0 noTenantContext) 5%Z 0 = Ok tt.
Proof.
  split.
  - apply (version_advances_by_one account0 5%Z 1); [discriminate|reflexivity|reflexivity|]. split; reflexivity.
  - apply (version_advances_by_one (mkActor accountDeps account_config 0%Z None (two64 - 1) 0 noTenantContext) 5%Z 0);
      [discriminate|reflexivity|reflexivity|]. split; reflexivity.
Defined.

Lemma account_sync : in_sync account_config noTenantContext account0 st0.
Proof. split; simpl; try done. by left. Qed.

Lemma durable_command_atomic_witness :
  let '(a', st', r, pub) := processCommand accountDeps account0 st0 Background 5%Z T0 in
  currentVersion accountDeps a' = 1%N /\
  (refused account_config noTenantContext account0 st0 a' st' r pub \/ committed account_config noTenantContext account0 a' st' r pub).
Proof.
  pose proof (durable_command_atomic account_config noTenantContext account0 st0 Background 5%Z T0) as H.
  assert (currentVersion accountDeps (processCommand accountDeps account0 st0 Background 5%Z T0).1.1.1 = 1%N) as Hv by reflexivity.
  destruct (processCommand accountDeps account0 st0 Background 5%Z T0) as [[[a' st'] r] pub].
  split; [exact Hv|]. apply H; [done|apply account_sync|reflexivity].
Defined.

Lemma durable_restart_witness :
  let '(a', st') := run account0 st0 [add 5; add 7] in
  let b := mkActor accountDeps account_config 12%Z None 2 eventsource.zeroTime noTenantContext in
  currentState accountDeps b = currentState accountDeps a' /\ currentVersion accountDeps b = currentVersion accountDeps a'.
Proof.
  pose proof (durable_restart account_config noTenantContext st0 0%Z 0 account0 [add 5; add 7] None
    (mkActor accountDeps account_config 12%Z None 2 eventsource.zeroTime noTenantContext)) as H.
  assert (recoverFromStore accountDeps (fresh account_config noTenantContext) (run account0 st0 [add 5; add 7]).2
    = Ok (mkActor accountDeps account_config 12%Z None 2 eventsource.zeroTime noTenantContext)) as Hb by reflexivity.
  destruct (run account0 st0 [add 5; add 7]) as [a' st'].
  destruct H as (H1 & H2 & _); [discriminate|intros s; exists (any_of_Z s); reflexivity|split; reflexivity|reflexivity|reflexivity|left; exact Hb|].
  split; [exact H1|exact H2].
Defined.

(** The account at version 1, and the store after another writer's version 2. *)
Definition account1 : Actor accountDeps := (run account0 st0 [add 5]).1.
Definition st2 : durablestore.DurableStore :=
  (api.WriteState (run account0 st0 [add 5]).2 Unscoped (other 2 50 9) (ExpectRevision 1)).2.

Lemma st2_record : restores (D := accountDeps) account_config noTenantContext (record st2 account_config) 50%Z 2.
Proof. vm_compute. split_and!; [done|discriminate|done]. Qed.
Lemma st2_read : exists r, api.GetLatestState st2 Unscoped "account-1" = Ok r.
Proof. eexists. vm_compute. reflexivity. Qed.
Lemma account1_config : config accountDeps account1 = account_config.
Proof. vm_compute. reflexivity. Qed.
Lemma account1_conflict : let r := (commitState accountDeps account1 st2 6%Z 2 4 noTenantContext (ExpectRevision 1)).1.2 in
  match r with Some e => provablyInSyncAfterConflict accountDeps account1 e = false | None => False end.
Proof. vm_compute. reflexivity. Qed.

Lemma conflict_resyncs_witness :
  let '(a1, st1, e, _) := commitState accountDeps account1 st2 6%Z 2 4 noTenantContext (ExpectRevision 1) in
  match e with
  | Some e => currentState accountDeps (recoverFromConflictIfNeeded accountDeps a1 st1 e) = 50%Z
  | None => False
  end.
Proof.
  pose proof (conflict_resyncs account_config noTenantContext account1 st2 50%Z 2 6%Z 2 4 noTenantContext (ExpectRevision 1)) as H.
  pose proof account1_conflict as Hp.
  destruct (commitState accountDeps account1 st2 6%Z 2 4 noTenantContext (ExpectRevision 1)) as [[[a1 st1] e] pub].
  simpl in Hp. destruct e as [e|]; [|exact Hp].
  destruct (H a1 st1 e pub) as (_ & _ & _ & Hb);
    [intros E; discriminate E|exact account1_config|intros E; discriminate E|exact st2_record|reflexivity|exact st2_read|reflexivity|].
  rewrite Hp in Hb. exact (proj1 Hb).
Defined.

Definition acme : TenantContext := mkTenantContext ScopeTenant "acme" noAdministrative.
Definition acme_account : Actor accountDeps :=
  mkActor accountDeps (mkConfig "account-1" 0 true (mkScope scopeTenant "acme")) 0%Z None 0 eventsource.zeroTime acme.

Lemma durable_foreign_tenant_refused_witness : exists text,
  Receive accountDeps acme_account st0 (MGetState Background) T0 = (acme_account, st0, RCommand (CommandReply_ErrorReply text), []).
Proof.
  destruct (durable_foreign_tenant_refused acme_account st0 Background 5%Z T0) as [_ H]; [reflexivity|discriminate|discriminate|exact H].
Defined.

(** ** What other writers and idle stops break *)

(** The marshalled state an actor keeps is not dropped when it reads the
    record again after a conflict: here another writer has committed 50 at
    version 2; after its refused command the actor is at version 2 with 50,
    but it answers a state query with its old 5 under version 2, and its
    orderly stop then writes 5 over the other writer's committed 50. *)
Theorem stale_cache_after_conflict :
  let '(a, st, _, _) := processCommand accountDeps account1 st2 (expecting 1) 1%Z T0 in
  st = st2 /\ currentState accountDeps a = 50%Z /\ currentVersion accountDeps a = 2%N /\
  (getStateAndReply accountDeps a Background).2 =
    CommandReply_StateReply (mkStateReply "account-1" (Some (any_of_Z 5)) 2 4 STATUS_NONE) /\
  api.GetLatestState (PostStop accountDeps a st None).1.1 Unscoped "account-1" =
    Ok (Some (mkDurableState "account-1" 2 (Some (any_of_Z 5)) 4 0 ∅)).
Proof. vm_compute. repeat split. Qed.

(** An actor that is behind passes the store's check with a declared
    revision it has not seen, and moves the stored version backwards: at
    version 1, with version 3 stored, a command that expects revision 3 is
    committed as version 2 over it. *)
Theorem stale_actor_regresses_version :
  let st3 := (api.WriteState st2 Unscoped (other 3 80 9) (ExpectRevision 2)).2 in
  let '(a, st, _, _) := processCommand accountDeps account1 st3 (expecting 3) 1%Z T0 in
  api.GetLatestState st3 Unscoped "account-1" = Ok (Some (other 3 80 9)) /\
  api.GetLatestState st Unscoped "account-1" = Ok (Some (other 2 6 4)).
Proof. vm_compute. repeat split. Qed.

(** Recovery does not restore the time of the last command, and the flush
    at an orderly stop writes it back: an entity that is started and stopped
    without a command replaces the timestamp of its record by the zero time. *)
Theorem idle_restart_erases_timestamp :
  match recoverFromStore accountDeps (fresh account_config noTenantContext) st2 with
  | Ok a => api.GetLatestState st2 Unscoped "account-1" = Ok (Some (other 2 50 9)) /\
      api.GetLatestState (PostStop accountDeps a st2 None).1.1 Unscoped "account-1" = Ok (Some (other 2 50 eventsource.zeroTime))
  | Err _ => False
  end.
Proof. vm_compute. repeat split. Qed.

(** Without tenancy, starting and stopping an entity that never received a
    command writes a record at version 0; a later first command that expects
    genesis, revision 0, is then refused with a conflict, although nothing was
    ever committed. *)
Theorem idle_stop_blocks_genesis :
  let st := (PostStop accountDeps account0 st0 None).1.1 in
  match recoverFromStore accountDeps (fresh account_config noTenantContext) st with
  | Ok a =>
    let '(a', st', r, _) := processCommand accountDeps a st (expecting 0) 5%Z T0 in
    currentVersion accountDeps a' = 0%N /\ st' = st /\
    r = sendErrorReply accountDeps (EStoreError (EConflict
      (NewConflictError Unscoped "account-1" ExpectGenesis [WithActualRevision 0])))
  | Err _ => False
  end /\
  (processCommand accountDeps account0 st0 (expecting 0) 5%Z T0).2 <> [].
Proof. vm_compute. repeat split. discriminate. Qed.
End durablestate_spec.
