(* ===== verification/Saga.v ===== *)
(** * The saga actor ([src/internal/engine/saga/saga_actor.go])

    A saga reacts to events of the shared stream with commands to other
    entities and with events of its own. A command is sent synchronously and
    its result can call for further commands, so [sendCommand], [processAction]
    and [dispatchActionEffects] call each other without a bound of their own;
    here they take fuel and [None] is a call that has not returned yet. A
    handler works on [Sys]: the actor, the events store, the rest of the world,
    what was written, and every command sent together with the actor and the
    store at that moment. *)

From S2P Require Import Prelude GoStrings Tenancy Persistence Egopb StoreApi Command Protocol EventSourced.
From Stdlib Require Import ZArith Lia.
Open Scope string_scope.
Open Scope list_scope.
Open Scope urd_scope.

Module saga.
Import persistence egopb tenancy.
Import eventsource (error, EText, EStoreError, ETenancy, EWrap, wrap, error_text).

(** ** Status *)
Inductive SagaStatus := SagaRunning | SagaCompleted | SagaCompensating | SagaFailed.
#[export] Instance SagaStatus_eq_dec : EqDecision SagaStatus.
Proof. solve_decision. Defined.

Definition StatusToProto (s : SagaStatus) : SagaLifecycleStatus :=
  match s with
  | SagaCompleted => STATUS_COMPLETED
  | SagaCompensating => STATUS_COMPENSATING
  | SagaFailed => STATUS_FAILED
  | SagaRunning => STATUS_RUNNING
  end.

Definition StatusFromProto (s : SagaLifecycleStatus) : SagaStatus :=
  match s with
  | STATUS_COMPLETED => SagaCompleted
  | STATUS_COMPENSATING => SagaCompensating
  | STATUS_FAILED => SagaFailed
  | STATUS_NONE | STATUS_RUNNING => SagaRunning
  end.

(** ** Actions

    [State], [Event] and [Command] are all [proto.Message]. *)
Record SagaCommand (Msg : Type) := mkSagaCommand {
  EntityID : string;
  Command : Msg;
  Timeout : Z;
  Metadata : command.Metadata
}.
Record SagaAction (Msg : Type) := mkSagaAction {
  Commands : list (SagaCommand Msg);
  Events : list Msg;
  Complete : bool;
  Compensate : bool
}.
Arguments mkSagaCommand {Msg}.
Arguments EntityID {Msg}.
Arguments Command {Msg}.
Arguments Timeout {Msg}.
Arguments Metadata {Msg}.
Arguments mkSagaAction {Msg}.
Arguments Commands {Msg}.
Arguments Events {Msg}.
Arguments Complete {Msg}.
Arguments Compensate {Msg}.

Definition actionIsNoop {Msg} (a : option (SagaAction Msg)) : bool :=
  match a with
  | None => true
  | Some a =>
    match Commands a, Events a with [], [] => negb (Complete a) && negb (Compensate a) | _, _ => false end
  end.

(** What the saga is given: the behavior ([behaviorport.Saga]) and the
    protobuf library. *)
Record Deps := mkDeps {
  Msg : Type;
  nilMsg : Msg;
  InitialState : Msg;
  HandleEvent : Context -> Msg -> Msg -> result string (option (SagaAction Msg));
  HandleResult : Context -> string -> Msg -> Msg -> result string (option (SagaAction Msg));
  HandleError : Context -> string -> string -> Msg -> result string (option (SagaAction Msg));
  ApplyEvent : Context -> Msg -> Msg -> result string Msg;
  CompensateCommands : Context -> Msg -> result string (list (SagaCommand Msg));
  (** [anypb.New], [Any.UnmarshalNew], [emptypb.Empty] and the type assertion to it *)
  anypbNew : Msg -> result string Any;
  UnmarshalNew : option Any -> result string Msg;
  emptyMsg : Msg;
  isEmpty : Msg -> bool;
  (** [time.Time] in a carrier *)
  fmt_time : Z -> string;
  (** [strconv.IsPrint] beyond ASCII *)
  print_tbl : Z -> bool
}.

(** A reply is a message; only a [*egopb.CommandReply] is understood. *)
Inductive reply := RCommandReply (r : CommandReply) | RUnexpected.

(** What the saga finds outside: other entities, the clock, the generator of
    operation ids. A command may change the events store, because the entity
    it is sent to writes there. *)
Class World (D : Deps) (St W : Type) := {
  SendSync : W -> St -> Context -> string -> Msg D -> Z -> result string reply * W * St;
  Now : W -> Z * W;
  GenerateOperationID : W -> result string string * W
}.

Section Actor.
Context (D : Deps).
Abbreviation action := (SagaAction (Msg D)).
Abbreviation scommand := (SagaCommand (Msg D)).

Record Actor := mkActor {
  sagaID : string;
  timeout : Z;
  tenantAware : bool;
  scope : persistence.Scope;
  rootMetadata : command.Metadata;
  currentState : Msg D;
  eventsCounter : N;
  status : SagaStatus;
  boundTenant : TenantContext
}.

Definition set_status (a : Actor) (s : SagaStatus) : Actor :=
  mkActor (sagaID a) (timeout a) (tenantAware a) (scope a) (rootMetadata a) (currentState a) (eventsCounter a) s (boundTenant a).
Definition set_tenant (a : Actor) (tc : TenantContext) : Actor :=
  mkActor (sagaID a) (timeout a) (tenantAware a) (scope a) (rootMetadata a) (currentState a) (eventsCounter a) (status a) tc.
Definition set_state (a : Actor) (s : Msg D) : Actor :=
  mkActor (sagaID a) (timeout a) (tenantAware a) (scope a) (rootMetadata a) s (eventsCounter a) (status a) (boundTenant a).
Definition set_counter (a : Actor) (n : N) : Actor :=
  mkActor (sagaID a) (timeout a) (tenantAware a) (scope a) (rootMetadata a) (currentState a) n (status a) (boundTenant a).

(** ** Tenancy *)

(** The dependencies injected at spawn time. *)
Inductive dependency :=
| DepNil
| DepBehavior
| DepSagaConfig (timeout : Z)
| DepEntityTenantScope (tenantID : string)
| DepOther.

Fixpoint resolveTenantScope (deps : list dependency) : result error (persistence.Scope * TenantContext) :=
  match deps with
  | [] => Err (EText eventsource.ErrEntityTenantScopeMissing)
  | DepEntityTenantScope id :: _ =>
    let? sc := wrap eventsource.ErrEntityTenantScopeMissing (rmap_err ETenancy (NewTenantScope id)) in
    let? tc := wrap eventsource.ErrEntityTenantScopeMissing (rmap_err ETenancy (NewTenantContext (TenantID sc))) in
    Ok (sc, tc)
  | _ :: deps => resolveTenantScope deps
  end.

Definition resolveScope (aware : bool) (deps : list dependency) : result error (persistence.Scope * TenantContext) :=
  if negb aware then Ok (Unscoped, noTenantContext) else resolveTenantScope deps.

(** [Attach] with its error first, as its callers read it. *)
Definition attach (ctx : Context) (tc : TenantContext) : result error Context :=
  match Attach ctx tc with (_, Some e) => Err (ETenancy e) | (ctx', None) => Ok ctx' end.

Definition eventContext (a : Actor) (parent : Context) (event : Event) : result error Context :=
  if negb (tenantAware a) then Ok parent
  else
    let? tc := wrap "failed to unmarshal saga event tenant metadata"
      (rmap_err ETenancy (UnmarshalMetadata (TenantMetadata event))) in
    attach parent tc.

Definition bindOrVerify (a : Actor) (ctx : Context) : result error Actor :=
  if negb (tenantAware a) then Ok a
  else
    let? tc := rmap_err ETenancy (Require ctx) in
    if bool_decide (boundTenant a = noTenantContext) then Ok (set_tenant a tc)
    else let? _ := rmap_err ETenancy (VerifyUnchanged (boundTenant a) tc) in Ok a.

Definition compensationContext (a : Actor) : result error Context :=
  if negb (tenantAware a) then Ok Background else attach Background (boundTenant a).

Definition checkStateReadTenant (a : Actor) (ctx : Context) : result error unit :=
  if negb (tenantAware a) then Ok tt
  else
    let? tc := rmap_err ETenancy (Require ctx) in
    if bool_decide (boundTenant a <> noTenantContext)
    then rmap_err ETenancy (VerifyUnchanged (boundTenant a) tc) else Ok tt.

(** ** Recovery *)
Section Store.
Context {St : Type} `{api.EventsStore St}.

Definition recoverEvent (ctx : Context) (a : Actor) (envelope : Event) : result error Actor :=
  let at_seq what := what +:+ " at sequence " +:+ format_uint (SequenceNumber envelope) in
  let? eventCtx := wrap (at_seq "failed to reconstruct tenant context for saga event") (eventContext a ctx envelope) in
  let? a := wrap (at_seq "tenant mismatch replaying saga event") (bindOrVerify a eventCtx) in
  let? eventMsg := wrap (at_seq "failed to unmarshal saga event") (rmap_err EText (UnmarshalNew D (EventAny envelope))) in
  if isEmpty D eventMsg then Ok a
  else
    let? s := wrap (at_seq "failed to apply saga event") (rmap_err EText (ApplyEvent D eventCtx eventMsg (currentState a))) in
    Ok (set_state a s).

(** [None]: the store panics. *)
Definition recover (a : Actor) (st : St) (ctx : Context) : option (result error Actor) :=
  let a := set_status (set_state a (InitialState D)) SagaRunning in
  match api.GetLatestEvent st (scope a) (sagaID a) with
  | Err e => Some (Err (EWrap "failed to get latest saga event" (EStoreError e)))
  | Ok None => Some (Ok a)
  | Ok (Some latestEvent) =>
    let latestSeqNr := SequenceNumber latestEvent in
    match api.ReplayEvents st (scope a) (sagaID a) 1 latestSeqNr latestSeqNr with
    | None => None
    | Some (Err e) => Some (Err (EWrap "failed to replay saga events" (EStoreError e)))
    | Some (Ok events) =>
      Some (let? a := rfold (recoverEvent ctx) a events in Ok (set_counter a latestSeqNr))
    end
  end.

Definition command_text (e : command.error) : string :=
  match e with command.ECommand e => command.emessage e | command.ETenancy e => err_message e end.

(** [now] is the clock reading of [command.NewMetadata]. The subscription to
    the event stream and the timer are made afterwards. *)
Definition PreStart (name : string) (tenancyMarker : bool) (deps : list dependency) (st : St)
    (ping : option error) (ctx : Context) (now : Z) : option (result error Actor) :=
  let prepared :=
    let? (sc, tc) := resolveScope tenancyMarker deps in
    let? rootOp := wrap "saga: invalid saga id for root command metadata"
      (rmap_err (fun e => EText (command_text e)) (command.NewOperationID name)) in
    let? root := wrap "saga: failed to build root command metadata"
      (rmap_err (fun e => EText (command_text e)) (command.NewMetadata now rootOp [])) in
    let beh := existsb (fun d => match d with DepBehavior => true | _ => false end) deps in
    let tmo := foldl (fun t d => match d with DepSagaConfig t' => t' | _ => t end) 0%Z deps in
    if negb beh then Err (EText "saga behavior is required")
    else match ping with
    | Some e => Err (EWrap "saga events store ping failed" e)
    | None => Ok (mkActor name tmo tenancyMarker sc root (nilMsg D) 0 SagaRunning tc)
    end in
  match prepared with
  | Err e => Some (Err e)
  | Ok a => recover a st ctx
  end.

(** [consumeEvents]: the stream payloads put into the actor's own mailbox. *)
Inductive payload := PEvent (e : Event) | PNil | POther.
Definition consumeEvents (a : Actor) (messages : list payload) : list Event :=
  omap (fun m =>
    match m with
    | PEvent e => if bool_decide (PersistenceId e = sagaID a) then None else Some e
    | _ => None
    end) messages.

(** ** The running saga *)
Section Running.
Context {W : Type} `{World D St W}.

(** A command sent and its outcome, with the actor and the store while it
    waited for the reply. *)
Record Call := mkCall {
  c_ctx : Context;
  c_cmd : scommand;
  c_timeout : Z;
  c_reply : result string reply;
  c_actor : Actor;
  c_store : St
}.

Record Sys := mkSys {
  actor : Actor;
  store : St;
  world : W;
  written : list Event;
  calls : list Call
}.

Definition on_actor (f : Actor -> Actor) (x : Sys) : Sys :=
  mkSys (f (actor x)) (store x) (world x) (written x) (calls x).
Definition set_world (x : Sys) (w : W) : Sys := mkSys (actor x) (store x) w (written x) (calls x).

Definition now (x : Sys) : Z * Sys := let '(t, w) := Now (world x) in (t, set_world x w).

Definition write (x : Sys) (envs : list Event) : result store_error unit * Sys :=
  let '(r, st') := api.WriteEvents (store x) (scope (actor x)) envs Unconditional in
  (r, mkSys (actor x) st' (world x) (match r with Ok _ => written x ++ envs | Err _ => written x end) (calls x)).

Definition call (x : Sys) (ctx : Context) (cmd : scommand) (tmo : Z) : result string reply * Sys :=
  let '(r, w', st') := SendSync (world x) (store x) ctx (EntityID cmd) (Command cmd) tmo in
  (r, mkSys (actor x) st' w' (written x) (calls x ++ [mkCall ctx cmd tmo r (actor x) (store x)])).

(** [anypb.New] with its error ignored: nil on failure. *)
Definition sagaEnvelope (a : Actor) (n : N) (any : option Any) (ts : Z) (md : gmap string string) : Event :=
  mkEvent (sagaID a) n false any ts 0 "" false md.

Definition buildEvents (ctx : Context) (tc : TenantContext) (x : Sys) (events : list (Msg D)) : result error (list Event * Msg D * N) * Sys :=
  foldl (fun '(r, x) event =>
    match r with
    | Err e => (Err e, x)
    | Ok (envs, nextState, nextCounter) =>
      let nextCounter := u64_succ nextCounter in
      let '(ts, x) := now x in
      let a := actor x in
      let env := sagaEnvelope a nextCounter (rok (anypbNew D event)) ts
        (if tenantAware a then tenancy.MarshalMetadata tc else ∅) in
      match ApplyEvent D ctx event nextState with
      | Err m => (Err (EWrap "failed to apply saga event" (EText m)), x)
      | Ok newState => (Ok (envs ++ [env], newState, nextCounter), x)
      end
    end) (Ok ([], currentState (actor x), eventsCounter (actor x)), x) events.

Definition persistAndApplyEvents (x : Sys) (ctx : Context) (events : list (Msg D)) : result error unit * Sys :=
  let tenant := if tenantAware (actor x)
    then wrap "failed to persist saga events" (rmap_err ETenancy (Require ctx)) else Ok noTenantContext in
  match tenant with
  | Err e => (Err e, x)
  | Ok tc =>
    match buildEvents ctx tc x events with
    | (Err e, x) => (Err e, x)
    | (Ok (envelopes, nextState, nextCounter), x) =>
      match write x envelopes with
      | (Err e, x) => (Err (EStoreError e), x)
      | (Ok _, x) => (Ok tt, on_actor (fun a => set_state (set_counter a nextCounter) nextState) x)
      end
    end
  end.

Definition persistTenantBinding (x : Sys) (ctx : Context) (tc : TenantContext) : result error unit * Sys :=
  match anypbNew D (emptyMsg D) with
  | Err m => (Err (EWrap "failed to marshal saga tenant-binding marker" (EText m)), x)
  | Ok markerAny =>
    let nextCounter := u64_succ (eventsCounter (actor x)) in
    let '(ts, x) := now x in
    let envelope := sagaEnvelope (actor x) nextCounter (Some markerAny) ts (tenancy.MarshalMetadata tc) in
    match write x [envelope] with
    | (Err e, x) => (Err (EStoreError e), x)
    | (Ok _, x) => (Ok tt, on_actor (fun a => set_counter a nextCounter) x)
    end
  end.

(** ** Commands *)
Definition attachCommandMetadata (x : Sys) (ctx : Context) (explicit : command.Metadata) : Context * Sys :=
  if bool_decide (command.operationID explicit <> "")
  then (protocol.AttachCarrier ctx (command.MarshalMetadata (fmt_time D) explicit), x)
  else
    let '(op, w) := GenerateOperationID (world x) in
    let x := set_world x w in
    match op with
    | Err _ => (ctx, x)
    | Ok op =>
      let '(t, x) := now x in
      match command.Derive t (rootMetadata (actor x)) op [] with
      | Err _ => (ctx, x)
      | Ok md => (protocol.AttachCarrier ctx (command.MarshalMetadata (fmt_time D) md), x)
      end
    end.

Definition defaultCommandTimeout : Z := 5000000000.
Definition effectiveCommandTimeout (configured : Z) : Z :=
  if (configured =? 0)%Z then defaultCommandTimeout else configured.

Fixpoint compensateAll (x : Sys) (ctx : Context) (commands : list scommand) : Sys :=
  match commands with
  | [] => on_actor (fun a => set_status a SagaCompleted) x
  | cmd :: rest =>
    let tmo := effectiveCommandTimeout (Timeout cmd) in
    let '(ctx', x) := attachCommandMetadata x ctx (Metadata cmd) in
    match call x ctx' cmd tmo with
    | (Err _, x) => on_actor (fun a => set_status a SagaFailed) x
    | (Ok _, x) => compensateAll x ctx rest
    end
  end.

Definition compensate (x : Sys) (ctx : Context) : Sys :=
  match CompensateCommands D ctx (currentState (actor x)) with
  | Err _ => on_actor (fun a => set_status a SagaFailed) x
  | Ok commands => compensateAll x ctx commands
  end.

(** Run [f] over a list while it returns. *)
Fixpoint ofold {A} (f : Sys -> A -> option Sys) (x : Sys) (l : list A) : option Sys :=
  match l with [] => Some x | a :: l => x' ← f x a; ofold f x' l end.

Definition dispatchWith (send : Sys -> scommand -> option Sys) (x : Sys) (ctx : Context) (act : action) : option Sys :=
  x ← ofold send x (Commands act);
  if Complete act then Some (on_actor (fun a => set_status a SagaCompleted) x)
  else if Compensate act then Some (compensate (on_actor (fun a => set_status a SagaCompensating) x) ctx)
  else Some x.

Definition processWith (send : Sys -> scommand -> option Sys) (x : Sys) (ctx : Context) (act : option action) : option Sys :=
  match act with
  | None => Some x
  | Some act =>
    match Events act with
    | [] => dispatchWith send x ctx act
    | _ =>
      match persistAndApplyEvents x ctx (Events act) with
      | (Err _, x) => Some x
      | (Ok _, x) => dispatchWith send x ctx act
      end
    end
  end.

Fixpoint sendCommand (fuel : nat) (ctx : Context) (x : Sys) (cmd : scommand) : option Sys :=
  match fuel with
  | O => None
  | S fuel =>
    let tmo := effectiveCommandTimeout (Timeout cmd) in
    let '(ctx', x) := attachCommandMetadata x ctx (Metadata cmd) in
    let '(r, x) := call x ctx' cmd tmo in
    let follow (act : result string (option action)) :=
      match act with
      | Err _ => Some x
      | Ok act => processWith (sendCommand fuel ctx) x ctx act
      end in
    match r with
    | Err m => follow (HandleError D ctx (EntityID cmd) m (currentState (actor x)))
    | Ok RUnexpected => Some x
    | Ok (RCommandReply reply) =>
      match protocol.ParseCommandReply (UnmarshalNew D) reply with
      | Err m => follow (HandleError D ctx (EntityID cmd) m (currentState (actor x)))
      | Ok (resultState, _) => follow (HandleResult D ctx (EntityID cmd) resultState (currentState (actor x)))
      end
    end
  end.

Definition dispatchActionEffects (fuel : nat) (x : Sys) (ctx : Context) (act : action) : option Sys :=
  dispatchWith (sendCommand fuel ctx) x ctx act.
Definition processAction (fuel : nat) (x : Sys) (ctx : Context) (act : option action) : option Sys :=
  processWith (sendCommand fuel ctx) x ctx act.

(** ** Messages *)
Definition handleStreamEvent (fuel : nat) (x : Sys) (event : Event) : option Sys :=
  let a := actor x in
  if bool_decide (status a <> SagaRunning) then Some x
  else match eventContext a Background event with
  | Err _ => Some x
  | Ok ctx =>
    let alreadyBound := tenantAware a && bool_decide (boundTenant a <> noTenantContext) in
    let verified := if alreadyBound then bindOrVerify a ctx else Ok a in
    match verified with
    | Err _ => Some x
    | Ok _ =>
      match UnmarshalNew D (EventAny event) with
      | Err _ => Some x
      | Ok eventMsg =>
        match HandleEvent D ctx eventMsg (currentState a) with
        | Err _ => Some x
        | Ok act =>
          if alreadyBound then processAction fuel x ctx act
          else if actionIsNoop act then Some x
          else if negb (tenantAware a) then processAction fuel x ctx act
          else match Require ctx, act with
          | Ok tc, Some act =>
            let '(r, x) := match Events act with
              | [] => persistTenantBinding x ctx tc
              | _ => persistAndApplyEvents x ctx (Events act)
              end in
            match r with
            | Err _ => Some x
            | Ok _ => dispatchActionEffects fuel (on_actor (fun a => set_tenant a tc) x) ctx act
            end
          | _, _ => Some x
          end
        end
      end
    end
  end.

Definition handleTimeout (x : Sys) : Sys :=
  if bool_decide (status (actor x) = SagaRunning) then
    let x := on_actor (fun a => set_status a SagaCompensating) x in
    match compensationContext (actor x) with
    | Err _ => on_actor (fun a => set_status a SagaFailed) x
    | Ok sagaCtx => compensate x sagaCtx
    end
  else x.

Definition replyWithState (a : Actor) : CommandReply :=
  CommandReply_StateReply (mkStateReply (sagaID a) (rok (anypbNew D (currentState a))) (eventsCounter a) 0 (StatusToProto (status a))).

Definition getStateAndReply (a : Actor) (ctx : Context) : CommandReply :=
  match checkStateReadTenant a ctx with
  | Err e => CommandReply_ErrorReply (error_text (print_tbl D) e)
  | Ok _ => replyWithState a
  end.

Inductive message :=
| MEvent (e : Event)
| MTimeout
| MGetState (ctx : Context)
| MTenantBindingQuery (tenantId : string)
| MOther.

Inductive response := RCommand (r : CommandReply) | RBinding (r : TenantBindingReply) | RUnhandled.

Definition Receive (fuel : nat) (x : Sys) (m : message) : option (Sys * list response) :=
  match m with
  | MEvent e => x' ← handleStreamEvent fuel x e; Some (x', [])
  | MTimeout => Some (handleTimeout x, [])
  | MGetState ctx => Some (x, [RCommand (getStateAndReply (actor x) ctx)])
  | MTenantBindingQuery id =>
    Some (x, [RBinding (protocol.AnswerTenantBinding (tenantAware (actor x)) (scope (actor x)) id)])
  | MOther => Some (x, [RUnhandled])
  end.

(** The saga with the messages of its mailbox handled in turn. *)
Fixpoint run (fuel : nat) (x : Sys) (ms : list message) : option Sys :=
  match ms with
  | [] => Some x
  | m :: ms => '(x', _) ← Receive fuel x m; run fuel x' ms
  end.
End Running.
End Store.
End Actor.

End saga.
