(* ===== verification/SagaSpec.v ===== *)
(** * Correctness of the saga actor

    What a saga has in memory is what its stream replays to, at every moment
    it waits for another entity and after every message; its commands carry
    its tenant and descend from its own operation; it never comes to rest half
    compensated; and it returns whenever its reactions cannot go in circles.
    The last part shows, on a concrete saga, what is not guaranteed. *)

From S2P Require Import Prelude GoStrings Tenancy Persistence Egopb StoreApi EventStore Command Protocol EventSourced EventSourcedSpec Saga.
From Stdlib Require Import ZArith Lia.
Open Scope string_scope.
Open Scope list_scope.
Open Scope urd_scope.

Module saga_spec.
Import persistence egopb tenancy saga.
Import eventsource_spec (numbered, numbered_nil, numbered_app, stored, stored_commit, stored_range, stored_latest, st_ok).

(** ** What the behavior and the protobuf library promise *)
Class LawfulDeps (D : Deps) := {
  any_new m : exists a, anypbNew D m = Ok a /\ UnmarshalNew D (Some a) = Ok m;
  empty_marker : isEmpty D (emptyMsg D) = true;
  (** [ApplyEvent] is a function of the event and the state *)
  apply_pure ctx ctx' e s : ApplyEvent D ctx e s = ApplyEvent D ctx' e s;
  (** a behavior does not record the marker type as an event of its own *)
  event_unmarked ctx e s act : HandleEvent D ctx e s = Ok (Some act) -> Forall (fun m => isEmpty D m = false) (Events act);
  result_unmarked ctx id e s act : HandleResult D ctx id e s = Ok (Some act) -> Forall (fun m => isEmpty D m = false) (Events act);
  error_unmarked ctx id e s act : HandleError D ctx id e s = Ok (Some act) -> Forall (fun m => isEmpty D m = false) (Events act)
}.

Section Spec.
Context {D : Deps} {LD : LawfulDeps D}.
Context {St W : Type} {ESO : api.EventsStore St} {WO : World D St W}.
Abbreviation Actor := (Actor D).
Abbreviation Sys := (Sys D (St := St) (W := W)).
Abbreviation Call := (Call D (St := St)).
Abbreviation action := (SagaAction (Msg D)).
Abbreviation scommand := (SagaCommand (Msg D)).

Definition unmarked (act : option action) : Prop :=
  match act with Some act => Forall (fun m => isEmpty D m = false) (Events act) | None => True end.

Lemma unmarked_event ctx e s act : HandleEvent D ctx e s = Ok act -> unmarked act.
Proof. destruct act; [apply event_unmarked|done]. Qed.
Lemma unmarked_result ctx id e s act : HandleResult D ctx id e s = Ok act -> unmarked act.
Proof. destruct act; [apply result_unmarked|done]. Qed.
Lemma unmarked_error ctx id e s act : HandleError D ctx id e s = Ok act -> unmarked act.
Proof. destruct act; [apply error_unmarked|done]. Qed.

(** ** Invariants of the mutual recursion

    A property of the system that every primitive keeps is kept by the
    handlers; the context is the same throughout. *)
Section Preservation.
Context (ctx : Context) (P : Sys -> Prop).
Hypothesis P_status : forall x s, P x -> P (on_actor D (fun a => set_status D a s) x).
Hypothesis P_call : forall x cmd ctx' x1 r x2, P x -> attachCommandMetadata D x ctx (Metadata cmd) = (ctx', x1) ->
  call D x1 ctx' cmd (effectiveCommandTimeout (Timeout cmd)) = (r, x2) -> P x2.

Lemma compensateAll_keeps cmds x : P x -> P (compensateAll D x ctx cmds).
Proof.
  revert x. induction cmds as [|cmd cmds IH]; intros x Hx; simpl; [by apply P_status|].
  destruct (attachCommandMetadata D x ctx (Metadata cmd)) as [ctx' x1] eqn:Ea.
  destruct (call D x1 ctx' cmd _) as [r x2] eqn:Ec.
  pose proof (P_call _ _ _ _ _ _ Hx Ea Ec) as Hx2. destruct r; [by apply IH|by apply P_status].
Qed.

Lemma compensate_keeps x : P x -> P (compensate D x ctx).
Proof. intros Hx. unfold compensate. destruct (CompensateCommands _ _ _); [by apply compensateAll_keeps|by apply P_status]. Qed.
End Preservation.

Section Recursion.
Context (ctx : Context) (P : Sys -> Prop).
Hypothesis P_complete : forall x, P x -> P (on_actor D (fun a => set_status D a SagaCompleted) x).
Hypothesis P_compensate : forall x, P x -> P (compensate D (on_actor D (fun a => set_status D a SagaCompensating) x) ctx).
Hypothesis P_call : forall x cmd ctx' x1 r x2, P x -> attachCommandMetadata D x ctx (Metadata cmd) = (ctx', x1) ->
  call D x1 ctx' cmd (effectiveCommandTimeout (Timeout cmd)) = (r, x2) -> P x2.
Hypothesis P_persist : forall x evs r x', P x -> evs <> [] -> Forall (fun m => isEmpty D m = false) evs ->
  persistAndApplyEvents D x ctx evs = (r, x') -> P x'.

Lemma dispatchWith_keeps send act : (forall x cmd x', P x -> send x cmd = Some x' -> P x') ->
  forall x x', P x -> dispatchWith D send x ctx act = Some x' -> P x'.
Proof.
  intros Hsend x x' Hx H. unfold dispatchWith in H.
  destruct (ofold D send x (Commands act)) as [x1|] eqn:Ho; [|done]. simpl in H.
  assert (P x1) as Hx1.
  { clear H. revert x Hx Ho. induction (Commands act) as [|c l IH]; intros x Hx Ho; simpl in Ho; [by injection Ho as <-|].
    destruct (send x c) as [x2|] eqn:Es; [|done]. simpl in Ho. apply (IH x2); [|done]. by eapply Hsend. }
  destruct (Complete act); [injection H as <-; auto|]. destruct (Compensate act); injection H as <-; auto.
Qed.

Lemma processWith_keeps send act : (forall x cmd x', P x -> send x cmd = Some x' -> P x') -> unmarked act ->
  forall x x', P x -> processWith D send x ctx act = Some x' -> P x'.
Proof.
  intros Hsend Hu x x' Hx H. unfold processWith in H. destruct act as [act|]; [|by injection H as <-].
  simpl in Hu. destruct (Events act) as [|ev evs] eqn:Ee; [by eapply dispatchWith_keeps|].
  destruct (persistAndApplyEvents D x ctx (ev :: evs)) as [[u|e] x1] eqn:Ep;
    (assert (P x1) as Hx1; [eapply P_persist; [exact Hx| |exact Hu|exact Ep]; done|]); [by eapply dispatchWith_keeps|by injection H as <-].
Qed.

Lemma sendCommand_keeps fuel x cmd x' : P x -> sendCommand D fuel ctx x cmd = Some x' -> P x'.
Proof.
  revert x cmd x'. induction fuel as [|fuel IH]; intros x cmd x' Hx H; [done|]. simpl in H.
  destruct (attachCommandMetadata D x ctx (Metadata cmd)) as [ctx' x1] eqn:Ea.
  destruct (call D x1 ctx' cmd _) as [r x2] eqn:Ec.
  pose proof (P_call _ _ _ _ _ _ Hx Ea Ec) as Hx2.
  destruct r as [[reply|]|m]; [|by injection H as <-|].
  - destruct (protocol.ParseCommandReply _ _) as [[rs n]|m].
    + destruct (HandleResult _ _ _ _ _) as [act|] eqn:Eh; [|by injection H as <-].
      eapply processWith_keeps; [|exact (unmarked_result _ _ _ _ _ Eh)|exact Hx2|exact H]. apply IH.
    + destruct (HandleError _ _ _ _ _) as [act|] eqn:Eh; [|by injection H as <-].
      eapply processWith_keeps; [|exact (unmarked_error _ _ _ _ _ Eh)|exact Hx2|exact H]. apply IH.
  - destruct (HandleError _ _ _ _ _) as [act|] eqn:Eh; [|by injection H as <-].
    eapply processWith_keeps; [|exact (unmarked_error _ _ _ _ _ Eh)|exact Hx2|exact H]. apply IH.
Qed.

Lemma processAction_keeps fuel x act x' : unmarked act -> P x -> processAction D fuel x ctx act = Some x' -> P x'.
Proof. intros Hu Hx. eapply processWith_keeps; [|done|done]. intros ???. apply sendCommand_keeps. Qed.
Lemma dispatchActionEffects_keeps fuel x act x' : P x -> dispatchActionEffects D fuel x ctx act = Some x' -> P x'.
Proof. intros Hx. eapply dispatchWith_keeps; [|done]. intros ???. apply sendCommand_keeps. Qed.
End Recursion.

(** ** The saga and its stream *)
Section Stores.
Context {ESL : api.EventsStoreLaws St}.

(** Where the saga's stream is, as the store lemmas of the entities name it. *)
Definition cfg (a : Actor) : eventsource.Config :=
  eventsource.mkConfig (sagaID D a) false 0 None false false 0 0 (tenantAware D a) (scope D a).

Record carries (pid : string) (aware : bool) (tc : TenantContext) (m : Msg D) (env : Event) : Prop := {
  car_pid : PersistenceId env = pid;
  car_tenant : aware = true -> UnmarshalMetadata (TenantMetadata env) = Ok tc;
  car_msg : UnmarshalNew D (EventAny env) = Ok m
}.

(** Replay: markers carry no state. *)
Definition evolve (s : Msg D) (ms : list (Msg D)) : result string (Msg D) :=
  rfold (fun s m => if isEmpty D m then Ok s else ApplyEvent D Background m s) s ms.

(** The stream holds [h], under tenant [tc], and replays to what [a] has. *)
Record synced (tc : TenantContext) (a : Actor) (st : St) (h : list Event) : Prop := {
  sy_stored : stored st (cfg a) h 0;
  sy_numbered : numbered 0 h;
  sy_replay : exists ms, Forall2 (carries (sagaID D a) (tenantAware D a) tc) ms h /\
    evolve (InitialState D) ms = Ok (currentState D a);
  sy_counter : eventsCounter D a = N.of_nat (length h)
}.

Definition bounded (h : list Event) : Prop := (N.of_nat (length h) <= api.max_int)%N.

Lemma evolve_app s ms1 ms2 : evolve s (ms1 ++ ms2) = rbind (fun s' => evolve s' ms2) (evolve s ms1).
Proof. apply rfold_app. Qed.

Lemma numbered_one n e : SequenceNumber e = (n + 1)%N -> numbered n [e].
Proof. intros He [|i] x Hx; simpl in Hx; [|by destruct i]. injection Hx as <-. lia. Qed.

Lemma envelope_carries (a : Actor) n m ts tc : (tenantAware D a = true -> tenancy.wf tc) ->
  carries (sagaID D a) (tenantAware D a) tc m
    (sagaEnvelope D a n (rok (anypbNew D m)) ts (if tenantAware D a then tenancy.MarshalMetadata tc else ∅)).
Proof.
  intros Ht. split; simpl; [done| |].
  - intros Ha. rewrite Ha. by apply UnmarshalMetadata_Marshal, Ht.
  - destruct (any_new m) as (any & -> & Hu). exact Hu.
Qed.

(** What a batch of events becomes: numbered envelopes that replay to the
    state computed for them. Only the clock moves. *)
Record built (tc : TenantContext) (a : Actor) (evs : list (Msg D)) (envs : list Event) (s : Msg D) (n : N) : Prop := {
  b_numbered : numbered (eventsCounter D a) envs;
  b_length : length envs = length evs;
  b_counter : n = (eventsCounter D a + N.of_nat (length evs))%N;
  b_carries : Forall2 (carries (sagaID D a) (tenantAware D a) tc) evs envs;
  b_state : evolve (currentState D a) evs = Ok s
}.

Lemma buildEvents_spec ctx tc (x : Sys) evs r x' : buildEvents D ctx tc x evs = (r, x') ->
  (tenantAware D (actor D x) = true -> tenancy.wf tc) -> Forall (fun m => isEmpty D m = false) evs ->
  (exists w, x' = set_world D x w) /\
  match r with
  | Ok (envs, s, n) => length envs = length evs /\
      ((eventsCounter D (actor D x) + N.of_nat (length evs) < two64)%N -> built tc (actor D x) evs envs s n)
  | Err _ => True
  end.
Proof.
  intros H Ht Hu. revert r x' H. unfold buildEvents. induction evs as [|ev evs IH] using rev_ind; intros r x' H; simpl in H.
  { injection H as <- <-. split; [exists (world D x); by destruct x|]. split; [done|]. intros _.
    split; simpl; [apply numbered_nil|done|lia|constructor|done]. }
  apply Forall_app in Hu as [Hu Hev]. rewrite foldl_snoc in H.
  destruct (foldl _ _ evs) as [r1 x1] eqn:Hf. destruct (IH Hu _ _ eq_refl) as [[w ->] Hb]. clear IH.
  destruct r1 as [[[envs s] n]|e]; [|injection H as <- <-; eauto].
  unfold now in H. destruct (Now (world D (set_world D x w))) as [ts w']. simpl in H. destruct Hb as [Hlen Hb].
  destruct (ApplyEvent D ctx ev s) as [s'|] eqn:Happ; injection H as <- <-; (split; [by exists w'|]); [|done].
  split; [by rewrite !length_app, Hlen|]. rewrite length_app. simpl. intros Hn.
  destruct Hb as [Hnum _ Hc Hcar Hst]; [lia|]. subst n. rewrite u64_succ_small by (unfold two64 in *; lia). split.
  - apply numbered_app. split; [done|]. apply numbered_one. simpl. lia.
  - rewrite !length_app. simpl. lia.
  - rewrite length_app. simpl. lia.
  - apply Forall2_app; [done|]. constructor; [|constructor]. by apply (envelope_carries (actor D x)).
  - rewrite evolve_app, Hst. unfold evolve. simpl. apply Forall_cons in Hev as [-> _]. by rewrite (apply_pure Background ctx), Happ.
Qed.

(** What no handler changes. *)
Definition identity (a b : Actor) : Prop :=
  sagaID D a = sagaID D b /\ tenantAware D a = tenantAware D b /\ scope D a = scope D b /\
  rootMetadata D a = rootMetadata D b.

#[local] Instance identity_equiv : Equivalence identity.
Proof. unfold identity. split; [done|intros ??; naive_solver|intros ???; intuition congruence]. Qed.

Lemma synced_actor tc (a b : Actor) st h : synced tc a st h ->
  sagaID D a = sagaID D b /\ tenantAware D a = tenantAware D b /\ scope D a = scope D b -> currentState D b = currentState D a ->
  eventsCounter D b = eventsCounter D a -> synced tc b st h.
Proof.
  intros [H1 H2 H3 H4] (I1 & I2 & I3) Hs Hc. unfold cfg in *. rewrite I1, I2, I3 in *.
  split; [done|done|by rewrite Hs|by rewrite Hc].
Qed.

Lemma synced_empty tc tc' (a : Actor) st : synced tc a st [] -> synced tc' a st [].
Proof.
  intros [H1 H2 (ms & Hf & He) H4]. split; [done..| |done]. apply Forall2_nil_inv_r in Hf as ->. by exists [].
Qed.

(** A write of envelopes built for the actor's position extends the history. *)
Lemma write_synced tc (x : Sys) h evs envs s n r x' : synced tc (actor D x) (store D x) h ->
  envs <> [] -> (bounded (h ++ envs) -> built tc (actor D x) evs envs s n) ->
  write D x envs = (r, x') ->
  actor D x' = actor D x /\ calls D x' = calls D x /\
  match r with
  | Err _ => store D x' = store D x /\ written D x' = written D x
  | Ok _ => written D x' = written D x ++ envs /\
      (bounded (h ++ envs) -> synced tc (set_state D (set_counter D (actor D x) n) s) (store D x') (h ++ envs))
  end.
Proof.
  intros [H1 H2 (ms & Hf & He) H4] Hne HB Hw. unfold write in Hw.
  destruct (api.WriteEvents _ _ _ _) as [[[]|e] st'] eqn:Hwr; injection Hw as <- <-; simpl; (split; [done|]); (split; [done|]).
  - split; [done|]. intros Hb. destruct (HB Hb) as [B1 B2 B3 B4 B5]. rewrite H4 in B1, B3. split; simpl.
    + apply (stored_commit (store D x) (cfg (actor D x)) h 0 envs Unconditional); try done.
      apply Forall_forall. intros e He'. apply list_elem_of_lookup in He' as [i Hi].
      destruct (Forall2_lookup_r _ _ _ _ _ B4 Hi) as (m & _ & Hc). apply Hc.
    + apply numbered_app. by split.
    + exists (ms ++ evs). split; [by apply Forall2_app|]. by rewrite evolve_app, He.
    + rewrite B3, length_app. lia.
  - split; [|done]. by eapply api.write_err; [apply H1|].
Qed.

(** The context a handler works in carries the saga's tenant. *)
Definition ctx_for (tc : TenantContext) (a : Actor) (ctx : Context) : Prop :=
  tenantAware D a = true -> From ctx = Some tc /\ tenancy.wf tc.

Lemma Require_wf ctx tc : From ctx = Some tc -> tenancy.wf tc -> Require ctx = Ok tc.
Proof. intros Hf Hwf. unfold Require. by rewrite Hf, (wf_valid _ Hwf). Qed.

Lemma persist_synced tc (x : Sys) ctx evs r x' h : synced tc (actor D x) (store D x) h -> ctx_for tc (actor D x) ctx ->
  evs <> [] -> Forall (fun m => isEmpty D m = false) evs ->
  persistAndApplyEvents D x ctx evs = (r, x') ->
  calls D x' = calls D x /\
  match r with
  | Err _ => actor D x' = actor D x /\ store D x' = store D x /\ written D x' = written D x
  | Ok _ => exists s n envs, actor D x' = set_state D (set_counter D (actor D x) n) s /\ length envs = length evs /\
      written D x' = written D x ++ envs /\ (bounded (h ++ envs) -> synced tc (actor D x') (store D x') (h ++ envs))
  end.
Proof.
  intros Hs Hc Hne Hu H. unfold persistAndApplyEvents in H.
  assert (exists tc', (if tenantAware D (actor D x) then eventsource.wrap "failed to persist saga events" (rmap_err eventsource.ETenancy (Require ctx)) else Ok noTenantContext) = Ok tc' /\
    (tenantAware D (actor D x) = true -> tc' = tc)) as (tc' & Hten & Htc).
  { destruct (tenantAware D (actor D x)) eqn:Ha; [|by eexists]. destruct (Hc Ha). rewrite (Require_wf ctx tc) by done. by eexists. }
  rewrite Hten in H.
  destruct (buildEvents D ctx tc' x evs) as [rb x1] eqn:Hb.
  apply buildEvents_spec in Hb as [[w ->] Hb]; [| |done].
  2: { intros Ha. rewrite (Htc Ha). by apply Hc. }
  destruct rb as [[[envs s] n]|e]; [|injection H as <- <-; done].
  destruct Hb as [Hlen Hb].
  assert (bounded (h ++ envs) -> built tc (actor D x) evs envs s n) as Hb'.
  { intros Hbd. unfold bounded, api.max_int in Hbd. rewrite length_app in Hbd.
    destruct Hb as [B1 B2 B3 B4 B5]; [rewrite (sy_counter _ _ _ _ Hs); unfold two64; lia|].
    split; try done. eapply Forall2_impl; [exact B4|]. intros m e [C1 C2 C3]. split; [done| |done].
    intros Ha. rewrite <- (Htc Ha). by apply C2. }
  destruct (write D (set_world D x w) envs) as [rw x2] eqn:Hw.
  eapply (write_synced tc (set_world D x w)) in Hw as (E1 & E2 & Hr); [|exact Hs|by intros ->; destruct evs|exact Hb'].
  destruct rw as [[]|e]; injection H as <- <-; simpl in *; (split; [done|]); [|by destruct Hr].
  destruct Hr as [Hwr Hr]. exists s, n, envs. rewrite E1. by split_and!.
Qed.

(** ** The saga among other entities *)

(** No command makes another entity write the saga's own stream. *)
Class SoleWriter (sc : persistence.Scope) (pid : string) :=
  send_frame w st ctx e cmd t r w' st' : SendSync w st ctx e cmd t = (r, w', st') -> api.store_ok st ->
    api.store_ok st' /\ api.view st' sc pid = api.view st sc pid.

Lemma synced_frame tc (a : Actor) st st' h : synced tc a st h -> api.store_ok st' ->
  api.view st' (scope D a) (sagaID D a) = api.view st (scope D a) (sagaID D a) -> synced tc a st' h.
Proof.
  intros [[S1 S2 S3 S4 S5] H2 H3 H4] Hok Hv. split; [|done..]. split; simpl in *; try done.
  - intros k e. rewrite Hv. apply S2.
  - by rewrite Hv.
Qed.

(** The saga was in step with its store whenever it waited for a reply. *)
Definition call_synced (tc : TenantContext) (a0 : Actor) (c : Call) : Prop :=
  identity a0 (c_actor D c) /\ boundTenant D (c_actor D c) = tc /\ exists h, synced tc (c_actor D c) (c_store D c) h.

(** [h0] is the history the saga started from. *)
Record okay (tc : TenantContext) (h0 : list Event) (a0 : Actor) (x : Sys) : Prop := {
  ok_id : identity a0 (actor D x);
  ok_tenant : boundTenant D (actor D x) = tc;
  ok_inv : bounded (h0 ++ written D x) -> synced tc (actor D x) (store D x) (h0 ++ written D x);
  ok_calls : bounded (h0 ++ written D x) -> Forall (call_synced tc a0) (calls D x)
}.

Lemma bounded_app h l : bounded (h ++ l) -> bounded h.
Proof. unfold bounded. rewrite length_app. lia. Qed.

(** *** Attaching metadata only moves the world *)
Lemma attach_world (x : Sys) ctx md ctx' x1 : attachCommandMetadata D x ctx md = (ctx', x1) ->
  (exists w, x1 = set_world D x w) /\ From ctx' = From ctx.
Proof.
  unfold attachCommandMetadata. case_bool_decide.
  { intros [= <- <-]. split; [exists (world D x); by destruct x|done]. }
  destruct (GenerateOperationID (world D x)) as [[op|e] w]; [|intros [= <- <-]; eauto].
  unfold now. destruct (Now _) as [t w'].
  destruct (command.Derive _ _ _ _); intros [= <- <-]; (split; [by exists w'|done]).
Qed.

(** What persisting leaves alone, whatever the outcome. *)
Lemma buildEvents_world ctx tc (x : Sys) evs r x' : buildEvents D ctx tc x evs = (r, x') -> exists w, x' = set_world D x w.
Proof.
  unfold buildEvents. revert r x'. induction evs as [|ev evs IH] using rev_ind; intros r x' H; simpl in H.
  { injection H as <- <-. exists (world D x). by destruct x. }
  rewrite foldl_snoc in H. destruct (foldl _ _ evs) as [r1 x1] eqn:Hf. destruct (IH _ _ eq_refl) as [w ->].
  destruct r1 as [[[envs s] n]|e]; [|injection H as <- <-; eauto].
  unfold now in H. destruct (Now _) as [ts w']. simpl in H.
  destruct (ApplyEvent D ctx ev s); injection H as <- <-; by exists w'.
Qed.

Lemma persist_frame (x : Sys) ctx evs r x' : persistAndApplyEvents D x ctx evs = (r, x') ->
  calls D x' = calls D x /\ identity (actor D x) (actor D x') /\ boundTenant D (actor D x') = boundTenant D (actor D x) /\
  exists l, written D x' = written D x ++ l.
Proof.
  unfold persistAndApplyEvents. destruct (if tenantAware D (actor D x) then _ else _) as [tc|e].
  2: { intros [= <- <-]. split_and!; try done. exists []. by rewrite app_nil_r. }
  destruct (buildEvents D ctx tc x evs) as [rb x1] eqn:Hb. apply buildEvents_world in Hb as [w ->].
  destruct rb as [[[envs s] n]|e]; [|intros [= <- <-]; split_and!; try done; exists []; by rewrite app_nil_r].
  unfold write. destruct (api.WriteEvents _ _ _ _) as [[[]|e] st']; intros [= <- <-]; split_and!; try done; simpl;
    [by eexists|exists []; by rewrite app_nil_r].
Qed.

Section Okay.
Context (tc : TenantContext) (h0 : list Event) (a0 : Actor) (ctx : Context).
Context {SW : SoleWriter (scope D a0) (sagaID D a0)}.
Hypothesis Hctx : ctx_for tc a0 ctx.

Lemma okay_status x s : okay tc h0 a0 x -> okay tc h0 a0 (on_actor D (fun a => set_status D a s) x).
Proof.
  intros [H1 H2 H3 H4]. split; simpl; [done|done| |done]. intros Hb.
  apply (synced_actor tc (actor D x)); [by apply H3|done|done|done].
Qed.

Lemma okay_call x cmd ctx' x1 r x2 t : okay tc h0 a0 x -> attachCommandMetadata D x ctx (Metadata cmd) = (ctx', x1) ->
  call D x1 ctx' cmd t = (r, x2) -> okay tc h0 a0 x2.
Proof.
  intros [H1 H2 H3 H4] Ha Hc. apply attach_world in Ha as [[w ->] _]. unfold call in Hc. simpl in Hc.
  destruct (SendSync _ _ _ _ _ _) as [[r' w'] st'] eqn:Hs. injection Hc as <- <-.
  split; simpl; [done|done| |]; intros Hb; pose proof (H3 Hb) as Hsy.
  - destruct (send_frame _ _ _ _ _ _ _ _ _ Hs (st_ok _ _ _ _ (sy_stored _ _ _ _ Hsy))) as [Hok Hv].
    destruct H1 as (I1 & I2 & I3 & _). rewrite I1, I3 in Hv. by eapply synced_frame.
  - apply Forall_app. split; [by apply H4|]. constructor; [|constructor]. split; [done|]. split; [done|]. by eexists.
Qed.

Lemma okay_persist x evs r x' : okay tc h0 a0 x -> evs <> [] -> Forall (fun m => isEmpty D m = false) evs ->
  persistAndApplyEvents D x ctx evs = (r, x') -> okay tc h0 a0 x'.
Proof.
  intros [H1 H2 H3 H4] Hne Hu Hp.
  assert (ctx_for tc (actor D x) ctx) as Hcx by (unfold ctx_for; destruct H1 as (_ & <- & _); exact Hctx).
  destruct (persist_frame x ctx evs r x' Hp) as (Hcalls & Hid & Hten & l & Hl).
  split; [by transitivity (actor D x)|congruence| |]; rewrite Hl; intros Hb; rewrite app_assoc in Hb;
    pose proof (bounded_app _ _ Hb) as Hb0; [|rewrite Hcalls; by apply H4].
  destruct (persist_synced tc x ctx evs r x' _ (H3 Hb0) Hcx Hne Hu Hp) as [_ Hr]. destruct r as [[]|e].
  - destruct Hr as (s & n & envs & _ & _ & Hw & Hsy). rewrite Hl in Hw. apply app_inv_head in Hw as ->.
    rewrite app_assoc. by apply Hsy.
  - destruct Hr as (-> & -> & Hw). rewrite Hl in Hw. rewrite <- (app_nil_r (written D x)) in Hw at 2.
    apply app_inv_head in Hw as ->. rewrite app_nil_r. by apply H3.
Qed.

Lemma okay_compensate x s : okay tc h0 a0 x -> okay tc h0 a0 (compensate D (on_actor D (fun a => set_status D a s) x) ctx).
Proof. intros Hx. apply compensate_keeps; [apply okay_status|intros *; apply okay_call|by apply okay_status]. Qed.

Lemma okay_process fuel x act x' : unmarked act -> okay tc h0 a0 x -> processAction D fuel x ctx act = Some x' -> okay tc h0 a0 x'.
Proof.
  apply processAction_keeps; [intros *; apply okay_status|intros *; apply okay_compensate|intros *; apply okay_call|intros *; apply okay_persist].
Qed.

Lemma okay_dispatch fuel x act x' : okay tc h0 a0 x -> dispatchActionEffects D fuel x ctx act = Some x' -> okay tc h0 a0 x'.
Proof.
  apply dispatchActionEffects_keeps; [intros *; apply okay_status|intros *; apply okay_compensate|intros *; apply okay_call|intros *; apply okay_persist].
Qed.
End Okay.

(** ** Messages *)
Lemma wf_bound tc : tenancy.wf tc -> tc <> noTenantContext.
Proof. intros H%wf_valid ->. by vm_compute in H. Qed.

(** The tenant of the event is the one its context carries. *)
Lemma eventContext_Ok (a : Actor) e ctx : tenantAware D a = true -> eventContext D a Background e = Ok ctx ->
  exists t, UnmarshalMetadata (TenantMetadata e) = Ok t /\ tenancy.wf t /\ ctx = with_tenant Background t.
Proof.
  intros Ha H. unfold eventContext in H. rewrite Ha in H. simpl in H. apply rbind_Ok in H as (t & Hu & H).
  unfold eventsource.wrap in Hu. destruct (UnmarshalMetadata (TenantMetadata e)) as [t'|] eqn:E; [|done].
  injection Hu as ->. pose proof (UnmarshalMetadata_wf _ _ E) as Hwf. exists t. split_and!; [done|done|].
  unfold attach, Attach in H. rewrite (wf_valid _ Hwf) in H. simpl in H. congruence.
Qed.

Lemma bindOrVerify_Ok (a a' : Actor) t : tenantAware D a = true -> tenancy.wf t -> boundTenant D a <> noTenantContext ->
  bindOrVerify D a (with_tenant Background t) = Ok a' -> boundTenant D a = t.
Proof.
  intros Ha Hwf Hb H. unfold bindOrVerify in H. rewrite Ha in H. simpl in H.
  rewrite (Require_wf _ t) in H by done. simpl in H. rewrite bool_decide_eq_false_2 in H by done.
  destruct (VerifyUnchanged _ _) as [u|] eqn:E; [|done]. by apply VerifyUnchanged_Ok in E.
Qed.

(** A stream event is ignored, or its action is processed under the saga's
    tenant. *)
Lemma stream_carries fuel (x x' : Sys) e :
  (tenantAware D (actor D x) = true -> tenancy.wf (boundTenant D (actor D x))) -> handleStreamEvent D fuel x e = Some x' ->
  x' = x \/ exists ctx act, ctx_for (boundTenant D (actor D x)) (actor D x) ctx /\ ctx_carrier ctx = None /\ unmarked act /\
    processAction D fuel x ctx act = Some x'.
Proof.
  intros Hwf H. unfold handleStreamEvent in H. case_bool_decide; [left; congruence|].
  destruct (eventContext D (actor D x) Background e) as [ctx|] eqn:Hc; [|left; congruence].
  assert (tenantAware D (actor D x) && bool_decide (boundTenant D (actor D x) <> noTenantContext) = tenantAware D (actor D x)) as Hb.
  { destruct (tenantAware D (actor D x)) eqn:E; [|done]. simpl. apply bool_decide_eq_true_2, wf_bound. auto. }
  rewrite Hb in H. destruct (tenantAware D (actor D x)) eqn:E.
  - apply eventContext_Ok in Hc as (t & _ & Ht & ->); [|done].
    destruct (bindOrVerify D (actor D x) _) as [a1|] eqn:Hv; [|left; congruence].
    apply bindOrVerify_Ok in Hv; [|done|done|by apply wf_bound, Hwf]. subst t.
    destruct (UnmarshalNew D (EventAny e)) as [m|]; [|left; congruence].
    destruct (HandleEvent D _ m _) as [act|] eqn:Hh; [|left; congruence].
    right. exists (with_tenant Background (boundTenant D (actor D x))), act. split; [done|]. split; [done|]. split; [by eapply unmarked_event|done].
  - destruct (UnmarshalNew D (EventAny e)) as [m|]; [|left; congruence].
    destruct (HandleEvent D _ m _) as [act|] eqn:Hh; [|left; congruence].
    destruct (actionIsNoop act); [left; congruence|]. simpl in H.
    right. exists ctx, act. split; [intros E'; congruence|]. split; [|split; [by eapply unmarked_event|done]].
    unfold eventContext in Hc. rewrite E in Hc. by injection Hc as <-.
Qed.

Lemma stream_cases fuel (x x' : Sys) e :
  (tenantAware D (actor D x) = true -> tenancy.wf (boundTenant D (actor D x))) -> handleStreamEvent D fuel x e = Some x' ->
  x' = x \/ exists ctx act, ctx_for (boundTenant D (actor D x)) (actor D x) ctx /\ unmarked act /\
    processAction D fuel x ctx act = Some x'.
Proof. intros Hwf [?|(ctx & act & ? & _ & ?)]%stream_carries; [by left|right; by exists ctx, act|done]. Qed.

Section Messages.
Context (tc : TenantContext) (h0 : list Event) (a0 : Actor).
Context {SW : SoleWriter (scope D a0) (sagaID D a0)}.
Hypothesis Hwf : tenantAware D a0 = true -> tenancy.wf tc.

Lemma okay_stream fuel x e x' : okay tc h0 a0 x -> handleStreamEvent D fuel x e = Some x' -> okay tc h0 a0 x'.
Proof.
  intros Hx H. pose proof (ok_id _ _ _ _ Hx) as (_ & Ha & _). pose proof (ok_tenant _ _ _ _ Hx) as Htc.
  destruct (stream_cases fuel x x' e ltac:(by rewrite <- Ha, Htc) H) as [->|(ctx & act & Hc & Hu & Hp)]; [done|].
  refine (okay_process tc h0 a0 ctx _ fuel x act x' Hu Hx Hp). unfold ctx_for in *. by rewrite Ha, <- Htc.
Qed.

Lemma okay_timeout x : okay tc h0 a0 x -> okay tc h0 a0 (handleTimeout D x).
Proof.
  intros Hx. unfold handleTimeout. case_bool_decide; [|done].
  destruct (compensationContext D _) as [ctx|]; [|by apply okay_status, okay_status].
  by apply (okay_compensate tc h0 a0 ctx).
Qed.

Lemma okay_receive fuel x m x' rs : okay tc h0 a0 x -> Receive D fuel x m = Some (x', rs) -> okay tc h0 a0 x'.
Proof.
  intros Hx H. destruct m; simpl in H; try by injection H as <- _.
  - destruct (handleStreamEvent D fuel x e) as [x1|] eqn:E; simplify_eq/=. by eapply okay_stream.
  - injection H as <- _. by apply okay_timeout.
Qed.

Lemma okay_run fuel x ms x' : okay tc h0 a0 x -> run D fuel x ms = Some x' -> okay tc h0 a0 x'.
Proof.
  revert x. induction ms as [|m ms IH]; intros x Hx H; simpl in H; [by injection H as <-|].
  destruct (Receive D fuel x m) as [[x1 rs]|] eqn:E; [|done]. simpl in H. eapply IH; [|exact H]. by eapply okay_receive.
Qed.
End Messages.

(** ** Recovery *)
Lemma recoverEvent_carries tc (b : Actor) ctx m env s : From ctx = None ->
  (tenantAware D b = true -> boundTenant D b = tc /\ tenancy.wf tc) ->
  carries (sagaID D b) (tenantAware D b) tc m env ->
  (if isEmpty D m then Ok (currentState D b) else ApplyEvent D Background m (currentState D b)) = Ok s ->
  recoverEvent D ctx b env = Ok (set_state D b s).
Proof.
  intros Hctx Ht [_ Hcar Hm] Hs. unfold recoverEvent, eventsource.wrap.
  assert (exists ctx', eventContext D b ctx env = Ok ctx' /\ bindOrVerify D b ctx' = Ok b) as (ctx' & -> & Hv).
  { unfold eventContext, bindOrVerify. destruct (tenantAware D b); [|by exists ctx]. destruct (Ht eq_refl) as [Hb Hwf].
    exists (with_tenant ctx tc). rewrite (Hcar eq_refl). simpl. unfold attach, Attach. rewrite (wf_valid _ Hwf), Hctx. simpl.
    split; [done|]. rewrite (Require_wf _ tc) by done. simpl. rewrite Hb, bool_decide_eq_false_2 by by apply wf_bound.
    by rewrite (proj2 (VerifyUnchanged_Ok tc tc tt)). }
  simpl. rewrite Hv. simpl. rewrite Hm. simpl. destruct (isEmpty D m).
  - injection Hs as <-. by destruct b.
  - by rewrite (apply_pure ctx' Background), Hs.
Qed.

Lemma recover_replays tc (b : Actor) ctx ms h s : From ctx = None ->
  (tenantAware D b = true -> boundTenant D b = tc /\ tenancy.wf tc) ->
  Forall2 (carries (sagaID D b) (tenantAware D b) tc) ms h -> evolve (currentState D b) ms = Ok s ->
  rfold (recoverEvent D ctx) b h = Ok (set_state D b s).
Proof.
  intros Hctx Ht Hf. revert b Ht Hf. induction ms as [|m ms IH] in h |- *; intros b Ht Hf He.
  { apply Forall2_nil_inv_l in Hf as ->. injection He as <-. by destruct b. }
  apply Forall2_cons_inv_l in Hf as (env & h' & Hc & Hf & ->). unfold evolve in He. simpl in He.
  apply rbind_Ok in He as (s1 & Hs1 & He). simpl. rewrite (recoverEvent_carries tc b ctx m env s1) by done. simpl.
  by apply (IH h' (set_state D b s1)).
Qed.

(** A saga actor before recovery. *)
Record unstarted (tc : TenantContext) (a b : Actor) : Prop := {
  un_id : sagaID D a = sagaID D b /\ tenantAware D a = tenantAware D b /\ scope D a = scope D b;
  un_scope : wf_scope (scope D b);
  un_tenant : tenantAware D b = true -> boundTenant D b = tc /\ tenancy.wf tc;
  un_counter : eventsCounter D b = 0%N
}.

Lemma recover_synced {ESR : api.ReliableEventsStore St} tc (a b : Actor) st h ctx : synced tc a st h -> unstarted tc a b ->
  From ctx = None ->
  recover D b st ctx = Some (Ok (set_status D (set_state D (set_counter D b (N.of_nat (length h))) (currentState D a)) SagaRunning)).
Proof.
  intros [H1 H2 (ms & Hf & He) H4] [(E1 & E2 & E3) Hsc Ht Hc] Hctx. unfold recover. simpl.
  pose proof (st_ok _ _ _ _ H1) as Hok. apply wf_scope_valid in Hsc.
  destruct (api.latest_succeeds st (scope D b) (sagaID D b) Hok Hsc) as [r Hr]. rewrite Hr.
  apply (api.latest_ok st) in Hr; [|done]. unfold cfg in *.
  rewrite <- E1, <- E3 in Hr. pose proof (stored_latest _ _ _ _ _ H1 H2 Hr) as Hl.
  set (b' := set_status D (set_state D b (InitialState D)) SagaRunning).
  destruct r as [e|].
  - destruct Hl as (_ & Hsn & _). rewrite Hsn.
    destruct (api.replay_succeeds st (scope D b) (sagaID D b) 1 (N.of_nat (length h)) (N.of_nat (length h)) Hok Hsc) as [l Hrep];
      [apply H1|]. rewrite Hrep. apply (api.replay_ok st) in Hrep as (all & Hall & ->); [|done|apply H1].
    pose proof (stored_range _ _ _ _ 0 H1 H2 ltac:(lia)) as Hrange. simpl in Hrange. rewrite E1, E3 in Hrange.
    rewrite (api.range_of_unique _ _ _ _ _ Hall Hrange). change (drop (N.to_nat 0) h) with h.
    rewrite Nat2N.id, firstn_all.
    rewrite (recover_replays tc b' ctx ms h (currentState D a)); [done|done|exact Ht| |done].
    unfold b'. simpl. by rewrite <- E1, <- E2.
  - destruct h; [|simpl in Hl; lia]. apply Forall2_nil_inv_r in Hf as ->. injection He as Hs.
    rewrite <- Hs. f_equal. f_equal. unfold b'. destruct b. simpl in *. by subst.
Qed.

(** ** Start and restart *)

(** The store holds the saga's history [h], and it replays. *)
Definition recorded (name : string) (aware : bool) (sc : persistence.Scope) (tc : TenantContext) (st : St) (h : list Event) : Prop :=
  exists s, synced tc (mkActor D name 0 aware sc command.noMetadata s (N.of_nat (length h)) SagaRunning tc) st h.

Lemma resolve_sound aware deps sc tc : resolveScope aware deps = Ok (sc, tc) ->
  wf_scope sc /\ (aware = true -> tenancy.wf tc).
Proof.
  unfold resolveScope. destruct aware; simpl; [|intros [= <- <-]; split; [constructor|done]].
  induction deps as [|d deps IH]; [done|]. destruct d; try exact IH. simpl. unfold eventsource.wrap.
  intros (sc' & H1 & (tc' & H2 & [= <- <-])%rbind_Ok)%rbind_Ok.
  destruct (NewTenantScope tenantID) as [s|] eqn:E1; [|done]. injection H1 as ->.
  destruct (NewTenantContext (TenantID sc')) as [t|] eqn:E2; [|done]. injection H2 as ->.
  apply NewTenantScope_wf in E1 as [? _]. apply NewTenantContext_wf in E2 as [? _]. done.
Qed.

(** What [PreStart] hands to [recover]. *)
Lemma PreStart_recovers name aware deps sc tc st ctx t a : resolveScope aware deps = Ok (sc, tc) ->
  PreStart D name aware deps st None ctx t = Some (Ok a) ->
  exists tmo, forall st' ctx' t', exists root,
    PreStart D name aware deps st' None ctx' t' = recover D (mkActor D name tmo aware sc root (nilMsg D) 0 SagaRunning tc) st' ctx'.
Proof.
  intros Hs H. unfold PreStart in *. rewrite Hs in *. simpl in *. unfold eventsource.wrap in *.
  destruct (command.NewOperationID name) as [op|]; [|done]. simpl in *. unfold command.NewMetadata, command.apply_opts in *. simpl in *.
  destruct (existsb _ deps); [|done]. simpl in *. eexists. intros st' ctx' t'. by eexists.
Qed.

Definition start (a : Actor) (st : St) (w : W) : Sys := mkSys D a st w [] [].

(** Started again with the same name and dependencies on [st], the saga has
    the state, counter and tenant that [a] had. *)
Definition restarts (name : string) (aware : bool) (deps : list dependency) (st : St) (a : Actor) : Prop :=
  forall ctx t, From ctx = None -> exists a',
    PreStart D name aware deps st None ctx t = Some (Ok a') /\
    currentState D a' = currentState D a /\ eventsCounter D a' = eventsCounter D a /\ boundTenant D a' = boundTenant D a.

Section Lifecycle.
Context {ESR : api.ReliableEventsStore St}.
Context (name : string) (aware : bool) (deps : list dependency) (sc : persistence.Scope) (tc : TenantContext).
Context {SW : SoleWriter sc name}.
Hypothesis Hres : resolveScope aware deps = Ok (sc, tc).

Lemma synced_restarts st0 ctx0 t0 a0 (a : Actor) st h : PreStart D name aware deps st0 None ctx0 t0 = Some (Ok a0) ->
  sagaID D a = name -> tenantAware D a = aware -> scope D a = sc -> boundTenant D a = tc ->
  synced tc a st h -> restarts name aware deps st a.
Proof.
  intros Hp E1 E2 E3 E4 Hsy ctx t Hctx. destruct (resolve_sound _ _ _ _ Hres) as [Hsc Hwf].
  destruct (PreStart_recovers _ _ _ _ _ _ _ _ _ Hres Hp) as [tmo Hrec]. destruct (Hrec st ctx t) as [root ->].
  eexists. split; [apply (recover_synced tc a _ st h ctx Hsy); [|done]|].
  - split; simpl; [done|done| |done]. intros Ha. split; [done|auto].
  - split; [done|]. split; [|done]. simpl. by rewrite (sy_counter _ _ _ _ Hsy).
Qed.

Lemma start_okay st h ctx t a w : recorded name aware sc tc st h -> From ctx = None ->
  PreStart D name aware deps st None ctx t = Some (Ok a) ->
  okay tc h a (start a st w) /\ sagaID D a = name /\ tenantAware D a = aware /\ scope D a = sc.
Proof.
  intros [s Hsy] Hctx Hp. destruct (resolve_sound _ _ _ _ Hres) as [Hsc Hwf].
  destruct (PreStart_recovers _ _ _ _ _ _ _ _ _ Hres Hp) as [tmo Hrec]. destruct (Hrec st ctx t) as [root Hr].
  rewrite Hr in Hp. rewrite (recover_synced tc _ _ st h ctx Hsy) in Hp; [|split; simpl; try done; intros; auto|done].
  injection Hp as <-. split; [|done]. split; simpl; [done|done| |constructor].
  intros _. rewrite app_nil_r. eapply (synced_actor tc); [exact Hsy|done|done|done].
Qed.

(** C13: A saga keeps in memory exactly what its stream replays to: whatever
    stream events, timeouts and queries it handled, however the entities
    replied and whichever writes failed, starting it again on the store gives
    the state, counter and tenant it had, and so it does on the store as it
    was at every moment the saga waited for another entity. *)
Theorem saga_recovers st h ctx t a w fuel ms x : recorded name aware sc tc st h -> From ctx = None ->
  PreStart D name aware deps st None ctx t = Some (Ok a) ->
  run D fuel (start a st w) ms = Some x -> bounded (h ++ written D x) ->
  restarts name aware deps (store D x) (actor D x) /\
  Forall (fun c => restarts name aware deps (c_store D c) (c_actor D c)) (calls D x).
Proof.
  intros Hrec Hctx Hp Hr Hb. destruct (start_okay st h ctx t a w Hrec Hctx Hp) as (Hs & E1 & E2 & E3).
  destruct (resolve_sound _ _ _ _ Hres) as [_ Hwf].
  assert (SoleWriter (scope D a) (sagaID D a)) as SW' by by rewrite E1, E3.
  apply (okay_run tc h a) in Hr; [|by rewrite E2|done]. destruct Hr as [I1 I2 I3 I4]. split.
  - destruct I1 as (J1 & J2 & J3 & _). eapply synced_restarts; [exact Hp| | | | |by apply I3]; congruence.
  - eapply Forall_impl; [by apply I4|]. intros c ((J1 & J2 & J3 & _) & Hten & h' & Hsy).
    eapply synced_restarts; [exact Hp| | | | |exact Hsy]; congruence.
Qed.
End Lifecycle.

(** ** Attribution of commands *)




Section Attribution.
Context (a0 : Actor).



Section Handler.
Context (ctx : Context) (Hctx : ctx_for (boundTenant D a0) a0 ctx) (Hcar : ctx_carrier ctx = None).





End Handler.

Hypothesis Hwf : tenantAware D a0 = true -> tenancy.wf (boundTenant D a0).



End Attribution.


(** ** Status *)
Definition settled (x : Sys) : Prop := status D (actor D x) <> SagaCompensating.

Lemma compensateAll_settles cmds x ctx : settled (compensateAll D x ctx cmds).
Proof.
  revert x. induction cmds as [|cmd cmds IH]; intros x; simpl; [done|].
  destruct (attachCommandMetadata D x ctx (Metadata cmd)) as [ctx' x1]. destruct (call D x1 ctx' cmd _) as [[r|e] x2]; [apply IH|done].
Qed.
Lemma compensate_settles x ctx : settled (compensate D x ctx).
Proof. unfold compensate. destruct (CompensateCommands _ _ _); [apply compensateAll_settles|done]. Qed.

Lemma persist_status (x : Sys) ctx evs r x' : persistAndApplyEvents D x ctx evs = (r, x') -> status D (actor D x') = status D (actor D x).
Proof.
  unfold persistAndApplyEvents. destruct (if tenantAware D (actor D x) then _ else _) as [tc|e]; [|by intros [= <- <-]].
  destruct (buildEvents D ctx tc x evs) as [rb x1] eqn:Hb. apply buildEvents_world in Hb as [w ->].
  destruct rb as [[[envs s] n]|e]; [|by intros [= <- <-]].
  unfold write. destruct (api.WriteEvents _ _ _ _) as [[[]|e] st']; by intros [= <- <-].
Qed.

Lemma call_settled x ctx cmd ctx' x1 r x2 t : settled x -> attachCommandMetadata D x ctx (Metadata cmd) = (ctx', x1) ->
  call D x1 ctx' cmd t = (r, x2) -> settled x2.
Proof.
  intros Hx [[w ->] _]%attach_world Hc. unfold call in Hc. destruct (SendSync _ _ _ _ _ _) as [[r' w'] st']. by injection Hc as <- <-.
Qed.

Lemma dispatch_settles fuel x ctx act x' : settled x -> dispatchActionEffects D fuel x ctx act = Some x' -> settled x'.
Proof.
  apply dispatchActionEffects_keeps; [done|intros; apply compensate_settles|intros *; apply call_settled|].
  intros y evs r y' Hy _ _ Hp. unfold settled. by rewrite (persist_status _ _ _ _ _ Hp).
Qed.
Lemma process_settles fuel x ctx act x' : unmarked act -> settled x -> processAction D fuel x ctx act = Some x' -> settled x'.
Proof.
  apply processAction_keeps; [done|intros; apply compensate_settles|intros *; apply call_settled|].
  intros y evs r y' Hy _ _ Hp. unfold settled. by rewrite (persist_status _ _ _ _ _ Hp).
Qed.

Lemma stream_settles fuel x e x' : settled x -> handleStreamEvent D fuel x e = Some x' -> settled x'.
Proof.
  intros Hx H. unfold handleStreamEvent in H. case_bool_decide; [by injection H as <-|].
  destruct (eventContext _ _ _ _) as [ctx|]; [|by injection H as <-].
  set (bound := tenantAware D (actor D x) && _) in H.
  destruct (if bound then bindOrVerify D (actor D x) ctx else _) as [a1|]; [|by injection H as <-].
  destruct (UnmarshalNew D (EventAny e)) as [m|]; [|by injection H as <-].
  destruct (HandleEvent D ctx m _) as [act|] eqn:Hh; [|by injection H as <-]. apply unmarked_event in Hh.
  destruct bound; [by eapply process_settles|]. destruct (actionIsNoop act); [by injection H as <-|].
  destruct (negb (tenantAware D (actor D x))); [by eapply process_settles|].
  destruct (Require ctx) as [tc|]; [|by injection H as <-]. destruct act as [act|]; [|by injection H as <-].
  destruct (match Events act with [] => _ | _ => _ end) as [r x1] eqn:Hp.
  assert (settled x1) as Hx1.
  { unfold settled. destruct (Events act) as [|ev evs]; [|by rewrite (persist_status _ _ _ _ _ Hp)].
    unfold persistTenantBinding in Hp. destruct (anypbNew D _); [|by injection Hp as <- <-].
    unfold now in Hp. destruct (Now _) as [ts w]. unfold write in Hp.
    destruct (api.WriteEvents _ _ _ _) as [[[]|e'] st']; by injection Hp as <- <-. }
  destruct r; [|by injection H as <-]. eapply dispatch_settles; [|exact H]. exact Hx1.
Qed.

(** A saga never comes to rest half compensated, and its outcome is final:
    after every message that returns, its status is running, completed or
    failed, and once it is no longer running no message changes the saga, its
    stream or sends a command. *)
Theorem saga_settles fuel x m x' rs : status D (actor D x) <> SagaCompensating -> Receive D fuel x m = Some (x', rs) ->
  status D (actor D x') <> SagaCompensating /\ (status D (actor D x) <> SagaRunning -> x' = x).
Proof.
  intros Hx H. destruct m; simpl in H; try by injection H as <- _.
  - destruct (handleStreamEvent D fuel x e) as [x1|] eqn:E; simplify_eq/=. split; [by eapply stream_settles|].
    intros Hr. unfold handleStreamEvent in E. rewrite bool_decide_eq_true_2 in E by done. congruence.
  - injection H as <- _. unfold handleTimeout. case_bool_decide; [|done]. split; [|done].
    destruct (compensationContext D _); [apply compensate_settles|done].
Qed.

(** ** Compensation *)
Definition delivered (c : Call) : Prop := exists r, c_reply D c = Ok r.

Lemma compensateAll_spec cmds x ctx : let x' := compensateAll D x ctx cmds in
  written D x' = written D x /\ currentState D (actor D x') = currentState D (actor D x) /\
  exists sent rest, calls D x' = calls D x ++ sent /\ cmds = (c_cmd D <$> sent) ++ rest /\
    ((status D (actor D x') = SagaCompleted /\ rest = [] /\ Forall delivered sent) \/
     (status D (actor D x') = SagaFailed /\ exists init c e, sent = init ++ [c] /\ c_reply D c = Err e /\ Forall delivered init)).
Proof.
  revert x. induction cmds as [|cmd cmds IH]; intros x; simpl.
  { split_and!; try done. exists [], []. rewrite app_nil_r. split_and!; try done. by left. }
  destruct (attachCommandMetadata D x ctx (Metadata cmd)) as [ctx' x1] eqn:Ha. apply attach_world in Ha as [[w ->] _].
  destruct (call D _ ctx' cmd _) as [r x2] eqn:Hc. unfold call in Hc.
  destruct (SendSync _ _ _ _ _ _) as [[r' w'] st']. injection Hc as <- <-. set (c := mkCall _ _ _ _ _ _ _).
  destruct r' as [rep|e].
  - destruct (IH (mkSys D (actor D x) st' w' (written D x) (calls D x ++ [c]))) as (H1 & H2 & sent & rest & H3 & H4 & H5).
    split; [done|]. split; [done|]. exists (c :: sent), rest. rewrite H3. simpl. rewrite <- app_assoc.
    split; [done|]. split; [by rewrite H4 at 1|].
    assert (delivered c) as Hd by by eexists.
    destruct H5 as [(Hs & Hr & Hf)|(Hs & init & c' & e & -> & He & Hf)]; [left|right].
    + split_and!; [done|done|by constructor].
    + split; [done|]. exists (c :: init), c', e. split_and!; [done|done|by constructor].
  - simpl. split; [done|]. split; [done|]. exists [c], cmds. split_and!; [done|done|]. right. split; [done|]. by exists [], c, e.
Qed.

(** A saga that times out compensates: it sends the commands its behavior
    names for the state it is in, in order, and records nothing; it is
    completed when every command was delivered, and failed at the first that
    was not, after which no further command is sent. *)
Theorem compensation_outcome x ctx cmds : status D (actor D x) = SagaRunning ->
  compensationContext D (actor D x) = Ok ctx -> CompensateCommands D ctx (currentState D (actor D x)) = Ok cmds ->
  let x' := handleTimeout D x in
  written D x' = written D x /\ currentState D (actor D x') = currentState D (actor D x) /\
  exists sent rest, calls D x' = calls D x ++ sent /\ cmds = (c_cmd D <$> sent) ++ rest /\
    ((status D (actor D x') = SagaCompleted /\ rest = [] /\ Forall delivered sent) \/
     (status D (actor D x') = SagaFailed /\ exists init c e, sent = init ++ [c] /\ c_reply D c = Err e /\ Forall delivered init)).
Proof.
  intros Hr Hc Hcmds. unfold handleTimeout. rewrite bool_decide_eq_true_2 by done.
  change (compensationContext D (actor D (on_actor D (fun a => set_status D a SagaCompensating) x))) with (compensationContext D (actor D x)).
  rewrite Hc. unfold compensate. simpl. rewrite Hcmds.
  apply (compensateAll_spec cmds (on_actor D (fun a => set_status D a SagaCompensating) x) ctx).
Qed.

(** ** Termination *)
Lemma ofold_mono {A} (f g : Sys -> A -> option Sys) l x x' : (forall x a x', a ∈ l -> f x a = Some x' -> g x a = Some x') ->
  ofold D f x l = Some x' -> ofold D g x l = Some x'.
Proof.
  revert x. induction l as [|a l IH]; intros x Hfg H; simpl in *; [done|].
  destruct (f x a) as [x1|] eqn:E; [|done]. rewrite (Hfg _ _ _ ltac:(left) E). simpl in *.
  apply IH; [|done]. intros y b y' Hb. apply Hfg. by right.
Qed.

Lemma process_mono (f g : Sys -> scommand -> option Sys) x ctx act x' :
  (forall x c x', f x c = Some x' -> g x c = Some x') -> processWith D f x ctx act = Some x' -> processWith D g x ctx act = Some x'.
Proof.
  intros Hfg. assert (forall x act x', dispatchWith D f x ctx act = Some x' -> dispatchWith D g x ctx act = Some x') as Hd.
  { clear x act x'. intros x act x' H. unfold dispatchWith in *. destruct (ofold D f x (Commands act)) as [x1|] eqn:E; [|done].
    rewrite (ofold_mono f g _ _ x1); [done| |done]. intros ????. by apply Hfg. }
  unfold processWith. destruct act as [act|]; [|done]. destruct (Events act); [apply Hd|].
  destruct (persistAndApplyEvents _ _ _ _) as [[]]; [apply Hd|done].
Qed.

(** More fuel does not change a result. *)
Lemma sendCommand_mono fuel fuel' ctx x cmd x' : (fuel <= fuel')%nat ->
  sendCommand D fuel ctx x cmd = Some x' -> sendCommand D fuel' ctx x cmd = Some x'.
Proof.
  revert fuel' x cmd x'. induction fuel as [|fuel IH]; intros fuel' x cmd x' Hle H; [done|].
  destruct fuel' as [|fuel']; [lia|]. simpl in *. destruct (attachCommandMetadata _ _ _ _) as [ctx' x1].
  destruct (call D x1 ctx' cmd _) as [r x2]. assert (forall act x', processWith D (sendCommand D fuel ctx) x2 ctx act = Some x' ->
    processWith D (sendCommand D fuel' ctx) x2 ctx act = Some x') as Hp.
  { intros act y. apply process_mono. intros ???. apply IH. lia. }
  destruct r as [[rep|]|m]; [destruct (protocol.ParseCommandReply _ _) as [[rs n]|m]|done|];
    [destruct (HandleResult _ _ _ _ _)|destruct (HandleError _ _ _ _ _)..]; eauto.
Qed.

Section Returns.
Context (rank : string -> nat).

(** The commands an entity's answer calls for go to entities of lower rank. *)
Definition descends (id : string) (act : option action) : Prop :=
  match act with
  | Some act => Forall (fun c => rank (EntityID c) < rank id)%nat (Commands act)
  | None => True
  end.
Hypothesis result_descends : forall ctx id m s act, HandleResult D ctx id m s = Ok act -> descends id act.
Hypothesis error_descends : forall ctx id e s act, HandleError D ctx id e s = Ok act -> descends id act.

Lemma process_returns send x ctx act :
  (forall x c, match act with Some act => c ∈ Commands act | None => False end -> exists x', send x c = Some x') ->
  exists x', processWith D send x ctx act = Some x'.
Proof.
  intros Hs. destruct act as [act|]; simpl; [|by eexists].
  assert (forall x, exists x', dispatchWith D send x ctx act = Some x') as Hd.
  { clear x. intros x. unfold dispatchWith. assert (exists x1, ofold D send x (Commands act) = Some x1) as [x1 ->].
    { revert x. induction (Commands act) as [|c l IH]; intros x; simpl; [by eexists|].
      destruct (Hs x c ltac:(left)) as [x1 ->]. simpl. apply IH. intros y d Hd. apply Hs. by right. }
    simpl. destruct (Complete act); [by eexists|]. destruct (Compensate act); by eexists. }
  destruct (Events act); [apply Hd|]. destruct (persistAndApplyEvents _ _ _ _) as [[]]; [apply Hd|by eexists].
Qed.

Lemma send_returns fuel ctx x cmd : (rank (EntityID cmd) < fuel)%nat -> exists x', sendCommand D fuel ctx x cmd = Some x'.
Proof.
  revert x cmd. induction fuel as [|fuel IH]; intros x cmd Hr; [lia|]. simpl.
  destruct (attachCommandMetadata _ _ _ _) as [ctx' x1]. destruct (call D x1 ctx' cmd _) as [r x2].
  assert (forall act, descends (EntityID cmd) act -> exists x', processWith D (sendCommand D fuel ctx) x2 ctx act = Some x') as Hp.
  { intros act Hact. apply process_returns. intros y c Hc. apply IH. destruct act as [act|]; [|done].
    simpl in Hact. rewrite Forall_forall in Hact. apply Hact in Hc. lia. }
  destruct r as [[rep|]|m]; [destruct (protocol.ParseCommandReply _ _) as [[rs n]|m]|by eexists|];
    [destruct (HandleResult _ _ _ _ _) eqn:E|destruct (HandleError _ _ _ _ _) eqn:E..]; eauto.
Qed.

(** A saga whose reactions do not go in circles always returns: when the
    commands an entity's answer calls for go only to entities of lower rank,
    and ranks stay below [n], a message is handled within [n] nested calls,
    and its outcome does not depend on how many more were allowed. *)
Theorem saga_returns n : (forall id, rank id < n)%nat ->
  forall x m, exists r, forall fuel, (n <= fuel)%nat -> Receive D fuel x m = Some r.
Proof.
  intros Hn x m. destruct m; simpl; try by eexists.
  assert (exists x', forall fuel, (n <= fuel)%nat -> handleStreamEvent D fuel x e = Some x') as [x' H].
  2: { exists (x', []). intros fuel Hf. by rewrite H. }
  assert (forall y ctx act, exists x', forall fuel, (n <= fuel)%nat -> processAction D fuel y ctx act = Some x') as Hp.
  { intros y ctx act. destruct (process_returns (sendCommand D n ctx) y ctx act) as [x' Hx'].
    { intros z c _. by apply send_returns. }
    exists x'. intros fuel Hf. unfold processAction. eapply process_mono; [|exact Hx']. intros ???. by apply sendCommand_mono. }
  unfold handleStreamEvent. case_bool_decide; [by eexists|]. destruct (eventContext _ _ _ _) as [ctx|]; [|by eexists].
  destruct (if _ && _ then bindOrVerify D (actor D x) ctx else _); [|by eexists].
  destruct (UnmarshalNew D (EventAny e)) as [m|]; [|by eexists]. destruct (HandleEvent D ctx m _) as [act|]; [|by eexists].
  destruct (tenantAware D (actor D x) && _); [apply Hp|]. destruct (actionIsNoop act); [by eexists|].
  destruct (negb _); [apply Hp|]. destruct (Require ctx) as [tc|]; [|by eexists]. destruct act as [act|]; [|by eexists].
  destruct (match Events act with [] => _ | _ => _ end) as [[] x1]; [|by eexists].
  destruct (Hp (on_actor D (fun a => set_tenant D a tc) x1) ctx (Some (mkSagaAction (Commands act) [] (Complete act) (Compensate act)))) as [x' Hx'].
  exists x'. intros fuel Hf. by rewrite <- (Hx' fuel Hf).
Qed.
End Returns.

(** ** Other tenants *)

(** A tenant-aware saga has one tenant: an event whose metadata is not that of
    its own tenant changes nothing and reaches neither the behavior nor any
    entity, and a query for its state by anyone else is answered with an error
    and not with the state. *)
Theorem saga_foreign_refused fuel x : tenantAware D (actor D x) = true -> tenancy.wf (boundTenant D (actor D x)) ->
  (forall e, UnmarshalMetadata (TenantMetadata e) <> Ok (boundTenant D (actor D x)) -> Receive D fuel x (MEvent e) = Some (x, [])) /\
  (forall ctx, From ctx <> Some (boundTenant D (actor D x)) ->
    exists text, Receive D fuel x (MGetState ctx) = Some (x, [RCommand (CommandReply_ErrorReply text)])).
Proof.
  intros Ha Hwf. pose proof (wf_bound _ Hwf) as Hb. split.
  - intros e He. simpl. assert (handleStreamEvent D fuel x e = Some x) as ->; [|done].
    unfold handleStreamEvent. case_bool_decide; [done|].
    destruct (eventContext D (actor D x) Background e) as [ctx|] eqn:Hc; [|done].
    apply eventContext_Ok in Hc as (t & Hu & Ht & ->); [|done]. rewrite Ha, bool_decide_eq_true_2 by done. simpl.
    destruct (bindOrVerify D (actor D x) _) as [a1|] eqn:Hv; [|done].
    apply bindOrVerify_Ok in Hv; [|done..]. congruence.
  - intros ctx Hf. simpl. unfold getStateAndReply, checkStateReadTenant. rewrite Ha. simpl.
    destruct (Require ctx) as [t|] eqn:Hr; simpl; [|by eexists]. rewrite bool_decide_eq_true_2 by done.
    destruct (VerifyUnchanged (boundTenant D (actor D x)) t) eqn:Hv; simpl; [|by eexists].
    apply VerifyUnchanged_Ok in Hv. exfalso. apply Hf. unfold Require in Hr.
    destruct (From ctx) as [t0|]; [|done]. destruct (negb (valid t0)); [done|]. congruence.
Qed.
End Stores.

End Spec.
End saga_spec.
