(* ===== verification/SagaExamples.v ===== *)
(** * A concrete saga

    An order saga on the in-memory events store: the theorems of [SagaSpec.v]
    at work on it, and four behaviours of the actor that its comments or the
    behavior interface do not lead one to expect. *)

From S2P Require Import Prelude GoStrings Tenancy Persistence Egopb StoreApi EventStore Command Protocol EventSourced EventSourcedSpec Saga SagaSpec.
From Stdlib Require Import ZArith Lia.
Open Scope string_scope.
Open Scope list_scope.
Open Scope urd_scope.

Module saga_examples.
Import persistence egopb tenancy saga saga_spec.
#[export] Existing Instances testkit.EventStore_ops testkit.EventStore_laws testkit.EventStore_reliable.

(** Messages are integers; [-1] plays [emptypb.Empty]. A saga state is the sum
    of the recorded events. *)
Definition any_of (z : Z) : Any := mkAny "z" (command.decimal_time z).
Definition of_any (a : option Any) : result string Z :=
  match a with
  | Some a => match command.parse_decimal_time (Value a) with Some z => Ok z | None => Err "malformed" end
  | None => Err "nil"
  end.

Section Demo.
Context (react : Z -> option (SagaAction Z)) (onResult onError : string -> option (SagaAction Z)) (undo : list (SagaCommand Z)).

Definition demo : Deps := mkDeps Z 0%Z 0%Z
  (fun _ e _ => Ok (react e)) (fun _ id _ _ => Ok (onResult id)) (fun _ id _ _ => Ok (onError id))
  (fun _ e s => Ok (s + e)%Z) (fun _ _ => Ok undo)
  (fun z => Ok (any_of z)) of_any (-1)%Z (fun z => (z =? -1)%Z) command.decimal_time (fun _ => false).

(** The replies the entities will give, in order; then none is reachable. *)
#[export] Instance demo_world : World demo testkit.EventStore (list (result string reply)) := {|
  SendSync w st _ _ _ _ := match w with r :: w' => (r, w', st) | [] => (Err "unreachable", [], st) end;
  Now w := (7%Z, w);
  GenerateOperationID w := (Ok "op-1", w)
|}.

#[export] Instance demo_sole_writer sc pid : SoleWriter (D := demo) (W := list (result string reply)) sc pid.
Proof. intros w st ctx e cmd t r w' st' H Hok. simpl in H. destruct w; injection H as <- <- <-; done. Qed.
End Demo.

Definition cmd (id : string) (m : Z) : SagaCommand Z := mkSagaCommand id m 0 command.noMetadata.
Definition accepted : result string reply := Ok (RCommandReply (CommandReply_StateReply (mkStateReply "e" (Some (any_of 1)) 1 0 STATUS_NONE))).
Definition rejected : result string reply := Ok (RCommandReply (CommandReply_ErrorReply "insufficient funds")).

(** ** The order saga: reserve, then charge, then done; undo on failure *)
Definition order : Deps := demo
  (fun e => if (e =? 10)%Z then Some (mkSagaAction [cmd "stock" 1] [10%Z] false false) else None)
  (fun id => if String.eqb id "stock" then Some (mkSagaAction [cmd "payment" 2] [20%Z] false false)
             else Some (mkSagaAction [] [30%Z] true false))
  (fun id => Some (mkSagaAction [] [] false true))
  [cmd "stock" (-2)].

#[export] Instance order_lawful : LawfulDeps order.
Proof.
  split; simpl; try done.
  - intros m. eexists. split; [done|]. simpl. by rewrite command.decimal_time_roundtrip.
  - intros ctx e s act. destruct (e =? 10)%Z; intros [= <-]. by repeat constructor.
  - intros ctx id e s act. destruct (String.eqb id "stock"); intros [= <-]; by repeat constructor.
  - intros ctx id e s act [= <-]. constructor.
Qed.

Definition acme : TenantContext := mkTenantContext ScopeTenant "acme" noAdministrative.
Definition deps : list dependency := [DepBehavior; DepSagaConfig 60; DepEntityTenantScope "acme"].
Definition st0 : testkit.EventStore := testkit.Connect testkit.NewEventsStore.
Definition placed : Event := mkEvent "order-1" 1 false (Some (any_of 10)) 5 0 "" false (tenancy.MarshalMetadata acme).
Definition saga0 : Actor order :=
  mkActor order "order-saga" 60 true (mkScope scopeTenant "acme")
    (command.mkMetadata "order-saga" "order-saga" "" false noTenantContext false command.noPrincipal false ∅ 3 0 false 0 false)
    0%Z 0 SagaRunning acme.

Abbreviation begin w := (start (D := order) saga0 st0 w).
Abbreviation Sys := (saga.Sys order (St := testkit.EventStore) (W := list (result string reply))).

Lemma order_starts : PreStart order "order-saga" true deps st0 None Background 3 = Some (Ok saga0).
Proof. vm_compute. reflexivity. Qed.

Lemma order_resolves : resolveScope true deps = Ok (mkScope scopeTenant "acme", acme).
Proof. vm_compute. reflexivity. Qed.

Lemma order_unrecorded : recorded (D := order) "order-saga" true (mkScope scopeTenant "acme") acme st0 [].
Proof.
  exists 0%Z. split; simpl; [|apply eventsource_spec.numbered_nil|by exists []|done].
  split; simpl; try done. intros k e.
  change (testkit.stream_of st0 (mkScope scopeTenant "acme") "order-saga") with (@None api.stream).
  simpl. rewrite lookup_empty. split; [done|by intros [_ ?]].
Qed.

Definition order_run : Sys := default (begin []) (run order 3 (begin [accepted; accepted]) [MEvent placed]).
Lemma order_ran : run order 3 (begin [accepted; accepted]) [MEvent placed] = Some order_run.
Proof. vm_compute. reflexivity. Qed.

Lemma order_done : status order (actor order order_run) = SagaCompleted /\ currentState order (actor order order_run) = 60%Z /\
  length (written order order_run) = 3%nat /\ length (calls order order_run) = 2%nat.
Proof. vm_compute. done. Qed.

Lemma order_bounded : bounded ([] ++ written order order_run).
Proof. by vm_compute. Qed.

Lemma saga_recovers_witness : restarts "order-saga" true deps (store order order_run) (actor order order_run).
Proof.
  refine (proj1 (saga_recovers "order-saga" true deps (mkScope scopeTenant "acme") acme order_resolves st0 [] Background 3
    saga0 [accepted; accepted] 3 [MEvent placed] order_run order_unrecorded eq_refl order_starts order_ran order_bounded)).
Defined.

Lemma acme_wf : tenancy.wf acme.
Proof. by constructor. Qed.


Lemma order_received : Receive order 3 (begin [accepted; accepted]) (MEvent placed) = Some (order_run, []).
Proof. vm_compute. reflexivity. Qed.

Lemma saga_settles_witness : status order (actor order order_run) <> SagaCompensating.
Proof. refine (proj1 (saga_settles 3 (begin [accepted; accepted]) (MEvent placed) order_run [] _ order_received)). done. Defined.

Lemma compensation_outcome_witness :
  let x' := handleTimeout order (begin [accepted]) in
  exists sent rest, calls order x' = [] ++ sent /\ [cmd "stock" (-2)] = (c_cmd order <$> sent) ++ rest /\
    status order (actor order x') = SagaCompleted.
Proof.
  destruct (compensation_outcome (begin [accepted]) (with_tenant Background acme) [cmd "stock" (-2)] eq_refl eq_refl eq_refl)
    as (_ & _ & sent & rest & H1 & H2 & _).
  exists sent, rest. split; [exact H1|]. split; [exact H2|]. vm_compute. reflexivity.
Defined.

(** Stock is asked before payment. *)
Definition order_rank (id : string) : nat := if String.eqb id "stock" then 1 else 0.
Lemma order_result_descends ctx id m s act : HandleResult order ctx id m s = Ok act -> descends (D := order) order_rank id act.
Proof. simpl. unfold order_rank. destruct (String.eqb id "stock") eqn:E; intros [= <-]; simpl; repeat constructor. rewrite E. simpl. lia. Qed.
Lemma order_error_descends ctx id m s act : HandleError order ctx id m s = Ok act -> descends (D := order) order_rank id act.
Proof. intros [= <-]. constructor. Qed.

Lemma saga_returns_witness : exists r, forall fuel, (2 <= fuel)%nat -> Receive order fuel (begin [accepted; accepted]) (MEvent placed) = Some r.
Proof.
  refine (saga_returns order_rank order_result_descends order_error_descends 2 _ (begin [accepted; accepted]) (MEvent placed)).
  intros id. unfold order_rank. destruct (String.eqb id "stock"); lia.
Defined.

Lemma saga_foreign_refused_witness :
  Receive order 3 (begin [accepted]) (MEvent (mkEvent "order-1" 1 false (Some (any_of 10)) 5 0 "" false ∅)) = Some (begin [accepted], []).
Proof. apply (saga_foreign_refused 3 (begin [accepted])); [reflexivity|exact acme_wf|by vm_compute]. Defined.

(** ** What is not guaranteed *)

(** A saga does not stop when it compensates: with two commands and
    completion in one action, the first fails, the behavior calls for
    compensation, the compensation fails and marks the saga failed; then the
    second command is sent all the same and the saga ends completed. *)
Definition hasty : Deps := demo
  (fun e => Some (mkSagaAction [cmd "a" 1; cmd "b" 2] [] true false)) (fun _ => None)
  (fun id => if String.eqb id "a" then Some (mkSagaAction [] [] false true) else None) [cmd "undo" 3].
Definition hasty0 : Actor hasty := mkActor hasty "hasty" 0 false Unscoped command.noMetadata 0%Z 0 SagaRunning noTenantContext.

Theorem saga_continues_after_compensation :
  match Receive hasty 3 (start (D := hasty) hasty0 st0 [Err "down"; Err "down"; accepted])
    (MEvent (mkEvent "order-1" 1 false (Some (any_of 10)) 5 0 "" false ∅)) with
  | Some (x', []) =>
    (fun c => (EntityID (c_cmd hasty c), status hasty (c_actor hasty c))) <$> calls hasty x' =
      [("a", SagaRunning); ("undo", SagaCompensating); ("b", SagaFailed)] /\
    status hasty (actor hasty x') = SagaCompleted
  | _ => False
  end.
Proof. vm_compute. split; reflexivity. Qed.

(** A compensation command that the entity rejects counts as done: the error
    reply is not read, and the saga ends completed. *)
Theorem rejected_compensation_completes :
  let x' := handleTimeout order (begin [rejected]) in
  c_reply order <$> calls order x' = [rejected] /\ status order (actor order x') = SagaCompleted.
Proof. split; vm_compute; reflexivity. Qed.

(** The status of a saga is not recorded, as the doc of [SagaStatus] says: a
    finished saga is running again after a restart, and the event that had
    completed it sends its commands a second time. *)
Theorem restart_reopens_saga :
  match PreStart order "order-saga" true deps (store order order_run) None Background 9 with
  | Some (Ok a') =>
    status order (actor order order_run) = SagaCompleted /\ status order a' = SagaRunning /\
    match Receive order 3 (start (D := order) a' (store order order_run) [accepted; accepted]) (MEvent placed) with
    | Some (x'', []) => (fun c => EntityID (c_cmd order c)) <$> calls order x'' = ["stock"; "payment"]
    | _ => False
    end
  | _ => False
  end.
Proof. vm_compute. split_and!; reflexivity. Qed.

(** A behavior that retries an unreachable entity never gives the saga back:
    the retry is a nested call, and no number of nested calls is enough. *)
Definition stubborn : Deps := demo (fun _ => None) (fun _ => None) (fun id => Some (mkSagaAction [cmd id 1] [] false false)) [].

Theorem saga_retry_diverges fuel ctx (x : saga.Sys stubborn (St := testkit.EventStore) (W := list (result string reply))) c :
  world stubborn x = [] -> sendCommand stubborn fuel ctx x c = None.
Proof.
  revert x c. induction fuel as [|fuel IH]; intros x c Hw; [done|]. cbn [sendCommand].
  destruct (attachCommandMetadata stubborn x ctx (Metadata c)) as [ctx' x1] eqn:Ha.
  assert (world stubborn x1 = []) as Hw1.
  { revert Ha. unfold attachCommandMetadata. case_bool_decide; [by intros [= _ <-]|]. simpl.
    destruct (command.Derive _ _ _ _); by intros [= _ <-]. }
  unfold call. simpl. rewrite Hw1. unfold dispatchWith. simpl. by rewrite IH.
Qed.
End saga_examples.
