(* ===== verification/Projection.v ===== *)
(** * The projection runner ([src/internal/projectionrunner], [src/projection])

    A projection pulls the events of every shard past its committed offset,
    hands each to a handler under a recovery policy, and commits the offset of
    the batch once all of it was handled. A pass runs one worker per pending
    shard; a worker is a small program whose steps are its calls to the stores
    and the handler ([doProcess_step]), so that workers can be interleaved with
    each other and with the journal's growth. Run alone, a worker is
    [doProcess]. *)

From S2P Require Import Prelude GoStrings Tenancy Persistence Egopb StoreApi StateStores EventSourced.
From Stdlib Require Import ZArith Lia.
Open Scope string_scope.
Open Scope list_scope.
Open Scope urd_scope.

Module projection.
Import egopb tenancy.

(** ** Recovery settings ([src/projection/recovery.go]) *)
Inductive RecoveryPolicy := Fail | RetryAndFail | Skip | RetryAndSkip.
#[export] Instance RecoveryPolicy_eq_dec : EqDecision RecoveryPolicy.
Proof. solve_decision. Defined.

Record Recovery := mkRecovery { retries : N; retryDelay : Z; policy : RecoveryPolicy }.
Definition RecoveryOption := Recovery -> Recovery.
Definition WithRetries (n : N) : RecoveryOption := fun r => mkRecovery n (retryDelay r) (policy r).
Definition WithRetryDelay (d : Z) : RecoveryOption := fun r => mkRecovery (retries r) d (policy r).
Definition WithRecoveryPolicy (p : RecoveryPolicy) : RecoveryOption := fun r => mkRecovery (retries r) (retryDelay r) p.
Definition NewRecovery (options : list RecoveryOption) : Recovery :=
  foldl (fun r opt => opt r) (mkRecovery 5 1000000000 Fail) options.

(** ** Retries ([retry.go]) *)
Definition defaultRetryTries : Z := 5.

(** A [uint64] as an [int]. *)
Definition int_of_u64 (n : N) : Z := if (n <? 9223372036854775808)%N then Z.of_N n else (Z.of_N n - 18446744073709551616)%Z.

(** At most [more + 1] attempts; [done i] says the context ended while
    waiting after attempt [i]. *)
Fixpoint attempts {X E} (fn : X -> result E unit * X) (done : nat -> bool) (more i : nat) (x : X) : result E unit * X :=
  match fn x with
  | (Ok u, x') => (Ok u, x')
  | (Err e, x') =>
    match more with
    | O => (Err e, x')
    | S more => if done i then (Err e, x') else attempts fn done more (S i) x'
    end
  end.

Definition retryOn {X E} (done : nat -> bool) (maxTries : Z) (fn : X -> result E unit * X) (x : X) : result E unit * X :=
  let maxTries := if (maxTries <=? 0)%Z then defaultRetryTries else maxTries in
  attempts fn done (Z.to_nat (maxTries - 1)) 1 x.

(** ** Store backoff *)
Definition storeRetryInitialDelay : Z := 1000000000.
Definition storeRetryMaxDelay : Z := 30000000000.

(** An [int64] shift: bits beyond the width are lost, a count of 64 or more
    leaves zero. *)
Definition wrap64 (z : Z) : Z := ((z + 9223372036854775808) mod 18446744073709551616 - 9223372036854775808)%Z.
Definition storeRetryDelay (failures : Z) : Z :=
  let delay := wrap64 (Z.shiftl storeRetryInitialDelay (failures - 1)) in
  if (delay <=? 0)%Z || (storeRetryMaxDelay <? delay)%Z then storeRetryMaxDelay else delay.

(** ** What the runner is given *)

(** The shard side of [persistence.EventsStore]. *)
Class Journal (J : Type) := {
  ShardOffsets : J -> result string (gmap N Z);
  GetShardEvents : J -> N -> Z -> N -> result string (list Event * Z)
}.

(** [offsetstore.OffsetStore]; a nil offset has value zero. *)
Class Offsets (O : Type) := {
  WriteOffset : O -> Offset -> result string unit * O;
  GetCurrentOffset : O -> string -> N -> result string (option Offset);
  (** [None]: the call panics *)
  ResetOffset : O -> string -> Z -> option (result string unit * O)
}.

Inductive outcome := Handled | Failed (m : string) | Panicked (v : string).

(** The projection handler and the dead-letter handler, with the state they
    share with the outside. *)
Class Handler (H : Type) := {
  Handle : H -> string -> option Any -> N -> outcome * H;
  DeadLetter : option (H -> string -> string -> option Any -> N -> string -> H)
}.

Record Config := mkConfig {
  name : string;
  recovery : Recovery;
  maxBufferSize : Z;
  pullInterval : Z;
  (** [UnixMilli] of the configured times; [None] is the zero time *)
  startingOffset : option Z;
  resetOffsetTo : option Z;
  encryptor : option eventsource.Encryptor;
  protoUnmarshal : string -> result string Any;
  eventAdapters : list (option Any -> N -> result string (option Any));
  (** [debug.Stack] in a panic report *)
  stack : string
}.

Section Runner.
Context (c : Config).
Context {J O H : Type} {JO : Journal J} {OO : Offsets O} {HO : Handler H}.

Inductive worker_error := EventError (m : string) | StoreError (m : string).

Record Sys := mkSys {
  journal : J;
  offsets : O;
  handler : H;
  committedOffsets : gmap N Z;
  storeFailures : Z;
  sawFullBatch : bool;
  nudge : bool;
  running : bool;
  workerErrCh : list worker_error;
  (** every envelope the runner got past, by shard, in order *)
  passed : list (N * Event)
}.

Definition set_offsets (x : Sys) (o : O) : Sys :=
  mkSys (journal x) o (handler x) (committedOffsets x) (storeFailures x) (sawFullBatch x) (nudge x) (running x) (workerErrCh x) (passed x).
Definition set_handler (x : Sys) (h : H) : Sys :=
  mkSys (journal x) (offsets x) h (committedOffsets x) (storeFailures x) (sawFullBatch x) (nudge x) (running x) (workerErrCh x) (passed x).
Definition set_committed (x : Sys) (shard : N) (v : Z) : Sys :=
  mkSys (journal x) (offsets x) (handler x) (<[shard := v]> (committedOffsets x)) (storeFailures x) (sawFullBatch x) (nudge x) (running x) (workerErrCh x) (passed x).
Definition set_full (x : Sys) (b : bool) : Sys :=
  mkSys (journal x) (offsets x) (handler x) (committedOffsets x) (storeFailures x) b (nudge x) (running x) (workerErrCh x) (passed x).
Definition set_failures (x : Sys) (n : Z) : Sys :=
  mkSys (journal x) (offsets x) (handler x) (committedOffsets x) n (sawFullBatch x) (nudge x) (running x) (workerErrCh x) (passed x).
Definition set_errors (x : Sys) (l : list worker_error) : Sys :=
  mkSys (journal x) (offsets x) (handler x) (committedOffsets x) (storeFailures x) (sawFullBatch x) (nudge x) (running x) l (passed x).
Definition record (x : Sys) (shard : N) (e : Event) : Sys :=
  mkSys (journal x) (offsets x) (handler x) (committedOffsets x) (storeFailures x) (sawFullBatch x) (nudge x) (running x) (workerErrCh x) (passed x ++ [(shard, e)]).

(** ** One event *)
Definition handleSafely (pid : string) (event : option Any) (seqNr : N) (h : H) : result string unit * H :=
  match Handle h pid event seqNr with
  | (Handled, h') => (Ok tt, h')
  | (Failed m, h') => (Err m, h')
  | (Panicked v, h') => (Err ("projection handler panic: " +:+ v +:+ "
" +:+ stack c), h')
  end.

Definition sendToDeadLetter (pid : string) (event : option Any) (seqNr : N) (cause : string) (h : H) : H :=
  match DeadLetter with Some f => f h (name c) pid event seqNr cause | None => h end.

(** The wait between attempts ignores the processing context. *)
Definition retryHandle (pid : string) (event : option Any) (seqNr : N) (h : H) : result string unit * H :=
  retryOn (fun _ => false) (int_of_u64 (retries (recovery c))) (handleSafely pid event seqNr) h.

Definition handleWithPolicy (pid : string) (event : option Any) (seqNr : N) (h : H) : result string unit * H :=
  match policy (recovery c) with
  | Fail => handleSafely pid event seqNr h
  | RetryAndFail => retryHandle pid event seqNr h
  | RetryAndSkip =>
    match retryHandle pid event seqNr h with
    | (Err e, h') => (Ok tt, sendToDeadLetter pid event seqNr e h')
    | r => r
    end
  | Skip =>
    match handleSafely pid event seqNr h with
    | (Err e, h') => (Ok tt, sendToDeadLetter pid event seqNr e h')
    | r => r
    end
  end.

Definition for_event (what : string) (envelope : Event) (e : string) : string :=
  what +:+ " for persistence id=" +:+ PersistenceId envelope +:+ ", revision=" +:+ format_uint (SequenceNumber envelope) +:+ ": " +:+ e.

(** The payload the handler gets. *)
Definition payloadOf (envelope : Event) : result string (option Any) :=
  let event := EventAny envelope in
  let? event :=
    match encryptor c with
    | Some enc =>
      if IsEncrypted envelope then
        let? plaintext := rmap_err (for_event "failed to decrypt event" envelope)
          (eventsource.Decrypt enc Background (PersistenceId envelope)
            (match event with Some a => Value a | None => "" end) (EncryptionKeyId envelope)) in
        let? decrypted := rmap_err (for_event "failed to unmarshal decrypted event" envelope) (protoUnmarshal c plaintext) in
        Ok (Some decrypted)
      else Ok event
    | None => Ok event
    end in
  match eventAdapters c with
  | [] => Ok event
  | _ => rmap_err (for_event "failed to adapt event" envelope)
           (eventsource.Chain (eventAdapters c) event (SequenceNumber envelope))
  end.

Definition processEnvelope (x : Sys) (envelope : Event) : result string unit * Sys :=
  match payloadOf envelope with
  | Err e => (Err e, x)
  | Ok event =>
    let '(r, h') := handleWithPolicy (PersistenceId envelope) event (SequenceNumber envelope) (handler x) in
    (r, set_handler x h')
  end.

(** ** One shard *)
Definition currentOffset (x : Sys) (shard : N) : result string Z * Sys :=
  let cached :=
    match committedOffsets x !! shard with
    | Some v => (Ok v, x)
    | None =>
      match GetCurrentOffset (offsets x) (name c) shard with
      | Err e => (Err e, x)
      | Ok offset =>
        let v := match offset with Some o => OffsetValue o | None => 0%Z end in (Ok v, set_committed x shard v)
      end
    end in
  match cached with
  | (Ok v, x) => (Ok (match startingOffset c with Some s => s | None => v end), x)
  | r => r
  end.

Definition commitOffset (x : Sys) (shard : N) (nextOffset : Z) (pid : string) (now : Z) : result string unit * Sys :=
  match WriteOffset (offsets x) (mkOffset shard (name c) nextOffset now) with
  | (Err e, o) => (Err ("failed to persist offset for persistence id=" +:+ pid +:+ ": " +:+ e), set_offsets x o)
  | (Ok _, o) => (Ok tt, set_committed (set_offsets x o) shard nextOffset)
  end.

Definition u64_of_int (z : Z) : N := Z.to_N (z mod 18446744073709551616)%Z.

(** A worker: about to resolve the offset, to read the batch, to hand the next
    event of the batch to the handler, to commit; or done. *)
Inductive pc :=
| PStart
| PFetch (currOffset : Z)
| PHandle (todo : list Event) (nextOffset : Z) (lastPid : string)
| PDone (r : option worker_error).

Definition doProcess_step (shard : N) (now : Z) (p : pc) (x : Sys) : pc * Sys :=
  match p with
  | PStart =>
    if negb (running x) then (PDone None, x)
    else match currentOffset x shard with
    | (Err e, x) => (PDone (Some (StoreError e)), x)
    | (Ok v, x) => (PFetch v, x)
    end
  | PFetch v =>
    match GetShardEvents (journal x) shard v (u64_of_int (maxBufferSize c)) with
    | Err e => (PDone (Some (StoreError e)), x)
    | Ok (events, nextOffset) =>
      let x := if (maxBufferSize c <=? Z.of_nat (length events))%Z then set_full x true else x in
      match last events with
      | None => (PDone None, x)
      | Some e => (PHandle events nextOffset (PersistenceId e), x)
      end
    end
  | PHandle [] nextOffset pid =>
    match commitOffset x shard nextOffset pid now with
    | (Err e, x) => (PDone (Some (StoreError e)), x)
    | (Ok _, x) => (PDone None, x)
    end
  | PHandle (e :: todo) nextOffset pid =>
    match processEnvelope x e with
    | (Err m, x) => (PDone (Some (EventError m)), x)
    | (Ok _, x) => (PHandle todo nextOffset pid, record x shard e)
    end
  | PDone r => (PDone r, x)
  end.

(** The events of a batch, then its offset. *)
Fixpoint processEvents (x : Sys) (shard : N) (events : list Event) (nextOffset : Z) (pid : string) (now : Z) : option worker_error * Sys :=
  match events with
  | [] =>
    match commitOffset x shard nextOffset pid now with
    | (Err e, x) => (Some (StoreError e), x)
    | (Ok _, x) => (None, x)
    end
  | e :: events =>
    match processEnvelope x e with
    | (Err m, x) => (Some (EventError m), x)
    | (Ok _, x) => processEvents (record x shard e) shard events nextOffset pid now
    end
  end.

Definition doProcess (x : Sys) (shard : N) (now : Z) : option worker_error * Sys :=
  if negb (running x) then (None, x)
  else match currentOffset x shard with
  | (Err e, x) => (Some (StoreError e), x)
  | (Ok v, x) =>
    match GetShardEvents (journal x) shard v (u64_of_int (maxBufferSize c)) with
    | Err e => (Some (StoreError e), x)
    | Ok (events, nextOffset) =>
      let x := if (maxBufferSize c <=? Z.of_nat (length events))%Z then set_full x true else x in
      match last events with
      | None => (None, x)
      | Some e => processEvents x shard events nextOffset (PersistenceId e) now
      end
    end
  end.

(** ** A pass *)
Definition pendingShards (x : Sys) : result string (list N) :=
  let? shardOffsets := ShardOffsets (journal x) in
  Ok (omap (fun '(shard, latest) =>
    match startingOffset c with
    | Some startOffset => if (startOffset <? latest)%Z then Some shard else None
    | None =>
      match committedOffsets x !! shard with
      | None => Some shard
      | Some committed => if (committed <? latest)%Z then Some shard else None
      end
    end) (map_to_list shardOffsets)).

Definition numWorkers : nat := 5.

(** A worker reports its error unless the channel is full. *)
Definition report (x : Sys) (r : option worker_error) : Sys :=
  match r with
  | None => x
  | Some e => if (length (workerErrCh x) <? numWorkers)%nat then set_errors x (workerErrCh x ++ [e]) else x
  end.

(** What the loop does next: go on, wait for the store, or stop for good. *)
Inductive verdict := Continue | Backoff (delay : Z) | Stopped (cause : string).

Definition retryAfterStoreFailure (x : Sys) : verdict * Sys :=
  let n := (storeFailures x + 1)%Z in (Backoff (storeRetryDelay n), set_failures x n).

Definition Stop (x : Sys) : Sys :=
  mkSys (journal x) (offsets x) (handler x) (committedOffsets x) (storeFailures x) (sawFullBatch x) (nudge x) false (workerErrCh x) (passed x).

Definition requestPull (x : Sys) : Sys :=
  mkSys (journal x) (offsets x) (handler x) (committedOffsets x) (storeFailures x) (sawFullBatch x) true (running x) (workerErrCh x) (passed x).

(** After the batch: drain the errors and decide. *)
Definition finishPass (x : Sys) : verdict * Sys :=
  let errs := workerErrCh x in
  let x := set_errors x [] in
  match omap (fun e => match e with EventError m => Some m | _ => None end) errs,
        omap (fun e => match e with StoreError m => Some m | _ => None end) errs with
  | m :: _, _ => (Stopped m, Stop x)
  | [], _ :: _ => retryAfterStoreFailure x
  | [], [] =>
    let x := set_failures x 0 in
    (Continue, if sawFullBatch x then requestPull (set_full x false) else x)
  end.

(** A pass whose shards happen to be processed one after the other. *)
Definition runPass (x : Sys) (now : Z) : verdict * Sys :=
  match pendingShards x with
  | Err _ => retryAfterStoreFailure x
  | Ok [] => (Continue, set_failures x 0)
  | Ok shards =>
    finishPass (foldl (fun x shard => let '(r, x) := doProcess x shard now in report x r) x shards)
  end.

(** ** Start *)
Definition preStart (o : O) : option (result string unit * O) :=
  match resetOffsetTo c with
  | None => Some (Ok tt, o)
  | Some v =>
    match ResetOffset o (name c) v with
    | Some (Err e, o') => Some (Err ("failed to reset projection=" +:+ name c +:+ ": " +:+ e), o')
    | r => r
    end
  end.

(** The runner as [New] leaves it, and [Start] once the stores answer [ping]
    (each attempt pings both). [None] is a panic: that of the store, or the
    runner's own on an interval that is not positive. *)
Definition New (j : J) (o : O) (h : H) : Sys := mkSys j o h ∅ 0 false false false [] [].
Definition Start (offsetsDefined eventsDefined : bool) (x : Sys) (ping : nat -> result string unit) (done : nat -> bool) : option (result string unit * Sys) :=
  if running x then Some (Ok tt, x)
  else if negb offsetsDefined then Some (Err "offsets store is not defined", x)
  else if negb eventsDefined then Some (Err "events store is not defined", x)
  else match retryOn done 5 (fun i => (ping i, S i)) 0%nat with
  | (Err e, _) => Some (Err ("failed to start the projection: " +:+ e), x)
  | (Ok _, _) =>
    match preStart (offsets x) with
    | None => None
    | Some (Err e, o) => Some (Err e, set_offsets x o)
    | Some (Ok _, o) =>
      if (pullInterval c <=? 0)%Z then None
      else Some (Ok tt, mkSys (journal x) o (handler x) (committedOffsets x) (storeFailures x) (sawFullBatch x) (nudge x) true (workerErrCh x) (passed x))
    end
  end.

(** ** Workers side by side *)
Record State := mkState { sys : Sys; workers : list (N * pc); idle : bool; verdicts : list verdict }.

Context (grows : J -> J -> Prop).

Inductive step : State -> State -> Prop :=
(** events are written *)
| step_journal x ws i v j' : grows (journal x) j' ->
    step (mkState x ws i v)
      (mkState (mkSys j' (offsets x) (handler x) (committedOffsets x) (storeFailures x) (sawFullBatch x) (nudge x) (running x) (workerErrCh x) (passed x)) ws i v)
(** a tick or a nudge begins a pass; every pending shard goes to a worker *)
| step_pass x v shards : running x = true -> pendingShards x = Ok shards -> shards <> [] ->
    step (mkState x [] true v) (mkState x ((fun s => (s, PStart)) <$> shards) false v)
| step_pass_empty x v : running x = true -> pendingShards x = Ok [] ->
    step (mkState x [] true v) (mkState (set_failures x 0) [] true (v ++ [Continue]))
| step_pass_failed x v e : running x = true -> pendingShards x = Err e ->
    step (mkState x [] true v)
      (mkState (retryAfterStoreFailure x).2 [] true (v ++ [(retryAfterStoreFailure x).1]))
| step_worker x ws1 shard p ws2 v now p' x' : doProcess_step shard now p x = (p', x') ->
    step (mkState x (ws1 ++ (shard, p) :: ws2) false v) (mkState x' (ws1 ++ (shard, p') :: ws2) false v)
| step_report x ws1 shard r ws2 v :
    step (mkState x (ws1 ++ (shard, PDone r) :: ws2) false v) (mkState (report x r) (ws1 ++ ws2) false v)
(** every worker has reported *)
| step_finish x v :
    step (mkState x [] false v) (mkState (finishPass x).2 [] true (v ++ [(finishPass x).1]))
(** the runner crashes or is stopped, and is started again: memory is lost, the stores and the handler remain *)
| step_restart x ws i v :
    step (mkState x ws i v)
      (mkState (mkSys (journal x) (offsets x) (handler x) ∅ 0 false false true [] (passed x)) [] true v).
End Runner.

End projection.
