(* ===== verification/ProjectionSpec.v ===== *)
(** * Correctness of the projection runner

    Offsets only pass what was handed over: in every interleaving of workers,
    passes, journal growth, failures and restarts, each event up to the
    committed offset of its shard was given to the handler, in order. Without
    failures the runner catches up, each event once. The recovery policies and
    the backoff do what they say. *)

From S2P Require Import Prelude GoStrings Tenancy Persistence Egopb StoreApi StateStores EventStore EventSourced Projection.
From Stdlib Require Import ZArith Lia.
Open Scope string_scope.
Open Scope list_scope.
Open Scope urd_scope.

Module projection_spec.
Import egopb tenancy projection.

Lemma filter_all {A} (P : A -> Prop) `{!forall a, Decision (P a)} (l : list A) : (forall a, a ∈ l -> P a) -> filter P l = l.
Proof.
  induction l as [|a l IH]; intros Hl; [done|]. rewrite filter_cons_True by (apply Hl; left). f_equal. apply IH.
  intros b Hb. apply Hl. by right.
Qed.
Lemma filter_none {A} (P : A -> Prop) `{!forall a, Decision (P a)} (l : list A) : (forall a, a ∈ l -> ~ P a) -> filter P l = [].
Proof.
  induction l as [|a l IH]; intros Hl; [done|]. rewrite filter_cons_False by (apply Hl; left). apply IH.
  intros b Hb. apply Hl. by right.
Qed.

(** ** Backoff *)
Lemma wrap64_small z : (-9223372036854775808 <= z < 9223372036854775808)%Z -> wrap64 z = z.
Proof. intros H. unfold wrap64. rewrite Z.mod_small; lia. Qed.

Lemma wrap64_multiple z : (34359738368 | z)%Z -> (34359738368 | wrap64 z)%Z.
Proof.
  intros [q ->]. unfold wrap64. rewrite Z.mod_eq by lia.
  set (d := ((q * 34359738368 + 9223372036854775808) / 18446744073709551616)%Z). exists (q - 536870912 * d)%Z. lia.
Qed.

Lemma initial_shift k : (0 <= k)%Z -> Z.shiftl storeRetryInitialDelay k = (1000000000 * 2 ^ k)%Z.
Proof. intros. by rewrite Z.shiftl_mul_pow2. Qed.

(** The delay before the [n]th retry of the stores is one second doubled
    [n - 1] times and capped at thirty, for every [n]: where the shift leaves
    the 64-bit range the result is the cap, never a small or negative delay. *)
Theorem store_backoff_capped n : (1 <= n)%Z -> storeRetryDelay n = Z.min (1000000000 * 2 ^ (n - 1)) 30000000000.
Proof.
  intros Hn. unfold storeRetryDelay. rewrite initial_shift by lia. change storeRetryMaxDelay with 30000000000%Z.
  set (k := (n - 1)%Z). assert (0 <= k)%Z as Hk by lia. clearbody k. clear n Hn.
  destruct (decide (k < 26)%Z) as [Hlt|Hge].
  - assert (0 < 2 ^ k <= 2 ^ 25)%Z as Hp by (split; [apply Z.pow_pos_nonneg; lia|apply Z.pow_le_mono_r; lia]).
    change (2 ^ 25)%Z with 33554432%Z in Hp. rewrite wrap64_small by lia.
    destruct (Z.leb_spec (1000000000 * 2 ^ k) 0); [lia|]. simpl.
    destruct (Z.ltb_spec 30000000000 (1000000000 * 2 ^ k)); lia.
  - assert (2 ^ 26 <= 2 ^ k)%Z by (apply Z.pow_le_mono_r; lia). change (2 ^ 26)%Z with 67108864%Z in *.
    assert (34359738368 | 1000000000 * 2 ^ k)%Z as Hd.
    { replace k with (26 + (k - 26))%Z by lia. rewrite Z.pow_add_r by lia. exists (1953125 * 2 ^ (k - 26))%Z.
      change (2 ^ 26)%Z with 67108864%Z. lia. }
    apply wrap64_multiple in Hd as [q Hq]. rewrite Hq.
    rewrite Z.min_r by lia.
    destruct (Z.leb_spec (q * 34359738368) 0); [done|]. destruct (Z.ltb_spec 30000000000 (q * 34359738368)); [done|lia].
Qed.

Lemma store_backoff_capped_witness : storeRetryDelay 3 = 4000000000%Z /\ storeRetryDelay 60 = 30000000000%Z.
Proof.
  pose proof (store_backoff_capped 3 ltac:(lia)) as H3. pose proof (store_backoff_capped 60 ltac:(lia)) as H60.
  split; [rewrite H3|rewrite H60]; reflexivity.
Defined.

(** ** Retries and policies *)
Section Policies.
Context (c : Config) {H : Type} {HO : Handler H}.

(** [k] failed attempts in a row, from handler state [h] to [h']. *)
Inductive failing (pid : string) (event : option Any) (seqNr : N) : nat -> H -> H -> Prop :=
| failing_0 h : failing pid event seqNr 0 h h
| failing_S k h h1 h2 m : failing pid event seqNr k h h1 -> handleSafely c pid event seqNr h1 = (Err m, h2) ->
    failing pid event seqNr (S k) h h2.

Lemma attempts_spec pid event seqNr more i h r h' : attempts (handleSafely c pid event seqNr) (fun _ => false) more i h = (r, h') ->
  match r with
  | Ok _ => exists k h1, (k <= more)%nat /\ failing pid event seqNr k h h1 /\ handleSafely c pid event seqNr h1 = (Ok tt, h')
  | Err m => exists h1, failing pid event seqNr more h h1 /\ handleSafely c pid event seqNr h1 = (Err m, h')
  end.
Proof.
  assert (forall k h0 h1, failing pid event seqNr k h0 h1 -> forall more i r h', attempts (handleSafely c pid event seqNr) (fun _ => false) more i h1 = (r, h') ->
    match r with
    | Ok _ => exists k' h2, (k <= k' <= k + more)%nat /\ failing pid event seqNr k' h0 h2 /\ handleSafely c pid event seqNr h2 = (Ok tt, h')
    | Err m => exists h2, failing pid event seqNr (k + more) h0 h2 /\ handleSafely c pid event seqNr h2 = (Err m, h')
    end) as Hgen.
  { intros k h0 h1 Hf more0. revert k h1 Hf. induction more0 as [|more0 IH]; intros k h1 Hf i0 r0 h'0 Ha; simpl in Ha;
      destruct (handleSafely c pid event seqNr h1) as [[[]|m] h2] eqn:Eh.
    - injection Ha as <- <-. exists k, h1. split_and!; [lia..|done|done].
    - injection Ha as <- <-. exists h1. by rewrite Nat.add_0_r.
    - injection Ha as <- <-. exists k, h1. split_and!; [lia..|done|done].
    - apply (IH (S k)) in Ha; [|by econstructor]. destruct r0.
      + destruct Ha as (k' & h3 & Hk & Ha). exists k', h3. split; [lia|done].
      + rewrite <- plus_n_Sm. exact Ha. }
  intros Ha. specialize (Hgen 0%nat h h (failing_0 _ _ _ _) more i r h' Ha). destruct r; [|done].
  destruct Hgen as (k & h1 & Hk & Hr). exists k, h1. split; [lia|done].
Qed.

(** How often a policy calls the handler at most. *)
Definition tries : nat :=
  match policy (recovery c) with
  | Fail | Skip => 1
  | RetryAndFail | RetryAndSkip =>
    let n := int_of_u64 (retries (recovery c)) in if (n <=? 0)%Z then 5 else Z.to_nat n
  end.

Definition skips : bool := match policy (recovery c) with Skip | RetryAndSkip => true | _ => false end.

(** A recovery policy gives up on an event only after the number of attempts
    it allows: an event counts as handled when some attempt succeeded, all
    earlier ones having failed; when every attempt failed, a failing policy
    returns the last error and a skipping one counts the event as handled
    after telling the dead-letter handler of it and of that error. *)
Theorem policy_outcome pid event seqNr h r h' : handleWithPolicy c pid event seqNr h = (r, h') ->
  (r = Ok tt /\ exists k h1, (k < tries)%nat /\ failing pid event seqNr k h h1 /\ handleSafely c pid event seqNr h1 = (Ok tt, h')) \/
  exists h1 m h2, failing pid event seqNr (pred tries) h h1 /\ handleSafely c pid event seqNr h1 = (Err m, h2) /\
    if skips then r = Ok tt /\ h' = sendToDeadLetter c pid event seqNr m h2 else r = Err m /\ h' = h2.
Proof.
  assert (forall r0 h0, retryHandle c pid event seqNr h = (r0, h0) -> forall n,
    n = (let n := int_of_u64 (retries (recovery c)) in if (n <=? 0)%Z then 5 else Z.to_nat n)%nat ->
    match r0 with
    | Ok _ => exists k h1, (k < n)%nat /\ failing pid event seqNr k h h1 /\ handleSafely c pid event seqNr h1 = (Ok tt, h0)
    | Err m => exists h1, failing pid event seqNr (pred n) h h1 /\ handleSafely c pid event seqNr h1 = (Err m, h0)
    end) as Hretry.
  { intros r0 h0 Hr n ->. unfold retryHandle, retryOn in Hr. apply attempts_spec in Hr. simpl.
    destruct (Z.leb_spec (int_of_u64 (retries (recovery c))) 0); unfold defaultRetryTries in *; simpl in Hr;
      [change (Z.to_nat 4) with 4%nat in Hr|]; destruct r0; try done.
    - destruct Hr as (k & h1 & ? & Hr). exists k, h1. split; [lia|done].
    - destruct Hr as (k & h1 & ? & Hr). exists k, h1. split; [lia|done].
    - by replace (pred (Z.to_nat (int_of_u64 (retries (recovery c))))) with (Z.to_nat (int_of_u64 (retries (recovery c)) - 1)) by lia. }
  unfold handleWithPolicy, tries, skips. destruct (policy (recovery c)).
  1, 3: destruct (handleSafely c pid event seqNr h) as [[[]|m] h1] eqn:Eh; intros [= <- <-];
    [left; split; [done|]; exists 0%nat, h; split_and!; [lia|constructor|done]
    |right; exists h, m, h1; split_and!; [constructor|done..]].
  - destruct (retryHandle c pid event seqNr h) as [r0 h0] eqn:Er. intros [= <- <-]. specialize (Hretry _ _ eq_refl _ eq_refl).
    destruct r0 as [[]|m]; [by left|]. right. destruct Hretry as (h1 & ? & ?). by exists h1, m, h0.
  - destruct (retryHandle c pid event seqNr h) as [r0 h0] eqn:Er. specialize (Hretry _ _ eq_refl _ eq_refl).
    destruct r0 as [[]|m]; intros [= <- <-]; [by left|]. right. destruct Hretry as (h1 & ? & ?). by exists h1, m, h0.
Qed.
End Policies.

(** ** The contracts of the stores *)
Definition before (a b : Event) : Prop := (Timestamp a < Timestamp b)%Z.

(** What [GetShardEvents] and [ShardOffsets] document: a read returns the next
    events of the shard after the offset and the offset of the last of them. *)
Class JournalLaws (J : Type) {JO : Journal J} := {
  log : J -> N -> list Event;
  events_ok j sh off lim evs next : GetShardEvents j sh off lim = Ok (evs, next) ->
    evs = take (N.to_nat lim) (filter (fun e => (off < Timestamp e)%Z) (log j sh)) /\
    forall e, last evs = Some e -> next = Timestamp e;
  shards_ok j m sh : ShardOffsets j = Ok m -> m !! sh = Timestamp <$> last (log j sh)
}.

Class OffsetsLaws (O : Type) {OO : Offsets O} := {
  oview : O -> string -> N -> option Offset;
  offset_get o n sh r : GetCurrentOffset o n sh = Ok r -> r = oview o n sh;
  offset_written o off o' : WriteOffset o off = (Ok tt, o') ->
    forall n sh, oview o' n sh = if decide ((n, sh) = (ProjectionName off, ShardNumber off)) then Some off else oview o n sh;
  offset_kept o off e o' : WriteOffset o off = (Err e, o') -> o' = o
}.


Section Runs.
Context (c : Config) {J O H : Type} {JO : Journal J} {OO : Offsets O} {HO : Handler H}.
Abbreviation Sys := (Sys (J := J) (O := O) (H := H)).

(** ** A worker alone is [doProcess] *)
Definition wstep (shard : N) (now : Z) (a b : pc * Sys) : Prop := doProcess_step c shard now a.1 a.2 = b.

Lemma events_run shard now events next pid x :
  rtc (wstep shard now) (PHandle events next pid, x)
    (PDone (processEvents c x shard events next pid now).1, (processEvents c x shard events next pid now).2).
Proof.
  revert x. induction events as [|e events IH]; intros x; simpl.
  - eapply rtc_l; [by unfold wstep|]. simpl. destruct (commitOffset c x shard next pid now) as [[[]|m] x']; simpl; apply rtc_refl.
  - eapply rtc_l; [by unfold wstep|]. simpl. destruct (processEnvelope c x e) as [[[]|m] x']; simpl; [apply IH|apply rtc_refl].
Qed.

(** The interleaved worker computes what the source's [doProcess] computes:
    run without interruption it ends, with the result and the state of
    [doProcess]. *)
Theorem worker_runs_doProcess shard now x :
  rtc (wstep shard now) (PStart, x) (PDone (doProcess c x shard now).1, (doProcess c x shard now).2).
Proof.
  eapply rtc_l; [by unfold wstep|]. simpl. unfold doProcess. destruct (negb (running x)); [apply rtc_refl|].
  destruct (currentOffset c x shard) as [[v|e] x1]; [|apply rtc_refl].
  eapply rtc_l; [by unfold wstep|]. simpl.
  destruct (GetShardEvents (journal x1) shard v _) as [[events next]|e]; [|apply rtc_refl].
  destruct (last events); [apply events_run|apply rtc_refl].
Qed.

(** ** At-least-once, in order *)
Context {JL : JournalLaws J} {OL : OffsetsLaws O}.
Hypothesis no_start : startingOffset c = None.
Hypothesis log_sorted : forall j sh, StronglySorted before (log j sh).

Definition committed (x : Sys) (sh : N) : Z := match oview (offsets x) (name c) sh with Some o => OffsetValue o | None => 0%Z end.


Lemma sorted_prefix_last (l1 l2 : list Event) e : StronglySorted before (l1 ++ l2) -> last l1 = Some e ->
  Forall (fun a => (Timestamp e < Timestamp a)%Z) l2 /\ Forall (fun a => (Timestamp a <= Timestamp e)%Z) l1.
Proof.
  intros Hs Hl. apply last_Some in Hl as [l1' ->]. rewrite <- app_assoc in Hs. simpl in Hs. split.
  - clear - Hs. induction l1' as [|a l IH]; simpl in Hs; apply StronglySorted_inv in Hs as [Hs Hf]; [done|by apply IH].
  - clear - Hs. induction l1' as [|a l IH]; simpl in *; apply StronglySorted_inv in Hs as [Hs Hf].
    + constructor; [lia|constructor].
    + constructor; [|by apply IH]. rewrite Forall_app in Hf. destruct Hf as [_ Hf]. apply Forall_cons in Hf as [Hf _].
      unfold before in Hf. lia.
Qed.

Lemma sorted_filter (P : Event -> Prop) `{!forall e, Decision (P e)} l : StronglySorted before l -> StronglySorted before (filter P l).
Proof.
  induction 1 as [|a l Hs IH Hf]; [constructor|]. rewrite filter_cons. case_decide; [|done]. constructor; [done|].
  apply Forall_forall. intros b [_ Hb]%list_elem_of_filter. rewrite Forall_forall in Hf. auto.
Qed.
















Lemma committed_write x x' sh next pid now : commitOffset c x sh next pid now = (Ok tt, x') ->
  journal x' = journal x /\ passed x' = passed x /\ committedOffsets x' = <[sh := next]> (committedOffsets x) /\
  forall sh', committed x' sh' = if decide (sh' = sh) then next else committed x sh'.
Proof.
  unfold commitOffset. destruct (WriteOffset _ _) as [[[]|e] o] eqn:Hw; [|done]. intros [= <-]. split_and!; try done.
  intros sh'. unfold committed. simpl. rewrite (offset_written _ _ _ Hw). simpl. repeat case_decide; simplify_eq; done.
Qed.




Lemma pending_nodup (x : Sys) shards : pendingShards c x = Ok shards -> NoDup shards.
Proof.
  unfold pendingShards. intros (m & _ & [= <-])%rbind_Ok.
  assert (NoDup (map_to_list m).*1) as Hnd by apply NoDup_fst_map_to_list.
  revert Hnd. generalize (map_to_list m). intros l. induction l as [|[sh v] l IH]; intros Hnd; [constructor|].
  simpl in Hnd. apply NoDup_cons in Hnd as [Hni Hnd]. specialize (IH Hnd). simpl.
  destruct (match startingOffset c with Some _ => _ | None => _ end) as [sh'|] eqn:E; [|done].
  assert (sh' = sh) as -> by (clear - E; repeat case_match; congruence). constructor; [|done].
  intros Hin. apply Hni. apply list_elem_of_omap in Hin as ([sh' v'] & Hin & E').
  assert (sh = sh') as -> by (clear - E'; repeat case_match; congruence). by apply (list_elem_of_fmap_2 fst) in Hin.
Qed.




(** ** Catching up *)
Section CatchUp.
Context (now : Z).
Hypothesis shards_answer : forall j, exists m, ShardOffsets j = Ok m.
Hypothesis events_answer : forall j sh off lim, exists r, GetShardEvents j sh off lim = Ok r.
Hypothesis offsets_answer : forall o n sh, exists r, GetCurrentOffset o n sh = Ok r.
Hypothesis offsets_accept : forall o off, exists o', WriteOffset o off = (Ok tt, o').
Hypothesis handled : forall (x : Sys) e, exists h, processEnvelope c x e = (Ok tt, set_handler x h).
Hypothesis buffer : (1 <= maxBufferSize c < 18446744073709551616)%Z.

Abbreviation lim := (Z.to_nat (maxBufferSize c)).

(** The events of a shard past its offset, and those the runner got past. *)
Definition pending (x : Sys) (sh : N) : list Event := filter (fun e => (committed x sh < Timestamp e)%Z) (log (journal x) sh).
Definition of_shard (sh : N) (l : list (N * Event)) : list Event := (filter (fun p => p.1 = sh) l).*2.

(** A runner between passes. *)
Record ready (x : Sys) : Prop := {
  r_running : running x = true;
  r_cache sh v : committedOffsets x !! sh = Some v -> v = committed x sh;
  r_errors : workerErrCh x = []
}.

(** What processing the shards in [S] has done to [x]. *)
Record advanced (S : list N) (x x' : Sys) : Prop := {
  a_ready : ready x';
  a_journal : journal x' = journal x;
  a_pending sh : pending x' sh = if decide (sh ∈ S) then drop lim (pending x sh) else pending x sh;
  a_passed sh : of_shard sh (passed x') = of_shard sh (passed x) ++ if decide (sh ∈ S) then take lim (pending x sh) else []
}.

Lemma u64_buffer : N.to_nat (u64_of_int (maxBufferSize c)) = lim.
Proof. unfold u64_of_int. rewrite Z.mod_small by lia. by rewrite Z_N_nat. Qed.

Lemma of_shard_app sh l1 l2 : of_shard sh (l1 ++ l2) = of_shard sh l1 ++ of_shard sh l2.
Proof. unfold of_shard. by rewrite filter_app, fmap_app. Qed.
Lemma of_shard_batch sh sh' evs : of_shard sh ((fun e => (sh', e)) <$> evs) = if decide (sh' = sh) then evs else [].
Proof.
  unfold of_shard. case_decide as E.
  - rewrite filter_all by (intros p (e & -> & _)%list_elem_of_fmap; done). rewrite <- list_fmap_compose. apply list_fmap_id.
  - rewrite filter_none; [done|]. intros p (e & -> & _)%list_elem_of_fmap. done.
Qed.

Lemma processEvents_all x sh evs next pid : exists x', processEvents c x sh evs next pid now = (None, x') /\
  journal x' = journal x /\ running x' = running x /\ workerErrCh x' = workerErrCh x /\
  passed x' = passed x ++ ((fun e => (sh, e)) <$> evs) /\ committedOffsets x' = <[sh := next]> (committedOffsets x) /\
  forall sh', committed x' sh' = if decide (sh' = sh) then next else committed x sh'.
Proof.
  revert x. induction evs as [|e evs IH]; intros x; simpl.
  - destruct (commitOffset c x sh next pid now) as [r x'] eqn:Hc.
    assert (r = Ok tt /\ running x' = running x /\ workerErrCh x' = workerErrCh x) as (-> & Hr & He).
    { unfold commitOffset in Hc. destruct (offsets_accept (offsets x) (mkOffset sh (name c) next now)) as [o Ho].
      rewrite Ho in Hc. by injection Hc as <- <-. }
    apply committed_write in Hc as (Ej & Ep & Ec & Hcom). exists x'. rewrite app_nil_r. by split_and!.
  - destruct (handled x e) as [h ->]. destruct (IH (record (set_handler x h) sh e)) as (x' & Hp & Ej & Er & Ew & Epa & Ec & Hcom).
    exists x'. rewrite Hp. split_and!; try done. rewrite Epa. simpl. by rewrite <- app_assoc.
Qed.

(** A read of the window after the offset leaves the rest pending. *)
Lemma pending_rest j sh off n e : last (take n (filter (fun e => (off < Timestamp e)%Z) (log j sh))) = Some e ->
  filter (fun a => (Timestamp e < Timestamp a)%Z) (log j sh) = drop n (filter (fun e => (off < Timestamp e)%Z) (log j sh)).
Proof.
  intros Hl. set (F := filter (fun e => (off < Timestamp e)%Z) (log j sh)) in *.
  assert (StronglySorted before F) as Hs by (apply sorted_filter, log_sorted).
  assert (take n F ++ drop n F = F) as HF by apply take_drop. rewrite <- HF in Hs.
  destruct (sorted_prefix_last _ _ _ Hs Hl) as [Hafter Hbefore].
  assert (e ∈ F) as [Hoff _]%list_elem_of_filter.
  { rewrite <- HF. apply elem_of_app. left. apply last_Some in Hl as [l' ->]. apply elem_of_app. right. left. }
  transitivity (filter (fun a => (Timestamp e < Timestamp a)%Z) F).
  - unfold F. rewrite list_filter_filter_l; [done|]. intros a Ha. lia.
  - rewrite <- HF at 1. rewrite filter_app. rewrite (filter_none _ (take n F)), (filter_all _ (drop n F)); [done| |].
    + by rewrite <- Forall_forall.
    + rewrite Forall_forall in Hbefore. intros a Ha. specialize (Hbefore a Ha). lia.
Qed.

Lemma doProcess_advances x sh : ready x -> exists x', doProcess c x sh now = (None, x') /\ advanced [sh] x x'.
Proof.
  intros [Hr Hc He]. unfold doProcess. rewrite Hr. simpl.
  assert (exists x1, currentOffset c x sh = (Ok (committed x sh), x1) /\ ready x1 /\ journal x1 = journal x /\
    offsets x1 = offsets x /\ passed x1 = passed x) as (x1 & -> & Hr1 & Ej & Eo & Ep).
  { unfold currentOffset. rewrite no_start. destruct (committedOffsets x !! sh) as [v|] eqn:E.
    - exists x. rewrite (Hc _ _ E). by split_and!.
    - destruct (offsets_answer (offsets x) (name c) sh) as [r Hg]. rewrite Hg. apply offset_get in Hg.
      eexists. split; [unfold committed; by rewrite <- Hg|]. split_and!; try done. split; simpl; [done| |done].
      intros sh' v. destruct (decide (sh' = sh)) as [->|Hne]; [rewrite lookup_insert_eq; intros [= <-]; unfold committed; simpl; by rewrite <- Hg|].
      rewrite lookup_insert_ne by done. apply Hc. }
  assert (committed x1 sh = committed x sh) as Ecom by (unfold committed; by rewrite Eo).
  destruct (events_answer (journal x1) sh (committed x sh) (u64_of_int (maxBufferSize c))) as [[evs next] Hg]. rewrite Hg.
  destruct (events_ok _ _ _ _ _ _ Hg) as [Hev Hnext]. rewrite u64_buffer, Ej in Hev. fold (pending x sh) in Hev.
  set (x2 := if (maxBufferSize c <=? Z.of_nat (length evs))%Z then set_full x1 true else x1).
  assert (ready x2 /\ journal x2 = journal x /\ offsets x2 = offsets x /\ passed x2 = passed x) as (Hr2 & Ej2 & Eo2 & Ep2).
  { unfold x2. destruct (_ <=? _)%Z; [|done]. destruct Hr1 as [R1 R2 R3]. by split_and!. }
  assert (forall sh', committed x2 sh' = committed x sh') as Ecom2 by (intros; unfold committed; by rewrite Eo2).
  destruct (last evs) as [e|] eqn:Hl.
  - destruct (processEvents_all x2 sh evs next (PersistenceId e)) as (x' & -> & Ej' & Er' & Ew' & Epa & Ec' & Hcom).
    exists x'. split; [done|]. rewrite (Hnext e eq_refl) in *. destruct Hr2 as [R1 R2 R3]. split.
    + split; [congruence| |congruence]. intros sh' v. rewrite Ec', Hcom. case_decide as E.
      * subst. rewrite lookup_insert_eq. by intros [= ->].
      * rewrite lookup_insert_ne by done. apply R2.
    + congruence.
    + intros sh'. unfold pending at 1. rewrite Ej', Ej2, Hcom. destruct (decide (sh' = sh)) as [->|Hne].
      * rewrite decide_True by set_solver. apply pending_rest. unfold pending in Hev. by rewrite <- Hev.
      * rewrite decide_False by set_solver. by rewrite Ecom2.
    + intros sh'. rewrite Epa, of_shard_app, of_shard_batch, Ep2. f_equal.
      repeat case_decide; try done; [by subst|set_solver|set_solver].
  - exists x2. split; [done|]. apply last_None in Hl. rewrite Hl in Hev. symmetry in Hev.
    assert (pending x sh = []) as Hp.
    { destruct (pending x sh) as [|a l]; [done|]. destruct (Z.to_nat (maxBufferSize c)) eqn:E; [lia|done]. }
    split; [done|done| |].
    + intros sh'. unfold pending at 1. rewrite Ej2, Ecom2. fold (pending x sh').
      case_decide as E; [|done]. assert (sh' = sh) as -> by set_solver. rewrite Hp. by destruct lim.
    + intros sh'. rewrite Ep2. case_decide as E; [|by rewrite app_nil_r]. assert (sh' = sh) as -> by set_solver.
      rewrite Hp. by rewrite take_nil, app_nil_r.
Qed.

Lemma shards_advance shards x : ready x -> NoDup shards ->
  advanced shards x (foldl (fun x shard => let '(r, x) := doProcess c x shard now in report x r) x shards).
Proof.
  intros Hr Hn. induction shards as [|sh shards IH] using rev_ind.
  { split; simpl; [done|done| |]; intros sh; [done|]. by rewrite app_nil_r. }
  apply NoDup_app in Hn as (Hn & Hni & _). destruct (IH Hn) as [R1 R2 R3 R4]. rewrite foldl_snoc.
  set (x1 := foldl _ x shards) in *. destruct (doProcess_advances x1 sh R1) as (x2 & -> & [S1 S2 S3 S4]). simpl.
  assert (sh ∉ shards) as Hnot by (intros Hin; apply (Hni sh Hin); left). clear Hni IH Hn.
  assert (sh ∈ [sh]) as Hself by left.
  assert (forall sh', sh' <> sh -> sh' ∉ [sh]) as Hother by (by intros sh' Hne Hin%list_elem_of_singleton).
  split; [done|congruence| |]; intros sh'.
  - rewrite S3, !R3. destruct (decide (sh' = sh)) as [->|Hne].
    + rewrite (decide_True (P := sh ∈ [sh])), (decide_False (P := sh ∈ shards)) by done.
      rewrite decide_True; [done|]. apply elem_of_app. by right.
    + rewrite (decide_False (P := sh' ∈ [sh])) by auto. pose proof (Hother sh' Hne) as Ho.
      apply decide_ext. rewrite elem_of_app. tauto.
  - rewrite S4, R4, R3, <- app_assoc. f_equal. destruct (decide (sh' = sh)) as [->|Hne].
    + rewrite (decide_True (P := sh ∈ [sh])), !(decide_False (P := sh ∈ shards)) by done.
      rewrite decide_True; [done|]. apply elem_of_app. by right.
    + rewrite (decide_False (P := sh' ∈ [sh])), app_nil_r by auto. pose proof (Hother sh' Hne) as Ho.
      apply decide_ext. rewrite elem_of_app. tauto.
Qed.

(** A shard that is not pending has nothing past its offset. *)
Lemma not_pending x shards sh : ready x -> pendingShards c x = Ok shards -> sh ∉ shards -> pending x sh = [].
Proof.
  intros Hr Hp Hni. unfold pendingShards in Hp. apply rbind_Ok in Hp as (m & Hm & [= <-]).
  pose proof (shards_ok _ _ sh Hm) as Hl. destruct (last (log (journal x) sh)) as [e|] eqn:E; simpl in Hl.
  - apply filter_none. intros a Ha Hlt. apply Hni. apply list_elem_of_omap. exists (sh, Timestamp e).
    split; [by apply elem_of_map_to_list|]. rewrite no_start. destruct (committedOffsets x !! sh) as [v|] eqn:Ec; [|done].
    rewrite (r_cache _ Hr _ _ Ec). pose proof (log_sorted (journal x) sh) as Hs. rewrite <- (app_nil_r (log _ _)) in Hs.
    destruct (sorted_prefix_last _ _ _ Hs E) as [_ Hall]. rewrite Forall_forall in Hall. specialize (Hall a Ha).
    destruct (Z.ltb_spec (committed x sh) (Timestamp e)); [done|lia].
  - apply last_None in E. unfold pending. by rewrite E.
Qed.

Lemma pass_advances x : ready x -> exists x', runPass c x now = (Continue, x') /\ ready x' /\ journal x' = journal x /\
  forall sh, pending x' sh = drop lim (pending x sh) /\
    of_shard sh (passed x') = of_shard sh (passed x) ++ take lim (pending x sh).
Proof.
  intros Hr. unfold runPass. destruct (pendingShards c x) as [shards|] eqn:Hp.
  2: { exfalso. unfold pendingShards in Hp. destruct (shards_answer (journal x)) as [m Hm]. by rewrite Hm in Hp. }
  pose proof (fun sh => not_pending x shards sh Hr Hp) as Hnot. pose proof (pending_nodup _ _ Hp) as Hnd.
  destruct shards as [|sh0 shards0].
  - exists (set_failures x 0). split; [done|]. split; [by destruct Hr; split|]. split; [done|]. intros sh.
    change (pending (set_failures x 0) sh) with (pending x sh). rewrite Hnot by apply not_elem_of_nil.
    by rewrite drop_nil, take_nil, app_nil_r.
  - set (shards := sh0 :: shards0) in *. destruct (shards_advance shards x Hr Hnd) as [R1 R2 R3 R4].
    set (x1 := foldl _ x shards) in *. unfold finishPass. rewrite (r_errors _ R1). simpl.
    match goal with |- exists x', (Continue, ?y) = _ /\ _ => set (x2 := y) end. exists x2.
    assert (ready x2 /\ journal x2 = journal x1 /\ offsets x2 = offsets x1 /\ passed x2 = passed x1) as (Q1 & Q2 & Q3 & Q4).
    { unfold x2. destruct R1 as [P1 P2 P3]. destruct (sawFullBatch x1); (split; [by split|done]). }
    split; [done|]. split; [done|]. split; [congruence|]. intros sh.
    replace (pending x2 sh) with (pending x1 sh) by (unfold pending, committed; by rewrite Q2, Q3). rewrite Q4, R3, R4.
    case_decide as E; [done|]. rewrite (Hnot sh E). by rewrite drop_nil, take_nil.
Qed.

(** Every pass takes a batch off each backlog. *)
Lemma passes_catch_up n x : ready x -> (forall sh, (length (pending x sh) <= n * lim)%nat) ->
  let x' := Nat.iter n (fun x => (runPass c x now).2) x in
  forall sh, pending x' sh = [] /\ of_shard sh (passed x') = of_shard sh (passed x) ++ pending x sh.
Proof.
  revert x. induction n as [|n IH]; intros x Hr Hlen x' sh.
  - simpl in *. specialize (Hlen sh). destruct (pending x sh) as [|a l] eqn:E; [|simpl in Hlen; lia].
    unfold x'. by rewrite E, app_nil_r.
  - unfold x'. rewrite Nat.iter_succ_r. destruct (pass_advances x Hr) as (x1 & -> & Hr1 & _ & Hadv). simpl.
    destruct (IH x1 Hr1) with (sh := sh) as [H1 H2].
    { intros sh'. destruct (Hadv sh') as [-> _]. rewrite length_drop. specialize (Hlen sh'). simpl in Hlen. lia. }
    split; [done|]. rewrite H2. destruct (Hadv sh) as [-> ->]. by rewrite <- app_assoc, take_drop.
Qed.
End CatchUp.
End Runs.

Section Delivery.
Context (c : Config) {J O H : Type} {JO : Journal J} {OO : Offsets O} {HO : Handler H} {JL : JournalLaws J} {OL : OffsetsLaws O}.


(** What a runner needs to make progress: stores that answer, a handler (with
    its recovery policy) that takes every event, room in the buffer. *)
Record unhindered : Prop := {
  u_shards : forall j : J, exists m, ShardOffsets j = Ok m;
  u_events : forall (j : J) sh off lim, exists r, GetShardEvents j sh off lim = Ok r;
  u_offsets : forall (o : O) n sh, exists r, GetCurrentOffset o n sh = Ok r;
  u_accept : forall (o : O) off, exists o', WriteOffset o off = (Ok tt, o');
  u_handled : forall (x : Sys (J := J) (O := O) (H := H)) e, exists h, processEnvelope c x e = (Ok tt, set_handler x h);
  u_buffer : (1 <= maxBufferSize c < 18446744073709551616)%Z
}.

(** C29: Catching up, for a runner without a start offset, on a journal that
    keeps the events of a shard in the order of their timestamps, no two of a
    shard with the same one: when the stores answer, the handler takes every
    event and the buffer holds at least one, passes deliver each pending event
    of each shard exactly once, in order, and after as many passes as the
    longest backlog has batches no shard has anything left. (With a start
    offset the first batch is delivered for ever: [start_offset_starves].) *)
Theorem catches_up now n (x : Sys (J := J) (O := O) (H := H)) :
  startingOffset c = None -> (forall (j : J) sh, StronglySorted before (log j sh)) -> unhindered ->
  ready c x -> (forall sh, (length (pending c x sh) <= n * Z.to_nat (maxBufferSize c))%nat) ->
  let x' := Nat.iter n (fun x => (runPass c x now).2) x in
  forall sh, pending c x' sh = [] /\ of_shard sh (passed x') = of_shard sh (passed x) ++ pending c x sh.
Proof. intros Hs Hj [] Hr Hlen. by apply passes_catch_up. Qed.
End Delivery.
End projection_spec.
