(* ===== verification/ProjectionExamples.v ===== *)
(** * A concrete projection

    The theorems of [ProjectionSpec.v] on a small journal, and the projection
    runner on the in-memory stores, where three behaviours of it show: a late
    event is never delivered, a starting offset re-reads the same batch for
    ever, and retries count the first attempt. *)

From S2P Require Import Prelude GoStrings Tenancy Persistence Egopb StoreApi EventStore StateStores EventSourced Projection ProjectionSpec.
From Stdlib Require Import ZArith Lia.
Open Scope string_scope.
Open Scope list_scope.
Open Scope urd_scope.

Module projection_examples.
Import egopb tenancy projection projection_spec.

(** ** Stores *)

(** A journal that takes an event only when it is newer than all it has: what
    the runner documents it relies on. *)
Abbreviation slog := (list (N * Event)).
Definition accept (acc : list Event) (e : Event) : list Event :=
  if forallb (fun a => (Timestamp a <? Timestamp e)%Z) acc then acc ++ [e] else acc.
Definition slog_of (j : slog) (sh : N) : list Event := foldl accept [] (snd <$> filter (fun p => p.1 = sh) j).

Lemma accept_sorted l acc : StronglySorted before acc -> StronglySorted before (foldl accept acc l).
Proof.
  revert acc. induction l as [|e l IH]; intros acc Hs; [done|]. apply IH. unfold accept.
  destruct (forallb _ acc) eqn:E; [|done]. rewrite forallb_forall in E.
  clear IH. induction Hs as [|a acc Hs IH Hf]; simpl; [constructor; constructor|]. constructor.
  - apply IH. intros b Hb. apply E. by right.
  - rewrite Forall_app. split; [done|]. constructor; [|done]. unfold before. apply Z.ltb_lt, E. by left.
Qed.

Definition slog_shards (j : slog) : gmap N Z :=
  list_to_map (omap (fun sh => (fun e => (sh, Timestamp e)) <$> last (slog_of j sh)) (remove_dups (fst <$> j))).

#[export] Instance slog_journal : Journal slog := {|
  ShardOffsets j := Ok (slog_shards j);
  GetShardEvents j sh off lim :=
    let evs := take (N.to_nat lim) (filter (fun e => (off < Timestamp e)%Z) (slog_of j sh)) in
    Ok (evs, match last evs with Some e => Timestamp e | None => off end)
|}.

Lemma slog_of_none j sh : sh ∉ fst <$> j -> slog_of j sh = [].
Proof.
  intros Hn. unfold slog_of. rewrite filter_none; [done|]. intros p Hp E. apply Hn. apply list_elem_of_fmap. by exists p.
Qed.

#[export] Instance slog_laws : JournalLaws slog.
Proof.
  refine {| log := slog_of |}.
  - intros j sh off lim evs next. simpl. intros [= <- <-]. split; [done|]. by intros e ->.
  - intros j m sh. simpl. intros [= <-]. unfold slog_shards. destruct (last (slog_of j sh)) as [e|] eqn:E; simpl.
    + apply elem_of_list_to_map.
      * rewrite list_fmap_omap. eapply (sublist_NoDup _ (remove_dups (fst <$> j))); [apply NoDup_remove_dups|].
        generalize (remove_dups (fst <$> j)). intros l. induction l as [|a l IH]; simpl; [done|].
        destruct (last (slog_of j a)); simpl; [by constructor|by constructor].
      * apply list_elem_of_omap. exists sh. rewrite E. split; [|done]. apply elem_of_remove_dups.
        destruct (decide (sh ∈ fst <$> j)) as [|Hn]; [done|]. by rewrite slog_of_none in E.
    + apply not_elem_of_list_to_map. intros (p & -> & (a & Ha & Hp)%list_elem_of_omap)%list_elem_of_fmap.
      destruct (last (slog_of j a)) eqn:E'; [|done]. injection Hp as <-. simpl in E. congruence.
Defined.

Lemma small_log_sorted (j : slog) sh : StronglySorted before (log j sh).
Proof. apply accept_sorted. constructor. Qed.

(** The in-memory offset store; [7] is the time it stamps a reset with. *)
#[export] Instance offsetstore_offsets : Offsets offsetstore.OffsetStore := {|
  WriteOffset o off := (Ok tt, offsetstore.WriteOffset o off);
  GetCurrentOffset o n sh := Ok (offsetstore.GetCurrentOffset o n sh);
  ResetOffset o n v := (fun o' => (Ok tt, o')) <$> offsetstore.ResetOffset o n v 7
|}.

#[export] Instance offsetstore_laws : OffsetsLaws offsetstore.OffsetStore.
Proof.
  refine {| oview := offsetstore.GetCurrentOffset |}.
  - by intros o n sh r [= <-].
  - intros o off o' [= <-] n sh. apply offsetstore.offset_roundtrip.
  - by intros o off e o'.
Defined.

(** The in-memory events store, its map ranged in the order of the keys. *)
#[export] Instance testkit_journal : Journal testkit.EventStore := {|
  ShardOffsets st := Ok (testkit.ShardOffsets map_to_list st);
  GetShardEvents st sh off lim := Ok (testkit.GetShardEvents map_to_list testkit.by_timestamp st sh off lim)
|}.

(** A handler that follows a script, and the causes told to dead letter. *)
Definition script := (list outcome * list string)%type.
#[export] Instance script_handler : Handler script := {|
  Handle h _ _ _ := match h.1 with o :: rest => (o, (rest, h.2)) | [] => (Handled, h) end;
  DeadLetter := Some (fun h _ _ _ _ cause => (h.1, h.2 ++ [cause]))
|}.

Definition config (r : Recovery) (buf : Z) (start : option Z) : Config :=
  mkConfig "orders" r buf 1000000000 start None None (fun _ => Err "no wire format") [] "stack".

Definition ev (sh : N) (pid : string) (n : N) (ts : Z) : Event := mkEvent pid n false None ts sh "" false ∅.
Definition silent : script := ([], []).
Definition retrying : Config := config (NewRecovery [WithRecoveryPolicy RetryAndSkip; WithRetries 2]) 2 None.

(** ** The theorems at work *)

(** Two attempts, an error and a panic: the event is skipped and the panic is
    what the dead-letter handler hears of. *)
Definition flaky : script := ([Failed "down"; Panicked "nil"; Handled], []).
Definition told : script := ([Handled], ["projection handler panic: nil
stack"]).

Lemma policy_outcome_witness :
  handleWithPolicy retrying "a" None 1 flaky = (Ok tt, told) /\
  exists h1 m h2, failing retrying "a" None 1 1 flaky h1 /\ handleSafely retrying "a" None 1 h1 = (Err m, h2).
Proof.
  assert (handleWithPolicy retrying "a" None 1 flaky = (Ok tt, told)) as Hr by reflexivity. split; [exact Hr|].
  destruct (policy_outcome retrying "a" None 1 flaky _ _ Hr)
    as [(_ & k & h1 & Hk & Hf & Hh)|(h1 & m & h2 & Hf & Hh & _)]; [|by exists h1, m, h2].
  exfalso. destruct k as [|[|k]]; [| |vm_compute in Hk; lia]; inversion Hf as [|? ? ? ? ? Hf' Hs]; subst.
  - discriminate Hh.
  - inversion Hf'; subst. injection Hs as _ <-. discriminate Hh.
Defined.

Definition j0 : slog := [(1%N, ev 1 "a" 1 10); (1%N, ev 1 "a" 2 20); (2%N, ev 2 "b" 1 15)].
Definition o0 : offsetstore.OffsetStore := offsetstore.NewOffsetStore.
Definition x0 : Sys := mkSys j0 o0 silent ∅ 0 false false true [] [].



(** One event per read: two passes empty both shards. *)
Definition slow : Config := config (NewRecovery [WithRecoveryPolicy Skip]) 1 None.

Lemma slow_handles (x : Sys (J := slog) (O := offsetstore.OffsetStore)) e :
  exists h : script, processEnvelope slow x e = (Ok tt, set_handler x h).
Proof.
  unfold processEnvelope. change (payloadOf slow e) with (Ok (E := string) (EventAny e)). simpl.
  unfold handleWithPolicy. change (policy (recovery slow)) with Skip. cbv iota.
  destruct (handleSafely _ _ _ _ _) as [[[]|m] h]; by eexists.
Qed.

Lemma slow_unhindered : unhindered (J := slog) (O := offsetstore.OffsetStore) (H := script) slow.
Proof. split; [by eexists|by eexists|by eexists|by eexists|exact slow_handles|vm_compute; split; congruence]. Qed.

Lemma catches_up_witness :
  let x := Nat.iter 2 (fun x => (runPass slow x 9).2) x0 in
  pending slow x 1 = [] /\ of_shard 1 (passed x) = [ev 1 "a" 1 10; ev 1 "a" 2 20].
Proof.
  assert (ready slow x0) as Hr by (split; done).
  destruct (catches_up (J := slog) (O := offsetstore.OffsetStore) slow 9 2 x0) with (sh := 1%N) as [H1 H2].
  - reflexivity.
  - exact small_log_sorted.
  - exact slow_unhindered.
  - exact Hr.
  - intros sh. unfold pending, log. simpl. unfold slog_of.
    destruct (decide (sh = 1%N)) as [->|H1]; [vm_compute; lia|]. destruct (decide (sh = 2%N)) as [->|H2]; [vm_compute; lia|].
    rewrite (filter_none _ j0); [simpl; lia|]. intros p Hp E. unfold j0 in Hp.
    rewrite !elem_of_cons in Hp. destruct Hp as [->|[->|[->|Hp%elem_of_nil]]]; simpl in E; congruence.
  - split; [exact H1|]. etransitivity; [exact H2|reflexivity].
Defined.

(** ** Where the runner surprises *)

(** With a start offset the runner reads from that offset on every pass and
    never from the offset it committed: with two events and a buffer of one,
    on a journal that keeps its contract, every pass delivers the first event
    again and the second is never delivered. *)
Theorem start_offset_starves n :
  let c := config (NewRecovery []) 1 (Some 5%Z) in
  let x := mkSys [(1%N, ev 1 "a" 1 10); (1%N, ev 1 "a" 2 20)] o0 silent ∅ 0 false false true [] [] in
  passed (Nat.iter n (fun x => (runPass c x 9).2) x) = replicate n (1%N, ev 1 "a" 1 10).
Proof.
  intros c x.
  set (after l := mkSys (journal x) (offsetstore.WriteOffset o0 (mkOffset 1 "orders" 10 9)) silent
    {[1%N := 10%Z]} 0 false true true [] l).
  assert (forall k, Nat.iter (S k) (fun x => (runPass c x 9).2) x = after (replicate (S k) (1%N, ev 1 "a" 1 10))) as Hk.
  { induction k as [|k IH]; [vm_compute; reflexivity|]. rewrite Nat.iter_succ, IH, (replicate_S_end (S k)).
    generalize (replicate (S k) (1%N, ev 1 "a" 1 10)). intros l. vm_compute. reflexivity. }
  destruct n as [|n]; [done|]. by rewrite Hk.
Qed.

(** [retries] is the number of attempts, the first included, where the
    policies promise that many retries after the first attempt fails; and no
    retries at all means five attempts. *)
Theorem retries_count_attempts :
  let attempts_made n := (5 - length (handleWithPolicy (config (NewRecovery [WithRecoveryPolicy RetryAndFail; WithRetries n]) 1 None)
    "a" None 1 (replicate 5 (Failed "down"), [])).2.1)%nat in
  attempts_made 2%N = 2%nat /\ attempts_made 0%N = 5%nat.
Proof. split; reflexivity. Qed.
(** ** On the in-memory events store *)
Definition stored (evs : list Event) (st : testkit.EventStore) : testkit.EventStore :=
  foldl (fun st e => (testkit.WriteEvents st persistence.Unscoped [e] persistence.Unconditional).2) st evs.
Definition runner (st : testkit.EventStore) : Sys := mkSys st o0 silent ∅ 0 false false true [] [].
Definition with_journal {O H} (x : Sys (J := testkit.EventStore) (O := O) (H := H)) (st : testkit.EventStore) : Sys :=
  mkSys st (offsets x) (handler x) (committedOffsets x) (storeFailures x) (sawFullBatch x) (nudge x) (running x) (workerErrCh x) (passed x).

Lemma iter_fix {A} (f : A -> A) x n : f x = x -> Nat.iter n f x = x.
Proof. intros E. induction n as [|n IH]; simpl; [done|]. by rewrite IH. Qed.

(** An event is stamped when its command is received and written later, so it
    can reach the journal after a newer event of its shard was projected. Such
    an event is past no offset the runner will ever compare it with: however
    many passes follow, it is not delivered. *)
Theorem late_event_skipped :
  let st := stored [ev 1 "a" 1 20] testkit.NewEventsStore in
  let x := (runPass retrying (runner st) 9).2 in
  let late := ev 1 "b" 1 10 in
  let y := with_journal x (stored [late] st) in
  forall n, let z := Nat.iter n (fun x => (runPass retrying x 9).2) y in
    passed z = [(1%N, ev 1 "a" 1 20)] /\ late ∈ testkit.shard_events map_to_list (journal z) 1.
Proof.
  intros st x late y n z. assert (z = y) as -> by (apply iter_fix; vm_compute; reflexivity).
  split; [vm_compute; reflexivity|]. vm_compute. right. left.
Qed.

End projection_examples.
