(* ===== verification/Queue.v ===== *)
(** * The lock-free queue ([src/internal/queue/queue.go])

    A linked queue whose nodes are recycled through a pool. Each atomic access
    of [Enqueue] and [Dequeue] is one step of a thread ([enqueue_step],
    [dequeue_step]), so that calls can be interleaved; run alone, a call is
    [Enqueue] or [Dequeue]. Nodes live in a heap that is never freed: the pool
    holds the ones that may be handed out again. *)

From S2P Require Import Prelude.
From Stdlib Require Import ZArith.
Open Scope list_scope.

Module queue.
Abbreviation ptr := nat.

Section Queue.
(** An [interface{}] is [option V]; [None] is nil. *)
Context {V : Type}.

Record item := mkItem { next : option ptr; v : option V }.
Definition zeroItem : item := mkItem None None.

Record Queue := mkQueue {
  items : gmap ptr item;
  head : ptr;
  tail : ptr;
  len : Z;
  pool : list ptr;
  (** the next address [&item{}] will have *)
  brk : ptr
}.

Definition NewQueue : Queue := mkQueue ∅ 0 0 0 [] 1.

(** ** Memory *)
Definition node (q : Queue) (p : ptr) : item := default zeroItem (items q !! p).
Definition set_node (q : Queue) (p : ptr) (i : item) : Queue :=
  mkQueue (<[p := i]> (items q)) (head q) (tail q) (len q) (pool q) (brk q).
Definition set_next (q : Queue) (p : ptr) (nx : option ptr) : Queue := set_node q p (mkItem nx (v (node q p))).
Definition set_v (q : Queue) (p : ptr) (x : option V) : Queue := set_node q p (mkItem (next (node q p)) x).

Definition cas_next (q : Queue) (p : ptr) (old new : option ptr) : bool * Queue :=
  if decide (next (node q p) = old) then (true, set_next q p new) else (false, q).
Definition cas_tail (q : Queue) (old new : ptr) : bool * Queue :=
  if decide (tail q = old) then (true, mkQueue (items q) (head q) new (len q) (pool q) (brk q)) else (false, q).
Definition cas_head (q : Queue) (old new : ptr) : bool * Queue :=
  if decide (head q = old) then (true, mkQueue (items q) new (tail q) (len q) (pool q) (brk q)) else (false, q).
(** [atomic.AddInt64]; a length cannot reach the 64-bit bounds. *)
Definition add_len (q : Queue) (d : Z) : Queue := mkQueue (items q) (head q) (tail q) (len q + d) (pool q) (brk q).

Fixpoint remove_first (p : ptr) (l : list ptr) : list ptr :=
  match l with [] => [] | a :: l => if decide (a = p) then l else a :: remove_first p l end.

(** [sync.Pool.Get] hands out any pooled item, or a new one: [choice] says
    which. *)
Definition getItem (q : Queue) (choice : option ptr) : ptr * Queue :=
  match choice with
  | Some p =>
    if decide (p ∈ pool q)
    then (p, mkQueue (items q) (head q) (tail q) (len q) (remove_first p (pool q)) (brk q))
    else (brk q, mkQueue (items q) (head q) (tail q) (len q) (pool q) (S (brk q)))
  | None => (brk q, mkQueue (items q) (head q) (tail q) (len q) (pool q) (S (brk q)))
  end.
Definition put (q : Queue) (p : ptr) : Queue := mkQueue (items q) (head q) (tail q) (len q) (p :: pool q) (brk q).

(** ** [Enqueue], one access at a time *)
Inductive enqueue_pc :=
| EGet (x : option V)
| ESet (n : ptr) (x : option V)
| ELoadTail (n : ptr)
| ELoadNext (n tail : ptr)
| EHelp (n tail next : ptr)
| ELink (n tail : ptr)
| ESwing (n tail : ptr)
| ECount
| EDone.

Definition enqueue_step (choice : option ptr) (pc : enqueue_pc) (q : Queue) : enqueue_pc * Queue :=
  match pc with
  | EGet x => let '(n, q) := getItem q choice in (ESet n x, q)
  | ESet n x => (ELoadTail n, set_v q n x)
  | ELoadTail n => (ELoadNext n (tail q), q)
  | ELoadNext n t => match next (node q t) with Some nx => (EHelp n t nx, q) | None => (ELink n t, q) end
  | EHelp n t nx => (ELoadTail n, (cas_tail q t nx).2)
  | ELink n t => let '(ok, q) := cas_next q t None (Some n) in if ok then (ESwing n t, q) else (ELoadTail n, q)
  | ESwing n t => (ECount, (cas_tail q t n).2)
  | ECount => (EDone, add_len q 1)
  | EDone => (EDone, q)
  end.

(** ** [Dequeue], with [releaseItem] *)
Inductive dequeue_pc :=
| DLoadHead
| DLoadNext (head : ptr)
| DMove (head next : ptr)
| DValue (head next : ptr)
| DClear (head : ptr) (value : option V)
| DReset (head : ptr) (value : option V)
| DPut (head : ptr) (value : option V)
| DCount (value : option V)
| DDone (result : option V).

Definition dequeue_step (pc : dequeue_pc) (q : Queue) : dequeue_pc * Queue :=
  match pc with
  | DLoadHead => (DLoadNext (head q), q)
  | DLoadNext h => match next (node q h) with Some nx => (DMove h nx, q) | None => (DDone None, q) end
  | DMove h nx => let '(ok, q) := cas_head q h nx in if ok then (DValue h nx, q) else (DLoadHead, q)
  | DValue h nx => (DClear h (v (node q nx)), q)
  | DClear h x => (DReset h x, set_v q h None)
  | DReset h x => (DPut h x, set_next q h None)
  | DPut h x => (DCount x, put q h)
  | DCount x => (DDone x, add_len q (-1))
  | DDone x => (DDone x, q)
  end.

(** ** A call on its own *)
Fixpoint enqueue_run (fuel : nat) (choice : option ptr) (pc : enqueue_pc) (q : Queue) : option Queue :=
  match pc with
  | EDone => Some q
  | _ => match fuel with O => None | S fuel => let '(pc, q) := enqueue_step choice pc q in enqueue_run fuel choice pc q end
  end.
Fixpoint dequeue_run (fuel : nat) (pc : dequeue_pc) (q : Queue) : option (option V * Queue) :=
  match pc with
  | DDone r => Some (r, q)
  | _ => match fuel with O => None | S fuel => let '(pc, q) := dequeue_step pc q in dequeue_run fuel pc q end
  end.

(** The most accesses a call needs when it never has to start over. *)
Definition enqueue_accesses : nat := 7.
Definition dequeue_accesses : nat := 8.
Definition Enqueue (q : Queue) (choice : option ptr) (x : option V) : option Queue := enqueue_run enqueue_accesses choice (EGet x) q.
Definition Dequeue (q : Queue) : option (option V * Queue) := dequeue_run dequeue_accesses DLoadHead q.

Definition Length (q : Queue) : N := Z.to_N (len q mod 18446744073709551616).
Definition IsEmpty (q : Queue) : bool := (len q =? 0)%Z.

(** ** Threads side by side *)
Inductive thread := TEnqueue (pc : enqueue_pc) | TDequeue (pc : dequeue_pc).

Definition thread_step (choice : option ptr) (t : thread) (q : Queue) : thread * Queue :=
  match t with
  | TEnqueue pc => let '(pc, q) := enqueue_step choice pc q in (TEnqueue pc, q)
  | TDequeue pc => let '(pc, q) := dequeue_step pc q in (TDequeue pc, q)
  end.

(** A schedule names the threads in the order they take steps. *)
Fixpoint schedule (s : list (nat * option ptr)) (ts : list thread) (q : Queue) : list thread * Queue :=
  match s with
  | [] => (ts, q)
  | (i, choice) :: s =>
    match ts !! i with
    | Some t => let '(t, q) := thread_step choice t q in schedule s (<[i := t]> ts) q
    | None => schedule s ts q
    end
  end.
End Queue.
End queue.
