(* ===== verification/QueueSpec.v ===== *)
(** * What the lock-free queue guarantees, and what it does not

    Between one producer and one consumer the queue is a FIFO queue whatever
    the interleaving and whichever nodes the pool hands out, and every call
    ends within a fixed number of its own steps. With a second producer it is
    not: a recycled node loses messages, or makes [Enqueue] spin for ever. *)

From S2P Require Import Prelude Queue.
From Stdlib Require Import ZArith Lia.
Open Scope list_scope.

Module queue_spec.
Import queue.

Section Spec.
Context {V : Type}.
Abbreviation Queue := (@Queue V).
Abbreviation enqueue_pc := (@enqueue_pc V).
Abbreviation dequeue_pc := (@dequeue_pc V).

(** ** The heap *)
Lemma node_set (q : Queue) p i p' : node (set_node q p i) p' = if decide (p' = p) then i else node q p'.
Proof.
  unfold node, set_node. simpl. case_decide as E.
  - subst. by rewrite lookup_insert_eq.
  - by rewrite lookup_insert_ne.
Qed.

Lemma remove_first_Permutation p l : p ∈ l -> p :: remove_first p l ≡ₚ l.
Proof.
  induction l as [|a l IH]; intros Hp; [by apply elem_of_nil in Hp|]. simpl. case_decide as E; [by subst|].
  apply elem_of_cons in Hp as [->|Hp]; [done|]. rewrite Permutation_swap. by rewrite IH.
Qed.

(** Two queues that differ in pool and allocation only. *)
Definition same_memory (q q' : Queue) : Prop :=
  items q' = items q /\ head q' = head q /\ tail q' = tail q /\ len q' = len q.

Lemma getItem_cases q choice n (q' : Queue) : getItem q choice = (n, q') -> same_memory q q' /\
  ((n :: pool q' ≡ₚ pool q /\ brk q' = brk q) \/ (n = brk q /\ pool q' = pool q /\ brk q' = S (brk q))).
Proof.
  unfold getItem. destruct choice as [p|]; [case_decide|]; intros [= <- <-]; split; try done; [|by right..].
  left. split; [|done]. by apply remove_first_Permutation.
Qed.

(** [ns] are the nodes of a chain that ends. *)
Fixpoint path (nx : ptr -> option ptr) (ns : list ptr) : Prop :=
  match ns with
  | [] => False
  | a :: l => match l with [] => nx a = None | b :: _ => nx a = Some b /\ path nx l end
  end.

Lemma path_ext nx nx' ns : (forall p, p ∈ ns -> nx' p = nx p) -> path nx ns -> path nx' ns.
Proof.
  induction ns as [|a ns IH]; [done|]. intros He. destruct ns as [|b ns].
  - simpl. rewrite He; [done|left].
  - intros [H1 H2]. split; [rewrite He; [done|left]|]. apply IH; [|done]. intros p Hp. apply He. by right.
Qed.

Lemma path_last nx ns t : path nx ns -> last ns = Some t -> nx t = None.
Proof.
  induction ns as [|a ns IH]; [done|]. destruct ns as [|b ns]; [by intros H [= <-]|]. intros [_ H] Hl. by apply IH.
Qed.

Lemma path_snoc nx nx' ns t n : path nx ns -> last ns = Some t -> NoDup ns -> n ∉ ns -> nx' t = Some n -> nx' n = None ->
  (forall p, p <> t -> nx' p = nx p) -> path nx' (ns ++ [n]).
Proof.
  intros Hp Hl Hnd Hn Ht Hnn Ho. induction ns as [|a ns IH]; [done|]. destruct ns as [|b ns].
  - injection Hl as <-. done.
  - destruct Hp as [H1 H2]. apply NoDup_cons in Hnd as [Ha Hnd]. simpl app. split.
    + rewrite Ho; [done|]. intros ->. apply Ha. apply last_Some in Hl as [l' Hl].
      destruct l' as [|a' l']; [discriminate Hl|]. injection Hl as _ ->. apply elem_of_app. right. left.
    + apply (IH H2 Hl Hnd). intros Hin. apply Hn. by right.
Qed.

Lemma path_first nx ns a : path nx ns -> ns !! 0 = Some a -> nx a = ns !! 1.
Proof. destruct ns as [|a' [|b ns]]; simpl; [done|congruence|]. intros [H _] [= <-]. done. Qed.

(** ** One producer, one consumer *)
Record State := mkState {
  queue : Queue;
  producer : enqueue_pc;
  consumer : dequeue_pc;
  (** the values [Enqueue] was called with, and the results of the calls of
      [Dequeue] the consumer has seen return *)
  calls : list V;
  results : list (option V)
}.

Definition start : State := mkState NewQueue EDone (DDone None) [] [].

Inductive step : State -> State -> Prop :=
| step_call q c xs rs x : step (mkState q EDone c xs rs) (mkState q (EGet (Some x)) c (xs ++ [x]) rs)
| step_producer q p c xs rs choice p' q' : enqueue_step choice p q = (p', q') -> p <> EDone ->
    step (mkState q p c xs rs) (mkState q' p' c xs rs)
| step_recv q p r xs rs : step (mkState q p (DDone r) xs rs) (mkState q p DLoadHead xs (rs ++ [r]))
| step_consumer q p c xs rs c' q' : dequeue_step c q = (c', q') -> (forall r, c <> DDone r) ->
    step (mkState q p c xs rs) (mkState q' p c' xs rs).

(** What each side holds: a node nobody else may touch, a value on its way. *)
Definition held_p (p : enqueue_pc) : list ptr :=
  match p with ESet n _ | ELoadTail n | ELoadNext n _ | EHelp n _ _ | ELink n _ => [n] | _ => [] end.
Definition held_c (c : dequeue_pc) : list ptr :=
  match c with DValue h _ | DClear h _ | DReset h _ | DPut h _ => [h] | _ => [] end.
Definition unlinked (q : Queue) (p : enqueue_pc) : list (option V) :=
  match p with
  | EGet x | ESet _ x => [x]
  | ELoadTail n | ELoadNext n _ | EHelp n _ _ | ELink n _ => [v (node q n)]
  | _ => []
  end.
Definition inflight (q : Queue) (c : dequeue_pc) : list (option V) :=
  match c with
  | DValue _ nx => [v (node q nx)]
  | DClear _ x | DReset _ x | DPut _ x | DCount x => [x]
  | DDone (Some x) => [Some x]
  | _ => []
  end.
Definition uncounted_p (p : enqueue_pc) : Z := match p with ESwing _ _ | ECount => 1 | _ => 0 end.
Definition uncounted_c (c : dequeue_pc) : Z :=
  match c with DValue _ _ | DClear _ _ | DReset _ _ | DPut _ _ | DCount _ => 1 | _ => 0 end.

Definition nexts (q : Queue) (p : ptr) : option ptr := next (node q p).
Definition values (q : Queue) (ns : list ptr) : list (option V) := (fun p => v (node q p)) <$> ns.
Definition received (rs : list (option V)) : list (option V) := filter is_Some rs.

(** [ns] are the nodes from head to the last linked one. Every node is held
    by one side only: the chain, the producer, the consumer or the pool. *)
Record inv (s : State) (ns : list ptr) : Prop := {
  i_path : path (nexts (queue s)) ns;
  i_head : ns !! 0 = Some (head (queue s));
  i_owned : NoDup (ns ++ held_p (producer s) ++ held_c (consumer s) ++ pool (queue s));
  i_alloc : Forall (fun p => (p < brk (queue s))%nat) (ns ++ held_p (producer s) ++ held_c (consumer s) ++ pool (queue s));
  i_fresh p : (brk (queue s) <= p)%nat -> next (node (queue s) p) = None;
  i_pool p : p ∈ pool (queue s) ++ held_p (producer s) -> next (node (queue s) p) = None;
  i_producer : match producer s with
    | EHelp _ _ _ => False
    | ESwing n t => tail (queue s) = t /\ last ns = Some n
    | ELoadNext _ t | ELink _ t => t = tail (queue s) /\ last ns = Some t
    | _ => last ns = Some (tail (queue s))
    end;
  i_consumer : match consumer s with
    | DLoadNext h => h = head (queue s)
    | DMove h nx => h = head (queue s) /\ ns !! 1 = Some nx
    | DValue _ nx => nx = head (queue s)
    | DPut h _ => next (node (queue s) h) = None
    | _ => True
    end;
  i_values : Some <$> calls s = received (results s) ++ inflight (queue s) (consumer s) ++ values (queue s) (tl ns) ++
    unlinked (queue s) (producer s);
  i_len : len (queue s) = (Z.of_nat (length (tl ns)) - uncounted_p (producer s) + uncounted_c (consumer s))%Z
}.

Lemma inv_start : inv start [0].
Proof.
  split; simpl; try done; [apply NoDup_singleton|apply Forall_singleton; lia].
Qed.

(** Nothing a side holds is in the chain. *)
Lemma held_outside s ns p : inv s ns -> p ∈ held_p (producer s) ++ held_c (consumer s) ++ pool (queue s) -> p ∉ ns.
Proof. intros Hi Hp Hn. apply (proj1 (proj2 (proj1 (NoDup_app _ _) (i_owned _ _ Hi))) p Hn Hp). Qed.

(** A value written changes no link, a link no value. *)
Lemma next_set_v (q : Queue) p x a : next (node (set_v q p x) a) = next (node q a).
Proof. unfold set_v. rewrite node_set. by case_decide; subst. Qed.
Lemma v_set_next (q : Queue) p nx a : v (node (set_next q p nx) a) = v (node q a).
Proof. unfold set_next. rewrite node_set. by case_decide; subst. Qed.
Lemma v_set_v (q : Queue) p x a : v (node (set_v q p x) a) = if decide (a = p) then x else v (node q a).
Proof. unfold set_v. rewrite node_set. by case_decide. Qed.
Lemma next_set_next (q : Queue) p nx a : next (node (set_next q p nx) a) = if decide (a = p) then nx else next (node q a).
Proof. unfold set_next. rewrite node_set. by case_decide. Qed.
Lemma nexts_set_v (q : Queue) p x ns : path (nexts q) ns -> path (nexts (set_v q p x)) ns.
Proof. apply path_ext. intros a _. apply next_set_v. Qed.
Lemma values_set_next (q : Queue) p nx ns : values (set_next q p nx) ns = values q ns.
Proof. apply list_fmap_ext. intros i a _. apply v_set_next. Qed.
Lemma values_set_v (q : Queue) p x ns : p ∉ ns -> values (set_v q p x) ns = values q ns.
Proof.
  intros Hp. apply list_fmap_ext. intros i a Ha. rewrite v_set_v, decide_False; [done|]. intros ->.
  apply Hp. by eapply list_elem_of_lookup_2.
Qed.
Lemma tl_outside p (ns : list ptr) : p ∉ ns -> p ∉ tl ns.
Proof. destruct ns; [done|]. intros H Hin. apply H. by right. Qed.

Lemma inflight_set_next (q : Queue) p nx c : inflight (set_next q p nx) c = inflight q c.
Proof. destruct c; simpl; try done. by rewrite v_set_next. Qed.
Lemma unlinked_set_next (q : Queue) p nx pc : unlinked (set_next q p nx) pc = unlinked q pc.
Proof. destruct pc; simpl; try done; by rewrite v_set_next. Qed.

Lemma head_in_chain s ns : inv s ns -> head (queue s) ∈ ns.
Proof. intros Hi. eapply list_elem_of_lookup_2, (i_head _ _ Hi). Qed.

Lemma inflight_set_v s ns p x : inv s ns -> p ∉ ns -> inflight (set_v (queue s) p x) (consumer s) = inflight (queue s) (consumer s).
Proof.
  intros Hi Hp. pose proof (i_consumer _ _ Hi) as Hc. pose proof (head_in_chain _ _ Hi) as Hh.
  destruct (consumer s); simpl; try done. subst. rewrite v_set_v, decide_False; [done|]. by intros <-.
Qed.

(** ** The producer's steps *)
Lemma get_inv q x c xs rs ns choice n q' : inv (mkState q (EGet x) c xs rs) ns -> getItem q choice = (n, q') ->
  inv (mkState q' (ESet n x) c xs rs) ns.
Proof.
  intros [Hp Hh Ho Ha Hf Hpl Hpr Hc Hv Hl] ((Hit & Hhd & Htl & Hln) & Hcase)%getItem_cases. simpl in *.
  assert (forall p, node q' p = node q p) as Hnode by (intros p; unfold node; by rewrite Hit).
  assert (brk q <= brk q' /\ (forall p, p ∈ pool q' -> p ∈ pool q) /\ next (node q n) = None) as (Hbrk & Hsub & Hnn).
  { rewrite app_nil_r in Hpl. destruct Hcase as [[HP ->]|(-> & -> & ->)]; [|by auto]. split_and!; [done|..].
    - intros p Hin. rewrite <- HP. by right.
    - apply Hpl. rewrite <- HP. left. }
  split; simpl; try rewrite ?Hhd, ?Htl, ?Hln; try done.
  - eapply path_ext; [|exact Hp]. intros p _. unfold nexts. by rewrite Hnode.
  - destruct Hcase as [[HP _]|(-> & -> & _)].
    + rewrite <- HP in Ho. by rewrite <- (Permutation_middle (held_c c)) in Ho.
    + rewrite <- Permutation_middle. apply NoDup_cons. split; [|done]. intros Hin. rewrite Forall_forall in Ha.
      specialize (Ha _ Hin). lia.
  - rewrite <- Permutation_middle, Forall_cons. destruct Hcase as [[HP ->]|(-> & -> & ->)].
    + rewrite <- HP, <- Permutation_middle, <- Permutation_middle in Ha. by rewrite Forall_cons in Ha.
    + split; [lia|]. eapply Forall_impl; [exact Ha|]. simpl. lia.
  - intros p Hle. rewrite Hnode. apply Hf. lia.
  - intros p Hin. rewrite Hnode. apply elem_of_app in Hin as [Hin|Hin%list_elem_of_singleton]; [|by subst].
    apply Hpl. apply elem_of_app. left. by apply Hsub.
  - destruct c; try done. by rewrite Hnode.
  - rewrite Hv. f_equal. f_equal; [destruct c; simpl; try done; by rewrite Hnode|]. f_equal.
    apply list_fmap_ext. intros i a _. by rewrite Hnode.
Qed.

Lemma set_inv q n x c xs rs ns : inv (mkState q (ESet n x) c xs rs) ns -> inv (mkState (set_v q n x) (ELoadTail n) c xs rs) ns.
Proof.
  intros Hi. assert (n ∉ ns) as Hn by (eapply held_outside; [exact Hi|left]).
  pose proof (inflight_set_v _ _ n x Hi Hn) as Hfl. destruct Hi as [Hp Hh Ho Ha Hf Hpl Hpr Hc Hv Hl]. simpl in *.
  split; simpl; try done.
  - by apply nexts_set_v.
  - intros p Hle. rewrite next_set_v. by apply Hf.
  - intros p Hin. rewrite next_set_v. by apply Hpl.
  - destruct c; try done. by rewrite next_set_v.
  - by rewrite Hv, Hfl, values_set_v, v_set_v, decide_True by (done || by apply tl_outside).
Qed.

Lemma link_inv q n t c xs rs ns : inv (mkState q (ELink n t) c xs rs) ns ->
  inv (mkState (set_next q t (Some n)) (ESwing n t) c xs rs) (ns ++ [n]).
Proof.
  intros Hi. assert (n ∉ ns) as Hn by (eapply held_outside; [exact Hi|left]).
  pose proof (fun p => held_outside _ _ p Hi) as Hout. destruct Hi as [Hp Hh Ho Ha Hf Hpl Hpr Hc Hv Hl]. simpl in *.
  destruct Hpr as [Ht Hlast].
  assert (t ∈ ns) as Hin by (apply last_Some in Hlast as [l' ->]; apply elem_of_app; right; left).
  assert (forall p, p ∈ n :: held_c c ++ pool q -> p <> t) as Hne by (by intros p Hp' ->; apply (Hout t)).
  assert (tl (ns ++ [n]) = tl ns ++ [n]) as Htl by (by destruct ns).
  split; simpl; try done.
  - apply (path_snoc (nexts q) _ ns t); try done.
    + by apply NoDup_app in Ho as [? _].
    + unfold nexts. by rewrite next_set_next, decide_True.
    + unfold nexts. rewrite next_set_next, decide_False by (apply Hne; left). apply Hpl. apply elem_of_app. right. left.
    + intros p Hpt. unfold nexts. by rewrite next_set_next, decide_False.
  - by apply lookup_app_l_Some.
  - by rewrite <- app_assoc.
  - by rewrite <- app_assoc.
  - intros p Hle. rewrite next_set_next, decide_False; [by apply Hf|]. intros ->. rewrite Forall_forall in Ha.
    specialize (Ha t). rewrite elem_of_app in Ha. specialize (Ha (or_introl Hin)). lia.
  - rewrite app_nil_r. intros p Hpin. rewrite next_set_next, decide_False; [apply Hpl; apply elem_of_app; by left|].
    apply Hne. right. apply elem_of_app. by right.
  - split; [done|]. by rewrite last_snoc.
  - destruct c; try done.
    + destruct Hc as [? Hc]. split; [done|]. by apply lookup_app_l_Some.
    + rewrite next_set_next, decide_False; [done|]. apply Hne. right. left.
  - rewrite inflight_set_next, values_set_next, Htl, app_nil_r, Hv. unfold values. by rewrite fmap_app.
  - rewrite Htl, length_app. simpl. rewrite Hl. lia.
Qed.

Lemma producer_inv q p c xs rs ns choice p' q' : inv (mkState q p c xs rs) ns -> p <> EDone -> enqueue_step choice p q = (p', q') ->
  exists ns', inv (mkState q' p' c xs rs) ns'.
Proof.
  intros Hi Hd Hs. pose proof Hi as [Hp Hh Ho Ha Hf Hpl Hpr Hc Hv Hl]. simpl in *.
  destruct p as [x|n x|n|n t|n t nx|n t|n t| |]; simpl in *; [..|done].
  - destruct (getItem q choice) as [n q1] eqn:Hg. injection Hs as <- <-. exists ns. by eapply get_inv.
  - injection Hs as <- <-. exists ns. by apply set_inv.
  - injection Hs as <- <-. exists ns. by split.
  - destruct Hpr as [-> Hlast]. assert (next (node q (tail q)) = None) as E by apply (path_last _ _ _ Hp Hlast). rewrite E in Hs. injection Hs as <- <-. exists ns. by split.
  - done.
  - destruct Hpr as [-> Hlast]. unfold cas_next in Hs. rewrite decide_True in Hs by apply (path_last _ _ _ Hp Hlast).
    injection Hs as <- <-. exists (ns ++ [n]). by apply link_inv.
  - injection Hs as <- <-. destruct Hpr as [Ht Hlast]. unfold cas_tail. rewrite decide_True by done. exists ns. by split.
  - injection Hs as <- <-. exists ns. split; simpl; try done. rewrite Hl. simpl. lia.
Qed.

(** ** The consumer's steps *)
Lemma move_inv q p h nx xs rs ns : inv (mkState q p (DMove h nx) xs rs) ns ->
  inv (mkState (mkQueue (items q) nx (tail q) (len q) (pool q) (brk q)) p (DValue h nx) xs rs) (tl ns).
Proof.
  intros [Hp Hh Ho Ha Hf Hpl Hpr Hc Hv Hl]. simpl in *. destruct Hc as [-> Hnx].
  destruct ns as [|h [|nx' rest]]; try done. simpl in Hh, Hnx. injection Hh as ->. injection Hnx as ->. simpl in *.
  assert (forall a, a :: rest ++ held_p p ++ head q :: pool q ≡ₚ head q :: a :: rest ++ held_p p ++ pool q) as Hperm.
  { intros a. by rewrite (assoc_L (++)), <- Permutation_middle, <- assoc_L, Permutation_swap by apply _. }
  destruct Hp as [_ Hp]. split; simpl; try done.
  - by rewrite (Hperm nx).
  - by rewrite (Hperm nx).
  - rewrite Hl. lia.
Qed.

Lemma clear_inv q p h x xs rs ns : inv (mkState q p (DClear h x) xs rs) ns -> inv (mkState (set_v q h None) p (DReset h x) xs rs) ns.
Proof.
  intros Hi. assert (h ∉ ns) as Hn.
  { eapply held_outside; [exact Hi|]. simpl. apply elem_of_app. right. left. }
  destruct Hi as [Hp Hh Ho Ha Hf Hpl Hpr Hc Hv Hl]. simpl in *.
  assert (unlinked (set_v q h None) p = unlinked q p) as Hun.
  { apply NoDup_app in Ho as (_ & _ & Ho). apply NoDup_app in Ho as (_ & Ho & _).
    destruct p; simpl in *; try done; rewrite v_set_v, decide_False; try done; intros ->; (eapply Ho; [left|left]). }
  split; simpl; try done.
  - by apply nexts_set_v.
  - intros a Hle. rewrite next_set_v. by apply Hf.
  - intros a Hin. rewrite next_set_v. by apply Hpl.
  - by rewrite Hv, Hun, values_set_v by (by apply tl_outside).
Qed.

Lemma reset_inv q p h x xs rs ns : inv (mkState q p (DReset h x) xs rs) ns -> inv (mkState (set_next q h None) p (DPut h x) xs rs) ns.
Proof.
  intros Hi. assert (h ∉ ns) as Hn.
  { eapply held_outside; [exact Hi|]. simpl. apply elem_of_app. right. left. }
  destruct Hi as [Hp Hh Ho Ha Hf Hpl Hpr Hc Hv Hl]. simpl in *. split; simpl; try done.
  - eapply path_ext; [|exact Hp]. intros a Hin. unfold nexts. rewrite next_set_next, decide_False; [done|]. by intros ->.
  - intros a Hle. rewrite next_set_next. case_decide; [done|]. by apply Hf.
  - intros a Hin. rewrite next_set_next. case_decide; [done|]. by apply Hpl.
  - by rewrite next_set_next, decide_True.
  - by rewrite Hv, values_set_next, unlinked_set_next.
Qed.

Lemma consumer_inv q p c xs rs ns c' q' : inv (mkState q p c xs rs) ns -> (forall r, c <> DDone r) -> dequeue_step c q = (c', q') ->
  exists ns', inv (mkState q' p c' xs rs) ns' /\ (c' = DDone None -> tl ns' = []).
Proof.
  intros Hi Hd Hs. pose proof Hi as [Hp Hh Ho Ha Hf Hpl Hpr Hc Hv Hl]. simpl in *.
  destruct c as [|h|h nx|h nx|h x|h x|h x|x|r]; simpl in *; [..|by destruct (Hd r)].
  - injection Hs as <- <-. exists ns. by split.
  - subst. pose proof (path_first _ _ _ Hp Hh) as Hn. unfold nexts in Hn. rewrite Hn in Hs. exists ns.
    destruct ns as [|a [|b ns]]; simpl in Hs; injection Hs as <- <-; by split.
  - unfold cas_head in Hs. destruct Hc as [E Hc]. rewrite decide_True in Hs by done. injection Hs as <- <-. exists (tl ns).
    split; [by apply move_inv|done].
  - injection Hs as <- <-. exists ns. by split.
  - injection Hs as <- <-. exists ns. split; [by apply clear_inv|done].
  - injection Hs as <- <-. exists ns. split; [by apply reset_inv|done].
  - injection Hs as <- <-. exists ns. split; [|done]. split; simpl; try done.
    intros a. rewrite elem_of_cons. intros [->|Hin]; [done|by apply Hpl].
  - injection Hs as <- <-. exists ns. assert (x ∈ Some <$> xs) as Hin by (rewrite Hv, !elem_of_app; right; left; left).
    apply list_elem_of_fmap in Hin as (y & -> & _). split; [|done]. split; simpl; try done. rewrite Hl. simpl. lia.
Qed.

Lemma spsc_step_inv s s' ns : inv s ns -> step s s' -> exists ns', inv s' ns'.
Proof.
  intros Hi Hs. destruct Hs as [q c xs rs x|q p c xs rs choice p' q' Hs Hd|q p r xs rs|q p c xs rs c' q' Hs Hd].
  - exists ns. destruct Hi as [Hp Hh Ho Ha Hf Hpl Hpr Hc Hv Hl]. split; simpl in *; try done.
    by rewrite fmap_app, Hv, app_nil_r, <- !app_assoc.
  - by eapply producer_inv.
  - exists ns. destruct Hi as [Hp Hh Ho Ha Hf Hpl Hpr Hc Hv Hl]. split; simpl in *; try done.
    rewrite Hv. unfold received. rewrite filter_app, <- app_assoc. f_equal. by destruct r.
  - destruct (consumer_inv _ _ _ _ _ _ _ _ Hi Hd Hs) as (ns' & Hi' & _). by exists ns'.
Qed.

Lemma spsc_reachable_inv s : rtc step start s -> exists ns, inv s ns.
Proof.
  enough (forall a b, rtc step a b -> forall ns, inv a ns -> exists ns', inv b ns') as H.
  { intros Hr. eapply H; [exact Hr|apply inv_start]. }
  induction 1 as [|a b d Hs _ IH]; intros ns Hi; [by exists ns|]. destruct (spsc_step_inv _ _ _ Hi Hs) as [ns' Hi']. by eapply IH.
Qed.


(** ** Calls end *)
Definition enqueue_left (p : enqueue_pc) : nat :=
  match p with
  | EGet _ => 7 | ESet _ _ => 6 | ELoadTail _ => 5 | ELoadNext _ _ => 4 | ELink _ _ => 3 | ESwing _ _ => 2 | ECount => 1
  | EHelp _ _ _ => 6 | EDone => 0
  end.
Definition dequeue_left (c : dequeue_pc) : nat :=
  match c with
  | DLoadHead => 8 | DLoadNext _ => 7 | DMove _ _ => 6 | DValue _ _ => 5 | DClear _ _ => 4 | DReset _ _ => 3 | DPut _ _ => 2
  | DCount _ => 1 | DDone _ => 0
  end.

Lemma enqueue_progress s ns choice : inv s ns -> producer s <> EDone ->
  S (enqueue_left (enqueue_step choice (producer s) (queue s)).1) = enqueue_left (producer s).
Proof.
  intros Hi Hd. pose proof (i_path _ _ Hi) as Hp. pose proof (i_producer _ _ Hi) as Hpr.
  destruct (producer s) as [x|n x|n|n t|n t nx|n t|n t| |]; simpl; try done.
  - by destruct (getItem (queue s) choice).
  - destruct Hpr as [E Hlast]. pose proof (path_last _ _ _ Hp Hlast) as Hn. unfold nexts in Hn. by rewrite Hn.
  - destruct Hpr as [E Hlast]. unfold cas_next. rewrite decide_True by apply (path_last _ _ _ Hp Hlast). done.
Qed.

Lemma dequeue_progress s ns : inv s ns -> (forall r, consumer s <> DDone r) ->
  (dequeue_left (dequeue_step (consumer s) (queue s)).1 < dequeue_left (consumer s))%nat.
Proof.
  intros Hi Hd. pose proof (i_consumer _ _ Hi) as Hc.
  destruct (consumer s) as [|h|h nx|h nx|h x|h x|h x|x|r]; simpl; try lia.
  - destruct (next _); simpl; lia.
  - destruct Hc as [E _]. unfold cas_head. rewrite decide_True by done. simpl. lia.
  - by destruct (Hd r).
Qed.

(** Wait-freedom: in every state one producer and one consumer can reach, each
    step of a call brings it closer to its end, whatever the other side does:
    no compare-and-swap is lost, [Enqueue] takes seven accesses and [Dequeue]
    at most eight. *)
Theorem spsc_wait_free s : rtc step start s ->
  (forall choice, producer s <> EDone ->
    S (enqueue_left (enqueue_step choice (producer s) (queue s)).1) = enqueue_left (producer s)) /\
  ((forall r, consumer s <> DDone r) ->
    (dequeue_left (dequeue_step (consumer s) (queue s)).1 < dequeue_left (consumer s))%nat).
Proof.
  intros (ns & Hi)%spsc_reachable_inv. split; [intros choice|]; [by eapply enqueue_progress|by eapply dequeue_progress].
Qed.

Lemma dequeue_run_S n (c : dequeue_pc) q : (forall r, c <> DDone r) ->
  dequeue_run (S n) c q = let '(c', q') := dequeue_step c q in dequeue_run n c' q'.
Proof. intros Hd. destruct c; try done. by destruct (Hd result). Qed.
Lemma enqueue_run_S n choice (p : enqueue_pc) q : p <> EDone ->
  enqueue_run (S n) choice p q = let '(p', q') := enqueue_step choice p q in enqueue_run n choice p' q'.
Proof. by destruct p. Qed.

Lemma dequeue_ends n q p c xs rs ns : inv (mkState q p c xs rs) ns -> (dequeue_left c <= n)%nat ->
  exists r q' ns', dequeue_run n c q = Some (r, q') /\ inv (mkState q' p (DDone r) xs rs) ns' /\
    (r = None -> c <> DDone None -> tl ns' = []).
Proof.
  assert (forall x q ns m, inv (mkState q p (DDone x) xs rs) ns -> exists r q' ns',
    dequeue_run m (DDone x) q = Some (r, q') /\ inv (mkState q' p (DDone r) xs rs) ns' /\ (r = None -> DDone x <> DDone None -> tl ns' = []))
    as Hdone by (intros x q0 ns0 m Hi; exists x, q0, ns0; split_and!; [by destruct m|done|by intros ->]).
  revert q c ns. induction n as [|n IH]; intros q c ns Hi Hle; [destruct c; simpl in Hle; try lia; by eapply Hdone|].
  destruct (decide (dequeue_left c = 0%nat)) as [E|E]; [destruct c; try done; by eapply Hdone|].
  assert (forall r, c <> DDone r) as Hd by (by intros r ->).
  pose proof (dequeue_progress _ _ Hi Hd) as Hlt. simpl in Hlt. destruct (dequeue_step c q) as [c' q'] eqn:Hs. simpl in Hlt.
  destruct (consumer_inv _ _ _ _ _ _ _ _ Hi Hd Hs) as (ns' & Hi' & Hnil).
  assert (dequeue_run (S n) c q = dequeue_run n c' q') as -> by (by rewrite dequeue_run_S, Hs).
  destruct (decide (dequeue_left c' = 0%nat)) as [E'|E'].
  - destruct c'; try done. exists result, q', ns'. split_and!; [by destruct n|done|]. intros -> _. by apply Hnil.
  - destruct (IH q' c' ns' Hi' ltac:(lia)) as (r & q2 & ns2 & Hr & Hi2 & Hn2). exists r, q2, ns2. split_and!; [done..|].
    intros -> _. apply Hn2; [done|]. by intros ->.
Qed.

Lemma enqueue_ends n choice q p c xs rs ns : inv (mkState q p c xs rs) ns -> enqueue_left p = n ->
  exists q' ns', enqueue_run n choice p q = Some q' /\ inv (mkState q' EDone c xs rs) ns'.
Proof.
  revert q p ns. induction n as [|n IH]; intros q p ns Hi Hle.
  - destruct p; simpl in Hle; try lia. by exists q, ns.
  - assert (p <> EDone) as Hd by (by intros ->).
    pose proof (enqueue_progress _ _ choice Hi Hd) as Hlt. simpl in Hlt. destruct (enqueue_step choice p q) as [p' q'] eqn:Hs. simpl in Hlt.
    destruct (producer_inv _ _ _ _ _ _ _ _ _ Hi Hd Hs) as [ns' Hi'].
    destruct (IH q' p' ns' Hi' ltac:(lia)) as (q2 & ns2 & Hr & Hi2). exists q2, ns2. split; [|done].
    by rewrite enqueue_run_S, Hs.
Qed.

(** ** First in, first out *)

(** Calling [Dequeue] again and again returns [l], then nil. *)
Fixpoint drains (q : Queue) (l : list V) : Prop :=
  match l with
  | [] => exists q', Dequeue q = Some (None, q')
  | x :: l => exists q', Dequeue q = Some (Some x, q') /\ drains q' l
  end.

(** What the consumer was given: the results it has seen, and the last one. *)
Definition got (s : State) : list (option V) := received (results s) ++ inflight (queue s) (consumer s).

Lemma idle_drains l q r xs rs ns : inv (mkState q EDone (DDone r) xs rs) ns -> values q (tl ns) = Some <$> l -> drains q l.
Proof.
  revert q r rs ns. induction l as [|x l IH]; intros q r rs ns Hi Hl.
  all: assert (step (mkState q EDone (DDone r) xs rs) (mkState q EDone DLoadHead xs (rs ++ [r]))) as Hs by constructor.
  all: destruct (spsc_step_inv _ _ _ Hi Hs) as [ns0 Hi0].
  all: destruct (dequeue_ends 8 _ _ _ _ _ _ Hi0 ltac:(simpl; lia)) as (r' & q' & ns' & Hd & Hi' & Hnil).
  all: pose proof (i_values _ _ Hi) as H1; pose proof (i_values _ _ Hi') as H2; simpl in H1, H2; rewrite Hl in H1.
  all: rewrite H1 in H2; unfold received in H2; rewrite filter_app, <- app_assoc in H2; apply app_inv_head in H2.
  all: assert (inflight q (DDone r) = filter is_Some [r]) as E by (by destruct r); simpl in E; rewrite E in H2; apply app_inv_head in H2.
  - exists q'. rewrite !app_nil_r in H2. destruct r' as [x|]; [done|]. exact Hd.
  - simpl in H2. rewrite !app_nil_r in H2. destruct r' as [y|]; simpl in H2.
    + injection H2 as <- H2. exists q'. split; [exact Hd|]. by eapply IH.
    + by rewrite (Hnil eq_refl) in H2.
Qed.


Lemma length_of q p c xs rs ns : inv (mkState q p c xs rs) ns -> uncounted_p p = 0%Z -> uncounted_c c = 0%Z ->
  Length q = (N.of_nat (length (tl ns)) mod two64)%N.
Proof.
  intros Hi Hp Hc. pose proof (i_len _ _ Hi) as Hl. simpl in Hl. unfold Length. rewrite Hl, Hp, Hc.
  unfold two64. rewrite Z.sub_0_r, Z.add_0_r. rewrite <- nat_N_Z. change 18446744073709551616%Z with (Z.of_N 18446744073709551616).
  by rewrite <- N2Z.inj_mod, N2Z.id.
Qed.

(** C15: Between one producer and one consumer, in every interleaving of their
    accesses and whatever the pool hands out, what the consumer has received
    is what was enqueued, in order, nothing twice and nothing left out.
    [Dequeue] finds the queue empty only when at most the value of a call of
    [Enqueue] still under way is outstanding; and whenever both sides are idle,
    the length is the number of values waiting and calling [Dequeue] returns
    exactly these, in order. *)
Theorem spsc_fifo s : rtc step start s -> exists waiting,
  Some <$> calls s = got s ++ waiting /\
  (forall h, consumer s = DLoadNext h -> next (node (queue s) h) = None -> waiting = unlinked (queue s) (producer s)) /\
  (producer s = EDone -> forall r, consumer s = DDone r -> exists l, waiting = Some <$> l /\ drains (queue s) l /\
    Length (queue s) = (N.of_nat (length l) mod two64)%N).
Proof.
  intros (ns & Hi)%spsc_reachable_inv. pose proof (i_values _ _ Hi) as Hv.
  exists (values (queue s) (tl ns) ++ unlinked (queue s) (producer s)). split; [unfold got; by rewrite <- app_assoc|]. split.
  - intros h Hc Hn. pose proof (i_consumer _ _ Hi) as Hh. rewrite Hc in Hh. subst.
    pose proof (path_first _ _ _ (i_path _ _ Hi) (i_head _ _ Hi)) as Hp. unfold nexts in Hp. rewrite Hn in Hp.
    by destruct ns as [|a [|b ns]].
  - intros Hp r Hc. destruct s as [q p c xs rs]. simpl in *. subst. simpl in *. rewrite app_nil_r in *.
    symmetry in Hv. rewrite app_assoc in Hv. symmetry in Hv. apply fmap_app_inv in Hv as (l1 & l2 & _ & Hl & _).
    exists l2. split_and!; [done|by eapply idle_drains|].
    rewrite (length_of _ _ _ _ _ _ Hi eq_refl eq_refl). do 2 f_equal. rewrite <- (length_fmap Some l2), <- Hl. unfold values. by rewrite length_fmap.
Qed.

(** ** The queue as others use it, one call at a time *)
Definition represents (q : Queue) (l : list V) : Prop :=
  exists xs rs ns, inv (mkState q EDone DLoadHead xs rs) ns /\ values q (tl ns) = Some <$> l.

#[local] Arguments enqueue_run : simpl never.
#[local] Arguments dequeue_run : simpl never.
Lemma represents_new : represents NewQueue [].
Proof.
  exists [], [None], [0%nat]. split; [|done]. pose proof inv_start as [Hp Hh Ho Ha Hf Hpl Hpr Hc Hv Hl]. by split.
Qed.

Lemma represents_enqueue q l choice x : represents q l -> exists q', Enqueue q choice (Some x) = Some q' /\ represents q' (l ++ [x]).
Proof.
  intros (xs & rs & ns & Hi & Hl). destruct (spsc_step_inv _ _ _ Hi (step_call _ _ _ _ x)) as [ns1 Hi1].
  destruct (enqueue_ends 7 choice _ _ _ _ _ _ Hi1 eq_refl) as (q' & ns' & Hr & Hi'). exists q'. split; [done|].
  exists (xs ++ [x]), rs, ns'. split; [done|]. pose proof (i_values _ _ Hi) as H1. pose proof (i_values _ _ Hi') as H2. simpl in *.
  rewrite fmap_app, H1, Hl, !app_nil_r, <- app_assoc in H2. apply app_inv_head in H2. by rewrite fmap_app.
Qed.

Lemma represents_dequeue q l : represents q l -> exists q', Dequeue q = Some (hd_error l, q') /\ represents q' (tl l).
Proof.
  intros (xs & rs & ns & Hi & Hl). destruct (dequeue_ends 8 _ _ _ _ _ _ Hi ltac:(simpl; lia)) as (r & q' & ns' & Hd & Hi' & Hnil).
  destruct (spsc_step_inv _ _ _ Hi' (step_recv _ _ _ _ _)) as [ns2 Hi2]. exists q'.
  pose proof (i_values _ _ Hi) as H1. pose proof (i_values _ _ Hi') as H2. pose proof (i_values _ _ Hi2) as H3. simpl in *.
  rewrite !app_nil_r in *. rewrite H1, Hl in *. unfold received in H3. rewrite filter_app, <- app_assoc in H3.
  apply app_inv_head in H2. apply app_inv_head in H3. destruct r as [y|].
  - destruct l as [|x l]; [done|]. injection H2 as <- H2. split; [done|]. exists xs, (rs ++ [Some x]), ns2. split; [done|].
    by injection H3 as H3.
  - simpl in H2. rewrite (Hnil eq_refl) in H2 by done. destruct l; [|done]. split; [done|]. by exists xs, (rs ++ [None]), ns2.
Qed.

Lemma represents_length q l : represents q l -> Length q = (N.of_nat (length l) mod two64)%N /\ (IsEmpty q = true <-> l = []).
Proof.
  intros (xs & rs & ns & Hi & Hl). assert (length (tl ns) = length l) as E.
  { rewrite <- (length_fmap Some l), <- Hl. unfold values. by rewrite length_fmap. }
  rewrite (length_of _ _ _ _ _ _ Hi eq_refl eq_refl), E. split; [done|]. unfold IsEmpty.
  pose proof (i_len _ _ Hi) as Hlen. simpl in Hlen. rewrite Hlen, E, Z.eqb_eq.
  destruct l; simpl; split; (done || lia).
Qed.
End Spec.

(** ** A run of one producer and one consumer *)

(** The producer is interrupted between linking its node and moving the tail
    while the consumer takes the node and starts on the next one. *)
Definition one_each : State := mkState (schedule (replicate 5 (0%nat, None) ++ replicate 9 (1%nat, None))
  [TEnqueue (EGet (Some 7%nat)); TDequeue DLoadHead] NewQueue).2 (ESwing 1 0) (DDone (Some 7%nat)) [7%nat] [None].

Lemma one_each_reachable : rtc step start one_each.
Proof.
  eapply rtc_l; [apply (step_call _ _ _ _ 7%nat)|].
  do 5 (eapply rtc_l; [eapply (step_producer _ _ _ _ _ None); [vm_compute; reflexivity|done]|]).
  eapply rtc_l; [apply step_recv|].
  do 8 (eapply rtc_l; [eapply step_consumer; [vm_compute; reflexivity|done]|]).
  apply rtc_refl.
Qed.

Lemma spsc_wait_free_witness :
  S (enqueue_left (enqueue_step None (producer one_each) (queue one_each)).1) = enqueue_left (producer one_each).
Proof. apply (spsc_wait_free one_each one_each_reachable). done. Defined.

Lemma spsc_fifo_witness : exists waiting, [Some 7%nat] = got one_each ++ waiting /\ got one_each = [Some 7%nat].
Proof.
  destruct (spsc_fifo one_each one_each_reachable) as (waiting & H & _). exists waiting. split; [exact H|vm_compute; reflexivity].
Defined.

(** ** Two producers *)
Section Broken.
Open Scope nat_scope.

(** Threads 0 and 1 enqueue, thread 2 dequeues. Thread 0 links its node and is
    interrupted before it moves the tail; thread 2 takes the node and recycles
    the old dummy, which is still the tail; thread 1 enqueues onto it. *)
Definition steps (i n : nat) (choice : option ptr) : list (nat * option ptr) := replicate n (i, choice).
Definition three (a b : nat) : list thread := [TEnqueue (EGet (Some a)); TEnqueue (EGet (Some b)); TDequeue DLoadHead].
Definition lag : list (nat * option ptr) := steps 0 5 None ++ steps 2 8 None.
Definition lost : list (nat * option ptr) := lag ++ steps 1 7 None ++ steps 0 2 None.

Definition after_lost : Queue := (schedule lost (three 10 20) NewQueue).2.

(** A queue whose head is the end of its chain while the tail is elsewhere. *)
Record detached (q : Queue (V := nat)) : Prop := {
  d_head : next (node q (head q)) = None;
  d_tail : next (node q (tail q)) = None;
  d_apart : head q <> tail q;
  d_alloc : head q < brk q /\ tail q < brk q;
  d_fresh p : brk q <= p -> next (node q p) = None
}.

Lemma detached_enqueue q x : detached q -> exists q', Enqueue q None x = Some q' /\ detached q'.
Proof.
  intros [H1 H2 H3 [H4 H5] H6]. unfold Enqueue. simpl.
  set (q1 := mkQueue (items q) (head q) (tail q) (len q) (pool q) (S (brk q))). change (node (set_v q1 (brk q) x)) with (node (set_v q (brk q) x)).
  rewrite next_set_v, H2. simpl. unfold cas_next. rewrite decide_True by (rewrite next_set_v; exact H2). simpl.
  unfold cas_tail. rewrite decide_True by done. simpl. set (q' := add_len _ 1). exists q'. split; [done|].
  assert (forall p, next (node q' p) = if decide (p = tail q) then Some (brk q) else next (node q p)) as Hnx.
  { intros p. change (node q' p) with (node (set_next (set_v q (brk q) x) (tail q) (Some (brk q))) p).
    rewrite next_set_next. case_decide; [done|]. apply next_set_v. }
  split; simpl.
  - by rewrite Hnx, decide_False.
  - rewrite Hnx, decide_False by lia. by apply H6.
  - lia.
  - lia.
  - intros p Hp. rewrite Hnx, decide_False by lia. apply H6. lia.
Qed.

Lemma detached_enqueues q xs : detached q ->
  exists q', foldl (fun q x => q ≫= fun q => Enqueue q None (Some x)) (Some q) xs = Some q' /\ detached q'.
Proof.
  revert q. induction xs as [|x xs IH]; intros q Hd; [by exists q|]. simpl.
  destruct (detached_enqueue q (Some x) Hd) as (q1 & -> & Hd1). by apply IH.
Qed.

(** Two producers lose messages for good. In this interleaving of two calls of
    [Enqueue] and one of [Dequeue] all three calls return, the second value
    counts towards the length, but [Dequeue] answers nil; and however many
    values [xs] are enqueued after that, one at a time in new nodes, [Dequeue] still answers
    nil: no message reaches the consumer any more. *)
Theorem queue_loses_messages :
  (schedule lost (three 10 20) NewQueue).1 = [TEnqueue EDone; TEnqueue EDone; TDequeue (DDone (Some 10))] /\
  Length after_lost = 1%N /\
  forall xs, exists q, foldl (fun q x => q ≫= fun q => Enqueue q None (Some x)) (Some after_lost) xs = Some q /\
    Dequeue q = Some (None, q).
Proof.
  split; [vm_compute; reflexivity|]. split; [vm_compute; reflexivity|]. intros xs.
  assert (detached after_lost) as Hd.
  { split; try (vm_compute; (reflexivity || discriminate)); [vm_compute; lia|].
    assert (brk after_lost = 3) as -> by (vm_compute; reflexivity).
    assert (items after_lost = list_to_map [(0, mkItem (Some 2) None); (1, mkItem None (Some 10)); (2, mkItem None (Some 20))])
      as Ei by (vm_compute; reflexivity).
    intros p Hp. unfold node. rewrite Ei, not_elem_of_list_to_map_1; [done|].
    simpl. rewrite !elem_of_cons. intros [->|[->|[->|?%elem_of_nil]]]; (done || lia). }
  destruct (detached_enqueues _ xs Hd) as (q & -> & Hq). exists q. split; [done|]. unfold Dequeue, dequeue_accesses.
  do 2 (rewrite dequeue_run_S by done; cbn [dequeue_step]). by rewrite (d_head _ Hq).
Qed.

(** The same interruption, but the pool hands the old dummy to the second
    producer, which links it to itself: its call returns, and from then on
    [Enqueue] spins, however long it runs. *)
Theorem enqueue_spins x fuel choice :
  let q := (schedule (lag ++ steps 1 7 (Some 0)) (three 10 20) NewQueue).2 in
  enqueue_run fuel choice (EGet x) q = None.
Proof.
  intros q.
  assert (forall fuel n (q : Queue (V := nat)) t, tail q = t -> next (node q t) = Some t ->
    enqueue_run fuel choice (ELoadTail n) q = None /\ enqueue_run fuel choice (ELoadNext n t) q = None /\
    enqueue_run fuel choice (EHelp n t t) q = None) as Hspin.
  { clear. induction fuel as [|fuel IH]; intros n q t Ht Hn; [done|]. simpl. rewrite Ht, Hn. unfold cas_tail. rewrite decide_True by done.
    simpl. split_and!; [apply (IH n q t)..|apply (IH n _ t)]; done. }
  destruct fuel as [|fuel]; [done|]. simpl. destruct (getItem q choice) as [n q1] eqn:Hg. destruct fuel as [|fuel]; [done|]. simpl.
  apply getItem_cases in Hg as ((Hit & _ & Htl & _) & _).
  apply (Hspin fuel n (set_v q1 n x) 0); [exact Htl|]. rewrite next_set_v. unfold node. rewrite Hit. vm_compute. reflexivity.
Qed.

(** Even with one producer, the length of a queue whose consumer overtakes it
    is read as the largest 64-bit number. *)
Theorem length_underflows : Length (schedule lag (three 10 20) NewQueue).2 = 18446744073709551615%N.
Proof. vm_compute. reflexivity. Qed.

(** A stale tail alone is enough: a producer that has read the tail and is
    overtaken by another producer and the consumer links its value to a
    recycled node. *)
Definition stale : list (nat * option ptr) := steps 1 4 None ++ steps 0 7 None ++ steps 2 8 None ++ steps 1 3 None.
Theorem stale_tail_loses_message :
  let r := schedule stale (three 10 20) NewQueue in
  r.1 = [TEnqueue EDone; TEnqueue EDone; TDequeue (DDone (Some 10))] /\ Length r.2 = 1%N /\ Dequeue r.2 = Some (None, r.2).
Proof. vm_compute. split_and!; reflexivity. Qed.
End Broken.
End queue_spec.
