(* ===== verification/Stream.v ===== *)
(** * The in-process event stream ([src/eventstream], [src/internal/syncmap])

    A broker with a map of its subscribers and, per topic, a map of the
    subscribers of that topic; a subscriber has a queue of messages and a
    one-slot channel that wakes its consumer. Subscribers and topic maps are
    shared by reference: [heap] holds the subscribers by id, [maps] the topic
    maps by address. The queue is used through the interface [Fifo]. *)

From S2P Require Import Prelude Queue QueueSpec.
From Stdlib Require Import ZArith.
Open Scope string_scope.
Open Scope list_scope.

(** What the stream needs of a queue. [None]: the call does not return. *)
Class Fifo (Q M : Type) := {
  fnew : Q;
  fenqueue : Q -> M -> option Q;
  fdequeue : Q -> option (option M * Q);
  frep : Q -> list M -> Prop;
  frep_new : frep fnew [];
  frep_enqueue q l m : frep q l -> exists q', fenqueue q m = Some q' /\ frep q' (l ++ [m]);
  frep_dequeue q l : frep q l -> exists q', fdequeue q = Some (hd_error l, q') /\ frep q' (tl l)
}.

(** The lock-free queue, whatever its pool hands out; [choose] says what. *)
Definition queue_fifo {M : Type} (choose : queue.Queue (V := M) -> option queue.ptr) : Fifo (queue.Queue (V := M)) M := {|
  fnew := queue.NewQueue;
  fenqueue q m := queue.Enqueue q (choose q) (Some m);
  fdequeue := queue.Dequeue;
  frep := queue_spec.represents;
  frep_new := queue_spec.represents_new;
  frep_enqueue q l m := queue_spec.represents_enqueue q l (choose q) m;
  frep_dequeue := queue_spec.represents_dequeue
|}.

Module eventstream.

Section Stream.
Context {P Q : Type}.

Record Message := mkMessage { topic : string; payload : P }.
Definition NewMessage (topic : string) (payload : P) : Message := mkMessage topic payload.

Context {QF : Fifo Q Message}.

(** ** [subscriber]; its id is its address *)
Record subscriber := mkSubscriber {
  messages : Q;
  stopics : gset string;
  active : bool;
  (** whether the channel [notify] holds its one token *)
  notify : bool
}.

Definition newSubscriber : subscriber := mkSubscriber fnew ∅ true false.
Definition wake (x : subscriber) : subscriber := mkSubscriber (messages x) (stopics x) (active x) true.
Definition set_active (x : subscriber) (b : bool) : subscriber := mkSubscriber (messages x) (stopics x) b (notify x).
Definition set_messages (x : subscriber) (q : Q) : subscriber := mkSubscriber q (stopics x) (active x) (notify x).
Definition Topics (x : subscriber) : list string := elements (stopics x).
Definition Shutdown (x : subscriber) : subscriber := wake (set_active x false).

Definition signal (x : subscriber) (m : Message) : option subscriber :=
  if active x then (fun q => wake (set_messages x q)) <$> fenqueue (messages x) m else Some x.

(** The drain loop; [fuel] bounds the messages it can find. *)
Fixpoint drain (fuel : nat) (x : subscriber) (msgs : list Message) : option (list Message * subscriber) :=
  match fuel with
  | O => None
  | S fuel =>
    if active x then
      '(r, q) ← fdequeue (messages x);
      match r with
      | None => Some (msgs, set_messages x q)
      | Some m => drain fuel (set_messages x q) (msgs ++ [m])
      end
    else Some (msgs, x)
  end.
Definition Iterator (fuel : nat) (x : subscriber) : option (list Message * subscriber) := drain fuel x [].

Definition subscribe (x : subscriber) (t : string) : subscriber := mkSubscriber (messages x) ({[t]} ∪ stopics x) (active x) (notify x).
Definition unsubscribe (x : subscriber) (t : string) : subscriber := mkSubscriber (messages x) (stopics x ∖ {[t]}) (active x) (notify x).

(** ** [EventsStream] *)
Record EventsStream := mkStream {
  (** the broker's own maps: the keys are ids, the values the subscribers *)
  subscribers : gset string;
  topics : gmap string nat;
  (** the store *)
  maps : gmap nat (gset string);
  brk : nat;
  heap : gmap string subscriber
}.
Definition New : EventsStream := mkStream ∅ ∅ ∅ 0 ∅.

Definition with_heap (b : EventsStream) (h : gmap string subscriber) : EventsStream := mkStream (subscribers b) (topics b) (maps b) (brk b) h.
Definition on_sub (b : EventsStream) (id : string) (f : subscriber -> subscriber) : EventsStream := with_heap b (alter f id (heap b)).
Definition set_map (b : EventsStream) (r : nat) (s : gset string) : EventsStream :=
  mkStream (subscribers b) (topics b) (<[r := s]> (maps b)) (brk b) (heap b).
Definition map_at (b : EventsStream) (r : nat) : gset string := default ∅ (maps b !! r).
Definition is_active (b : EventsStream) (id : string) : bool := match heap b !! id with Some x => active x | None => false end.

(** [id] is the [uuid.NewString] of the new subscriber. *)
Definition AddSubscriber (b : EventsStream) (id : string) : EventsStream :=
  mkStream ({[id]} ∪ subscribers b) (topics b) (maps b) (brk b) (<[id := newSubscriber]> (heap b)).

(** [topics.Set(topic, subscribers)] with a new map. *)
Definition set_new_map (b : EventsStream) (id t : string) : EventsStream :=
  mkStream (subscribers b) (<[t := brk b]> (topics b)) (<[brk b := {[id]}]> (maps b)) (S (brk b)) (heap b).

Definition Subscribe (b : EventsStream) (id t : string) : EventsStream :=
  if negb (is_active b id) then b
  else
    let b := on_sub b id (fun x => subscribe x t) in
    match topics b !! t with
    | Some r => if decide (map_at b r = ∅) then set_new_map b id t else set_map b r ({[id]} ∪ map_at b r)
    | None => set_new_map b id t
    end.

Definition Unsubscribe (b : EventsStream) (id t : string) : EventsStream :=
  let b := on_sub b id (fun x => unsubscribe x t) in
  match topics b !! t with
  | Some r => if decide (map_at b r = ∅) then b else set_map b r (map_at b r ∖ {[id]})
  | None => b
  end.

Definition RemoveSubscriber (b : EventsStream) (id : string) : EventsStream :=
  let ts := match heap b !! id with Some x => Topics x | None => [] end in
  let b := foldl (fun b t => Unsubscribe b id t) b ts in
  on_sub (mkStream (subscribers b ∖ {[id]}) (topics b) (maps b) (brk b) (heap b)) id Shutdown.

Definition SubscribersCount (b : EventsStream) (t : string) : nat :=
  match topics b !! t with Some r => size (map_at b r) | None => 0 end.

Definition signal_sub (m : Message) (b : EventsStream) (id : string) : option EventsStream :=
  match heap b !! id with
  | Some x => if active x then (fun x => with_heap b (<[id := x]> (heap b))) <$> signal x m else Some b
  | None => Some b
  end.

(** Ranging over a map visits its entries in some order. *)
Context (range : gset string -> list string).

Fixpoint signal_all (m : Message) (b : EventsStream) (ids : list string) : option EventsStream :=
  match ids with [] => Some b | id :: ids => b ← signal_sub m b id; signal_all m b ids end.

Definition publishToTopic (b : EventsStream) (t : string) (msg : P) : option EventsStream :=
  match topics b !! t with
  | Some r => if decide (map_at b r = ∅) then Some b else signal_all (NewMessage t msg) b (range (map_at b r))
  | None => Some b
  end.

Definition Publish (b : EventsStream) (t : string) (msg : P) : option EventsStream := publishToTopic b t msg.
Fixpoint Broadcast (b : EventsStream) (msg : P) (ts : list string) : option EventsStream :=
  match ts with [] => Some b | t :: ts => b ← publishToTopic b t msg; Broadcast b msg ts end.

Definition Close (b : EventsStream) : EventsStream :=
  let b := foldl (fun b id => if is_active b id then on_sub b id Shutdown else b) b (range (subscribers b)) in
  mkStream ∅ ∅ (maps b) (brk b) (heap b).

(** ** [Subscribe] between other calls, one locked operation at a time *)
Inductive subscribe_pc :=
| BCheck
| BOwn
| BGet
| BLen (r : nat)
| BSetInner (r : nat)
| BSetNew
| BDone.

Definition subscribe_step (id t : string) (pc : subscribe_pc) (b : EventsStream) : subscribe_pc * EventsStream :=
  match pc with
  | BCheck => (if is_active b id then BOwn else BDone, b)
  | BOwn => (BGet, on_sub b id (fun x => subscribe x t))
  | BGet => (match topics b !! t with Some r => BLen r | None => BSetNew end, b)
  | BLen r => (if decide (map_at b r = ∅) then BSetNew else BSetInner r, b)
  | BSetInner r => (BDone, set_map b r ({[id]} ∪ map_at b r))
  | BSetNew => (BDone, set_new_map b id t)
  | BDone => (BDone, b)
  end.

(** ** A subscriber between its publishers and its consumer

    [signal] and [Shutdown] in the accesses they are made of; the consumer is
    the loop of a projection ([nudgeLoop]): wait for the token, leave when shut
    down, else drain. *)
Inductive signal_pc := SCheck (m : Message) | SEnqueue (m : Message) | SNotify | SDone.
Definition signal_step (pc : signal_pc) (x : subscriber) : option (signal_pc * subscriber) :=
  match pc with
  | SCheck m => Some (if active x then SEnqueue m else SDone, x)
  | SEnqueue m => (fun q => (SNotify, set_messages x q)) <$> fenqueue (messages x) m
  | SNotify => Some (SDone, wake x)
  | SDone => Some (SDone, x)
  end.

Inductive shutdown_pc := XStore | XNotify | XDone.
Definition shutdown_step (pc : shutdown_pc) (x : subscriber) : shutdown_pc * subscriber :=
  match pc with
  | XStore => (XNotify, set_active x false)
  | XNotify => (XDone, wake x)
  | XDone => (XDone, x)
  end.

Inductive consumer_pc :=
| CWait
| CWoken
| CDrain (msgs : list Message)
| CDequeue (msgs : list Message)
| CGot (msgs : list Message)
| CReturn.

(** [None]: blocked on [Ready], or a [Dequeue] that does not return. *)
Definition nudge_step (pc : consumer_pc) (x : subscriber) : option (consumer_pc * subscriber) :=
  match pc with
  | CWait => if notify x then Some (CWoken, mkSubscriber (messages x) (stopics x) (active x) false) else None
  | CWoken => Some (if active x then CDrain [] else CReturn, x)
  | CDrain msgs => Some (if active x then CDequeue msgs else CGot msgs, x)
  | CDequeue msgs =>
    '(r, q) ← fdequeue (messages x);
    Some (match r with None => CGot msgs | Some m => CDrain (msgs ++ [m]) end, set_messages x q)
  | CGot _ => Some (CWait, x)
  | CReturn => Some (CReturn, x)
  end.
End Stream.
Arguments Message : clear implicits.
Arguments subscriber : clear implicits.
Arguments EventsStream : clear implicits.
End eventstream.
