(* ===== verification/StreamSpec.v ===== *)
(** * What the event stream promises

    Seen one call at a time the stream is a map of subscribers, each with its
    topics and the messages waiting for it: a message published to a topic is
    appended for every active subscriber of the topic, and draining returns
    what was published since, in order. Seen side by side, a consumer that
    waits on [Ready] is always woken, but two subscriptions to a new topic can
    cancel each other. *)

From S2P Require Import Prelude Queue QueueSpec Stream.
From Stdlib Require Import ZArith Lia.
Open Scope string_scope.
Open Scope list_scope.

Module eventstream_spec.
Import eventstream.

Section Spec.
Context {P Q : Type} {QF : Fifo Q (Message P)}.
Abbreviation EventsStream := (EventsStream Q).
Abbreviation subscriber := (subscriber Q).
Abbreviation Message := (Message P).

(** ** The abstract stream *)
Record asub := mkAsub { a_active : bool; a_topics : gset string; a_pending : list Message }.
Abbreviation spec := (gmap string asub).

Inductive op :=
| OAdd (id : string)
| OSubscribe (id t : string)
| OUnsubscribe (id t : string)
| OPublish (t : string) (m : P)
| OBroadcast (m : P) (ts : list string)
| ODrain (id : string)
| OShutdown (id : string)
| ORemove (id : string)
| OClose.

Definition push (m : Message) (y : asub) : asub :=
  if a_active y then mkAsub true (a_topics y) (a_pending y ++ [m]) else y.
Definition apublish (a : spec) (t : string) (m : P) : spec :=
  (fun y => if decide (t ∈ a_topics y) then push (NewMessage t m) y else y) <$> a.
Definition ashut (y : asub) : asub := mkAsub false (a_topics y) (a_pending y).

Definition astep (a : spec) (o : op) : spec * list Message :=
  match o with
  | OAdd id => (<[id := mkAsub true ∅ []]> a, [])
  | OSubscribe id t => (alter (fun y => if a_active y then mkAsub true ({[t]} ∪ a_topics y) (a_pending y) else y) id a, [])
  | OUnsubscribe id t => (alter (fun y => mkAsub (a_active y) (a_topics y ∖ {[t]}) (a_pending y)) id a, [])
  | OPublish t m => (apublish a t m, [])
  | OBroadcast m ts => (foldl (fun a t => apublish a t m) a ts, [])
  | ODrain id =>
    match a !! id with
    | Some y => if a_active y then (<[id := mkAsub true (a_topics y) []]> a, a_pending y) else (a, [])
    | None => (a, [])
    end
  | OShutdown id => (alter ashut id a, [])
  | ORemove id => (alter (fun y => mkAsub false ∅ (a_pending y)) id a, [])
  | OClose => (ashut <$> a, [])
  end.

(** ** The stream's operations *)
Context (range : gset string -> list string).
Hypothesis range_ok : forall s, range s ≡ₚ elements s.

Definition step (fuel : nat) (b : EventsStream) (o : op) : option (EventsStream * list Message) :=
  match o with
  | OAdd id => Some (AddSubscriber b id, [])
  | OSubscribe id t => Some (Subscribe b id t, [])
  | OUnsubscribe id t => Some (Unsubscribe b id t, [])
  | OPublish t m => (fun b => (b, [])) <$> Publish range b t m
  | OBroadcast m ts => (fun b => (b, [])) <$> Broadcast range b m ts
  | ODrain id =>
    match heap b !! id with
    | Some x => '(msgs, x) ← Iterator fuel x; Some (with_heap b (<[id := x]> (heap b)), msgs)
    | None => Some (b, [])
    end
  | OShutdown id => Some (on_sub b id Shutdown, [])
  | ORemove id => Some (RemoveSubscriber b id, [])
  | OClose => Some (Close range b, [])
  end.

(** ** The refinement *)
Definition members (b : EventsStream) (t : string) : gset string :=
  match topics b !! t with Some r => map_at b r | None => ∅ end.

Definition sub_rel (x : subscriber) (y : asub) : Prop :=
  active x = a_active y /\ stopics x = a_topics y /\ frep (messages x) (a_pending y).

Record R (b : EventsStream) (a : spec) : Prop := {
  r_subs id : option_Forall2 sub_rel (heap b !! id) (a !! id);
  r_members id x t : heap b !! id = Some x -> active x = true -> (id ∈ members b t <-> t ∈ stopics x);
  r_known id t : id ∈ members b t -> is_Some (heap b !! id);
  r_maps t r : topics b !! t = Some r -> (r < brk b)%nat /\ forall t', topics b !! t' = Some r -> t' = t;
  r_registered id x : heap b !! id = Some x -> active x = true -> id ∈ subscribers b
}.

Lemma R_new : R New ∅.
Proof.
  split; simpl; try done.
  intros id. rewrite !lookup_empty. constructor.
Qed.

(** *** Membership *)
Lemma members_set_map b t r s t' : topics b !! t = Some r -> (forall t', topics b !! t' = Some r -> t' = t) ->
  members (set_map b r s) t' = if decide (t' = t) then s else members b t'.
Proof.
  intros Hr Hinj. unfold members, map_at. simpl. case_decide as E.
  - subst. by rewrite Hr, lookup_insert_eq.
  - destruct (topics b !! t') as [r'|] eqn:E'; [|done]. rewrite lookup_insert_ne; [done|]. intros ->. by apply E, Hinj.
Qed.

Lemma members_new_map b id t t' : (forall t r, topics b !! t = Some r -> (r < brk b)%nat) ->
  members (set_new_map b id t) t' = if decide (t' = t) then {[id]} else members b t'.
Proof.
  intros Hlt. unfold members, map_at. simpl. case_decide as E.
  - subst. by rewrite !lookup_insert_eq.
  - rewrite lookup_insert_ne by done. destruct (topics b !! t') as [r'|] eqn:E'; [|done].
    rewrite lookup_insert_ne; [done|]. specialize (Hlt _ _ E'). lia.
Qed.

(** The topic maps: allocated, and each under one topic. *)
Definition maps_ok (b : EventsStream) : Prop :=
  forall t r, topics b !! t = Some r -> (r < brk b)%nat /\ forall t', topics b !! t' = Some r -> t' = t.

Lemma Subscribe_facts b id t : maps_ok b -> is_active b id = true -> let b' := Subscribe b id t in
  maps_ok b' /\ subscribers b' = subscribers b /\ heap b' = alter (fun x => subscribe x t) id (heap b) /\
  forall t', members b' t' = if decide (t' = t) then {[id]} ∪ members b t else members b t'.
Proof.
  intros Hm Ha. unfold Subscribe. rewrite Ha. simpl. set (b1 := on_sub b id _).
  change (topics b) with (topics b1). assert (maps_ok b1) as Hm1 by exact Hm. assert (forall t, members b t = members b1 t) as Hb1 by done.
  assert (members b1 t = ∅ -> maps_ok (set_new_map b1 id t) /\
    forall t', members (set_new_map b1 id t) t' = if decide (t' = t) then {[id]} ∪ members b t else members b t') as Hnew.
  { intros He. split.
    - intros t1 r1. simpl. destruct (decide (t1 = t)) as [->|Hne].
      + rewrite lookup_insert_eq. intros [= <-]. split; [lia|]. intros t' Ht'. destruct (decide (t' = t)) as [|Hn]; [done|].
        rewrite lookup_insert_ne in Ht' by done. apply Hm1 in Ht' as [Ht' _]. simpl in Ht'. lia.
      + rewrite lookup_insert_ne by done. intros Hr. destruct (Hm1 _ _ Hr) as [Hlt Hinj]. split; [by apply Nat.lt_lt_succ_r|].
        intros t'. destruct (decide (t' = t)) as [->|Hn].
        * rewrite lookup_insert_eq. intros [= <-]. by apply Nat.lt_irrefl in Hlt.
        * rewrite lookup_insert_ne by done. apply Hinj.
    - intros t'. rewrite members_new_map by (intros t0 r0 Hr; apply (Hm1 _ _ Hr)). rewrite !Hb1, He. case_decide; [|done].
      by rewrite union_empty_r_L. }
  destruct (topics b1 !! t) as [r|] eqn:Hr; [case_decide as Hd|].
  - assert (members b1 t = ∅) as He by (unfold members; by rewrite Hr). destruct (Hnew He). done.
  - split_and!; [exact Hm1|done..|]. intros t'. rewrite (members_set_map b1 t r) by (done || by apply Hm1). case_decide; [|done].
    rewrite Hb1. unfold members. by rewrite Hr.
  - assert (members b1 t = ∅) as He by (unfold members; by rewrite Hr). destruct (Hnew He). done.
Qed.

Lemma Unsubscribe_facts b id t : maps_ok b -> let b' := Unsubscribe b id t in
  maps_ok b' /\ subscribers b' = subscribers b /\ heap b' = alter (fun x => unsubscribe x t) id (heap b) /\
  forall t', members b' t' = if decide (t' = t) then members b t ∖ {[id]} else members b t'.
Proof.
  intros Hm. unfold Unsubscribe. simpl. set (b1 := on_sub b id _).
  change (topics b) with (topics b1). assert (maps_ok b1) as Hm1 by exact Hm. assert (forall t, members b t = members b1 t) as Hb1 by done.
  assert (members b1 t = ∅ -> forall t', members b1 t' = if decide (t' = t) then members b t ∖ {[id]} else members b t') as Hnone.
  { intros He t'. rewrite !Hb1. case_decide; [subst; rewrite He; by rewrite empty_difference_L|done]. }
  destruct (topics b1 !! t) as [r|] eqn:Hr; [case_decide as Hd|].
  - split_and!; try done. apply Hnone. unfold members. by rewrite Hr.
  - split_and!; [exact Hm1|done..|]. intros t'. rewrite (members_set_map b1 t r) by (done || by apply Hm1). case_decide; [|done].
    rewrite Hb1. unfold members. by rewrite Hr.
  - split_and!; try done. apply Hnone. unfold members. by rewrite Hr.
Qed.

Lemma unsubscribe_all id ts : forall b, maps_ok b -> let b' := foldl (fun b t => Unsubscribe b id t) b ts in
  maps_ok b' /\ subscribers b' = subscribers b /\
  (forall id', id' <> id -> heap b' !! id' = heap b !! id') /\
  (forall x, heap b !! id = Some x -> heap b' !! id = Some (mkSubscriber (messages x) (stopics x ∖ list_to_set ts) (active x) (notify x))) /\
  (heap b !! id = None -> heap b' !! id = None) /\
  forall t', members b' t' = if decide (t' ∈ ts) then members b t' ∖ {[id]} else members b t'.
Proof.
  induction ts as [|t ts IH]; intros b Hm; simpl.
  - split_and!; try done. intros [q s a n] ->. simpl. by rewrite difference_empty_L.
  - destruct (Unsubscribe_facts b id t Hm) as (Hm1 & Hs1 & Hh1 & Hmem1). destruct (IH _ Hm1) as (Hm2 & Hs2 & Ho & Hx & Hn & Hmem2).
    split_and!; [done|congruence|..].
    + intros id' Hne. rewrite Ho, Hh1 by done. by rewrite lookup_alter_ne.
    + intros x Hx0. rewrite (Hx (unsubscribe x t)); [|rewrite Hh1, lookup_alter_eq, Hx0; done]. simpl. do 2 f_equal. set_solver.
    + intros Hx0. apply Hn. by rewrite Hh1, lookup_alter_eq, Hx0.
    + intros t'. rewrite Hmem2, !Hmem1. repeat case_decide; set_solver.
Qed.

(** *** One operation *)
Lemma alter_Some {A} (m : gmap string A) f i x : m !! i = Some x -> alter f i m = <[i := f x]> m.
Proof.
  intros Hx. apply map_eq. intros j. destruct (decide (j = i)) as [->|Hne].
  - by rewrite lookup_alter_eq, lookup_insert_eq, Hx.
  - by rewrite lookup_alter_ne, lookup_insert_ne.
Qed.
Lemma alter_None {A} (m : gmap string A) f i : m !! i = None -> alter f i m = m.
Proof.
  intros Hx. apply map_eq. intros j. destruct (decide (j = i)) as [->|Hne].
  - by rewrite lookup_alter_eq, Hx.
  - by rewrite lookup_alter_ne.
Qed.

Lemma R_lookup b a id : R b a -> (heap b !! id = None /\ a !! id = None) \/
  exists x y, heap b !! id = Some x /\ a !! id = Some y /\ sub_rel x y.
Proof. intros Hr. destruct (r_subs _ _ Hr id) as [x y Hxy|]; [right; by exists x, y|by left]. Qed.

(** One subscriber changes; it does not become active, and keeps its topics
    while it is active. *)
Lemma R_sub b a id x x' y' : R b a -> heap b !! id = Some x -> sub_rel x' y' ->
  (active x' = true -> active x = true /\ stopics x' = stopics x) -> R (with_heap b (<[id := x']> (heap b))) (<[id := y']> a).
Proof.
  intros [H1 H2 H3 H4 H5] Hx Hxy Hact. split; simpl; [..|exact H4|].
  - intros id'. destruct (decide (id' = id)) as [->|Hne]; [rewrite !lookup_insert_eq; by constructor|by rewrite !lookup_insert_ne].
  - intros id' z t. destruct (decide (id' = id)) as [->|Hne].
    + rewrite lookup_insert_eq. intros [= <-] Ha. destruct (Hact Ha) as [Hax ->]. by apply H2.
    + rewrite lookup_insert_ne by done. apply H2.
  - intros id' t Hin. destruct (decide (id' = id)) as [->|Hne]; [rewrite lookup_insert_eq; eauto|].
    rewrite lookup_insert_ne by done. by eapply H3.
  - intros id' z. destruct (decide (id' = id)) as [->|Hne].
    + rewrite lookup_insert_eq. intros [= <-] Ha. by eapply H5, Hact.
    + rewrite lookup_insert_ne by done. apply H5.
Qed.

Lemma R_alter b a id f g : R b a -> (forall x y, sub_rel x y -> sub_rel (f x) (g y)) ->
  (forall x, active (f x) = true -> active x = true /\ stopics (f x) = stopics x) -> R (on_sub b id f) (alter g id a).
Proof.
  intros Hr Hfg Hact. unfold on_sub. destruct (R_lookup _ _ id Hr) as [[H1 H2]|(x & y & H1 & H2 & Hxy)].
  - rewrite !alter_None by done. by destruct b.
  - rewrite (alter_Some _ _ _ _ H1), (alter_Some _ _ _ _ H2). eapply R_sub; eauto.
Qed.

Lemma R_add b a id : R b a -> heap b !! id = None -> R (AddSubscriber b id) (<[id := mkAsub true ∅ []]> a).
Proof.
  intros [H1 H2 H3 H4 H5] Hn. split; simpl; [..|exact H4|].
  - intros id'. destruct (decide (id' = id)) as [->|Hne]; [rewrite !lookup_insert_eq|by rewrite !lookup_insert_ne].
    constructor. split_and!; [done..|]. apply frep_new.
  - intros id' z t. change (members (AddSubscriber b id) t) with (members b t). destruct (decide (id' = id)) as [->|Hne].
    + rewrite lookup_insert_eq. intros [= <-] _. simpl. split; [|by intros ?%elem_of_empty].
      intros Hin%H3. rewrite Hn in Hin. by destruct Hin.
    + rewrite lookup_insert_ne by done. apply H2.
  - intros id' t Hin. destruct (decide (id' = id)) as [->|Hne]; [rewrite lookup_insert_eq; eauto|].
    rewrite lookup_insert_ne by done. by eapply H3.
  - intros id' z. destruct (decide (id' = id)) as [->|Hne]; [set_solver|]. rewrite lookup_insert_ne by done. intros Hz Ha.
    specialize (H5 _ _ Hz Ha). set_solver.
Qed.

Lemma R_subscribe b a id t : R b a -> R (Subscribe b id t) (astep a (OSubscribe id t)).1.
Proof.
  intros Hr. destruct (is_active b id) eqn:Ha.
  2: { unfold Subscribe. rewrite Ha. simpl. unfold is_active in Ha. destruct (R_lookup _ _ id Hr) as [[H1 H2]|(x & y & H1 & H2 & Hxy)].
    - by rewrite alter_None.
    - rewrite (alter_Some _ _ _ _ H2). destruct Hxy as (E & _). rewrite H1 in Ha. rewrite <- E, Ha, insert_id by done. done. }
  destruct (Subscribe_facts b id t (r_maps _ _ Hr) Ha) as (Hm & Hs & Hh & Hmem).
  unfold is_active in Ha. destruct (R_lookup _ _ id Hr) as [[H1 H2]|(x & y & H1 & H2 & Hxy)]; [by rewrite H1 in Ha|]. rewrite H1 in Ha.
  rewrite (alter_Some _ _ _ _ H1) in Hh. simpl. rewrite (alter_Some _ _ _ _ H2). destruct Hr as [R1 R2 R3 R4 R5].
  destruct Hxy as (E1 & E2 & E3). split; rewrite ?Hh, ?Hs; [..|exact Hm|].
  - intros id'. destruct (decide (id' = id)) as [->|Hne]; [rewrite !lookup_insert_eq|by rewrite !lookup_insert_ne].
    constructor. rewrite <- E1, Ha. split_and!; simpl; [done|by rewrite E2|done].
  - intros id' z t'. rewrite Hmem. destruct (decide (id' = id)) as [->|Hne].
    + rewrite lookup_insert_eq. intros [= <-] _. simpl. specialize (R2 _ _ t' H1 Ha). case_decide; set_solver.
    + rewrite lookup_insert_ne by done. intros Hz Haz. specialize (R2 _ _ t' Hz Haz). case_decide; set_solver.
  - intros id' t'. rewrite Hmem. destruct (decide (id' = id)) as [->|Hne]; [rewrite lookup_insert_eq; eauto|].
    rewrite lookup_insert_ne by done. intros Hin. apply (R3 id' t'). case_decide; set_solver.
  - intros id' z. destruct (decide (id' = id)) as [->|Hne]; [intros _ _; by eapply R5|]. rewrite lookup_insert_ne by done. apply R5.
Qed.

Lemma R_unsubscribe b a id t : R b a -> R (Unsubscribe b id t) (astep a (OUnsubscribe id t)).1.
Proof.
  intros Hr. destruct (Unsubscribe_facts b id t (r_maps _ _ Hr)) as (Hm & Hs & Hh & Hmem).
  pose proof Hr as [R1 R2 R3 R4 R5]. simpl. split; rewrite ?Hh, ?Hs; [..|exact Hm|].
  - intros id'. destruct (decide (id' = id)) as [->|Hne]; [rewrite !lookup_alter_eq|by rewrite !lookup_alter_ne].
    destruct (R1 id) as [x y (E1 & E2 & E3)|]; constructor. split_and!; simpl; [done|by rewrite E2|done].
  - intros id' z t'. rewrite Hmem. destruct (decide (id' = id)) as [->|Hne].
    + rewrite lookup_alter_eq. intros (x & Hx & ->)%fmap_Some Hax. simpl in *. specialize (R2 _ _ t' Hx Hax). case_decide; set_solver.
    + rewrite lookup_alter_ne by done. intros Hz Haz. specialize (R2 _ _ t' Hz Haz). case_decide; set_solver.
  - intros id' t'. rewrite Hmem. intros Hin. assert (is_Some (heap b !! id')) as Hsome by (apply (R3 id' t'); case_decide; set_solver).
    destruct (decide (id' = id)) as [->|Hne]; [rewrite lookup_alter_eq; by apply fmap_is_Some|by rewrite lookup_alter_ne].
  - intros id' z. destruct (decide (id' = id)) as [->|Hne]; [|rewrite lookup_alter_ne by done; apply R5].
    rewrite lookup_alter_eq. intros (x & Hx & ->)%fmap_Some Hax. by eapply R5.
Qed.

(** *** Publishing *)
Lemma R_signal m ids : forall b a, R b a -> exists b', signal_all m b ids = Some b' /\
  R b' (foldl (fun a id => alter (push m) id a) a ids).
Proof.
  induction ids as [|id ids IH]; intros b a Hr; simpl; [by exists b|].
  unfold signal_sub. destruct (R_lookup _ _ id Hr) as [[H1 H2]|(x & y & H1 & H2 & E1 & E2 & E3)]; rewrite H1.
  - rewrite alter_None by done. by apply IH.
  - rewrite (alter_Some _ _ _ _ H2). unfold signal, push. rewrite <- E1. destruct (active x) eqn:Ha.
    + destruct (frep_enqueue _ _ m E3) as (q' & -> & Hq). simpl. apply IH. eapply R_sub; [done|exact H1| |done]. split_and!; [|done..].
      by rewrite <- Ha.
    + simpl. rewrite insert_id by done. by apply IH.
Qed.

Lemma push_all m ids id (a : spec) : NoDup ids ->
  foldl (fun a id => alter (push m) id a) a ids !! id = if decide (id ∈ ids) then push m <$> a !! id else a !! id.
Proof.
  revert a. induction ids as [|i ids IH]; intros a Hn; simpl; [done|].
  apply NoDup_cons in Hn as [Hi Hn]. rewrite IH by done. destruct (decide (id = i)) as [->|Hne].
  - rewrite decide_False by done. rewrite decide_True by left. by rewrite lookup_alter_eq.
  - rewrite lookup_alter_ne by done. apply decide_ext. rewrite elem_of_cons. tauto.
Qed.

Lemma R_publish b a t m : R b a -> exists b', publishToTopic range b t m = Some b' /\ R b' (apublish a t m).
Proof.
  intros Hr. assert (exists b', signal_all (NewMessage t m) b (range (members b t)) = Some b' /\ R b' (apublish a t m)) as Hall.
  { destruct (R_signal (NewMessage t m) (range (members b t)) b a Hr) as (b' & Hs & Hr'). exists b'. split; [done|].
    replace (apublish a t m) with (foldl (fun a id => alter (push (NewMessage t m)) id a) a (range (members b t))); [done|].
    apply map_eq. intros id. rewrite push_all by (rewrite range_ok; apply NoDup_elements).
    unfold apublish. rewrite lookup_fmap. assert (id ∈ range (members b t) <-> id ∈ members b t) as Hin by (by rewrite range_ok, elem_of_elements).
    destruct (R_lookup _ _ id Hr) as [[H1 H2]|(x & y & H1 & H2 & E1 & E2 & E3)]; rewrite H2; simpl; [by case_decide|].
    destruct (active x) eqn:Ha.
    - rewrite (r_members _ _ Hr id x t H1 Ha), E2 in Hin. repeat case_decide; tauto.
    - unfold push. rewrite <- E1. by repeat case_decide. }
  unfold publishToTopic. unfold members in Hall. destruct (topics b !! t) as [r|]; [case_decide as E; [|done]|].
  1: rewrite E in Hall. all: destruct Hall as (b' & Hs & Hr').
  all: assert (range ∅ = []) as He by (apply Permutation_nil; symmetry; rewrite range_ok; by rewrite elements_empty).
  all: rewrite He in Hs; simpl in Hs; injection Hs as <-; by exists b.
Qed.

Lemma R_broadcast m ts : forall b a, R b a -> exists b', Broadcast range b m ts = Some b' /\ R b' (foldl (fun a t => apublish a t m) a ts).
Proof.
  induction ts as [|t ts IH]; intros b a Hr; simpl; [by exists b|]. destruct (R_publish b a t m Hr) as (b1 & -> & Hr1). by apply IH.
Qed.

(** *** Draining and leaving *)
Lemma drain_all l : forall fuel x acc, active x = true -> frep (messages x) l -> (length l < fuel)%nat ->
  exists q, drain fuel x acc = Some (acc ++ l, set_messages x q) /\ frep q [].
Proof.
  induction l as [|m l IH]; intros fuel x acc Ha Hq Hf; (destruct fuel as [|fuel]; [simpl in Hf; lia|]); simpl; rewrite Ha.
  - destruct (frep_dequeue _ _ Hq) as (q & -> & Hq'). exists q. by rewrite app_nil_r.
  - destruct (frep_dequeue _ _ Hq) as (q & -> & Hq'). simpl in *. destruct (IH fuel (set_messages x q) (acc ++ [m]) Ha Hq' ltac:(lia)) as (q2 & Hd & H2).
    exists q2. split; [|done]. rewrite Hd. by rewrite <- app_assoc.
Qed.

Lemma R_remove b a id : R b a -> R (RemoveSubscriber b id) (alter (fun y => mkAsub false ∅ (a_pending y)) id a).
Proof.
  intros Hr. unfold RemoveSubscriber. set (ts := match heap b !! id with Some x => Topics x | None => [] end).
  destruct (unsubscribe_all id ts b (r_maps _ _ Hr)) as (Hm & Hs & Ho & Hx & Hn & Hmem). set (b1 := foldl _ b ts) in *.
  pose proof Hr as [R1 R2 R3 R4 R5]. split; simpl; [..|exact Hm|].
  - intros id'. destruct (decide (id' = id)) as [->|Hne]; [|rewrite !lookup_alter_ne, Ho by done; apply R1]. rewrite !lookup_alter_eq.
    destruct (R_lookup _ _ id Hr) as [[H1 H2]|(x & y & H1 & H2 & E1 & E2 & E3)].
    + rewrite (Hn H1), H2. constructor.
    + rewrite (Hx _ H1), H2. constructor. split_and!; simpl; [done| |done]. unfold ts. rewrite H1. unfold Topics.
      rewrite list_to_set_elements_L. by apply difference_diag_L.
  - intros id' z t'. change (members _ t') with (members b1 t'). rewrite Hmem. destruct (decide (id' = id)) as [->|Hne].
    + rewrite lookup_alter_eq. by intros (x & _ & ->)%fmap_Some Hax.
    + rewrite lookup_alter_ne, Ho by done. intros Hz Haz. specialize (R2 _ _ t' Hz Haz). case_decide; set_solver.
  - intros id' t'. change (members _ t') with (members b1 t'). rewrite Hmem. intros Hin.
    assert (is_Some (heap b !! id')) as [x Hx0] by (apply (R3 id' t'); case_decide; set_solver).
    destruct (decide (id' = id)) as [->|Hne]; [rewrite lookup_alter_eq, (Hx _ Hx0); by eexists|rewrite lookup_alter_ne, Ho by done; by eexists].
  - intros id' z. destruct (decide (id' = id)) as [->|Hne]; [rewrite lookup_alter_eq; by intros (x & _ & ->)%fmap_Some Hax|].
    rewrite lookup_alter_ne, Ho by done. intros Hz Haz. rewrite Hs. specialize (R5 _ _ Hz Haz). set_solver.
Qed.

Definition shut (x : subscriber) : subscriber := if active x then Shutdown x else x.
Lemma close_all ids id : forall b : EventsStream, let b' := foldl (fun b id => if is_active b id then on_sub b id Shutdown else b) b ids in
  heap b' !! id = if decide (id ∈ ids) then shut <$> heap b !! id else heap b !! id.
Proof.
  induction ids as [|i ids IH]; intros b; simpl; [done|]. rewrite IH.
  set (b1 := if is_active b i then _ else b).
  assert (forall j, heap b1 !! j = if decide (j = i) then shut <$> heap b !! j else heap b !! j) as Hb1.
  { intros j. unfold b1, is_active. destruct (decide (j = i)) as [->|E].
    - destruct (heap b !! i) as [x|] eqn:Hx; [|done]. unfold shut. simpl. destruct (active x) eqn:Ha; simpl; [by rewrite lookup_alter_eq, Hx|done].
    - destruct (heap b !! i) as [x|] eqn:Hx; [|done]. destruct (active x); [|done]. simpl. by rewrite lookup_alter_ne. }
  assert (forall x, shut (shut x) = shut x) as Hidem by (intros [q s [] n]; done).
  rewrite Hb1. destruct (decide (id = i)) as [->|Hne].
  - rewrite (decide_True (P := i ∈ i :: ids)) by left. case_decide; [|done]. destruct (heap b !! i); [simpl; by rewrite Hidem|done].
  - apply decide_ext. rewrite elem_of_cons. tauto.
Qed.

Lemma R_close b a : R b a -> R (Close range b) (ashut <$> a).
Proof.
  intros Hr. unfold Close. set (b1 := foldl _ b _).
  assert (forall id, option_Forall2 sub_rel (heap b1 !! id) (ashut <$> a !! id)) as Hsubs.
  { intros id. unfold b1. rewrite close_all. destruct (R_lookup _ _ id Hr) as [[H1 H2]|(x & y & H1 & H2 & E1 & E2 & E3)]; rewrite H1, H2.
    - case_decide; constructor.
    - assert (sub_rel (shut x) (ashut y)) as Hrel by (unfold shut; split_and!; destruct (active x) eqn:Ha; simpl; congruence).
      case_decide as Hin; [by constructor|]. destruct (active x) eqn:Ha.
      + exfalso. apply Hin. rewrite range_ok, elem_of_elements. by eapply (r_registered _ _ Hr).
      + constructor. unfold shut in Hrel. by rewrite Ha in Hrel. }
  split; simpl; try done.
  - intros id. rewrite lookup_fmap. apply Hsubs.
  - intros id x t Hx Ha. specialize (Hsubs id). rewrite Hx in Hsubs. destruct (a !! id); inversion Hsubs as [? ? (E & _)|]; subst.
    simpl in E. congruence.
  - intros id x Hx Ha. specialize (Hsubs id). rewrite Hx in Hsubs. destruct (a !! id); inversion Hsubs as [? ? (E & _)|]; subst.
    simpl in E. congruence.
Qed.

(** *** Sequences of operations *)

(** How many messages an operation can add to one subscriber. *)
Definition weight (o : op) : nat := match o with OPublish _ _ => 1 | OBroadcast _ ts => length ts | _ => 0 end.
Definition pending_le (n : nat) (a : spec) : Prop := map_Forall (fun _ y => (length (a_pending y) <= n)%nat) a.

Lemma apublish_le a t m n : pending_le n a -> pending_le (S n) (apublish a t m).
Proof.
  intros Hp. apply map_Forall_fmap. eapply map_Forall_impl; [exact Hp|]. intros id y Hy. simpl in *. unfold push.
  case_decide; [|lia]. destruct (a_active y); simpl; [rewrite length_app; simpl|]; lia.
Qed.

Lemma pending_mono n n' a : (n <= n')%nat -> pending_le n a -> pending_le n' a.
Proof. intros Hle Hp. eapply map_Forall_impl; [exact Hp|]. intros id y Hy. simpl in *. lia. Qed.

Lemma alter_le n (a : spec) id f : (forall y, a_pending (f y) = a_pending y) -> pending_le n a -> pending_le n (alter f id a).
Proof.
  intros Hf Hp j y. destruct (decide (j = id)) as [->|Hne].
  - rewrite lookup_alter_eq. intros (z & Hz & ->)%fmap_Some. rewrite Hf. exact (Hp _ _ Hz).
  - rewrite lookup_alter_ne by done. apply Hp.
Qed.

Lemma astep_le a o n : pending_le n a -> pending_le (n + weight o) (astep a o).1.
Proof.
  intros Hp. assert (forall a', pending_le n a' -> pending_le (n + weight o) a') as Hmono by (intros a'; apply pending_mono; lia).
  destruct o; cbn [astep fst weight] in *.
  - apply Hmono, map_Forall_insert_2; [simpl; lia|done].
  - apply Hmono, alter_le; [|done]. intros y. by destruct (a_active y).
  - by apply Hmono, alter_le.
  - rewrite Nat.add_1_r. by apply apublish_le.
  - clear Hmono. revert n a Hp. induction ts as [|t ts IH]; intros n a Hp; [by rewrite Nat.add_0_r|]. simpl.
    rewrite <- Nat.add_succ_comm. by apply IH, apublish_le.
  - destruct (a !! id) as [y|]; [|by apply Hmono]. destruct (a_active y); [|by apply Hmono].
    apply Hmono, map_Forall_insert_2; [simpl; lia|done].
  - by apply Hmono, alter_le.
  - by apply Hmono, alter_le.
  - apply Hmono, map_Forall_fmap. eapply map_Forall_impl; [exact Hp|]. done.
Qed.

Lemma step_refines b a o fuel n : R b a -> pending_le n a -> (n < fuel)%nat ->
  (forall id, o = OAdd id -> a !! id = None) ->
  exists b', step fuel b o = Some (b', (astep a o).2) /\ R b' (astep a o).1.
Proof.
  intros Hr Hp Hf Hadd. destruct o as [id|id t|id t|t m|m ts|id|id|id|]; cbn [step].
  - eexists. split; [done|]. apply R_add; [done|]. specialize (Hadd id eq_refl). destruct (R_lookup _ _ id Hr) as [[? _]|(x & y & _ & H2 & _)]; congruence.
  - eexists. split; [done|]. by apply R_subscribe.
  - eexists. split; [done|]. by apply R_unsubscribe.
  - unfold Publish. destruct (R_publish b a t m Hr) as (b' & -> & Hr'). by exists b'.
  - destruct (R_broadcast m ts b a Hr) as (b' & -> & Hr'). by exists b'.
  - simpl. destruct (R_lookup _ _ id Hr) as [[H1 H2]|(x & y & H1 & H2 & E1 & E2 & E3)]; rewrite H1, H2; [by exists b|].
    unfold Iterator. rewrite <- E1. destruct (active x) eqn:Ha.
    + pose proof (Hp _ _ H2) as Hlen. simpl in Hlen. destruct (drain_all (a_pending y) fuel x [] Ha E3 ltac:(lia)) as (q & -> & Hq).
      simpl. eexists. split; [done|]. eapply R_sub; [done|exact H1| |done]. by split_and!.
    + destruct fuel as [|fuel]; [lia|]. simpl. rewrite Ha. simpl. rewrite insert_id by done. exists b. by destruct b.
  - eexists. split; [done|]. apply R_alter; [done| |done]. intros x y (E1 & E2 & E3). by split_and!.
  - eexists. split; [done|]. by apply R_remove.
  - eexists. split; [done|]. by apply R_close.
Qed.

Fixpoint run (fuel : nat) (b : EventsStream) (ops : list op) : option (EventsStream * list (list Message)) :=
  match ops with
  | [] => Some (b, [])
  | o :: ops => '(b, out) ← step fuel b o; '(b, outs) ← run fuel b ops; Some (b, out :: outs)
  end.
Fixpoint arun (a : spec) (ops : list op) : spec * list (list Message) :=
  match ops with
  | [] => (a, [])
  | o :: ops => let '(a', out) := astep a o in let '(a', outs) := arun a' ops in (a', out :: outs)
  end.
Definition added (ops : list op) : list string := omap (fun o => match o with OAdd id => Some id | _ => None end) ops.

Lemma astep_absent a o id : o <> OAdd id -> a !! id = None -> (astep a o).1 !! id = None.
Proof.
  intros Ho Hn. destruct o as [i|i t|i t|t m|m ts|i|i|i|]; cbn [astep fst].
  - rewrite lookup_insert_ne; [done|congruence].
  - rewrite lookup_alter_None. done.
  - rewrite lookup_alter_None. done.
  - unfold apublish. by rewrite lookup_fmap, Hn.
  - clear Ho. revert a Hn. induction ts as [|t ts IH]; intros a Hn; [done|]. apply IH. unfold apublish. by rewrite lookup_fmap, Hn.
  - destruct (a !! i) as [y|] eqn:E; [|done]. destruct (a_active y); [|done]. simpl. rewrite lookup_insert_ne; [done|congruence].
  - rewrite lookup_alter_None. done.
  - rewrite lookup_alter_None. done.
  - by rewrite lookup_fmap, Hn.
Qed.

Lemma run_refines ops : forall fuel b a n, R b a -> pending_le n a -> NoDup (added ops) -> (forall id, id ∈ added ops -> a !! id = None) ->
  (n + sum_list (weight <$> ops) < fuel)%nat -> exists b', run fuel b ops = Some (b', (arun a ops).2) /\ R b' (arun a ops).1.
Proof.
  induction ops as [|o ops IH]; intros fuel b a n Hr Hp Hnd Hfresh Hf; [by exists b|]. change (n + (weight o + sum_list (weight <$> ops)) < fuel)%nat in Hf. cbn [run arun].
  assert (NoDup (added ops) /\ (forall id, o = OAdd id -> a !! id = None /\ id ∉ added ops)) as [Hnd' Hadd].
  { unfold added in *. destruct o; try done. simpl in Hnd. apply NoDup_cons in Hnd as [Hni Hnd]. split; [done|]. intros i [= <-].
    split; [|done]. apply Hfresh. left. }
  destruct (step_refines b a o fuel n Hr Hp ltac:(lia) (fun id E => proj1 (Hadd id E))) as (b1 & -> & Hr1).
  pose proof (astep_le a o n Hp) as Hp1. destruct (astep a o) as [a1 out] eqn:Ea. cbn [fst snd] in *. simpl mbind.
  destruct (IH fuel b1 a1 (n + weight o) Hr1 Hp1 Hnd') as (b2 & H2 & Hr2); [|lia|].
  - intros id Hin. replace a1 with (astep a o).1 by (by rewrite Ea). apply astep_absent.
    + intros E. by apply (proj2 (Hadd id E)).
    + apply Hfresh. unfold added in *. destruct o; simpl; try done. by right.
  - rewrite H2. destruct (arun a1 ops) as [a2 outs]. by exists b2.
Qed.

(** C16: The stream implements its abstract specification: after any sequence of
    calls (new subscribers with new ids), every call has returned, every drain
    has returned exactly what the specification says - the messages published
    to the subscriber's topics since its last drain, in order, and nothing once
    it is shut down - and the stream is again in step with the specification.
    The fuel of a drain, one more than the messages published, is enough. *)
Theorem stream_refines_spec ops fuel : NoDup (added ops) -> (sum_list (weight <$> ops) < fuel)%nat ->
  exists b, run fuel New ops = Some (b, (arun ∅ ops).2) /\ R b (arun ∅ ops).1.
Proof.
  intros Hnd Hf. apply (run_refines ops fuel New ∅ 0); [apply R_new|apply map_Forall_empty|done|by intros; apply lookup_empty|done].
Qed.
End Spec.

(** ** Publishers, shutdown and consumer side by side *)
Section Wakeups.
Context {P Q : Type} {QF : Fifo Q (Message P)}.
Abbreviation subscriber := (subscriber Q).
Abbreviation Message := (Message P).

Record State := mkState {
  sub : subscriber;
  signals : list (@signal_pc P);
  shutdowns : list shutdown_pc;
  consumer : @consumer_pc P;
  (** the messages enqueued, and those the consumer has taken, in order *)
  sent : list Message;
  taken : list Message
}.
Definition idle : State := mkState newSubscriber [] [] CWait [] [].

Inductive step1 : State -> State -> Prop :=
| w_publish x ss hs c l d m : step1 (mkState x ss hs c l d) (mkState x (SCheck m :: ss) hs c l d)
| w_signal x ss1 pc ss2 hs c l d pc' x' : signal_step pc x = Some (pc', x') ->
    step1 (mkState x (ss1 ++ pc :: ss2) hs c l d)
      (mkState x' (ss1 ++ pc' :: ss2) hs c (match pc with SEnqueue m => l ++ [m] | _ => l end) d)
| w_shutdown x ss hs c l d : step1 (mkState x ss hs c l d) (mkState x ss (XStore :: hs) c l d)
| w_shut x ss hs1 pc hs2 c l d pc' x' : shutdown_step pc x = (pc', x') ->
    step1 (mkState x ss (hs1 ++ pc :: hs2) c l d) (mkState x' ss (hs1 ++ pc' :: hs2) c l d)
| w_consumer x ss hs c l d c' x' : nudge_step c x = Some (c', x') ->
    step1 (mkState x ss hs c l d) (mkState x' ss hs c' l (match c with CGot msgs => d ++ msgs | _ => d end)).

Definition held (c : @consumer_pc P) : list Message := match c with CDrain ms | CDequeue ms | CGot ms => ms | _ => [] end.
Definition busy (c : @consumer_pc P) : bool := match c with CWoken | CDrain _ | CDequeue _ | CReturn => true | _ => false end.

(** A queue that is not empty has a wake-up on its way: the token, a publisher
    about to put it, or a consumer that will look. Likewise a shutdown. *)
Record winv (s : State) : Prop := {
  w_queue : exists l, frep (messages (sub s)) l /\ sent s = taken s ++ held (consumer s) ++ l /\
    (l <> [] -> active (sub s) = true -> notify (sub s) = true \/ SNotify ∈ signals s \/ busy (consumer s) = true);
  w_active : active (sub s) = false -> notify (sub s) = true \/ XNotify ∈ shutdowns s \/ consumer s = CWoken \/ consumer s = CReturn
}.

Lemma elem_of_middle {A} (x a b : A) l1 l2 : x ∈ l1 ++ a :: l2 -> x <> a -> x ∈ l1 ++ b :: l2.
Proof. rewrite !elem_of_app, !elem_of_cons. tauto. Qed.
Lemma elem_middle {A} (a : A) l1 l2 : a ∈ l1 ++ a :: l2.
Proof. apply elem_of_app. right. left. Qed.

Lemma winv_step s s' : winv s -> step1 s s' -> winv s'.
Proof.
  intros [(q0 & Hq & Hsent & Hw) Ha] Hs. destruct Hs as [x ss hs c l d m|x ss1 pc ss2 hs c l d pc' x' Hs|x ss hs c l d|x ss hs1 pc hs2 c l d pc' x' Hs|x ss hs c l d c' x' Hs].
  all: simpl in *.
  - split; simpl; [|done]. exists q0. split_and!; [done..|]. intros H1 H2. rewrite elem_of_cons. destruct (Hw H1 H2) as [?|[?|?]]; auto.
  - destruct pc as [m|m| |]; simpl in Hs.
    + injection Hs as <- <-. split; simpl; [|exact Ha]. exists q0. split_and!; [done..|]. intros H1 H2.
      destruct (Hw H1 H2) as [?|[Hin|?]]; [by auto| |by auto]. right. left. by eapply elem_of_middle.
    + destruct (frep_enqueue _ _ m Hq) as (q1 & E & Hq1). rewrite E in Hs. injection Hs as <- <-. split; simpl; [|exact Ha].
      exists (q0 ++ [m]). split_and!; [done|by rewrite Hsent, <- !app_assoc|]. intros _ _. right. left. apply elem_middle.
    + injection Hs as <- <-. split; simpl; [|by left]. exists q0. split_and!; [done..|]. by left.
    + injection Hs as <- <-. by split; [exists q0|].
  - split; simpl; [by exists q0|]. intros H1. rewrite elem_of_cons. destruct (Ha H1) as [?|[?|?]]; auto.
  - destruct pc; simpl in Hs; injection Hs as <- <-; (split; simpl; [exists q0; split_and!; try done|]).
    + intros _. right. left. apply elem_middle.
    + by left.
    + by left.
    + done.
  - destruct c as [| |ms|ms|ms|]; simpl in Hs.
    + destruct (notify x); [|done]. injection Hs as <- <-. split; simpl; [exists q0; split_and!; auto|auto].
    + injection Hs as <- <-. destruct (active x) eqn:Hx; (split; simpl; [exists q0; split_and!; auto|]); rewrite Hx; (done || auto).
    + injection Hs as <- <-. destruct (active x) eqn:Hx; (split; simpl; [exists q0; split_and!; auto|]); rewrite Hx; try done.
      destruct (Ha eq_refl) as [?|[?|[?|?]]]; try done; auto.
    + destruct (frep_dequeue _ _ Hq) as (q1 & E & Hq1). rewrite E in Hs. simpl in Hs.
      assert (active x = false -> notify x = true \/ XNotify ∈ hs) as Ha' by (intros H; destruct (Ha H) as [?|[?|[?|?]]]; auto; done).
      destruct q0 as [|m q0]; simpl in Hs; injection Hs as <- <-; (split; simpl; [eexists; split_and!; [exact Hq1|..]|]); try done.
      * intros H. destruct (Ha' H); auto.
      * by rewrite Hsent, <- app_assoc.
      * auto.
      * intros H. destruct (Ha' H); auto.
    + injection Hs as <- <-. split; simpl; [exists q0; split_and!; [done|by rewrite Hsent, <- app_assoc|]|]; auto.
      intros H. destruct (Ha H) as [?|[?|[?|?]]]; auto; done.
    + injection Hs as <- <-. by split; [exists q0|].
Qed.

(** No wake-up is lost. However the accesses of publishers, of [Shutdown] and
    of the consumer's loop interleave, a consumer that waits on [Ready] with no
    token there, while nobody is about to put one, has nothing to be woken
    for: it has taken every message that was enqueued, in order, and the
    subscriber is not shut down. *)
Theorem no_lost_wakeup s : rtc step1 idle s -> consumer s = CWait -> notify (sub s) = false ->
  SNotify ∉ signals s -> XNotify ∉ shutdowns s ->
  taken s = sent s /\ active (sub s) = true.
Proof.
  intros Hr Hc Hn Hs Hx. assert (winv s) as [(l & _ & Hsent & Hw) Ha].
  { assert (winv idle) as H0 by (split; simpl; [exists []; split_and!; [apply frep_new|done..]|done]).
    clear - Hr H0. induction Hr as [|a b c Hab _ IH]; [done|]. apply IH. by eapply winv_step. }
  rewrite Hc in *. simpl in *. destruct (active (sub s)) eqn:E.
  - split; [|done]. destruct l as [|m l]; [by rewrite app_nil_r in Hsent|]. destruct Hw as [?|[?|?]]; congruence.
  - destruct Ha as [?|[?|[?|?]]]; congruence.
Qed.
End Wakeups.

(** ** On the lock-free queue *)
Section Examples.
Abbreviation Q := (queue.Queue (V := Message nat)).
#[local] Instance demo_fifo : Fifo Q (Message nat) := queue_fifo (fun _ => None).

Definition demo_ops : list (op (P := nat)) :=
  [OAdd "s"; OSubscribe "s" "orders"; OPublish "orders" 1%nat; OPublish "stock" 2%nat; OBroadcast 3%nat ["stock"; "orders"];
   ODrain "s"; OShutdown "s"; OPublish "orders" 4%nat; ODrain "s"].

Lemma stream_refines_spec_witness : exists b, run elements 10 (New (Q := Q)) demo_ops =
  Some (b, [[]; []; []; []; []; [mkMessage "orders" 1%nat; mkMessage "orders" 3%nat]; []; []; []]).
Proof.
  destruct (stream_refines_spec (QF := demo_fifo) elements (fun s => Permutation_refl _) demo_ops 10) as (b & Hb & _).
  - vm_compute. apply NoDup_singleton.
  - vm_compute. lia.
  - exists b. rewrite Hb. vm_compute. reflexivity.
Defined.

Definition demo_message : Message nat := mkMessage "orders" 1%nat.
Lemma demo_wakeup : exists s : State (Q := Q), rtc step1 idle s /\ consumer s = CWait /\ notify (sub s) = false /\
  signals s = [SDone] /\ shutdowns s = [] /\ sent s = [demo_message].
Proof.
  eexists. split.
  - eapply rtc_l; [apply (w_publish _ _ _ _ _ _ demo_message)|].
    do 3 (eapply rtc_l; [eapply (w_signal _ [] _ []); vm_compute; reflexivity|]).
    do 7 (eapply rtc_l; [eapply w_consumer; vm_compute; reflexivity|]).
    apply rtc_refl.
  - split_and!; reflexivity.
Qed.

Lemma no_lost_wakeup_witness : exists s : State (Q := Q), rtc step1 idle s /\ taken s = [demo_message].
Proof.
  destruct demo_wakeup as (s & Hr & Hc & Hn & Hs & Hx & Hsent). exists s. split; [exact Hr|]. rewrite <- Hsent.
  apply (no_lost_wakeup s Hr Hc Hn).
  - rewrite Hs. intros Hin%list_elem_of_singleton. discriminate Hin.
  - rewrite Hx. apply not_elem_of_nil.
Defined.

(** ** [Subscribe] is not atomic *)

(** Run alone, the locked operations of [Subscribe] make up [Subscribe]. *)
Theorem subscribe_alone (b : EventsStream Q) id t :
  Nat.iter 6 (fun '(pc, b) => subscribe_step id t pc b) (BCheck, b) = (BDone, Subscribe b id t).
Proof.
  unfold Subscribe. simpl. destruct (is_active b id); [|done]. simpl.
  destruct (topics b !! t) as [r|] eqn:E; simpl; [|done]. by case_decide.
Qed.

Definition topics_of (b : EventsStream Q) (id : string) : option (list string) :=
  match heap b !! id with Some x => Some (Topics x) | None => None end.
Definition inbox (b : EventsStream Q) (id : string) : option (list (Message nat)) :=
  match heap b !! id with
  | Some x => match Iterator 9 x with Some r => Some r.1 | None => None end
  | None => None
  end.

(** Two subscribers subscribe to a new topic, three operations each and then
    the last one of each. *)
Definition raced : subscribe_pc * subscribe_pc * EventsStream Q :=
  let b0 := AddSubscriber (AddSubscriber (New (Q := Q)) "a") "b" in
  let sub id '(pc, b) := subscribe_step id "orders" pc b in
  let '(pa, b) := Nat.iter 3 (sub "a") (BCheck, b0) in
  let '(pb, b) := Nat.iter 3 (sub "b") (BCheck, b) in
  let '(pa, b) := sub "a" (pa, b) in
  let '(pb, b) := sub "b" (pb, b) in (pa, pb, b).

(** Each finds no map for the topic and installs its own, and the second
    replaces the first. Both calls return, both subscribers are active and
    believe they have the topic, but only one of them is counted, and only one
    is sent what is published. *)
Theorem concurrent_subscribe_loses_one :
  raced.1 = (BDone, BDone) /\
  topics_of raced.2 "a" = Some ["orders"] /\ topics_of raced.2 "b" = Some ["orders"] /\
  is_active raced.2 "a" = true /\ SubscribersCount raced.2 "orders" = 1%nat /\
  (Publish elements raced.2 "orders" 1%nat ≫= fun b => inbox b "a") = Some [] /\
  (Publish elements raced.2 "orders" 1%nat ≫= fun b => inbox b "b") = Some [demo_message].
Proof. split_and!; vm_compute; reflexivity. Qed.
End Examples.
End eventstream_spec.
