(* ===== verification/Delivery.v ===== *)
(** * From the event stream to a goroutine

    A subscriber of the event stream between those who publish to it and the
    goroutine that consumes it: [signal], [Shutdown], [Ready] and [Iterator]
    of [src/eventstream/subscriber.go] access by access, on the lock-free
    queue of [Queue.v] access by access, and the loop the engine's publishers
    ([sendEvent], [sendState] of [src/engine/streams.go]) and the sagas
    ([consumeEvents] of [src/internal/engine/saga/saga_actor.go]) have in
    common. Publications to the subscriber do not overlap: the queue loses
    messages of two that do ([queue_loses_messages] in [QueueSpec.v]). *)

From S2P Require Import Prelude Queue QueueSpec Stream.
From Stdlib Require Import ZArith Lia.
Open Scope list_scope.

Module delivery.
Import queue.

Section Delivery.
Context {P R : Type} (as_record : P -> option R).
Abbreviation Message := (eventstream.Message P).
Abbreviation channel_state := (queue_spec.State (V := Message)).

(** ** The subscriber

    [channel] has the queue with the accesses under way, what was published
    ([calls]) and what was taken; [notify] says whether the channel of that
    name holds its token, [signalling] whether a publication is under way. *)
Record flow := mkFlow { channel : channel_state; active : bool; notify : bool; signalling : bool }.

Definition newSubscriber : flow := mkFlow queue_spec.start true false false.

Definition published (f : flow) : list Message := queue_spec.calls (channel f).

(** [signal]: the flag is looked at, [Enqueue] runs, the token is put. *)
Inductive signal_step : flow -> flow -> Prop :=
| signal_begin q c xs rs m nt :
    signal_step (mkFlow (queue_spec.mkState q EDone c xs rs) true nt false)
      (mkFlow (queue_spec.mkState q (EGet (Some m)) c (xs ++ [m]) rs) true nt true)
| signal_enqueue q p c xs rs choice p' q' a nt : enqueue_step choice p q = (p', q') -> p <> EDone ->
    signal_step (mkFlow (queue_spec.mkState q p c xs rs) a nt true) (mkFlow (queue_spec.mkState q' p' c xs rs) a nt true)
| signal_notify q c xs rs a nt :
    signal_step (mkFlow (queue_spec.mkState q EDone c xs rs) a nt true) (mkFlow (queue_spec.mkState q EDone c xs rs) a true false).

(** [Shutdown]: the flag is cleared, then the token is put. *)
Inductive shutdown_step : flow -> flow -> Prop :=
| shutdown_store s a nt sg : shutdown_step (mkFlow s a nt sg) (mkFlow s false nt sg)
| shutdown_wake s nt sg : shutdown_step (mkFlow s false nt sg) (mkFlow s false true sg).
Definition Shutdown (f : flow) : flow := mkFlow (channel f) false true (signalling f).

(** ** The goroutine

    It waits in [select]; drains the queue ([Iterator]), between two calls of
    [Dequeue] or within one; hands over what it has; or has returned. *)
Inductive pc_t := SWait | SDrain (msgs : list Message) | SDequeue (msgs : list Message) | SDeliver (msgs : list Message) | SReturned.

(** [log] is what was handed over. *)
Record world := mkWorld { sub : flow; pc : pc_t; log : list R }.

Definition added : world := mkWorld newSubscriber SWait [].

(** [stopped]: whether the channel that ends the goroutine is ready. *)
Inductive goroutine_step (stopped : bool) : world -> world -> Prop :=
| go_stop f l : stopped = true -> goroutine_step stopped (mkWorld f SWait l) (mkWorld f SReturned l)
| go_ready s a sg l : goroutine_step stopped (mkWorld (mkFlow s a true sg) SWait l) (mkWorld (mkFlow s a false sg) (SDrain []) l)
| go_dequeue q p r xs rs nt sg msgs l :
    goroutine_step stopped (mkWorld (mkFlow (queue_spec.mkState q p (DDone r) xs rs) true nt sg) (SDrain msgs) l)
      (mkWorld (mkFlow (queue_spec.mkState q p DLoadHead xs (rs ++ [r])) true nt sg) (SDequeue msgs) l)
| go_inactive s nt sg msgs l : goroutine_step stopped (mkWorld (mkFlow s false nt sg) (SDrain msgs) l) (mkWorld (mkFlow s false nt sg) (SDeliver msgs) l)
| go_access q p c xs rs c' q' a nt sg msgs l : dequeue_step c q = (c', q') -> (forall r, c <> DDone r) ->
    goroutine_step stopped (mkWorld (mkFlow (queue_spec.mkState q p c xs rs) a nt sg) (SDequeue msgs) l)
      (mkWorld (mkFlow (queue_spec.mkState q' p c' xs rs) a nt sg) (SDequeue msgs) l)
| go_message f m msgs l : queue_spec.consumer (channel f) = DDone (Some m) -> goroutine_step stopped (mkWorld f (SDequeue msgs) l) (mkWorld f (SDrain (msgs ++ [m])) l)
| go_empty f msgs l : queue_spec.consumer (channel f) = DDone None -> goroutine_step stopped (mkWorld f (SDequeue msgs) l) (mkWorld f (SDeliver msgs) l)
| go_stopped f m msgs l : stopped = true -> goroutine_step stopped (mkWorld f (SDeliver (m :: msgs)) l) (mkWorld f SReturned l)
| go_deliver f m msgs l : stopped = false ->
    goroutine_step stopped (mkWorld f (SDeliver (m :: msgs)) l) (mkWorld f (SDeliver msgs) (l ++ option_list (as_record (eventstream.payload m))))
| go_drained f l : goroutine_step stopped (mkWorld f (SDeliver []) l) (mkWorld f SWait l).

(** ** What is handed over *)
Definition records_of (l : list Message) : list R := omap as_record (eventstream.payload <$> l).

Lemma records_of_app l1 l2 : records_of (l1 ++ l2) = records_of l1 ++ records_of l2.
Proof. unfold records_of. by rewrite fmap_app, omap_app. Qed.

(** What was taken from the queue is what was handed over and what the
    goroutine holds; a call of [Dequeue] under way comes on top. *)
Definition taken (s : channel_state) (p : pc_t) (offered : list Message) : Prop :=
  match p with
  | SDequeue msgs => Some <$> offered ++ msgs = queue_spec.received (queue_spec.results s)
  | SWait => (exists r, queue_spec.consumer s = DDone r) /\ Some <$> offered = queue_spec.got s
  | SDrain msgs | SDeliver msgs => (exists r, queue_spec.consumer s = DDone r) /\ Some <$> offered ++ msgs = queue_spec.got s
  | SReturned => (exists r, queue_spec.consumer s = DDone r) /\ exists msgs, Some <$> offered ++ msgs = queue_spec.got s
  end.

(** It has seen the queue empty and not waited for the token since. *)
Definition saw_empty (s : channel_state) (p : pc_t) : Prop :=
  match p with SWait | SDeliver _ => True | SDequeue _ => queue_spec.consumer s = DDone None | _ => False end.

(** All that is linked was taken. *)
Definition emptied (s : channel_state) : Prop :=
  Some <$> queue_spec.calls s = queue_spec.got s ++ queue_spec.unlinked (queue_spec.queue s) (queue_spec.producer s).

Record dinv (w : world) : Prop := {
  d_queue : exists ns, queue_spec.inv (channel (sub w)) ns;
  d_idle : signalling (sub w) = false -> queue_spec.producer (channel (sub w)) = EDone;
  d_taken : exists offered, log w = records_of offered /\ taken (channel (sub w)) (pc w) offered;
  d_token : saw_empty (channel (sub w)) (pc w) -> active (sub w) = true ->
    emptied (channel (sub w)) \/ notify (sub w) = true \/ signalling (sub w) = true
}.

Lemma dinv_added : dinv added.
Proof.
  split; simpl; [exists [0%nat]; apply queue_spec.inv_start|done| |by left].
  exists []. split; [done|]. split; [by eexists|done].
Qed.

(** What the other side does to the queue is not seen by this one. *)
Lemma taken_producer q p c xs rs q' p' xs' g offered :
  taken (queue_spec.mkState q p c xs rs) g offered -> taken (queue_spec.mkState q' p' c xs' rs) g offered.
Proof. destruct g; simpl; try done; intros [[r ->] H]; (split; [by eexists|exact H]). Qed.

Lemma signal_dinv f f' p l : signal_step f f' -> dinv (mkWorld f p l) -> dinv (mkWorld f' p l).
Proof.
  intros Hs [[ns Hq] Hidle (off & Hl & Ht) Htok]. destruct Hs as [q c xs rs m nt|q e c xs rs choice e' q' a nt He Hne|q c xs rs a nt]; simpl in *.
  - split; simpl; [eapply queue_spec.spsc_step_inv; [exact Hq|constructor]|done| |intros _ _; by right; right].
    exists off. split; [done|]. by eapply taken_producer.
  - split; simpl; [eapply queue_spec.spsc_step_inv; [exact Hq|by econstructor]|done| |intros _ _; by right; right].
    exists off. split; [done|]. by eapply taken_producer.
  - split; simpl; [by exists ns|done|by exists off|intros _ _; by right; left].
Qed.

Lemma shutdown_dinv f f' p l : shutdown_step f f' -> dinv (mkWorld f p l) -> dinv (mkWorld f' p l).
Proof. intros Hs [Hq Hidle Ht Htok]. destruct Hs; by split. Qed.

(** A [Dequeue] that finds nothing. *)
Lemma found_empty s ns h : queue_spec.inv s ns -> queue_spec.consumer s = DLoadNext h -> next (node (queue_spec.queue s) h) = None -> emptied s.
Proof.
  intros Hi Hc Hn. pose proof (queue_spec.i_values _ _ Hi) as Hv. pose proof (queue_spec.i_consumer _ _ Hi) as Hh. rewrite Hc in Hh, Hv. subst h.
  pose proof (queue_spec.path_first _ _ _ (queue_spec.i_path _ _ Hi) (queue_spec.i_head _ _ Hi)) as Hp. unfold queue_spec.nexts in Hp. rewrite Hn in Hp.
  unfold emptied, queue_spec.got. rewrite Hv, Hc. simpl. pose proof (queue_spec.i_head _ _ Hi) as Hhd.
  destruct ns as [|x [|y ns]]; [done|by rewrite app_nil_r|done].
Qed.

Lemma access_empty q p c xs rs ns c' q' : queue_spec.inv (queue_spec.mkState q p c xs rs) ns -> dequeue_step c q = (c', q') -> (forall r, c <> DDone r) ->
  c' = DDone None -> emptied (queue_spec.mkState q' p c' xs rs).
Proof.
  intros Hi Hs Hne ->. destruct c as [|h|h nx|h nx|h x|h x|h x|x|r]; simpl in Hs.
  - done.
  - destruct (next (node q h)) eqn:Hn; [done|]. injection Hs as <-. exact (found_empty _ ns h Hi eq_refl Hn).
  - by destruct (cas_head q h nx) as [[] ?].
  - done.
  - done.
  - done.
  - done.
  - injection Hs as -> <-. pose proof (queue_spec.i_values _ _ Hi) as Hv. simpl in Hv.
    assert (None ∈ Some <$> xs) as (y & Hy & _)%list_elem_of_fmap by (rewrite Hv; set_solver). done.
  - by destruct (Hne r).
Qed.

Lemma goroutine_dinv stopped w w' : goroutine_step stopped w w' -> dinv w -> dinv w'.
Proof.
  intros Hs [[ns Hq] Hidle (off & Hl & Ht) Htok].
  destruct Hs as [f l Hst|s a sg l|q p r xs rs nt sg msgs l|s nt sg msgs l|q p c xs rs c' q' a nt sg msgs l Hd Hne|f m msgs l Hc|f msgs l Hc|f m msgs l Hst|f m msgs l Hst|f l]; simpl in *.
  - destruct Ht as [Hc Ht]. split; simpl; [by exists ns|done| |done]. exists off. split; [done|]. split; [done|]. exists []. by rewrite app_nil_r.
  - split; simpl; [by exists ns|done| |done]. exists off. split; [done|]. by rewrite app_nil_r.
  - destruct Ht as [_ Ht]. split; simpl; [eapply queue_spec.spsc_step_inv; [exact Hq|constructor]|done| |done].
    exists off. split; [done|]. rewrite Ht. unfold queue_spec.got, queue_spec.received. simpl. rewrite filter_app. f_equal. by destruct r.
  - split; simpl; [by exists ns|done|by exists off|done].
  - split; simpl; [eapply queue_spec.spsc_step_inv; [exact Hq|by constructor]|done|by exists off|]. intros Hc _. left. by eapply access_empty.
  - split; simpl; [by exists ns|done| |done]. exists off. split; [done|]. split; [by eexists|].
    unfold queue_spec.got. rewrite Hc, <- Ht, app_assoc, (fmap_app _ (off ++ msgs)). done.
  - split; simpl; [by exists ns|done| |by intros _; apply Htok]. exists off. split; [done|]. split; [by eexists|]. unfold queue_spec.got. by rewrite Hc, <- Ht, app_nil_r.
  - destruct Ht as [Hc Ht]. split; simpl; [by exists ns|done| |done]. exists off. split; [done|]. split; [done|]. by exists (m :: msgs).
  - destruct Ht as [Hc Ht]. split; simpl; [by exists ns|done| |done]. exists (off ++ [m]). split; [by rewrite records_of_app, <- Hl|]. split; [done|]. by rewrite <- app_assoc.
  - destruct Ht as [Hc Ht]. split; simpl; [by exists ns|done| |done]. exists off. split; [done|]. split; [done|]. by rewrite app_nil_r in Ht.
Qed.

Lemma fmap_Some_inj (l1 l2 : list Message) : Some <$> l1 = Some <$> l2 -> l1 = l2.
Proof. revert l2. induction l1 as [|x l1 IH]; intros [|y l2]; simpl; try done. intros [= -> H]. f_equal. by apply IH. Qed.

(** What was handed over, and what is on its way. *)
Lemma dinv_delivered w : dinv w -> exists rest, records_of (published (sub w)) = log w ++ rest /\
  (pc w = SWait -> active (sub w) = true -> notify (sub w) = false -> signalling (sub w) = false -> rest = []).
Proof.
  intros [[ns Hq] Hidle (off & Hl & Ht) Htok]. pose proof (queue_spec.i_values _ _ Hq) as Hv. unfold published.
  assert (exists more, queue_spec.calls (channel (sub w)) = off ++ more) as [more Hmore].
  { assert (exists rest, Some <$> queue_spec.calls (channel (sub w)) = (Some <$> off) ++ rest) as [rest Hr].
    { rewrite Hv. destruct (pc w); simpl in Ht; unfold queue_spec.got in Ht.
      - destruct Ht as [_ Ht]. rewrite app_assoc, <- Ht. eauto.
      - destruct Ht as [_ Ht]. rewrite app_assoc, <- Ht, fmap_app, <- app_assoc. eauto.
      - rewrite <- Ht, fmap_app, <- app_assoc. eauto.
      - destruct Ht as [_ Ht]. rewrite app_assoc, <- Ht, fmap_app, <- app_assoc. eauto.
      - destruct Ht as (_ & msgs & Ht). rewrite app_assoc, <- Ht, fmap_app, <- app_assoc. eauto. }
    apply fmap_app_inv in Hr as (l1 & l2 & H1 & _ & ->). apply fmap_Some_inj in H1 as ->. by exists l2. }
  exists (records_of more). rewrite Hmore, records_of_app, <- Hl. split; [done|]. intros Hpc Ha Hn Hsg.
  rewrite Hpc in Ht, Htok. destruct Ht as [_ Ht]. destruct (Htok I Ha) as [He|[?|?]]; [|congruence|congruence].
  unfold emptied in He. rewrite (Hidle Hsg), <- Ht, app_nil_r in He. apply fmap_Some_inj in He. rewrite He in Hmore.
  assert (more = []) as ->; [|done]. apply (app_inv_head off). by rewrite app_nil_r.
Qed.
End Delivery.
Arguments flow : clear implicits.
Arguments pc_t : clear implicits.
Arguments world : clear implicits.
End delivery.
