(* ===== verification/Adoption.v ===== *)
(** * Tenant adoption

    [src/migration/tenant_adoption.go]: [TenantAdopter] copies the aggregates
    of a source scope into per-tenant scopes, proves each copy by reading it
    back, and may then delete the source. The stores and the fence are the
    interfaces of the program; SHA-256 and the protobuf encoding are
    parameters. Every operation is a computation [M] over the stores and the
    fence that returns or panics; [defer] releases the fences in both cases. *)

From S2P Require Import Prelude GoStrings Tenancy Persistence Egopb StoreApi EventStore.
From Stdlib Require Import ZArith Lia Ascii.
Open Scope string_scope.
Local Open Scope list_scope.
Local Open Scope urd_scope.

Module adoption.
Import persistence egopb.

(** ** Interfaces the store classes of [api] leave out *)
Class Pingable (St : Type) := Ping : St -> result store_error unit * St.

(** [None]: the call panics *)
Class Enumerable (St : Type) :=
  PersistenceIDs : St -> Scope -> N -> string -> option (result store_error (list string * string)).

(** [AdoptionFence]: a granted acquisition comes with the release function,
    which may be nil. *)
Class AdoptionFence (F : Type) :=
  Acquire : F -> Scope -> string -> result string (option (F -> F)) * F.

(** ** Constants *)
Definition maxReplaySequence : N := two64 - 1.
Definition maxReplayLimit : N := api.max_int.
Definition adoptionReceiptKey := "ego.adoption.receipt".
Definition adoptionReceiptVersion := "v1:".

(** ** Records and outcomes *)
Inductive RecordKind := KindEvents | KindSnapshot | KindDurableState.
#[export] Instance RecordKind_eq_dec : EqDecision RecordKind.
Proof. solve_decision. Defined.

Inductive RecordStatus :=
  StatusNone | StatusCopied | StatusAlreadyPresent | StatusSourceDeleted | StatusFailed.
#[export] Instance RecordStatus_eq_dec : EqDecision RecordStatus.
Proof. solve_decision. Defined.

(** Why a target is not equivalent. *)
Inductive mismatch :=
| RepeatedSequence (seq : N)
| NotOwned (seq : N)
| DiffersFromSource (seq : N)
| NotInSource (seq : N)
| BadReceipt (seq : N)
| BrokenChain (seq previous recorded : N)
| NoReceipt
| ReceiptAfterAppend (seq : N)
| RecordNotOwned
| RecordNoReceipt (pos : N)
| RecordDiffers (pos expected : N).

(** How a source changed under a run. *)
Inductive change :=
| CountChanged (current verified : nat)
| VerifiedRepeats (seq : N)
| SourceRepeats (seq : N)
| NotVerified (seq : N)
| Rewritten (seq : N)
| SnapshotChanged (seq : N)
| Gained (seq : N)
| StillHolds (seq : N).

Inductive adoption_error :=
| ReadSource (k : RecordKind) (e : store_error)
| CheckTarget (k : RecordKind) (e : store_error)
| WriteTarget (k : RecordKind) (e : store_error)
| VerifyTarget (k : RecordKind) (e : store_error)
| ReReadSource (k : RecordKind) (e : store_error)
| DeleteSource (k : RecordKind) (e : store_error)
| ComputeReceipt (m : string)
| RepeatedRow
| WrongRowCount (wrote read : nat)
| MissingRow (seq : N)
| DifferentRow (seq : N)
| ReadBackDiffers (k : RecordKind) (pos : N)
| errSourceChangedDuringAdoption (k : RecordKind) (c : change)
| errTargetNotEquivalent (k : RecordKind) (m : mismatch)
| AssignmentFailed (m : string)
| InvalidTarget (e : tenancy.Error)
| errTargetIsSource
| FenceNotAcquired (m : string)
| errNoSourceRecords.

Record RecordOutcome := mkRecordOutcome {
  Status : RecordStatus;
  Err_ : option adoption_error;
  wroteTarget : bool
}.
Definition outcome (s : RecordStatus) (wrote : bool) : RecordOutcome := mkRecordOutcome s None wrote.
Definition failed (e : adoption_error) : RecordOutcome := mkRecordOutcome StatusFailed (Some e) false.
(** The zero value of a field never assigned: its status is the empty
    string, which no caller distinguishes from [StatusNone]. *)
Definition noOutcome : RecordOutcome := outcome StatusNone false.

Record AggregateOutcome := mkAggregateOutcome {
  aPersistenceID : string;
  aTenant : string;
  aEvents : RecordOutcome;
  aSnapshot : RecordOutcome;
  aDurableState : RecordOutcome
}.

Record AdoptionFailure := mkAdoptionFailure {
  fPersistenceID : string;
  fKind : option RecordKind;
  fErr : option adoption_error
}.

Record AdoptionReport := mkAdoptionReport {
  DryRun : bool;
  Scanned : nat;
  Assigned : nat;
  SkippedByAssignment : nat;
  Copied : nat;
  AlreadyPresent : nat;
  Verified : nat;
  SourceDeleted : nat;
  Failed : nat;
  Aggregates : list AggregateOutcome;
  Failures : list AdoptionFailure
}.
Definition newReport (dryRun : bool) : AdoptionReport :=
  mkAdoptionReport dryRun 0 0 0 0 0 0 0 0 [] [].

(** The increments of a report. *)
Definition add_scanned (r : AdoptionReport) : AdoptionReport :=
  let '(mkAdoptionReport d s a k c p v x f g l) := r in mkAdoptionReport d (S s) a k c p v x f g l.
Definition add_assigned (r : AdoptionReport) : AdoptionReport :=
  let '(mkAdoptionReport d s a k c p v x f g l) := r in mkAdoptionReport d s (S a) k c p v x f g l.
Definition add_skipped (r : AdoptionReport) : AdoptionReport :=
  let '(mkAdoptionReport d s a k c p v x f g l) := r in mkAdoptionReport d s a (S k) c p v x f g l.
Definition add_copied (r : AdoptionReport) : AdoptionReport :=
  let '(mkAdoptionReport d s a k c p v x f g l) := r in mkAdoptionReport d s a k (S c) p v x f g l.
Definition add_present (r : AdoptionReport) : AdoptionReport :=
  let '(mkAdoptionReport d s a k c p v x f g l) := r in mkAdoptionReport d s a k c (S p) v x f g l.
Definition add_verified (r : AdoptionReport) : AdoptionReport :=
  let '(mkAdoptionReport d s a k c p v x f g l) := r in mkAdoptionReport d s a k c p (S v) x f g l.
Definition add_deleted (r : AdoptionReport) : AdoptionReport :=
  let '(mkAdoptionReport d s a k c p v x f g l) := r in mkAdoptionReport d s a k c p v (S x) f g l.
Definition add_failed (r : AdoptionReport) : AdoptionReport :=
  let '(mkAdoptionReport d s a k c p v x f g l) := r in mkAdoptionReport d s a k c p v x (S f) g l.
Definition add_aggregate (o : AggregateOutcome) (r : AdoptionReport) : AdoptionReport :=
  let '(mkAdoptionReport d s a k c p v x f g l) := r in mkAdoptionReport d s a k c p v x f (g ++ [o]) l.
Definition add_failure (e : AdoptionFailure) (r : AdoptionReport) : AdoptionReport :=
  let '(mkAdoptionReport d s a k c p v x f g l) := r in mkAdoptionReport d s a k c p v x f g (l ++ [e]).

(** ** Messages: the three kinds of record as [proto.Message] *)
Inductive Message := MEvent (e : Event) | MSnapshot (s : Snapshot) | MState (d : DurableState).
#[export] Instance Message_eq_dec : EqDecision Message.
Proof. solve_decision. Defined.

Definition tenantMetadataOf (r : Message) : gmap string string :=
  match r with
  | MEvent e => TenantMetadata e
  | MSnapshot s => sTenantMetadata s
  | MState d => dTenantMetadata d
  end.

Definition setTenantMetadata (r : Message) (md : gmap string string) : Message :=
  match r with
  | MEvent (mkEvent p n d a t s k c _) => MEvent (mkEvent p n d a t s k c md)
  | MSnapshot (mkSnapshot p n a t k c _) => MSnapshot (mkSnapshot p n a t k c md)
  | MState (mkDurableState p n a t s _) => MState (mkDurableState p n a t s md)
  end.

(** ** Receipts

    [strconv]'s table of printable runes, [proto.Marshal] with
    [Deterministic], and the lower-case hexadecimal SHA-256 digest. *)
Class Encoding := {
  print_tbl : Z -> bool;
  Marshal : Message -> result string bytes;
  sha256hex : bytes -> bytes
}.

Section Receipts.
Context `{Encoding}.

Definition scopeToken (sourceScope : Scope) : bytes :=
  if IsUnscoped sourceScope then b2l "unscoped"
  else b2l "tenant:" ++ quote_list print_tbl (b2l (TenantID sourceScope)).

Definition colon : ascii := ":"%char.
Definition zero_byte : ascii := vb 0.

Definition adoptionReceipt (record : Message) (sourceScope : Scope) (predecessor : option N) : result adoption_error bytes :=
  match Marshal record with
  | Err m => Err (ComputeReceipt m)
  | Ok encoded =>
    let head := scopeToken sourceScope ++ [zero_byte] in
    match predecessor with
    | Some p =>
      let recorded := fmt_uint_list p in
      Ok (b2l adoptionReceiptVersion ++ recorded ++ [colon] ++
          sha256hex (head ++ recorded ++ [zero_byte] ++ encoded))
    | None => Ok (b2l adoptionReceiptVersion ++ sha256hex (head ++ encoded))
    end
  end.

Definition stampAdoptionReceipt (record : Message) (sourceScope : Scope) (metadata : gmap string string)
    (predecessor : option N) : result adoption_error Message :=
  let record := setTenantMetadata record metadata in
  let? receipt := adoptionReceipt record sourceScope predecessor in
  Ok (setTenantMetadata record (<[adoptionReceiptKey := l2b receipt]> metadata)).

(** [Some p]: the receipt matches and records the predecessor [p]. *)
Definition verifyAdoptionReceipt (record : Message) (sourceScope : Scope) : option (option N) :=
  let metadata := tenantMetadataOf record in
  match metadata !! adoptionReceiptKey with
  | None => None
  | Some receipt =>
    match strip_prefix (b2l adoptionReceiptVersion) (b2l receipt) with
    | None => None
    | Some body =>
      let recorded :=
        match cut_list [colon] body with
        | Some (recorded, _) =>
          match parse_uint_list recorded with
          | Some value => if bool_decide (fmt_uint_list value = recorded) then Some (Some value) else None
          | None => None
          end
        | None => Some None
        end in
      match recorded with
      | None => None
      | Some predecessor =>
        let stripped := setTenantMetadata record (delete adoptionReceiptKey metadata) in
        match adoptionReceipt stripped sourceScope predecessor with
        | Err _ => None
        | Ok want => if bool_decide (l2b want = receipt) then Some predecessor else None
        end
      end
    end
  end.

Definition hasReceipt (e : Event) : bool :=
  bool_decide (is_Some (TenantMetadata e !! adoptionReceiptKey)).

(** ** Comparing streams *)
Definition by_sequence (l : list Event) : gmap N Event :=
  foldl (fun m e => <[SequenceNumber e := e]> m) ∅ l.

Definition sort_seqs (l : list N) : list N := merge_sort N.le l.

Fixpoint link (previous : N) (seqs : list N) (acc : gmap N N) : gmap N N :=
  match seqs with
  | [] => acc
  | seq :: seqs => link seq seqs (<[seq := previous]> acc)
  end.
Definition adoptedPredecessors (events : list Event) : gmap N N :=
  link 0 (sort_seqs (SequenceNumber <$> events)) ∅.

(** The first error of a sequence of checks. *)
Fixpoint first_error {A E} (check : A -> option E) (l : list A) : option E :=
  match l with
  | [] => None
  | x :: l => match check x with Some e => Some e | None => first_error check l end
  end.

(** [range] over [expectedBySeq] is in an order of its own; it decides only
    which of several differing rows the error names. *)
Definition verifyEventsMatchBySequence (expected written : list Event) : option adoption_error :=
  let expectedBySeq := by_sequence expected in
  let writtenBySeq := by_sequence written in
  if negb (size writtenBySeq =? length written)%nat then Some RepeatedRow
  else if negb (size writtenBySeq =? size expectedBySeq)%nat
  then Some (WrongRowCount (size expectedBySeq) (size writtenBySeq))
  else first_error (fun kv => match writtenBySeq !! kv.1 with
                              | None => Some (MissingRow kv.1)
                              | Some got => if bool_decide (kv.2 = got) then None else Some (DifferentRow kv.1)
                              end) (map_to_list expectedBySeq).

Fixpoint index_verified (verified : list Event) (m : gmap N Event) : result change (gmap N Event) :=
  match verified with
  | [] => Ok m
  | e :: verified =>
    if bool_decide (is_Some (m !! SequenceNumber e)) then Err (VerifiedRepeats (SequenceNumber e))
    else index_verified verified (<[SequenceNumber e := e]> m)
  end.

Fixpoint match_current (current : list Event) (verifiedBySeq : gmap N Event) (seen : gset N) : option change :=
  match current with
  | [] => None
  | e :: current =>
    let seq := SequenceNumber e in
    if bool_decide (seq ∈ seen) then Some (SourceRepeats seq)
    else match verifiedBySeq !! seq with
         | None => Some (NotVerified seq)
         | Some want =>
           if bool_decide (e = want) then match_current current verifiedBySeq ({[seq]} ∪ seen)
           else Some (Rewritten seq)
         end
  end.

Definition sameEventsBySequence (current verified : list Event) : option change :=
  if negb (length current =? length verified)%nat then Some (CountChanged (length current) (length verified))
  else match index_verified verified ∅ with
       | Err c => Some c
       | Ok verifiedBySeq => match_current current verifiedBySeq ∅
       end.

Definition ownedByTenant (metadata : gmap string string) (tenant : tenancy.TenantContext) : bool :=
  match tenancy.UnmarshalMetadata metadata with
  | Ok decoded => match tenancy.VerifyUnchanged tenant decoded with Ok _ => true | Err _ => false end
  | Err _ => false
  end.

(** The first loop of [verifyEventsEquivalent]: index the target by
    sequence, refusing duplicates and events of another tenant. *)
Fixpoint index_existing (existing : list Event) (tenant : tenancy.TenantContext)
    (m : gmap N Event) (seqs : list N) : result mismatch (gmap N Event * list N) :=
  match existing with
  | [] => Ok (m, seqs)
  | e :: existing =>
    let seq := SequenceNumber e in
    if bool_decide (is_Some (m !! seq)) then Err (RepeatedSequence seq)
    else if negb (ownedByTenant (TenantMetadata e) tenant) then Err (NotOwned seq)
    else index_existing existing tenant (<[seq := e]> m) (seqs ++ [seq])
  end.

(** The source exists: every expected event is there and nothing else
    before the last of them. *)
Definition contains_expected (expected : list Event) (existingBySeq : gmap N Event) (seqs : list N) : option mismatch :=
  match first_error (fun want =>
          if bool_decide (existingBySeq !! SequenceNumber want = Some want) then None
          else Some (DiffersFromSource (SequenceNumber want))) expected with
  | Some m => Some m
  | None =>
    let maxExpected := foldl (fun m e => N.max m (SequenceNumber e)) 0%N expected in
    first_error (fun seq =>
      if negb (bool_decide (seq ∈ SequenceNumber <$> expected)) && (seq <? maxExpected)%N
      then Some (NotInSource seq) else None) seqs
  end.

(** The source is gone: the lowest events are a chain of receipts.
    [adopted] counts them, the result is what is left of [seqs]. *)
Fixpoint walk_chain (sourceScope : Scope) (existingBySeq : gmap N Event) (previous : N) (adopted : nat)
    (seqs : list N) : result mismatch (nat * list N) :=
  match seqs with
  | [] => Ok (adopted, [])
  | seq :: rest =>
    match existingBySeq !! seq with
    | None => Ok (adopted, seqs)
    | Some e =>
      if negb (hasReceipt e) then Ok (adopted, seqs)
      else match verifyAdoptionReceipt (MEvent e) sourceScope with
           | Some (Some predecessor) =>
             if bool_decide (predecessor = previous)
             then walk_chain sourceScope existingBySeq seq (S adopted) rest
             else Err (BrokenChain seq previous predecessor)
           | _ => Err (BadReceipt seq)
           end
    end
  end.

Definition proves_adoption (sourceScope : Scope) (existingBySeq : gmap N Event) (seqs : list N) : option mismatch :=
  match walk_chain sourceScope existingBySeq 0 0 seqs with
  | Err m => Some m
  | Ok (0%nat, _) => Some NoReceipt
  | Ok (_, rest) =>
    first_error (fun seq => match existingBySeq !! seq with
                            | Some e => if hasReceipt e then Some (ReceiptAfterAppend seq) else None
                            | None => None
                            end) rest
  end.

Definition verifyEventsEquivalent (expected existing : list Event) (tenant : tenancy.TenantContext)
    (sourceScope : Scope) : option adoption_error :=
  errTargetNotEquivalent KindEvents <$>
  match index_existing existing tenant ∅ [] with
  | Err m => Some m
  | Ok (existingBySeq, seqs) =>
    let seqs := sort_seqs seqs in
    match expected with
    | [] => proves_adoption sourceScope existingBySeq seqs
    | _ => contains_expected expected existingBySeq seqs
    end
  end.

Definition verifyRecordEquivalent (k : RecordKind) (expected : option Message) (expectedPos : N)
    (existing : Message) (existingPos : N) (existingMetadata : gmap string string)
    (tenant : tenancy.TenantContext) (sourceScope : Scope) : option adoption_error :=
  errTargetNotEquivalent k <$>
  if negb (ownedByTenant existingMetadata tenant) then Some RecordNotOwned
  else match expected with
       | None =>
         match verifyAdoptionReceipt existing sourceScope with
         | Some None => None
         | _ => Some (RecordNoReceipt existingPos)
         end
       | Some expected =>
         if negb (existingPos =? expectedPos)%N || negb (bool_decide (expected = existing))
         then Some (RecordDiffers existingPos expectedPos) else None
       end.

Definition classifyExisting (verdict : option adoption_error) : RecordOutcome :=
  match verdict with Some e => failed e | None => outcome StatusAlreadyPresent false end.
End Receipts.

(** ** The adopter *)
Record TenantAdopter := mkTenantAdopter {
  assign : string -> result string (string * bool);
  sourceScope : Scope;
  explicitIDs : list string;
  pageSize : N;
  write : bool;
  deleteSource : bool;
  failFast : bool
}.

(** [adoptionIntent] *)
Record adoptionIntent := mkIntent {
  itarget : Scope;
  itenant : tenancy.TenantContext;
  imetadata : gmap string string
}.

(** A call returns or panics. *)
Inductive exit (A : Type) := Returned (a : A) | Panicked.
Arguments Returned {A} a.
Arguments Panicked {A}.

Section Adopter.
Context {St Sn Sd F : Type}.
Context `{Encoding, api.EventsStore St, Pingable St, Enumerable St, api.SnapshotStore Sn, Pingable Sn,
          api.StateStore Sd, Pingable Sd, AdoptionFence F}.

(** The stores and the fence an adopter holds; an option left out is nil. *)
Record World := mkWorld {
  eventsStore : option St;
  snapshotStore : option Sn;
  stateStore : option Sd;
  fence : option F
}.
Definition set_events (w : World) (st : St) : World :=
  mkWorld (Some st) (snapshotStore w) (stateStore w) (fence w).
Definition set_snapshots (w : World) (st : Sn) : World :=
  mkWorld (eventsStore w) (Some st) (stateStore w) (fence w).
Definition set_states (w : World) (st : Sd) : World :=
  mkWorld (eventsStore w) (snapshotStore w) (Some st) (fence w).
Definition set_fence (w : World) (f : F) : World :=
  mkWorld (eventsStore w) (snapshotStore w) (stateStore w) (Some f).

Definition M (A : Type) : Type := World -> exit A * World.
#[export] Instance M_ret : MRet M := fun A a w => (Returned a, w).
#[export] Instance M_bind : MBind M := fun A B k m w =>
  match m w with
  | (Returned a, w) => k a w
  | (Panicked, w) => (Panicked, w)
  end.

(** [v, err := m; if err != nil { return h(err) }; k(v)] *)
Definition attempt {A B E} (m : M (result E A)) (h : E -> B) (k : A -> M B) : M B :=
  r ← m; match r with Ok a => k a | Err e => mret (h e) end.

(** [defer release()] around [m]: also on a panic. *)
Definition deferred {A} (release : F -> F) (m : M A) : M A := fun w =>
  let '(r, w) := m w in
  (r, match fence w with Some f => set_fence w (release f) | None => w end).

(** Calls on a nil store or fence panic. *)
Definition on_events {A} (f : St -> option (A * St)) : M A := fun w =>
  match eventsStore w with
  | Some st => match f st with Some (a, st) => (Returned a, set_events w st) | None => (Panicked, w) end
  | None => (Panicked, w)
  end.
Definition on_snapshots {A} (f : Sn -> A * Sn) : M A := fun w =>
  match snapshotStore w with
  | Some st => let '(a, st) := f st in (Returned a, set_snapshots w st)
  | None => (Panicked, w)
  end.
Definition on_states {A} (f : Sd -> A * Sd) : M A := fun w =>
  match stateStore w with
  | Some st => let '(a, st) := f st in (Returned a, set_states w st)
  | None => (Panicked, w)
  end.
Definition on_fence {A} (f : F -> A * F) : M A := fun w =>
  match fence w with
  | Some x => let '(a, x) := f x in (Returned a, set_fence w x)
  | None => (Panicked, w)
  end.

(** [ReplayEvents] over everything, as every call of this file makes it *)
Definition replayAll (sc : Scope) (id : string) : M (result store_error (list Event)) :=
  on_events (fun st => (fun r => (r, st)) <$> api.ReplayEvents st sc id 1 maxReplaySequence maxReplayLimit).
Definition writeEvents (sc : Scope) (evs : list Event) : M (result store_error unit) :=
  on_events (fun st => Some (api.WriteEvents st sc evs ExpectGenesis)).
Definition deleteEvents (sc : Scope) (id : string) (to : N) : M (result store_error unit) :=
  on_events (fun st => Some (api.DeleteEvents st sc id to)).
Definition latestEvent (sc : Scope) (id : string) : M (result store_error (option Event)) :=
  on_events (fun st => Some (api.GetLatestEvent st sc id, st)).
Definition latestSnapshot (sc : Scope) (id : string) : M (result store_error (option Snapshot)) :=
  on_snapshots (fun st => (api.GetLatestSnapshot st sc id, st)).
Definition writeSnapshot (sc : Scope) (s : Snapshot) : M (result store_error unit) :=
  on_snapshots (fun st => api.WriteSnapshot st sc s).
Definition deleteSnapshots (sc : Scope) (id : string) (to : N) : M (result store_error unit) :=
  on_snapshots (fun st => api.DeleteSnapshots st sc id to).
Definition latestState (sc : Scope) (id : string) : M (result store_error (option DurableState)) :=
  on_states (fun st => (api.GetLatestState st sc id, st)).
Definition writeState (sc : Scope) (d : DurableState) : M (result store_error unit) :=
  on_states (fun st => api.WriteState st sc d ExpectGenesis).

(** *** Fences *)
Definition fenceOrderKey (sc : Scope) : string :=
  if IsUnscoped sc then "0" else String.append "1" (TenantID sc).

(** [sort.Slice] of the two scopes by key *)
Definition fence_scopes (source target : Scope) : list Scope :=
  if testkit.str_ltb (fenceOrderKey target) (fenceOrderKey source) then [target; source] else [source; target].

(** [releases] is kept in the order they are called: latest first. *)
Fixpoint acquire_all (id : string) (scopes : list Scope) (releases : list (F -> F)) : M (result string (F -> F)) :=
  let releaseAll := fun f => foldl (fun f release => release f) f releases in
  match scopes with
  | [] => mret (Ok releaseAll)
  | sc :: scopes =>
    r ← on_fence (fun f => Acquire f sc id);
    match r with
    | Err e => _ ← on_fence (fun f => (tt, releaseAll f)); mret (Err e)
    | Ok release => acquire_all id scopes (default (fun f => f) release :: releases)
    end
  end.
Definition acquireFences (a : TenantAdopter) (id : string) (target : Scope) : M (result string (F -> F)) :=
  acquire_all id (fence_scopes (sourceScope a) target) [].

(** *** Events *)
Definition deleteVerifiedSourceEvents (a : TenantAdopter) (id : string) (sourceEvents : list Event) (maxSeq : N)
    (wrote : bool) : M RecordOutcome :=
  attempt (replayAll (sourceScope a) id) (fun e => failed (ReReadSource KindEvents e)) (fun current =>
  match sameEventsBySequence current sourceEvents with
  | Some c => mret (failed (errSourceChangedDuringAdoption KindEvents c))
  | None =>
    attempt (deleteEvents (sourceScope a) id maxSeq) (fun e => failed (DeleteSource KindEvents e)) (fun _ =>
    attempt (latestEvent (sourceScope a) id) (fun e => failed (ReReadSource KindEvents e)) (fun latest =>
    match latest with
    | Some l =>
      if (maxSeq <? SequenceNumber l)%N
      then mret (failed (errSourceChangedDuringAdoption KindEvents (Gained (SequenceNumber l))))
      else mret (failed (errSourceChangedDuringAdoption KindEvents (StillHolds (SequenceNumber l))))
    | None => mret (outcome StatusSourceDeleted wrote)
    end))
  end).

Definition afterVerifiedEvents (a : TenantAdopter) (id : string) (sourceEvents : list Event) (maxSeq : N)
    (verdict : option adoption_error) : M RecordOutcome :=
  let o := classifyExisting verdict in
  if bool_decide (Status o = StatusAlreadyPresent) && bool_decide (sourceEvents <> []) && write a && deleteSource a
  then deleteVerifiedSourceEvents a id sourceEvents maxSeq false
  else mret o.

(** The stamped clones of the source events. *)
Definition stampEvent (a : TenantAdopter) (md : gmap string string) (predecessors : gmap N N) (e : Event) : result adoption_error Event :=
  let? r := stampAdoptionReceipt (MEvent e) (sourceScope a) md (Some (default 0%N (predecessors !! SequenceNumber e))) in
  match r with MEvent e => Ok e | _ => Ok e end.

Fixpoint stampEvents (a : TenantAdopter) (md : gmap string string) (predecessors : gmap N N) (evs : list Event) : result adoption_error (list Event) :=
  match evs with
  | [] => Ok []
  | e :: evs =>
    let? c := stampEvent a md predecessors e in
    let? cs := stampEvents a md predecessors evs in
    Ok (c :: cs)
  end.

Definition max_sequence (evs : list Event) : N := foldl (fun m e => N.max m (SequenceNumber e)) 0%N evs.

Definition adoptEvents (a : TenantAdopter) (id : string) (intent : adoptionIntent) : M RecordOutcome :=
  attempt (replayAll (sourceScope a) id) (fun e => failed (ReadSource KindEvents e)) (fun sourceEvents =>
  match stampEvents a (imetadata intent) (adoptedPredecessors sourceEvents) sourceEvents with
  | Err e => mret (failed e)
  | Ok expected =>
    let maxSeq := max_sequence expected in
    let equivalent existing := verifyEventsEquivalent expected existing (itenant intent) (sourceScope a) in
    attempt (replayAll (itarget intent) id) (fun e => failed (CheckTarget KindEvents e)) (fun existing =>
    if bool_decide (existing <> []) then afterVerifiedEvents a id sourceEvents maxSeq (equivalent existing)
    else if bool_decide (sourceEvents = []) then mret (outcome StatusNone false)
    else if negb (write a) then mret (outcome StatusCopied true)
    else
      written ← writeEvents (itarget intent) expected;
      match written with
      | Err (EConflict _) =>
        attempt (replayAll (itarget intent) id) (fun e => failed (CheckTarget KindEvents e)) (fun raced =>
        afterVerifiedEvents a id sourceEvents maxSeq (equivalent raced))
      | Err e => mret (failed (WriteTarget KindEvents e))
      | Ok _ =>
        attempt (replayAll (itarget intent) id) (fun e => failed (VerifyTarget KindEvents e)) (fun written =>
        match verifyEventsMatchBySequence expected written with
        | Some e => mret (failed e)
        | None =>
          if deleteSource a then deleteVerifiedSourceEvents a id sourceEvents maxSeq true
          else mret (outcome StatusCopied true)
        end)
      end)
  end).
(** *** Snapshots *)
Definition deleteVerifiedSourceSnapshot (a : TenantAdopter) (id : string) (verified : Snapshot) (wrote : bool) : M RecordOutcome :=
  attempt (latestSnapshot (sourceScope a) id) (fun e => failed (ReReadSource KindSnapshot e)) (fun current =>
  if negb (bool_decide (current = Some verified))
  then mret (failed (errSourceChangedDuringAdoption KindSnapshot (SnapshotChanged (sSequenceNumber verified))))
  else
    attempt (deleteSnapshots (sourceScope a) id (sSequenceNumber verified)) (fun e => failed (DeleteSource KindSnapshot e)) (fun _ =>
    attempt (latestSnapshot (sourceScope a) id) (fun e => failed (ReReadSource KindSnapshot e)) (fun latest =>
    match latest with
    | Some l =>
      if (sSequenceNumber verified <? sSequenceNumber l)%N
      then mret (failed (errSourceChangedDuringAdoption KindSnapshot (Gained (sSequenceNumber l))))
      else mret (failed (errSourceChangedDuringAdoption KindSnapshot (StillHolds (sSequenceNumber l))))
    | None => mret (outcome StatusSourceDeleted wrote)
    end))).

Definition stampSnapshot (a : TenantAdopter) (md : gmap string string) (s : Snapshot) : result adoption_error Snapshot :=
  let? r := stampAdoptionReceipt (MSnapshot s) (sourceScope a) md None in
  match r with MSnapshot s => Ok s | _ => Ok s end.

(** Stamping the clone of a record that may be nil. *)
Definition stampOption {A} (stamp : A -> result adoption_error A) (x : option A) : result adoption_error (option A) :=
  match x with
  | None => Ok None
  | Some x => let? c := stamp x in Ok (Some c)
  end.

Definition adoptSnapshot (a : TenantAdopter) (id : string) (intent : adoptionIntent) : M RecordOutcome :=
  attempt (latestSnapshot (sourceScope a) id) (fun e => failed (ReadSource KindSnapshot e)) (fun snapshot =>
  match stampOption (stampSnapshot a (imetadata intent)) snapshot with
  | Err e => mret (failed e)
  | Ok clone =>
    attempt (latestSnapshot (itarget intent) id) (fun e => failed (CheckTarget KindSnapshot e)) (fun existing =>
    match existing, snapshot, clone with
    | Some existing, _, _ =>
      let o := classifyExisting (verifyRecordEquivalent KindSnapshot (MSnapshot <$> clone)
        (default 0%N (sSequenceNumber <$> clone)) (MSnapshot existing) (sSequenceNumber existing)
        (sTenantMetadata existing) (itenant intent) (sourceScope a)) in
      match snapshot with
      | Some snapshot =>
        if bool_decide (Status o = StatusAlreadyPresent) && write a && deleteSource a
        then deleteVerifiedSourceSnapshot a id snapshot false
        else mret o
      | None => mret o
      end
    | None, Some snapshot, Some clone =>
      if negb (write a) then mret (outcome StatusCopied true)
      else
        attempt (writeSnapshot (itarget intent) clone) (fun e => failed (WriteTarget KindSnapshot e)) (fun _ =>
        attempt (latestSnapshot (itarget intent) id) (fun e => failed (VerifyTarget KindSnapshot e)) (fun written =>
        if negb (bool_decide (written = Some clone))
        then mret (failed (ReadBackDiffers KindSnapshot (sSequenceNumber snapshot)))
        else if deleteSource a then deleteVerifiedSourceSnapshot a id snapshot true
        else mret (outcome StatusCopied true)))
    | None, _, _ => mret (outcome StatusNone false)
    end)
  end).

(** *** Durable state *)
Definition stampState (a : TenantAdopter) (md : gmap string string) (d : DurableState) : result adoption_error DurableState :=
  let? r := stampAdoptionReceipt (MState d) (sourceScope a) md None in
  match r with MState d => Ok d | _ => Ok d end.

(** [classifyTarget]; [None]: the target holds nothing *)
Definition classifyTarget (a : TenantAdopter) (id : string) (intent : adoptionIntent) (clone : option DurableState) : M RecordOutcome :=
  attempt (latestState (itarget intent) id) (fun e => failed (CheckTarget KindDurableState e)) (fun existing =>
  match existing with
  | None => mret (outcome StatusNone false)
  | Some existing =>
    mret (classifyExisting (verifyRecordEquivalent KindDurableState (MState <$> clone)
      (default 0%N (VersionNumber <$> clone)) (MState existing) (VersionNumber existing)
      (dTenantMetadata existing) (itenant intent) (sourceScope a)))
  end).

Definition adoptState (a : TenantAdopter) (id : string) (intent : adoptionIntent) : M RecordOutcome :=
  attempt (latestState (sourceScope a) id) (fun e => failed (ReadSource KindDurableState e)) (fun state =>
  match stampOption (stampState a (imetadata intent)) state with
  | Err e => mret (failed e)
  | Ok clone =>
    o ← classifyTarget a id intent clone;
    if negb (bool_decide (Status o = StatusNone)) then mret o
    else match state, clone with
    | Some state, Some clone =>
      if negb (write a) then mret (outcome StatusCopied true)
      else
        written ← writeState (itarget intent) clone;
        match written with
        | Err (EConflict c) =>
          o ← classifyTarget a id intent (Some clone);
          if negb (bool_decide (Status o = StatusNone)) then mret o
          else mret (failed (WriteTarget KindDurableState (EConflict c)))
        | Err e => mret (failed (WriteTarget KindDurableState e))
        | Ok _ =>
          attempt (latestState (itarget intent) id) (fun e => failed (VerifyTarget KindDurableState e)) (fun written =>
          if negb (bool_decide (written = Some clone))
          then mret (failed (ReadBackDiffers KindDurableState (VersionNumber state)))
          else mret (outcome StatusCopied true))
        end
    | _, _ => mret (outcome StatusNone false)
    end
  end).

(** *** One aggregate *)
Definition applyKind (k : RecordKind) (id : string) (o : RecordOutcome) (report : AdoptionReport) :
    option AdoptionFailure * AdoptionReport :=
  if bool_decide (Status o = StatusFailed)
  then let f := mkAdoptionFailure id (Some k) (Err_ o) in (Some f, add_failure f report)
  else (None, report).

(** A kind is adopted when its store is configured and no earlier kind
    failed. *)
Definition adoptKind (k : RecordKind) (id : string) (configured : bool) (adopt : M RecordOutcome)
    (failure : option AdoptionFailure) (report : AdoptionReport) : M (RecordOutcome * option AdoptionFailure * AdoptionReport) :=
  match failure with
  | Some f => mret (noOutcome, Some f, report)
  | None =>
    if configured then
      o ← adopt;
      let '(failure, report) := applyKind k id o report in
      mret (o, failure, report)
    else mret (noOutcome, None, report)
  end.

Definition fail_aggregate (id : string) (e : adoption_error) (report : AdoptionReport) : option AdoptionFailure * AdoptionReport :=
  let f := mkAdoptionFailure id None (Some e) in (Some f, add_failure f (add_failed report)).

(** The switch at the end of [processAggregate]. *)
Definition summarize (a : TenantAdopter) (o : AggregateOutcome) (failure : option AdoptionFailure) (report : AdoptionReport) :
    option AdoptionFailure * AdoptionReport :=
  let outcomes := [aEvents o; aSnapshot o; aDurableState o] in
  let found := existsb (fun o => negb (bool_decide (Status o = StatusNone))) outcomes in
  let copied := existsb wroteTarget outcomes in
  let deleted := existsb (fun o => bool_decide (Status o = StatusSourceDeleted)) outcomes in
  let report := add_aggregate o report in
  let with_deleted r := if deleted then add_deleted r else r in
  match failure with
  | Some f =>
    let report := add_failed report in
    let report := if copied then add_copied report else report in
    (Some f, with_deleted report)
  | None =>
    if negb found then fail_aggregate (aPersistenceID o) errNoSourceRecords report
    else if copied then
      let report := add_copied report in
      (None, if negb (write a) then report else with_deleted (add_verified report))
    else (None, with_deleted (add_present report))
  end.

Definition adoptAggregate (a : TenantAdopter) (id tenantID : string) (intent : adoptionIntent) (report : AdoptionReport) :
    M (option AdoptionFailure * AdoptionReport) := fun w =>
  (events ← adoptKind KindEvents id (bool_decide (is_Some (eventsStore w))) (adoptEvents a id intent) None report;
   let '(events, failure, report) := events in
   snapshot ← adoptKind KindSnapshot id (bool_decide (is_Some (snapshotStore w))) (adoptSnapshot a id intent) failure report;
   let '(snapshot, failure, report) := snapshot in
   state ← adoptKind KindDurableState id (bool_decide (is_Some (stateStore w))) (adoptState a id intent) failure report;
   let '(state, failure, report) := state in
   mret (summarize a (mkAggregateOutcome id tenantID events snapshot state) failure report)) w.

(** The failure returned and the report; whether [Run] stops is
    [failFast] when there is a failure. *)
Definition processAggregate (a : TenantAdopter) (id : string) (report : AdoptionReport) : M (option AdoptionFailure * AdoptionReport) :=
  match assign a id with
  | Err m => mret (fail_aggregate id (AssignmentFailed m) report)
  | Ok (_, false) => mret (None, add_skipped report)
  | Ok (tenantID, true) =>
    let report := add_assigned report in
    match NewTenantScope tenantID with
    | Err e => mret (fail_aggregate id (InvalidTarget e) report)
    | Ok target =>
      match tenancy.NewTenantContext (TenantID target) with
      | Err e => mret (fail_aggregate id (InvalidTarget e) report)
      | Ok tenantContext =>
        let intent := mkIntent target tenantContext (tenancy.MarshalMetadata tenantContext) in
        if Equal target (sourceScope a) then mret (fail_aggregate id errTargetIsSource report)
        else if write a then
          release ← acquireFences a id target;
          match release with
          | Err m => mret (fail_aggregate id (FenceNotAcquired m) report)
          | Ok release => deferred release (adoptAggregate a id tenantID intent report)
          end
        else adoptAggregate a id tenantID intent report
      end
    end
  end.

(** *** A run *)
Inductive run_error :=
| NotReachable (k : RecordKind) (e : store_error)
| ListFailed (e : store_error)
| Stopped (f : AdoptionFailure).

Definition ping_kind {S} `{Pingable S} (k : RecordKind) (s : option S) : result run_error unit * option S :=
  match s with
  | None => (Ok tt, None)
  | Some st => let '(r, st) := Ping st in (rmap_err (NotReachable k) r, Some st)
  end.

Definition pingStores : M (result run_error unit) := fun w =>
  match ping_kind KindEvents (eventsStore w) with
  | (Err e, es) => (Returned (Err e), mkWorld es (snapshotStore w) (stateStore w) (fence w))
  | (Ok _, es) =>
    match ping_kind KindSnapshot (snapshotStore w) with
    | (Err e, sn) => (Returned (Err e), mkWorld es sn (stateStore w) (fence w))
    | (Ok _, sn) =>
      let '(r, ds) := ping_kind KindDurableState (stateStore w) in
      (Returned r, mkWorld es sn ds (fence w))
    end
  end.

Definition add_id (ids : list string) (id : string) : list string :=
  if bool_decide (id ∈ ids) then ids else ids ++ [id].

(** The paging loop. [None]: a call panicked or [fuel] pages were not
    enough. *)
Fixpoint list_pages (st : St) (sc : Scope) (size : N) (fuel : nat) (token : string) (ids : list string) :
    option (result run_error (list string)) :=
  match fuel with
  | O => None
  | S fuel =>
    match PersistenceIDs st sc size token with
    | None => None
    | Some (Err e) => Some (Err (ListFailed e))
    | Some (Ok (page, next)) =>
      let ids := foldl add_id ids page in
      if bool_decide (next = "") || bool_decide (page = []) then Some (Ok ids)
      else list_pages st sc size fuel next ids
    end
  end.

Definition collectPersistenceIDs (a : TenantAdopter) (fuel : nat) : M (result run_error (list string)) := fun w =>
  let listed :=
    match eventsStore w with
    | Some st => list_pages st (sourceScope a) (pageSize a) fuel "" []
    | None => Some (Ok [])
    end in
  match listed with
  | None => (Panicked, w)
  | Some r => (Returned (let? ids := r in Ok (foldl add_id ids (explicitIDs a))), w)
  end.

Fixpoint adoptAll (a : TenantAdopter) (ids : list string) (report : AdoptionReport) : M (AdoptionReport * option run_error) :=
  match ids with
  | [] => mret (report, None)
  | id :: ids =>
    r ← processAggregate a id (add_scanned report);
    match r with
    | (Some f, report) => if failFast a then mret (report, Some (Stopped f)) else adoptAll a ids report
    | (None, report) => adoptAll a ids report
    end
  end.

(** A nil report comes with an error. *)
Definition Run (a : TenantAdopter) (fuel : nat) : M (option AdoptionReport * option run_error) :=
  attempt pingStores (fun e => (None, Some e)) (fun _ =>
  attempt (collectPersistenceIDs a fuel) (fun e => (None, Some e)) (fun ids =>
  r ← adoptAll a ids (newReport (negb (write a)));
  mret (Some r.1, r.2))).

(** *** Construction *)
Inductive AdoptionOption :=
| WithEventsStore (s : option St)
| WithSnapshotStore (s : option Sn)
| WithStateStore (s : option Sd)
| WithSourceScope (sc : Scope)
| WithScanPageSize (size : N)
| WithWriteEnabled
| WithSourceDeletion
| WithAdoptionFence (f : option F)
| WithFailFast
| WithPersistenceIDs (ids : list string).

Inductive config_error :=
  ErrAssignmentRequired | ErrNoStoresConfigured | ErrInvalidScanPageSize | BadSourceScope | ErrAdoptionFenceRequired.

Definition applyAdoption (o : AdoptionOption) (aw : TenantAdopter * World) : TenantAdopter * World :=
  let '(mkTenantAdopter f sc ids size wr del ff, w) := aw in
  let '(mkWorld es sn ds fe) := w in
  match o with
  | WithEventsStore s => (mkTenantAdopter f sc ids size wr del ff, mkWorld s sn ds fe)
  | WithSnapshotStore s => (mkTenantAdopter f sc ids size wr del ff, mkWorld es s ds fe)
  | WithStateStore s => (mkTenantAdopter f sc ids size wr del ff, mkWorld es sn s fe)
  | WithSourceScope sc => (mkTenantAdopter f sc ids size wr del ff, w)
  | WithScanPageSize size => (mkTenantAdopter f sc ids size wr del ff, w)
  | WithWriteEnabled => (mkTenantAdopter f sc ids size true del ff, w)
  | WithSourceDeletion => (mkTenantAdopter f sc ids size wr true ff, w)
  | WithAdoptionFence fe => (mkTenantAdopter f sc ids size wr del ff, mkWorld es sn ds fe)
  | WithFailFast => (mkTenantAdopter f sc ids size wr del true, w)
  | WithPersistenceIDs more => (mkTenantAdopter f sc (ids ++ more) size wr del ff, w)
  end.

Definition NewTenantAdopter (assign : option (string -> result string (string * bool))) (opts : list AdoptionOption) :
    result config_error (TenantAdopter * World) :=
  match assign with
  | None => Err ErrAssignmentRequired
  | Some assign =>
    let aw := foldl (fun aw o => applyAdoption o aw)
      (mkTenantAdopter assign Unscoped [] 500 false false false, mkWorld None None None None) opts in
    match eventsStore aw.2, snapshotStore aw.2, stateStore aw.2 with
    | None, None, None => Err ErrNoStoresConfigured
    | _, _, _ =>
      if (pageSize aw.1 =? 0)%N then Err ErrInvalidScanPageSize
      else if negb (Valid (sourceScope aw.1)) then Err BadSourceScope
      else if write aw.1 && negb (bool_decide (is_Some (fence aw.2))) then Err ErrAdoptionFenceRequired
      else Ok aw
    end
  end.
End Adopter.
End adoption.
