(* ===== verification/AdoptionReceipts.v ===== *)
(** * What an adoption receipt proves

    A receipt verifies exactly when the record is what [stampAdoptionReceipt]
    writes; a stream proves an adoption exactly when its lowest events are the
    stamped clones of some stream, in an unbroken chain. *)

From S2P Require Import Prelude GoStrings Tenancy Persistence Egopb StoreApi Adoption.
From Stdlib Require Import ZArith Lia Ascii.
Open Scope string_scope.
Local Open Scope list_scope.

Module adoption_receipts.
Import persistence egopb adoption.

(** A hexadecimal digest has no colon. *)
Class EncodingLaws `{Encoding} := { hex_no_colon b : colon ∉ sha256hex b }.

Lemma Ok_inj {E A} (a b : A) : @Ok E A a = Ok b -> a = b.
Proof. congruence. Qed.

(** ** Messages *)
Lemma metadata_set r md : tenantMetadataOf (setTenantMetadata r md) = md.
Proof. by destruct r as [[]|[]|[]]. Qed.
Lemma set_set r md md' : setTenantMetadata (setTenantMetadata r md) md' = setTenantMetadata r md'.
Proof. by destruct r as [[]|[]|[]]. Qed.
Lemma set_metadata r : setTenantMetadata r (tenantMetadataOf r) = r.
Proof. by destruct r as [[]|[]|[]]. Qed.
#[export] Hint Rewrite metadata_set set_set set_metadata : urd.

(** ** Streams in order *)
Fixpoint linked (predecessors : gmap N N) (previous : N) (seqs : list N) : Prop :=
  match seqs with
  | [] => True
  | seq :: seqs => predecessors !! seq = Some previous /\ linked predecessors seq seqs
  end.

Lemma link_other previous seqs acc n : n ∉ seqs -> link previous seqs acc !! n = acc !! n.
Proof.
  revert previous acc. induction seqs as [|s seqs IH]; [done|]. intros previous acc [Hn Hs]%not_elem_of_cons. simpl.
  rewrite IH by done. by apply lookup_insert_ne.
Qed.

Lemma link_linked previous seqs acc : NoDup seqs -> linked (link previous seqs acc) previous seqs.
Proof.
  revert previous acc. induction seqs as [|s seqs IH]; [done|]. intros previous acc [Hs Hnd]%NoDup_cons. simpl.
  split; [|by apply IH]. rewrite link_other by done. apply lookup_insert_eq.
Qed.

Lemma sorted_seqs l : StronglySorted api.seq_lt l -> StronglySorted N.lt (SequenceNumber <$> l).
Proof. induction 1 as [|e l _ IH Hf]; [constructor|]. simpl. constructor; [done|]. by apply Forall_fmap. Qed.

Lemma sorted_NoDup l : StronglySorted api.seq_lt l -> NoDup (SequenceNumber <$> l).
Proof.
  induction 1 as [|e l _ IH Hf]; [constructor|]. simpl. constructor; [|done].
  intros (e' & He & Hin)%list_elem_of_fmap. rewrite Forall_forall in Hf. apply Hf in Hin. unfold api.seq_lt in Hin. lia.
Qed.

Lemma sort_sorted seqs : StronglySorted N.lt seqs -> sort_seqs seqs = seqs.
Proof.
  intros Hs. apply (StronglySorted_unique N.le).
  - apply (StronglySorted_merge_sort N.le).
  - induction Hs as [|n seqs _ IH Hf]; constructor; [done|]. eapply Forall_impl; [exact Hf|]. simpl. lia.
  - apply merge_sort_Permutation.
Qed.

Lemma by_sequence_snoc l e : by_sequence (l ++ [e]) = <[SequenceNumber e := e]> (by_sequence l).
Proof. unfold by_sequence. by rewrite foldl_snoc. Qed.

Lemma by_sequence_lookup l n e : NoDup (SequenceNumber <$> l) ->
  by_sequence l !! n = Some e <-> e ∈ l /\ SequenceNumber e = n.
Proof.
  induction l as [|x l IH] using rev_ind; intros Hnd.
  { unfold by_sequence. simpl. rewrite lookup_empty. set_solver. }
  rewrite fmap_app, NoDup_app in Hnd. destruct Hnd as (Hnd & Hx & _). rewrite by_sequence_snoc, lookup_insert_Some, IH by done.
  rewrite elem_of_app, list_elem_of_singleton. simpl in Hx.
  split; [naive_solver|]. intros [[He| ->] <-]; [|by left]. right. split; [|done].
  intros E. apply (Hx (SequenceNumber e)); [by apply list_elem_of_fmap_2|]. rewrite E. by left.
Qed.

Lemma index_existing_ok l tenant m seqs : NoDup (SequenceNumber <$> l) ->
  Forall (fun e => m !! SequenceNumber e = None) l ->
  Forall (fun e => ownedByTenant (TenantMetadata e) tenant = true) l ->
  index_existing l tenant m seqs = Ok (foldl (fun m e => <[SequenceNumber e := e]> m) m l, seqs ++ (SequenceNumber <$> l)).
Proof.
  revert m seqs. induction l as [|e l IH]; intros m seqs Hnd Hm Ho; simpl; [by rewrite app_nil_r|].
  apply NoDup_cons in Hnd as [He Hnd]. apply Forall_cons in Hm as [Hm1 Hm]. apply Forall_cons in Ho as [Ho1 Ho].
  rewrite bool_decide_eq_false_2 by (rewrite Hm1; by intros []). rewrite Ho1. simpl. rewrite IH; [|done| |done].
  - by rewrite <- app_assoc.
  - rewrite Forall_forall in Hm |- *. intros x Hx. rewrite lookup_insert_ne; [by apply Hm|].
    intros E. apply He. rewrite E. by apply list_elem_of_fmap_2.
Qed.

Lemma index_existing_owned l tenant m seqs x : index_existing l tenant m seqs = Ok x ->
  Forall (fun e => ownedByTenant (TenantMetadata e) tenant = true) l.
Proof.
  revert m seqs. induction l as [|e l IH]; intros m seqs; simpl; [constructor|].
  case_bool_decide; [done|]. destruct (ownedByTenant _ _) eqn:Ho; simpl; [|done]. constructor; [done|]. by eapply IH.
Qed.

(** The index of a stream read in order. *)
Lemma index_existing_sorted l tenant : StronglySorted api.seq_lt l ->
  Forall (fun e => ownedByTenant (TenantMetadata e) tenant = true) l ->
  index_existing l tenant ∅ [] = Ok (by_sequence l, SequenceNumber <$> l).
Proof.
  intros Hs Ho. rewrite index_existing_ok; [done|by apply sorted_NoDup| |done].
  apply Forall_forall. intros. apply lookup_empty.
Qed.

Lemma first_error_None {A E} (check : A -> option E) l :
  first_error check l = None <-> Forall (fun x => check x = None) l.
Proof.
  induction l as [|x l IH]; simpl; [by split; constructor|]. rewrite Forall_cons.
  destruct (check x); [naive_solver|]. rewrite IH. naive_solver.
Qed.

Lemma seqs_sorted l : StronglySorted N.lt (SequenceNumber <$> l) -> StronglySorted api.seq_lt l.
Proof.
  induction l as [|e l IH]; simpl; [constructor|]. intros [Hs Hf]%StronglySorted_inv. constructor; [by apply IH|].
  by rewrite Forall_fmap in Hf.
Qed.

Section Receipts.
Context `{EncodingLaws}.

Lemma cut_colon_none l : colon ∉ l -> cut_list [colon] l = None.
Proof.
  induction l as [|b l IH]; [done|]. intros [Hb Hl]%not_elem_of_cons. cbn [cut_list].
  by rewrite strip_prefix_None_head, IH.
Qed.

(** What [verifyAdoptionReceipt] reads of the text of a receipt. *)
Definition recorded_of (receipt : bytes) : option (option N) :=
  match strip_prefix (b2l adoptionReceiptVersion) receipt with
  | None => None
  | Some body =>
    match cut_list [colon] body with
    | Some (recorded, _) =>
      match parse_uint_list recorded with
      | Some value => if bool_decide (fmt_uint_list value = recorded) then Some (Some value) else None
      | None => None
      end
    | None => Some None
    end
  end.

Lemma verify_unfold r sc : verifyAdoptionReceipt r sc =
  match tenantMetadataOf r !! adoptionReceiptKey with
  | None => None
  | Some receipt =>
    match recorded_of (b2l receipt) with
    | None => None
    | Some p =>
      match adoptionReceipt (setTenantMetadata r (delete adoptionReceiptKey (tenantMetadataOf r))) sc p with
      | Err _ => None
      | Ok want => if bool_decide (l2b want = receipt) then Some p else None
      end
    end
  end.
Proof.
  unfold verifyAdoptionReceipt, recorded_of. destruct (_ !! _) as [receipt|]; [|done].
  by destruct (strip_prefix _ _).
Qed.

Definition u64_opt (p : option N) : Prop := match p with Some n => is_u64 n | None => True end.

Lemma recorded_of_receipt r sc p text : u64_opt p -> adoptionReceipt r sc p = Ok text -> recorded_of text = Some p.
Proof.
  unfold adoptionReceipt, recorded_of. destruct (Marshal r) as [encoded|]; [|done]. destruct p as [n|]; simpl u64_opt.
  - intros Hn <-%Ok_inj. rewrite strip_prefix_app. rewrite (cut_list_token colon []).
    + rewrite parse_fmt_uint by done. by rewrite bool_decide_eq_true_2.
    + eapply Forall_impl; [apply fmt_uint_digits|]. intros c Hc ->. unfold is_digit in Hc. vm_compute in Hc. by destruct Hc as [_ []].
  - intros _ <-%Ok_inj. rewrite strip_prefix_app. by rewrite cut_colon_none by apply hex_no_colon.
Qed.

Lemma recorded_of_u64 text p : recorded_of text = Some p -> u64_opt p.
Proof.
  unfold recorded_of. intros Hr. repeat case_match; simplify_eq/=; [|done]. by eapply parse_uint_u64.
Qed.

Lemma stamp_verifies r sc md p r' : md !! adoptionReceiptKey = None -> u64_opt p ->
  stampAdoptionReceipt r sc md p = Ok r' -> verifyAdoptionReceipt r' sc = Some p.
Proof.
  intros Hmd Hp. unfold stampAdoptionReceipt. destruct (adoptionReceipt _ _ _) as [text|] eqn:Ht; simpl; [|done].
  intros [= <-]. rewrite verify_unfold. autorewrite with urd. rewrite lookup_insert_eq, b2l_l2b.
  rewrite (recorded_of_receipt _ _ _ _ Hp Ht), delete_insert_id by done.
  rewrite ?set_set, Ht. by rewrite bool_decide_eq_true_2.
Qed.

(** A record's receipt verifies for a scope, with a predecessor, exactly when the record is what
    stamping its own content for that scope and predecessor writes: no other
    record passes, and every stamped one does. *)
Theorem receipt_roundtrip r sc p :
  verifyAdoptionReceipt r sc = Some p <->
  stampAdoptionReceipt r sc (delete adoptionReceiptKey (tenantMetadataOf r)) p = Ok r /\ u64_opt p.
Proof.
  split.
  - rewrite verify_unfold. intros Hv. destruct (_ !! _) as [receipt|] eqn:Hr; [|done].
    destruct (recorded_of _) as [p'|] eqn:Hp; [|done]. destruct (adoptionReceipt _ _ _) as [want|] eqn:Hw; [|done].
    case_bool_decide as He; [|done]. injection Hv as ->. split; [|by eapply recorded_of_u64].
    unfold stampAdoptionReceipt. rewrite Hw. simpl. rewrite set_set, He, insert_delete_id by done. by rewrite set_metadata.
  - intros [Hs Hp]. eapply stamp_verifies; [|done..]. apply lookup_delete_eq.
Qed.

(** ** Chains *)
Fixpoint chain (sc : Scope) (previous : N) (l : list Event) : Prop :=
  match l with
  | [] => True
  | e :: l => verifyAdoptionReceipt (MEvent e) sc = Some (Some previous) /\ chain sc (SequenceNumber e) l
  end.

Lemma chain_app sc previous l1 l2 : chain sc previous (l1 ++ l2) -> chain sc previous l1.
Proof. revert previous. induction l1; simpl; [done|]. naive_solver. Qed.

Lemma stampEvent_shape a md P e c : stampEvent a md P e = Ok c ->
  stampAdoptionReceipt (MEvent e) (sourceScope a) md (Some (default 0%N (P !! SequenceNumber e))) = Ok (MEvent c) /\
  SequenceNumber c = SequenceNumber e /\ PersistenceId c = PersistenceId e /\
  exists receipt, TenantMetadata c = <[adoptionReceiptKey := receipt]> md.
Proof.
  unfold stampEvent, stampAdoptionReceipt. destruct (adoptionReceipt _ _ _) as [t|]; simpl; [|done].
  destruct e; simpl. intros [= <-]. split_and!; simpl; eauto.
Qed.

Lemma stampEvents_chain a md P previous evs expected : md !! adoptionReceiptKey = None ->
  Forall (fun e => is_u64 (SequenceNumber e)) evs -> is_u64 previous ->
  linked P previous (SequenceNumber <$> evs) ->
  stampEvents a md P evs = Ok expected -> chain (sourceScope a) previous expected.
Proof.
  intros Hmd Hu. revert previous expected. induction Hu as [|e evs He _ IH]; intros previous expected Hp Hl Hs; simpl in *.
  { by injection Hs as <-. }
  destruct (stampEvent a md P e) as [c|] eqn:Hc; [|done]. destruct (stampEvents a md P evs) as [cs|] eqn:Hcs; [|done].
  injection Hs as <-. apply stampEvent_shape in Hc as (Hst & Hseq & _). destruct Hl as [Hl1 Hl2]. rewrite Hl1 in Hst. simpl.
  split; [by eapply stamp_verifies|]. rewrite Hseq. by apply IH.
Qed.

(** ** The proof once the source is gone *)
Lemma walk_chain_inv sc m previous n l x : (forall e, e ∈ l -> m !! SequenceNumber e = Some e) ->
  walk_chain sc m previous n (SequenceNumber <$> l) = Ok x ->
  exists adopted later, l = adopted ++ later /\ chain sc previous adopted /\
    x = ((n + length adopted)%nat, SequenceNumber <$> later).
Proof.
  revert previous n. induction l as [|e l IH]; intros previous n Hm; simpl.
  { intros [= <-]. exists [], []. split_and!; [done..|]. simpl. by rewrite Nat.add_0_r. }
  rewrite (Hm e) by left. destruct (hasReceipt e); simpl.
  - destruct (verifyAdoptionReceipt _ _) as [[p|]|] eqn:Hv; [|done..]. case_bool_decide as Hp; [|done]. subst p.
    intros (adopted & later & -> & Hc & ->)%IH; [|intros; apply Hm; by right].
    exists (e :: adopted), later. split_and!; [done..|]. simpl. by rewrite Nat.add_succ_r.
  - intros [= <-]. exists [], (e :: l). split_and!; [done..|]. simpl. by rewrite Nat.add_0_r.
Qed.

Lemma verify_hasReceipt e sc p : verifyAdoptionReceipt (MEvent e) sc = Some p -> hasReceipt e = true.
Proof.
  rewrite verify_unfold. unfold hasReceipt. simpl. destruct (_ !! _); [|done]. intros _. by apply bool_decide_eq_true_2.
Qed.

Lemma walk_chain_ok sc m previous n adopted later : (forall e, e ∈ adopted ++ later -> m !! SequenceNumber e = Some e) ->
  chain sc previous adopted -> Forall (fun e => hasReceipt e = false) later ->
  walk_chain sc m previous n (SequenceNumber <$> adopted ++ later) =
    Ok ((n + length adopted)%nat, SequenceNumber <$> later).
Proof.
  revert previous n. induction adopted as [|e adopted IH]; intros previous n Hm Hc Hl; simpl in *.
  - rewrite Nat.add_0_r. destruct later as [|e later]; [done|]. simpl. rewrite (Hm e) by left.
    apply Forall_cons in Hl as [He _]. by rewrite He.
  - destruct Hc as [Hv Hc]. rewrite (Hm e) by left. rewrite (verify_hasReceipt _ _ _ Hv), Hv. simpl.
    rewrite bool_decide_eq_true_2 by done. rewrite IH by (done || intros; apply Hm; by right). by rewrite Nat.add_succ_r.
Qed.

(** C32: Once the source is gone, a target read in order is accepted exactly
    when all its events belong to the tenant and it starts with a non-empty
    chain of valid receipts followed only by events without one. *)
Theorem receipts_prove_adoption existing tenant sc : StronglySorted api.seq_lt existing ->
  verifyEventsEquivalent [] existing tenant sc = None <->
  Forall (fun e => ownedByTenant (TenantMetadata e) tenant = true) existing /\
  exists adopted later, existing = adopted ++ later /\ adopted <> [] /\ chain sc 0 adopted /\
    Forall (fun e => hasReceipt e = false) later.
Proof.
  intros Hs. pose proof (sorted_NoDup _ Hs) as Hnd.
  assert (forall e, e ∈ existing -> by_sequence existing !! SequenceNumber e = Some e) as Hm
    by (intros; by apply by_sequence_lookup).
  unfold verifyEventsEquivalent. rewrite fmap_None. split.
  - destruct (index_existing _ _ _ _) as [[m seqs]|] eqn:Hi; [|done]. pose proof (index_existing_owned _ _ _ _ _ Hi) as Ho.
    rewrite index_existing_sorted in Hi by done. injection Hi as <- <-. rewrite sort_sorted by by apply sorted_seqs.
    unfold proves_adoption. destruct (walk_chain _ _ _ _ _) as [[n rest]|] eqn:Hw; [|done].
    apply walk_chain_inv in Hw as (adopted & later & Heq & Hc & [= -> ->]); [|done].
    destruct adopted as [|e adopted]; [done|]. intros Hf. split; [done|]. exists (e :: adopted), later.
    split_and!; [done..|]. apply first_error_None in Hf. rewrite Forall_fmap in Hf. rewrite Forall_forall in Hf |- *.
    intros x Hx. specialize (Hf x Hx). simpl in Hf. rewrite Hm in Hf by (rewrite Heq; apply elem_of_app; by right).
    by destruct (hasReceipt x).
  - intros (Ho & adopted & later & -> & Hne & Hc & Hl). rewrite index_existing_sorted by done.
    rewrite sort_sorted by by apply sorted_seqs. unfold proves_adoption. rewrite walk_chain_ok by done.
    destruct adopted as [|e adopted]; [done|]. simpl. apply first_error_None. rewrite Forall_fmap. apply Forall_forall.
    intros x Hx. simpl. rewrite Forall_forall in Hl. rewrite Hm by (apply elem_of_app; by right). by rewrite Hl.
Qed.

(** ** What an adoption writes proves itself *)
Lemma owned_with_receipt tc receipt : tenancy.wf tc ->
  ownedByTenant (<[adoptionReceiptKey := receipt]> (tenancy.MarshalMetadata tc)) tc = true.
Proof.
  intros Hwf. unfold ownedByTenant.
  assert (tenancy.UnmarshalMetadata (<[adoptionReceiptKey := receipt]> (tenancy.MarshalMetadata tc)) = Ok tc) as ->.
  { rewrite <- (tenancy.UnmarshalMetadata_Marshal tc Hwf). unfold tenancy.UnmarshalMetadata, tenancy.mget.
    by rewrite !lookup_insert_ne by done. }
  by destruct (tenancy.VerifyUnchanged tc tc) as [u|e] eqn:E; [|pose proof (proj2 (tenancy.VerifyUnchanged_Ok tc tc tt) eq_refl); congruence].
Qed.

Lemma stampEvents_forall2 a md P evs expected : stampEvents a md P evs = Ok expected ->
  Forall2 (fun e c => stampEvent a md P e = Ok c) evs expected.
Proof.
  revert expected. induction evs as [|e evs IH]; simpl; intros expected Hs; [injection Hs as <-; constructor|].
  destruct (stampEvent a md P e) as [c|] eqn:Hc; [|done]. destruct (stampEvents a md P evs) as [cs|]; [|done].
  injection Hs as <-. constructor; [done|]. by apply IH.
Qed.

Lemma stampEvents_seqs a md P evs expected : stampEvents a md P evs = Ok expected ->
  SequenceNumber <$> expected = SequenceNumber <$> evs.
Proof.
  intros Hs%stampEvents_forall2. induction Hs as [|e c evs expected Hc _ IH]; [done|]. simpl.
  apply stampEvent_shape in Hc as (_ & -> & _). by f_equal.
Qed.

Lemma stampEvents_sorted a md P evs expected : stampEvents a md P evs = Ok expected ->
  StronglySorted api.seq_lt evs -> StronglySorted api.seq_lt expected.
Proof. intros Hs Hv. apply seqs_sorted. rewrite (stampEvents_seqs _ _ _ _ _ Hs). by apply sorted_seqs. Qed.

Lemma stampEvents_owned a tc P evs expected : tenancy.wf tc ->
  stampEvents a (tenancy.MarshalMetadata tc) P evs = Ok expected ->
  Forall (fun e => ownedByTenant (TenantMetadata e) tc = true) expected.
Proof.
  intros Hwf Hs%stampEvents_forall2. induction Hs as [|e c evs expected Hc _ IH]; constructor; [|done].
  apply stampEvent_shape in Hc as (_ & _ & _ & receipt & ->). by apply owned_with_receipt.
Qed.

Lemma metadata_no_receipt tc : tenancy.MarshalMetadata tc !! adoptionReceiptKey = None.
Proof.
  unfold tenancy.MarshalMetadata. repeat case_match; rewrite ?lookup_insert_ne by done; apply lookup_empty.
Qed.

Lemma stamped_chain a tc evs expected : StronglySorted api.seq_lt evs ->
  Forall (fun e => is_u64 (SequenceNumber e)) evs ->
  stampEvents a (tenancy.MarshalMetadata tc) (adoptedPredecessors evs) evs = Ok expected ->
  chain (sourceScope a) 0 expected.
Proof.
  intros Hs Hu. apply stampEvents_chain; [apply metadata_no_receipt|done|done|].
  unfold adoptedPredecessors. rewrite sort_sorted by by apply sorted_seqs. by apply link_linked, sorted_NoDup.
Qed.

(** A stream an adoption wrote proves itself after its source is gone, also when
    the tenant's entity appended events to it since. *)
Theorem adopted_stream_proven a tc evs expected later :
  tenancy.wf tc -> evs <> [] -> StronglySorted api.seq_lt evs -> Forall (fun e => is_u64 (SequenceNumber e)) evs ->
  stampEvents a (tenancy.MarshalMetadata tc) (adoptedPredecessors evs) evs = Ok expected ->
  StronglySorted api.seq_lt (expected ++ later) ->
  Forall (fun e => ownedByTenant (TenantMetadata e) tc = true /\ hasReceipt e = false) later ->
  verifyEventsEquivalent [] (expected ++ later) tc (sourceScope a) = None.
Proof.
  intros Hwf Hne Hs Hu Hst Hsl Hl. apply receipts_prove_adoption; [done|]. apply Forall_and in Hl as [Hl1 Hl2]. split.
  - apply Forall_app; split; [by eapply stampEvents_owned|done].
  - exists expected, later. split_and!; [done| |by apply (stamped_chain a tc evs)|done].
    intros ->. apply stampEvents_seqs, symmetry, fmap_nil_inv in Hst. done.
Qed.

(** The chain proves that nothing is missing at the start or in the
    middle; that the last adopted events are all there it cannot: without
    them the target is still accepted. *)
Theorem truncated_adoption_accepted a tc evs kept lost :
  tenancy.wf tc -> StronglySorted api.seq_lt evs -> Forall (fun e => is_u64 (SequenceNumber e)) evs -> kept <> [] ->
  stampEvents a (tenancy.MarshalMetadata tc) (adoptedPredecessors evs) evs = Ok (kept ++ lost) ->
  verifyEventsEquivalent [] kept tc (sourceScope a) = None.
Proof.
  intros Hwf Hs Hu Hk Hst. pose proof (stampEvents_sorted _ _ _ _ _ Hst Hs) as Hsk. apply receipts_prove_adoption.
  { clear -Hsk. induction kept as [|e kept IH]; [constructor|]. apply StronglySorted_inv in Hsk as [Hsk Hf].
    apply Forall_app in Hf as [Hf _]. constructor; [by apply IH|done]. }
  pose proof (stampEvents_owned _ _ _ _ _ Hwf Hst) as Ho. apply Forall_app in Ho as [Ho _]. split; [done|].
  exists kept, []. split_and!; [by rewrite app_nil_r|done| |constructor].
  apply (chain_app _ _ kept lost). by apply (stamped_chain a tc evs).
Qed.
End Receipts.
End adoption_receipts.
