(* ===== verification/AdoptionSpec.v ===== *)
(** * Adoption never loses or overwrites a record

    [safe] relates the contents of a store before and after: records outside
    the source scope stay, every record that left the source is in a tenant
    scope as its stamped copy, and everything new is such a copy. The
    operations of [Adoption] are taken apart with [wp], the weakest
    precondition of a computation that must not panic. *)

From S2P Require Import Prelude GoStrings Tenancy Persistence Egopb StoreApi Adoption AdoptionReceipts.
From Stdlib Require Import ZArith Lia.
Open Scope string_scope.
Local Open Scope list_scope.

Module adoption_spec.
Import persistence egopb adoption adoption_receipts.

(** ** Safety of a change *)
Section Safe.
Context {R : Type} (source : Scope) (low : N) (ord : N -> N -> Prop) (copy : string -> Scope -> R -> R -> Prop).

Record safe (v v' : Scope -> string -> gmap N R) : Prop := mkSafe {
  safe_kept sc pid n r : sc <> source -> v sc pid !! n = Some r -> v' sc pid !! n = Some r;
  safe_shrinks pid n r : v' source pid !! n = Some r -> v source pid !! n = Some r;
  safe_moved pid n r : (low <= n)%N -> v source pid !! n = Some r ->
    v' source pid !! n = Some r \/
    exists n' r' sc c, ord n n' /\ v source pid !! n' = Some r' /\ sc <> source /\
      v' sc pid !! n' = Some c /\ copy pid sc r' c;
  safe_new sc pid n c : sc <> source -> v' sc pid !! n = Some c ->
    v sc pid !! n = Some c \/ exists r, v source pid !! n = Some r /\ copy pid sc r c
}.

#[export] Instance safe_preorder : PreOrder safe.
Proof.
  split.
  - intros v. split; eauto.
  - intros v1 v2 v3 H1 H2. split.
    + intros sc pid n r Hsc Hr. by apply (safe_kept _ _ H2), (safe_kept _ _ H1).
    + intros pid n r Hr. by apply (safe_shrinks _ _ H1), (safe_shrinks _ _ H2).
    + intros pid n r Hn Hr. destruct (safe_moved _ _ H1 pid n r Hn Hr) as [Hr2|(n' & r' & sc & c & Ho & Hr' & Hsc & Hc & Hcp)].
      * destruct (safe_moved _ _ H2 pid n r Hn Hr2) as [?|(n' & r' & sc & c & Ho & Hr' & Hsc & Hc & Hcp)]; [by left|].
        right. exists n', r', sc, c. split_and!; try done. by apply (safe_shrinks _ _ H1).
      * right. exists n', r', sc, c. split_and!; try done. by apply (safe_kept _ _ H2).
    + intros sc pid n c Hsc Hc. destruct (safe_new _ _ H2 sc pid n c Hsc Hc) as [Hc2|(r & Hr & Hcp)].
      * by apply (safe_new _ _ H1).
      * right. exists r. split; [by apply (safe_shrinks _ _ H1)|done].
Qed.

(** Copies of source records written where nothing was. *)
Lemma safe_write v v' target id : target <> source ->
  (forall sc pid, ~ (sc = target /\ pid = id) -> v' sc pid = v sc pid) -> v target id = ∅ ->
  (forall n c, v' target id !! n = Some c -> exists r, v source id !! n = Some r /\ copy id target r c) ->
  safe v v'.
Proof.
  intros Hts Hf He Hc. assert (forall pid, v' source pid = v source pid) as Hsrc by (intros; apply Hf; naive_solver).
  split.
  - intros sc pid n r Hsc Hr. destruct (decide (sc = target /\ pid = id)) as [[-> ->]|Hne]; [|by rewrite Hf].
    by rewrite He in Hr.
  - intros pid n r. by rewrite Hsrc.
  - intros pid n r _ Hr. left. by rewrite Hsrc.
  - intros sc pid n c Hsc Hcc. destruct (decide (sc = target /\ pid = id)) as [[-> ->]|Hne]; [|left; by rewrite <- Hf].
    right. by apply Hc.
Qed.
End Safe.

(** ** What the comparisons prove *)
Lemma match_sound expected written e : verifyEventsMatchBySequence expected written = None ->
  NoDup (SequenceNumber <$> expected) -> NoDup (SequenceNumber <$> written) -> e ∈ expected -> e ∈ written.
Proof.
  unfold verifyEventsMatchBySequence. intros Hv Hne Hnw He. do 2 (case_match; [done|]).
  apply first_error_None in Hv. rewrite Forall_forall in Hv.
  specialize (Hv (SequenceNumber e, e)). rewrite elem_of_map_to_list, by_sequence_lookup in Hv by done.
  specialize (Hv (conj He eq_refl)). simpl in Hv. destruct (by_sequence written !! _) as [got|] eqn:Hg; [|done].
  case_bool_decide; [|done]. subst got. by apply by_sequence_lookup in Hg as [? _].
Qed.

Lemma equivalent_sound `{Encoding} expected existing tc sc e :
  verifyEventsEquivalent expected existing tc sc = None -> StronglySorted api.seq_lt existing ->
  e ∈ expected -> e ∈ existing.
Proof.
  unfold verifyEventsEquivalent. rewrite fmap_None. intros Hv Hs He.
  destruct (index_existing _ _ _ _) as [[m seqs]|] eqn:Hi; [|done]. pose proof (index_existing_owned _ _ _ _ _ Hi) as Ho.
  rewrite index_existing_sorted in Hi by done. injection Hi as <- <-.
  destruct expected as [|x expected]; [by apply elem_of_nil in He|]. unfold contains_expected in Hv.
  destruct (first_error _ (x :: expected)) eqn:Hf; [done|]. apply first_error_None in Hf. rewrite Forall_forall in Hf.
  specialize (Hf e He). simpl in Hf. case_bool_decide as Hl; [|done].
  apply by_sequence_lookup in Hl as [? _]; [done|]. by apply sorted_NoDup.
Qed.

Lemma index_verified_inv verified m m' : index_verified verified m = Ok m' ->
  NoDup (SequenceNumber <$> verified) /\ Forall (fun e => m !! SequenceNumber e = None) verified /\
  forall n e, m' !! n = Some e -> m !! n = Some e \/ e ∈ verified.
Proof.
  revert m. induction verified as [|v verified IH]; intros m Hi; simpl in *; [naive_solver (constructor || set_solver)|].
  case_bool_decide as Hv; [done|]. apply IH in Hi as (Hnd & Hf & Hm). rewrite <- eq_None_not_Some in Hv. split_and!.
  - constructor; [|done]. intros (x & Hx & Hin)%list_elem_of_fmap. rewrite Forall_forall in Hf. apply Hf in Hin.
    rewrite <- Hx, lookup_insert_eq in Hin. done.
  - constructor; [done|]. eapply Forall_impl; [exact Hf|]. intros x Hx. simpl in Hx.
    apply lookup_insert_None in Hx. naive_solver.
  - intros n e [Hn|]%Hm; [|right; by right]. apply lookup_insert_Some in Hn as [[_ ->]|[_ ?]]; [right; left|by left].
Qed.

Lemma match_current_inv current m seen : match_current current m seen = None ->
  NoDup (SequenceNumber <$> current) /\ Forall (fun e => m !! SequenceNumber e = Some e /\ SequenceNumber e ∉ seen) current.
Proof.
  revert seen. induction current as [|e current IH]; intros seen Hm; simpl in *; [by split; constructor|].
  case_bool_decide as Hs; [done|]. destruct (m !! SequenceNumber e) as [want|] eqn:Hw; [|done].
  case_bool_decide as He; [|done]. subst want. apply IH in Hm as [Hnd Hf]. split; constructor.
  - intros (x & Hx & Hin)%list_elem_of_fmap. rewrite Forall_forall in Hf. apply Hf in Hin as [_ Hin]. set_solver.
  - done.
  - done.
  - eapply Forall_impl; [exact Hf|]. set_solver.
Qed.

(** The re-read source is a permutation of what was verified. *)
Lemma same_sound current verified : sameEventsBySequence current verified = None -> current ≡ₚ verified.
Proof.
  unfold sameEventsBySequence. case_match eqn:Hl; [done|].
  destruct (index_verified verified ∅) as [m|] eqn:Hi; [|done]. intros Hm.
  apply index_verified_inv in Hi as (Hnv & _ & Hv). apply match_current_inv in Hm as [Hnc Hf].
  apply submseteq_length_Permutation.
  - apply NoDup_submseteq; [by eapply NoDup_fmap_1|]. intros e He. rewrite Forall_forall in Hf.
    apply Hf in He as [He _]. apply Hv in He as [He|]; [by rewrite lookup_empty in He|done].
  - apply negb_false_iff, Nat.eqb_eq in Hl. lia.
Qed.

(** ** Maximum sequence numbers *)
Lemma max_sequence_acc m l : foldl (fun m e => N.max m (SequenceNumber e)) m l = N.max m (max_sequence l).
Proof.
  unfold max_sequence. revert m. induction l as [|e l IH]; intros m; simpl; [lia|]. rewrite IH, (IH (N.max 0 _)). lia.
Qed.
Lemma max_sequence_cons e l : max_sequence (e :: l) = N.max (SequenceNumber e) (max_sequence l).
Proof. unfold max_sequence at 1. simpl. rewrite max_sequence_acc. lia. Qed.
Lemma max_sequence_ge e l : e ∈ l -> (SequenceNumber e <= max_sequence l)%N.
Proof. induction 1; rewrite max_sequence_cons; lia. Qed.
Lemma max_sequence_in l : l <> [] -> exists e, e ∈ l /\ SequenceNumber e = max_sequence l.
Proof.
  induction l as [|e l IH]; [done|]. intros _. rewrite max_sequence_cons. destruct l as [|e' l].
  - exists e. split; [left|]. unfold max_sequence. simpl. lia.
  - destruct IH as (x & Hx & Heq); [done|]. destruct (N.max_spec (SequenceNumber e) (max_sequence (e' :: l))) as [[_ ->]|[_ ->]].
    + exists x. split; [by right|done].
    + exists e. split; [left|done].
Qed.
Lemma max_sequence_perm l1 l2 : l1 ≡ₚ l2 -> max_sequence l1 = max_sequence l2.
Proof. induction 1; rewrite ?max_sequence_cons; lia. Qed.
Lemma max_sequence_seqs l1 l2 : SequenceNumber <$> l1 = SequenceNumber <$> l2 -> max_sequence l1 = max_sequence l2.
Proof.
  revert l2. induction l1 as [|e l1 IH]; intros [|e' l2] Heq; try done. injection Heq as He Heq.
  rewrite !max_sequence_cons, He. f_equal. by apply IH.
Qed.

(** ** Weakest preconditions *)
Section Adopter.
Context {St Sn Sd F : Type}.
Abbreviation World := (@adoption.World St Sn Sd F).
Abbreviation M := (@adoption.M St Sn Sd F).

Definition wp {A} (m : M A) (Q : A -> World -> Prop) (w : World) : Prop :=
  match m w with (Returned a, w') => Q a w' | (Panicked, _) => False end.

Lemma wp_ret {A} (a : A) Q w : Q a w -> wp (mret a) Q w.
Proof. done. Qed.
Lemma wp_bind {A B} (m : M A) (k : A -> M B) Q w : wp m (fun a => wp (k a) Q) w -> wp (m ≫= k) Q w.
Proof. unfold wp, mbind, M_bind. destruct (m w) as [[a|] w']; [|done]. intros Hk. exact Hk. Qed.
Lemma wp_mono {A} (m : M A) (P Q : A -> World -> Prop) w : wp m P w -> (forall a w', P a w' -> Q a w') -> wp m Q w.
Proof. unfold wp. destruct (m w) as [[a|] w']; eauto. Qed.
Lemma wp_attempt {A B E} (m : M (result E A)) (h : E -> B) (k : A -> M B) Q w :
  wp m (fun r w' => match r with Ok a => wp (k a) Q w' | Err e => Q (h e) w' end) w -> wp (attempt m h k) Q w.
Proof. intros Hm. apply wp_bind. eapply wp_mono; [exact Hm|]. by intros [a|e] w'. Qed.

Lemma set_events_id (w : World) st : eventsStore w = Some st -> set_events w st = w.
Proof. destruct w; simpl. by intros ->. Qed.
Lemma set_snapshots_id (w : World) st : snapshotStore w = Some st -> set_snapshots w st = w.
Proof. destruct w; simpl. by intros ->. Qed.
Lemma set_states_id (w : World) st : stateStore w = Some st -> set_states w st = w.
Proof. destruct w; simpl. by intros ->. Qed.

(** *** Honest reads

    What the safety of a deletion rests on: reads return what is stored, a
    delete removes what it says, and a write leaves other scopes alone. What
    a write stores is up to the store. *)
Class HonestEvents `{api.EventsStore St} := {
  eok : St -> Prop;
  recs : St -> Scope -> string -> gmap N Event;
  recs_seq st sc pid n e : eok st -> recs st sc pid !! n = Some e -> SequenceNumber e = n;
  honest_replay st sc pid : eok st ->
    exists r, api.ReplayEvents st sc pid 1 maxReplaySequence maxReplayLimit = Some r /\
      forall l, r = Ok l -> exists all, StronglySorted api.seq_lt all /\ l = take (N.to_nat maxReplayLimit) all /\
        forall e, e ∈ all <-> (1 <= SequenceNumber e <= maxReplaySequence)%N /\ recs st sc pid !! SequenceNumber e = Some e;
  honest_latest st sc pid r : eok st -> api.GetLatestEvent st sc pid = Ok r ->
    match r with None => recs st sc pid = ∅ | Some e => recs st sc pid !! SequenceNumber e = Some e end;
  honest_write st sc evs p r st' : eok st -> api.WriteEvents st sc evs p = (r, st') ->
    eok st' /\ (forall sc' pid', sc' <> sc -> recs st' sc' pid' = recs st sc' pid');
  honest_delete st sc pid to r st' : eok st -> api.DeleteEvents st sc pid to = (r, st') ->
    eok st' /\ match r with
    | Err _ => recs st' = recs st
    | Ok _ => forall sc' pid', recs st' sc' pid' =
        if decide (sc' = sc /\ pid' = pid) then filter (fun kv => (to < kv.1)%N) (recs st sc pid) else recs st sc' pid'
    end
}.

(** *** Copies *)
Context `{EncodingLaws}.

(** [target] and [md] are what the assignment of [pid] yields. *)
Definition assigned (a : TenantAdopter) (pid : string) (intent : adoptionIntent) : Prop :=
  exists t, adoption.assign a pid = Ok (t, true) /\ NewTenantScope t = Ok (itarget intent) /\
    tenancy.NewTenantContext (TenantID (itarget intent)) = Ok (itenant intent) /\
    imetadata intent = tenancy.MarshalMetadata (itenant intent).

Definition copied_event (a : TenantAdopter) (md : gmap string string) (e c : Event) : Prop :=
  exists p, stampAdoptionReceipt (MEvent e) (sourceScope a) md (Some p) = Ok (MEvent c).

Section Events.
Context `{HonestEvents}.
Implicit Types (w : World) (st : St).

(** What reading a whole stream returns. *)
Definition replayed st sc id (l : list Event) : Prop :=
  StronglySorted api.seq_lt l /\
  (forall e, e ∈ l -> (1 <= SequenceNumber e <= maxReplaySequence)%N /\ recs st sc id !! SequenceNumber e = Some e) /\
  (forall n e, (1 <= n <= max_sequence l)%N -> recs st sc id !! n = Some e -> e ∈ l) /\
  ((N.of_nat (size (recs st sc id)) <= maxReplayLimit)%N ->
   forall n e, (1 <= n <= maxReplaySequence)%N -> recs st sc id !! n = Some e -> e ∈ l).

Lemma sorted_take k (all : list Event) : StronglySorted api.seq_lt all -> StronglySorted api.seq_lt (take k all).
Proof.
  intros Hs. revert k. induction Hs as [|e all Hs IH Hf]; intros [|k]; simpl; constructor; [done|].
  apply Forall_take, Hf.
Qed.

Lemma sorted_take_below k (all : list Event) e x : StronglySorted api.seq_lt all ->
  e ∈ all -> x ∈ take k all -> (SequenceNumber e <= SequenceNumber x)%N -> e ∈ take k all.
Proof.
  intros Hs. revert k. induction Hs as [|y all Hs IH Hf]; intros [|k]; simpl; [set_solver..|].
  rewrite !elem_of_cons. intros [->|He] [->|Hx] Hle; [by left..| |right; by eapply IH]. exfalso.
  rewrite Forall_forall in Hf. apply Hf in He. unfold api.seq_lt in He. lia.
Qed.

Lemma length_le_size (all : list Event) (m : gmap N Event) : NoDup (SequenceNumber <$> all) ->
  (forall e, e ∈ all -> m !! SequenceNumber e = Some e) -> (length all <= size m)%nat.
Proof.
  intros Hnd Hin. rewrite <- (length_fmap SequenceNumber), <- (size_list_to_set (C:=gset N)), <- size_dom by done.
  apply subseteq_size. intros n. rewrite elem_of_list_to_set. intros (e & -> & He)%list_elem_of_fmap.
  apply elem_of_dom. eauto.
Qed.

Lemma replay_replayed st sc id : eok st ->
  exists r, api.ReplayEvents st sc id 1 maxReplaySequence maxReplayLimit = Some r /\ forall l, r = Ok l -> replayed st sc id l.
Proof.
  intros Hok. destruct (honest_replay st sc id Hok) as (r & Hr & Hl). exists r. split; [done|]. intros l (all & Hs & -> & He)%Hl.
  assert (forall n e, (1 <= n <= maxReplaySequence)%N -> recs st sc id !! n = Some e -> e ∈ all) as Hall.
  { intros n e Hn Hr'. pose proof (recs_seq _ _ _ _ _ Hok Hr') as Hseq. apply He. by rewrite Hseq. }
  assert (forall e, e ∈ take (N.to_nat maxReplayLimit) all -> e ∈ all) as Htake.
  { intros e Hin. rewrite <- (take_drop (N.to_nat maxReplayLimit) all). apply elem_of_app. by left. }
  split_and!.
  - by apply sorted_take.
  - intros e Hin. by apply He, Htake.
  - intros n e [Hn1 Hn2] Hr'. destruct (decide (take (N.to_nat maxReplayLimit) all = [])) as [E|Hne].
    { rewrite E in Hn2. unfold max_sequence in Hn2. simpl in Hn2. lia. }
    destruct (max_sequence_in _ Hne) as (x & Hx & Hmax). pose proof (recs_seq _ _ _ _ _ Hok Hr') as Hseq.
    apply (sorted_take_below _ _ _ x); [done| |done|lia]. apply (Hall n); [|done].
    pose proof (proj1 (He x) (Htake x Hx)) as [Hxr _]. lia.
  - intros Hsz n e Hn Hr'. rewrite take_ge; [by apply (Hall n)|].
    assert (length all <= size (recs st sc id))%nat; [|lia].
    apply length_le_size; [by apply sorted_NoDup|]. intros x Hx. by apply He.
Qed.

Lemma wp_replay sc id w st Q : eventsStore w = Some st -> eok st ->
  (forall r, (forall l, r = Ok l -> replayed st sc id l) -> Q r w) -> wp (replayAll sc id) Q w.
Proof.
  intros Hw Hok HQ. destruct (replay_replayed st sc id Hok) as (r & Hr & Hl).
  unfold wp, replayAll, on_events. rewrite Hw, Hr. simpl. rewrite set_events_id by done. by apply HQ.
Qed.

(** *** Deleting verified source events *)
Definition in_place (a : TenantAdopter) (id : string) (intent : adoptionIntent) st (l : list Event) : Prop :=
  forall e, e ∈ l -> exists c, recs st (itarget intent) id !! SequenceNumber e = Some c /\
    copied_event a (imetadata intent) e c.

(** The change of a store that adopts [id]: only the target scope and the
    source stream of [id] are touched, and what left the source is in the
    target as its copy. *)
Record guarded (a : TenantAdopter) (id : string) (intent : adoptionIntent) st st' : Prop := mkGuarded {
  g_frame sc pid : sc <> itarget intent -> ~ (sc = sourceScope a /\ pid = id) -> recs st' sc pid = recs st sc pid;
  g_shrinks n e : recs st' (sourceScope a) id !! n = Some e -> recs st (sourceScope a) id !! n = Some e;
  g_moved n e : (1 <= n)%N -> recs st (sourceScope a) id !! n = Some e ->
    recs st' (sourceScope a) id !! n = Some e \/
    exists c, recs st' (itarget intent) id !! n = Some c /\ copied_event a (imetadata intent) e c
}.

Lemma guarded_refl a id intent st : guarded a id intent st st.
Proof. split; eauto. Qed.

Lemma wp_delete a id intent evs wrote w st :
  eventsStore w = Some st -> eok st -> itarget intent <> sourceScope a -> in_place a id intent st evs ->
  wp (deleteVerifiedSourceEvents a id evs (max_sequence evs) wrote)
    (fun o w' => exists st', w' = set_events w st' /\ eok st' /\ guarded a id intent st st' /\
       (forall pid, recs st' (itarget intent) pid = recs st (itarget intent) pid) /\
       (Status o = StatusFailed \/ o = outcome StatusSourceDeleted wrote /\ recs st' (sourceScope a) id = ∅)) w.
Proof.
  intros Hw Hok Hts Hin. apply wp_attempt, (wp_replay _ _ _ st); [done..|]. intros r Hr.
  assert (w = set_events w st) as Hself by (by rewrite set_events_id).
  destruct r as [current|e]; [|exists st; eauto 10 using guarded_refl].
  destruct (sameEventsBySequence current evs) as [ch|] eqn:Hsame; [apply wp_ret; exists st; eauto 10 using guarded_refl|].
  apply same_sound in Hsame. destruct (Hr _ eq_refl) as (Hs & Hmem & Hbelow & _). clear Hr.
  apply wp_attempt. unfold wp at 1, deleteEvents, on_events. rewrite Hw. simpl.
  destruct (api.DeleteEvents st (sourceScope a) id (max_sequence evs)) as [r st'] eqn:Hd.
  destruct (honest_delete _ _ _ _ _ _ Hok Hd) as [Hok' Hrecs]. destruct r as [u|e].
  2: { exists st'. split_and!; [done|done| |by rewrite Hrecs|by left]. split; rewrite Hrecs; eauto. }
  assert (guarded a id intent st st') as Hg.
  { split.
    - intros sc pid _ Hne. rewrite Hrecs. by case_decide.
    - intros n e. rewrite Hrecs. rewrite decide_True by done. by intros [? _]%map_lookup_filter_Some.
    - intros n e Hn He. rewrite !Hrecs. rewrite decide_True by done. rewrite decide_False by naive_solver.
      destruct (N.lt_ge_cases (max_sequence evs) n).
      + left. by apply map_lookup_filter_Some.
      + right. pose proof (recs_seq _ _ _ _ _ Hok He) as <-. apply Hin. rewrite <- Hsame. apply (Hbelow (SequenceNumber e)); [|done].
        rewrite (max_sequence_perm _ _ Hsame). lia. }
  assert (forall pid, recs st' (itarget intent) pid = recs st (itarget intent) pid) as Ht.
  { intros pid. rewrite Hrecs. by rewrite decide_False by naive_solver. }
  apply wp_attempt. unfold wp at 1, latestEvent, on_events. simpl.
  destruct (api.GetLatestEvent st' (sourceScope a) id) as [latest|e] eqn:Hl; [|exists st'; eauto 10].
  pose proof (honest_latest _ _ _ _ Hok' Hl) as Hlat. destruct latest as [l|].
  - destruct (max_sequence evs <? SequenceNumber l)%N; apply wp_ret; exists st'; eauto 10.
  - apply wp_ret. exists st'. eauto 10.
Qed.

Lemma wp_after a id intent evs verdict w st :
  eventsStore w = Some st -> eok st -> itarget intent <> sourceScope a -> (verdict = None -> in_place a id intent st evs) ->
  wp (afterVerifiedEvents a id evs (max_sequence evs) verdict)
    (fun o w' => exists st', w' = set_events w st' /\ eok st' /\ guarded a id intent st st' /\
       (forall pid, recs st' (itarget intent) pid = recs st (itarget intent) pid) /\
       (write a && deleteSource a = false -> st' = st) /\
       (Status o = StatusFailed \/ (o = outcome StatusAlreadyPresent false /\ st' = st /\ verdict = None) \/
        (o = outcome StatusSourceDeleted false /\ recs st' (sourceScope a) id = ∅ /\ verdict = None))) w.
Proof.
  intros Hw Hok Hts Hv. unfold afterVerifiedEvents. case_match eqn:Hc.
  - destruct verdict as [e|]; [done|]. rewrite <- andb_assoc in Hc. apply andb_true_iff in Hc as [_ Hc].
    eapply wp_mono; [apply wp_delete; eauto|]. intros o w' (st' & -> & Hok' & Hg & Ht & Ho). exists st'.
    split_and!; [done..| |]; [by rewrite Hc|]. destruct Ho as [?|[-> ?]]; [by left|by auto].
  - apply wp_ret. exists st. rewrite set_events_id by done. split_and!; [done|done|apply guarded_refl|done|done|].
    destruct verdict; [by left|]. right. left. done.
Qed.

(** *** Adopting events *)
Definition expected_of (a : TenantAdopter) (intent : adoptionIntent) (evs expected : list Event) : Prop :=
  stampEvents a (imetadata intent) (adoptedPredecessors evs) evs = Ok expected.

(** The write of a run: copies of what the source holds. *)
Definition writes (a : TenantAdopter) (id : string) (intent : adoptionIntent) st st1 : Prop :=
  exists r evs expected, replayed st (sourceScope a) id evs /\ expected_of a intent evs expected /\ evs <> [] /\
    api.WriteEvents st (itarget intent) expected ExpectGenesis = (r, st1).

Definition all_copied (a : TenantAdopter) (id : string) (intent : adoptionIntent) st st' : Prop :=
  (N.of_nat (size (recs st (sourceScope a) id)) <= maxReplayLimit)%N ->
  forall n e, (1 <= n <= maxReplaySequence)%N -> recs st (sourceScope a) id !! n = Some e ->
    exists c, recs st' (itarget intent) id !! n = Some c /\ copied_event a (imetadata intent) e c.

Record events_post (a : TenantAdopter) (id : string) (intent : adoptionIntent) st (o : RecordOutcome) st' : Prop := mkPost {
  p_ok : eok st';
  p_guarded : guarded a id intent st st';
  p_dry : write a = false -> st' = st;
  p_source pid : write a && deleteSource a = false -> recs st' (sourceScope a) pid = recs st (sourceScope a) pid;
  p_target : exists st1, (st1 = st \/ writes a id intent st st1) /\
    forall pid, recs st' (itarget intent) pid = recs st1 (itarget intent) pid;
  p_outcome : Status o = StatusFailed \/ (Status o = StatusCopied /\ write a = false) \/ all_copied a id intent st st'
}.

Lemma expected_member a intent evs expected e : expected_of a intent evs expected -> e ∈ evs ->
  exists c, c ∈ expected /\ SequenceNumber c = SequenceNumber e /\ copied_event a (imetadata intent) e c.
Proof.
  intros Hs%stampEvents_forall2 He. apply list_elem_of_lookup in He as [i He].
  destruct (Forall2_lookup_l _ _ _ _ _ Hs He) as (c & Hc & Hst). apply stampEvent_shape in Hst as (Hst & Hseq & _).
  exists c. split_and!; [by eapply list_elem_of_lookup_2|done|]. by eexists.
Qed.

(** Expected events read back from the target are in place. *)
Lemma in_place_read a id intent st evs expected read : replayed st (itarget intent) id read ->
  expected_of a intent evs expected -> (forall c, c ∈ expected -> c ∈ read) -> in_place a id intent st evs.
Proof.
  intros (_ & Hmem & _) Hex Hread e He. destruct (expected_member _ _ _ _ _ Hex He) as (c & Hc & Hseq & Hcp).
  exists c. split; [|done]. rewrite <- Hseq. by apply Hmem, Hread.
Qed.

Lemma in_place_all_copied a id intent st st' st1 evs : replayed st (sourceScope a) id evs -> in_place a id intent st1 evs ->
  (forall pid, recs st' (itarget intent) pid = recs st1 (itarget intent) pid) -> eok st -> all_copied a id intent st st'.
Proof.
  intros (_ & _ & _ & Hall) Hin Ht Hok Hsz n e Hn He. rewrite Ht. pose proof (recs_seq _ _ _ _ _ Hok He) as <-.
  by eapply Hin, Hall.
Qed.

Lemma guarded_write a id intent st st1 r evs : eok st -> itarget intent <> sourceScope a ->
  api.WriteEvents st (itarget intent) evs ExpectGenesis = (r, st1) -> guarded a id intent st st1.
Proof.
  intros Hok Hts Hw. destruct (honest_write _ _ _ _ _ _ Hok Hw) as [_ Hf].
  split; intros; rewrite ?Hf in * by done; eauto.
Qed.

Lemma guarded_trans a id intent st st1 st2 : itarget intent <> sourceScope a ->
  (forall pid, recs st1 (sourceScope a) pid = recs st (sourceScope a) pid) ->
  guarded a id intent st st1 -> guarded a id intent st1 st2 -> guarded a id intent st st2.
Proof.
  intros Hts Hsrc Hx1 Hx2. split.
  - intros sc pid Hsc Hne. rewrite (g_frame _ _ _ _ _ Hx2), (g_frame _ _ _ _ _ Hx1) by done. done.
  - intros n e Hn. apply (g_shrinks _ _ _ _ _ Hx2) in Hn. by rewrite Hsrc in Hn.
  - intros n e Hn He. rewrite <- Hsrc in He. by apply (g_moved _ _ _ _ _ Hx2).
Qed.

(** A deletion or classification that follows [st1]. *)
Lemma after_post a id intent st st1 st' evs o : eok st -> itarget intent <> sourceScope a ->
  (forall pid, recs st1 (sourceScope a) pid = recs st (sourceScope a) pid) -> guarded a id intent st st1 ->
  (st1 = st \/ writes a id intent st st1) -> (write a = false -> st' = st) -> replayed st (sourceScope a) id evs ->
  eok st' -> guarded a id intent st1 st' -> (forall pid, recs st' (itarget intent) pid = recs st1 (itarget intent) pid) ->
  (write a && deleteSource a = false -> st' = st1) ->
  (Status o = StatusFailed \/ in_place a id intent st1 evs) -> events_post a id intent st o st'.
Proof.
  intros Hok Hts Hsrc Hg1 Hst1 Hdry Hrep Hok' Hg Ht Hnd Ho. split; [done| |done| |by exists st1|].
  - by eapply guarded_trans.
  - intros pid Hwd. by rewrite Hnd.
  - destruct Ho as [?|Hin]; [by left|]. right. right. by eapply in_place_all_copied.
Qed.

Lemma nothing_post a id intent st o : eok st ->
  (Status o = StatusFailed \/ (Status o = StatusCopied /\ write a = false) \/ all_copied a id intent st st) ->
  events_post a id intent st o st.
Proof. intros Hok Ho. split; [done|apply guarded_refl|done|done| |done]. exists st. split; [by left|done]. Qed.

(** After a write: the conflict is classified, the copy read back, the
    source deleted when asked for. *)
Lemma wp_written a id intent evs expected w st :
  eventsStore w = Some st -> eok st -> itarget intent <> sourceScope a -> write a = true ->
  replayed st (sourceScope a) id evs -> expected_of a intent evs expected -> evs <> [] ->
  wp (written ← writeEvents (itarget intent) expected;
      match written with
      | Err (EConflict _) =>
        attempt (replayAll (itarget intent) id) (fun e => failed (CheckTarget KindEvents e)) (fun raced =>
        afterVerifiedEvents a id evs (max_sequence evs)
          (verifyEventsEquivalent expected raced (itenant intent) (sourceScope a)))
      | Err e => mret (failed (WriteTarget KindEvents e))
      | Ok _ =>
        attempt (replayAll (itarget intent) id) (fun e => failed (VerifyTarget KindEvents e)) (fun written =>
        match verifyEventsMatchBySequence expected written with
        | Some e => mret (failed e)
        | None =>
          if deleteSource a then deleteVerifiedSourceEvents a id evs (max_sequence evs) true
          else mret (outcome StatusCopied true)
        end)
      end)
     (fun o w' => exists st', w' = set_events w st' /\ events_post a id intent st o st') w.
Proof.
  intros Hw Hok Hts Hwr Hrep Hex Hne. apply wp_bind. unfold wp at 1, writeEvents, on_events. rewrite Hw.
  destruct (api.WriteEvents st (itarget intent) expected ExpectGenesis) as [r st1] eqn:Hwe.
  assert (writes a id intent st st1) as Hwrites by (exists r, evs, expected; done).
  destruct (honest_write _ _ _ _ _ _ Hok Hwe) as [Hok1 Hf].
  pose proof (guarded_write a id intent _ _ _ _ Hok Hts Hwe) as Hg1.
  assert (forall pid, recs st1 (sourceScope a) pid = recs st (sourceScope a) pid) as Hsrc by (intros; by apply Hf).
  assert (forall o st', eok st' -> guarded a id intent st1 st' ->
    (forall pid, recs st' (itarget intent) pid = recs st1 (itarget intent) pid) ->
    (write a && deleteSource a = false -> st' = st1) ->
    (Status o = StatusFailed \/ in_place a id intent st1 evs) -> events_post a id intent st o st') as Hpost.
  { intros o st' ? ? ? ? ?. apply (after_post _ _ _ _ st1 _ evs); auto. by rewrite Hwr. }
  assert (forall o, (Status o = StatusFailed \/ in_place a id intent st1 evs) ->
    exists st', set_events w st1 = set_events w st' /\ events_post a id intent st o st') as Hstop.
  { intros o Ho. exists st1. split; [done|]. by apply Hpost; [|apply guarded_refl|..]. }
  assert (eventsStore (set_events w st1) = Some st1) as Hw1 by done. assert (forall st', set_events (set_events w st1) st' = set_events w st') as Hset by done.
  simpl. revert Hw1 Hset Hstop. generalize (set_events w st1). intros w1 Hw1 Hset Hstop.
  destruct r as [u|e].
  - apply wp_attempt, (wp_replay _ _ _ st1); [done..|]. intros [read|e] Hread; [|by apply Hstop; left].
    specialize (Hread _ eq_refl). destruct (verifyEventsMatchBySequence expected read) as [e|] eqn:Hv; [by apply Hstop; left|].
    assert (in_place a id intent st1 evs) as Hin.
    { eapply in_place_read; [done..|]. intros c Hc. eapply match_sound; [done| | |done].
      - rewrite (stampEvents_seqs _ _ _ _ _ Hex). apply sorted_NoDup, Hrep.
      - apply sorted_NoDup, Hread. }
    destruct (deleteSource a) eqn:Hdel; [|by apply Hstop; right].
    eapply wp_mono; [by apply (wp_delete _ _ intent _ _ _ st1)|]. intros o w' (st' & -> & Hok' & Hg & Ht & Ho).
    exists st'. split; [by rewrite Hset|]. apply Hpost; [done..| |by right]. by rewrite Hwr.
  - destruct e; try by apply Hstop; left.
    apply wp_attempt, (wp_replay _ _ _ st1); [done..|]. intros [read|e'] Hread; [|by apply Hstop; left].
    specialize (Hread _ eq_refl).
    assert (verifyEventsEquivalent expected read (itenant intent) (sourceScope a) = None -> in_place a id intent st1 evs) as Hin.
    { intros Hv. eapply in_place_read; [done..|]. intros c' Hc. eapply equivalent_sound; [done|apply Hread|done]. }
    eapply wp_mono; [by apply (wp_after _ _ intent _ _ _ st1)|]. intros o w' (st' & -> & Hok' & Hg & Ht & Hnd & Ho).
    exists st'. split; [by rewrite Hset|]. apply Hpost; [done..|].
    destruct Ho as [?|[(_ & _ & ?)|(_ & _ & ?)]]; auto.
Qed.

Lemma wp_adoptEvents a id intent w st :
  eventsStore w = Some st -> eok st -> itarget intent <> sourceScope a ->
  wp (adoptEvents a id intent) (fun o w' => exists st', w' = set_events w st' /\ events_post a id intent st o st') w.
Proof.
  intros Hw Hok Hts. assert (w = set_events w st) as Hself by (by rewrite set_events_id).
  assert (forall o, (Status o = StatusFailed \/ (Status o = StatusCopied /\ write a = false) \/ all_copied a id intent st st) ->
    exists st', w = set_events w st' /\ events_post a id intent st o st') as Hstop.
  { intros o Ho. exists st. split; [done|]. by apply nothing_post. }
  apply wp_attempt, (wp_replay _ _ _ st); [done..|]. intros [evs|e] Hrep; [|by apply Hstop; left]. specialize (Hrep _ eq_refl).
  destruct (stampEvents _ _ _ _) as [expected|e] eqn:Hex; [|by apply Hstop; left].
  rewrite (max_sequence_seqs expected evs) by by eapply stampEvents_seqs.
  apply wp_attempt, (wp_replay _ _ _ st); [done..|]. intros [existing|e] Hext; [|by apply Hstop; left]. specialize (Hext _ eq_refl).
  case_bool_decide.
  - assert (verifyEventsEquivalent expected existing (itenant intent) (sourceScope a) = None -> in_place a id intent st evs) as Hin.
    { intros Hv. eapply in_place_read; [done..|]. intros c Hc. eapply equivalent_sound; [done|apply Hext|done]. }
    eapply wp_mono; [by apply (wp_after _ _ intent _ _ _ st)|]. intros o w' (st' & -> & Hok' & Hg & Ht & Hnd & Ho).
    exists st'. split; [done|]. apply (after_post _ _ _ _ st _ evs); auto using guarded_refl.
    + intros Hwr. apply Hnd. by rewrite Hwr.
    + destruct Ho as [?|[(_ & _ & ?)|(_ & _ & ?)]]; auto.
  - case_bool_decide as Hemp.
    { apply Hstop. right. right. subst evs. intros Hsz n e Hn He. exfalso.
      destruct Hrep as (_ & _ & _ & Hall). by eapply not_elem_of_nil, Hall. }
    destruct (write a) eqn:Hwr; [|apply Hstop; right; by left]. by apply wp_written.
Qed.

(** C20: On a store that returns what it holds, deletes what it says and writes
    only in the scope it is given ([HonestEvents]), whatever else it makes of
    the copies it is given, and for a target scope other than the source:
    adopting the events of an aggregate changes no scope but source and target
    and, in the source, no stream but that of the aggregate (about other
    streams of the target scope nothing is claimed). It removes an event from
    the source only when the target, as read back, holds its stamped copy under
    the same sequence number. An outcome other than a failure (or a plan) means
    that every event read from the source has its copy there. *)
Theorem deletion_follows_verified_copy a id intent w st :
  eventsStore w = Some st -> eok st -> itarget intent <> sourceScope a ->
  exists o st', adoptEvents a id intent w = (Returned o, set_events w st') /\
    (forall sc pid, sc <> itarget intent -> ~ (sc = sourceScope a /\ pid = id) -> recs st' sc pid = recs st sc pid) /\
    (forall n e, (1 <= n)%N -> recs st (sourceScope a) id !! n = Some e -> recs st' (sourceScope a) id !! n = Some e \/
       exists c, recs st' (itarget intent) id !! n = Some c /\ copied_event a (imetadata intent) e c) /\
    (write a && deleteSource a = false -> recs st' (sourceScope a) id = recs st (sourceScope a) id) /\
    (Status o = StatusFailed \/ (Status o = StatusCopied /\ write a = false) \/ all_copied a id intent st st').
Proof.
  intros Hw Hok Hts. pose proof (wp_adoptEvents a id intent w st Hw Hok Hts) as Hp. unfold wp in Hp.
  destruct (adoptEvents a id intent w) as [[o|] w']; [|done]. destruct Hp as (st' & -> & [Hok' [Hf _ Hm] _ Hs _ Ho]).
  exists o, st'. split_and!; auto.
Qed.
End Events.

(** *** Snapshots *)
Class HonestSnapshots `{api.SnapshotStore Sn} := {
  sok : Sn -> Prop;
  snaps : Sn -> Scope -> string -> gmap N Snapshot;
  honest_slatest st sc pid r : sok st -> wf_scope sc -> api.GetLatestSnapshot st sc pid = Ok r ->
    api.latest_snapshot (snaps st sc pid) r;
  honest_swrite st sc s r st' : sok st -> wf_scope sc -> api.WriteSnapshot st sc s = (r, st') ->
    sok st' /\ (forall sc' pid', sc' <> sc -> snaps st' sc' pid' = snaps st sc' pid');
  honest_sdelete st sc pid to r st' : sok st -> wf_scope sc -> api.DeleteSnapshots st sc pid to = (r, st') ->
    sok st' /\ match r with
    | Err _ => snaps st' = snaps st
    | Ok _ => forall sc' pid', snaps st' sc' pid' =
        if decide (sc' = sc /\ pid' = pid) then filter (fun kv => (to < kv.1)%N) (snaps st sc pid) else snaps st sc' pid'
    end
}.

Definition copied_snapshot (a : TenantAdopter) (md : gmap string string) (s c : Snapshot) : Prop :=
  stampAdoptionReceipt (MSnapshot s) (sourceScope a) md None = Ok (MSnapshot c).

Lemma stampSnapshot_shape a md s c : stampSnapshot a md s = Ok c ->
  copied_snapshot a md s c /\ sSequenceNumber c = sSequenceNumber s /\ sPersistenceId c = sPersistenceId s.
Proof.
  unfold stampSnapshot, copied_snapshot, stampAdoptionReceipt. destruct (adoptionReceipt _ _ _) as [t|]; simpl; [|done].
  destruct s; simpl. by intros [= <-].
Qed.

Section Snapshots.
Context `{HonestSnapshots}.
Context (a : TenantAdopter) (id : string) (intent : adoptionIntent).
Context (Hts : itarget intent <> sourceScope a) (Hsrc : wf_scope (sourceScope a)) (Htgt : wf_scope (itarget intent)).
Implicit Types (w : World) (st : Sn).

(** The copy of the latest source snapshot [s]. *)
Definition snapshot_in_place st (s : Snapshot) : Prop :=
  exists c, snaps st (itarget intent) id !! sSequenceNumber s = Some c /\ copied_snapshot a (imetadata intent) s c.

Record sguarded st st' : Prop := mkSGuarded {
  sg_frame sc pid : sc <> itarget intent -> ~ (sc = sourceScope a /\ pid = id) -> snaps st' sc pid = snaps st sc pid;
  sg_shrinks n s : snaps st' (sourceScope a) id !! n = Some s -> snaps st (sourceScope a) id !! n = Some s;
  sg_moved n s : snaps st (sourceScope a) id !! n = Some s ->
    snaps st' (sourceScope a) id !! n = Some s \/
    exists n' s' c, (n <= n')%N /\ snaps st (sourceScope a) id !! n' = Some s' /\
      snaps st' (itarget intent) id !! n' = Some c /\ copied_snapshot a (imetadata intent) s' c
}.

Lemma sguarded_refl st : sguarded st st.
Proof. split; eauto. Qed.

Lemma wp_latestSnapshot sc w st Q : snapshotStore w = Some st -> sok st -> wf_scope sc ->
  (forall r, (forall x, r = Ok x -> api.latest_snapshot (snaps st sc id) x) -> Q r w) -> wp (latestSnapshot sc id) Q w.
Proof.
  intros Hw Hok Hsc HQ. unfold wp, latestSnapshot, on_snapshots. rewrite Hw, set_snapshots_id by done.
  apply HQ. intros x Hx. by apply honest_slatest.
Qed.

Lemma wp_deleteSnapshot s wrote w st : snapshotStore w = Some st -> sok st -> snapshot_in_place st s ->
  wp (deleteVerifiedSourceSnapshot a id s wrote)
    (fun o w' => exists st', w' = set_snapshots w st' /\ sok st' /\ sguarded st st' /\
       (forall pid, snaps st' (itarget intent) pid = snaps st (itarget intent) pid) /\
       (Status o = StatusFailed \/ o = outcome StatusSourceDeleted wrote /\ snaps st' (sourceScope a) id = ∅)) w.
Proof.
  intros Hw Hok (c & Hc & Hcp). assert (w = set_snapshots w st) as Hself by (by rewrite set_snapshots_id).
  apply wp_attempt, (wp_latestSnapshot _ _ st); [done..|]. intros [current|e] Hr; [|exists st; eauto 10 using sguarded_refl].
  specialize (Hr _ eq_refl). case_bool_decide as Hcur; simpl; [|apply wp_ret; exists st; eauto 10 using sguarded_refl].
  subst current. destruct Hr as [Hs Hmax]. apply wp_attempt. unfold wp at 1, deleteSnapshots, on_snapshots. rewrite Hw.
  destruct (api.DeleteSnapshots st (sourceScope a) id (sSequenceNumber s)) as [r st'] eqn:Hd.
  destruct (honest_sdelete _ _ _ _ _ _ Hok Hsrc Hd) as [Hok' Hrecs]. destruct r as [u|e].
  2: { exists st'. split_and!; [done|done| |by rewrite Hrecs|by left]. split; rewrite Hrecs; eauto. }
  assert (forall pid, snaps st' (itarget intent) pid = snaps st (itarget intent) pid) as Ht.
  { intros pid. rewrite Hrecs. by rewrite decide_False by naive_solver. }
  assert (sguarded st st') as Hg.
  { split.
    - intros sc pid _ Hne. rewrite Hrecs. by case_decide.
    - intros n x. rewrite Hrecs. rewrite decide_True by done. by intros [? _]%map_lookup_filter_Some.
    - intros n x Hx. right. exists (sSequenceNumber s), s, c. rewrite Ht. split_and!; [|done..]. by eapply Hmax. }
  apply wp_attempt, (wp_latestSnapshot _ _ st'); [done..|]. intros [latest|e] Hl; [|exists st'; eauto 10].
  specialize (Hl _ eq_refl). destruct latest as [l|].
  - destruct (sSequenceNumber s <? sSequenceNumber l)%N; apply wp_ret; exists st'; eauto 10.
  - apply wp_ret. exists st'. eauto 10.
Qed.

Definition swrites st st1 : Prop :=
  exists r s c, snaps st (sourceScope a) id !! sSequenceNumber s = Some s /\ stampSnapshot a (imetadata intent) s = Ok c /\
    snaps st (itarget intent) id = ∅ /\ api.WriteSnapshot st (itarget intent) c = (r, st1).

Definition latest_copied st st' : Prop :=
  forall s, api.latest_snapshot (snaps st (sourceScope a) id) (Some s) -> snapshot_in_place st' s.

Record snapshots_post st (o : RecordOutcome) st' : Prop := mkSPost {
  sp_ok : sok st';
  sp_guarded : sguarded st st';
  sp_dry : write a = false -> st' = st;
  sp_source pid : write a && deleteSource a = false -> snaps st' (sourceScope a) pid = snaps st (sourceScope a) pid;
  sp_target : exists st1, (st1 = st \/ swrites st st1) /\
    forall pid, snaps st' (itarget intent) pid = snaps st1 (itarget intent) pid;
  sp_outcome : Status o = StatusFailed \/ (Status o = StatusCopied /\ write a = false) \/ latest_copied st st'
}.

Lemma latest_unique m s s' : api.latest_snapshot m (Some s) -> api.latest_snapshot m (Some s') -> s = s'.
Proof.
  intros [Hl1 M1] [Hl2 M2]. assert (sSequenceNumber s = sSequenceNumber s') as E; [|congruence].
  apply N.le_antisymm; eauto.
Qed.

(** The deletion, or no deletion, of the source snapshot [s] whose copy is
    in place after [st1]. *)
Lemma wp_snapshot_done st st1 w s wrote : snapshotStore w = Some st1 -> sok st -> sok st1 ->
  (forall pid, snaps st1 (sourceScope a) pid = snaps st (sourceScope a) pid) ->
  (forall sc pid, sc <> itarget intent -> snaps st1 sc pid = snaps st sc pid) ->
  (st1 = st \/ swrites st st1) -> (write a = true) ->
  api.latest_snapshot (snaps st (sourceScope a) id) (Some s) -> snapshot_in_place st1 s ->
  wp (deleteVerifiedSourceSnapshot a id s wrote)
    (fun o w' => exists st', w' = set_snapshots w st' /\ (deleteSource a = true -> snapshots_post st o st')) w.
Proof.
  intros Hw Hok Hok1 Hs1 Hf1 Hst1 Hwr Hlat Hin. eapply wp_mono; [by apply (wp_deleteSnapshot _ _ _ st1)|].
  intros o w' (st' & -> & Hok' & Hg & Ht & Ho). exists st'. split; [done|]. intros Hdel. split; [done| | | |by exists st1|].
  - split.
    + intros sc pid Hsc Hne. by rewrite (sg_frame _ _ Hg), Hf1 by done.
    + intros n x Hx. apply (sg_shrinks _ _ Hg) in Hx. by rewrite Hs1 in Hx.
    + intros n x Hx. rewrite <- Hs1 in Hx |- *. by apply (sg_moved _ _ Hg).
  - by rewrite Hwr.
  - by rewrite Hwr, Hdel.
  - right. right. intros s' Hs'. rewrite (latest_unique _ _ _ Hs' Hlat). unfold snapshot_in_place. rewrite Ht. done.
Qed.

(** The write of the copy [c] of [s], its read-back, and the deletion. *)
Lemma wp_snapshot_write w st s c : snapshotStore w = Some st -> sok st -> write a = true ->
  api.latest_snapshot (snaps st (sourceScope a) id) (Some s) -> stampSnapshot a (imetadata intent) s = Ok c ->
  snaps st (itarget intent) id = ∅ ->
  wp (attempt (writeSnapshot (itarget intent) c) (fun e => failed (WriteTarget KindSnapshot e)) (fun _ =>
      attempt (latestSnapshot (itarget intent) id) (fun e => failed (VerifyTarget KindSnapshot e)) (fun written =>
      if negb (bool_decide (written = Some c)) then mret (failed (ReadBackDiffers KindSnapshot (sSequenceNumber s)))
      else if deleteSource a then deleteVerifiedSourceSnapshot a id s true
      else mret (outcome StatusCopied true))))
    (fun o w' => exists st', w' = set_snapshots w st' /\ snapshots_post st o st') w.
Proof.
  intros Hw Hok Hwr Hsn Hst Hemp. pose proof Hst as (Hcp & Hseq & _)%stampSnapshot_shape.
  apply wp_attempt. unfold wp at 1, writeSnapshot, on_snapshots. rewrite Hw.
  destruct (api.WriteSnapshot st (itarget intent) c) as [r st1] eqn:Hwe.
  destruct (honest_swrite _ _ _ _ _ Hok Htgt Hwe) as [Hok1 Hf].
  assert (swrites st st1) as Hwrites by (exists r, s, c; split_and!; [apply Hsn|done..]).
  assert (forall o, (Status o = StatusFailed \/ latest_copied st st1) ->
    exists st', set_snapshots w st1 = set_snapshots w st' /\ snapshots_post st o st') as Hstop1.
  { intros o Ho. exists st1. split; [done|]. split; [done| |by rewrite Hwr|..].
    - split; intros; rewrite ?Hf in * by done; eauto.
    - intros pid _. by apply Hf.
    - exists st1. split; [by right|done].
    - destruct Ho; auto. }
  destruct r as [u|e]; [|apply Hstop1; by left].
  apply wp_attempt, (wp_latestSnapshot _ _ st1); [done..|]. intros [written|e] Hrd; [|apply Hstop1; by left].
  specialize (Hrd _ eq_refl). case_bool_decide as Heq; simpl; [|apply wp_ret, Hstop1; by left]. subst written.
  destruct Hrd as [Hrd _]. rewrite Hseq in Hrd. assert (snapshot_in_place st1 s) as Hin by (by exists c).
  destruct (deleteSource a) eqn:Hdel.
  - eapply wp_mono; [apply (wp_snapshot_done st st1); auto|]. intros o w' (st' & -> & Hp). exists st'. auto.
  - apply wp_ret, Hstop1. right. intros s' Hs'. by rewrite (latest_unique _ _ _ Hs' Hsn).
Qed.

Lemma equivalent_record k expected pos existing epos md tc sc :
  verifyRecordEquivalent k (Some expected) pos existing epos md tc sc = None -> expected = existing /\ epos = pos.
Proof.
  unfold verifyRecordEquivalent. rewrite fmap_None. destruct (ownedByTenant _ _); simpl; [|done].
  destruct (epos =? pos)%N eqn:E; simpl; [|done]. case_bool_decide; simpl; [|done]. intros _. split; [done|]. by apply N.eqb_eq.
Qed.

Lemma wp_adoptSnapshot w st : snapshotStore w = Some st -> sok st ->
  wp (adoptSnapshot a id intent) (fun o w' => exists st', w' = set_snapshots w st' /\ snapshots_post st o st') w.
Proof.
  intros Hw Hok. assert (w = set_snapshots w st) as Hself by (by rewrite set_snapshots_id).
  assert (forall o, (Status o = StatusFailed \/ (Status o = StatusCopied /\ write a = false) \/ latest_copied st st) ->
    exists st', w = set_snapshots w st' /\ snapshots_post st o st') as Hstop.
  { intros o Ho. exists st. split; [done|]. split; [done|apply sguarded_refl|done|done| |done]. exists st. split; [by left|done]. }
  apply wp_attempt, (wp_latestSnapshot _ _ st); [done..|]. intros [snapshot|e] Hsn; [|by apply Hstop; left]. specialize (Hsn _ eq_refl).
  destruct (stampOption _ _) as [clone|e] eqn:Hclone; [|by apply Hstop; left].
  apply wp_attempt, (wp_latestSnapshot _ _ st); [done..|]. intros [existing|e] Hext; [|by apply Hstop; left]. specialize (Hext _ eq_refl).
  assert (snapshot = None -> latest_copied st st) as Hnone.
  { intros -> s [Hs _]. simpl in Hsn. by rewrite Hsn in Hs. }
  destruct existing as [existing|].
  - destruct snapshot as [s|]; [|apply wp_ret, Hstop; by eauto].
    simpl in Hclone. destruct (stampSnapshot a (imetadata intent) s) as [c|] eqn:Hst; [|done]. injection Hclone as <-.
    apply stampSnapshot_shape in Hst as (Hcp & Hseq & _). simpl.
    destruct (verifyRecordEquivalent _ _ _ _ _ _ _ _) as [e|] eqn:Hv; [apply wp_ret, Hstop; by left|].
    apply equivalent_record in Hv as [[= <-] _]. destruct Hext as [Hext _]. rewrite Hseq in Hext.
    assert (snapshot_in_place st s) as Hin by (by exists c).
    simpl. destruct (write a && deleteSource a) eqn:Hwd; simpl.
    + apply andb_true_iff in Hwd as [Hwr Hdel]. eapply wp_mono; [apply (wp_snapshot_done st st); auto|].
      intros o w' (st' & -> & Hp). eauto.
    + apply wp_ret, Hstop. right. right. intros s' Hs'. by rewrite (latest_unique _ _ _ Hs' Hsn).
  - destruct snapshot as [s|]; [|apply wp_ret, Hstop; by eauto].
    simpl in Hclone. destruct (stampSnapshot a (imetadata intent) s) as [c|] eqn:Hst; [|done]. injection Hclone as <-. simpl.
    destruct (write a) eqn:Hwr; simpl; [|apply wp_ret, Hstop; right; by left]. by apply wp_snapshot_write.
Qed.
End Snapshots.

(** *** Durable state *)
Definition copied_state (a : TenantAdopter) (md : gmap string string) (d c : DurableState) : Prop :=
  stampAdoptionReceipt (MState d) (sourceScope a) md None = Ok (MState c).

Lemma stampState_shape a md d c : stampState a md d = Ok c ->
  copied_state a md d c /\ VersionNumber c = VersionNumber d /\ dPersistenceId c = dPersistenceId d.
Proof.
  unfold stampState, copied_state, stampAdoptionReceipt. destruct (adoptionReceipt _ _ _) as [t|]; simpl; [|done].
  destruct d; simpl. by intros [= <-].
Qed.

Section States.
Context `{api.StateStoreLaws Sd}.
Context (a : TenantAdopter) (id : string) (intent : adoptionIntent).
Implicit Types (w : World) (st : Sd).

Definition state_in_place st (d : DurableState) : Prop :=
  exists c, api.dview st (itarget intent) id = Some c /\ copied_state a (imetadata intent) d c.

Record states_post st (o : RecordOutcome) st' : Prop := mkDPost {
  dp_dry : write a = false -> st' = st;
  dp_change : st' = st \/ exists d c, api.dview st (sourceScope a) id = Some d /\ stampState a (imetadata intent) d = Ok c /\
    api.WriteState st (itarget intent) c ExpectGenesis = (Ok tt, st');
  dp_deleted : Status o <> StatusSourceDeleted;
  dp_outcome : Status o = StatusFailed \/ (Status o = StatusCopied /\ write a = false) \/
    forall d, api.dview st (sourceScope a) id = Some d -> state_in_place st' d
}.

Lemma wp_latestState sc w st Q : stateStore w = Some st ->
  (forall r, (forall x, r = Ok x -> x = api.dview st sc id) -> Q r w) -> wp (latestState sc id) Q w.
Proof.
  intros Hw HQ. unfold wp, latestState, on_states. rewrite Hw, set_states_id by done. apply HQ.
  intros x Hx. by apply api.dlatest_ok.
Qed.

Lemma wp_classifyTarget clone w st Q : stateStore w = Some st ->
  (forall e, Q (failed e) w) ->
  (api.dview st (itarget intent) id = None -> Q (outcome StatusNone false) w) ->
  (forall x, api.dview st (itarget intent) id = Some x ->
    (forall c, clone = Some c -> c = x) -> Q (outcome StatusAlreadyPresent false) w) ->
  wp (classifyTarget a id intent clone) Q w.
Proof.
  intros Hw Hf Hn Hp. apply wp_attempt, (wp_latestState _ _ st); [done|]. intros [[x|]|e] Hr.
  - specialize (Hr _ eq_refl). apply wp_ret. destruct (verifyRecordEquivalent _ _ _ _ _ _ _ _) as [e|] eqn:Hv; [apply Hf|].
    apply (Hp x); [done|]. intros c ->. by apply equivalent_record in Hv as [[= ->] _].
  - apply wp_ret, Hn. symmetry. by apply Hr.
  - apply Hf.
Qed.

Lemma wp_adoptState w st : stateStore w = Some st ->
  (forall d, api.dview st (sourceScope a) id = Some d -> dPersistenceId d = id) ->
  wp (adoptState a id intent) (fun o w' => exists st', w' = set_states w st' /\ states_post st o st') w.
Proof.
  intros Hw Hpid. assert (w = set_states w st) as Hself by (by rewrite set_states_id).
  assert (forall o, Status o <> StatusSourceDeleted ->
    (Status o = StatusFailed \/ (Status o = StatusCopied /\ write a = false) \/
     forall d, api.dview st (sourceScope a) id = Some d -> state_in_place st d) ->
    exists st', w = set_states w st' /\ states_post st o st') as Hstop.
  { intros o Hd Ho. exists st. split; [done|]. split; auto. }
  assert (forall e, exists st', w = set_states w st' /\ states_post st (failed e) st') as Hfail.
  { intros e. apply Hstop; [done|by left]. }
  apply wp_attempt, (wp_latestState _ _ st); [done|]. intros [state|e] Hd; [|apply Hfail]. specialize (Hd _ eq_refl).
  destruct (stampOption _ _) as [clone|e] eqn:Hclone; [|apply Hfail].
  assert (forall x, api.dview st (itarget intent) id = Some x -> (forall c, clone = Some c -> c = x) ->
    exists st', w = set_states w st' /\ states_post st (outcome StatusAlreadyPresent false) st') as Hpresent.
  { intros x Hx Hcx. apply Hstop; [done|]. right. right. intros d Hd'. rewrite Hd' in Hd. subst state. simpl in Hclone.
    destruct (stampState a (imetadata intent) d) as [c|] eqn:Hst; [|done]. injection Hclone as <-.
    exists c. rewrite (Hcx c eq_refl). split; [done|]. rewrite <- (Hcx c eq_refl). by apply stampState_shape in Hst as [? _]. }
  apply wp_bind, (wp_classifyTarget _ _ st); [done|intros; apply wp_ret, Hfail| |intros; apply wp_ret; by eapply Hpresent].
  intros Hnone. simpl. destruct state as [d|].
  2: { apply wp_ret, Hstop; [by destruct clone|]. right. right. by rewrite <- Hd. }
  simpl in Hclone. destruct (stampState a (imetadata intent) d) as [c|] eqn:Hst; [|done]. injection Hclone as <-.
  destruct (write a) eqn:Hwr; simpl; [|apply wp_ret, Hstop; [done|]; right; by left].
  apply wp_bind. unfold wp at 1, writeState, on_states. rewrite Hw.
  destruct (api.WriteState st (itarget intent) c ExpectGenesis) as [r st'] eqn:Hwe. destruct r as [[]|e].
  - pose proof (api.dwrite_ok _ _ _ _ _ Hwe) as (_ & _ & Hview). pose proof Hst as (Hcp & _ & Hcid)%stampState_shape.
    assert (states_post st (outcome StatusCopied true) st' /\ forall e, states_post st (failed e) st') as [Hp1 Hp2].
    { split; [|intros e]; (split; [by rewrite Hwr|right; by exists d, c|done|]); [|by left].
      right. right. intros d' Hd'. rewrite Hd' in Hd. injection Hd as ->. exists c. split; [|done].
      rewrite Hview. rewrite decide_True; [done|]. split; [done|]. rewrite Hcid. symmetry. by apply Hpid. }
    apply wp_attempt, (wp_latestState _ _ st'); [done|]. intros [x|e] _; [|by eauto].
    case_bool_decide; apply wp_ret; eauto.
  - apply api.dwrite_err in Hwe as ->. rewrite set_states_id by done. destruct e; try apply Hfail.
    apply wp_bind, (wp_classifyTarget _ _ st); [done|intros; apply wp_ret, Hfail| |intros; apply wp_ret; by eapply Hpresent].
    intros _. apply wp_ret, Hfail.
Qed.
End States.
End Adopter.
End adoption_spec.
