(* ===== verification/AdoptionSafety.v ===== *)
(** * Adoption runs

    The guarantees of a whole run over stores that keep the laws of [api]:
    nothing is lost or overwritten, a run without failures has copied every
    record it was asked to, and the report accounts for every id. *)

From S2P Require Import Prelude GoStrings Tenancy Persistence Egopb StoreApi Adoption AdoptionReceipts AdoptionSpec.
From Stdlib Require Import ZArith Lia.
Open Scope string_scope.
Local Open Scope list_scope.

Module adoption_safety.
Import persistence egopb adoption adoption_receipts adoption_spec.

(** ** Stores that keep the laws read honestly *)
Definition keyed {St} `{api.EventsStoreLaws St} (st : St) : Prop :=
  forall sc pid s n e, api.view st sc pid = Some s -> api.records s !! n = Some e -> PersistenceId e = pid.

Definition records_of {St} `{api.EventsStoreLaws St} (st : St) (sc : Scope) (pid : string) : gmap N Event :=
  api.records (default api.noStream (api.view st sc pid)).

Lemma records_commit_in s evs n e : api.records (api.commit s evs) !! n = Some e ->
  (e ∈ evs /\ SequenceNumber e = n) \/ api.records (default api.noStream s) !! n = Some e.
Proof.
  rewrite api.records_commit. destruct (last _) as [x|] eqn:Hl; [|auto]. intros [= ->]. left.
  apply last_Some in Hl as [l Hl]. assert (e ∈ filter (fun e => SequenceNumber e = n) evs) as Hin by (rewrite Hl; set_solver).
  apply list_elem_of_filter in Hin as [? ?]. done.
Qed.

Section Laws.
Context {St : Type} `{api.EventsStoreLaws St}.

Lemma keyed_write st sc evs p r st' : api.store_ok st -> keyed st -> api.WriteEvents st sc evs p = (r, st') ->
  api.store_ok st' /\ keyed st' /\ forall sc' pid', sc' <> sc -> api.view st' sc' pid' = api.view st sc' pid'.
Proof.
  intros Hok Hk Hw. destruct r as [[]|e]; [|by apply api.write_err in Hw as ->].
  apply api.write_ok in Hw as (Hok' & _ & _ & _ & Hv); [|done]. split_and!; [done| |].
  - intros sc' pid' s n e Hs He. rewrite Hv in Hs. case_decide as Hd; [|by eapply Hk]. injection Hs as <-.
    apply records_commit_in in He as [[He _]|He].
    + unfold api.of_pid in He. by apply list_elem_of_filter in He as [? _].
    + destruct (api.view st sc pid') eqn:Hvw; [|done]. by eapply Hk.
  - intros sc' pid' Hne. rewrite Hv. case_decide as Hd; [|done]. naive_solver.
Qed.

#[export] Instance lawful_events : HonestEvents (St := St).
Proof.
  refine {| eok st := api.store_ok st /\ keyed st; recs := records_of |}.
  - intros st sc pid n e [Hok _]. unfold records_of. destruct (api.view st sc pid) eqn:Hv; [|done]. simpl. intros He.
    by destruct (api.view_ok _ _ _ _ Hok Hv n e He).
  - intros st sc pid [Hok _]. destruct (api.ReplayEvents _ _ _ _ _ _) as [r|] eqn:Hr; [|by apply api.replay_total in Hr].
    exists r. split; [done|]. intros l ->. apply api.replay_ok in Hr as (all & [Hs He] & ->); [|done..]. by exists all.
  - intros st sc pid r [Hok _] Hl. apply api.latest_ok in Hl; [|done]. destruct r; [by destruct Hl|done].
  - intros st sc evs p r st' [Hok Hk] Hw. apply keyed_write in Hw as (? & ? & Hf); [|done..]. split; [done|].
    intros. unfold records_of. by rewrite Hf.
  - intros st sc pid to r st' [Hok Hk] Hd. destruct r as [[]|e]; [|by apply api.delete_err in Hd as ->].
    apply api.delete_ok in Hd as (Hok' & _ & Hv); [|done]. split.
    + split; [done|]. intros sc' pid' s n e Hs He. rewrite Hv in Hs. case_decide as Hd; [|by eapply Hk].
      destruct Hd as [-> ->]. destruct (api.view st sc pid) eqn:Hvw; [|done]. injection Hs as <-.
      apply map_lookup_filter_Some in He as [He _]. by eapply Hk.
    + intros sc' pid'. unfold records_of. rewrite Hv. case_decide as Hd; [|done]. by destruct (api.view st sc pid).
Defined.
End Laws.

#[export] Instance lawful_snapshots {Sn} `{api.SnapshotStoreLaws Sn} : HonestSnapshots (Sn := Sn).
Proof.
  refine {| sok := api.snap_ok; snaps := api.sview |}.
  - intros st sc pid r Hok Hsc Hl. by eapply api.slatest_ok.
  - intros st sc s r st' Hok Hsc Hw. destruct r as [[]|e]; [|by apply api.swrite_err in Hw as ->].
    apply api.swrite_ok in Hw as [? Hv]; [|done..]. split; [done|]. intros. rewrite Hv. by rewrite decide_False by naive_solver.
  - intros st sc pid to r st' Hok Hsc Hd. destruct r as [[]|e]; [|by apply api.sdelete_err in Hd as ->].
    apply api.sdelete_ok in Hd as [? Hv]; [|done..]. split; [done|]. intros. rewrite Hv. case_decide as Hd; [|done].
    by destruct Hd as [-> ->].
Defined.

(** ** From a guarded change to a safe one *)
Lemma safe_of_guarded {R} source low ord (copy : string -> Scope -> R -> R -> Prop) v v1 v' id target :
  target <> source -> safe source low ord copy v v1 ->
  (forall sc pid, sc <> target -> ~ (sc = source /\ pid = id) -> v' sc pid = v sc pid) ->
  (forall n r, v' source id !! n = Some r -> v source id !! n = Some r) ->
  (forall n r, (low <= n)%N -> v source id !! n = Some r -> v' source id !! n = Some r \/
    exists n' r' c, ord n n' /\ v source id !! n' = Some r' /\ v' target id !! n' = Some c /\ copy id target r' c) ->
  (forall pid, v' target pid = v1 target pid) -> safe source low ord copy v v'.
Proof.
  intros Hts Hs1 Hf Hsh Hm Ht. split.
  - intros sc pid n r Hsc Hr. destruct (decide (sc = target)) as [->|]; [|rewrite Hf by naive_solver; done].
    rewrite Ht. by apply (safe_kept _ _ _ _ _ _ Hs1).
  - intros pid n r Hr. destruct (decide (pid = id)) as [->|]; [by apply Hsh|]. by rewrite Hf in Hr by naive_solver.
  - intros pid n r Hn Hr. destruct (decide (pid = id)) as [->|]; [|left; by rewrite Hf by naive_solver].
    destruct (Hm n r Hn Hr) as [?|(n' & r' & c & ? & ? & ? & ?)]; [by left|]. right. by exists n', r', target, c.
  - intros sc pid n c Hsc Hc. destruct (decide (sc = target)) as [->|]; [|left; rewrite <- Hf by naive_solver; done].
    rewrite Ht in Hc. by apply (safe_new _ _ _ _ _ _ Hs1).
Qed.

(** ** One aggregate *)
Section Run.
Context {St Sn Sd F : Type}.
Context `{EncodingLaws} `{!api.EventsStore St} `{!api.EventsStoreLaws St} `{!Pingable St} `{!Enumerable St}.
Context `{!api.SnapshotStore Sn} `{!api.SnapshotStoreLaws Sn} `{!Pingable Sn}.
Context `{!api.StateStore Sd} `{!api.StateStoreLaws Sd} `{!Pingable Sd} `{!AdoptionFence F}.
Abbreviation World := (@adoption.World St Sn Sd F).
Implicit Types (w : World) (a : TenantAdopter).

(** [c] is the copy of a record of [pid] that its assignment calls for. *)
Definition copy_of {R} (stamped : TenantAdopter -> gmap string string -> R -> R -> Prop) (a : TenantAdopter)
    (pid : string) (sc : Scope) (r c : R) : Prop :=
  exists intent, assigned a pid intent /\ itarget intent = sc /\ stamped a (imetadata intent) r c.

Lemma assigned_unique a pid i1 i2 : assigned a pid i1 -> assigned a pid i2 -> i1 = i2.
Proof. intros (t & ? & ? & ? & ?) (t' & ? & ? & ? & ?). destruct i1, i2. simplify_eq/=. congruence. Qed.

Lemma assigned_wf a pid intent : assigned a pid intent ->
  wf_scope (itarget intent) /\ tenancy.wf (itenant intent).
Proof.
  intros (t & _ & Hs & Hc & _). split; [by apply NewTenantScope_wf in Hs as [? _]|]. by apply tenancy.NewTenantContext_wf in Hc as [? _].
Qed.

(** Every event written is the copy of a stored one, under the same id. *)
Lemma expected_sources a id intent (st : St) evs expected : eok st -> replayed st (sourceScope a) id evs ->
  expected_of a intent evs expected -> forall c, c ∈ expected ->
  exists e, records_of st (sourceScope a) id !! SequenceNumber c = Some e /\ PersistenceId c = id /\
    copied_event a (imetadata intent) e c.
Proof.
  intros [_ Hk] Hrep Hex%stampEvents_forall2 c Hc. apply list_elem_of_lookup in Hc as [i Hc].
  destruct (Forall2_lookup_r _ _ _ _ _ Hex Hc) as (e & He & Hst). apply stampEvent_shape in Hst as (Hst & Hseq & Hpid & _).
  exists e. destruct Hrep as (_ & Hmem & _). destruct (Hmem e) as [_ Hrec]; [by eapply list_elem_of_lookup_2|].
  rewrite Hseq, Hpid. split_and!; [done| |by eexists]. unfold recs, lawful_events, records_of in Hrec.
  destruct (api.view st (sourceScope a) id) eqn:Hvw; [|done]. by eapply Hk.
Qed.

Lemma safe_events a id intent st o st' : assigned a id intent -> itarget intent <> sourceScope a -> eok st ->
  events_post a id intent st o st' ->
  safe (sourceScope a) 1 eq (copy_of copied_event a) (records_of st) (records_of st').
Proof.
  intros Has Hts [Hok Hk] Hp. destruct (p_target _ _ _ _ _ _ Hp) as (st1 & Hst1 & Ht).
  apply (safe_of_guarded _ _ _ _ _ (records_of st1) _ id (itarget intent)); [done| |..].
  - destruct Hst1 as [->|(r & evs & expected & Hrep & Hex & Hne & Hw)]; [done|]. destruct r as [[]|e]; [|by apply api.write_err in Hw as ->].
    apply api.write_ok in Hw as (_ & _ & _ & Hgen & Hv); [|done]. destruct (Hgen eq_refl) as [Hsingle Hhold]. clear Hgen.
    pose proof (expected_sources a id intent st evs expected (conj Hok Hk) Hrep Hex) as Hmem.
    assert (api.target expected = id) as Htid.
    { destruct expected as [|c expected]; [done|]. by destruct (Hmem c) as (_ & _ & ? & _); [left|]. }
    rewrite Htid in Hhold. apply bool_decide_eq_true in Hhold. apply (safe_write _ _ _ _ _ _ (itarget intent) id); [done| | |].
    + intros sc pid Hne'. unfold records_of. rewrite Hv. rewrite decide_False; [done|]. intros [-> Hof].
      apply Hof, api.of_pid_other; [done|]. rewrite Htid. naive_solver.
    + unfold records_of. by rewrite Hhold.
    + intros n c. unfold records_of at 1. rewrite Hv. case_decide as Hd.
      * simpl. intros [[Hc <-]|Hc]%records_commit_in; [|by rewrite Hhold in Hc].
        unfold api.of_pid in Hc. apply list_elem_of_filter in Hc as [_ Hc]. destruct (Hmem c Hc) as (e & He & _ & Hcp).
        exists e. split; [done|]. by exists intent.
      * by rewrite Hhold.
  - intros sc pid Hsc Hne. by apply (g_frame _ _ _ _ _ (p_guarded _ _ _ _ _ _ Hp)).
  - intros n r. by apply (g_shrinks _ _ _ _ _ (p_guarded _ _ _ _ _ _ Hp)).
  - intros n r Hn Hr. destruct (g_moved _ _ _ _ _ (p_guarded _ _ _ _ _ _ Hp) n r Hn Hr) as [?|(c & ? & ?)]; [by left|].
    right. exists n, r, c. split_and!; [done..|]. by exists intent.
  - done.
Qed.

Lemma safe_snapshots a id intent st o st' : assigned a id intent -> itarget intent <> sourceScope a -> api.snap_ok st ->
  wf_scope (sourceScope a) -> snapshots_post a id intent st o st' ->
  safe (sourceScope a) 0 N.le (copy_of copied_snapshot a) (api.sview st) (api.sview st').
Proof.
  intros Has Hts Hok Hsrc Hp. destruct (sp_target _ _ _ _ _ _ Hp) as (st1 & Hst1 & Ht).
  apply (safe_of_guarded _ _ _ _ _ (api.sview st1) _ id (itarget intent)); [done| |..].
  - destruct Hst1 as [->|(r & s & c & Hs & Hst & Hemp & Hw)]; [done|]. destruct r as [[]|e]; [|by apply api.swrite_err in Hw as ->].
    apply api.swrite_ok in Hw as [_ Hv]; [|done|by apply (assigned_wf a id)]. apply stampSnapshot_shape in Hst as (Hcp & Hseq & Hpid).
    destruct (api.sview_ok _ _ _ _ _ Hok Hs) as [_ Hid]. rewrite Hid in Hpid.
    apply (safe_write _ _ _ _ _ _ (itarget intent) id); [done| |done|].
    + intros sc pid Hne. rewrite Hv, Hpid. by rewrite decide_False.
    + intros n x. rewrite Hv, Hpid. rewrite decide_True by done. intros [[<- <-]|[_ Hx]]%lookup_insert_Some.
      * exists s. rewrite Hseq. split; [done|]. by exists intent.
      * simpl in Hemp. by rewrite Hemp in Hx.
  - intros sc pid Hsc Hne. by apply (sg_frame _ _ _ _ _ (sp_guarded _ _ _ _ _ _ Hp)).
  - intros n r. by apply (sg_shrinks _ _ _ _ _ (sp_guarded _ _ _ _ _ _ Hp)).
  - intros n r _ Hr. destruct (sg_moved _ _ _ _ _ (sp_guarded _ _ _ _ _ _ Hp) n r Hr) as [?|(n' & s' & c & ? & ? & ? & ?)]; [by left|].
    right. exists n', s', c. split_and!; [done..|]. by exists intent.
  - done.
Qed.

(** A state store as a store of one record per stream. *)
Definition state_map (d : option DurableState) : gmap N DurableState := match d with Some d => {[ 0%N := d ]} | None => ∅ end.

Lemma state_map_Some d n x : state_map d !! n = Some x <-> d = Some x /\ n = 0%N.
Proof. destruct d; simpl; [rewrite lookup_singleton_Some|rewrite lookup_empty]; naive_solver. Qed.

Definition keyed_states (st : Sd) : Prop := forall sc pid d, api.dview st sc pid = Some d -> dPersistenceId d = pid.

Lemma safe_states a id intent st o st' : assigned a id intent -> itarget intent <> sourceScope a -> keyed_states st ->
  states_post a id intent st o st' ->
  keyed_states st' /\
  safe (sourceScope a) 0 eq (copy_of copied_state a) (fun sc pid => state_map (api.dview st sc pid)) (fun sc pid => state_map (api.dview st' sc pid)).
Proof.
  intros Has Hts Hk Hp. destruct (dp_change _ _ _ _ _ _ Hp) as [->|(d & c & Hd & Hst & Hw)]; [done|].
  apply api.dwrite_ok in Hw as (_ & Hhold & Hv). apply stampState_shape in Hst as (Hcp & _ & Hpid). rewrite (Hk _ _ _ Hd) in Hpid.
  rewrite Hpid in Hhold, Hv. apply bool_decide_eq_true in Hhold. split.
  - intros sc pid x. rewrite Hv. case_decide as Hc; [|apply Hk]. intros [= <-]. by destruct Hc as [_ ->].
  - apply (safe_write _ _ _ _ _ _ (itarget intent) id); [done| |by rewrite Hhold|].
    + intros sc pid Hne. by rewrite Hv, decide_False.
    + intros n x. rewrite Hv, decide_True by done. rewrite state_map_Some. intros [[= <-] ->]. exists d.
      rewrite state_map_Some. split; [done|]. by exists intent.
Qed.

(** ** The world *)
Definition events_of w (sc : Scope) (pid : string) : gmap N Event :=
  match eventsStore w with Some st => records_of st sc pid | None => ∅ end.
Definition snapshots_of w (sc : Scope) (pid : string) : gmap N Snapshot :=
  match snapshotStore w with Some st => api.sview st sc pid | None => ∅ end.
Definition states_of w (sc : Scope) (pid : string) : gmap N DurableState :=
  match stateStore w with Some st => state_map (api.dview st sc pid) | None => ∅ end.

Record world_ok w : Prop := mkWorldOk {
  ok_events st : eventsStore w = Some st -> eok st;
  ok_snapshots st : snapshotStore w = Some st -> api.snap_ok st;
  ok_states st : stateStore w = Some st -> keyed_states st
}.

(** What a run may do to the stores. *)
Record world_safe a w w' : Prop := mkWorldSafe {
  ws_events : safe (sourceScope a) 1 eq (copy_of copied_event a) (events_of w) (events_of w');
  ws_snapshots : safe (sourceScope a) 0 N.le (copy_of copied_snapshot a) (snapshots_of w) (snapshots_of w');
  ws_states : safe (sourceScope a) 0 eq (copy_of copied_state a) (states_of w) (states_of w');
  ws_source : write a && deleteSource a = false -> forall pid,
    events_of w' (sourceScope a) pid = events_of w (sourceScope a) pid /\
    snapshots_of w' (sourceScope a) pid = snapshots_of w (sourceScope a) pid;
  ws_config : (is_Some (eventsStore w') <-> is_Some (eventsStore w)) /\
    (is_Some (snapshotStore w') <-> is_Some (snapshotStore w)) /\ (is_Some (stateStore w') <-> is_Some (stateStore w))
}.

#[export] Instance world_safe_preorder a : PreOrder (world_safe a).
Proof.
  split.
  - intros w. split; naive_solver.
  - intros w1 w2 w3 Hx1 Hx2. split.
    + by rewrite (ws_events _ _ _ Hx1), (ws_events _ _ _ Hx2).
    + by rewrite (ws_snapshots _ _ _ Hx1), (ws_snapshots _ _ _ Hx2).
    + by rewrite (ws_states _ _ _ Hx1), (ws_states _ _ _ Hx2).
    + intros Hwd pid. destruct (ws_source _ _ _ Hx1 Hwd pid) as [<- <-]. by apply (ws_source _ _ _ Hx2).
    + destruct (ws_config _ _ _ Hx1) as (? & ? & ?), (ws_config _ _ _ Hx2) as (? & ? & ?). naive_solver.
Qed.

(** Which records of the aggregate are in the target, once its adoption
    reported no failure. *)
Definition complete_events a id intent w w' : Prop :=
  (N.of_nat (size (events_of w (sourceScope a) id)) <= maxReplayLimit)%N ->
  forall n e, (1 <= n <= maxReplaySequence)%N -> events_of w (sourceScope a) id !! n = Some e ->
    exists c, events_of w' (itarget intent) id !! n = Some c /\ copied_event a (imetadata intent) e c.
Definition complete_snapshot a id intent w w' : Prop :=
  forall s, api.latest_snapshot (snapshots_of w (sourceScope a) id) (Some s) ->
    exists c, snapshots_of w' (itarget intent) id !! sSequenceNumber s = Some c /\ copied_snapshot a (imetadata intent) s c.
Definition complete_state a id intent w w' : Prop :=
  forall d, states_of w (sourceScope a) id !! 0%N = Some d ->
    exists c, states_of w' (itarget intent) id !! 0%N = Some c /\ copied_state a (imetadata intent) d c.

(** One kind's step, and what it means when it does not fail. *)
Definition kind_post a (complete : World -> World -> Prop) w (o : RecordOutcome) w' : Prop :=
  world_ok w' /\ world_safe a w w' /\ (write a = false -> w' = w) /\ fence w' = fence w /\
  (Status o = StatusFailed \/ (Status o = StatusCopied /\ write a = false) \/ complete w w').

Ltac world_cbn := unfold events_of, snapshots_of, states_of; cbn [eventsStore snapshotStore stateStore fence set_events set_snapshots set_states].

Lemma kind_events a id intent w st : assigned a id intent -> itarget intent <> sourceScope a -> world_ok w ->
  eventsStore w = Some st -> wp (adoptEvents a id intent) (kind_post a (complete_events a id intent) w) w.
Proof.
  intros Has Hts Hok Hw. pose proof (ok_events _ Hok _ Hw) as He.
  eapply wp_mono; [by apply (wp_adoptEvents _ _ _ _ st)|]. intros o w' (st' & -> & Hp). split_and!.
  - split; world_cbn; [|apply Hok..]. intros x [= <-]. apply Hp.
  - split; world_cbn; rewrite ?Hw; [by eapply safe_events|done|done| |].
    + intros Hwd pid. split; [by apply (p_source _ _ _ _ _ _ Hp)|done].
    + split_and!; [|done..]. split; eauto.
  - intros Hwr. rewrite (p_dry _ _ _ _ _ _ Hp Hwr). by apply set_events_id.
  - done.
  - destruct (p_outcome _ _ _ _ _ _ Hp) as [?|[?|Hall]]; [by auto..|]. right. right. unfold complete_events. world_cbn.
    rewrite Hw. apply Hall.
Qed.

Lemma kind_snapshot a id intent w st : assigned a id intent -> itarget intent <> sourceScope a -> wf_scope (sourceScope a) ->
  world_ok w -> snapshotStore w = Some st -> wp (adoptSnapshot a id intent) (kind_post a (complete_snapshot a id intent) w) w.
Proof.
  intros Has Hts Hsrc Hok Hw. pose proof (ok_snapshots _ Hok _ Hw) as He.
  eapply wp_mono; [apply (wp_adoptSnapshot _ _ _ Hts Hsrc) with (st := st); [by apply (assigned_wf a id)|done..]|].
  intros o w' (st' & -> & Hp). split_and!.
  - split; world_cbn; [apply Hok| |apply Hok]. intros x [= <-]. apply Hp.
  - split; world_cbn; rewrite ?Hw; [done|by eapply safe_snapshots|done| |].
    + intros Hwd pid. split; [done|by apply (sp_source _ _ _ _ _ _ Hp)].
    + split_and!; [done| |done]. split; eauto.
  - intros Hwr. rewrite (sp_dry _ _ _ _ _ _ Hp Hwr). by apply set_snapshots_id.
  - done.
  - destruct (sp_outcome _ _ _ _ _ _ Hp) as [?|[?|Hall]]; [by auto..|]. right. right. unfold complete_snapshot. world_cbn.
    rewrite Hw. apply Hall.
Qed.

Lemma kind_state a id intent w st : assigned a id intent -> itarget intent <> sourceScope a ->
  world_ok w -> stateStore w = Some st -> wp (adoptState a id intent) (kind_post a (complete_state a id intent) w) w.
Proof.
  intros Has Hts Hok Hw. pose proof (ok_states _ Hok _ Hw) as Hk.
  eapply wp_mono; [apply (wp_adoptState _ _ _ _ st); [done|]; by apply Hk|]. intros o w' (st' & -> & Hp).
  destruct (safe_states _ _ _ _ _ _ Has Hts Hk Hp) as [Hk' Hsafe]. split_and!.
  - split; world_cbn; [apply Hok..|]. by intros x [= <-].
  - split; world_cbn; rewrite ?Hw; [done|done|exact Hsafe|done|]. split_and!; [done..|]. split; eauto.
  - intros Hwr. rewrite (dp_dry _ _ _ _ _ _ Hp Hwr). by apply set_states_id.
  - done.
  - destruct (dp_outcome _ _ _ _ _ _ Hp) as [?|[?|Hall]]; [by auto..|]. right. right. unfold complete_state. world_cbn.
    rewrite Hw. intros d [Hd _]%state_map_Some. destruct (Hall d Hd) as (c & Hc & Hcp). exists c.
    split; [|done]. by apply state_map_Some.
Qed.

(** *** Copies persist, and moved records were copied *)
Definition complete a id intent w w' : Prop :=
  complete_events a id intent w w' /\ complete_snapshot a id intent w w' /\ complete_state a id intent w w'.

Section Persist.
Context (a : TenantAdopter) (id : string) (intent : adoptionIntent) (w0 w1 w2 : World).
Context (Has : assigned a id intent) (Hts : itarget intent <> sourceScope a).

Lemma complete_events_after : complete_events a id intent w0 w1 -> world_safe a w1 w2 -> complete_events a id intent w0 w2.
Proof.
  intros Hc Hs Hsz n e Hn He. destruct (Hc Hsz n e Hn He) as (c & Hcc & Hcp). exists c. split; [|done].
  by apply (safe_kept _ _ _ _ _ _ (ws_events _ _ _ Hs)).
Qed.
Lemma complete_snapshot_after : complete_snapshot a id intent w0 w1 -> world_safe a w1 w2 -> complete_snapshot a id intent w0 w2.
Proof.
  intros Hc Hs s Hl. destruct (Hc s Hl) as (c & Hcc & Hcp). exists c. split; [|done].
  by apply (safe_kept _ _ _ _ _ _ (ws_snapshots _ _ _ Hs)).
Qed.
Lemma complete_state_after : complete_state a id intent w0 w1 -> world_safe a w1 w2 -> complete_state a id intent w0 w2.
Proof.
  intros Hc Hs d Hd. destruct (Hc d Hd) as (c & Hcc & Hcp). exists c. split; [|done].
  by apply (safe_kept _ _ _ _ _ _ (ws_states _ _ _ Hs)).
Qed.

Lemma copy_of_intent {R} stamped sc (r c : R) : copy_of stamped a id sc r c -> sc = itarget intent /\ stamped a (imetadata intent) r c.
Proof. intros (i & Hi & <- & Hst). by rewrite (assigned_unique _ _ _ _ Has Hi). Qed.

Lemma complete_events_before : world_safe a w0 w1 -> complete_events a id intent w1 w2 -> world_safe a w1 w2 ->
  complete_events a id intent w0 w2.
Proof.
  intros Hs01 Hc Hs12 Hsz n e Hn He. destruct (safe_moved _ _ _ _ _ _ (ws_events _ _ _ Hs01) id n e) as [He1|Hm]; [lia|done| |].
  - apply (Hc) in He1; [done| |done]. etrans; [|exact Hsz]. apply N2Z.inj_le. rewrite !nat_N_Z. apply Nat2Z.inj_le.
    apply map_subseteq_size, map_subseteq_spec. intros k x. apply (safe_shrinks _ _ _ _ _ _ (ws_events _ _ _ Hs01)).
  - destruct Hm as (n' & r' & sc & c & <- & Hr' & _ & Hcc & [-> Hcp]%copy_of_intent). rewrite He in Hr'. injection Hr' as <-.
    exists c. split; [|done]. by apply (safe_kept _ _ _ _ _ _ (ws_events _ _ _ Hs12)).
Qed.

Lemma complete_snapshot_before : world_safe a w0 w1 -> complete_snapshot a id intent w1 w2 -> world_safe a w1 w2 ->
  complete_snapshot a id intent w0 w2.
Proof.
  intros Hs01 Hc Hs12 s [Hs Hmax]. destruct (safe_moved _ _ _ _ _ _ (ws_snapshots _ _ _ Hs01) id (sSequenceNumber s) s) as [He1|Hm]; [lia|done| |].
  - apply Hc. split; [done|]. intros n s' Hs'. apply (safe_shrinks _ _ _ _ _ _ (ws_snapshots _ _ _ Hs01)) in Hs'. by eapply Hmax.
  - destruct Hm as (n' & r' & sc & c & Hle & Hr' & _ & Hcc & [-> Hcp]%copy_of_intent).
    assert (n' = sSequenceNumber s) as -> by (apply N.le_antisymm; [by eapply Hmax|done]). rewrite Hs in Hr'. injection Hr' as <-.
    exists c. split; [|done]. by apply (safe_kept _ _ _ _ _ _ (ws_snapshots _ _ _ Hs12)).
Qed.

Lemma complete_state_before : world_safe a w0 w1 -> complete_state a id intent w1 w2 -> world_safe a w1 w2 ->
  complete_state a id intent w0 w2.
Proof.
  intros Hs01 Hc Hs12 d Hd. destruct (safe_moved _ _ _ _ _ _ (ws_states _ _ _ Hs01) id 0%N d) as [He1|Hm]; [lia|done| |].
  - by apply Hc.
  - destruct Hm as (n' & r' & sc & c & <- & Hr' & _ & Hcc & [-> Hcp]%copy_of_intent). rewrite Hd in Hr'. injection Hr' as <-.
    exists c. split; [|done]. by apply (safe_kept _ _ _ _ _ _ (ws_states _ _ _ Hs12)).
Qed.
End Persist.

Lemma complete_after a id intent w0 w1 w2 : itarget intent <> sourceScope a ->
  complete a id intent w0 w1 -> world_safe a w1 w2 -> complete a id intent w0 w2.
Proof.
  intros Hts (? & ? & ?) Hs. split_and!; [by eapply complete_events_after|by eapply complete_snapshot_after|by eapply complete_state_after].
Qed.
Lemma complete_before a id intent w0 w1 w2 : assigned a id intent -> itarget intent <> sourceScope a ->
  world_safe a w0 w1 -> complete a id intent w1 w2 -> world_safe a w1 w2 -> complete a id intent w0 w2.
Proof.
  intros Has Hts Hs1 (? & ? & ?) Hs2.
  split_and!; [by eapply complete_events_before|by eapply complete_snapshot_before|by eapply complete_state_before].
Qed.

(** ** Composing the kinds *)
Lemma wp_adoptKind a k id configured adopt failure report (P : World -> World -> Prop) w :
  world_ok w -> (configured = true -> wp adopt (kind_post a P w) w) -> (configured = false -> P w w) ->
  wp (adoptKind k id configured adopt failure report)
    (fun r w' => world_ok w' /\ world_safe a w w' /\ (write a = false -> w' = w) /\ fence w' = fence w /\
       (r.1.2 = None -> failure = None /\ (write a = true -> P w w'))) w.
Proof.
  intros Hok Hc Hn. unfold adoptKind. destruct failure as [f|]; [by apply wp_ret|]. destruct configured; [|apply wp_ret; naive_solver].
  apply wp_bind. eapply wp_mono; [by apply Hc|]. intros o w' (Hok' & Hs & Hd & Hf & Ho). unfold applyKind.
  case_bool_decide as Hst; apply wp_ret; split_and!; try done. intros _. split; [done|]. intros Hwr.
  destruct Ho as [?|[[_ ?]|?]]; [done|congruence|done].
Qed.

Lemma summarize_failure a o failure report : (summarize a o failure report).1 = None -> failure = None.
Proof. by destruct failure. Qed.

Lemma wp_adoptAggregate a id t intent report w :
  assigned a id intent -> itarget intent <> sourceScope a -> wf_scope (sourceScope a) -> world_ok w ->
  wp (adoptAggregate a id t intent report)
    (fun r w' => world_ok w' /\ world_safe a w w' /\ (write a = false -> w' = w) /\ fence w' = fence w /\
       (r.1 = None -> write a = true -> complete a id intent w w')) w.
Proof.
  intros Has Hts Hsrc Hok. unfold wp, adoptAggregate. fold (@wp St Sn Sd F).
  set (ce := bool_decide (is_Some (eventsStore w))). set (cs := bool_decide (is_Some (snapshotStore w))).
  set (cd := bool_decide (is_Some (stateStore w))).
  match goal with |- context [?m w] => change (wp m (fun r w' => world_ok w' /\ world_safe a w w' /\ (write a = false -> w' = w) /\ fence w' = fence w /\
       (r.1 = None -> write a = true -> complete a id intent w w')) w) end.
  apply wp_bind. eapply wp_mono; [apply (wp_adoptKind a _ _ _ _ _ _ (complete_events a id intent)); [done|..]|].
  { intros [st Hst]%bool_decide_eq_true. by eapply kind_events. }
  { intros Hce%bool_decide_eq_false Hsz n e _. unfold events_of. destruct (eventsStore w); [by destruct Hce|]. by rewrite lookup_empty. }
  intros [[oe f1] r1] w1 (Hok1 & Hs1 & Hd1 & Hf1 & Hc1). destruct (ws_config _ _ _ Hs1) as (_ & Hcs & Hcd).
  apply wp_bind. eapply wp_mono; [apply (wp_adoptKind a _ _ _ _ _ _ (complete_snapshot a id intent)); [done|..]|].
  { intros Hx%bool_decide_eq_true. apply Hcs in Hx as [st Hst]. by eapply kind_snapshot. }
  { intros Hx%bool_decide_eq_false s [Hs _]. unfold snapshots_of in Hs. destruct (snapshotStore w1); [|done]. destruct Hx. apply Hcs. eauto. }
  intros [[os f2] r2] w2 (Hok2 & Hs2 & Hd2 & Hf2 & Hc2). destruct (ws_config _ _ _ Hs2) as (_ & _ & Hcd2).
  apply wp_bind. eapply wp_mono; [apply (wp_adoptKind a _ _ _ _ _ _ (complete_state a id intent)); [done|..]|].
  { intros Hx%bool_decide_eq_true. apply Hcd, Hcd2 in Hx as [st Hst]. by eapply kind_state. }
  { intros Hx%bool_decide_eq_false d Hd. unfold states_of in Hd. destruct (stateStore w2); [|done]. destruct Hx. apply Hcd, Hcd2. eauto. }
  intros [[od f3] r3] w3 (Hok3 & Hs3 & Hd3 & Hf3 & Hc3). apply wp_ret. simpl in *.
  assert (world_safe a w w2) as Hs02 by (by etrans). assert (world_safe a w1 w3) as Hs13 by (by etrans).
  split_and!; [done|by etrans| |congruence|].
  - intros Hwr. by rewrite (Hd3 Hwr), (Hd2 Hwr), (Hd1 Hwr).
  - intros Hr%summarize_failure Hwr. destruct (Hc3 Hr) as [Hr2 Hp3]. destruct (Hc2 Hr2) as [Hr1 Hp2]. destruct (Hc1 Hr1) as [_ Hp1].
    split_and!.
    + apply (complete_events_after a id intent w w1 w3); auto.
    + apply (complete_snapshot_before a id intent w w1 w3); [done..| |done].
      apply (complete_snapshot_after a id intent w1 w2 w3); auto.
    + apply (complete_state_before a id intent w w2 w3); auto.
Qed.

(** ** Fences do not touch the stores *)
Record same_stores w w' : Prop := mkSameStores {
  ss_events : eventsStore w' = eventsStore w;
  ss_snapshots : snapshotStore w' = snapshotStore w;
  ss_states : stateStore w' = stateStore w
}.

Lemma same_stores_ok w w' : same_stores w w' -> world_ok w -> world_ok w'.
Proof. intros [He Hs Hd] [? ? ?]. split; rewrite ?He, ?Hs, ?Hd; done. Qed.

Lemma same_stores_safe a w w' : same_stores w w' -> world_safe a w w'.
Proof.
  intros [He Hs Hd]. split; unfold events_of, snapshots_of, states_of; rewrite ?He, ?Hs, ?Hd; done.
Qed.

Lemma wp_acquire_all id scopes releases w : is_Some (fence w) ->
  wp (acquire_all id scopes releases) (fun _ w' => same_stores w w' /\ is_Some (fence w')) w.
Proof.
  revert releases w. induction scopes as [|sc scopes IH]; intros releases w [f Hf]; simpl.
  { apply wp_ret. split; [done|]. rewrite Hf. eauto. }
  apply wp_bind. unfold wp at 1, on_fence. rewrite Hf. destruct (Acquire f sc id) as [[release|e] f'].
  - eapply wp_mono; [apply IH; simpl; eauto|]. intros r w' [[? ? ?] ?]. by split.
  - apply wp_bind. unfold wp at 1, on_fence. simpl. apply wp_ret. split; [done|]. simpl. eauto.
Qed.

Lemma wp_deferred {A} release (m : adoption.M A) Q w :
  wp m (fun x w' => (forall f, fence w' = Some f -> Q x (set_fence w' (release f))) /\ (fence w' = None -> Q x w')) w ->
  wp (deferred release m) Q w.
Proof.
  unfold wp, deferred. destruct (m w) as [[x|] w'] eqn:Hm; [|done]. intros [HQ HN]. destruct (fence w') as [f|]; auto.
Qed.

(** ** One aggregate, end to end *)
Definition aggregate_post a id w (r : option AdoptionFailure * AdoptionReport) w' : Prop :=
  world_ok w' /\ world_safe a w w' /\ (write a = false -> w' = w) /\ (is_Some (fence w) -> is_Some (fence w')) /\
  (r.1 = None -> write a = true -> forall intent, assigned a id intent -> itarget intent <> sourceScope a /\ complete a id intent w w').

Lemma wp_processAggregate a id report w :
  wf_scope (sourceScope a) -> world_ok w -> (write a = true -> is_Some (fence w)) ->
  wp (processAggregate a id report) (aggregate_post a id w) w.
Proof.
  intros Hsrc Hok Hfence. unfold processAggregate.
  assert (forall e r, aggregate_post a id w (fail_aggregate id e r) w) as Hfail by (intros; split_and!; done).
  destruct (adoption.assign a id) as [[t []]|m] eqn:Has; [|apply wp_ret|apply wp_ret, Hfail].
  2: { split_and!; try done. simpl. intros _ _ intent (t' & Ht' & _). congruence. }
  destruct (NewTenantScope t) as [target|e] eqn:Htg; [|apply wp_ret, Hfail].
  destruct (tenancy.NewTenantContext (TenantID target)) as [tc|e] eqn:Htc; [|apply wp_ret, Hfail].
  set (intent := mkIntent target tc (tenancy.MarshalMetadata tc)). assert (assigned a id intent) as Hasg by (by exists t).
  destruct (Equal target (sourceScope a)) eqn:Heq; [apply wp_ret, Hfail|].
  assert (itarget intent <> sourceScope a) as Hts.
  { simpl. intros ->. rewrite (proj2 (wf_scope_Equal _ _ Hsrc Hsrc) eq_refl) in Heq. done. }
  destruct (write a) eqn:Hwr.
  - apply wp_bind. eapply wp_mono; [by apply wp_acquire_all, Hfence|]. intros [release|m] w1 [Hss Hf1].
    + pose proof (same_stores_ok _ _ Hss Hok) as Hok1. apply wp_deferred. eapply wp_mono; [by apply wp_adoptAggregate|].
      intros r w2 (Hok2 & Hs2 & _ & Hf2 & Hc2). split; [|intros Hn; rewrite Hf2 in Hn; rewrite Hn in Hf1; by destruct Hf1].
      intros f Hf. assert (same_stores w2 (set_fence w2 (release f))) as Hss2 by done.
      assert (world_safe a w (set_fence w2 (release f))) as Hs02
        by (rewrite (same_stores_safe _ _ _ Hss), Hs2; by apply same_stores_safe).
      split_and!; [by eapply same_stores_ok|done|congruence|by eauto|].
      intros Hr _ i Hi. rewrite (assigned_unique _ _ _ _ Hi Hasg). split; [done|].
      apply (complete_before _ _ _ w w1); [done|done|by apply same_stores_safe| |rewrite Hs2; by apply same_stores_safe].
      apply (complete_after _ _ _ w1 w2); [done|by apply Hc2|by apply same_stores_safe].
    + apply wp_ret. split_and!; [by eapply same_stores_ok|by apply same_stores_safe|congruence|done|done].
  - eapply wp_mono; [by apply wp_adoptAggregate|]. intros r w2 (Hok2 & Hs2 & Hd2 & Hf2 & Hc2).
    split_and!; [done|done|done| |congruence]. by rewrite Hf2.
Qed.

(** ** The report *)
Definition counts (r : AdoptionReport) : bool * list nat :=
  (DryRun r, [Scanned r; Assigned r; SkippedByAssignment r; Copied r; AlreadyPresent r; Verified r; SourceDeleted r; Failed r]).

(** Ids with a verdict: every scanned id ends in one of these. *)
Definition tally (r : AdoptionReport) : nat :=
  SkippedByAssignment r + Failed r + AlreadyPresent r + Verified r.

(** The effect of one id on the counters. *)
Definition counted a (report : AdoptionReport) (failure : option AdoptionFailure) (report' : AdoptionReport) : Prop :=
  Scanned report' = Scanned report /\
  (write a = true -> tally report' = S (tally report)) /\
  Failed report' = Failed report + (if failure then 1 else 0) /\
  (Verified report' <= Verified report + (if write a then 1 else 0)) /\
  (SourceDeleted report' <= S (SourceDeleted report)).

Lemma summarize_counted a o failure report : let r := summarize a o failure report in counted a report r.1 r.2.
Proof.
  unfold summarize, counted, tally. set (found := existsb _ _). set (copied := existsb wroteTarget _). set (deleted := existsb _ _).
  destruct report, failure, (write a), found, copied, deleted; simpl; lia.
Qed.

Lemma bind_inv {A B} (m : adoption.M (St:=St) (Sn:=Sn) (Sd:=Sd) (F:=F) A) (k : A -> adoption.M B) w b w' :
  (m ≫= k) w = (Returned b, w') -> exists x w1, m w = (Returned x, w1) /\ k x w1 = (Returned b, w').
Proof. unfold mbind, M_bind. destruct (m w) as [[x|] w1]; [|done]. eauto. Qed.

Lemma adoptKind_counts k id configured (adopt : adoption.M RecordOutcome) failure report w x w' :
  adoptKind k id configured adopt failure report w = (Returned x, w') -> counts x.2 = counts report.
Proof.
  unfold adoptKind. destruct failure as [f|]; [by intros [= <- _]|]. destruct configured; [|by intros [= <- _]].
  intros (o & w1 & _ & Hk)%bind_inv. unfold applyKind in Hk. case_bool_decide; injection Hk as <- _; by destruct report.
Qed.

Lemma counted_counts a r1 r2 failure r' : counts r2 = counts r1 -> counted a r2 failure r' -> counted a r1 failure r'.
Proof. intros [= ? Hsc _ Hsk _ Hp Hv Hd Hf]. unfold counted, tally. by rewrite Hsc, Hsk, Hp, Hv, Hd, Hf. Qed.

Lemma adoptAggregate_counted a id t intent report w x w' :
  adoptAggregate a id t intent report w = (Returned x, w') -> counted a report x.1 x.2.
Proof.
  unfold adoptAggregate. intros ([[oe f1] r1] & w1 & He & Hk)%bind_inv. apply adoptKind_counts in He.
  apply bind_inv in Hk as ([[os f2] r2] & w2 & Hs & Hk). apply adoptKind_counts in Hs.
  apply bind_inv in Hk as ([[od f3] r3] & w3 & Hd & Hk). apply adoptKind_counts in Hd. simpl in *. injection Hk as <- _.
  eapply counted_counts; [|apply summarize_counted]. congruence.
Qed.

Lemma fail_counted a id e report : let r := fail_aggregate id e report in counted a report r.1 r.2.
Proof. destruct report. unfold counted, tally. simpl. destruct (write a); lia. Qed.

Lemma processAggregate_counted a id report w x w' :
  processAggregate a id report w = (Returned x, w') -> counted a report x.1 x.2.
Proof.
  assert (forall f r, counted a (add_assigned report) f r -> counted a report f r) as Hasg by (by destruct report).
  unfold processAggregate. intros Hp. destruct (adoption.assign a id) as [[t []]|m].
  - destruct (NewTenantScope t) as [target|e]; [|injection Hp as <- _; apply Hasg, fail_counted].
    destruct (tenancy.NewTenantContext _) as [tc|e]; [|injection Hp as <- _; apply Hasg, fail_counted].
    destruct (Equal _ _); [injection Hp as <- _; apply Hasg, fail_counted|]. destruct (write a); apply Hasg.
    + apply bind_inv in Hp as ([release|m] & w1 & _ & Hk); [|injection Hk as <- _; apply fail_counted].
      unfold deferred in Hk. destruct (adoptAggregate _ _ _ _ _ w1) as [r w2] eqn:Ha. injection Hk as -> _.
      by eapply adoptAggregate_counted.
    + by eapply adoptAggregate_counted.
  - injection Hp as <- _. destruct report. unfold counted, tally. simpl. destruct (write a); lia.
  - injection Hp as <- _. apply fail_counted.
Qed.

(** ** A run *)
Definition run_post a (ids : list string) w (report : AdoptionReport) (x : AdoptionReport * option run_error) w' : Prop :=
  world_ok w' /\ world_safe a w w' /\ (write a = false -> w' = w) /\ Failed report <= Failed x.1 /\
  (x.2 = None -> write a = true -> Failed x.1 = Failed report -> forall id intent, id ∈ ids -> assigned a id intent ->
     itarget intent <> sourceScope a /\ complete a id intent w w').

Lemma wp_adoptAll a ids report w : wf_scope (sourceScope a) -> world_ok w -> (write a = true -> is_Some (fence w)) ->
  wp (adoptAll a ids report) (run_post a ids w report) w.
Proof.
  intros Hsrc. revert report w. induction ids as [|id ids IH]; intros report w Hok Hfence; simpl.
  { apply wp_ret. split_and!; try done. intros _ _ _ id intent Hid. by apply not_elem_of_nil in Hid. }
  pose proof (wp_processAggregate a id (add_scanned report) w Hsrc Hok Hfence) as Hp.
  apply wp_bind. unfold wp in Hp |- *. destruct (processAggregate a id (add_scanned report) w) as [[x|] w1] eqn:Hpa; [|done].
  apply processAggregate_counted in Hpa as (_ & _ & Hfailed & _). destruct Hp as (Hok1 & Hs1 & Hd1 & Hf1 & Hc1).
  assert (Failed (add_scanned report) = Failed report) as Hfs by (by destruct report). rewrite Hfs in Hfailed.
  assert (forall r', Failed x.2 = Failed r' -> wp (adoptAll a ids r') (fun x' w' => run_post a (id :: ids) w report x' w') w1) as Hrest.
  { intros r' Hr'. eapply wp_mono; [apply IH; [done|]; intros; by apply Hf1, Hfence|].
    intros x' w' (Hok' & Hs' & Hd' & Hle & Hc'). split_and!; [done|by etrans| |lia|].
    - intros Hwr. by rewrite (Hd' Hwr), (Hd1 Hwr).
    - intros Hx Hwr Hf i intent Hi Has. destruct x.1 as [fl|]; [lia|]. apply elem_of_cons in Hi as [->|Hi].
      + destruct (Hc1 eq_refl Hwr intent Has) as [Hts Hcmp]. split; [done|]. by eapply complete_after.
      + destruct (Hc' Hx Hwr ltac:(lia) i intent Hi Has) as [Hts Hcmp]. split; [done|]. by eapply complete_before. }
  destruct x as [[f|] r1]; [|by apply Hrest]. destruct (failFast a); [|by apply Hrest]. simpl in *.
  unfold run_post. simpl. split_and!; try done. lia.
Qed.

(** [Ping] checks, and may open, the connection; it changes no record. *)
Class QuietPing : Prop := {
  ping_events (st : St) r st' : Ping st = (r, st') -> eok st ->
    eok st' /\ forall sc pid, records_of st' sc pid = records_of st sc pid;
  ping_snapshots (st : Sn) r st' : Ping st = (r, st') -> api.snap_ok st ->
    api.snap_ok st' /\ forall sc pid, api.sview st' sc pid = api.sview st sc pid;
  ping_states (st : Sd) r st' : Ping st = (r, st') -> forall sc pid, api.dview st' sc pid = api.dview st sc pid
}.

(** The stores of two worlds hold the same records. *)
Record same_records w w' : Prop := mkSameRecords {
  sr_events sc pid : events_of w' sc pid = events_of w sc pid;
  sr_snapshots sc pid : snapshots_of w' sc pid = snapshots_of w sc pid;
  sr_states sc pid : states_of w' sc pid = states_of w sc pid;
  sr_config : (is_Some (eventsStore w') <-> is_Some (eventsStore w)) /\
    (is_Some (snapshotStore w') <-> is_Some (snapshotStore w)) /\ (is_Some (stateStore w') <-> is_Some (stateStore w));
  sr_fence : fence w' = fence w
}.

Lemma safe_pointwise {R} source low ord (copy : string -> Scope -> R -> R -> Prop) v v' :
  (forall sc pid, v' sc pid = v sc pid) -> safe source low ord copy v v'.
Proof. intros Hv. split; intros; rewrite ?Hv in *; eauto. Qed.

Lemma same_records_safe a w w' : same_records w w' -> world_safe a w w'.
Proof.
  intros [He Hs Hd Hc _]. split; [by apply safe_pointwise..| |done]. intros _ pid. by rewrite He, Hs.
Qed.

Context {HQ : QuietPing}.

Lemma ping_kind_quiet {S R} `{Pingable S} k (s : option S) (ok : S -> Prop) (v : S -> Scope -> string -> gmap N R) :
  (forall st r st', Ping st = (r, st') -> ok st -> ok st' /\ forall sc pid, v st' sc pid = v st sc pid) ->
  (forall st, s = Some st -> ok st) ->
  exists r s', ping_kind k s = (r, s') /\ (forall st, s' = Some st -> ok st) /\ (is_Some s' <-> is_Some s) /\
    forall sc pid, match s' with Some st => v st sc pid | None => ∅ end = match s with Some st => v st sc pid | None => ∅ end.
Proof.
  intros Hq Hok. unfold ping_kind. destruct s as [st|]; [|by exists (Ok tt), None]. destruct (Ping st) as [r st'] eqn:Hp.
  destruct (Hq _ _ _ Hp (Hok _ eq_refl)) as [Hok' Hv]. eexists _, (Some st'). split_and!; [done|naive_solver|split; eauto|done].
Qed.

Lemma pingStores_quiet w : world_ok w ->
  exists r w', pingStores w = (Returned r, w') /\ world_ok w' /\ same_records w w'.
Proof.
  intros Hok. unfold pingStores.
  destruct (ping_kind_quiet KindEvents (eventsStore w) eok records_of ping_events (ok_events _ Hok)) as (re & es & -> & Hes & Hce & Hve).
  destruct (ping_kind_quiet KindSnapshot (snapshotStore w) api.snap_ok api.sview ping_snapshots (ok_snapshots _ Hok)) as (rs & sn & -> & Hsn & Hcs & Hvs).
  destruct (ping_kind_quiet KindDurableState (stateStore w) keyed_states (fun st sc pid => state_map (api.dview st sc pid))) as (rd & ds & -> & Hds & Hcd & Hvd).
  { intros st r st' Hp Hk. pose proof (ping_states _ _ _ Hp) as Hv. split; intros; [intros sc pid d; rewrite Hv; apply Hk|by rewrite Hv]. }
  { apply Hok. }
  destruct re as [[]|e]; [destruct rs as [[]|e]|]; eexists _, _; (split; [done|]); destruct Hok; (split; [by split|]);
    split; simpl; done.
Qed.

Lemma collect_world a fuel w r w' : collectPersistenceIDs a fuel w = (r, w') -> w' = w.
Proof. unfold collectPersistenceIDs. intros Hc. repeat case_match; by simplify_eq. Qed.

(** The ids of a run and the world it starts adopting in. *)
Definition scans a fuel w (ids : list string) w1 : Prop :=
  pingStores w = (Returned (Ok tt), w1) /\ collectPersistenceIDs a fuel w1 = (Returned (Ok ids), w1).

Lemma Run_inv a fuel w r w' : Run a fuel w = (r, w') -> world_ok w ->
  exists w1, world_ok w1 /\ same_records w w1 /\
    ((w' = w1 /\ forall x, r = Returned x -> x.1 = None) \/
     (exists ids, scans a fuel w ids w1 /\
       match adoptAll a ids (newReport (negb (write a))) w1 with
       | (Returned x, w2) => r = Returned (Some x.1, x.2) /\ w' = w2
       | (Panicked, w2) => r = Panicked /\ w' = w2
       end)).
Proof.
  intros Hrun Hok. destruct (pingStores_quiet w Hok) as (rp & w1 & Hp & Hok1 & Hsame). exists w1. split_and!; [done..|].
  unfold Run, attempt, mbind, M_bind in Hrun. rewrite Hp in Hrun. destruct rp as [[]|e].
  2: { injection Hrun as <- <-. left. split; [done|]. by intros x [= <-]. }
  destruct (collectPersistenceIDs a fuel w1) as [[[ids|e]|] w1'] eqn:Hc; pose proof (collect_world _ _ _ _ _ Hc) as ->.
  - right. exists ids. split; [done|]. destruct (adoptAll _ _ _ w1) as [[x|] w2]; injection Hrun as <- <-; done.
  - injection Hrun as <- <-. left. split; [done|]. by intros x [= <-].
  - injection Hrun as <- <-. left. by split.
Qed.

(** C18: A run, whatever its options and however it ends, loses and overwrites
    nothing: records outside the source scope stay as they are, every record
    new to a tenant scope is the stamped copy of a source record assigned to
    that tenant, and every event that left the source is in its tenant's scope as its exact
    copy (for snapshots: the copy of the latest, which is all a recovery
    reads). Without source deletion the source is unchanged, and a dry run
    changes no record at all. *)
Theorem adoption_loses_nothing a fuel w r w' :
  wf_scope (sourceScope a) -> world_ok w -> (write a = true -> is_Some (fence w)) -> Run a fuel w = (r, w') ->
  world_ok w' /\ world_safe a w w' /\ (write a = false -> same_records w w').
Proof.
  intros Hsrc Hok Hf Hrun. destruct (Run_inv _ _ _ _ _ Hrun Hok) as (w1 & Hok1 & Hsame & Hend).
  pose proof (same_records_safe a _ _ Hsame) as Hs1. destruct Hend as [[-> _]|(ids & _ & Hall)]; [by split_and!|].
  pose proof (wp_adoptAll a ids (newReport (negb (write a))) w1 Hsrc Hok1) as Hwp. rewrite (sr_fence _ _ Hsame) in Hwp.
  specialize (Hwp Hf). unfold wp in Hwp. destruct (adoptAll _ _ _ w1) as [[x|] w2]; [|done]. destruct Hall as [_ ->].
  destruct Hwp as (Hok2 & Hs2 & Hd2 & _). split_and!; [done|by etrans|]. intros Hwr. by rewrite (Hd2 Hwr).
Qed.

(** C24: A write-enabled run that ends without error and counts no failure has
    copied everything it was asked to: for every scanned id with a tenant,
    every event, the latest snapshot and the durable state the source held
    are in that tenant's scope as their stamped copies. *)
Theorem clean_run_adopts_everything a fuel w report w' :
  wf_scope (sourceScope a) -> world_ok w -> write a = true -> is_Some (fence w) ->
  Run a fuel w = (Returned (Some report, None), w') -> Failed report = 0 ->
  exists ids w1, scans a fuel w ids w1 /\ forall id intent, id ∈ ids -> assigned a id intent -> complete a id intent w w'.
Proof.
  intros Hsrc Hok Hwr Hf Hrun Hzero. destruct (Run_inv _ _ _ _ _ Hrun Hok) as (w1 & Hok1 & Hsame & [[_ Hn]|(ids & Hsc & Hall)]).
  { by specialize (Hn _ eq_refl). }
  exists ids, w1. split; [done|]. intros id intent Hid Has.
  pose proof (wp_adoptAll a ids (newReport (negb (write a))) w1 Hsrc Hok1) as Hwp. rewrite (sr_fence _ _ Hsame) in Hwp.
  specialize (Hwp (fun _ => Hf)). unfold wp in Hwp. destruct (adoptAll _ _ _ w1) as [[x|] w2]; [|done]. destruct Hall as [[= Hx1 Hx2] ->].
  destruct Hwp as (_ & Hs2 & _ & _ & Hc). rewrite <- Hx1, <- Hx2 in Hc. destruct (Hc eq_refl Hwr ltac:(simpl; lia) id intent Hid Has) as [Hts Hcmp].
  apply (complete_before a id intent w w1); [done|done|by apply same_records_safe|done..].
Qed.

Lemma adoptAll_counted a ids report w x w' : adoptAll a ids report w = (Returned x, w') ->
  write a = true -> Scanned report = tally report -> Scanned x.1 = tally x.1.
Proof.
  intros Hr Hwr. revert report w Hr. induction ids as [|id ids IH]; intros report w Hr Ht; simpl in Hr; [by injection Hr as <- _|].
  apply bind_inv in Hr as ([f r1] & w1 & Hp & Hk). apply processAggregate_counted in Hp as (Hsc & Htl & _).
  assert (Scanned r1 = tally r1) as Ht1. { specialize (Htl Hwr). simpl in Hsc, Htl. rewrite Hsc, Htl. destruct report; simpl in *. unfold tally in *. simpl in *. lia. }
  destruct f as [f|]; [destruct (failFast a)|]; [by injection Hk as <- _|by eapply IH..].
Qed.

(** The counters of a write-enabled run add up: every scanned id was
    skipped, failed, already present or copied and verified, exactly one of
    them. *)
Theorem report_accounts_for_every_id a fuel w report e w' :
  world_ok w -> write a = true -> Run a fuel w = (Returned (Some report, e), w') ->
  Scanned report = SkippedByAssignment report + Failed report + AlreadyPresent report + Verified report.
Proof.
  intros Hok Hwr Hrun. destruct (Run_inv _ _ _ _ _ Hrun Hok) as (w1 & _ & _ & [[_ Hn]|(ids & _ & Hall)]).
  { by specialize (Hn _ eq_refl). }
  destruct (adoptAll _ _ _ w1) as [[x|] w2] eqn:Ha; destruct Hall as [Hx _]; [|done]. injection Hx as -> _.
  by apply (adoptAll_counted _ _ _ _ _ _ Ha).
Qed.
End Run.
End adoption_safety.
