(* ===== verification/AdoptionRerun.v ===== *)
(** * A working store completes an adoption, and a second run finds it done

    Over a store that answers, adopting the events of an aggregate into an
    empty target succeeds; adopting again writes and deletes nothing, whether
    the source was kept (the target contains it) or deleted (the receipts
    prove it). *)

From S2P Require Import Prelude GoStrings Tenancy Persistence Egopb StoreApi Adoption AdoptionReceipts AdoptionSpec AdoptionSafety.
From Stdlib Require Import ZArith Lia.
Open Scope string_scope.
Local Open Scope list_scope.

Module adoption_rerun.
Import persistence egopb adoption adoption_receipts adoption_spec adoption_safety.

(** ** The comparisons accept what they should *)
Lemma by_sequence_size l : NoDup (SequenceNumber <$> l) -> size (by_sequence l) = length l.
Proof.
  induction l as [|e l IH] using rev_ind; intros Hnd; [done|]. rewrite fmap_app, NoDup_app in Hnd. destruct Hnd as (Hnd & Hx & _).
  assert (by_sequence l !! SequenceNumber e = None) as Hl.
  { destruct (by_sequence l !! SequenceNumber e) as [x|] eqn:Hl; [|done]. apply by_sequence_lookup in Hl as [Hin Hseq]; [|done].
    exfalso. apply (Hx (SequenceNumber e)); [|by left]. rewrite <- Hseq. by apply list_elem_of_fmap_2. }
  rewrite by_sequence_snoc, map_size_insert_None, IH, length_app by done. simpl. lia.
Qed.

Lemma match_refl l : StronglySorted api.seq_lt l -> verifyEventsMatchBySequence l l = None.
Proof.
  intros Hs%sorted_NoDup. unfold verifyEventsMatchBySequence. rewrite by_sequence_size, !Nat.eqb_refl by done. simpl.
  apply first_error_None, Forall_forall. intros [n e] He%elem_of_map_to_list. simpl. rewrite He. by rewrite bool_decide_eq_true_2.
Qed.

Lemma index_verified_ok l m : NoDup (SequenceNumber <$> l) -> Forall (fun e => m !! SequenceNumber e = None) l ->
  index_verified l m = Ok (foldl (fun m e => <[SequenceNumber e := e]> m) m l).
Proof.
  revert m. induction l as [|e l IH]; intros m Hnd Hf; [done|]. simpl. apply NoDup_cons in Hnd as [He Hnd]. apply Forall_cons in Hf as [Hm Hf].
  rewrite bool_decide_eq_false_2 by (rewrite Hm; by intros []). apply IH; [done|]. rewrite Forall_forall in Hf |- *. intros x Hx.
  rewrite lookup_insert_ne; [by apply Hf|]. intros E. apply He. rewrite E. by apply list_elem_of_fmap_2.
Qed.

Lemma match_current_ok l m seen : NoDup (SequenceNumber <$> l) ->
  Forall (fun e => m !! SequenceNumber e = Some e /\ SequenceNumber e ∉ seen) l -> match_current l m seen = None.
Proof.
  revert seen. induction l as [|e l IH]; intros seen Hnd Hf; [done|]. simpl. apply NoDup_cons in Hnd as [He Hnd].
  apply Forall_cons in Hf as [[Hm Hs] Hf]. rewrite bool_decide_eq_false_2, Hm by done. rewrite bool_decide_eq_true_2 by done.
  apply IH; [done|]. rewrite Forall_forall in Hf |- *. intros x Hx. split; [by apply Hf|]. apply not_elem_of_union. split; [|by apply Hf].
  rewrite elem_of_singleton. intros E. apply He. rewrite <- E. by apply list_elem_of_fmap_2.
Qed.

Lemma same_streams_refl l : StronglySorted api.seq_lt l -> sameEventsBySequence l l = None.
Proof.
  intros Hs%sorted_NoDup. unfold sameEventsBySequence. rewrite Nat.eqb_refl. simpl.
  rewrite index_verified_ok by (done || (apply Forall_forall; intros; apply lookup_empty)).
  apply match_current_ok; [done|]. apply Forall_forall. intros e He. split; [|set_solver].
  change (by_sequence l !! SequenceNumber e = Some e). by apply by_sequence_lookup.
Qed.

Lemma equivalent_refl `{Encoding} l tc sc : l <> [] -> StronglySorted api.seq_lt l ->
  Forall (fun e => ownedByTenant (TenantMetadata e) tc = true) l -> verifyEventsEquivalent l l tc sc = None.
Proof.
  intros Hne Hs Ho. unfold verifyEventsEquivalent. rewrite index_existing_sorted by done. rewrite fmap_None.
  destruct l as [|x l]; [done|]. set (evs := x :: l) in *. unfold contains_expected.
  assert (first_error (fun want => if bool_decide (by_sequence evs !! SequenceNumber want = Some want) then None
    else Some (DiffersFromSource (SequenceNumber want))) evs = None) as ->.
  { apply first_error_None, Forall_forall. intros e He. rewrite bool_decide_eq_true_2; [done|].
    apply by_sequence_lookup; [by apply sorted_NoDup|done]. }
  apply first_error_None, Forall_forall. intros n Hn. rewrite sort_sorted in Hn by by apply sorted_seqs.
  by rewrite bool_decide_eq_true_2.
Qed.

(** ** Streams as lists *)
Section Rerun.
Context {St Sn Sd F : Type}.
Context `{EncodingLaws} `{!api.EventsStore St} `{!api.EventsStoreLaws St} `{!api.ReliableEventsStore St}.
Abbreviation World := (@adoption.World St Sn Sd F).
Implicit Types (w : World) (st : St).

(** A delete of a store that answers succeeds. *)
Class ReliableDelete : Prop :=
  delete_succeeds st sc pid to : api.store_ok st -> Valid sc = true ->
    exists st', api.DeleteEvents st sc pid to = (Ok tt, st').
Context {HD : ReliableDelete}.

Definition listed st sc id (l : list Event) : Prop :=
  StronglySorted api.seq_lt l /\
  forall n e, records_of st sc id !! n = Some e <-> e ∈ l /\ SequenceNumber e = n.

(** Streams an adoption can read whole. *)
Definition readable (l : list Event) : Prop :=
  Forall (fun e => (1 <= SequenceNumber e <= maxReplaySequence)%N) l /\ (N.of_nat (length l) <= maxReplayLimit)%N.

Lemma listed_replayed st sc id l l' : eok st -> listed st sc id l -> readable l -> replayed st sc id l' -> l' = l.
Proof.
  intros Hok [Hs Hl] [Hr Hlen] (Hs' & Hmem & _ & Hall). apply api.sorted_unique; [done..|]. intros e. split; intros He.
  - destruct (Hmem e He) as [_ Hrec]. by apply Hl in Hrec as [? _].
  - rewrite Forall_forall in Hr. apply (Hall) with (n := SequenceNumber e); [|by apply Hr|by apply Hl].
    simpl. assert (records_of st sc id = by_sequence l) as ->; [|by rewrite by_sequence_size by by apply sorted_NoDup].
    apply map_eq. intros n. apply option_eq. intros x. rewrite Hl, by_sequence_lookup by by apply sorted_NoDup. done.
Qed.

Lemma wp_replay_listed sc id w st l (Q : _ -> World -> Prop) : eventsStore w = Some st -> eok st -> Valid sc = true ->
  listed st sc id l -> readable l -> Q (Ok l) w -> wp (replayAll sc id) Q w.
Proof.
  intros Hw Hok Hv Hl Hr HQ. destruct (replay_replayed st sc id Hok) as (r & Hrp & Hrl).
  unfold wp, replayAll, on_events. rewrite Hw. destruct (api.replay_succeeds st sc id 1 maxReplaySequence maxReplayLimit) as [l' Hl']; [apply Hok|done|done|].
  rewrite Hl' in Hrp |- *. injection Hrp as <-. simpl. rewrite set_events_id by done.
  by rewrite (listed_replayed _ _ _ _ _ Hok Hl Hr (Hrl _ eq_refl)).
Qed.

Lemma listed_empty st sc id : listed st sc id [] <-> records_of st sc id = ∅.
Proof.
  split.
  - intros [_ Hl]. apply map_eq. intros n. rewrite lookup_empty. apply eq_None_not_Some. intros [e He].
    apply Hl in He as [He _]. by apply not_elem_of_nil in He.
  - intros E. split; [constructor|]. intros n e. rewrite E, lookup_empty. split; [done|]. by intros [?%not_elem_of_nil _].
Qed.
Lemma readable_nil : readable [].
Proof. split; [constructor|done]. Qed.

Context (a : TenantAdopter) (id : string) (intent : adoptionIntent).
Context (Hts : itarget intent <> sourceScope a) (Hsrc : Valid (sourceScope a) = true) (Htgt : Valid (itarget intent) = true).
Context (Hwf : tenancy.wf (itenant intent)) (Hmd : imetadata intent = tenancy.MarshalMetadata (itenant intent)).

Section Stream.
Context (evs expected : list Event) (Hne : evs <> []) (Hread : readable evs) (Hex : expected_of a intent evs expected).

Lemma expected_readable : readable expected.
Proof.
  destruct Hread as [Hr Hlen]. pose proof (stampEvents_seqs _ _ _ _ _ Hex) as Hseq. split.
  - rewrite <- (Forall_fmap SequenceNumber (fun n => (1 <= n <= maxReplaySequence)%N)) in Hr |- *. by rewrite Hseq.
  - rewrite <- (length_fmap SequenceNumber), Hseq, length_fmap. done.
Qed.

Lemma wp_delete_listed wrote w st : eventsStore w = Some st -> eok st -> listed st (sourceScope a) id evs ->
  wp (deleteVerifiedSourceEvents a id evs (max_sequence evs) wrote)
    (fun o w' => o = outcome StatusSourceDeleted wrote /\ exists st', w' = set_events w st' /\ eok st' /\
       records_of st' (sourceScope a) id = ∅ /\ records_of st' (itarget intent) id = records_of st (itarget intent) id) w.
Proof.
  intros Hw Hok Hl. apply wp_attempt, (wp_replay_listed _ _ _ st evs); [done..|]. rewrite same_streams_refl by apply Hl.
  apply wp_attempt. unfold wp at 1, deleteEvents, on_events. rewrite Hw.
  destruct (delete_succeeds st (sourceScope a) id (max_sequence evs)) as [st' Hd]; [apply Hok|done|]. rewrite Hd.
  destruct (honest_delete _ _ _ _ _ _ Hok Hd) as [Hok' Hrecs]. simpl in Hrecs.
  assert (records_of st' (sourceScope a) id = ∅) as Hemp.
  { rewrite Hrecs, decide_True by done. apply map_empty. intros n. apply eq_None_not_Some.
    intros [e [[He <-]%(proj2 Hl) Hlt]%map_lookup_filter_Some]. apply max_sequence_ge in He. simpl in Hlt. lia. }
  apply wp_attempt. unfold wp at 1, latestEvent, on_events. simpl.
  destruct (api.latest_succeeds st' (sourceScope a) id) as [r Hr]; [apply Hok'|done|]. rewrite Hr.
  pose proof (honest_latest _ _ _ _ Hok' Hr) as Hlat. destruct r as [e|]; [simpl in Hlat; by rewrite Hemp, lookup_empty in Hlat|].
  apply wp_ret. split; [done|]. exists st'. split; [done|]. split; [exact Hok'|]. split; [done|].
  rewrite Hrecs. by rewrite decide_False by naive_solver.
Qed.

(** What the first adoption leaves. *)
Definition adopted_state st' : Prop :=
  eok st' /\ listed st' (itarget intent) id expected /\
  if deleteSource a then records_of st' (sourceScope a) id = ∅ else listed st' (sourceScope a) id evs.

Lemma expected_pid st : eok st -> listed st (sourceScope a) id evs -> Forall (fun c => PersistenceId c = id) expected.
Proof.
  intros [_ Hk] Hl. pose proof Hex as Hex'%stampEvents_forall2. apply Forall_forall. intros c Hc. apply list_elem_of_lookup in Hc as [i Hc].
  destruct (Forall2_lookup_r _ _ _ _ _ Hex' Hc) as (e & He & Hst). apply stampEvent_shape in Hst as (_ & _ & -> & _).
  apply list_elem_of_lookup_2 in He. pose proof (proj2 (proj2 Hl (SequenceNumber e) e) (conj He eq_refl)) as Hrec.
  unfold records_of in Hrec. destruct (api.view st (sourceScope a) id) eqn:Hvw; [|done]. by eapply Hk.
Qed.

Lemma expected_nonempty : expected <> [].
Proof. intros E. apply stampEvents_seqs in Hex. rewrite E in Hex. by destruct evs. Qed.

Lemma expected_single st : eok st -> listed st (sourceScope a) id evs ->
  api.single_target expected = true /\ api.target expected = id.
Proof.
  intros Hok Hl. pose proof (expected_pid _ Hok Hl) as Hpid. pose proof expected_nonempty as Hn.
  destruct expected as [|c l]; [done|]. apply Forall_cons in Hpid as [Hc Hf]. split; [|done]. simpl. apply forallb_forall.
  intros x Hx. apply bool_decide_eq_true. rewrite Forall_forall in Hf. rewrite Hc. apply Hf. by apply list_elem_of_In.
Qed.

Lemma listed_write st st1 : eok st -> listed st (sourceScope a) id evs -> api.view st (itarget intent) id = None ->
  api.WriteEvents st (itarget intent) expected ExpectGenesis = (Ok tt, st1) ->
  eok st1 /\ listed st1 (itarget intent) id expected /\ listed st1 (sourceScope a) id evs.
Proof.
  intros Hok Hl Hnone Hw. destruct (honest_write _ _ _ _ _ _ Hok Hw) as [Hok1 Hf]. split; [done|].
  pose proof Hw as Hw'. apply api.write_ok in Hw' as (_ & _ & _ & Hgen & Hv); [|apply Hok]. destruct (Hgen eq_refl) as [Hsingle _].
  pose proof (expected_pid _ Hok Hl) as Hpid.
  assert (api.of_pid id expected = expected) as Hof.
  { clear -Hpid. unfold api.of_pid. induction Hpid as [|c l Hc _ IH]; [done|]. rewrite filter_cons_True by done. by f_equal. }
  assert (StronglySorted api.seq_lt expected) as Hs by (eapply stampEvents_sorted; [exact Hex|apply Hl]).
  pose proof (sorted_NoDup _ Hs) as Hnd. split.
  - split; [done|]. intros n c. unfold records_of. rewrite Hv, Hof, Hnone, decide_True.
    2: { split; [done|apply expected_nonempty]. }
    simpl. assert (api.records (api.commit None expected) = by_sequence expected) as ->; [|by apply by_sequence_lookup].
    unfold api.commit. simpl. clear. induction expected as [|c l IH] using rev_ind; [done|].
    rewrite by_sequence_snoc, foldl_snoc. simpl. by rewrite IH.
  - split; [apply Hl|]. intros n e. simpl in Hf. rewrite Hf by done. apply Hl.
Qed.

Lemma wp_first w st : eventsStore w = Some st -> eok st -> write a = true -> listed st (sourceScope a) id evs ->
  api.view st (itarget intent) id = None ->
  wp (adoptEvents a id intent)
    (fun o w' => o = outcome (if deleteSource a then StatusSourceDeleted else StatusCopied) true /\
       exists st', w' = set_events w st' /\ adopted_state st') w.
Proof.
  intros Hw Hok Hwr Hl Hnone. apply wp_attempt, (wp_replay_listed _ _ _ st evs); [done..|]. rewrite Hex.
  apply wp_attempt, (wp_replay_listed _ _ _ st []); [done..|apply listed_empty; unfold records_of; by rewrite Hnone|apply readable_nil|].
  rewrite bool_decide_eq_false_2 by naive_solver. rewrite bool_decide_eq_false_2 by done. rewrite Hwr. simpl.
  rewrite (max_sequence_seqs expected evs) by by eapply stampEvents_seqs.
  assert (StronglySorted api.seq_lt expected) as Hs by (eapply stampEvents_sorted; [exact Hex|apply Hl]).
  apply wp_bind. unfold wp at 1, writeEvents, on_events. rewrite Hw.
  destruct (expected_single _ Hok Hl) as [Hsingle Htid].
  destruct (api.write_succeeds st (itarget intent) expected ExpectGenesis) as [st1 Hwe]; [apply Hok|done|done|done| |].
  { rewrite Htid, Hnone. done. }
  rewrite Hwe. destruct (listed_write _ _ Hok Hl Hnone Hwe) as (Hok1 & Hl1 & Hl2).
  apply wp_attempt, (wp_replay_listed _ _ _ st1 expected); [done..|apply expected_readable|]. rewrite match_refl by done.
  destruct (deleteSource a) eqn:Hdel.
  - eapply wp_mono; [by apply (wp_delete_listed _ _ st1)|]. intros o w' (-> & st' & -> & Hok' & Hemp & Ht). split; [done|].
    exists st'. split; [done|]. unfold adopted_state. rewrite Hdel. split; [done|]. split; [|done]. split; [done|]. rewrite Ht. apply Hl1.
  - apply wp_ret. split; [done|]. exists st1. split; [done|]. unfold adopted_state. by rewrite Hdel.
Qed.

Lemma wp_second w st : eventsStore w = Some st -> eok st -> write a = true -> listed st (itarget intent) id expected ->
  (if deleteSource a then records_of st (sourceScope a) id = ∅ else listed st (sourceScope a) id evs) ->
  StronglySorted api.seq_lt evs ->
  wp (adoptEvents a id intent) (fun o w' => o = outcome StatusAlreadyPresent false /\ w' = w) w.
Proof.
  intros Hw Hok Hwr Ht Hl Hs. assert (is_u64 maxReplaySequence) by done. pose proof expected_nonempty as Hn.
  pose proof Hex as Hex'. unfold expected_of in Hex'. rewrite Hmd in Hex'.
  assert (Forall (fun e => ownedByTenant (TenantMetadata e) (itenant intent) = true) expected) as Ho by (by eapply stampEvents_owned).
  assert (StronglySorted api.seq_lt expected) as Hse by (eapply stampEvents_sorted; [exact Hex|done]).
  destruct (deleteSource a) eqn:Hdel.
  - apply wp_attempt, (wp_replay_listed _ _ _ st []); [done..|by apply listed_empty|apply readable_nil|]. simpl.
    apply wp_attempt, (wp_replay_listed _ _ _ st expected); [done..|apply expected_readable|].
    rewrite bool_decide_eq_true_2 by done.
    assert (verifyEventsEquivalent [] expected (itenant intent) (sourceScope a) = None) as ->; [|by apply wp_ret].
    rewrite <- (app_nil_r expected). apply (adopted_stream_proven a _ evs); [done..| |done|by rewrite app_nil_r|constructor].
    destruct Hread as [Hr _]. eapply Forall_impl; [exact Hr|]. unfold is_u64, maxReplaySequence. simpl. lia.
  - apply wp_attempt, (wp_replay_listed _ _ _ st evs); [done..|]. rewrite Hex.
    apply wp_attempt, (wp_replay_listed _ _ _ st expected); [done..|apply expected_readable|].
    rewrite bool_decide_eq_true_2 by done. rewrite equivalent_refl by done. unfold afterVerifiedEvents. rewrite Hdel, andb_false_r.
    by apply wp_ret.
Qed.

(** C27: Over a store that answers, adopting a readable stream into a target
    that never held events succeeds: the events are copied, and deleted from
    the source when asked for; adopting again finds them already present and
    changes nothing. *)
Theorem adoption_completes_once w st :
  eventsStore w = Some st -> eok st -> write a = true -> listed st (sourceScope a) id evs ->
  api.view st (itarget intent) id = None ->
  exists st', adoptEvents a id intent w =
      (Returned (outcome (if deleteSource a then StatusSourceDeleted else StatusCopied) true), set_events w st') /\
    adopted_state st' /\
    adoptEvents a id intent (set_events w st') = (Returned (outcome StatusAlreadyPresent false), set_events w st').
Proof.
  intros Hw Hok Hwr Hl Hnone. pose proof (wp_first w st Hw Hok Hwr Hl Hnone) as Hfirst. unfold wp in Hfirst.
  destruct (adoptEvents a id intent w) as [[o|] w1]; [|done]. destruct Hfirst as (-> & st' & -> & Had). exists st'.
  split; [done|]. split; [done|]. destruct Had as (Hok' & Ht & Hsr).
  pose proof (wp_second (set_events w st') st' eq_refl Hok' Hwr Ht Hsr (proj1 Hl)) as Hsecond. unfold wp in Hsecond.
  destruct (adoptEvents a id intent (set_events w st')) as [[o|] w2]; [|done]. by destruct Hsecond as [-> ->].
Qed.
End Stream.
End Rerun.
End adoption_rerun.
