(* ===== verification/AdoptionFences.v ===== *)
(** * The fences of an adoption

    A write-enabled run holds the fence of the source and of the target of an
    aggregate while it adopts it, releases both on every exit, and takes them
    in one global order, so that any number of runs, in whatever directions
    they move data, never deadlock. *)

From S2P Require Import Prelude GoStrings Tenancy Persistence Egopb StoreApi EventStore Adoption.
From Stdlib Require Import ZArith Lia.
Open Scope string_scope.
Local Open Scope list_scope.

Module adoption_fences.
Import persistence egopb adoption.

(** ** The order of fences *)
Lemma fenceOrderKey_inj sc sc' : wf_scope sc -> wf_scope sc' -> fenceOrderKey sc = fenceOrderKey sc' -> sc = sc'.
Proof. unfold fenceOrderKey, IsUnscoped, TenantID. intros [] []; simpl; naive_solver. Qed.

Definition key_lt (sc sc' : Scope) : Prop := testkit.str_ltb (fenceOrderKey sc) (fenceOrderKey sc') = true.

Lemma str_ltb_irrefl x : testkit.str_ltb x x = false.
Proof. apply not_true_is_false. rewrite testkit.str_ltb_spec. by intros []. Qed.
Lemma str_ltb_total x y : x <> y -> testkit.str_ltb x y = false -> testkit.str_ltb y x = true.
Proof.
  intros Hne Hn. apply testkit.str_ltb_spec. split; [|done]. destruct (total String.le x y) as [Hle|]; [|done].
  assert (testkit.str_ltb x y = true) by (by apply testkit.str_ltb_spec). congruence.
Qed.
Lemma str_ltb_trans x y z : testkit.str_ltb x y = true -> testkit.str_ltb y z = true -> testkit.str_ltb x z = true.
Proof.
  rewrite !testkit.str_ltb_spec. intros [Hxy Hne] [Hyz Hne']. split; [by etrans|]. intros ->. apply Hne. by apply (anti_symm String.le).
Qed.
Lemma str_ltb_asym x y : testkit.str_ltb x y = true -> testkit.str_ltb y x = false.
Proof.
  intros Hxy. apply not_true_is_false. intros Hyx. pose proof (str_ltb_trans _ _ _ Hxy Hyx) as Hxx. by rewrite str_ltb_irrefl in Hxx.
Qed.

(** The two fences of an aggregate, in increasing order of key. *)
Lemma fence_scopes_ordered source target : wf_scope source -> wf_scope target -> target <> source ->
  exists sc1 sc2, fence_scopes source target = [sc1; sc2] /\ key_lt sc1 sc2 /\
    ((sc1 = source /\ sc2 = target) \/ (sc1 = target /\ sc2 = source)).
Proof.
  intros Hs Ht Hne. unfold fence_scopes, key_lt. destruct (testkit.str_ltb _ _) eqn:E; [by exists target, source; auto|].
  exists source, target. split_and!; [done| |by left]. apply str_ltb_total; [|done]. by intros ->%fenceOrderKey_inj.
Qed.

(** ** Runs that contend for fences *)
Abbreviation lock := (Scope * string)%type.

(** The fences of one aggregate that moves from [source] to [target]. *)
Record job := mkJob { jid : string; jsource : Scope; jtarget : Scope }.
Definition job_ok (j : job) : Prop := wf_scope (jsource j) /\ wf_scope (jtarget j) /\ jtarget j <> jsource j.
Definition locks (j : job) : list lock := (fun sc => (sc, jid j)) <$> fence_scopes (jsource j) (jtarget j).

(** A run: the aggregates it has still to adopt, the fences it still
    waits for, and those it holds. *)
Record run := mkRun { todo : list job; wants : list lock; holds : list lock }.
Definition finished (r : run) : Prop := todo r = [] /\ wants r = [] /\ holds r = [].

Inductive fence_step : list run -> list run -> Prop :=
| step_start rs i j js :
    rs !! i = Some (mkRun (j :: js) [] []) -> fence_step rs (<[i := mkRun js (locks j) []]> rs)
| step_acquire rs i js l ls hs :
    rs !! i = Some (mkRun js (l :: ls) hs) -> (forall r, r ∈ rs -> l ∉ holds r) ->
    fence_step rs (<[i := mkRun js ls (l :: hs)]> rs)
| step_release rs i js h hs :
    rs !! i = Some (mkRun js [] (h :: hs)) -> fence_step rs (<[i := mkRun js [] []]> rs).

Definition starting (r : run) : Prop := Forall job_ok (todo r) /\ wants r = [] /\ holds r = [].

(** Each fence a run holds is below each it waits for. *)
Definition ordered (r : run) : Prop :=
  Forall job_ok (todo r) /\ StronglySorted (fun l l' => key_lt l.1 l'.1) (reverse (holds r) ++ wants r).

Lemma locks_sorted j : job_ok j -> StronglySorted (fun l l' : lock => key_lt l.1 l'.1) (locks j).
Proof.
  intros (Hs & Ht & Hne). destruct (fence_scopes_ordered _ _ Hs Ht Hne) as (sc1 & sc2 & E & Hlt & _).
  unfold locks. rewrite E. repeat constructor. done.
Qed.

Lemma fence_step_ordered rs rs' : fence_step rs rs' -> Forall ordered rs -> Forall ordered rs'.
Proof.
  intros Hstep Hall. destruct Hstep as [rs i j js Hi|rs i js l ls hs Hi _|rs i js h hs Hi]; apply Forall_insert; try done;
    apply (Forall_lookup_1 _ _ _ _ Hall) in Hi as [Hj Hs]; simpl in *.
  - apply Forall_cons in Hj as [Hj Hjs]. split; [done|]. by apply locks_sorted.
  - split; [done|]. simpl. by rewrite reverse_cons, <- app_assoc.
  - split; [done|]. constructor.
Qed.

Lemma ordered_held_below r h l ls : ordered r -> wants r = l :: ls -> h ∈ holds r -> key_lt h.1 l.1.
Proof.
  intros [_ Hs] Hw Hh. rewrite Hw in Hs. apply elem_of_reverse, list_elem_of_split in Hh as (l1 & l2 & E). rewrite E in Hs.
  rewrite <- app_assoc in Hs. apply StronglySorted_app in Hs as (_ & _ & Hs). simpl in Hs.
  apply StronglySorted_inv in Hs as [_ Hf]. rewrite Forall_forall in Hf. apply Hf. set_solver.
Qed.

(** A non-empty list of keys has a greatest one. *)
Lemma greatest (ks : list string) : ks <> [] -> exists m, m ∈ ks /\ forall x, x ∈ ks -> testkit.str_ltb m x = false.
Proof.
  induction ks as [|k ks IH]; [done|]. intros _. destruct (decide (ks = [])) as [->|Hne].
  { exists k. split; [left|]. intros x ->%list_elem_of_singleton. apply str_ltb_irrefl. }
  destruct (IH Hne) as (m & Hm & Hmax). destruct (testkit.str_ltb m k) eqn:E.
  - exists k. split; [left|]. intros x [->|Hx]%elem_of_cons; [apply str_ltb_irrefl|]. apply not_true_is_false. intros Hkx.
    specialize (Hmax x Hx). rewrite (str_ltb_trans _ _ _ E Hkx) in Hmax. done.
  - exists m. split; [by right|]. intros x [->|Hx]%elem_of_cons; [done|by apply Hmax].
Qed.

#[export] Instance finished_dec r : Decision (finished r).
Proof. unfold finished. apply _. Defined.

Lemma idle_moves rs r : r ∈ rs -> wants r = [] -> ~ finished r -> exists rs', fence_step rs rs'.
Proof.
  intros [i Hi]%list_elem_of_lookup Hw Hnf. destruct r as [[|j js] ws [|h hs]]; simpl in Hw; subst ws.
  - by destruct Hnf.
  - eexists. by eapply step_release.
  - eexists. by eapply step_start.
  - eexists. by eapply step_release.
Qed.

(** When every unfinished run waits, the one that waits for the greatest
    fence gets it: its holder would wait for a greater one. *)
Lemma someone_moves rs : Forall ordered rs -> ~ Forall finished rs -> exists rs', fence_step rs rs'.
Proof.
  intros Hall Hnf. destruct (decide (Exists (fun r => wants r = [] /\ ~ finished r) rs)) as [(r & Hr & Hw & Hn)%list.Exists_exists|Hno].
  { by eapply idle_moves. }
  assert (forall r, r ∈ rs -> ~ finished r -> exists l ls, wants r = l :: ls) as Hwait.
  { intros r Hr Hn. destruct (wants r) as [|l ls] eqn:E; [|eauto]. exfalso. apply Hno, list.Exists_exists. eauto. }
  apply not_Forall_Exists, list.Exists_exists in Hnf as (r0 & Hr0 & Hn0); [|intros ?; apply _].
  destruct (greatest ((fun l : lock => fenceOrderKey l.1) <$> omap (fun r => head (wants r)) rs)) as (m & Hm & Hmax).
  { destruct (Hwait r0 Hr0 Hn0) as (l & ls & E). assert (l ∈ omap (fun r => head (wants r)) rs) as Hin.
    { apply list_elem_of_omap. exists r0. by rewrite E. }
    intros Heq%fmap_nil_inv. rewrite Heq in Hin. by apply not_elem_of_nil in Hin. }
  apply list_elem_of_fmap in Hm as (l & -> & (r & Hr & Hl)%list_elem_of_omap).
  destruct (decide (Exists (fun q => l ∈ holds q) rs)) as [(q & Hq & Hlq)%list.Exists_exists|Hfree].
  - exfalso. destruct (Hwait q Hq) as (l' & ls' & E'); [intros (_ & _ & Hh); rewrite Hh in Hlq; by apply not_elem_of_nil in Hlq|].
    rewrite Forall_forall in Hall. pose proof (ordered_held_below q l l' ls' (Hall q Hq) E' Hlq) as Hlt. unfold key_lt in Hlt.
    rewrite (Hmax (fenceOrderKey l'.1)) in Hlt; [done|]. apply list_elem_of_fmap. exists l'. split; [done|].
    apply list_elem_of_omap. exists q. by rewrite E'.
  - apply list_elem_of_lookup in Hr as [i Hi]. destruct r as [js ws hs]. simpl in Hl. destruct ws as [|l1 ls]; [done|].
    injection Hl as ->. eexists. eapply step_acquire; [done|]. intros q Hq Hlq. apply Hfree, list.Exists_exists. eauto.
Qed.

(** Work left: two acquisitions and a release per aggregate. *)
Definition work (r : run) : nat := 6 * length (todo r) + 2 * length (wants r) + (if holds r then 0 else 1).
Definition total_work (rs : list run) : nat := sum_list_with work rs.

Lemma total_work_insert rs i r r' : rs !! i = Some r -> work r' < work r -> total_work (<[i := r']> rs) < total_work rs.
Proof.
  unfold total_work. revert i. induction rs as [|x rs IH]; intros [|i] Hi Hlt; simplify_eq/=; [lia|].
  specialize (IH _ Hi Hlt). lia.
Qed.

Lemma fence_step_work rs rs' : fence_step rs rs' -> total_work rs' < total_work rs.
Proof.
  intros Hstep. destruct Hstep as [rs i j js Hi|rs i js l ls hs Hi _|rs i js h hs Hi]; eapply total_work_insert; try done;
    unfold work; simpl; [|destruct hs; lia|lia].
  unfold locks. rewrite length_fmap. unfold fence_scopes. case_match; simpl; lia.
Qed.

(** No two runs hold the same fence. *)
Definition exclusive (rs : list run) : Prop :=
  forall i j r q l, rs !! i = Some r -> rs !! j = Some q -> l ∈ holds r -> l ∈ holds q -> i = j.

Lemma fence_step_exclusive rs rs' : fence_step rs rs' -> exclusive rs -> exclusive rs'.
Proof.
  assert (forall rs i r r', rs !! i = Some r -> exclusive rs ->
    (forall l, l ∈ holds r' -> l ∈ holds r \/ forall q, q ∈ rs -> l ∉ holds q) -> exclusive (<[i := r']> rs)) as Hins.
  { clear. intros rs i r r' Hi Hex Hl i1 i2 r1 r2 l H1 H2 Hl1 Hl2. assert (i < length rs) as Hlt by by eapply lookup_lt_Some.
    destruct (decide (i1 = i)) as [->|Hn1], (decide (i2 = i)) as [->|Hn2]; [done|..];
      rewrite ?list_lookup_insert_eq, ?list_lookup_insert_ne in * by done; simplify_eq.
    - destruct (Hl l Hl1) as [?|Hq]; [by eapply Hex|]. exfalso. apply (Hq r2); [by eapply list_elem_of_lookup_2|done].
    - destruct (Hl l Hl2) as [?|Hq]; [by eapply Hex|]. exfalso. apply (Hq r1); [by eapply list_elem_of_lookup_2|done].
    - by eapply Hex. }
  intros Hstep Hex. destruct Hstep as [rs i j js Hi|rs i js l ls hs Hi Hfree|rs i js h hs Hi]; eapply Hins; try done; simpl.
  - by intros l ?%not_elem_of_nil.
  - intros l' [->|Hin]%elem_of_cons; [by right|by left].
  - by intros l ?%not_elem_of_nil.
Qed.

(** C33: Any number of runs, each adopting any aggregates from any source to
    any target, under any schedule: no two hold the same fence, the runs take
    boundedly many steps, and as long as one is not finished some run can
    move. So they all finish; in particular two runs that move data in opposite
    directions do not deadlock. *)
Theorem fences_never_deadlock rs0 rs n :
  Forall starting rs0 -> nsteps fence_step n rs0 rs ->
  exclusive rs /\ n <= total_work rs0 /\ (Forall finished rs \/ exists rs', fence_step rs rs').
Proof.
  intros Hst Hn. assert (Forall ordered rs0 /\ exclusive rs0) as [Ho He].
  { split.
    - eapply Forall_impl; [exact Hst|]. intros [] (Hj & Hw & Hh). simpl in *. subst. split; [done|]. constructor.
    - intros i j r q l Hi _ Hl. rewrite Forall_lookup in Hst. destruct (Hst _ _ Hi) as (_ & _ & Hh). rewrite Hh in Hl.
      by apply not_elem_of_nil in Hl. }
  assert (Forall ordered rs /\ exclusive rs /\ n + total_work rs <= total_work rs0) as (Ho' & He' & Hw).
  { clear Hst. induction Hn as [rs|n rs1 rs2 rs3 Hs Hn IH]; [split_and!; [done..|lia]|].
    destruct IH as (? & ? & ?); [by eapply fence_step_ordered|by eapply fence_step_exclusive|]. apply fence_step_work in Hs.
    split_and!; [done..|lia]. }
  split_and!; [done|lia|]. destruct (decide (Forall finished rs)); [by left|]. right. by apply someone_moves.
Qed.

(** A swap: one run moves "a" from t1 to t2, the other back. *)
Definition swap : list run :=
  let t1 := mkScope scopeTenant "t1" in let t2 := mkScope scopeTenant "t2" in
  [mkRun [mkJob "a" t1 t2] [] []; mkRun [mkJob "a" t2 t1] [] []].

Lemma fences_never_deadlock_witness : Forall starting swap /\ (Forall finished swap \/ exists rs', fence_step swap rs').
Proof.
  assert (Forall starting swap) as Hst.
  { repeat constructor; simpl; try done; by (apply (NewTenantScope_wf "t1") || apply (NewTenantScope_wf "t2")). }
  split; [exact Hst|]. apply (fences_never_deadlock swap swap 0 Hst). constructor.
Defined.

(** ** Every fence taken is released *)
Section Release.
Context {St Sn Sd F : Type}.
Context `{Encoding, api.EventsStore St, api.SnapshotStore Sn, api.StateStore Sd, AdoptionFence F}.
Abbreviation World := (@adoption.World St Sn Sd F).
Abbreviation M := (@adoption.M St Sn Sd F).

(** What an application's fence promises: a granted acquisition adds one
    hold, which its release ends; a refused one adds none. *)
Class FenceLaws := {
  held : F -> gset lock;
  acquire_granted f sc id release f' : Acquire f sc id = (Ok release, f') ->
    (sc, id) ∉ held f /\ held f' = {[(sc, id)]} ∪ held f /\
    exists rel, release = Some rel /\ forall g, held (rel g) = held g ∖ {[(sc, id)]};
  acquire_refused f sc id e f' : Acquire f sc id = (Err e, f') -> held f' = held f
}.
Context {HF : FenceLaws}.

(** Computations that leave the fence alone, panicking or not. *)
Definition fence_frame {A} (m : M A) : Prop := forall w, fence (m w).2 = fence w.

Lemma frame_ret {A} (x : A) : fence_frame (mret x).
Proof. done. Qed.
Lemma frame_bind {A B} (m : M A) (k : A -> M B) : fence_frame m -> (forall x, fence_frame (k x)) -> fence_frame (m ≫= k).
Proof. intros Hm Hk w. unfold mbind, M_bind. specialize (Hm w). destruct (m w) as [[x|] w1]; simpl in *; [|done]. by rewrite Hk. Qed.
Lemma frame_attempt {A B E} (m : M (result E A)) (h : E -> B) k : fence_frame m -> (forall x, fence_frame (k x)) -> fence_frame (attempt m h k).
Proof. intros Hm Hk. apply frame_bind; [done|]. intros [x|e]; [apply Hk|apply frame_ret]. Qed.
Lemma frame_events {A} (f : St -> option (A * St)) : fence_frame (on_events f).
Proof. intros w. unfold on_events. repeat case_match; done. Qed.
Lemma frame_snapshots {A} (f : Sn -> A * Sn) : fence_frame (on_snapshots f).
Proof. intros w. unfold on_snapshots. repeat case_match; done. Qed.
Lemma frame_states {A} (f : Sd -> A * Sd) : fence_frame (on_states f).
Proof. intros w. unfold on_states. repeat case_match; done. Qed.

Create HintDb fence_frame.
Hint Resolve frame_ret frame_events frame_snapshots frame_states : fence_frame.
(** Walk through a computation, branch by branch. *)
Ltac frame :=
  repeat first
    [ progress auto with fence_frame nocore
    | apply frame_attempt; [|intros]
    | apply frame_bind; [|intros]
    | case_match ].

Lemma frame_deleteEvents a id evs n wrote : fence_frame (deleteVerifiedSourceEvents (St:=St) a id evs n wrote).
Proof. unfold deleteVerifiedSourceEvents, replayAll, deleteEvents, latestEvent. frame. Qed.
Lemma frame_after a id evs n v : fence_frame (afterVerifiedEvents (St:=St) a id evs n v).
Proof. unfold afterVerifiedEvents. case_match; [apply frame_deleteEvents|frame]. Qed.
Hint Resolve frame_deleteEvents frame_after : fence_frame.
Lemma frame_adoptEvents a id intent : fence_frame (adoptEvents (St:=St) a id intent).
Proof. unfold adoptEvents, replayAll, writeEvents. frame. Qed.
Lemma frame_deleteSnapshot a id s wrote : fence_frame (deleteVerifiedSourceSnapshot (Sn:=Sn) a id s wrote).
Proof. unfold deleteVerifiedSourceSnapshot, latestSnapshot, deleteSnapshots. frame. Qed.
Hint Resolve frame_deleteSnapshot : fence_frame.
Lemma frame_adoptSnapshot a id intent : fence_frame (adoptSnapshot (Sn:=Sn) a id intent).
Proof. unfold adoptSnapshot, latestSnapshot, writeSnapshot. frame. Qed.
Lemma frame_classify a id intent c : fence_frame (classifyTarget (Sd:=Sd) a id intent c).
Proof. unfold classifyTarget, latestState. frame. Qed.
Hint Resolve frame_classify : fence_frame.
Lemma frame_adoptState a id intent : fence_frame (adoptState (Sd:=Sd) a id intent).
Proof. unfold adoptState, latestState, writeState. frame. Qed.
Hint Resolve frame_adoptEvents frame_adoptSnapshot frame_adoptState : fence_frame.

Lemma frame_adoptAggregate a id t intent report : fence_frame (adoptAggregate a id t intent report).
Proof. intros w. unfold adoptAggregate. match goal with |- fence (?m w).2 = _ => change (fence (m w).2 = fence w); cut (fence_frame m); [intros Hm; apply Hm|] end. unfold adoptKind. frame. Qed.

Definition locks_of (id : string) (scopes : list Scope) : gset lock := list_to_set ((fun sc => (sc, id)) <$> scopes).

(** From a fence whose holds are [B] and those of [releases]. *)
Lemma acquire_all_held (id : string) (scopes : list Scope) (releases : list (F -> F)) (R B : gset lock) (w : World) f :
  fence w = Some f -> held f = R ∪ B -> R ## B -> (forall g, held (foldl (fun f release => release f) g releases) = held g ∖ R) ->
  exists r f', acquire_all id scopes releases w = (Returned r, set_fence w f') /\
    match r with
    | Ok release => held f' = locks_of id scopes ∪ R ∪ B /\ locks_of id scopes ∪ R ## B /\
        forall g, held (release g) = held g ∖ (locks_of id scopes ∪ R)
    | Err _ => held f' = B
    end.
Proof.
  revert releases R w f. induction scopes as [|sc scopes IH]; intros releases R w f Hf Hh Hd Hrel; simpl.
  { eexists (Ok _), f. split; [unfold mret, M_ret; destruct w; simpl in *; by subst|].
    assert (locks_of id [] ∪ R = R) as -> by (unfold locks_of; set_solver). done. }
  unfold mbind at 1, M_bind, on_fence at 1. rewrite Hf. destruct (Acquire f sc id) as [[release|e] f1] eqn:Ha.
  - apply acquire_granted in Ha as (Hnew & Hh1 & rel & -> & Hr). simpl.
    destruct (IH (rel :: releases) ({[(sc, id)]} ∪ R) (set_fence w f1) f1) as (r & f' & Hrun & Hpost); [done| | | |].
    + rewrite Hh1, Hh. set_solver.
    + rewrite Hh in Hnew. set_solver.
    + intros g. simpl. rewrite Hrel, Hr. set_solver.
    + exists r, f'. split; [exact Hrun|]. destruct r; [|done].
      assert (locks_of id (sc :: scopes) ∪ R = locks_of id scopes ∪ ({[(sc, id)]} ∪ R)) as -> by (unfold locks_of; simpl; set_solver). done.
  - apply acquire_refused in Ha. simpl. eexists (Err e), _. split; [done|]. rewrite Hrel, Ha, Hh. set_solver.
Qed.

(** A write-enabled adoption of an aggregate either takes no store action
    at all, or runs with the fences of its source and target held from its
    first read to its last write; however it ends, by return or panic, the
    fence is held exactly as before. *)
Theorem fences_held_and_released a id report (w w' : World) f r :
  write a = true -> fence w = Some f -> processAggregate a id report w = (r, w') ->
  (exists f', fence w' = Some f' /\ held f' = held f) /\
  (eventsStore w' = eventsStore w /\ snapshotStore w' = snapshotStore w /\ stateStore w' = stateStore w \/
   exists t intent f1 w2, held f1 = locks_of id (fence_scopes (sourceScope a) (itarget intent)) ∪ held f /\
     adoptAggregate a id t intent (add_assigned report) (set_fence w f1) = (r, w2) /\ fence w2 = Some f1 /\
     eventsStore w' = eventsStore w2 /\ snapshotStore w' = snapshotStore w2 /\ stateStore w' = stateStore w2).
Proof.
  intros Hwr Hf. unfold processAggregate. rewrite Hwr.
  assert (forall x, (mret x : M _) w = (r, w') -> (exists f', fence w' = Some f' /\ held f' = held f) /\
    (eventsStore w' = eventsStore w /\ snapshotStore w' = snapshotStore w /\ stateStore w' = stateStore w \/ False)) as Hidle.
  { intros x [= _ <-]. eauto 10. }
  intros Hrun. destruct (adoption.assign a id) as [[t []]|m]; [|destruct (Hidle _ Hrun) as [? [?|[]]]; eauto..].
  destruct (NewTenantScope t) as [target|e]; [|destruct (Hidle _ Hrun) as [? [?|[]]]; eauto].
  destruct (tenancy.NewTenantContext _) as [tc|e]; [|destruct (Hidle _ Hrun) as [? [?|[]]]; eauto].
  destruct (Equal _ _); [destruct (Hidle _ Hrun) as [? [?|[]]]; eauto|].
  destruct (acquire_all_held id (fence_scopes (sourceScope a) target) [] ∅ (held f) w f) as (rel & f1 & Hacq & Hpost);
    [done|set_solver..|]. unfold mbind, M_bind, acquireFences in Hrun. rewrite Hacq in Hrun. destruct rel as [release|e].
  2: { injection Hrun as _ <-. simpl. eauto 10. }
  destruct Hpost as (Hh & Hd & Hrel). unfold deferred in Hrun.
  pose proof (frame_adoptAggregate a id t (mkIntent target tc (tenancy.MarshalMetadata tc)) (add_assigned report) (set_fence w f1)) as Hfr.
  destruct (adoptAggregate _ _ _ _ _ _) as [x w2] eqn:Hagg. simpl in Hfr. rewrite Hfr in Hrun. injection Hrun as -> <-. simpl. split.
  - exists (release f1). split; [done|]. rewrite Hrel, Hh. set_solver.
  - right. exists t, (mkIntent target tc (tenancy.MarshalMetadata tc)), f1, w2. rewrite Hh. split_and!; try done. simpl. set_solver.
Qed.
End Release.
End adoption_fences.
