(* ===== verification/AdoptionExamples.v ===== *)
(** * Adoption over the in-memory stores

    The in-memory stores under the interfaces an adopter asks for, a concrete
    fence and encoding, instances of the theorems on them, and the behaviours
    at odds with the documentation. *)

From S2P Require Import Prelude GoStrings Tenancy Persistence Egopb StoreApi EventStore StateStores.
From S2P Require Import Adoption AdoptionReceipts AdoptionSpec AdoptionSafety AdoptionRerun AdoptionFences.
From Stdlib Require Import ZArith Lia Ascii.
Open Scope string_scope.
Local Open Scope list_scope.

Module adoption_examples.
Import persistence egopb adoption adoption_receipts adoption_spec adoption_safety adoption_rerun adoption_fences.

(** ** Instances *)
#[export] Existing Instances testkit.EventStore_ops testkit.EventStore_laws testkit.EventStore_reliable.
#[export] Existing Instances durablestore.DurableStore_ops durablestore.DurableStore_laws.
#[export] Instance snap_ops : api.SnapshotStore snapshotstore.SnapshotStore := snapshotstore.SnapshotStore_ops map_to_list.
#[export] Instance snap_laws : api.SnapshotStoreLaws snapshotstore.SnapshotStore :=
  snapshotstore.SnapshotStore_laws map_to_list (fun m => reflexivity (R := Permutation) _).

#[export] Instance ping_event_store : Pingable testkit.EventStore := fun x => (Ok tt, testkit.Ping x).
#[export] Instance ping_snapshot_store : Pingable snapshotstore.SnapshotStore := fun x => (Ok tt, snapshotstore.Ping x).
#[export] Instance ping_durable_store : Pingable durablestore.DurableStore := fun x => (Ok tt, durablestore.Ping x).
#[export] Instance list_event_store : Enumerable testkit.EventStore := testkit.PersistenceIDs map_to_list.

#[export] Instance in_memory_delete : ReliableDelete (St := testkit.EventStore).
Proof. intros st sc pid to Hok Hv. destruct (testkit.DeleteEvents_spec st sc pid to Hok Hv) as (st' & Hd & _). by exists st'. Qed.

(** A table of locks. *)
#[export] Instance lock_table : AdoptionFence (gset lock) := fun f sc id =>
  if bool_decide ((sc, id) ∈ f) then (Err "busy", f)
  else (Ok (Some (fun g => g ∖ {[(sc, id)]})), {[(sc, id)]} ∪ f).

#[export] Instance lock_table_laws : FenceLaws (F := gset lock).
Proof.
  refine {| held f := f |}.
  - intros f sc id release f'. unfold Acquire, lock_table. case_bool_decide as Hin; [done|]. intros [= <- <-]. split_and!; [done..|].
    eexists. split; [done|]. done.
  - intros f sc id e f'. unfold Acquire, lock_table. case_bool_decide; by intros [= _ <-].
Defined.

(** A textual encoding in place of protobuf, and the bytes in hexadecimal
    in place of their digest. *)
Definition encode_metadata (md : gmap string string) : bytes :=
  concat ((fun kv => b2l kv.1 ++ [zero_byte] ++ b2l kv.2 ++ [zero_byte]) <$> map_to_list md).
Definition encode (m : Message) : bytes :=
  match m with
  | MEvent e => b2l (PersistenceId e) ++ [zero_byte] ++ fmt_uint_list (SequenceNumber e) ++ encode_metadata (TenantMetadata e)
  | MSnapshot s => b2l (sPersistenceId s) ++ [zero_byte] ++ fmt_uint_list (sSequenceNumber s) ++ encode_metadata (sTenantMetadata s)
  | MState d => b2l (dPersistenceId d) ++ [zero_byte] ++ fmt_uint_list (VersionNumber d) ++ encode_metadata (dTenantMetadata d)
  end.
#[export] Instance text_encoding : Encoding :=
  {| print_tbl := fun _ => true; Marshal := fun m => Ok (encode m); sha256hex := fun b => concat ((fun c => hexs 2 (bv c)) <$> b) |}.

Lemma hexd_colon z : (0 <= z < 16)%Z -> hexd z <> colon.
Proof.
  intros Hz Hc. pose proof (f_equal bv Hc) as Hb. unfold hexd in Hb. change (bv colon) with 58%Z in Hb.
  destruct (z <? 10)%Z eqn:E; rewrite bv_vb in Hb; lia.
Qed.

Lemma hexs_colon n z : colon ∉ hexs n z.
Proof.
  revert z. induction n as [|n IH]; intros z; simpl; [apply not_elem_of_nil|]. rewrite elem_of_app, list_elem_of_singleton.
  intros [Hin|Hc]; [by apply IH in Hin|]. apply (hexd_colon (z mod 16)); [|done]. apply Z.mod_pos_bound. lia.
Qed.

#[export] Instance text_encoding_laws : EncodingLaws.
Proof.
  split. intros b. cbn [sha256hex text_encoding]. induction b as [|c b IH]; [apply not_elem_of_nil|].
  change (colon ∉ hexs 2 (bv c) ++ concat ((fun c => hexs 2 (bv c)) <$> b)). rewrite elem_of_app.
  intros [Hin|Hin]; [by apply hexs_colon in Hin|done].
Qed.

#[export] Instance in_memory_quiet :
  QuietPing (St := testkit.EventStore) (Sn := snapshotstore.SnapshotStore) (Sd := durablestore.DurableStore).
Proof.
  split.
  - intros st r st' [= _ <-] Hok. unfold testkit.Ping. by destruct (testkit.connected st) eqn:E, st; simpl in *; rewrite ?E.
  - intros st r st' [= _ <-] Hok. unfold snapshotstore.Ping, snapshotstore.Connect. by destruct (snapshotstore.connected st), st.
  - intros st r st' [= _ <-] sc pid. unfold durablestore.Ping, durablestore.Connect. by destruct (durablestore.connected st) eqn:E; rewrite ?E; destruct st.
Qed.

(** ** The scan of the in-memory store *)
Lemma page_nonempty st sc size token ids next :
  testkit.PersistenceIDs map_to_list st sc size token = Some (Ok (ids, next)) -> next <> "" -> ids <> [].
Proof.
  unfold testkit.PersistenceIDs. destruct (Valid sc); simpl; [|done]. set (start := if bool_decide _ then _ else _).
  destruct (api.max_int <? _)%N; [done|]. intros [= <- <-] Hn Hids. rewrite Hids in Hn. simpl in Hn.
  rewrite andb_false_r in Hn. done.
Qed.

Lemma list_pages_all st sc size fuel token acc l : testkit.list_all map_to_list st sc size fuel token = Some l ->
  list_pages st sc size fuel token acc = Some (Ok (foldl add_id acc l)).
Proof.
  revert token acc l. induction fuel as [|fuel IH]; intros token acc l; simpl; [done|].
  unfold PersistenceIDs, list_event_store. destruct (testkit.PersistenceIDs _ _ _ _ _) as [[[ids next]|e]|] eqn:Hp; [|done..].
  case_bool_decide as Hn; simpl; [by intros [= ->]|]. intros (rest & Hrest & ->)%fmap_Some.
  rewrite bool_decide_eq_false_2 by by eapply page_nonempty. rewrite (IH _ _ _ Hrest). by rewrite foldl_app.
Qed.

Lemma add_ids_spec ids acc : NoDup acc -> NoDup (foldl add_id acc ids) /\ forall id, id ∈ foldl add_id acc ids <-> id ∈ acc \/ id ∈ ids.
Proof.
  revert acc. induction ids as [|x ids IH]; intros acc Hnd; simpl; [set_solver|]. unfold add_id at 2 4. case_bool_decide as Hx.
  - destruct (IH acc Hnd) as [? Hin]. split; [done|]. intros id. rewrite Hin. set_solver.
  - destruct (IH (acc ++ [x])) as [? Hin]; [apply NoDup_app; set_solver by (apply NoDup_singleton || done)|]. split; [done|].
    intros id. rewrite Hin. set_solver.
Qed.

(** A run over the in-memory store scans every aggregate: each id with a
    stream in the source scope and each explicit id, once, within one page
    more than there are streams. *)
Theorem scan_finds_every_stream (a : TenantAdopter) (w : @World testkit.EventStore snapshotstore.SnapshotStore durablestore.DurableStore (gset lock)) st :
  eventsStore w = Some st -> wf_scope (sourceScope a) -> map_Forall (fun k _ => wf_scope k.1) (testkit.db st) -> (0 < pageSize a)%N ->
  testkit.db st !! (sourceScope a, "") = None ->
  (N.of_nat (length (testkit.scope_keys map_to_list st (sourceScope a))) + pageSize a <= api.max_int)%N ->
  exists ids, collectPersistenceIDs a (S (length (testkit.scope_keys map_to_list st (sourceScope a)))) w = (Returned (Ok ids), w) /\
    NoDup ids /\ forall id, id ∈ ids <-> is_Some (testkit.stream_of st (sourceScope a) id) \/ id ∈ explicitIDs a.
Proof.
  intros Hw Hsc Hwf Hps Hemp Hmax. destruct (testkit.scope_keys_spec map_to_list (fun m => reflexivity (R := Permutation) _) st (sourceScope a) Hsc Hwf) as (Hs & Hnd & Hin).
  set (keys := testkit.scope_keys map_to_list st (sourceScope a)) in *.
  assert (testkit.list_all map_to_list st (sourceScope a) (pageSize a) (S (length keys)) "" = Some keys) as Hall.
  { apply (testkit.list_all_spec map_to_list (fun m => reflexivity (R := Permutation) _) st (sourceScope a) (pageSize a) [] keys); try done.
    - by apply wf_scope_valid.
    - by right.
    - simpl. rewrite Hin, Hemp. by intros [].
    - lia. }
  unfold collectPersistenceIDs. rewrite Hw, (list_pages_all _ _ _ _ _ [] _ Hall). simpl. eexists. split; [done|].
  destruct (add_ids_spec keys [] (NoDup_nil_2)) as [Hnd1 Hin1]. destruct (add_ids_spec (explicitIDs a) _ Hnd1) as [Hnd2 Hin2].
  split; [done|]. intros id. rewrite Hin2, Hin1, Hin. unfold testkit.stream_of, testkit.log_of. rewrite !fmap_is_Some. set_solver.
Qed.

(** ** A legacy deployment

    "a" has two events, two snapshots and a durable state, "b" one event, all
    unscoped; "a" belongs to the tenant "acme", "b" stays. *)
Definition acme : Scope := mkScope scopeTenant "acme".
Definition event (pid : string) (n : N) : Event := mkEvent pid n false (Some (mkAny "t" "v")) 0 0 "" false ∅.
Definition snapshot (pid : string) (n : N) : Snapshot := mkSnapshot pid n (Some (mkAny "t" "s")) 0 "" false ∅.

Definition legacy_events : testkit.EventStore :=
  (testkit.WriteEvents testkit.NewEventsStore Unscoped [event "a" 1; event "a" 2; event "b" 1] Unconditional).2.
Definition legacy_snapshots : snapshotstore.SnapshotStore :=
  (snapshotstore.WriteSnapshot (snapshotstore.WriteSnapshot snapshotstore.NewSnapshotStore Unscoped (snapshot "a" 1)).2
    Unscoped (snapshot "a" 2)).2.
Definition legacy_states : durablestore.DurableStore :=
  (durablestore.WriteState (durablestore.Connect durablestore.NewDurableStore) Unscoped
    (mkDurableState "a" 7 (Some (mkAny "t" "d")) 0 0 ∅) ExpectGenesis).2.

Abbreviation world := (@World testkit.EventStore snapshotstore.SnapshotStore durablestore.DurableStore (gset lock)).
Definition legacy : world := mkWorld (Some legacy_events) (Some legacy_snapshots) (Some legacy_states) (Some ∅).

Definition by_name (id : string) : result string (string * bool) :=
  if bool_decide (id = "a") then Ok ("acme", true) else Ok ("", false).
Definition adopter (write del : bool) : TenantAdopter := mkTenantAdopter by_name Unscoped [] 500 write del false.

Definition report_of {W} (x : exit (option AdoptionReport * option run_error) * W) : option (list nat) :=
  match x.1 with Returned (Some r, _) => Some (counts r).2 | _ => None end.

Lemma eok_new : eok testkit.NewEventsStore.
Proof. split; [apply map_Forall_empty|]. intros sc pid s n e. by vm_compute. Qed.

Lemma eok_write st sc evs p : eok st -> eok (testkit.WriteEvents st sc evs p).2.
Proof.
  intros [Hok Hk]. destruct (testkit.WriteEvents st sc evs p) as [r st'] eqn:Hw. by destruct (keyed_write _ _ _ _ _ _ Hok Hk Hw) as (? & ? & _).
Qed.

Lemma legacy_ok : world_ok legacy.
Proof.
  split; simpl.
  - intros st [= <-]. apply eok_write, eok_new.
  - intros st [= <-]. repeat (apply map_Forall_insert_2; [repeat constructor|]). apply map_Forall_empty.
  - intros st [= <-] sc pid d.
    assert (api.WriteState (durablestore.Connect durablestore.NewDurableStore) Unscoped
      (mkDurableState "a" 7 (Some (mkAny "t" "d")) 0 0 ∅) ExpectGenesis = (Ok tt, legacy_states)) as Hw by (vm_compute; reflexivity).
    apply api.dwrite_ok in Hw as (_ & _ & Hv). rewrite Hv. case_decide as Hd; [|by vm_compute]. intros [= <-]. by destruct Hd as [_ ->].
Qed.

Lemma acme_assigned : assigned (adopter true true) "a"
  (mkIntent acme (tenancy.mkTenantContext tenancy.ScopeTenant "acme" tenancy.noAdministrative)
    (tenancy.MarshalMetadata (tenancy.mkTenantContext tenancy.ScopeTenant "acme" tenancy.noAdministrative))).
Proof. by exists "acme". Qed.

(** ** Instances of the theorems *)
Lemma adoption_loses_nothing_witness :
  world_safe (adopter true true) legacy (Run (adopter true true) 3 legacy).2 /\
  report_of (Run (adopter true true) 3 legacy) = Some [2; 1; 1; 1; 0; 1; 1; 0].
Proof.
  split; [|vm_compute; reflexivity]. destruct (Run (adopter true true) 3 legacy) as [r w'] eqn:Hr.
  exact (proj1 (proj2 (adoption_loses_nothing (adopter true true) 3 legacy r w' (wf_unscoped) legacy_ok (fun _ => mk_is_Some _ _ eq_refl) Hr))).
Defined.

Definition acme_context : tenancy.TenantContext := tenancy.mkTenantContext tenancy.ScopeTenant "acme" tenancy.noAdministrative.
Definition acme_intent : adoptionIntent := mkIntent acme acme_context (tenancy.MarshalMetadata acme_context).

Definition clean_report : AdoptionReport :=
  match (Run (adopter true true) 3 legacy).1 with Returned (Some r, _) => r | _ => newReport true end.

Lemma legacy_run : Run (adopter true true) 3 legacy = (Returned (Some clean_report, None), (Run (adopter true true) 3 legacy).2).
Proof. vm_compute. reflexivity. Qed.

Lemma clean_run_adopts_everything_witness :
  exists ids w1, scans (adopter true true) 3 legacy ids w1 /\
    ("a" ∈ ids -> complete (adopter true true) "a" acme_intent legacy (Run (adopter true true) 3 legacy).2).
Proof.
  destruct (clean_run_adopts_everything (adopter true true) 3 legacy clean_report (Run (adopter true true) 3 legacy).2
    wf_unscoped legacy_ok eq_refl (mk_is_Some _ _ eq_refl) legacy_run eq_refl) as (ids & w1 & Hs & Hc).
  exists ids, w1. split; [exact Hs|]. intros Ha. exact (Hc "a" acme_intent Ha acme_assigned).
Defined.

Lemma report_accounts_for_every_id_witness :
  Scanned clean_report = SkippedByAssignment clean_report + Failed clean_report + AlreadyPresent clean_report + Verified clean_report.
Proof.
  exact (report_accounts_for_every_id (adopter true true) 3 legacy clean_report None _ legacy_ok eq_refl legacy_run).
Defined.

(** *** Fences *)
Lemma fences_held_and_released_witness :
  exists f', fence (processAggregate (adopter true true) "a" (newReport false) legacy).2 = Some f' /\ f' = ∅.
Proof.
  destruct (processAggregate (adopter true true) "a" (newReport false) legacy) as [r w'] eqn:Hp.
  destruct (fences_held_and_released (adopter true true) "a" (newReport false) legacy w' ∅ r eq_refl eq_refl Hp) as [(f' & Hf & Hh) _].
  exists f'. split; [exact Hf|exact Hh].
Defined.

(** *** Completing once *)
Definition legacy_a : list Event := [event "a" 1; event "a" 2].
Definition legacy_a_copies : list Event :=
  match stampEvents (adopter true true) (imetadata acme_intent) (adoptedPredecessors legacy_a) legacy_a with Ok l => l | Err _ => [] end.

Lemma legacy_listed : listed legacy_events Unscoped "a" legacy_a.
Proof.
  split; [repeat constructor|]. intros n e.
  assert (records_of legacy_events Unscoped "a" = by_sequence legacy_a) as -> by (vm_compute; reflexivity).
  apply by_sequence_lookup. vm_compute. repeat constructor; set_solver.
Qed.

Lemma legacy_readable : readable legacy_a.
Proof. split; [repeat constructor; vm_compute; done|by vm_compute]. Qed.

Lemma adoption_completes_once_witness :
  exists st', adoptEvents (adopter true true) "a" acme_intent legacy =
    (Returned (outcome StatusSourceDeleted true), set_events legacy st') /\
    adoptEvents (adopter true true) "a" acme_intent (set_events legacy st') =
    (Returned (outcome StatusAlreadyPresent false), set_events legacy st').
Proof.
  destruct (adoption_completes_once (adopter true true) "a" acme_intent ltac:(done) eq_refl eq_refl ltac:(by constructor) eq_refl
    legacy_a legacy_a_copies ltac:(done) legacy_readable eq_refl legacy legacy_events eq_refl (ok_events _ legacy_ok _ eq_refl) eq_refl
    legacy_listed eq_refl) as (st' & H1 & _ & H2).
  exists st'. split; [exact H1|exact H2].
Defined.

(** *** Receipts *)
Lemma receipts_prove_adoption_witness : verifyEventsEquivalent [] legacy_a_copies acme_context Unscoped = None.
Proof.
  apply (receipts_prove_adoption legacy_a_copies acme_context Unscoped); [repeat constructor|]. split; [by repeat constructor|].
  exists legacy_a_copies, []. split_and!; [done..| |constructor]. split; [vm_compute; reflexivity|]. split; [vm_compute; reflexivity|done].
Defined.

Lemma receipt_roundtrip_witness : verifyAdoptionReceipt (MEvent (default (event "" 0) (head legacy_a_copies))) Unscoped = Some (Some 0%N).
Proof. apply (receipt_roundtrip (MEvent (default (event "" 0) (head legacy_a_copies))) Unscoped (Some 0%N)). split; vm_compute; reflexivity. Defined.

(** *** A store that loses payloads

    Its reads are honest, but what it writes has no payload. The copy is
    found to differ, the run fails and the source stays. *)
Record Lossy := mkLossy { inner : testkit.EventStore }.
Definition strip (e : Event) : Event :=
  mkEvent (PersistenceId e) (SequenceNumber e) (IsDeleted e) None (Timestamp e) (Shard e) (EncryptionKeyId e) (IsEncrypted e) (TenantMetadata e).
Definition relay {A} (x : A * testkit.EventStore) : A * Lossy := (x.1, mkLossy x.2).
#[export] Instance lossy_ops : api.EventsStore Lossy := {|
  api.WriteEvents x sc evs p := relay (testkit.WriteEvents (inner x) sc (strip <$> evs) p);
  api.DeleteEvents x sc pid to := relay (testkit.DeleteEvents (inner x) sc pid to);
  api.ReplayEvents x := testkit.ReplayEvents (inner x);
  api.GetLatestEvent x := testkit.GetLatestEvent (inner x)
|}.
#[export] Instance lossy_honest : HonestEvents (St := Lossy).
Proof.
  refine {| eok x := eok (inner x); recs x := recs (inner x) |}.
  - intros x. apply recs_seq.
  - intros x sc pid Hok. destruct (honest_replay (inner x) sc pid Hok) as (r & Hr & Hl). exists r. split; [exact Hr|exact Hl].
  - intros x sc pid r Hok Hl. exact (honest_latest (inner x) sc pid r Hok Hl).
  - intros x sc evs p r x' Hok. simpl. unfold relay. destruct (testkit.WriteEvents _ _ _ _) as [r0 st'] eqn:Hw. intros [= <- <-].
    exact (honest_write _ _ _ _ _ _ Hok Hw).
  - intros x sc pid to r x' Hok. simpl. unfold relay. destruct (testkit.DeleteEvents _ _ _ _) as [r0 st'] eqn:Hd. intros [= <- <-].
    exact (honest_delete _ _ _ _ _ _ Hok Hd).
Defined.

Definition lossy_world : @World Lossy snapshotstore.SnapshotStore durablestore.DurableStore (gset lock) :=
  mkWorld (Some (mkLossy legacy_events)) None None (Some ∅).

Lemma lossy_ok : eok (mkLossy legacy_events).
Proof. unfold eok, lossy_honest. apply (ok_events _ legacy_ok). done. Qed.

Lemma deletion_follows_verified_copy_witness :
  exists o st', adoptEvents (adopter true true) "a" acme_intent lossy_world = (Returned o, set_events lossy_world st') /\
    Status o = StatusFailed /\
    forall n e, (1 <= n)%N -> recs (mkLossy legacy_events) Unscoped "a" !! n = Some e -> recs st' Unscoped "a" !! n = Some e \/
      exists c, recs st' acme "a" !! n = Some c /\ copied_event (adopter true true) (imetadata acme_intent) e c.
Proof.
  destruct (deletion_follows_verified_copy (adopter true true) "a" acme_intent lossy_world (mkLossy legacy_events) eq_refl lossy_ok ltac:(done)) as (o & st' & Hr & _ & Hm & _).
  exists o, st'. split; [exact Hr|]. split; [|exact Hm].
  assert (match (adoptEvents (adopter true true) "a" acme_intent lossy_world).1 with Returned o => Status o = StatusFailed | Panicked => False end) as Hf
    by (vm_compute; reflexivity).
  by rewrite Hr in Hf.
Defined.

(** ** At odds with the documentation *)

(** An adopted stream that lost its last event still passes for a complete
    adoption once the source is gone. *)
Lemma truncated_adoption_accepted_witness :
  verifyEventsEquivalent [] (take 1 legacy_a_copies) acme_context Unscoped = None.
Proof.
  apply (truncated_adoption_accepted (adopter true true) acme_context legacy_a (take 1 legacy_a_copies) (drop 1 legacy_a_copies)).
  - by constructor.
  - repeat constructor.
  - repeat constructor; vm_compute; done.
  - done.
  - vm_compute. reflexivity.
Defined.

(** The dry run of an adoption whose target stream exists but is empty
    (its events were removed by retention) plans a copy; the real run meets a
    conflict and fails. *)
Definition retained : world :=
  let st := (testkit.WriteEvents legacy_events acme [event "a" 1] Unconditional).2 in
  mkWorld (Some (testkit.DeleteEvents st acme "a" 1).2) None None (Some ∅).
Theorem dry_run_overpromises :
  report_of (Run (adopter false false) 3 retained) = Some [2; 1; 1; 1; 0; 0; 0; 0] /\
  report_of (Run (adopter true false) 3 retained) = Some [2; 1; 1; 0; 0; 0; 0; 1].
Proof. split; vm_compute; reflexivity. Qed.

(** Source deletion removes every snapshot up to the latest, but only the
    latest was copied: the snapshot at 1 is in neither scope afterwards. *)
Theorem older_snapshots_deleted_uncopied :
  let w' := (Run (adopter true true) 3 legacy).2 in
  snapshots_of legacy Unscoped "a" !! 1%N = Some (snapshot "a" 1) /\
  snapshots_of w' Unscoped "a" = ∅ /\ snapshots_of w' acme "a" !! 1%N = None /\ is_Some (snapshots_of w' acme "a" !! 2%N).
Proof. split_and!; vm_compute; eauto. Qed.
End adoption_examples.
