(* ===== verification/Migration.v ===== *)
(** * Seeding snapshots from legacy events

    [src/migration/migration.go]: events written before snapshots had a store
    of their own carry the resulting state as field 5 of their protobuf
    message. [Migrator] finds it among the unknown fields of each event and
    writes the latest one as a snapshot. The unknown bytes of an event and the
    decoder of [anypb.Any] belong to the protobuf library and are parameters. *)

From S2P Require Import Prelude GoStrings Tenancy Persistence Egopb StoreApi Adoption.
From Stdlib Require Import ZArith Lia Ascii.
Open Scope string_scope.
Local Open Scope list_scope.
Local Open Scope urd_scope.

Module migration.
Import persistence egopb.

(** ** The wire format *)
Definition byte_val (c : ascii) : N := N_of_ascii c.

(** The loop of [consumeVarint] from index [i]; a byte count with the
    value, [None] for -1. *)
Fixpoint varint_loop (i : nat) (v : N) (b : bytes) : option (N * nat) :=
  match b with
  | [] => None
  | c :: b =>
    if (10 <=? i)%nat then None
    else
      let v := N.lor v (u64 (N.shiftl (N.land (byte_val c) 127) (N.of_nat (i * 7)))) in
      if (byte_val c <? 128)%N then Some (v, S i) else varint_loop (S i) v b
  end.
Definition consumeVarint (b : bytes) : option (N * nat) := varint_loop 0 0 b.

(** [uint32(v >> 3)], [int(v & 0x7)] *)
Definition consumeTag (b : bytes) : option (N * N * nat) :=
  match consumeVarint b with
  | None => None
  | Some (v, n) => Some (N.shiftr v 3 mod 4294967296, N.land v 7, n)%N
  end.

Definition legacyResultingStateFieldNumber : N := 5.

Section Migrator.
(** [evt.ProtoReflect().GetUnknown()] and [proto.Unmarshal] into an
    [anypb.Any] *)
Context (GetUnknown : Event -> bytes) (UnmarshalAny : bytes -> option Any).

(** The scan of the unknown fields. Every round consumes a tag, which has
    at least one byte. *)
Fixpoint scan_fields (fuel : nat) (raw : bytes) : option Any :=
  match fuel, raw with
  | _, [] => None
  | O, _ => None
  | S fuel, _ =>
    match consumeTag raw with
    | None => None
    | Some (fieldNum, wireType, n) =>
      let raw := drop n raw in
      if (wireType =? 2)%N then
        match consumeVarint raw with
        | None => None
        | Some (length_, n) =>
          let raw := drop n raw in
          if (N.of_nat (length raw) <? length_)%N then None
          else if (fieldNum =? legacyResultingStateFieldNumber)%N then
            match UnmarshalAny (take (N.to_nat length_) raw) with
            | None => None
            | Some state => if bool_decide (TypeUrl state <> "") then Some state else None
            end
          else scan_fields fuel (drop (N.to_nat length_) raw)
        end
      else if (wireType =? 0)%N then
        match consumeVarint raw with
        | None => None
        | Some (_, n) => scan_fields fuel (drop n raw)
        end
      else if (wireType =? 5)%N then
        if (length raw <? 4)%nat then None else scan_fields fuel (drop 4 raw)
      else if (wireType =? 1)%N then
        if (length raw <? 8)%nat then None else scan_fields fuel (drop 8 raw)
      else None
    end
  end.

Definition extractLegacyResultingState (evt : Event) : option Any :=
  let raw := GetUnknown evt in scan_fields (length raw) raw.

(** ** The migrator *)
Record Migrator := mkMigrator { pageSize : N; scope : Scope }.

Inductive Option_ := WithPageSize (size : N) | WithScope (sc : Scope).
Definition apply_option (m : Migrator) (o : Option_) : Migrator :=
  match o with
  | WithPageSize size => mkMigrator size (scope m)
  | WithScope sc => mkMigrator (pageSize m) sc
  end.

(** [None]: [WithScope] with an invalid scope *)
Definition New (opts : list Option_) : option Migrator :=
  let m := foldl apply_option (mkMigrator 500 Unscoped) opts in
  if negb (Valid (scope m)) then None else Some m.

Inductive migrate_error :=
| EventsNotReachable (e : store_error)
| SnapshotsNotReachable (e : store_error)
| ListFailed (e : store_error)
| ReplayFailed (e : store_error)
| TenantUnproven (seq : N) (e : tenancy.Error)
| WriteFailed (e : store_error).

(** The latest event that carries a state, and the snapshot made of it. *)
Definition candidate (pid : string) (evt : Event) (state : Any) : Snapshot :=
  mkSnapshot pid (SequenceNumber evt) (Some state) (Timestamp evt) "" false ∅.
Definition pick (pid : string) (best : option (Snapshot * Event)) (evt : Event) : option (Snapshot * Event) :=
  match extractLegacyResultingState evt with
  | None => best
  | Some state =>
    match best with
    | Some (s, _) => if (sSequenceNumber s <? SequenceNumber evt)%N then Some (candidate pid evt state, evt) else best
    | None => Some (candidate pid evt state, evt)
    end
  end.

Definition set_metadata (s : Snapshot) (md : gmap string string) : Snapshot :=
  mkSnapshot (sPersistenceId s) (sSequenceNumber s) (sState s) (sTimestamp s) (sEncryptionKeyId s) (sIsEncrypted s) md.

Definition stampSnapshotTenant (m : Migrator) (snapshot : Snapshot) (source : Event) : result migrate_error Snapshot :=
  if IsUnscoped (scope m) then Ok snapshot
  else
    let? want := rmap_err (TenantUnproven 0) (tenancy.NewTenantContext (TenantID (scope m))) in
    let? got := rmap_err (TenantUnproven (SequenceNumber source)) (tenancy.UnmarshalMetadata (TenantMetadata source)) in
    let? _ := rmap_err (TenantUnproven (SequenceNumber source)) (tenancy.VerifyUnchanged want got) in
    Ok (set_metadata snapshot (tenancy.MarshalMetadata want)).

Section Stores.
Context {St Sn : Type} `{api.EventsStore St, adoption.Pingable St, adoption.Enumerable St, api.SnapshotStore Sn, adoption.Pingable Sn}.

(** [None]: the replay panics *)
Definition migrateEntity (m : Migrator) (st : St) (sn : Sn) (pid : string) : option (result migrate_error unit * Sn) :=
  match api.ReplayEvents st (scope m) pid 1 adoption.maxReplaySequence adoption.maxReplayLimit with
  | None => None
  | Some (Err e) => Some (Err (ReplayFailed e), sn)
  | Some (Ok events) =>
    match foldl (pick pid) None events with
    | None => Some (Ok tt, sn)
    | Some (best, source) =>
      match stampSnapshotTenant m best source with
      | Err e => Some (Err e, sn)
      | Ok best => let '(r, sn) := api.WriteSnapshot sn (scope m) best in Some (rmap_err WriteFailed r, sn)
      end
    end
  end.

(** One page of ids; stops at the first error. *)
Fixpoint migratePage (m : Migrator) (st : St) (sn : Sn) (ids : list string) : option (result migrate_error unit * Sn) :=
  match ids with
  | [] => Some (Ok tt, sn)
  | id :: ids =>
    match migrateEntity m st sn id with
    | Some (Ok _, sn) => migratePage m st sn ids
    | r => r
    end
  end.

(** The paging loop. [None]: a call panicked or [fuel] pages were not
    enough. *)
Fixpoint migrateAll (m : Migrator) (st : St) (sn : Sn) (fuel : nat) (token : string) : option (result migrate_error unit * Sn) :=
  match fuel with
  | O => None
  | S fuel =>
    match adoption.PersistenceIDs st (scope m) (pageSize m) token with
    | None => None
    | Some (Err e) => Some (Err (ListFailed e), sn)
    | Some (Ok (ids, next)) =>
      match migratePage m st sn ids with
      | Some (Ok _, sn) =>
        if bool_decide (next = "") || bool_decide (ids = []) then Some (Ok tt, sn)
        else migrateAll m st sn fuel next
      | r => r
      end
    end
  end.

Definition Run (m : Migrator) (fuel : nat) (st : St) (sn : Sn) : option (result migrate_error unit * St * Sn) :=
  match adoption.Ping st with
  | (Err e, st) => Some (Err (EventsNotReachable e), st, sn)
  | (Ok _, st) =>
    match adoption.Ping sn with
    | (Err e, sn) => Some (Err (SnapshotsNotReachable e), st, sn)
    | (Ok _, sn) =>
      match migrateAll m st sn fuel "" with
      | Some (r, sn) => Some (r, st, sn)
      | None => None
      end
    end
  end.
End Stores.
End Migrator.
End migration.
