(* ===== verification/MigrationSpec.v ===== *)
(** * What the snapshot migration does

    The field scanner against a reference encoder of the protobuf wire
    format, and the snapshots a migration leaves. *)

From S2P Require Import Prelude GoStrings Tenancy Persistence Egopb StoreApi EventStore StateStores Adoption AdoptionReceipts AdoptionSpec AdoptionSafety AdoptionExamples Migration.
From Stdlib Require Import ZArith Lia Ascii.
Open Scope string_scope.
Local Open Scope list_scope.

Module migration_spec.
Import persistence egopb migration.

(** ** Varints: the reference encoder *)
Fixpoint enc_varint (fuel : nat) (n : N) : bytes :=
  match fuel with
  | O => []
  | S fuel =>
    if (n <? 128)%N then [ascii_of_N n]
    else ascii_of_N (128 + n mod 128) :: enc_varint fuel (n / 128)
  end.
(** Ten groups of seven bits hold 64 bits. *)
Definition varint (n : N) : bytes := enc_varint 10 n.

Lemma lor_shift v n k : (v < 2 ^ k)%N -> N.lor v (n * 2 ^ k) = (v + n * 2 ^ k)%N.
Proof.
  intros Hv. assert (N.land v (n * 2 ^ k) = 0%N) as Hd; [|by rewrite N.add_nocarry_lxor, N.lxor_lor].
  apply N.bits_inj. intros i. rewrite N.land_spec, N.bits_0. destruct (N.lt_ge_cases i k) as [Hi|Hi].
  - rewrite N.mul_pow2_bits_low by done. apply andb_false_r.
  - destruct (decide (v = 0%N)) as [->|]; [by rewrite N.bits_0|].
    rewrite (N.bits_above_log2 v i); [done|]. apply N.log2_lt_pow2 in Hv; lia.
Qed.

Lemma land_127 n : N.land n 127 = (n mod 128)%N.
Proof. change 127%N with (N.ones 7). by rewrite N.land_ones. Qed.

Lemma varint_loop_step i v c b : (i < 10)%nat -> (v < 2 ^ N.of_nat (i * 7))%N -> ((byte_val c mod 128) * 2 ^ N.of_nat (i * 7) < two64)%N ->
  varint_loop i v (c :: b) =
  let v' := (v + (byte_val c mod 128) * 2 ^ N.of_nat (i * 7))%N in
  if (byte_val c <? 128)%N then Some (v', S i) else varint_loop (S i) v' b.
Proof.
  intros Hi Hv Hc. cbn [varint_loop]. rewrite (proj2 (Nat.leb_gt 10 i)) by done. rewrite land_127, N.shiftl_mul_pow2, u64_small by done.
  by rewrite lor_shift.
Qed.

Lemma byte_val_ascii n : (n < 256)%N -> byte_val (ascii_of_N n) = n.
Proof. intros. unfold byte_val. by rewrite N_ascii_embedding. Qed.

Lemma group_arith (v n q r P : N) : (v < P)%N -> n = (128 * q + r)%N -> (r < 128)%N -> (n * P < two64)%N ->
  (r * P < two64)%N /\ (v + r * P < 128 * P)%N /\ (q * (128 * P) < two64)%N /\ (v + r * P + q * (128 * P))%N = (v + n * P)%N.
Proof. intros ? -> ? ?. split_and!; nia. Qed.

Lemma varint_loop_enc fuel i v n rest : (i + S fuel = 10)%nat -> (v < 2 ^ N.of_nat (i * 7))%N -> (n * 2 ^ N.of_nat (i * 7) < two64)%N ->
  varint_loop i v (enc_varint (S fuel) n ++ rest) =
    Some ((v + n * 2 ^ N.of_nat (i * 7))%N, (i + length (enc_varint (S fuel) n))%nat).
Proof.
  revert i v n. induction fuel as [|fuel IH]; intros i v n Hif Hv Hn.
  - assert (i = 9%nat) as -> by lia. change (2 ^ N.of_nat (9 * 7))%N with 9223372036854775808%N in *. unfold two64 in Hn.
    assert (n < 128)%N as Hlt by lia. cbn [enc_varint]. rewrite (proj2 (N.ltb_lt _ _) Hlt). cbn [app].
    rewrite varint_loop_step; rewrite ?byte_val_ascii, ?N.mod_small by lia; [|lia|done|unfold two64; lia].
    rewrite (proj2 (N.ltb_lt _ _) Hlt). done.
  - remember (S fuel) as fuel' eqn:Hfuel. cbn [enc_varint]. destruct (n <? 128)%N eqn:Hlt.
    + apply N.ltb_lt in Hlt. cbn [app]. rewrite varint_loop_step; rewrite ?byte_val_ascii, ?N.mod_small by lia; [|lia|done|done].
      rewrite (proj2 (N.ltb_lt _ _) Hlt). simpl length. do 2 f_equal. lia.
    + apply N.ltb_ge in Hlt. pose proof (N.div_mod n 128 ltac:(lia)) as Hdm. pose proof (N.mod_lt n 128 ltac:(lia)) as Hml.
      assert (2 ^ N.of_nat (S i * 7) = 128 * 2 ^ N.of_nat (i * 7))%N as Hpow.
      { replace (N.of_nat (S i * 7)) with (7 + N.of_nat (i * 7))%N by lia. by rewrite N.pow_add_r. }
      assert ((128 + n mod 128) mod 128 = n mod 128)%N as Hmod by dlia.
      destruct (group_arith v n _ _ _ Hv Hdm Hml Hn) as (Hr & Hv' & Hq & Heq).
      rewrite <- app_comm_cons, varint_loop_step; rewrite ?byte_val_ascii, ?Hmod by lia; [|lia|done|done].
      rewrite (proj2 (N.ltb_ge (128 + n mod 128) 128)) by apply N.le_add_r. cbn zeta. subst fuel'.
      rewrite IH; [|lia|by rewrite Hpow|by rewrite Hpow]. cbn [length]. rewrite Hpow, Heq. do 2 f_equal. lia.
Qed.

(** Reading back what the reference encoder writes, whatever follows. *)
Lemma varint_roundtrip n rest : is_u64 n -> consumeVarint (varint n ++ rest) = Some (n, length (varint n)).
Proof.
  intros Hn. unfold consumeVarint, varint. rewrite varint_loop_enc; [|lia|simpl; lia|].
  - simpl N.of_nat. f_equal. f_equal. change (2 ^ 0)%N with 1%N. lia.
  - change (2 ^ N.of_nat (0 * 7))%N with 1%N. unfold is_u64 in Hn. lia.
Qed.

Lemma varint_nonempty n : (0 < length (varint n))%nat.
Proof. unfold varint. cbn [enc_varint]. destruct (n <? 128)%N; simpl; lia. Qed.

(** ** Fields *)
Inductive field :=
| FVarint (num value : N)
| FFixed64 (num : N) (b : bytes)
| FBytes (num : N) (b : bytes)
| FFixed32 (num : N) (b : bytes).

Definition tag (num wire : N) : bytes := varint (num * 8 + wire).
Definition encode_field (f : field) : bytes :=
  match f with
  | FVarint num value => tag num 0 ++ varint value
  | FFixed64 num b => tag num 1 ++ b
  | FBytes num b => tag num 2 ++ varint (N.of_nat (length b)) ++ b
  | FFixed32 num b => tag num 5 ++ b
  end.

(** Field numbers have 29 bits; fixed fields have their width. *)
Definition field_num (f : field) : N := match f with FVarint n _ | FFixed64 n _ | FBytes n _ | FFixed32 n _ => n end.
Definition field_ok (f : field) : Prop :=
  (field_num f < 536870912)%N /\
  match f with
  | FVarint _ value => is_u64 value
  | FFixed64 _ b => length b = 8%nat
  | FBytes _ b => is_u64 (N.of_nat (length b))
  | FFixed32 _ b => length b = 4%nat
  end.
Definition is_legacy_state (f : field) : Prop := match f with FBytes 5 _ => True | _ => False end.
#[export] Instance is_legacy_state_dec f : Decision (is_legacy_state f).
Proof. unfold is_legacy_state. repeat case_match; apply _. Defined.

Lemma consumeTag_tag num wire rest : (num < 536870912)%N -> (wire < 8)%N ->
  consumeTag (tag num wire ++ rest) = Some (num, wire, length (tag num wire)).
Proof.
  intros Hn Hw. unfold consumeTag, tag. rewrite varint_roundtrip by (unfold is_u64, two64; lia).
  rewrite N.shiftr_div_pow2. change (2 ^ 3)%N with 8%N. change 7%N with (N.ones 3). rewrite N.land_ones. change (2 ^ 3)%N with 8%N.
  do 3 f_equal; [f_equal|]; dlia.
Qed.

Section Scan.
Context (UnmarshalAny : bytes -> option Any).

Definition decode_state (b : bytes) : option Any :=
  match UnmarshalAny b with Some s => if bool_decide (TypeUrl s <> "") then Some s else None | None => None end.

Lemma raw_cons f rest : exists c b, encode_field f ++ rest = c :: b.
Proof.
  assert (0 < length (encode_field f ++ rest))%nat as Hl.
  { rewrite length_app. destruct f; cbn [encode_field]; rewrite length_app; pose proof varint_nonempty; unfold tag;
      match goal with |- context [varint (?n * 8 + ?w)] => pose proof (varint_nonempty (n * 8 + w)) end; lia. }
  destruct (encode_field f ++ rest); [simpl in Hl; lia|eauto].
Qed.

Lemma scan_unfold fuel f rest : field_ok f ->
  scan_fields UnmarshalAny (S fuel) (encode_field f ++ rest) =
  match f with
  | FBytes num b => if (num =? 5)%N then decode_state b else scan_fields UnmarshalAny fuel rest
  | _ => scan_fields UnmarshalAny fuel rest
  end.
Proof.
  intros [Hn Hf]. destruct (raw_cons f rest) as (c & b & Hcb).
  assert (forall raw, raw = c :: b -> scan_fields UnmarshalAny (S fuel) raw =
    match consumeTag raw with
    | None => None
    | Some (fieldNum, wireType, n) =>
      let raw := drop n raw in
      if (wireType =? 2)%N then
        match consumeVarint raw with
        | None => None
        | Some (length_, n) =>
          let raw := drop n raw in
          if (N.of_nat (length raw) <? length_)%N then None
          else if (fieldNum =? 5)%N then decode_state (take (N.to_nat length_) raw)
          else scan_fields UnmarshalAny fuel (drop (N.to_nat length_) raw)
        end
      else if (wireType =? 0)%N then
        match consumeVarint raw with None => None | Some (_, n) => scan_fields UnmarshalAny fuel (drop n raw) end
      else if (wireType =? 5)%N then if (length raw <? 4)%nat then None else scan_fields UnmarshalAny fuel (drop 4 raw)
      else if (wireType =? 1)%N then if (length raw <? 8)%nat then None else scan_fields UnmarshalAny fuel (drop 8 raw)
      else None
    end) as Hscan by (intros raw ->; reflexivity).
  rewrite (Hscan _ Hcb). clear Hscan Hcb.
  destruct f as [num value|num fb|num fb|num fb]; cbn [encode_field field_num] in *; rewrite <- !app_assoc, consumeTag_tag by lia; cbn [N.eqb Pos.eqb];
    rewrite drop_app_length.
  - by rewrite varint_roundtrip, drop_app_length.
  - rewrite (proj2 (Nat.ltb_ge _ _)) by (rewrite length_app; lia). by rewrite <- Hf, drop_app_length.
  - rewrite varint_roundtrip, drop_app_length by done. rewrite (proj2 (N.ltb_ge _ _)) by (rewrite length_app; lia).
    by rewrite Nat2N.id, take_app_length, drop_app_length.
  - rewrite (proj2 (Nat.ltb_ge _ _)) by (rewrite length_app; lia). by rewrite <- Hf, drop_app_length.
Qed.

Lemma scan_skips fuel pre rest : Forall field_ok pre -> Forall (fun f => ~ is_legacy_state f) pre -> (length pre <= fuel)%nat ->
  scan_fields UnmarshalAny fuel (concat (encode_field <$> pre) ++ rest) = scan_fields UnmarshalAny (fuel - length pre) rest.
Proof.
  revert fuel. induction pre as [|f pre IH]; intros fuel Hok Hno Hle; [simpl; by rewrite Nat.sub_0_r|].
  apply Forall_cons in Hok as [Hf Hok]. apply Forall_cons in Hno as [Hn Hno]. destruct fuel as [|fuel]; [simpl in Hle; lia|].
  cbn [fmap list_fmap concat length]. rewrite <- app_assoc, scan_unfold by done. simpl in Hle.
  rewrite Nat.sub_succ, <- IH by (done || lia). destruct f as [| |num fb|]; try done. destruct (num =? 5)%N eqn:E; [|done].
  apply N.eqb_eq in E as ->. by destruct Hn.
Qed.

Lemma fields_length pre : (length pre <= length (concat (encode_field <$> pre)))%nat.
Proof.
  induction pre as [|f pre IH]; [done|]. cbn [fmap list_fmap concat length]. rewrite length_app.
  destruct (raw_cons f []) as (c & b & E). rewrite app_nil_r in E. rewrite E. simpl. lia.
Qed.

(** Whatever other unknown fields an event carries, in whatever order, the
    scan finds the first field 5 and decodes exactly its bytes; a state
    without a type, or bytes that do not decode, count as no state. *)
Theorem legacy_state_found (GetUnknown : Event -> bytes) evt pre payload rest :
  GetUnknown evt = concat (encode_field <$> pre) ++ encode_field (FBytes 5 payload) ++ rest ->
  Forall field_ok pre -> Forall (fun f => ~ is_legacy_state f) pre -> is_u64 (N.of_nat (length payload)) ->
  extractLegacyResultingState GetUnknown UnmarshalAny evt = decode_state payload.
Proof.
  intros Hraw Hok Hno Hlen. unfold extractLegacyResultingState. rewrite Hraw. pose proof (fields_length pre) as Hp.
  destruct (raw_cons (FBytes 5 payload) rest) as (c & b & Hcb).
  rewrite scan_skips by (done || (rewrite length_app; lia)). rewrite length_app, Hcb. cbn [length].
  destruct (length (concat (encode_field <$> pre)) + S (length b) - length pre)%nat as [|fuel] eqn:Hfuel; [lia|].
  rewrite <- Hcb, scan_unfold; [done|]. by split.
Qed.

(** Without a field 5 there is no state. *)
Lemma legacy_state_absent (GetUnknown : Event -> bytes) evt pre :
  GetUnknown evt = concat (encode_field <$> pre) -> Forall field_ok pre -> Forall (fun f => ~ is_legacy_state f) pre ->
  extractLegacyResultingState GetUnknown UnmarshalAny evt = None.
Proof.
  intros Hraw Hok Hno. unfold extractLegacyResultingState. rewrite Hraw. pose proof (fields_length pre) as Hp.
  rewrite <- (app_nil_r (concat _)), scan_skips by (done || (rewrite app_nil_r; done)). by destruct (_ - _)%nat.
Qed.
End Scan.

(** ** The snapshots a migration leaves *)
Section Migrate.
Context (GetUnknown : Event -> bytes) (UnmarshalAny : bytes -> option Any).
Context {St Sn : Type} `{!api.EventsStore St} `{!api.EventsStoreLaws St} `{!adoption.Enumerable St}.
Context `{!api.SnapshotStore Sn} `{!api.SnapshotStoreLaws Sn}.
Abbreviation state_in e := (extractLegacyResultingState GetUnknown UnmarshalAny e).
Implicit Types (m : Migrator) (st : St) (sn : Sn).

(** The last event of a stream read in order that carries a state. *)
Definition last_with_state (l : list Event) : option (Event * Any) :=
  last (omap (fun e => (fun s => (e, s)) <$> state_in e) l).

Lemma pick_last pid l : StronglySorted api.seq_lt l ->
  foldl (pick GetUnknown UnmarshalAny pid) None l = (fun es => (candidate pid es.1 es.2, es.1)) <$> last_with_state l.
Proof.
  unfold last_with_state. induction l as [|e l IH] using rev_ind; intros Hs; [done|].
  apply StronglySorted_app in Hs as (Hlt & Hs & _). rewrite foldl_snoc, IH by done. rewrite omap_app. simpl.
  unfold pick. destruct (state_in e) as [s|] eqn:He; simpl; [|by rewrite app_nil_r].
  rewrite last_snoc. destruct (last _) as [[e' s']|] eqn:Hl; simpl; [|done].
  apply last_Some in Hl as [l' Hl]. assert ((e', s') ∈ omap (fun e => (fun s => (e, s)) <$> state_in e) l) as Hin by (rewrite Hl; set_solver).
  apply list_elem_of_omap in Hin as (x & Hx & (s0 & _ & [= -> ->])%fmap_Some).
  assert (api.seq_lt x e) as Hxe by (apply Hlt; [done|by left]). unfold api.seq_lt in Hxe.
  by rewrite (proj2 (N.ltb_lt _ _) Hxe).
Qed.

(** The snapshot a migration of [pid] writes, [None] when there is none to
    write. *)
Definition seed m st (pid : string) : option (result migrate_error Snapshot) :=
  match api.ReplayEvents st (scope m) pid 1 adoption.maxReplaySequence adoption.maxReplayLimit with
  | Some (Ok events) =>
    match last_with_state events with
    | Some (e, s) => Some (stampSnapshotTenant m (candidate pid e s) e)
    | None => None
    end
  | _ => None
  end.

Lemma stamp_shape m s e s' : stampSnapshotTenant m s e = Ok s' ->
  sPersistenceId s' = sPersistenceId s /\ sSequenceNumber s' = sSequenceNumber s /\ sState s' = sState s /\ sTimestamp s' = sTimestamp s.
Proof.
  unfold stampSnapshotTenant. destruct (IsUnscoped _); [by intros [= <-]|].
  destruct (tenancy.NewTenantContext _) as [want|]; simpl; [|done]. destruct (tenancy.UnmarshalMetadata _) as [got|]; simpl; [|done].
  destruct (tenancy.VerifyUnchanged _ _); simpl; [|done]. by intros [= <-].
Qed.

Lemma migrateEntity_seed m st sn pid : api.store_ok st ->
  match migrateEntity GetUnknown UnmarshalAny m st sn pid with
  | None => False
  | Some (Ok _, sn') =>
    (seed m st pid = None /\ sn' = sn) \/
    exists s, seed m st pid = Some (Ok s) /\ sPersistenceId s = pid /\ api.WriteSnapshot sn (scope m) s = (Ok tt, sn')
  | Some (Err _, sn') => api.snap_ok sn -> sn' = sn
  end.
Proof.
  intros Hok. unfold migrateEntity, seed.
  destruct (api.ReplayEvents _ _ _ _ _ _) as [[evs|e]|] eqn:Hr; [|done|by apply api.replay_total in Hr].
  assert (StronglySorted api.seq_lt evs) as Hs.
  { apply api.replay_ok in Hr as (all & [Hs _] & ->); [|done..]. by apply adoption_spec.sorted_take. }
  rewrite pick_last by done. destruct (last_with_state evs) as [[e s]|]; [|by left]. simpl.
  destruct (stampSnapshotTenant _ _ _) as [s'|err] eqn:Hst; [|done]. destruct (api.WriteSnapshot _ _ _) as [[[]|err] sn'] eqn:Hw; simpl.
  - right. exists s'. split_and!; [done| |done]. by apply stamp_shape in Hst as [-> _].
  - intros Hsn. by eapply api.swrite_err.
Qed.

(** Migrating an entity writes the state of its last event that carries
    one, under that event's sequence number and timestamp, in the migrator's
    scope, and changes no other snapshot; an entity without such an event is
    left alone. *)
Theorem migration_seeds_latest m st sn pid sn' : api.store_ok st -> api.snap_ok sn -> wf_scope (scope m) ->
  migrateEntity GetUnknown UnmarshalAny m st sn pid = Some (Ok tt, sn') ->
  exists events, api.ReplayEvents st (scope m) pid 1 adoption.maxReplaySequence adoption.maxReplayLimit = Some (Ok events) /\
  match last_with_state events with
  | None => sn' = sn
  | Some (e, state) => exists s, sPersistenceId s = pid /\ sSequenceNumber s = SequenceNumber e /\ sState s = Some state /\
      sTimestamp s = Timestamp e /\
      (scope m <> Unscoped -> sTenantMetadata s = tenancy.MarshalMetadata (tenancy.mkTenantContext tenancy.ScopeTenant (TenantID (scope m)) tenancy.noAdministrative)) /\
      forall sc' pid', api.sview sn' sc' pid' =
        if decide (sc' = scope m /\ pid' = pid) then <[SequenceNumber e := s]> (api.sview sn sc' pid') else api.sview sn sc' pid'
  end.
Proof.
  intros Hok Hsn Hsc Hm. pose proof (migrateEntity_seed m st sn pid Hok) as Hseed. rewrite Hm in Hseed.
  unfold migrateEntity in Hm. destruct (api.ReplayEvents _ _ _ _ _ _) as [[evs|e]|] eqn:Hr; [|done..]. exists evs. split; [done|].
  unfold seed in Hseed. rewrite Hr in Hseed. destruct (last_with_state evs) as [[e state]|]; [|by destruct Hseed as [[_ ?]|(s & ? & _)]].
  destruct Hseed as [[? _]|(s & [= Hst] & Hpid & Hw)]; [done|]. exists s. pose proof Hst as (Hp & Hseq & Hstate & Hts)%stamp_shape.
  split_and!; [done..| |].
  - intros Hu. unfold stampSnapshotTenant in Hst. revert Hu Hst. inversion Hsc as [E|t Ht E]; [done|]. intros _ Hst.
    change (IsUnscoped (mkScope scopeTenant t)) with false in Hst. change (TenantID (mkScope scopeTenant t)) with t in Hst |- *.
    cbv beta iota in Hst.
    destruct (tenancy.NewTenantContext t) as [want|] eqn:Hnew; simpl in Hst; [|done].
    apply tenancy.NewTenantContext_wf in Hnew as [_ ->]. destruct (tenancy.UnmarshalMetadata _); simpl in Hst; [|done].
    destruct (tenancy.VerifyUnchanged _ _); simpl in Hst; [|done]. by injection Hst as <-.
  - apply api.swrite_ok in Hw as [_ Hv]; [|done..]. intros. by rewrite Hv, Hpid, Hseq.
Qed.

(** *** Idempotence *)
Definition seeded m st sn (pids : list string) : Prop :=
  forall pid s, pid ∈ pids -> seed m st pid = Some (Ok s) -> api.sview sn (scope m) pid !! sSequenceNumber s = Some s.

(** What a migration pass over [pids] has done. *)
Definition pass m st sn (pids : list string) sn' : Prop :=
  api.snap_ok sn' /\ (forall qids, seeded m st sn qids -> seeded m st sn' (pids ++ qids)) /\
  (seeded m st sn pids -> forall sc pid, api.sview sn' sc pid = api.sview sn sc pid).

Lemma pass_nil m st sn : api.snap_ok sn -> pass m st sn [] sn.
Proof. intros Hsn. unfold pass. by split_and!. Qed.

Lemma pass_app m st sn p1 p2 sn1 sn2 : pass m st sn p1 sn1 -> pass m st sn1 p2 sn2 -> pass m st sn (p1 ++ p2) sn2.
Proof.
  intros (Hok1 & Hs1 & Hv1) (Hok2 & Hs2 & Hv2). split_and!; [done| |].
  - intros qids Hq pid s Hin. apply (Hs2 (p1 ++ qids)); [by apply Hs1|]. set_solver.
  - intros Hseed. assert (forall sc pid, api.sview sn1 sc pid = api.sview sn sc pid) as Hv.
    { apply Hv1. intros pid s Hin. apply Hseed. set_solver. }
    intros sc pid. rewrite Hv2, Hv; [done|]. intros pid' s Hin Hs. rewrite Hv. apply Hseed; [set_solver|done].
Qed.

Lemma pass_entity m st sn pid sn' : api.store_ok st -> api.snap_ok sn -> wf_scope (scope m) ->
  migrateEntity GetUnknown UnmarshalAny m st sn pid = Some (Ok tt, sn') -> pass m st sn [pid] sn'.
Proof.
  intros Hok Hsn Hsc Hm. pose proof (migrateEntity_seed m st sn pid Hok) as Hseed. rewrite Hm in Hseed.
  destruct Hseed as [[Hnone ->]|(s & Hs & Hpid & Hw)].
  - split_and!; [done| |done]. intros qids Hq pid' s' [->|Hin]%elem_of_cons Hs'; [congruence|by apply Hq].
  - apply api.swrite_ok in Hw as [Hok' Hv]; [|done..]. rewrite Hpid in Hv. split_and!; [done| |].
    + intros qids Hq pid' s' Hin Hs'. rewrite Hv. destruct (decide (pid' = pid)) as [->|Hne].
      * rewrite decide_True by done. rewrite Hs in Hs'. injection Hs' as <-. apply lookup_insert_eq.
      * rewrite decide_False by naive_solver. apply elem_of_cons in Hin as [->|Hin]; [done|]. by apply Hq.
    + intros Hsd sc pid'. rewrite Hv. case_decide as Hd; [|done]. destruct Hd as [-> ->]. apply insert_id. apply Hsd; [by left|done].
Qed.

Lemma pass_page m st sn ids sn' : api.store_ok st -> api.snap_ok sn -> wf_scope (scope m) ->
  migratePage GetUnknown UnmarshalAny m st sn ids = Some (Ok tt, sn') -> pass m st sn ids sn'.
Proof.
  intros Hok Hsn Hsc. revert sn Hsn. induction ids as [|id ids IH]; intros sn Hsn; simpl; [intros [= <-]; by apply pass_nil|].
  destruct (migrateEntity _ _ m st sn id) as [[[[]|e] sn1]|] eqn:He; [|done..]. intros Hp.
  pose proof (pass_entity _ _ _ _ _ Hok Hsn Hsc He) as Hp1. apply (pass_app _ _ _ [id] ids _ _ Hp1). apply IH; [apply Hp1|done].
Qed.

(** The ids a whole pass visits depend on the events store alone. *)
Fixpoint visited m st (fuel : nat) (token : string) : list string :=
  match fuel with
  | O => []
  | S fuel =>
    match adoption.PersistenceIDs st (scope m) (pageSize m) token with
    | Some (Ok (ids, next)) => ids ++ (if bool_decide (next = "") || bool_decide (ids = []) then [] else visited m st fuel next)
    | _ => []
    end
  end.

Lemma pass_all m st sn fuel token sn' : api.store_ok st -> api.snap_ok sn -> wf_scope (scope m) ->
  migrateAll GetUnknown UnmarshalAny m st sn fuel token = Some (Ok tt, sn') -> pass m st sn (visited m st fuel token) sn'.
Proof.
  intros Hok Hsn Hsc. revert sn token Hsn. induction fuel as [|fuel IH]; intros sn token Hsn; simpl; [done|].
  destruct (adoption.PersistenceIDs _ _ _ _) as [[[ids next]|e]|]; [|done..].
  destruct (migratePage _ _ m st sn ids) as [[[[]|e] sn1]|] eqn:Hp; [|done..].
  pose proof (pass_page _ _ _ _ _ Hok Hsn Hsc Hp) as Hp1. case_match.
  - intros [= <-]. by rewrite app_nil_r.
  - intros Hall. eapply pass_app; [done|]. apply IH; [apply Hp1|done].
Qed.

(** A migration that succeeded can be run again: the second pass over the
    same events changes no snapshot of any scope. *)
Theorem migration_idempotent m st sn fuel sn' sn'' : api.store_ok st -> api.snap_ok sn -> wf_scope (scope m) ->
  migrateAll GetUnknown UnmarshalAny m st sn fuel "" = Some (Ok tt, sn') ->
  migrateAll GetUnknown UnmarshalAny m st sn' fuel "" = Some (Ok tt, sn'') ->
  forall sc pid, api.sview sn'' sc pid = api.sview sn' sc pid.
Proof.
  intros Hok Hsn Hsc Hm1 Hm2. destruct (pass_all _ _ _ _ _ _ Hok Hsn Hsc Hm1) as (Hsn' & Hs1 & _).
  destruct (pass_all _ _ _ _ _ _ Hok Hsn' Hsc Hm2) as (_ & _ & Hv2). apply Hv2.
  assert (seeded m st sn []) as Hnil by (intros ? ? ?%elem_of_nil; done). intros pid s Hin. apply (Hs1 [] Hnil). by rewrite app_nil_r.
Qed.
End Migrate.

(** ** Instances

    The events of [legacy_events] with a state "s" in the second event of "a",
    after another unknown field. *)
Import adoption_safety adoption_examples.

Definition unknown (e : Event) : bytes :=
  if (SequenceNumber e =? 2)%N then encode_field (FVarint 9 300) ++ encode_field (FBytes 5 (b2l "s")) ++ [] else [].
Definition decode (b : bytes) : option Any := Some (mkAny "t" (l2b b)).
Definition unscoped_migrator : Migrator := mkMigrator 500 Unscoped.

Lemma legacy_state_found_witness : extractLegacyResultingState unknown decode (event "a" 2) = Some (mkAny "t" "s").
Proof.
  rewrite (legacy_state_found decode unknown (event "a" 2) [FVarint 9 300] (b2l "s") []); [reflexivity|reflexivity| | |done].
  - apply Forall_singleton. done.
  - apply Forall_singleton. intros [].
Defined.

Lemma legacy_store_ok : api.store_ok legacy_events.
Proof. apply (ok_events _ legacy_ok). done. Qed.

Definition seeded_store : snapshotstore.SnapshotStore :=
  match migrateAll unknown decode unscoped_migrator legacy_events snapshotstore.NewSnapshotStore 1 "" with
  | Some (_, sn) => sn | None => snapshotstore.NewSnapshotStore end.
Definition seeded_a : snapshotstore.SnapshotStore :=
  match migrateEntity unknown decode unscoped_migrator legacy_events snapshotstore.NewSnapshotStore "a" with
  | Some (_, sn) => sn | None => snapshotstore.NewSnapshotStore end.

Lemma new_snapshots_ok : api.snap_ok snapshotstore.NewSnapshotStore.
Proof. apply map_Forall_empty. Qed.

Lemma migration_seeds_latest_witness : exists s, sState s = Some (mkAny "t" "s") /\ api.sview seeded_a Unscoped "a" !! 2%N = Some s.
Proof.
  destruct (migration_seeds_latest unknown decode unscoped_migrator legacy_events snapshotstore.NewSnapshotStore "a" seeded_a
    legacy_store_ok new_snapshots_ok wf_unscoped ltac:(vm_compute; reflexivity)) as (evs & Hr & Hl).
  assert (evs = legacy_a) as -> by (vm_compute in Hr; injection Hr as <-; reflexivity).
  change (last_with_state unknown decode legacy_a) with (Some (event "a" 2, mkAny "t" "s")) in Hl.
  destruct Hl as (s & _ & _ & Hs & _ & _ & Hv). exists s. split; [exact Hs|]. rewrite Hv, decide_True by done. apply lookup_insert_eq.
Defined.

Definition reseeded_store : snapshotstore.SnapshotStore :=
  match migrateAll unknown decode unscoped_migrator legacy_events seeded_store 1 "" with
  | Some (_, sn) => sn | None => snapshotstore.NewSnapshotStore end.
Lemma first_pass : migrateAll unknown decode unscoped_migrator legacy_events snapshotstore.NewSnapshotStore 1 "" = Some (Ok tt, seeded_store).
Proof. vm_compute. reflexivity. Qed.
Lemma second_pass : migrateAll unknown decode unscoped_migrator legacy_events seeded_store 1 "" = Some (Ok tt, reseeded_store).
Proof. vm_compute. reflexivity. Qed.

Lemma migration_idempotent_witness : forall sc pid, api.sview reseeded_store sc pid = api.sview seeded_store sc pid.
Proof.
  exact (migration_idempotent unknown decode unscoped_migrator legacy_events snapshotstore.NewSnapshotStore 1 seeded_store reseeded_store
    legacy_store_ok new_snapshots_ok wf_unscoped first_pass second_pass).
Defined.

(** With a page size of zero, which the adopter rejects, a migration lists
    nothing, migrates nothing and reports success. *)
Theorem zero_page_migrates_nothing GetUnknown UnmarshalAny sc (st : testkit.EventStore) (sn : snapshotstore.SnapshotStore) :
  Valid sc = true -> New [WithPageSize 0; WithScope sc] = Some (mkMigrator 0 sc) /\
  migrateAll GetUnknown UnmarshalAny (mkMigrator 0 sc) st sn 1 "" = Some (Ok tt, sn).
Proof.
  intros Hv. unfold New. simpl. rewrite Hv. split; [done|]. unfold adoption.PersistenceIDs, list_event_store, testkit.PersistenceIDs.
  simpl. rewrite Hv. simpl. by destruct (0 <? _)%nat.
Qed.
End migration_spec.
