(* ===== verification/Lifecycle.v ===== *)
(** * The start/stop sequencer of the composition roots

    [src/compose/internal/lifecycle/lifecycle.go]: a [Sequence] runs named
    steps in order, undoes those that started in reverse order when one fails
    or panics, and releases what no step owns. A step acts on the world [W]
    of its composition root and returns or panics ([outcome]); [now] reads
    the clock of that world. *)

From S2P Require Import Prelude Tenancy Protocol.
From Stdlib Require Import ZArith Lia.
Open Scope string_scope.
Open Scope list_scope.

(** What a Go call comes to: it returns, or it panics. *)
Inductive outcome (A : Type) : Type :=
| Ret (a : A)
| Panicked.
Arguments Ret {A} a.
Arguments Panicked {A}.

Module lifecycle.
Import tenancy.

(** [context.WithoutCancel] keeps the values of a context, neither its
    deadline nor its cancellation; [context.WithTimeout] at the instant
    [now]. *)
Definition WithoutCancel (ctx : Context) : Context := mkContext (ctx_tenant ctx) (ctx_carrier ctx) None None.
Definition WithTimeout (now : Z) (ctx : Context) (timeout : Z) : Context :=
  let d := (now + timeout)%Z in
  mkContext (ctx_tenant ctx) (ctx_carrier ctx)
    (Some match ctx_deadline ctx with Some p => if (p <? d)%Z then p else d | None => d end) (ctx_canceled ctx).

Definition DefaultShutdownTimeout : Z := 30000000000.

Inductive State := StateNew | StateStarting | StateRunning | StateStopping | StateStopped | StateFailed.
#[export] Instance State_eq_dec : EqDecision State.
Proof. solve_decision. Defined.

Section Sequence.
Context {W E : Type} (now : W -> Z).

(** A step function returns nil ([None]) or an error. *)
Definition action : Type := Context -> W -> outcome (option E) * W.

Record Step := mkStep { Name : string; StepStart : option action; StepStop : option action }.

Record Config := mkConfig { Steps : list Step; Release : option action; ShutdownTimeout : Z }.

Record Sequence := mkSequence {
  state : State;
  steps : list Step;
  release : option action;
  timeout : Z;
  started : nat
}.

Definition setState (s : Sequence) (st : State) : Sequence := mkSequence st (steps s) (release s) (timeout s) (started s).
Definition set_started (s : Sequence) (n : nat) : Sequence := mkSequence (state s) (steps s) (release s) (timeout s) n.

(** *** [New] *)
Inductive config_error := NoName (i : nat) | NoStart (name : string) | NegativeTimeout (d : Z).

Fixpoint check_steps (i : nat) (l : list Step) : option config_error :=
  match l with
  | [] => None
  | step :: l =>
    if bool_decide (Name step = "") then Some (NoName i)
    else match StepStart step with None => Some (NoStart (Name step)) | Some _ => check_steps (S i) l end
  end.

Definition New (cfg : Config) : result config_error Sequence :=
  match check_steps 0 (Steps cfg) with
  | Some e => Err e
  | None =>
    if (ShutdownTimeout cfg <? 0)%Z then Err (NegativeTimeout (ShutdownTimeout cfg))
    else Ok (mkSequence StateNew (Steps cfg) (Release cfg)
      (if (ShutdownTimeout cfg =? 0)%Z then DefaultShutdownTimeout else ShutdownTimeout cfg) 0)
  end.

(** *** Clean-up: the errors it joins, each naming where it came from *)
Inductive cleanup_error := StopStep (name : string) (e : E) | ReleaseError (e : E).

(** The started steps, last first; a panic leaves at once. *)
Fixpoint undo (ctx : Context) (l : list Step) (w : W) : outcome (list cleanup_error) * W :=
  match l with
  | [] => (Ret [], w)
  | step :: l =>
    match StepStop step with
    | None => undo ctx l w
    | Some stop =>
      match stop ctx w with
      | (Panicked, w) => (Panicked, w)
      | (Ret r, w) =>
        match undo ctx l w with
        | (Panicked, w) => (Panicked, w)
        | (Ret errs, w) => (Ret (option_list (StopStep (Name step) <$> r) ++ errs), w)
        end
      end
    end
  end.

Definition cleanupContext (ctx : Context) (s : Sequence) (w : W) : Context := WithTimeout (now w) (WithoutCancel ctx) (timeout s).

Definition cleanup (ctx : Context) (rel : bool) (s : Sequence) (w : W) : outcome (list cleanup_error) * Sequence * W :=
  let cleanupCtx := cleanupContext ctx s w in
  match undo cleanupCtx (reverse (take (started s) (steps s))) w with
  | (Panicked, w) => (Panicked, s, w)
  | (Ret errs, w) =>
    let s := set_started s 0 in
    match (if rel then release s else None) with
    | None => (Ret errs, s, w)
    | Some f =>
      match f cleanupCtx w with
      | (Panicked, w) => (Panicked, s, w)
      | (Ret r, w) => (Ret (errs ++ option_list (ReleaseError <$> r)), s, w)
      end
    end
  end.

(** *** [Start] *)
Inductive cause := CauseContext (e : protocol.ctx_error) | CauseStep (e : E).

(** [compose.StartError]; a nil [Rollback] is the empty list. *)
Record StartError := mkStartError { Step_ : string; Err_ : cause; Rollback : list cleanup_error }.

Inductive start_result := Started_ | ErrNotStartable (st : State) | Failed_ (e : StartError).

(** How the loop over the steps leaves. *)
Inductive exit := AllStarted | StepFailed (name : string) (c : cause) | StepPanicked.

Fixpoint start_steps (ctx : Context) (l : list Step) (s : Sequence) (w : W) : exit * Sequence * W :=
  match l with
  | [] => (AllStarted, s, w)
  | step :: l =>
    match protocol.ctx_err (now w) ctx with
    | Some e => (StepFailed (Name step) (CauseContext e), s, w)
    | None =>
      match StepStart step with
      | None => (StepPanicked, s, w)
      | Some start =>
        match start ctx w with
        | (Panicked, w) => (StepPanicked, s, w)
        | (Ret (Some e), w) => (StepFailed (Name step) (CauseStep e), s, w)
        | (Ret None, w) => start_steps ctx l (set_started s (S (started s))) w
        end
      end
    end
  end.

(** A panic in a step is raised again after the deferred clean-up; one in the
    clean-up leaves the state as it is. *)
Definition Start (ctx : Context) (s : Sequence) (w : W) : outcome start_result * Sequence * W :=
  if bool_decide (state s <> StateNew) then (Ret (ErrNotStartable (state s)), s, w)
  else
    let s := setState s StateStarting in
    match start_steps ctx (steps s) s w with
    | (AllStarted, s, w) => (Ret Started_, setState s StateRunning, w)
    | (StepFailed name c, s, w) =>
      match cleanup ctx true s w with
      | (Panicked, s, w) => (Panicked, s, w)
      | (Ret rollback, s, w) => (Ret (Failed_ (mkStartError name c rollback)), setState s StateFailed, w)
      end
    | (StepPanicked, s, w) =>
      match cleanup ctx true s w with
      | (Panicked, s, w) => (Panicked, s, w)
      | (Ret _, s, w) => (Panicked, setState s StateFailed, w)
      end
    end.

(** *** [Stop] *)
Definition Stop (ctx : Context) (s : Sequence) (w : W) : outcome (list cleanup_error) * Sequence * W :=
  if bool_decide (state s = StateStopped) || bool_decide (state s = StateFailed) then (Ret [], s, w)
  else
    let rel := bool_decide (state s = StateNew) in
    match cleanup ctx rel (setState s StateStopping) w with
    | (Panicked, s, w) => (Panicked, s, w)
    | (Ret errs, s, w) => (Ret errs, setState s StateStopped, w)
    end.

(** Callers of [Start] and [Stop], one after the other: the mutex admits no
    two at once. *)
Inductive call := CallStart (ctx : Context) | CallStop (ctx : Context).

Fixpoint run (calls : list call) (s : Sequence) (w : W) : Sequence * W :=
  match calls with
  | [] => (s, w)
  | CallStart ctx :: calls => let '(_, s, w) := Start ctx s w in run calls s w
  | CallStop ctx :: calls => let '(_, s, w) := Stop ctx s w in run calls s w
  end.
End Sequence.
Arguments action : clear implicits.
Arguments Step : clear implicits.
Arguments Config : clear implicits.
Arguments Sequence : clear implicits.
Arguments cleanup_error : clear implicits.
Arguments cause : clear implicits.
Arguments StartError : clear implicits.
Arguments start_result : clear implicits.
Arguments exit : clear implicits.
End lifecycle.
