(* ===== verification/ActorSystem.v ===== *)
(** * The actor system the engine is plugged into

    [extensions]: what the engine registers on the actor system and what it
    injects at a spawn ([src/internal/extensions/extensions.go]). [goakt]: the
    interface of the actor library, which is not part of the repository: the
    operations the engine calls, and the laws of those it relies on. *)

From S2P Require Import Prelude Tenancy Persistence Egopb Command Protocol EventSourced Projection.
From Stdlib Require Import ZArith.
Open Scope string_scope.
Open Scope list_scope.

Module extensions.

Definition EventsStoreExtensionID := "EgoEventsStoreExtension".
Definition DurableStateStoreExtensionID := "EgoStatesStoreExtension".
Definition EventsStreamExtensionID := "EgoEventStreamExtension".
Definition OffsetStoreExtensionID := "EgoOffsetStoreExtension".
Definition ProjectionExtensionID := "EgoProjectionExtension".
Definition EventAdaptersExtensionID := "EgoEventAdaptersExtension".
Definition SnapshotStoreExtensionID := "EgoSnapshotStoreExtension".
Definition TelemetryExtensionID := "EgoTelemetryExtension".
Definition EncryptorExtensionID := "EgoEncryptorExtension".
Definition TenancyExtensionID := "EgoTenancyExtension".

(** [projection.Options]: times are instants; the handlers are named. *)
Record Options := mkOptions {
  Handler : string;
  BufferSize : Z;
  StartOffset : Z;
  ResetOffset : Z;
  PullInterval : Z;
  Recovery : option projection.Recovery;
  DeadLetterHandler : option string
}.

(** The extensions, with what they carry that the engine reads again. A store
    extension may carry a nil store. *)
Inductive Extension :=
| XEventsStore (store : bool)
| XEventsStream (stream : nat)
| XDurableStateStore
| XOffsetStore
| XProjection (projections : gmap string Options)
| XSnapshotStore
| XEventAdapters (adapters : list string)
| XTelemetry
| XEncryptor
| XTenancyMarker.

Definition ID (x : Extension) : string :=
  match x with
  | XEventsStore _ => EventsStoreExtensionID
  | XEventsStream _ => EventsStreamExtensionID
  | XDurableStateStore => DurableStateStoreExtensionID
  | XOffsetStore => OffsetStoreExtensionID
  | XProjection _ => ProjectionExtensionID
  | XSnapshotStore => SnapshotStoreExtensionID
  | XEventAdapters _ => EventAdaptersExtensionID
  | XTelemetry => TelemetryExtensionID
  | XEncryptor => EncryptorExtensionID
  | XTenancyMarker => TenancyExtensionID
  end.

(** ** Behaviors and kinds as Go values

    What reflection and type assertions see of one: a nil interface, a typed
    nil pointer, a pointer, or a value; whether its type implements the two
    binary marshalling methods. *)
Inductive shape := NilInterface | NilPointer | Pointer | Value.
Record Behavior := mkBehavior { b_shape : shape; b_type : string; b_serializable : bool; b_id : string }.

Inductive Dependency :=
| DepBehavior (b : Behavior)
| DepLocalBehavior (b : Behavior)
| DepEntityConfig (c : eventsource.EntityConfig) (batchFlushWindow : Z)
| DepSagaConfig (timeout : Z)
| DepEntityTenantScope (tenantID : string)
| DepKind (b : Behavior).

(** What each kind of actor finds among its dependencies ([BehaviorFrom]
    looks through a local carrier). *)
Definition for_entity (d : Dependency) : eventsource.dependency :=
  match d with
  | DepBehavior _ | DepLocalBehavior _ => eventsource.DepBehavior
  | DepEntityConfig c _ => eventsource.DepEntityConfig c
  | DepEntityTenantScope t => eventsource.DepEntityTenantScope t
  | _ => eventsource.DepOther
  end.
End extensions.

Module goakt.
Import extensions.

Inductive Directive := StopDirective | ResumeDirective | RestartDirective.
Inductive SpawnPlacement := RoundRobin | Random | Local | LeastLoad.

(** The options a spawn is given. *)
Inductive SpawnOption :=
| WithLongLived
| WithPassivationStrategy (after : Z)
| WithRelocationDisabled
| WithPlacement (p : SpawnPlacement)
| WithSupervisor (anyError : Directive)
| WithProjectionSupervisor
| WithStashing
| WithDependencies (deps : list Dependency).

Inductive Actor := EventSourcedActor | DurableStateActor | SagaActor | ProjectionActor.

(** The options an actor system is built with; an application can add any of
    the library's own. *)
Inductive Option_ :=
| WithLogger
| WithActorInitMaxRetries (n : Z)
| WithPubSub
| WithDefaultSupervisor (anyError : Directive)
| WithExtensions (xs : list Extension)
| WithCluster (kinds : list Actor)
| OtherOption (name : string).

(** The error values [errors.Is] is asked about; an error matches those it
    wraps or joins. *)
Inductive sentinel := ContextCanceled | ContextDeadlineExceeded | ErrRequestTimeout | ErrActorAlreadyExists | ErrOther.
#[export] Instance sentinel_eq_dec : EqDecision sentinel.
Proof. solve_decision. Defined.
Record Error := mkError { matches : list sentinel; text : string }.
Definition Is (e : Error) (s : sentinel) : bool := bool_decide (s ∈ matches e).

Section System.
Context {msg : Type}.

Inductive Message :=
| TenantBindingQuery (tenantId : string)
| GetStateCommand
| Command (m : msg).

Inductive Reply :=
| RCommandReply (r : egopb.CommandReply)
| RTenantBindingReply (r : egopb.TenantBindingReply)
| ROther.

Class ActorSystem (Sys : Type) := {
  Running : Sys -> bool;
  InCluster : Sys -> bool;
  GetExtension : Sys -> string -> option Extension;
  Inject : Sys -> list Dependency -> result Error unit * Sys;
  Spawn : Sys -> tenancy.Context -> string -> Actor -> list SpawnOption -> result Error string * Sys;
  SpawnOn : Sys -> tenancy.Context -> string -> Actor -> list SpawnOption -> result Error string * Sys;
  SpawnSingleton : Sys -> tenancy.Context -> string -> Actor -> list SpawnOption -> result Error string * Sys;
  ActorOf : Sys -> tenancy.Context -> string -> result Error string;
  ActorExists : Sys -> tenancy.Context -> string -> result Error bool;
  IsRunning : Sys -> string -> bool;
  Kill : Sys -> tenancy.Context -> string -> result Error unit * Sys;
  (** a process is asked by its id, which is the name of its actor *)
  Ask : Sys -> tenancy.Context -> string -> Message -> Z -> result Error Reply * Sys;
  (** [NoSender().SendSync]: by name *)
  SendSync : Sys -> tenancy.Context -> string -> Message -> Z -> result Error Reply * Sys
}.

(** What the engine relies on when it spawns for a tenant. A process is named
    by its actor; [binding] is the tenancy mode and scope of the actor that
    runs under a name. *)
Class ActorSystemLaws (Sys : Type) `{ActorSystem Sys} := {
  binding : Sys -> string -> option (bool * persistence.Scope);
  inject_binding s deps n : binding (Inject s deps).2 n = binding s n;
  spawn_named s ctx n k opts p s' : Spawn s ctx n k opts = (Ok p, s') -> p = n;
  spawn_on_named s ctx n k opts p s' : SpawnOn s ctx n k opts = (Ok p, s') -> p = n;
  actor_of_named s ctx n p : ActorOf s ctx n = Ok p -> p = n;
  (** an actor that runs is left alone by a spawn *)
  spawn_keeps s ctx n k opts n' x : binding s n' = Some x -> binding (Spawn s ctx n k opts).2 n' = Some x;
  spawn_on_keeps s ctx n k opts n' x : binding s n' = Some x -> binding (SpawnOn s ctx n k opts).2 n' = Some x;
  query_keeps s ctx n t d n' : binding (Ask s ctx n (TenantBindingQuery t) d).2 n' = binding s n';
  (** an answer to a binding query is the answer of the actor that runs under
      the name *)
  query_answered s ctx n t d r s' : Ask s ctx n (TenantBindingQuery t) d = (Ok (RTenantBindingReply r), s') ->
    exists aware sc, binding s' n = Some (aware, sc) /\ r = protocol.AnswerTenantBinding aware sc t
}.
End System.
Arguments Message : clear implicits.
Arguments ActorSystem : clear implicits.
Arguments ActorSystemLaws msg Sys {_}.
End goakt.
