(* ===== verification/EngineConfig.v ===== *)
(** * Configuring the engine and its spawns

    [runtime]: the options of one spawn ([src/port/runtime/spawn.go]).
    [engine_config]: the engine's configuration and the actor-system options
    made of it ([src/engine/option.go]), the validation of an actor system
    against it ([src/engine/engine.go]), and how spawn options become the
    arguments of a spawn ([src/engine/spawn_config.go], [spawn_options.go],
    [behavior_dependency.go]). *)

From S2P Require Import Prelude GoStrings Tenancy Persistence EventSourced Projection ActorSystem.
From Stdlib Require Import ZArith Lia.
Open Scope string_scope.
Open Scope list_scope.
Open Scope urd_scope.

Module runtime.
(** [EntitiesPlacement] and [SupervisorDirective] are integers with named
    values. *)
Definition RoundRobin : Z := 0.
Definition Random : Z := 1.
Definition Local : Z := 2.
Definition LeastLoad : Z := 3.
Definition StopDirective : Z := 0.
Definition RestartDirective : Z := 1.

(** Adapter settings: keys of unexported types of package [engine], or of any
    other adapter; values of dynamic type. *)
Inductive key := snapshotIntervalKey | retentionPolicyKey | batchThresholdKey | batchFlushWindowKey | OtherKey (name : string).
#[export] Instance key_eq_dec : EqDecision key.
Proof. solve_decision. Defined.
Definition key_code (k : key) : nat * string :=
  match k with
  | snapshotIntervalKey => (0%nat, "") | retentionPolicyKey => (1%nat, "") | batchThresholdKey => (2%nat, "")
  | batchFlushWindowKey => (3%nat, "") | OtherKey n => (4%nat, n)
  end.
Definition key_of_code (c : nat * string) : key :=
  match c.1 with
  | 0%nat => snapshotIntervalKey | 1%nat => retentionPolicyKey | 2%nat => batchThresholdKey
  | 3%nat => batchFlushWindowKey | _ => OtherKey c.2
  end.
#[export] Instance key_countable : Countable key.
Proof. refine (inj_countable' key_code key_of_code _). by intros []. Defined.

Inductive value := VUint64 (n : N) | VPolicy (p : eventsource.retentionPolicy) | VInt (z : Z) | VDuration (d : Z) | VOther.

Inductive SpawnOption :=
| WithPassivateAfter (after : Z)
| WithRelocation (toRelocate : bool)
| WithSupervisorDirective (directive : Z)
| WithPlacement (placement : Z)
| WithTenant (id : string)
| WithAdapterSetting (k : key) (v : value).

Record spawnConfig := mkSpawnConfig {
  passivateAfter : Z;
  relocation : bool;
  supervisorDirective : Z;
  placement : Z;
  tenantID : string;
  adapter : gmap key value
}.

Definition Apply (o : SpawnOption) (c : spawnConfig) : spawnConfig :=
  match o with
  | WithPassivateAfter d => mkSpawnConfig d (relocation c) (supervisorDirective c) (placement c) (tenantID c) (adapter c)
  | WithRelocation b => mkSpawnConfig (passivateAfter c) b (supervisorDirective c) (placement c) (tenantID c) (adapter c)
  | WithSupervisorDirective d => mkSpawnConfig (passivateAfter c) (relocation c) d (placement c) (tenantID c) (adapter c)
  | WithPlacement p => mkSpawnConfig (passivateAfter c) (relocation c) (supervisorDirective c) p (tenantID c) (adapter c)
  | WithTenant id => mkSpawnConfig (passivateAfter c) (relocation c) (supervisorDirective c) (placement c) id (adapter c)
  | WithAdapterSetting k v =>
    mkSpawnConfig (passivateAfter c) (relocation c) (supervisorDirective c) (placement c) (tenantID c) (<[k := v]> (adapter c))
  end.

(** A nil option is skipped. *)
Definition ResolveSpawnOptions (opts : list (option SpawnOption)) : spawnConfig :=
  foldl (fun c o => match o with Some o => Apply o c | None => c end)
    (mkSpawnConfig 0 false RestartDirective RoundRobin "" ∅) opts.
Definition AdapterSetting (s : spawnConfig) (k : key) : option value := adapter s !! k.
End runtime.

Module engine_config.
Import extensions.

(** ** Entity families *)
Definition EventSourcedFamily : N := 1.
Definition DurableStateFamily : N := 2.
Definition SagaFamily : N := 4.
Definition knownEntityFamilies : N := N.lor (N.lor EventSourcedFamily DurableStateFamily) SagaFamily.

Fixpoint join (sep : string) (l : list string) : string :=
  match l with [] => "" | [x] => x | x :: l => x +:+ sep +:+ join sep l end.

Definition FamilyString (f : N) : string :=
  if (f =? 0)%N || negb (N.ldiff f knownEntityFamilies =? 0)%N then "EntityFamily(" +:+ format_uint f +:+ ")"
  else join "|" (omap (fun known : N * string => if negb (N.land f known.1 =? 0)%N then Some known.2 else None)
    [(EventSourcedFamily, "EventSourced"); (DurableStateFamily, "DurableState"); (SagaFamily, "Saga")]).

(** ** [Config] *)
Record Config := mkConfig {
  eventsStore : bool;
  stateStore : bool;
  offsetStore : bool;
  snapshotStore : bool;
  projections : gmap string Options;
  eventAdapters : list string;
  telemetry : bool;
  encryptor : bool;
  behaviorKinds : list Behavior;
  schemaMigration : bool;
  entityFamilies : N;
  tenantResolver : option tenancy.TenantResolver;
  tenantResolverCount : Z;
  eventStream : nat
}.

(** Stores, telemetry and encryptor: whether they are set. A nil or typed-nil
    stream or resolver is [None]. *)
Inductive Option_ :=
| WithLogger
| WithStateStore (set : bool)
| WithSchemaMigration
| WithOffsetStore (set : bool)
| WithProjection (name : string) (options : option Options)
| WithSnapshotStore (set : bool)
| WithTelemetry (set : bool)
| WithEventAdapters (adapters : list string)
| WithBehaviorKinds (kinds : list Behavior)
| WithEntityFamilies (families : list N)
| WithEventStream (stream : option nat)
| WithEncryptor (set : bool)
| WithTenantResolver (resolver : option tenancy.TenantResolver).

Definition union_families (c : N) (families : list N) : N :=
  foldl (fun acc f => N.lor acc (N.land f knownEntityFamilies)) c families.

Definition Apply (c : Config) (o : Option_) : Config :=
  match o with
  | WithLogger => c
  | WithStateStore b => mkConfig (eventsStore c) b (offsetStore c) (snapshotStore c) (projections c) (eventAdapters c) (telemetry c) (encryptor c) (behaviorKinds c) (schemaMigration c) (entityFamilies c) (tenantResolver c) (tenantResolverCount c) (eventStream c)
  | WithSchemaMigration => mkConfig (eventsStore c) (stateStore c) (offsetStore c) (snapshotStore c) (projections c) (eventAdapters c) (telemetry c) (encryptor c) (behaviorKinds c) true (entityFamilies c) (tenantResolver c) (tenantResolverCount c) (eventStream c)
  | WithOffsetStore b => mkConfig (eventsStore c) (stateStore c) b (snapshotStore c) (projections c) (eventAdapters c) (telemetry c) (encryptor c) (behaviorKinds c) (schemaMigration c) (entityFamilies c) (tenantResolver c) (tenantResolverCount c) (eventStream c)
  | WithProjection name None => c
  | WithProjection name (Some options) => mkConfig (eventsStore c) (stateStore c) (offsetStore c) (snapshotStore c) (<[name := options]> (projections c)) (eventAdapters c) (telemetry c) (encryptor c) (behaviorKinds c) (schemaMigration c) (entityFamilies c) (tenantResolver c) (tenantResolverCount c) (eventStream c)
  | WithSnapshotStore b => mkConfig (eventsStore c) (stateStore c) (offsetStore c) b (projections c) (eventAdapters c) (telemetry c) (encryptor c) (behaviorKinds c) (schemaMigration c) (entityFamilies c) (tenantResolver c) (tenantResolverCount c) (eventStream c)
  | WithTelemetry b => mkConfig (eventsStore c) (stateStore c) (offsetStore c) (snapshotStore c) (projections c) (eventAdapters c) b (encryptor c) (behaviorKinds c) (schemaMigration c) (entityFamilies c) (tenantResolver c) (tenantResolverCount c) (eventStream c)
  | WithEventAdapters l => mkConfig (eventsStore c) (stateStore c) (offsetStore c) (snapshotStore c) (projections c) (eventAdapters c ++ l) (telemetry c) (encryptor c) (behaviorKinds c) (schemaMigration c) (entityFamilies c) (tenantResolver c) (tenantResolverCount c) (eventStream c)
  | WithBehaviorKinds l => mkConfig (eventsStore c) (stateStore c) (offsetStore c) (snapshotStore c) (projections c) (eventAdapters c) (telemetry c) (encryptor c) (behaviorKinds c ++ l) (schemaMigration c) (entityFamilies c) (tenantResolver c) (tenantResolverCount c) (eventStream c)
  | WithEntityFamilies l => mkConfig (eventsStore c) (stateStore c) (offsetStore c) (snapshotStore c) (projections c) (eventAdapters c) (telemetry c) (encryptor c) (behaviorKinds c) (schemaMigration c) (union_families (entityFamilies c) l) (tenantResolver c) (tenantResolverCount c) (eventStream c)
  | WithEventStream None => c
  | WithEventStream (Some s) => mkConfig (eventsStore c) (stateStore c) (offsetStore c) (snapshotStore c) (projections c) (eventAdapters c) (telemetry c) (encryptor c) (behaviorKinds c) (schemaMigration c) (entityFamilies c) (tenantResolver c) (tenantResolverCount c) s
  | WithEncryptor b => mkConfig (eventsStore c) (stateStore c) (offsetStore c) (snapshotStore c) (projections c) (eventAdapters c) (telemetry c) b (behaviorKinds c) (schemaMigration c) (entityFamilies c) (tenantResolver c) (tenantResolverCount c) (eventStream c)
  | WithTenantResolver None => c
  | WithTenantResolver (Some r) => mkConfig (eventsStore c) (stateStore c) (offsetStore c) (snapshotStore c) (projections c) (eventAdapters c) (telemetry c) (encryptor c) (behaviorKinds c) (schemaMigration c) (entityFamilies c) (match tenantResolver c with None => Some r | Some r => Some r end) (tenantResolverCount c + 1) (eventStream c)
  end.

(** [newStream] is the address of the stream [eventstream.New] returned. *)
Definition NewConfig (store : bool) (newStream : nat) (opts : list Option_) : Config :=
  foldl Apply (mkConfig store false false false ∅ [] false false [] false 0 None 0 newStream) opts.

Definition normalize (o : Options) : Options :=
  match Recovery o with
  | Some _ => o
  | None => mkOptions (Handler o) (BufferSize o) (StartOffset o) (ResetOffset o) (PullInterval o)
      (Some (projection.NewRecovery [])) (DeadLetterHandler o)
  end.

Definition option_of {A} (b : bool) (a : A) : list A := if b then [a] else [].

Definition GoaktOptions (c : Config) : list goakt.Option_ :=
  [goakt.WithLogger; goakt.WithActorInitMaxRetries 5; goakt.WithPubSub;
   goakt.WithDefaultSupervisor goakt.ResumeDirective;
   goakt.WithExtensions [XEventsStore (eventsStore c); XEventsStream (eventStream c)]] ++
  option_of (stateStore c) (goakt.WithExtensions [XDurableStateStore]) ++
  option_of (offsetStore c) (goakt.WithExtensions [XOffsetStore]) ++
  option_of (bool_decide (projections c <> ∅)) (goakt.WithExtensions [XProjection (normalize <$> projections c)]) ++
  option_of (snapshotStore c) (goakt.WithExtensions [XSnapshotStore]) ++
  option_of (bool_decide (eventAdapters c <> [])) (goakt.WithExtensions [XEventAdapters (eventAdapters c)]) ++
  option_of (telemetry c) (goakt.WithExtensions [XTelemetry]) ++
  option_of (encryptor c) (goakt.WithExtensions [XEncryptor]) ++
  option_of (match tenantResolver c with Some _ => true | None => false end) (goakt.WithExtensions [XTenancyMarker]).

(** ** Validation of the actor system *)
Definition checks (c : Config) : list (string * bool) :=
  [(EventsStoreExtensionID, true);
   (EventsStreamExtensionID, true);
   (DurableStateStoreExtensionID, stateStore c);
   (OffsetStoreExtensionID, offsetStore c);
   (ProjectionExtensionID, bool_decide (projections c <> ∅));
   (SnapshotStoreExtensionID, snapshotStore c);
   (EventAdaptersExtensionID, bool_decide (eventAdapters c <> []));
   (TelemetryExtensionID, telemetry c);
   (EncryptorExtensionID, encryptor c);
   (TenancyExtensionID, match tenantResolver c with Some _ => true | None => false end)].

(** The missing ids, in the order of the checks. *)
Definition validateActorSystemExtensions (lookup : string -> option Extension) (c : Config) : list string :=
  fst <$> filter (fun ck => ck.2 = true /\ lookup ck.1 = None) (checks c).

Inductive engine_error :=
| ErrActorSystemRequired
| ErrNilConfig
| ErrActorSystemNotStarted
| ErrAmbiguousTenantResolver
| ErrMissingRequiredExtensions (missing : list string)
| BehaviorPlacementError (kind entityID : string) (notPointer : bool)
| ErrInject (e : goakt.Error).

(** ** Spawn options *)

(** The engine's own [spawnConfig]. *)
Record spawnConfig := mkSpawnConfig {
  passivateAfter : Z;
  toRelocate : bool;
  supervisorDirective : Z;
  entitiesPlacement : Z;
  snapshotInterval : N;
  retentionPolicy : option eventsource.retentionPolicy;
  batchThreshold : Z;
  batchFlushWindow : Z;
  tenantID : string
}.

(** A type assertion on an adapter setting: the default when the key is
    absent; [None] when the value has another type, which panics. *)
Definition assert_setting {A} (s : runtime.spawnConfig) (k : runtime.key) (zero : A) (as_A : runtime.value -> option A) : option A :=
  match runtime.AdapterSetting s k with Some v => as_A v | None => Some zero end.

Definition newSpawnConfig (opts : list (option runtime.SpawnOption)) : option spawnConfig :=
  let s := runtime.ResolveSpawnOptions opts in
  interval ← assert_setting s runtime.snapshotIntervalKey 0%N (fun v => match v with runtime.VUint64 n => Some n | _ => None end);
  policy ← assert_setting s runtime.retentionPolicyKey None (fun v => match v with runtime.VPolicy p => Some (Some p) | _ => None end);
  threshold ← assert_setting s runtime.batchThresholdKey 0%Z (fun v => match v with runtime.VInt z => Some z | _ => None end);
  window ← assert_setting s runtime.batchFlushWindowKey 0%Z (fun v => match v with runtime.VDuration d => Some d | _ => None end);
  Some (mkSpawnConfig (runtime.passivateAfter s) (runtime.relocation s) (runtime.supervisorDirective s)
    (runtime.placement s) interval policy threshold window (runtime.tenantID s)).

(** The engine's constructors of adapter settings. *)
Definition WithSnapshotInterval (every : N) : runtime.SpawnOption :=
  runtime.WithAdapterSetting runtime.snapshotIntervalKey (runtime.VUint64 every).
Definition WithRetentionPolicy (p : eventsource.retentionPolicy) : runtime.SpawnOption :=
  runtime.WithAdapterSetting runtime.retentionPolicyKey (runtime.VPolicy p).
Definition WithBatchThreshold (threshold : Z) : runtime.SpawnOption :=
  runtime.WithAdapterSetting runtime.batchThresholdKey (runtime.VInt threshold).
Definition WithBatchFlushWindow (window : Z) : runtime.SpawnOption :=
  runtime.WithAdapterSetting runtime.batchFlushWindowKey (runtime.VDuration window).

Definition toSpawnPlacement (p : Z) : goakt.SpawnPlacement :=
  if (p =? runtime.LeastLoad)%Z then goakt.LeastLoad
  else if (p =? runtime.Random)%Z then goakt.Random
  else if (p =? runtime.Local)%Z then goakt.Local
  else goakt.RoundRobin.

Definition toSupervisorDirective (d : Z) : goakt.Directive :=
  if (d =? runtime.StopDirective)%Z then goakt.StopDirective else goakt.RestartDirective.

Definition buildSpawnOptionsFromConfig (c : spawnConfig) : list goakt.SpawnOption :=
  [goakt.WithLongLived] ++
  option_of (0 <? passivateAfter c)%Z (goakt.WithPassivationStrategy (passivateAfter c)) ++
  option_of (negb (toRelocate c)) goakt.WithRelocationDisabled ++
  [goakt.WithPlacement (toSpawnPlacement (entitiesPlacement c)); goakt.WithSupervisor (toSupervisorDirective (supervisorDirective c))] ++
  [goakt.WithStashing].

(** The [EntityConfig] a spawn injects. *)
Definition NewEntityConfig (c : spawnConfig) : eventsource.EntityConfig :=
  match retentionPolicy c with
  | Some p => eventsource.mkEntityConfig (snapshotInterval c) true (eventsource.DeleteEventsOnSnapshot p)
      (eventsource.DeleteSnapshotsOnSnapshot p) (eventsource.EventsRetentionCount p) (batchThreshold c)
  | None => eventsource.mkEntityConfig (snapshotInterval c) false false false 0 (batchThreshold c)
  end.

(** ** Behaviors as spawn dependencies *)
Definition isNilValue (b : Behavior) : bool := match b_shape b with NilInterface | NilPointer => true | _ => false end.
Definition isNonNilPointer (b : Behavior) : bool := match b_shape b with Pointer => true | _ => false end.

Section System.
Context {msg Sys : Type} {ASys : goakt.ActorSystem msg Sys}.

Definition spawnDependency (s : Sys) (b : Behavior) : result engine_error Dependency * Sys :=
  if isNilValue b then (Err (BehaviorPlacementError (b_type b) "" true), s)
  else if b_serializable b && isNonNilPointer b then (Ok (DepBehavior b), (goakt.Inject s [DepBehavior b]).2)
  else if negb (goakt.InCluster s) then (Ok (DepLocalBehavior b), s)
  else (Err (BehaviorPlacementError (b_type b) (b_id b) (b_serializable b)), s).

(** ** [NewEngine]: the checks and the registration of the kinds *)
Definition bad_kind (b : Behavior) : bool := match b_shape b with NilInterface | Value => true | _ => false end.

Definition NewEngine (s : option Sys) (c : option Config) : result engine_error Config * option Sys :=
  match s, c with
  | None, _ => (Err ErrActorSystemRequired, None)
  | Some s, None => (Err ErrNilConfig, Some s)
  | Some s, Some c =>
    if negb (goakt.Running s) then (Err ErrActorSystemNotStarted, Some s)
    else if (1 <? tenantResolverCount c)%Z || ((0 <? tenantResolverCount c)%Z && match tenantResolver c with None => true | Some _ => false end)
      then (Err ErrAmbiguousTenantResolver, Some s)
    else match validateActorSystemExtensions (goakt.GetExtension s) c with
    | (_ :: _) as missing => (Err (ErrMissingRequiredExtensions missing), Some s)
    | [] =>
      match List.find bad_kind (behaviorKinds c) with
      | Some k => (Err (BehaviorPlacementError (b_type k) "" true), Some s)
      | None =>
        match goakt.Inject s ([DepEntityConfig (eventsource.mkEntityConfig 0 false false false 0 0) 0; DepSagaConfig 0; DepEntityTenantScope ""] ++
            (DepKind <$> behaviorKinds c)) with
        | (Err e, s') => (Err (ErrInject e), Some s')
        | (Ok _, s') => (Ok c, Some s')
        end
      end
    end
  end.
End System.
End engine_config.
