(* ===== verification/Engine.v ===== *)
(** * The engine

    [src/engine]: the facade applications call. Commands ([commands.go]),
    spawning and its tenant checks ([entities.go], [sagas.go],
    [spawn_tenancy.go]), erasure, lifecycle ([engine.go]), publishers
    ([streams.go]) and projections ([projections.go]). The actor system, its
    processes and the stores are not the engine's: an operation takes the
    state of those it uses and returns it. [None] is a panic. *)

From S2P Require Import Prelude GoStrings Tenancy Persistence Egopb StoreApi Command Protocol EventSourced Saga Stream Delivery Lifecycle ActorSystem EngineConfig.
From Stdlib Require Import ZArith.
Open Scope string_scope.
Open Scope list_scope.
Open Scope urd_scope.

Module engine.
Import persistence egopb tenancy extensions.

Inductive error :=
| ErrEngineNotStarted
| ErrUndefinedEntityID
| ErrNotACommand
| ErrInvalidEnvelope
| ErrCommandReplyUnmarshalling
| ErrEventsStoreRequired
| ErrDurableStateStoreRequired
| ErrEntityFamilyNotDeclared (family declared : string)
| ErrSpawnTenantUndetermined
| ErrSpawnTenantMismatch (cause : tenancy.Error)
| ErrSpawnTenantUnverified (cause : option goakt.Error)
| ErrActorSystemRequired
| ErrDuplicatePublisherID (ids : list string)
| ErrProjectionNotRegistered (name : string)
| EPlacement (e : engine_config.engine_error)
| ECommand (e : command.error)
| EReply (e : protocol.reply_error)
| ETenancy (e : tenancy.Error)
| EGoakt (e : goakt.Error)
| EJoin (e1 e2 : goakt.Error)
| EStore (e : store_error)
| EText (message : string)
| EWrap (message : string) (e : error).

(** ** [Engine]

    The configuration, whether it started, whether it still has the actor
    system, and its publishers: per publisher id the subscriber of its
    goroutine. [done] holds the subscribers whose [done] channel has a
    token. *)
Record Engine := mkEngine {
  config : engine_config.Config;
  started : bool;
  attached : bool;
  eventsStreams : gmap string string;
  statesStreams : gmap string string;
  done : gset string
}.

Definition of_config (c : engine_config.Config) : Engine := mkEngine c false true ∅ ∅ ∅.
Definition Started (e : Engine) : bool := started e.
Definition tenantResolver (e : Engine) : option TenantResolver := engine_config.tenantResolver (config e).

Definition requireFamily (e : Engine) (family : N) : option error :=
  let declared := engine_config.entityFamilies (config e) in
  if (declared =? 0)%N || negb (N.land declared family =? 0)%N then None
  else Some (ErrEntityFamilyNotDeclared (engine_config.FamilyString family) (engine_config.FamilyString declared)).

Definition hasEventsStore (e : Engine) : bool := engine_config.eventsStore (config e).

(** ** Times and contexts *)
Definition maxDuration : Z := 9223372036854775807.
Definition minDuration : Z := -9223372036854775808.

(** [time.Until], which saturates. *)
Definition until (deadline now : Z) : Z := Z.max minDuration (Z.min maxDuration (deadline - now)).

(** [context.WithDeadline]: a parent that ends earlier keeps its deadline. *)
Definition WithDeadline (ctx : Context) (d : Z) : Context :=
  mkContext (ctx_tenant ctx) (ctx_carrier ctx)
    (Some match ctx_deadline ctx with Some p => if (p <? d)%Z then p else d | None => d end) (ctx_canceled ctx).

Section Commands.
Context {msg Sys : Type} {ASys : goakt.ActorSystem msg Sys}.
(** The RFC 3339 codec, the order of a map, [Any.UnmarshalNew] and
    [strconv.IsPrint]. *)
Context (fmt_time : Z -> string) (parse_time : string -> option Z) (range : gmap string string -> list (string * string)).
Context (UnmarshalNew : option Any -> result string msg) (print_tbl : Z -> bool).

Abbreviation Envelope := (command.Envelope (option (goakt.Message msg))).
Abbreviation Result := (command.Result msg).

(** [deadline = min(now + timeout, metadata deadline, context deadline)] *)
Definition effectiveDeadline (now timeout : Z) (md : command.Metadata) (ctx : Context) : Z :=
  let deadline := (now + timeout)%Z in
  let deadline := if command.hasDeadline md && (command.deadline md <? deadline)%Z then command.deadline md else deadline in
  match ctx_deadline ctx with Some d => if (d <? deadline)%Z then d else deadline | None => deadline end.

Definition timed_out (md : command.Metadata) (m : string) (opts : list command.FailureOption) : result error Result :=
  rmap_err ECommand (let? failure := command.NewFailure m opts in command.NewTimedOut md failure).
Definition canceled (md : command.Metadata) (m : string) (opts : list command.FailureOption) : result error Result :=
  rmap_err ECommand (let? failure := command.NewFailure m opts in command.NewCanceled md failure).

(** A failed [SendSync] *)
Definition classifySendError (md : command.Metadata) (e : goakt.Error) : result error Result :=
  if goakt.Is e goakt.ContextCanceled
  then canceled md "command: caller context canceled while waiting for reply" [command.WithFailureCause (command.CauseText (goakt.text e))]
  else if goakt.Is e goakt.ContextDeadlineExceeded || goakt.Is e goakt.ErrRequestTimeout
  then timed_out md "command: deadline exceeded while waiting for reply" [command.WithFailureCause (command.CauseText (goakt.text e))]
  else Err (EGoakt e).

(** The context a command is sent with: the resolver's tenant is attached. *)
Definition attachResolved (e : Engine) (ctx : Context) : result error Context :=
  match tenantResolver e with
  | None => Ok ctx
  | Some r =>
    let? tc := rmap_err ETenancy (Resolve r ctx) in
    match Attach ctx tc with (ctx', None) => Ok ctx' | (_, Some err) => Err (ETenancy err) end
  end.

(** [clock] is what successive readings of the clock return: when metadata is
    rebuilt, for [ctx.Err], for the deadline, for its check, for [Until].
    [dispatchCommand] is [Dispatch] from where the payload is known to be a
    command. *)
Definition dispatchCommand (clock : nat -> Z) (e : Engine) (s : Sys) (ctx : Context) (entityID : string)
    (payload : goakt.Message msg) (md : command.Metadata) (timeout : Z) : result error Result * Sys :=
  if negb (attached e) then (Err ErrEngineNotStarted, s)
  else match command.UnmarshalMetadata parse_time range (clock 0%nat) (command.MarshalMetadata fmt_time md) with
  | Err err => (Err (ECommand err), s)
  | Ok _ =>
    match protocol.ctx_err (clock 1%nat) ctx with
    | Some protocol.CtxCanceled =>
      (canceled md "command: context already done before dispatch" [command.WithFailureCause command.Canceled], s)
    | Some protocol.CtxDeadlineExceeded =>
      (timed_out md "command: context already done before dispatch" [command.WithFailureCause command.DeadlineExceeded], s)
    | None =>
      let deadline := effectiveDeadline (clock 2%nat) timeout md ctx in
      if negb (clock 3%nat <? deadline)%Z then (timed_out md "command: deadline already exceeded" [], s)
      else
        let ctx := WithDeadline ctx deadline in
        let timeout := until deadline (clock 4%nat) in
        match attachResolved e ctx with
        | Err err => (Err err, s)
        | Ok ctx =>
          let ctx := protocol.AttachCarrier ctx (command.MarshalMetadata fmt_time md) in
          match goakt.SendSync s ctx entityID payload timeout with
          | (Err sendErr, s') => (classifySendError md sendErr, s')
          | (Ok (goakt.RCommandReply r), s') => (rmap_err EReply (protocol.ResultFromReply UnmarshalNew print_tbl r md), s')
          | (Ok _, s') => (Err ErrCommandReplyUnmarshalling, s')
          end
        end
    end
  end.

Definition Dispatch (clock : nat -> Z) (e : Engine) (s : Sys) (ctx : Context) (entityID : string) (env : Envelope) (timeout : Z) :
    result error Result * Sys :=
  if negb (Started e) then (Err ErrEngineNotStarted, s)
  else if bool_decide (entityID = "") then (Err ErrUndefinedEntityID, s)
  else match command.payload env with
  | Some (goakt.TenantBindingQuery _) => (Err ErrNotACommand, s)
  | None => (Err ErrInvalidEnvelope, s)
  | Some payload => dispatchCommand clock e s ctx entityID payload (command.metadata env) timeout
  end.

(** [op] is what [GenerateOperationID] returned. *)
Definition deriveMetadata (now : Z) (op : result command.error string) (ctx : Context) : result command.error command.Metadata :=
  let? op := op in
  match protocol.MetadataFromContext parse_time range now ctx with
  | Some parent => command.Derive now parent op []
  | None => command.NewMetadata now op []
  end.

Definition resultToLegacy (r : Result) : result error (option msg * N) :=
  match command.outcome r with
  | command.OutcomeSuccess => Ok (command.State r, command.rrevision r)
  | command.OutcomeSuccessNoState => Ok (None, 0%N)
  | _ => match command.ResultErr r with Some err => Err (ECommand (command.ECommand err)) | None => Ok (None, 0%N) end
  end.

Definition SendCommand (now : Z) (op : result command.error string) (clock : nat -> Z) (e : Engine) (s : Sys) (ctx : Context)
    (entityID : string) (cmd : option (goakt.Message msg)) (timeout : Z) : result error (option msg * N) * Sys :=
  match rmap_err ECommand (let? md := deriveMetadata now op ctx in
    let? env := command.NewEnvelope cmd md in Ok (command.mkEnvelope (Some (command.payload env)) (command.metadata env))) with
  | Err err => (Err err, s)
  | Ok env =>
    match Dispatch clock e s ctx entityID env timeout with
    | (Err err, s') => (Err err, s')
    | (Ok r, s') => (resultToLegacy r, s')
    end
  end.

(** ** Spawning for a tenant ([spawn_tenancy.go]) *)
Definition spawnTenantScope (e : Engine) (c : engine_config.spawnConfig) : result error (option string) :=
  match tenantResolver e with
  | None => Ok None
  | Some r =>
    if negb (bool_decide (engine_config.tenantID c = "")) then Ok (Some (engine_config.tenantID c))
    else match FixedTenantOf (Some r) with
    | (tenantID, true) => Ok (Some tenantID)
    | (_, false) => Err ErrSpawnTenantUndetermined
    end
  end.

Definition spawnBindingQueryTimeout : Z := 5000000000.

Definition classifyTenantBinding (requested : string) (answer : TenantBindingReply) : option error :=
  match NewTenantContext requested with
  | Err err => Some (ErrSpawnTenantMismatch err)
  | Ok requestedTenant =>
    if negb (TenantAware answer) then Some (ErrSpawnTenantUnverified None)
    else if negb (Matches answer) then
      match VerifyUnchanged requestedTenant noTenantContext with
      | Err err => Some (ErrSpawnTenantMismatch err)
      | Ok _ => None
      end
    else None
  end.

Definition verifySpawnedTenant (s : Sys) (ctx : Context) (pid : string) (requested : option string) : option error * Sys :=
  match requested with
  | None => (None, s)
  | Some requested =>
    match goakt.Ask s ctx pid (goakt.TenantBindingQuery requested) spawnBindingQueryTimeout with
    | (Err err, s') => (Some (ErrSpawnTenantUnverified (Some err)), s')
    | (Ok (goakt.RTenantBindingReply answer), s') => (classifyTenantBinding requested answer, s')
    | (Ok _, s') => (Some (ErrSpawnTenantUnverified None), s')
    end
  end.

(** The error of a spawn and whether it is the spawn's own, unchanged. *)
Definition resolveExistingSpawn (s : Sys) (ctx : Context) (name : string) (requested : option string) (spawnErr : goakt.Error) :
    bool * option error * Sys :=
  match requested with
  | None => (true, Some (EGoakt spawnErr), s)
  | Some _ =>
    if negb (goakt.Is spawnErr goakt.ErrActorAlreadyExists) then (true, Some (EGoakt spawnErr), s)
    else match goakt.ActorOf s ctx name with
    | Err err => (false, Some (EJoin spawnErr err), s)
    | Ok pid => let '(r, s') := verifySpawnedTenant s ctx pid requested in (false, r, s')
    end
  end.

(** ** Spawns: the error, if any, and the system *)
Definition inject_scope (s : Sys) (tenantScope : option string) : list Dependency * Sys :=
  match tenantScope with
  | Some t => ([DepEntityTenantScope t], (goakt.Inject s [DepEntityTenantScope t]).2)
  | None => ([], s)
  end.

Definition spawnEventSourced (e : Engine) (s : Sys) (ctx : Context) (b : Behavior) (opts : list (option runtime.SpawnOption)) :
    option (option error * Sys) :=
  if negb (Started e) then Some (Some ErrEngineNotStarted, s)
  else match requireFamily e engine_config.EventSourcedFamily with
  | Some err => Some (Some err, s)
  | None =>
    if negb (attached e) then Some (Some ErrEngineNotStarted, s)
    else if negb (hasEventsStore e) then Some (Some ErrEventsStoreRequired, s)
    else match engine_config.spawnDependency s b with
    | (Err err, s) => Some (Some (EPlacement err), s)
    | (Ok behaviorDep, s) =>
      c ← engine_config.newSpawnConfig opts;
      match spawnTenantScope e c with
      | Err err => Some (Some err, s)
      | Ok tenantScope =>
        let entityConfig := DepEntityConfig (engine_config.NewEntityConfig c) (engine_config.batchFlushWindow c) in
        let s := (goakt.Inject s [entityConfig]).2 in
        let '(scopeDeps, s) := inject_scope s tenantScope in
        let sOptions := engine_config.buildSpawnOptionsFromConfig c ++ [goakt.WithDependencies ([behaviorDep; entityConfig] ++ scopeDeps)] in
        Some match goakt.SpawnOn s ctx (b_id b) goakt.EventSourcedActor sOptions with
        | (Err err, s) => let '(_, r, s) := resolveExistingSpawn s ctx (b_id b) tenantScope err in (r, s)
        | (Ok pid, s) => verifySpawnedTenant s ctx pid tenantScope
        end
      end
    end
  end.

Definition spawnDurableState (e : Engine) (s : Sys) (ctx : Context) (b : Behavior) (opts : list (option runtime.SpawnOption)) :
    option (option error * Sys) :=
  if negb (Started e) then Some (Some ErrEngineNotStarted, s)
  else match requireFamily e engine_config.DurableStateFamily with
  | Some err => Some (Some err, s)
  | None =>
    if negb (attached e) then Some (Some ErrEngineNotStarted, s)
    else if negb (engine_config.stateStore (config e)) then Some (Some ErrDurableStateStoreRequired, s)
    else match engine_config.spawnDependency s b with
    | (Err err, s) => Some (Some (EPlacement err), s)
    | (Ok behaviorDep, s) =>
      c ← engine_config.newSpawnConfig opts;
      match spawnTenantScope e c with
      | Err err => Some (Some err, s)
      | Ok tenantScope =>
        let '(scopeDeps, s) := inject_scope s tenantScope in
        let sOptions := engine_config.buildSpawnOptionsFromConfig c ++ [goakt.WithDependencies ([behaviorDep] ++ scopeDeps)] in
        Some match goakt.SpawnOn s ctx (b_id b) goakt.DurableStateActor sOptions with
        | (Err err, s) => let '(_, r, s) := resolveExistingSpawn s ctx (b_id b) tenantScope err in (r, s)
        | (Ok pid, s) => verifySpawnedTenant s ctx pid tenantScope
        end
      end
    end
  end.

Definition spawnSaga (e : Engine) (s : Sys) (ctx : Context) (b : Behavior) (timeout : Z) (opts : list (option runtime.SpawnOption)) :
    option (option error * Sys) :=
  if negb (Started e) then Some (Some ErrEngineNotStarted, s)
  else match requireFamily e engine_config.SagaFamily with
  | Some err => Some (Some err, s)
  | None =>
    if negb (attached e) then Some (Some ErrEngineNotStarted, s)
    else if negb (hasEventsStore e) then Some (Some ErrEventsStoreRequired, s)
    else match engine_config.spawnDependency s b with
    | (Err err, s) => Some (Some (EPlacement err), s)
    | (Ok behaviorDep, s) =>
      c ← engine_config.newSpawnConfig opts;
      match spawnTenantScope e c with
      | Err err => Some (Some err, s)
      | Ok tenantScope =>
        let s := (goakt.Inject s [DepSagaConfig timeout]).2 in
        let '(scopeDeps, s) := inject_scope s tenantScope in
        Some match goakt.Spawn s ctx (b_id b) goakt.SagaActor
            [goakt.WithLongLived; goakt.WithDependencies ([behaviorDep; DepSagaConfig timeout] ++ scopeDeps);
             goakt.WithSupervisor (engine_config.toSupervisorDirective runtime.RestartDirective)] with
        | (Err err, s) =>
          let '(same, r, s) := resolveExistingSpawn s ctx (b_id b) tenantScope err in
          if same : bool then (Some (EWrap ("failed to start saga " +:+ b_id b) (EGoakt err)), s) else (r, s)
        | (Ok pid, s) => verifySpawnedTenant s ctx pid tenantScope
        end
      end
    end
  end.

(** ** Queries *)
Definition EntityExists (e : Engine) (s : Sys) (ctx : Context) (entityID : string) : result error bool :=
  if negb (Started e) then Err ErrEngineNotStarted
  else if negb (attached e) then Err ErrEngineNotStarted
  else rmap_err (fun err => EWrap ("failed to check existence of entity " +:+ entityID) (EGoakt err)) (goakt.ActorExists s ctx entityID).

Record SagaInfo := mkSagaInfo { sagaInfoID : string; Status : saga.SagaStatus; State : msg }.

Definition SagaStatus (e : Engine) (s : Sys) (ctx : Context) (sagaID : string) (timeout : Z) : result error SagaInfo * Sys :=
  if negb (Started e) then (Err ErrEngineNotStarted, s)
  else if bool_decide (sagaID = "") then (Err ErrUndefinedEntityID, s)
  else if negb (attached e) then (Err ErrEngineNotStarted, s)
  else match attachResolved e ctx with
  | Err err => (Err err, s)
  | Ok ctx =>
    match goakt.SendSync s ctx sagaID goakt.GetStateCommand timeout with
    | (Err err, s') => (Err (EWrap ("failed to get saga status for " +:+ sagaID) (EGoakt err)), s')
    | (Ok (goakt.RCommandReply r), s') =>
      (let? (state, _) := rmap_err EText (protocol.ParseCommandReply UnmarshalNew r) in
       Ok (mkSagaInfo sagaID
         (saga.StatusFromProto match r with CommandReply_StateReply r => rSagaStatus r | _ => STATUS_NONE end) state), s')
    | (Ok _, s') => (Err (EText ("unexpected reply type from saga " +:+ sagaID)), s')
    end
  end.
End Commands.

(** ** Erasure ([EraseEntity]) *)
Section Erase.
Context {St Sn : Type} `{api.EventsStore St} `{api.SnapshotStore Sn}.

Definition erasureScope (e : Engine) (ctx : Context) : result error persistence.Scope :=
  match tenantResolver e with
  | None => Ok Unscoped
  | Some r =>
    let? tc := rmap_err (fun err => EWrap "failed to resolve tenant for erasure" (ETenancy err)) (Resolve r ctx) in
    match Tenant tc with
    | (_, false) => Err (EWrap "failed to erase entity" (ETenancy (newError ReasonDenied "tenancy: denied")))
    | (tenantID, true) => rmap_err (fun err => EWrap "failed to build erasure scope" (ETenancy err)) (NewTenantScope tenantID)
    end
  end.

(** The error and the stores; a nil events store panics when it is called. *)
Definition EraseEntity (e : Engine) (st : option St) (sn : option Sn) (ctx : Context) (persistenceID : string) (full : bool) :
    option (option error * option St * option Sn) :=
  if negb (Started e) then Some (Some ErrEngineNotStarted, st, sn)
  else match erasureScope e ctx with
  | Err err => Some (Some err, st, sn)
  | Ok sc =>
    if negb full then Some (None, st, sn)
    else
      es ← st;
      match api.GetLatestEvent es sc persistenceID with
      | Err err => Some (Some (EWrap "failed to get latest event for erasure" (EStore err)), st, sn)
      | Ok None => Some (None, st, sn)
      | Ok (Some latestEvent) =>
        match api.DeleteEvents es sc persistenceID (SequenceNumber latestEvent) with
        | (Err err, es) => Some (Some (EWrap "failed to delete events for erasure" (EStore err)), Some es, sn)
        | (Ok _, es) =>
          match sn with
          | None => Some (None, Some es, None)
          | Some ss =>
            match api.DeleteSnapshots ss sc persistenceID (SequenceNumber latestEvent) with
            | (Err err, ss) => Some (Some (EWrap "failed to delete snapshots for erasure" (EStore err)), Some es, Some ss)
            | (Ok _, ss) => Some (None, Some es, Some ss)
            end
          end
        end
      end
  end.
End Erase.

(** ** Lifecycle

    [W] is the world publishers and schema migrations act on. *)
Section Lifecycle.
Context {W : Type}.

(** The stores in order, with [Migrate] when a store implements it. *)
Fixpoint migrateSchemas (stores : list (string * option (W -> outcome (result string unit) * W))) (w : W) : outcome (option error) * W :=
  match stores with
  | [] => (Ret None, w)
  | (kind, None) :: rest => migrateSchemas rest w
  | (kind, Some migrate) :: rest =>
    match migrate w with
    | (Panicked, w') => (Panicked, w')
    | (Ret (Err m), w') => (Ret (Some (EText ("engine: migrate the schema of the " +:+ kind +:+ ": " +:+ m))), w')
    | (Ret (Ok _), w') => migrateSchemas rest w'
    end
  end.

Definition Start (e : Engine) (stores : list (string * option (W -> outcome (result string unit) * W))) (w : W) :
    outcome (option error) * Engine * W :=
  if negb (attached e) then (Ret (Some ErrActorSystemRequired), e, w)
  else
    let '(r, w) := if engine_config.schemaMigration (config e) then migrateSchemas stores w else (Ret None, w) in
    match r with
    | Ret None => (Ret None, mkEngine (config e) true (attached e) (eventsStreams e) (statesStreams e) (done e), w)
    | r => (r, e, w)
    end.

(** *** Publishers ([streams.go]) *)
Fixpoint duplicate_loop (registered : string -> bool) (ids : list string) (seen reported : gset string) (duplicates : list string) : list string :=
  match ids with
  | [] => duplicates
  | id :: ids =>
    let repeated := bool_decide (id ∈ seen) in
    let seen := {[id]} ∪ seen in
    if negb repeated && negb (registered id) then duplicate_loop registered ids seen reported duplicates
    else if bool_decide (id ∈ reported) then duplicate_loop registered ids seen reported duplicates
    else duplicate_loop registered ids seen ({[id]} ∪ reported) (duplicates ++ [id])
  end.
Definition duplicatePublisherIDs (ids : list string) (registered : string -> bool) : option error :=
  match duplicate_loop registered ids ∅ ∅ [] with [] => None | duplicates => Some (ErrDuplicatePublisherID duplicates) end.

Definition EventsTopic := "topic.events".
Definition StatesTopic := "topic.states".

Context {P Q : Type} {QF : Fifo Q (eventstream.Message P)}.
Abbreviation Stream := (eventstream.EventsStream Q).

(** [id] is the id of the new subscriber. *)
Definition Subscribe (e : Engine) (b : Stream) (id : string) : result error string * Stream :=
  if negb (Started e) then (Err ErrEngineNotStarted, b)
  else (Ok id, eventstream.Subscribe (eventstream.Subscribe (eventstream.AddSubscriber b id) id EventsTopic) id StatesTopic).

(** Publishers with the ids of the subscribers they are given. *)
Fixpoint register (topic : string) (publishers : list (string * string)) (m : gmap string string) (b : Stream) : gmap string string * Stream :=
  match publishers with
  | [] => (m, b)
  | (publisher, subscriber) :: rest =>
    register topic rest (<[publisher := subscriber]> m) (eventstream.Subscribe (eventstream.AddSubscriber b subscriber) subscriber topic)
  end.

Definition AddEventPublishers (e : Engine) (b : Stream) (publishers : list (string * string)) : option error * Engine * Stream :=
  if negb (Started e) then (Some ErrEngineNotStarted, e, b)
  else match duplicatePublisherIDs (fst <$> publishers) (fun id => bool_decide (is_Some (eventsStreams e !! id))) with
  | Some err => (Some err, e, b)
  | None =>
    let '(m, b) := register EventsTopic publishers (eventsStreams e) b in
    (None, mkEngine (config e) (started e) (attached e) m (statesStreams e) (done e), b)
  end.

Definition AddStatePublishers (e : Engine) (b : Stream) (publishers : list (string * string)) : option error * Engine * Stream :=
  if negb (Started e) then (Some ErrEngineNotStarted, e, b)
  else match duplicatePublisherIDs (fst <$> publishers) (fun id => bool_decide (is_Some (statesStreams e !! id))) with
  | Some err => (Some err, e, b)
  | None =>
    let '(m, b) := register StatesTopic publishers (statesStreams e) b in
    (None, mkEngine (config e) (started e) (attached e) (eventsStreams e) m (done e), b)
  end.

(** The goroutine of a publisher, [sendEvent] or [sendState], with its
    subscriber, its channel [done], which holds at most the one message [Stop]
    sends, and those who publish to it. [as_record] tells the payloads of its
    kind; the log is what [Publish] was called with. *)
Definition returned {R} (w : delivery.world P R) : bool := match delivery.pc w with delivery.SReturned => true | _ => false end.

Inductive send_step {R : Type} (as_record : P -> option R) : delivery.world P R * bool -> delivery.world P R * bool -> Prop :=
| send_goroutine w w' stop : delivery.goroutine_step as_record stop w w' -> send_step as_record (w, stop) (w', stop && negb (returned w'))
| send_signal f f' p l stop : delivery.signal_step f f' -> send_step as_record (delivery.mkWorld f p l, stop) (delivery.mkWorld f' p l, stop)
| send_shutdown f f' p l stop : delivery.shutdown_step f f' -> send_step as_record (delivery.mkWorld f p l, stop) (delivery.mkWorld f' p l, stop)
| send_done w stop : send_step as_record (w, stop) (w, true).

(** *** [Stop] *)

(** A publisher's [Close], by kind and id, and the order of a map. *)
Context (close : bool -> string -> W -> outcome (result string unit) * W).
Context (range : gmap string string -> list (string * string)) (srange : gset string -> list string).

(** A [Close] that panics ends the loop where it is. *)
Fixpoint stop_all (events : bool) (streams : list (string * string)) (d : gset string) (b : Stream) (w : W) (errs : list error) :
    outcome (list error) * gset string * Stream * W :=
  match streams with
  | [] => (Ret errs, d, b, w)
  | (publisher, subscriber) :: rest =>
    let d := {[subscriber]} ∪ d in
    let b := eventstream.on_sub b subscriber eventstream.Shutdown in
    match close events publisher w with
    | (Panicked, w) => (Panicked, d, b, w)
    | (Ret (Err m), w) =>
      stop_all events rest d b w
        (errs ++ [EText ((if events then "close events publisher " else "close durable state publisher ") +:+ publisher +:+ ": " +:+ m)])
    | (Ret (Ok _), w) => stop_all events rest d b w errs
    end
  end.

(** Nothing recovers a panic: the engine is then left no longer started, but
    attached and with its publishers. *)
Definition Stop (e : Engine) (b : Stream) (w : W) : outcome (list error) * Engine * Stream * W :=
  if negb (Started e) then (Ret [], e, b, w)
  else
    let halted d := mkEngine (config e) false (attached e) (eventsStreams e) (statesStreams e) d in
    match stop_all true (range (eventsStreams e)) (done e) b w [] with
    | (Panicked, d, b, w) => (Panicked, halted d, b, w)
    | (Ret errs, d, b, w) =>
      match stop_all false (range (statesStreams e)) d b w errs with
      | (Panicked, d, b, w) => (Panicked, halted d, b, w)
      | (Ret errs, d, b, w) => (Ret errs, mkEngine (config e) false false ∅ ∅ d, eventstream.Close srange b, w)
      end
    end.
End Lifecycle.

(** ** Projections ([projections.go]) *)
Class OffsetStore (Os : Type) := {
  (** [None]: the call panics *)
  ResetOffset : Os -> string -> Z -> option (result string unit * Os);
  GetCurrentOffset : Os -> string -> N -> result string (option Offset)
}.

(** [time.Time.UnixMilli] of an instant in nanoseconds. *)
Definition unix_milli (t : Z) : Z := (t / 1000000)%Z.
Definition ZeroTime : Z := -62135596800000000000.
Definition int64 (z : Z) : Z := ((z + 9223372036854775808) mod 18446744073709551616 - 9223372036854775808)%Z.

Section Projections.
Context {msg Sys : Type} {ASys : goakt.ActorSystem msg Sys}.

Definition StartProjection (e : Engine) (s : Sys) (ctx : Context) (name : string) : option error * Sys :=
  if negb (Started e) then (Some ErrEngineNotStarted, s)
  else if negb (attached e) then (Some ErrEngineNotStarted, s)
  else
    let unknown := match goakt.GetExtension s ProjectionExtensionID with
      | Some (XProjection projections) => bool_decide (projections !! name = None)
      | _ => false
      end in
    if unknown then (Some (ErrProjectionNotRegistered name), s)
    else
      let '(r, s) :=
        if goakt.InCluster s then goakt.SpawnSingleton s ctx name goakt.ProjectionActor [goakt.WithProjectionSupervisor]
        else goakt.Spawn s ctx name goakt.ProjectionActor
          [goakt.WithLongLived; goakt.WithRelocationDisabled; goakt.WithProjectionSupervisor] in
      match r with
      | Err err => (Some (EWrap ("failed to start the projection=(" +:+ name +:+ ")") (EGoakt err)), s)
      | Ok _ => (None, s)
      end.

Definition StopProjection (e : Engine) (s : Sys) (ctx : Context) (name : string) : option error * Sys :=
  if negb (Started e) then (Some ErrEngineNotStarted, s)
  else if negb (attached e) then (Some ErrEngineNotStarted, s)
  else match goakt.Kill s ctx name with (Err err, s) => (Some (EGoakt err), s) | (Ok _, s) => (None, s) end.

Definition IsProjectionRunning (e : Engine) (s : Sys) (ctx : Context) (name : string) : result error bool :=
  if negb (Started e) then Err ErrEngineNotStarted
  else if negb (attached e) then Err ErrEngineNotStarted
  else let? pid := rmap_err (fun err => EWrap ("failed to get projection " +:+ name) (EGoakt err)) (goakt.ActorOf s ctx name) in
    Ok (goakt.IsRunning s pid).

Section Offsets.
Context {Os : Type} `{OffsetStore Os}.

(** The error, the system and the offset store. *)
Definition RebuildProjection (e : Engine) (s : Sys) (os : option Os) (ctx : Context) (name : string) (from : Z) :
    option (option error * Sys * option Os) :=
  if negb (Started e) then Some (Some ErrEngineNotStarted, s, os)
  else match os with
  | None => Some (Some (EText "offset store is required to rebuild projection"), s, None)
  | Some store =>
    match StopProjection e s ctx name with
    | (Some err, s) => Some (Some (EWrap ("failed to stop projection " +:+ name +:+ " for rebuild") err), s, os)
    | (None, s) =>
      '(r, store) ← ResetOffset store name (unix_milli from);
      match r with
      | Err m => Some (Some (EWrap ("failed to reset offset for projection " +:+ name) (EText m)), s, Some store)
      | Ok _ =>
        match StartProjection e s ctx name with
        | (Some err, s) => Some (Some (EWrap ("failed to restart projection " +:+ name +:+ " after rebuild") err), s, Some store)
        | (None, s) => Some (None, s, Some store)
        end
      end
    end
  end.

(** The lag of one shard; a nil offset reads as zero. *)
Definition shard_lag (latestTimestamp : Z) (offset : option Offset) : Z :=
  let lagNanos := int64 (latestTimestamp - match offset with Some o => OffsetValue o | None => 0 end) in
  if (lagNanos <? 0)%Z then 0%Z else lagNanos.

Fixpoint lags (os : Os) (name : string) (shards : list (N * Z)) (m : gmap N Z) : result error (gmap N Z) :=
  match shards with
  | [] => Ok m
  | (shard, latestTimestamp) :: rest =>
    let? offset := rmap_err (fun err => EWrap ("failed to get offset for shard " +:+ format_uint shard) (EText err)) (GetCurrentOffset os name shard) in
    lags os name rest (<[shard := shard_lag latestTimestamp offset]> m)
  end.

(** [shardOffsets] is what the events store answered, [range] the order in
    which it is visited. *)
Definition ProjectionLag (e : Engine) (os : option Os) (shardOffsets : result store_error (gmap N Z)) (range : gmap N Z -> list (N * Z))
    (name : string) : result error (gmap N Z) :=
  if negb (Started e) then Err ErrEngineNotStarted
  else match os with
  | None => Err (EText "offset store is required to compute projection lag")
  | Some os =>
    let? offsets := rmap_err (fun err => EWrap "failed to fetch shard offsets" (EStore err)) shardOffsets in
    lags os name (range offsets) ∅
  end.
End Offsets.
End Projections.
End engine.
