(* ===== verification/EngineConfigSpec.v ===== *)
(** * What a configuration means

    The two uses of a configuration agree (the extensions it puts on the actor
    system are those the engine asks for), the tenancy mode is decided by the
    resolvers that were registered and not by their order, the family guard
    lets through exactly what was declared, and the settings of a spawn reach
    the actor. *)

From S2P Require Import Prelude GoStrings Tenancy Persistence EventSourced Projection ActorSystem EngineConfig Engine.
From Stdlib Require Import ZArith Lia.
Open Scope string_scope.
Open Scope list_scope.

Module engine_config_spec.
Import extensions engine_config.

(** ** Extensions *)

(** The extensions among the options of an actor system. *)
Definition exts (opts : list goakt.Option_) : list Extension :=
  concat ((fun o => match o with goakt.WithExtensions xs => xs | _ => [] end) <$> opts).

Lemma exts_app l1 l2 : exts (l1 ++ l2) = exts l1 ++ exts l2.
Proof. unfold exts. by rewrite fmap_app, concat_app. Qed.
Lemma exts_option_of b x : exts (option_of b (goakt.WithExtensions [x])) = option_of b x.
Proof. by destruct b. Qed.
Lemma elem_option_of {A} (a x : A) b : a ∈ option_of b x <-> b = true /\ a = x.
Proof. destruct b; simpl; rewrite ?list_elem_of_singleton, ?elem_of_nil; naive_solver. Qed.

Lemma elem_exts c x : x ∈ exts (GoaktOptions c) <->
  x = XEventsStore (eventsStore c) \/ x = XEventsStream (eventStream c) \/ (stateStore c = true /\ x = XDurableStateStore) \/
  (offsetStore c = true /\ x = XOffsetStore) \/ (bool_decide (projections c <> ∅) = true /\ x = XProjection (normalize <$> projections c)) \/
  (snapshotStore c = true /\ x = XSnapshotStore) \/ (bool_decide (eventAdapters c <> []) = true /\ x = XEventAdapters (eventAdapters c)) \/
  (telemetry c = true /\ x = XTelemetry) \/ (encryptor c = true /\ x = XEncryptor) \/
  ((match tenantResolver c with Some _ => true | None => false end) = true /\ x = XTenancyMarker).
Proof.
  unfold GoaktOptions. rewrite !exts_app, !exts_option_of, !elem_of_app, !elem_option_of.
  unfold exts at 1. simpl. rewrite !elem_of_cons, elem_of_nil. tauto.
Qed.

(** The ids a configuration registers are the ids it requires. *)
Lemma registered_required c id : (exists x, x ∈ exts (GoaktOptions c) /\ ID x = id) <-> (id, true) ∈ checks c.
Proof.
  unfold checks. rewrite !elem_of_cons, elem_of_nil. setoid_rewrite elem_exts. split.
  - intros (x & Hx & <-). repeat destruct Hx as [Hx|Hx]; repeat match goal with H : _ /\ _ |- _ => destruct H end; subst x; simpl;
      repeat match goal with H : _ = true |- _ => rewrite H end; tauto.
  - intros Hid. repeat destruct Hid as [Hid|Hid]; try done; (injection Hid as -> Hb || injection Hid as ->); try symmetry in Hb;
      [exists (XEventsStore (eventsStore c))|exists (XEventsStream (eventStream c))|exists XDurableStateStore|exists XOffsetStore
      |exists (XProjection (normalize <$> projections c))|exists XSnapshotStore|exists (XEventAdapters (eventAdapters c))
      |exists XTelemetry|exists XEncryptor|exists XTenancyMarker]; (split; [tauto|done]).
Qed.

(** What goakt does with the extensions it is given: an id is known exactly
    when an extension with it was registered. *)
Definition built_with (lookup : string -> option Extension) (opts : list goakt.Option_) : Prop :=
  forall id, lookup id <> None <-> exists x, x ∈ exts opts /\ ID x = id.

(** An actor system built from one configuration passes the engine's
    validation with another exactly when every extension the second requires
    is one the first configured; what is reported missing is precisely the
    difference. With the same configuration nothing is missing. *)
Theorem validation_reports_difference c c' lookup id :
  built_with lookup (GoaktOptions c') ->
  (id ∈ validateActorSystemExtensions lookup c <-> (id, true) ∈ checks c /\ (id, true) ∉ checks c') /\
  (c = c' -> validateActorSystemExtensions lookup c = []).
Proof.
  intros Hb. assert (forall i, lookup i = None <-> (i, true) ∉ checks c') as Hl.
  { intros i. rewrite <- registered_required, <- (Hb i). destruct (lookup i); naive_solver. }
  split.
  - unfold validateActorSystemExtensions. rewrite list_elem_of_fmap. setoid_rewrite list_elem_of_filter.
    split; [intros ([i b] & -> & (Hbt & Hn) & Hin); simpl in *; subst b|intros [Hin Hn]; exists (id, true)]; by rewrite Hl in *.
  - intros ->. destruct (validateActorSystemExtensions lookup c') as [|i l] eqn:Hv; [done|]. exfalso.
    assert (i ∈ validateActorSystemExtensions lookup c') as Hi by (rewrite Hv; left).
    unfold validateActorSystemExtensions in Hi. apply list_elem_of_fmap in Hi as ([j b] & -> & Hi).
    apply list_elem_of_filter in Hi as [[Hbt Hn] Hin]. simpl in *. subst b. by apply Hl in Hn.
Qed.

(** ** The tenancy mode *)
Definition resolvers (opts : list Option_) : list tenancy.TenantResolver :=
  omap (fun o => match o with WithTenantResolver r => r | _ => None end) opts.

Lemma resolvers_app l1 l2 : resolvers (l1 ++ l2) = resolvers l1 ++ resolvers l2.
Proof. apply omap_app. Qed.

Lemma NewConfig_snoc store ns opts o : NewConfig store ns (opts ++ [o]) = Apply (NewConfig store ns opts) o.
Proof. unfold NewConfig. by rewrite foldl_snoc. Qed.

Lemma NewConfig_resolver store ns opts :
  tenantResolver (NewConfig store ns opts) = head (resolvers opts) /\
  tenantResolverCount (NewConfig store ns opts) = Z.of_nat (length (resolvers opts)).
Proof.
  induction opts as [|o opts [IHr IHc]] using rev_ind; [done|]. rewrite NewConfig_snoc, resolvers_app, length_app.
  destruct o; simpl; rewrite ?app_nil_r, ?Nat.add_0_r; try done.
  - by destruct options.
  - by destruct stream.
  - destruct resolver as [r|]; simpl; rewrite ?app_nil_r, ?Nat.add_0_r; [|done]. rewrite IHr, IHc.
    split; [|lia]. by destruct (resolvers opts).
Qed.

(** Tenant-aware mode is what the registered resolvers make of it, in any
    order among the options: with none the engine runs in legacy mode, with
    one that resolver is the boundary and every actor is told so by the
    tenancy marker, and with more the engine is not built. *)
Theorem tenancy_mode_decided {msg Sys} `{goakt.ActorSystem msg Sys} store ns opts (s : Sys) :
  goakt.Running s = true ->
  let c := NewConfig store ns opts in
  match resolvers opts with
  | _ :: _ :: _ => (NewEngine (Some s) (Some c)).1 = Err ErrAmbiguousTenantResolver
  | l => (NewEngine (Some s) (Some c)).1 <> Err ErrAmbiguousTenantResolver /\
      forall c', (NewEngine (Some s) (Some c)).1 = Ok c' ->
        engine.tenantResolver (engine.of_config c') = head l /\ (XTenancyMarker ∈ exts (GoaktOptions c') <-> l <> [])
  end.
Proof.
  intros Hrun c. destruct (NewConfig_resolver store ns opts) as [Hr Hc]. fold c in Hr, Hc.
  assert (forall c', (NewEngine (Some s) (Some c)).1 = Ok c' -> c' = c) as Hok.
  { intros c'. unfold NewEngine. rewrite Hrun. simpl. repeat case_match; simpl; congruence. }
  assert (XTenancyMarker ∈ exts (GoaktOptions c) <-> is_Some (tenantResolver c)) as Hm.
  { rewrite elem_exts. destruct (tenantResolver c); (split; [|intros [? [=]]]); [by intros _; eexists|by do 9 right|].
    intuition discriminate. }
  assert (forall l, length l <= 1 -> resolvers opts = l ->
    (NewEngine (Some s) (Some c)).1 <> Err ErrAmbiguousTenantResolver /\
    forall c', (NewEngine (Some s) (Some c)).1 = Ok c' ->
      engine.tenantResolver (engine.of_config c') = head l /\ (XTenancyMarker ∈ exts (GoaktOptions c') <-> l <> [])) as Hfew.
  { intros l Hlen Hl. rewrite Hl in Hr, Hc. split.
    - unfold NewEngine. rewrite Hrun, Hc, Hr. simpl.
      destruct l as [|r [|r' l]]; simpl in *; [| |lia]; repeat case_match; simpl; congruence.
    - intros c' Hc'%Hok. subst c'. rewrite Hm, Hr. split; [exact Hr|]. destruct l; simpl; [|by split]. split; [by intros [? [=]]|done]. }
  destruct (resolvers opts) as [|r [|r' l]] eqn:Hl; [apply Hfew; [simpl; lia|done]..|].
  unfold NewEngine. rewrite Hrun, Hc. simpl.
  replace (1 <? Z.of_nat (S (S (length l))))%Z with true by (symmetry; apply Z.ltb_lt; lia). done.
Qed.

(** ** Entity families *)
Definition families (opts : list Option_) : list N :=
  concat (omap (fun o => match o with WithEntityFamilies l => Some l | _ => None end) opts).

Lemma union_bit c fs i : N.testbit (union_families c fs) i = N.testbit c i || existsb (fun f => N.testbit f i && N.testbit knownEntityFamilies i) fs.
Proof.
  unfold union_families. revert c. induction fs as [|f fs IH]; intros c; simpl; [by rewrite orb_false_r|].
  by rewrite IH, N.lor_spec, N.land_spec, <- orb_assoc.
Qed.

Lemma declared_bit store ns opts i :
  N.testbit (entityFamilies (NewConfig store ns opts)) i = existsb (fun f => N.testbit f i && N.testbit knownEntityFamilies i) (families opts).
Proof.
  induction opts as [|o opts IH] using rev_ind; [by rewrite N.bits_0|]. rewrite NewConfig_snoc.
  assert (families (opts ++ [o]) = families opts ++ families [o]) as -> by (unfold families; by rewrite omap_app, concat_app).
  rewrite existsb_app, <- IH. unfold families. destruct o; simpl; rewrite ?orb_false_r; try done.
  - by destruct options.
  - by rewrite union_bit, app_nil_r.
  - by destruct stream.
  - by destruct resolver.
Qed.

(** The three families are the bits 0, 1 and 2. *)
Lemma land_bit d i : N.land d (2 ^ i) = 0%N <-> N.testbit d i = false.
Proof.
  split.
  - intros H. assert (N.testbit (N.land d (2 ^ i)) i = false) as Hb by (rewrite H; apply N.bits_0).
    by rewrite N.land_spec, N.pow2_bits_true, andb_true_r in Hb.
  - intros H. apply N.bits_inj. intros j. rewrite N.land_spec, N.bits_0, N.pow2_bits_eqb.
    destruct (N.eqb_spec i j) as [<-|]; [by rewrite H|apply andb_false_r].
Qed.

(** The guard of every spawn lets a family through exactly when some option
    declared it, or when no option declared any family at all. *)
Theorem family_guard_exact store ns opts i : (i < 3)%N ->
  engine.requireFamily (engine.of_config (NewConfig store ns opts)) (2 ^ i) = None <->
  (exists f, f ∈ families opts /\ N.testbit f i = true) \/
  (forall f j, f ∈ families opts -> (j < 3)%N -> N.testbit f j = false).
Proof.
  intros Hi. assert (forall j, N.testbit knownEntityFamilies j = (j <? 3)%N) as Hk.
  { intros j. change knownEntityFamilies with (N.ones 3). destruct (N.ltb_spec j 3); [by apply N.ones_spec_low|by apply N.ones_spec_high]. }
  assert (forall j, N.testbit (entityFamilies (NewConfig store ns opts)) j = true <-> (j < 3)%N /\ exists f, f ∈ families opts /\ N.testbit f j = true) as Hd.
  { intros j. rewrite declared_bit, existsb_exists. split.
    - intros (f & Hf%list_elem_of_In & [Hb Hj]%andb_true_iff). rewrite Hk, N.ltb_lt in Hj. eauto.
    - intros (Hj & f & Hf & Hb). exists f. split; [by apply list_elem_of_In|]. rewrite Hb, Hk. by apply N.ltb_lt. }
  unfold engine.requireFamily. simpl. set (d := entityFamilies _) in *.
  destruct (N.eqb_spec d 0) as [Hz|Hz]; simpl.
  - split; [intros _; right|done]. intros f j Hf Hj. destruct (N.testbit f j) eqn:Hb; [|done]. exfalso.
    assert (N.testbit d j = true) as Hdj by (apply Hd; eauto). by rewrite Hz, N.bits_0 in Hdj.
  - destruct (N.eqb_spec (N.land d (2 ^ i)) 0) as [Hl|Hl]; simpl.
    + split; [done|]. intros [(f & Hf & Hb)|Hnone]; exfalso.
      * apply land_bit in Hl. assert (N.testbit d i = true) by (apply Hd; eauto). congruence.
      * apply Hz, N.bits_inj. intros j. rewrite N.bits_0. destruct (N.testbit d j) eqn:Hb; [|done].
        apply Hd in Hb as (Hj & f & Hf & Hb). by rewrite Hnone in Hb.
    + split; [intros _; left|done]. rewrite land_bit, not_false_iff_true in Hl. by apply Hd in Hl as [_ ?].
Qed.

(** ** Spawn settings *)
Section Settings.
Import runtime.

(** The options that can be built outside package [engine] carry foreign
    adapter keys only; the engine's carry the type of their key. *)
Definition typed (o : SpawnOption) : bool :=
  match o with
  | WithAdapterSetting snapshotIntervalKey v => match v with VUint64 _ => true | _ => false end
  | WithAdapterSetting retentionPolicyKey v => match v with VPolicy _ => true | _ => false end
  | WithAdapterSetting batchThresholdKey v => match v with VInt _ => true | _ => false end
  | WithAdapterSetting batchFlushWindowKey v => match v with VDuration _ => true | _ => false end
  | _ => true
  end.

Definition settings (k : key) (opts : list (option SpawnOption)) : list value :=
  omap (fun o => match o with Some (WithAdapterSetting k' v) => if decide (k = k') then Some v else None | _ => None end) opts.

Lemma Resolve_snoc opts o : ResolveSpawnOptions (opts ++ [o]) =
  match o with Some o => runtime.Apply o (ResolveSpawnOptions opts) | None => ResolveSpawnOptions opts end.
Proof. unfold ResolveSpawnOptions. by rewrite foldl_snoc. Qed.

(** The last setting of a key wins. *)
Lemma AdapterSetting_last k opts : AdapterSetting (ResolveSpawnOptions opts) k = last (settings k opts).
Proof.
  induction opts as [|o opts IH] using rev_ind; [done|]. rewrite Resolve_snoc. unfold settings. rewrite omap_app.
  destruct o as [[]|]; simpl; rewrite ?app_nil_r; try exact IH. unfold AdapterSetting in *. simpl. case_decide as Hk.
  - subst. by rewrite lookup_insert_eq, last_snoc.
  - rewrite lookup_insert_ne by done. by rewrite app_nil_r.
Qed.

Lemma settings_typed k opts v : Forall (fun o => match o with Some o => typed o = true | None => True end) opts -> v ∈ settings k opts ->
  typed (WithAdapterSetting k v) = true.
Proof.
  intros Hf (o & Hin & Ho)%list_elem_of_omap. rewrite Forall_forall in Hf. apply Hf in Hin.
  destruct o as [[]|]; try done. case_decide; [|done]. simplify_eq. exact Hin.
Qed.

(** Reading the engine's settings never panics, and the entity that is
    spawned is configured by the last value given for each of them (the
    documented zero values otherwise). *)
Theorem spawn_settings_reach_entity opts b scope :
  Forall (fun o => match o with Some o => typed o = true | None => True end) opts ->
  exists c, newSpawnConfig opts = Some c /\
    let '(interval, retention, threshold, behavior) :=
      eventsource.setConfig (for_entity <$> [DepBehavior b; DepEntityConfig (NewEntityConfig c) (batchFlushWindow c); DepEntityTenantScope scope]) in
    behavior = true /\
    interval = match last (settings snapshotIntervalKey opts) with Some (VUint64 n) => n | _ => 0%N end /\
    retention = match last (settings retentionPolicyKey opts) with Some (VPolicy p) => Some p | _ => None end /\
    threshold = match last (settings batchThresholdKey opts) with Some (VInt z) => z | _ => 0%Z end.
Proof.
  intros Hf.
  assert (forall k v, last (settings k opts) = Some v -> typed (WithAdapterSetting k v) = true) as Ht.
  { intros k v Hl. eapply settings_typed; [done|]. by apply last_Some_elem_of. }
  unfold newSpawnConfig, assert_setting. rewrite !AdapterSetting_last.
  pose proof (Ht snapshotIntervalKey) as T1. destruct (last (settings snapshotIntervalKey opts)) as [v1|]; [specialize (T1 _ eq_refl); destruct v1; try done|];
  pose proof (Ht retentionPolicyKey) as T2; (destruct (last (settings retentionPolicyKey opts)) as [v2|]; [specialize (T2 _ eq_refl); destruct v2 as [|[]| | |]; try done|]);
  pose proof (Ht batchThresholdKey) as T3; (destruct (last (settings batchThresholdKey opts)) as [v3|]; [specialize (T3 _ eq_refl); destruct v3; try done|]);
  pose proof (Ht batchFlushWindowKey) as T4; (destruct (last (settings batchFlushWindowKey opts)) as [v4|]; [specialize (T4 _ eq_refl); destruct v4; try done|]);
  eexists; (split; [reflexivity|]); done.
Qed.
End Settings.
End engine_config_spec.
