(* ===== verification/EngineSpec.v ===== *)
(** * Commands and spawns through the engine

    What reaches an entity when the engine dispatches a command, what a caller
    may conclude from the answer, and that a spawn in tenant-aware mode either
    fails or leaves an actor bound to the declared tenant running under the
    id. Proved for any actor system with the laws of [goakt.ActorSystemLaws]. *)

From S2P Require Import Prelude GoStrings Tenancy Persistence Egopb StoreApi Command Protocol EventSourced Saga Stream ActorSystem EngineConfig Engine.
From Stdlib Require Import ZArith Lia.
Open Scope string_scope.
Open Scope list_scope.
Open Scope urd_scope.

Module engine_spec.
Import persistence egopb tenancy extensions engine.

(** ** Deadlines *)
Lemma if_lt (a b t : Z) : (t < if (a <? b)%Z then a else b)%Z <-> (t < a /\ t < b)%Z.
Proof. destruct (Z.ltb_spec a b); lia. Qed.

Lemma effective_min now timeout md ctx t :
  (t < effectiveDeadline now timeout md ctx)%Z <->
  (t < now + timeout)%Z /\ (command.hasDeadline md = true -> t < command.deadline md)%Z /\
  (forall d, ctx_deadline ctx = Some d -> t < d)%Z.
Proof.
  unfold effectiveDeadline. destruct (command.hasDeadline md), (ctx_deadline ctx) as [d|]; simpl; rewrite ?if_lt; naive_solver.
Qed.

Lemma effective_le_ctx now timeout md ctx d : ctx_deadline ctx = Some d -> (effectiveDeadline now timeout md ctx <= d)%Z.
Proof. intros Hd. destruct (effective_min now timeout md ctx d) as [H _]. apply Z.le_ngt. intros Hlt. apply H in Hlt as (_ & _ & Hlt). specialize (Hlt _ Hd). lia. Qed.

Lemma WithDeadline_effective now timeout md ctx :
  ctx_deadline (WithDeadline ctx (effectiveDeadline now timeout md ctx)) = Some (effectiveDeadline now timeout md ctx).
Proof.
  unfold WithDeadline. simpl. destruct (ctx_deadline ctx) as [d|] eqn:Hd; [|done].
  pose proof (effective_le_ctx now timeout md ctx d Hd). destruct (Z.ltb_spec d (effectiveDeadline now timeout md ctx)); [lia|done].
Qed.

(** A context is live until its cancellation or its deadline. *)
Lemma ctx_live t ctx : protocol.ctx_err t ctx = None <->
  (forall c, ctx_canceled ctx = Some c -> t < c)%Z /\ (forall d, ctx_deadline ctx = Some d -> t < d)%Z.
Proof.
  unfold protocol.ctx_err. destruct (ctx_canceled ctx) as [c|], (ctx_deadline ctx) as [d|];
    repeat match goal with |- context [(?a <=? ?b)%Z] => destruct (Z.leb_spec a b) end; simpl;
    (split; [try done; intros _; split; intros; simplify_eq; lia|
             intros [Hc Hd]; try specialize (Hc _ eq_refl); try specialize (Hd _ eq_refl); done || lia]).
Qed.

Lemma gate_open t ctx stage : protocol.CheckDeadline t ctx stage = None <-> protocol.ctx_err t ctx = None.
Proof. unfold protocol.CheckDeadline. destruct (protocol.ctx_err t ctx) as [[]|]; naive_solver. Qed.

Lemma attachResolved_Ok e ctx ctx' : attachResolved e ctx = Ok ctx' ->
  ctx_deadline ctx' = ctx_deadline ctx /\ ctx_canceled ctx' = ctx_canceled ctx /\ ctx_carrier ctx' = ctx_carrier ctx /\
  match tenantResolver e with
  | None => ctx_tenant ctx' = ctx_tenant ctx
  | Some r => exists tc, Resolve r ctx = Ok tc /\ valid tc = true /\ ctx_tenant ctx' = Some tc
  end.
Proof.
  unfold attachResolved, Attach, From. destruct (tenantResolver e) as [r|]; [|by intros [= <-]].
  destruct (Resolve r ctx) as [tc|]; simpl; [|done]. destruct (valid tc) eqn:Hv; simpl; [|done].
  destruct (ctx_tenant ctx) as [b|] eqn:Hb.
  - case_bool_decide; [|done]. intros [= <-]. naive_solver.
  - intros [= <-]. simpl. naive_solver.
Qed.

Section Commands.
Context {msg Sys : Type} {ASys : goakt.ActorSystem msg Sys}.
Context (fmt_time : Z -> string) (parse_time : string -> option Z) (range : gmap string string -> list (string * string)).
Context (UnmarshalNew : option Any -> result string msg) (print_tbl : Z -> bool).
Hypothesis time_roundtrip : forall t, command.time_ok t -> parse_time (fmt_time t) = Some t.
Hypothesis range_perm : forall c, range c ≡ₚ map_to_list c.

Abbreviation Dispatch := (Dispatch fmt_time parse_time range UnmarshalNew print_tbl).
Abbreviation SendCommand := (SendCommand fmt_time parse_time range UnmarshalNew print_tbl).

(** What a caller is told, given the answer of the system. *)
Definition reported (md : command.Metadata) (reply : result goakt.Error goakt.Reply) : result error (command.Result msg) :=
  match reply with
  | Err e => classifySendError md e
  | Ok (goakt.RCommandReply r) => rmap_err EReply (protocol.ResultFromReply UnmarshalNew print_tbl r md)
  | Ok _ => Err ErrCommandReplyUnmarshalling
  end.

(** A call that hands the command to the entity: the context it goes with. *)
Record handed (clock : nat -> Z) (e : Engine) (ctx : Context) (md : command.Metadata) (timeout : Z) (ctx' : Context) (timeout' : Z) : Prop := {
  handed_deadline d : ctx_deadline ctx' = Some d -> d = effectiveDeadline (clock 2%nat) timeout md ctx /\ (clock 3%nat < d)%Z /\ timeout' = until d (clock 4%nat);
  handed_bounded : is_Some (ctx_deadline ctx');
  handed_canceled : ctx_canceled ctx' = ctx_canceled ctx;
  handed_carrier : ctx_carrier ctx' = Some (command.MarshalMetadata fmt_time md);
  handed_tenant : match tenantResolver e with
    | None => ctx_tenant ctx' = ctx_tenant ctx
    | Some r => exists tc, Resolve r (WithDeadline ctx (effectiveDeadline (clock 2%nat) timeout md ctx)) = Ok tc /\
                     valid tc = true /\ ctx_tenant ctx' = Some tc
    end
}.

(** Why a command was not handed over. *)
Definition refused (clock : nat -> Z) (e : Engine) (ctx : Context) (id : string) (md : command.Metadata) (timeout : Z) : Prop :=
  attached e = false \/
  command.UnmarshalMetadata parse_time range (clock 0%nat) (command.MarshalMetadata fmt_time md) <> Ok md \/
  protocol.ctx_err (clock 1%nat) ctx <> None \/
  (effectiveDeadline (clock 2%nat) timeout md ctx <= clock 3%nat)%Z \/
  (exists r err, tenantResolver e = Some r /\ attachResolved e (WithDeadline ctx (effectiveDeadline (clock 2%nat) timeout md ctx)) = Err err).

(** No outcome but a missed deadline or a cancellation. *)
Definition not_run (r : result error (command.Result msg)) : Prop :=
  forall x, r = Ok x -> command.outcome x = command.OutcomeTimedOut \/ command.outcome x = command.OutcomeCanceled.

Lemma timed_out_not_run md m opts : not_run (timed_out md m opts).
Proof. unfold not_run, timed_out. destruct (command.NewFailure m opts); [|done]. intros x [= <-]. by left. Qed.
Lemma canceled_not_run md m opts : not_run (canceled md m opts).
Proof. unfold not_run, canceled. destruct (command.NewFailure m opts); [|done]. intros x [= <-]. by right. Qed.

Lemma dispatchCommand_cases clock e s ctx id payload md timeout r s' :
  dispatchCommand fmt_time parse_time range UnmarshalNew print_tbl clock e s ctx id payload md timeout = (r, s') ->
  (s' = s /\ refused clock e ctx id md timeout /\ not_run r) \/
  exists ctx' timeout' reply, goakt.SendSync s ctx' id payload timeout' = (reply, s') /\
    r = reported md reply /\ handed clock e ctx md timeout ctx' timeout'.
Proof.
  unfold dispatchCommand, refused. destruct (attached e); simpl; [|intros [= <- <-]; left; split_and!; [done|by left|done]].
  destruct (command.UnmarshalMetadata _ _ _ _); [|intros [= <- <-]; left; split_and!; [done|right; by left|done]].
  destruct (protocol.ctx_err _ _) as [[]|];
    [intros [= <- <-]; left; split_and!; [done|right; right; by left|apply timed_out_not_run || apply canceled_not_run]..|].
  set (d := effectiveDeadline _ _ _ _). destruct (Z.ltb_spec (clock 3%nat) d) as [Hlt|Hge]; simpl;
    [|intros [= <- <-]; left; split_and!; [done|do 3 right; by left|apply timed_out_not_run]].
  destruct (attachResolved _ _) as [ctx0|err] eqn:Hatt.
  - apply attachResolved_Ok in Hatt as (Hd & Hc & _ & Ht). unfold d in Hd. rewrite WithDeadline_effective in Hd. fold d in Hd.
    destruct (goakt.SendSync _ _ _ _ _) as [reply s1] eqn:Hs. intros Heq. right.
    eexists _, _, reply. assert (s1 = s' /\ r = reported md reply) as [-> ->] by (destruct reply as [[]|]; by injection Heq as <- <-).
    split_and!; [exact Hs|done|]. split; simpl; [|rewrite Hd; eauto|by rewrite Hc|done|by destruct (tenantResolver e)].
    intros d' Hd'. rewrite Hd in Hd'. by injection Hd' as <-.
  - intros [= <- <-]. left. split_and!; [done| |done]. destruct (tenantResolver e) as [rr|] eqn:Hr; [eauto 8|].
    unfold attachResolved in Hatt. by rewrite Hr in Hatt.
Qed.

Lemma dispatch_cases clock e s ctx id env timeout r s' :
  Dispatch clock e s ctx id env timeout = (r, s') ->
  (s' = s /\ not_run r /\
    (started e = false \/ id = "" \/ (forall p, command.payload env = Some p -> exists t, p = goakt.TenantBindingQuery t) \/
     refused clock e ctx id (command.metadata env) timeout)) \/
  exists payload ctx' timeout' reply, command.payload env = Some payload /\ (forall t, payload <> goakt.TenantBindingQuery t) /\
    goakt.SendSync s ctx' id payload timeout' = (reply, s') /\
    r = reported (command.metadata env) reply /\ handed clock e ctx (command.metadata env) timeout ctx' timeout'.
Proof.
  unfold engine.Dispatch, Started. destruct (started e); simpl; [|intros [= <- <-]; left; split_and!; [done..|by left]].
  case_bool_decide; [intros [= <- <-]; left; split_and!; [done..|right; by left]|].
  destruct (command.payload env) as [[t| |m]|];
    [intros [= <- <-]; left; split_and!; [done..|right; right; left; intros p [= <-]; eauto]| | |
     intros [= <- <-]; left; split_and!; [done..|right; right; by left]];
    (intros [(-> & ? & ?)|(ctx' & t' & reply & ? & ? & ?)]%dispatchCommand_cases; [left; auto 6|right; eexists _, ctx', t', reply; by split_and!]).
Qed.

(** C22: A command dispatched with a timeout of at most the largest duration,
    on a clock that does not go back, with metadata of the constructors,
    reaches the entity with exactly what its sender declared, or not at all.
    When it is handed over, the entity reads the very metadata of the envelope,
    its gates stay open exactly as long as the timeout, the metadata deadline
    and the caller's own context allow, the context carries the very tenant the
    resolver answered for this call (the caller's own in legacy mode), and the
    sender waits no longer than its timeout. When it is not, no message was
    sent and no success is reported. *)
Theorem command_reaches_entity clock e s ctx id env timeout r s' :
  (forall i j, (i <= j)%nat -> (clock i <= clock j)%Z) -> command.wf_metadata (command.metadata env) -> (timeout <= maxDuration)%Z ->
  Dispatch clock e s ctx id env timeout = (r, s') ->
  (s' = s /\ not_run r) \/
  exists payload ctx' timeout' reply, command.payload env = Some payload /\ (forall t, payload <> goakt.TenantBindingQuery t) /\
    goakt.SendSync s ctx' id payload timeout' = (reply, s') /\ r = reported (command.metadata env) reply /\
    (forall now, protocol.MetadataFromContext parse_time range now ctx' = Some (command.metadata env)) /\
    (forall t stage, protocol.CheckDeadline t ctx' stage = None <->
       (t < clock 2%nat + timeout)%Z /\ (command.hasDeadline (command.metadata env) = true -> t < command.deadline (command.metadata env))%Z /\
       protocol.ctx_err t ctx = None) /\
    match tenantResolver e with
    | None => ctx_tenant ctx' = ctx_tenant ctx
    | Some rv => exists tc, Resolve rv (WithDeadline ctx (effectiveDeadline (clock 2%nat) timeout (command.metadata env) ctx)) = Ok tc /\
        ctx_tenant ctx' = Some tc /\ valid tc = true
    end /\ (timeout' <= timeout)%Z.
Proof.
  intros Hclock Hwf Hmax Hd. apply dispatch_cases in Hd as [(-> & ? & _)|(p & ctx' & t' & reply & Hp & Hq & Hs & Hr & Hh)]; [by left|right].
  exists p, ctx', t', reply. destruct (handed_bounded _ _ _ _ _ _ _ Hh) as [d Hd].
  destruct (handed_deadline _ _ _ _ _ _ _ Hh _ Hd) as (-> & Hlt & ->). split_and!; [done..| | | |].
  - intros now. unfold protocol.MetadataFromContext, protocol.CarrierFromContext. rewrite (handed_carrier _ _ _ _ _ _ _ Hh).
    by rewrite command.carrier_roundtrip_lemma.
  - intros t stage. rewrite gate_open, !ctx_live, (handed_canceled _ _ _ _ _ _ _ Hh), Hd.
    pose proof (effective_min (clock 2%nat) timeout (command.metadata env) ctx t). naive_solver.
  - pose proof (handed_tenant _ _ _ _ _ _ _ Hh) as Ht. destruct (tenantResolver e); naive_solver.
  - pose proof (Hclock 2%nat 4%nat ltac:(lia)). pose proof (Hclock 3%nat 4%nat ltac:(lia)).
    pose proof (effective_min (clock 2%nat) timeout (command.metadata env) ctx (clock 3%nat)) as [Hle _].
    assert (effectiveDeadline (clock 2%nat) timeout (command.metadata env) ctx <= clock 2%nat + timeout)%Z.
    { apply Z.le_ngt. intros Hgt. apply effective_min in Hgt. lia. }
    apply Hle in Hlt. unfold until, minDuration, maxDuration in *. pose proof (Hclock 2%nat 3%nat ltac:(lia)). lia.
Qed.

(** An error reply is never read as a success. *)
Lemma error_reply_is_error md m x : protocol.ResultFromReply UnmarshalNew print_tbl (CommandReply_ErrorReply m) md = Ok x ->
  exists err, resultToLegacy x = Err err.
Proof.
  unfold protocol.ResultFromReply. set (m' := if bool_decide _ then _ else _). clearbody m'.
  unfold protocol.ClassifyErrorReply. destruct (List.find _ _) as [entry|] eqn:Hf.
  - apply find_some in Hf as [Hin _]. destruct Hin as [<-|[<-|[<-|[]]]]; simpl;
      unfold protocol.buildCanceledResult, protocol.buildTimedOutResult, protocol.buildConcurrencyConflictResult, command.NewFailure;
      case_bool_decide; simpl; try done; intros [= <-]; by eexists.
  - unfold command.NewFailure. case_bool_decide; simpl; [done|]. intros [= <-]. by eexists.
Qed.

(** The success of [SendCommand] is the entity's: the state and revision it
    returns are those of a state reply to this very command. *)
Theorem send_command_faithful now op clock e s ctx id cmd timeout st rev s' :
  SendCommand now op clock e s ctx id cmd timeout = (Ok (st, rev), s') ->
  exists payload ctx' timeout' reply m, cmd = Some payload /\
    goakt.SendSync s ctx' id payload timeout' = (Ok (goakt.RCommandReply (CommandReply_StateReply reply)), s') /\
    UnmarshalNew (rState reply) = Ok m /\ st = Some m /\ rev = rSequenceNumber reply.
Proof.
  unfold engine.SendCommand. destruct (deriveMetadata _ _ _ _ _) as [md|]; simpl; [|done].
  destruct cmd as [p|]; simpl; [|done]. destruct (engine.Dispatch _ _ _ _ _ _ _ _ _ _ _ _) as [[x|] s1] eqn:Hd; [|done].
  intros [= Hx <-]. apply dispatch_cases in Hd as [(_ & Hn & _)|(p' & ctx' & t' & reply & Hp & _ & Hs & Hr & _)].
  { exfalso. unfold resultToLegacy, command.ResultErr in Hx. destruct (Hn x eq_refl) as [Ho|Ho]; rewrite Ho in Hx; done. }
  injection Hp as <-. simpl in Hr.
  exists p, ctx', t'. unfold reported, classifySendError, canceled, timed_out, command.NewFailure in Hr.
  destruct reply as [[[r|m|]| |]|err].
  - unfold protocol.ResultFromReply in Hr. destruct (UnmarshalNew (rState r)) as [m|] eqn:Hm; [|done].
    injection Hr as ->. injection Hx as <- <-. exists r, m. done.
  - exfalso. destruct (protocol.ResultFromReply _ _ _ _) as [x'|] eqn:Hx' in Hr; [|done]. injection Hr as ->.
    apply error_reply_is_error in Hx' as [err' Herr']. congruence.
  - done.
  - done.
  - done.
  - exfalso. simpl in Hr. destruct (goakt.Is err goakt.ContextCanceled); simpl in Hr; [injection Hr as ->; done|].
    destruct (_ || _); [injection Hr as ->|]; done.
Qed.
End Commands.

(** ** Spawns *)
Section Spawns.
Context {msg Sys : Type} {ASys : goakt.ActorSystem msg Sys} {ALaws : goakt.ActorSystemLaws msg Sys}.

Inductive spawn_call := SpawnEventSourced | SpawnDurableState | SpawnSaga (timeout : Z).

Definition spawn (k : spawn_call) (e : Engine) (s : Sys) (ctx : Context) (b : Behavior) (opts : list (option runtime.SpawnOption)) :
    option (option error * Sys) :=
  match k with
  | SpawnEventSourced => spawnEventSourced e s ctx b opts
  | SpawnDurableState => spawnDurableState e s ctx b opts
  | SpawnSaga timeout => spawnSaga e s ctx b timeout opts
  end.

(** The tenant a spawn declares: the one of its options, else the fixed
    tenant of the resolver. *)
Definition declared (e : Engine) (opts : list (option runtime.SpawnOption)) : option string :=
  c ← engine_config.newSpawnConfig opts;
  if bool_decide (engine_config.tenantID c = "")
  then match FixedTenantOf (tenantResolver e) with (t, true) => Some t | _ => None end
  else Some (engine_config.tenantID c).

Lemma spawnTenantScope_declared e c opts r : tenantResolver e = Some r -> engine_config.newSpawnConfig opts = Some c ->
  spawnTenantScope e c = match declared e opts with Some t => Ok (Some t) | None => Err ErrSpawnTenantUndetermined end.
Proof.
  intros Hr Hc. unfold spawnTenantScope, declared. rewrite Hc, Hr. simpl. case_bool_decide as H; simpl; [|done].
  by destruct (FixedTenantOf (Some r)) as [t []].
Qed.

(** A verified process is bound to the requested tenant. *)
Lemma answer_matches aware sc t : classifyTenantBinding t (protocol.AnswerTenantBinding aware sc t) = None ->
  aware = true /\ sc = mkScope scopeTenant t /\ NewTenantID t = Ok t.
Proof.
  unfold classifyTenantBinding, protocol.AnswerTenantBinding, NewTenantContext.
  destruct (NewTenantID t) as [id|] eqn:Hid; simpl; [|done]. destruct (NewTenantID_Ok _ _ Hid) as [-> _].
  destruct aware; simpl; [|done]. destruct (Valid sc) eqn:Hv; simpl; [|done]. destruct (IsUnscoped sc) eqn:Hu; simpl; [done|].
  destruct (NewTenantScope t) as [q|] eqn:Hq; simpl; [|done].
  destruct (Equal sc q) eqn:Heq; simpl; [|done]. intros _. apply NewTenantScope_wf in Hq as [_ ->].
  split_and!; [done| |done]. destruct sc as [k i]. unfold Equal in Heq. simpl in Heq.
  destruct k; simpl in *; try done. by case_bool_decide; subst.
Qed.

(** Actors that run in the first system still run, with the same binding. *)
Definition keeps (s s' : Sys) : Prop := forall n x, goakt.binding s n = Some x -> goakt.binding s' n = Some x.
#[local] Instance keeps_preorder : PreOrder keeps.
Proof. split; [by intros s n x|]. intros s1 s2 s3 H1 H2 n x Hx. by apply H2, H1. Qed.

Lemma inject_keeps s deps : keeps s (goakt.Inject s deps).2.
Proof. intros n x Hx. by rewrite goakt.inject_binding. Qed.

Definition bound (s : Sys) (n t : string) : Prop := NewTenantID t = Ok t /\ goakt.binding s n = Some (true, mkScope scopeTenant t).

Lemma verify_bound s ctx n t r s' : verifySpawnedTenant s ctx n (Some t) = (r, s') -> keeps s s' /\ (r = None -> bound s' n t).
Proof.
  unfold verifySpawnedTenant. destruct (goakt.Ask _ _ _ _ _) as [a s1] eqn:Ha.
  assert (keeps s s1) as Hk. { intros m x Hx. change s1 with (a, s1).2. rewrite <- Ha. by rewrite goakt.query_keeps. }
  destruct a as [[r'|a|]|err]; intros [= <- <-]; (split; [done|]); try done.
  intros Hc. destruct (goakt.query_answered _ _ _ _ _ _ _ Ha) as (aware & sc & Hb & ->).
  apply answer_matches in Hc as (-> & -> & Hid). done.
Qed.

Lemma existing_bound s ctx n t err same r s' : resolveExistingSpawn s ctx n (Some t) err = (same, r, s') ->
  keeps s s' /\ (r = None -> same = false /\ bound s' n t).
Proof.
  unfold resolveExistingSpawn. destruct (negb _); [by intros [= <- <- <-]|].
  destruct (goakt.ActorOf _ _ _) as [p|] eqn:Hp; [|by intros [= <- <- <-]]. apply goakt.actor_of_named in Hp as ->.
  destruct (verifySpawnedTenant _ _ _ _) as [r1 s1] eqn:Hv. intros [= <- <- <-]. apply verify_bound in Hv as [Hk Hb].
  split; [done|]. intros ->. auto.
Qed.

Lemma spawnDependency_keeps s b d s' : engine_config.spawnDependency s b = (d, s') -> keeps s s'.
Proof.
  unfold engine_config.spawnDependency. repeat case_match; intros [= <- <-]; try done. apply inject_keeps.
Qed.

Lemma inject_scope_keeps s t deps s' : inject_scope s t = (deps, s') -> keeps s s'.
Proof. destruct t; intros [= <- <-]; [apply inject_keeps|done]. Qed.

(** What is left of a spawn once the system was asked for the actor. *)
Definition spawned (s : Sys) (n t : string) (r : option error) (s' : Sys) : Prop := keeps s s' /\ (r = None -> bound s' n t).

Lemma spawned_after s s1 n t r s' : keeps s s1 -> spawned s1 n t r s' -> spawned s n t r s'.
Proof. intros Hk [Hk' Hb]. split; [by etrans|done]. Qed.

Lemma spawn_on_spawned s ctx n t k opts r s' :
  match goakt.SpawnOn s ctx n k opts with
  | (Err err, s) => let '(_, r, s) := resolveExistingSpawn s ctx n (Some t) err in (r, s)
  | (Ok pid, s) => verifySpawnedTenant s ctx pid (Some t)
  end = (r, s') -> spawned s n t r s'.
Proof.
  destruct (goakt.SpawnOn _ _ _ _ _) as [[p|err] s1] eqn:Hs.
  - pose proof (goakt.spawn_on_named _ _ _ _ _ _ _ Hs) as ->. intros Hv%verify_bound. eapply spawned_after; [|exact Hv].
    intros m x Hx. change s1 with ((Ok n : result goakt.Error string, s1).2). rewrite <- Hs. by apply goakt.spawn_on_keeps.
  - destruct (resolveExistingSpawn _ _ _ _ _) as [[same r1] s2] eqn:He. intros [= <- <-]. apply existing_bound in He as [Hk Hb].
    apply (spawned_after _ s1); [|split; [done|intros Hn; apply (Hb Hn)]].
    intros m x Hx. change s1 with ((Err err : result goakt.Error string, s1).2). rewrite <- Hs. by apply goakt.spawn_on_keeps.
Qed.

Lemma spawn_saga_spawned s ctx n t k opts w r s' :
  match goakt.Spawn s ctx n k opts with
  | (Err err, s) =>
    let '(same, r, s) := resolveExistingSpawn s ctx n (Some t) err in
    if same : bool then (Some (EWrap w (EGoakt err)), s) else (r, s)
  | (Ok pid, s) => verifySpawnedTenant s ctx pid (Some t)
  end = (r, s') -> spawned s n t r s'.
Proof.
  destruct (goakt.Spawn _ _ _ _ _) as [[p|err] s1] eqn:Hs.
  - pose proof (goakt.spawn_named _ _ _ _ _ _ _ Hs) as ->. intros Hv%verify_bound. eapply spawned_after; [|exact Hv].
    intros m x Hx. change s1 with ((Ok n : result goakt.Error string, s1).2). rewrite <- Hs. by apply goakt.spawn_keeps.
  - destruct (resolveExistingSpawn _ _ _ _ _) as [[same r1] s2] eqn:He. apply existing_bound in He as [Hk Hb]. intros Heq.
    apply (spawned_after _ s1).
    { intros m x Hx. change s1 with ((Err err : result goakt.Error string, s1).2). rewrite <- Hs. by apply goakt.spawn_keeps. }
    destruct same; injection Heq as <- <-; (split; [done|]); [done|]. intros Hn. apply (Hb Hn).
Qed.

Lemma spawn_spawned k e s ctx b opts r s' resolver :
  tenantResolver e = Some resolver -> spawn k e s ctx b opts = Some (r, s') ->
  keeps s s' /\ (r = None -> exists t, declared e opts = Some t /\ bound s' (b_id b) t).
Proof.
  intros Hr. destruct k; simpl; unfold spawnEventSourced, spawnDurableState, spawnSaga.
  all: destruct (Started e); simpl; [|by intros [= <- <-]].
  all: destruct (requireFamily _ _); [by intros [= <- <-]|].
  all: destruct (attached e); simpl; [|by intros [= <- <-]].
  all: match goal with |- (if negb ?c then _ else _) = _ -> _ => destruct c end; simpl; [|by intros [= <- <-]].
  all: destruct (engine_config.spawnDependency s b) as [[d|err] s1] eqn:Hd; apply spawnDependency_keeps in Hd; [|by intros [= <- <-]].
  all: destruct (engine_config.newSpawnConfig opts) as [c|] eqn:Hc; [|by intros ?]; cbn [mbind option_bind].
  all: rewrite (spawnTenantScope_declared _ _ _ _ Hr Hc); destruct (declared e opts) as [t|]; [|by intros [= <- <-]].
  all: cbn [inject_scope]; intros Heq; injection Heq as Heq.
  all: first [apply spawn_on_spawned in Heq|apply spawn_saga_spawned in Heq]; destruct Heq as [Hk Hb].
  all: split; [|eauto]; intros n x Hx; apply Hk; rewrite !goakt.inject_binding; by apply Hd.
Qed.

(** C21: In tenant-aware mode a spawn that reports success, of any kind and
    whatever was running before, leaves under the id an actor bound to the
    tenant the spawn declared; without a declared tenant, or when the id is
    live for another tenant, it reports an error. Either way no running actor
    changes its binding. *)
Theorem spawn_binds_tenant k e s ctx b opts r s' resolver :
  tenantResolver e = Some resolver -> spawn k e s ctx b opts = Some (r, s') ->
  (forall n x, goakt.binding s n = Some x -> goakt.binding s' n = Some x) /\
  (r = None -> exists t, declared e opts = Some t /\ NewTenantID t = Ok t /\ goakt.binding s' (b_id b) = Some (true, mkScope scopeTenant t)) /\
  (declared e opts = None -> r <> None) /\
  (forall aware sc, goakt.binding s (b_id b) = Some (aware, sc) ->
     (forall t, declared e opts = Some t -> (aware, sc) <> (true, mkScope scopeTenant t)) -> r <> None).
Proof.
  intros Hr Hs. destruct (spawn_spawned _ _ _ _ _ _ _ _ _ Hr Hs) as [Hk Hb]. split_and!; [exact Hk| | |].
  - intros Hn. destruct (Hb Hn) as (t & Ht & Hid & Hbind). eauto.
  - intros Hnone Hn. destruct (Hb Hn) as (t & Ht & _). congruence.
  - intros aware sc Hbind Hne Hn. destruct (Hb Hn) as (t & Ht & _ & Hbind'). apply (Hne t Ht).
    apply Hk in Hbind. congruence.
Qed.
End Spawns.
End engine_spec.
