(* ===== verification/EngineLifecycleSpec.v ===== *)
(** * Erasure, publishers, lag and shutdown

    What [EraseEntity] leaves behind, that a publisher is offered the records
    published on its topic in order and once each, that publishers are
    registered all or none, what the lag of a projection means, and that a
    stopped engine has closed everything and refuses everything. *)

From S2P Require Import Prelude GoStrings Tenancy Persistence Egopb StoreApi Command Protocol EventSourced Saga Queue QueueSpec Stream StreamSpec Delivery Lifecycle ActorSystem EngineConfig Engine.
From Stdlib Require Import ZArith Lia.
Open Scope string_scope.
Open Scope list_scope.

Module engine_lifecycle_spec.
Import persistence egopb tenancy extensions engine.

(** ** Erasure *)
Section Erase.
Context {St Sn : Type} `{api.EventsStoreLaws St} `{api.SnapshotStoreLaws Sn}.

Lemma erasureScope_Ok e ctx sc : erasureScope e ctx = Ok sc -> wf_scope sc /\
  match tenantResolver e with
  | None => sc = Unscoped
  | Some r => exists tc t, Resolve r ctx = Ok tc /\ Tenant tc = (t, true) /\ sc = mkScope scopeTenant t
  end.
Proof.
  unfold erasureScope. destruct (tenantResolver e) as [r|]; [|intros [= <-]; split; [constructor|done]].
  destruct (Resolve r ctx) as [tc|]; simpl; [|done]. destruct (Tenant tc) as [t []] eqn:Ht; [|done].
  destruct (NewTenantScope t) as [sc'|] eqn:Hsc; simpl; [|done]. intros [= <-]. apply NewTenantScope_wf in Hsc as [Hwf ->]. eauto 6.
Qed.

Lemma truncate_all s ev : (forall n ev', api.records s !! n = Some ev' -> SequenceNumber ev' = n) ->
  (forall n ev', api.records s !! n = Some ev' -> (SequenceNumber ev' <= SequenceNumber ev)%N) ->
  api.records (api.truncate s (SequenceNumber ev)) = ∅.
Proof.
  intros Hn Hle. simpl. apply map_eq. intros n. rewrite lookup_empty, map_lookup_filter.
  destruct (api.records s !! n) as [ev'|] eqn:Hl; simpl; [|done]. specialize (Hn _ _ Hl). specialize (Hle _ _ Hl).
  rewrite option_guard_False; [done|]. simpl. lia.
Qed.

(** C35: A full erasure of an entity that has events in the journal, once it
    reports success: it acted on the caller's own scope only (the tenant the
    resolver gave, or the unscoped records in legacy mode); no event of the
    entity is left, and no snapshot up to its last event, so none at all when
    no snapshot is newer than the last event; every other entity and every
    other scope is as before. (An entity whose events retention has removed is
    not covered: its snapshots stay, see [erasure_keeps_snapshot].) *)
Theorem erasure_removes_history e (st st' : St) (sn sn' : Sn) ctx pid sc last :
  api.store_ok st -> api.snap_ok sn -> erasureScope e ctx = Ok sc -> api.GetLatestEvent st sc pid = Ok (Some last) ->
  EraseEntity e (Some st) (Some sn) ctx pid true = Some (None, Some st', Some sn') ->
  match tenantResolver e with
  | None => sc = Unscoped
  | Some r => exists tc t, Resolve r ctx = Ok tc /\ Tenant tc = (t, true) /\ sc = mkScope scopeTenant t
  end /\
  (forall sc' pid', (sc', pid') <> (sc, pid) ->
     api.view st' sc' pid' = api.view st sc' pid' /\ api.sview sn' sc' pid' = api.sview sn sc' pid') /\
  api.records (default api.noStream (api.view st' sc pid)) = ∅ /\
  (forall n s, api.sview sn' sc pid !! n = Some s -> api.sview sn sc pid !! n = Some s /\ (SequenceNumber last < n)%N) /\
  ((forall n s, api.sview sn sc pid !! n = Some s -> (n <= SequenceNumber last)%N) -> api.sview sn' sc pid = ∅).
Proof.
  intros Hst Hsn Hsc Hl. unfold EraseEntity. destruct (Started e); [|done]. simpl. rewrite Hsc, Hl.
  destruct (erasureScope_Ok _ _ _ Hsc) as [Hwf Hscope]. pose proof (api.latest_ok _ _ _ _ Hst Hl) as Hlatest.
  destruct (api.DeleteEvents _ _ _ _) as [[[]|] st1] eqn:Hd; [|done]. destruct (api.DeleteSnapshots _ _ _ _) as [[[]|] sn1] eqn:Hs; [|done].
  intros [= <- <-]. apply api.delete_ok in Hd as (_ & _ & Hv); [|done]. apply api.sdelete_ok in Hs as (_ & Hsv); [|done..].
  assert (forall n s, api.sview sn1 sc pid !! n = Some s -> api.sview sn sc pid !! n = Some s /\ (SequenceNumber last < n)%N) as Hleft.
  { intros n s. rewrite Hsv, decide_True by done. rewrite map_lookup_filter_Some. tauto. }
  split_and!; [done| | |exact Hleft|].
  - intros sc' pid' Hne. rewrite Hv, Hsv, !decide_False by (intros [-> ->]; done). done.
  - rewrite Hv, decide_True by done. destruct (api.view st sc pid) as [s|] eqn:Hview; [|done]. cbn [fmap option_fmap option_map default].
    destruct Hlatest as [_ Hle]. apply truncate_all; [|exact Hle]. intros n ev' Hn. by apply (api.view_ok st sc pid s Hst Hview) in Hn as [? _].
  - intros Hold. apply map_eq. intros n. rewrite lookup_empty. destruct (api.sview sn1 sc pid !! n) as [s|] eqn:E; [|done].
    apply Hleft in E as [E Hlt]. apply Hold in E. lia.
Qed.
End Erase.

(** ** Registering publishers *)
Definition times (id : string) (ids : list string) : nat := length (filter (fun i => i = id) ids).

Lemma times_cons id i ids : times id (i :: ids) = ((if decide (i = id) then 1 else 0) + times id ids)%nat.
Proof. unfold times. rewrite filter_cons. by case_decide. Qed.

(** The loop reports an id once, when it is registered, was seen before or
    comes again. *)
Lemma duplicate_loop_spec registered ids : forall seen reported dups, (forall id, id ∈ reported <-> id ∈ dups) -> NoDup dups ->
  let r := duplicate_loop registered ids seen reported dups in
  NoDup r /\ forall id, id ∈ r <-> id ∈ dups \/ ((0 < times id ids)%nat /\ (registered id = true \/ id ∈ seen)) \/ (1 < times id ids)%nat.
Proof.
  induction ids as [|i ids IH]; intros seen reported dups Hrep Hnd; simpl.
  { split; [done|]. intros id. change (times id []) with 0%nat. intuition lia. }
  assert (forall reported' dups' r, (forall id, id ∈ reported' <-> id ∈ dups') -> NoDup dups' -> duplicate_loop registered ids ({[i]} ∪ seen) reported' dups' = r ->
    (forall id, id ∈ dups' <-> id ∈ dups \/ (id = i /\ (registered i = true \/ i ∈ seen))) ->
    NoDup r /\ forall id, id ∈ r <-> id ∈ dups \/ ((0 < times id (i :: ids))%nat /\ (registered id = true \/ id ∈ seen)) \/ (1 < times id (i :: ids))%nat) as Hnext.
  { intros reported' dups' r Hrep' Hnd' <- Hd. destruct (IH ({[i]} ∪ seen) reported' dups' Hrep' Hnd') as [Hnd'' Hel].
    split; [done|]. intros id. rewrite Hel, Hd, times_cons, elem_of_union, elem_of_singleton. case_decide as E; [subst id|]; intuition (lia || congruence). }
  assert (i ∉ reported -> NoDup (dups ++ [i]) /\ forall id, id ∈ {[i]} ∪ reported <-> id ∈ dups ++ [i]) as Hsnoc.
  { intros Hi. split; [|intros id; rewrite elem_of_union, elem_of_singleton, elem_of_app, list_elem_of_singleton, Hrep; tauto].
    apply NoDup_app. split_and!; [done| |apply NoDup_singleton]. intros x Hx ->%list_elem_of_singleton. by apply Hi, Hrep. }
  case_bool_decide as Hseen; simpl; [|destruct (registered i) eqn:Hreg; simpl].
  1,2: case_bool_decide as Hdone.
  - eapply Hnext; [exact Hrep|done..|]. intros id. split; [by left|]. intros [|[-> _]]; [done|by apply Hrep].
  - destruct (Hsnoc Hdone). eapply Hnext; [done..|]. intros id. rewrite elem_of_app, list_elem_of_singleton. tauto.
  - eapply Hnext; [exact Hrep|done..|]. intros id. split; [by left|]. intros [|[-> _]]; [done|by apply Hrep].
  - destruct (Hsnoc Hdone). eapply Hnext; [done..|]. intros id. rewrite elem_of_app, list_elem_of_singleton. tauto.
  - eapply Hnext; [exact Hrep|done..|]. intros id. split; [by left|]. intros [|[-> [|]]]; done.
Qed.

Section Publishers.
Context {P Q : Type} {QF : Fifo Q (eventstream.Message P)}.
Abbreviation Stream := (eventstream.EventsStream Q).
Import eventstream_spec.

Lemma times_pos id ids : (0 < times id ids)%nat <-> id ∈ ids.
Proof.
  unfold times. destruct (filter (fun i => i = id) ids) as [|x l] eqn:E; simpl.
  - split; [lia|]. intros Hin. exfalso. apply (not_elem_of_nil id). rewrite <- E. by apply list_elem_of_filter.
  - split; [intros _|lia]. assert (x ∈ filter (fun i => i = id) ids) as [-> ?]%list_elem_of_filter by (rewrite E; left). done.
Qed.

Lemma times_NoDup ids : NoDup ids <-> forall id, ~ (1 < times id ids)%nat.
Proof.
  induction ids as [|i ids IH]; [split; [intros _ id; unfold times; rewrite filter_nil; simpl; lia|intros _; constructor]|].
  rewrite NoDup_cons, IH, <- times_pos. setoid_rewrite times_cons. split.
  - intros [Hn Hd] id. specialize (Hd id). case_decide; subst; lia.
  - intros Hd. split.
    + specialize (Hd i). rewrite decide_True in Hd by done. lia.
    + intros id. specialize (Hd id). case_decide; lia.
Qed.

Lemma register_spec topic pubs : forall m (b : Stream) a, R b a -> NoDup (snd <$> pubs) -> (forall s, s ∈ snd <$> pubs -> a !! s = None) ->
  NoDup (fst <$> pubs) ->
  let '(m', b') := register topic pubs m b in
  (forall p s, (p, s) ∈ pubs -> m' !! p = Some s) /\ (forall p, p ∉ fst <$> pubs -> m' !! p = m !! p) /\
  exists a', R b' a' /\ (forall p s, (p, s) ∈ pubs -> a' !! s = Some (mkAsub true {[topic]} [])) /\ (forall s, s ∉ snd <$> pubs -> a' !! s = a !! s).
Proof.
  induction pubs as [|[p s] pubs IH]; intros m b a Hr Hnd Hfresh Hids; simpl.
  { split_and!; [by intros ??[]%not_elem_of_nil|done|]. exists a. split_and!; [done|by intros ??[]%not_elem_of_nil|done]. }
  rewrite fmap_cons, NoDup_cons in Hnd, Hids. destruct Hnd as [Hs Hnd], Hids as [Hp Hids]. simpl in Hs, Hp.
  assert (a !! s = None) as Has by (apply Hfresh; left).
  assert (eventstream.heap b !! s = None) as Hbs. { pose proof (r_subs _ _ Hr s) as Hsub. rewrite Has in Hsub. by inversion Hsub. }
  pose proof (R_subscribe elements (fun _ => reflexivity _) _ _ s topic (R_add elements (fun _ => reflexivity _) _ _ s Hr Hbs)) as Hr1. simpl in Hr1.
  specialize (IH (<[p := s]> m) _ _ Hr1 Hnd). destruct (register topic pubs _ _) as [m' b'].
  destruct IH as (Hm & Hm' & a' & Hr' & Ha & Ha'); [|done|].
  { intros s' Hs'. rewrite lookup_alter_ne, lookup_insert_ne by (intros <-; done). apply Hfresh. by right. }
  split_and!.
  - intros p' s' [[= -> ->]|Hin]%elem_of_cons; [|by apply Hm]. rewrite Hm' by done. apply lookup_insert_eq.
  - intros p' [Hne Hin]%not_elem_of_cons. rewrite Hm' by done. by rewrite lookup_insert_ne.
  - exists a'. split_and!; [done| |].
    + intros p' s' [[= -> ->]|Hin]%elem_of_cons; [|by eapply Ha]. rewrite Ha' by done.
      rewrite lookup_alter_eq, lookup_insert_eq. simpl. by rewrite union_empty_r_L.
    + intros s' [Hne Hin]%not_elem_of_cons. rewrite Ha' by done. by rewrite lookup_alter_ne, lookup_insert_ne.
Qed.

(** Publishers are added all or none. None, when an id is registered already
    or given twice, and then the error names exactly those ids, once each;
    else each has a subscriber of its own that is active, subscribed to the
    topic of events and has nothing waiting, and nobody else's changed. *)
Theorem publishers_all_or_none e (b : Stream) a pubs :
  Started e = true -> R b a -> NoDup (snd <$> pubs) -> (forall s, s ∈ snd <$> pubs -> a !! s = None) ->
  match AddEventPublishers e b pubs with
  | (Some err, e', b') => e' = e /\ b' = b /\ exists ids, err = ErrDuplicatePublisherID ids /\ ids <> [] /\ NoDup ids /\
      forall id, id ∈ ids <-> (id ∈ fst <$> pubs /\ is_Some (eventsStreams e !! id)) \/ (1 < times id (fst <$> pubs))%nat
  | (None, e', b') =>
      (forall p s, (p, s) ∈ pubs -> eventsStreams e' !! p = Some s) /\ (forall p, p ∉ fst <$> pubs -> eventsStreams e' !! p = eventsStreams e !! p) /\
      exists a', R b' a' /\ (forall p s, (p, s) ∈ pubs -> a' !! s = Some (mkAsub true {[EventsTopic]} [])) /\
        (forall s, s ∉ snd <$> pubs -> a' !! s = a !! s)
  end.
Proof.
  intros Hst Hr Hnd Hfresh. unfold AddEventPublishers. rewrite Hst. simpl. unfold duplicatePublisherIDs.
  set (registered := fun id => _). set (ids := fst <$> pubs).
  destruct (duplicate_loop_spec registered ids ∅ ∅ []) as [Hdup Hel]; [set_solver|constructor|].
  destruct (duplicate_loop registered ids ∅ ∅ []) as [|d ds].
  - assert (NoDup ids) as Hids. { apply times_NoDup. intros id Hid. apply (not_elem_of_nil id), Hel. by right; right. }
    pose proof (register_spec EventsTopic pubs (eventsStreams e) b a Hr Hnd Hfresh Hids) as Hreg.
    by destruct (register _ _ _ _) as [m' b'].
  - split_and!; [done..|]. exists (d :: ds). split_and!; [done..|]. intros id. rewrite Hel, times_pos.
    unfold registered. rewrite bool_decide_eq_true. set_solver.
Qed.

End Publishers.

(** ** The goroutine of a publisher *)
Section Sender.
Context {P R : Type} (as_record : P -> option R).

Lemma send_dinv w w' : send_step as_record w w' -> delivery.dinv as_record w.1 -> delivery.dinv as_record w'.1.
Proof. destruct 1; simpl; [by eapply delivery.goroutine_dinv|by eapply delivery.signal_dinv|by eapply delivery.shutdown_dinv|done]. Qed.

(** C34: From the moment a publisher is added, as long as publications to it do
    not overlap, and however the accesses of publishing to the queue, of the
    engine's stop and of the goroutine otherwise interleave: the publisher is
    offered the records of its kind that were published to it in the order
    they were published, each once; and whenever its goroutine waits without
    a token, no publication is under way and its subscriber is still active
    (it was neither removed nor shut down), it was offered all of them.
    (Publications that overlap can be lost by the queue.) *)
Theorem publisher_offered_in_order w stop : rtc (send_step as_record) (delivery.added, false) (w, stop) ->
  exists rest, delivery.records_of as_record (delivery.published (delivery.sub w)) = delivery.log w ++ rest /\
    (delivery.pc w = delivery.SWait -> delivery.active (delivery.sub w) = true -> delivery.notify (delivery.sub w) = false ->
     delivery.signalling (delivery.sub w) = false -> rest = []).
Proof.
  intros Hrun. apply delivery.dinv_delivered. enough (forall x y, rtc (send_step as_record) x y -> delivery.dinv as_record x.1 -> delivery.dinv as_record y.1) as H.
  { exact (H _ _ Hrun (delivery.dinv_added as_record)). }
  induction 1 as [|w1 w2 w3 Hs _ IH]; [done|]. intros H. apply IH. by eapply send_dinv.
Qed.
End Sender.

(** ** Shutdown *)
Section Stop.
Context {W P Q : Type} {QF : Fifo Q (eventstream.Message P)}.
Context (close : bool -> string -> W -> outcome (result string unit) * W).
Context (range : gmap string string -> list (string * string)) (srange : gset string -> list string).
Hypothesis range_perm : forall m, range m ≡ₚ map_to_list m.
Hypothesis srange_perm : forall s, srange s ≡ₚ elements s.
Abbreviation Stream := (eventstream.EventsStream Q).

(** Closing publishers one after the other: how many calls failed; nothing is
    closed after a call that panics. *)
Fixpoint close_all (l : list (bool * string)) (w : W) : outcome nat * W :=
  match l with
  | [] => (Ret 0%nat, w)
  | (events, p) :: l =>
    match close events p w with
    | (Panicked, w) => (Panicked, w)
    | (Ret r, w) =>
      match close_all l w with
      | (Panicked, w) => (Panicked, w)
      | (Ret n, w) => (Ret (match r with Err _ => 1 | Ok _ => 0 end + n)%nat, w)
      end
    end
  end.

Lemma close_all_app l1 : forall l2 w, close_all (l1 ++ l2) w =
  match close_all l1 w with
  | (Panicked, w) => (Panicked, w)
  | (Ret n1, w) => match close_all l2 w with (Panicked, w) => (Panicked, w) | (Ret n2, w) => (Ret (n1 + n2)%nat, w) end
  end.
Proof.
  induction l1 as [|[ev p] l1 IH]; intros l2 w; simpl; [by destruct (close_all l2 w) as [[]]|]. destruct (close ev p w) as [[r|] w1]; [|done].
  rewrite IH. destruct (close_all l1 w1) as [[n1|] w2]; [|done]. destruct (close_all l2 w2) as [[n2|] w3]; [|done]. by rewrite Nat.add_assoc.
Qed.

Abbreviation of_kind events l := ((fun p : string * string => (events, p.1)) <$> l).

Lemma stop_all_spec events l : forall d (b : Stream) a w errs, eventstream_spec.R b a ->
  let '(r, d', b', w') := stop_all close events l d b w errs in
  w' = (close_all (of_kind events l) w).2 /\
  match r with
  | Panicked => (close_all (of_kind events l) w).1 = Panicked
  | Ret errs' => (exists n, (close_all (of_kind events l) w).1 = Ret n /\ length errs' = length errs + n)%nat /\
    (forall s, s ∈ d' <-> s ∈ d \/ s ∈ l.*2) /\ exists a', eventstream_spec.R b' a'
  end.
Proof.
  induction l as [|[p s] l IH]; intros d b a w errs Hr.
  { simpl. split_and!; [done|exists 0%nat; split; [done|lia]| |by exists a]. intros s. rewrite elem_of_nil. tauto. }
  rewrite !fmap_cons. cbn [stop_all close_all fst].
  assert (eventstream_spec.R (eventstream.on_sub b s eventstream.Shutdown) (alter eventstream_spec.ashut s a)) as Hr1.
  { apply eventstream_spec.R_alter; [done| |done]. intros x y (_ & Ht & Hq). split_and!; [done|exact Ht|exact Hq]. }
  destruct (close events p w) as [[[u|m]|] w1]; [| |done];
    [specialize (IH ({[s]} ∪ d) _ _ w1 errs Hr1)
    |match goal with |- context [stop_all _ _ _ _ _ _ ?errs1] => specialize (IH ({[s]} ∪ d) _ _ w1 errs1 Hr1) end];
    (destruct (stop_all _ _ _ _ _ _ _) as [[[[errs'|] d'] b'] w']; destruct IH as [-> IH];
     [destruct IH as ((n & Hn & Hlen) & Hd & Ha)|];
     destruct (close_all (of_kind events l) w1) as [[n1|] w2]; simpl in *; try done; injection Hn as <-;
     (split_and!; [done| | |exact Ha];
      [eexists; split; [reflexivity|rewrite Hlen, ?length_app; simpl; lia]|intros s'; rewrite Hd, elem_of_cons; set_solver])).
Qed.

(** [Stop] attempts every step as long as no [Close] panics: each publisher of
    either kind is closed, once and in turn, even when others fail, and each
    failure is reported; every goroutine is told to return and every
    subscriber of the stream is shut down. The engine it leaves refuses
    everything and cannot be started again. *)
Theorem stop_closes_everything e (b : Stream) a w errs e' b' w' :
  Started e = true -> eventstream_spec.R b a -> Stop close range srange e b w = (Ret errs, e', b', w') ->
  (Ret (length errs), w') = close_all (of_kind true (range (eventsStreams e)) ++ of_kind false (range (statesStreams e))) w /\
  (forall p s, eventsStreams e !! p = Some s \/ statesStreams e !! p = Some s -> s ∈ engine.done e') /\
  (exists a', eventstream_spec.R b' a' /\ forall id y, a' !! id = Some y -> eventstream_spec.a_active y = false) /\
  Started e' = false /\ forall stores (w1 : W), Start e' stores w1 = (Ret (Some ErrActorSystemRequired), e', w1).
Proof.
  intros Hst Hr. unfold Stop. rewrite Hst. simpl.
  pose proof (stop_all_spec true (range (eventsStreams e)) (engine.done e) b a w [] Hr) as H1.
  destruct (stop_all close true _ _ _ _ _) as [[[[errs1|] d1] b1] w1]; [|done]. destruct H1 as (Hw1 & (n1 & Hn1 & Hl1) & Hd1 & a1 & Hr1).
  pose proof (stop_all_spec false (range (statesStreams e)) d1 b1 a1 w1 errs1 Hr1) as H2.
  destruct (stop_all close false _ _ _ _ _) as [[[[errs2|] d2] b2] w2]; [|done]. destruct H2 as (Hw2 & (n2 & Hn2 & Hl2) & Hd2 & a2 & Hr2).
  intros [= <- <- <- <-]. split_and!; [| | |done|done].
  - rewrite close_all_app. destruct (close_all _ w) as [r1 w1']. simpl in *. subst r1 w1'.
    destruct (close_all _ w1) as [r2 w2']. simpl in *. subst r2 w2'. do 2 f_equal. lia.
  - intros p s Hin. simpl. rewrite Hd2, Hd1.
    assert (forall m, m !! p = Some s -> s ∈ (range m).*2) as Hrange.
    { intros m Hm. rewrite range_perm. apply list_elem_of_fmap. exists (p, s). split; [done|]. by apply elem_of_map_to_list. }
    destruct Hin; auto.
  - exists (eventstream_spec.ashut <$> a2). split; [by apply eventstream_spec.R_close|].
    intros id y. rewrite lookup_fmap. destruct (a2 !! id); simpl; [|done]. by intros [= <-].
Qed.
End Stop.

(** ** Projection lag *)
Section Lag.
Context {Os : Type} `{OffsetStore Os}.

Lemma lags_spec os name shards : forall m r, lags os name shards m = Ok r -> NoDup shards.*1 ->
  (forall shard latest, (shard, latest) ∈ shards -> exists off, GetCurrentOffset os name shard = Ok off /\ r !! shard = Some (shard_lag latest off)) /\
  (forall shard, shard ∉ shards.*1 -> r !! shard = m !! shard).
Proof.
  induction shards as [|[sh latest] shards IH]; intros m r; simpl.
  { intros [= <-] _. split; [by intros ??[]%not_elem_of_nil|done]. }
  destruct (GetCurrentOffset os name sh) as [off|] eqn:Hoff; simpl; [|done]. intros Hl [Hn Hnd]%NoDup_cons.
  destruct (IH _ _ Hl Hnd) as [Hin Hout]. split.
  - intros s' l' [[= -> ->]|Hel]%elem_of_cons; [|by apply Hin]. exists off. split; [done|]. rewrite Hout by done. apply lookup_insert_eq.
  - intros s' [Hne Hnin]%not_elem_of_cons. rewrite Hout by done. by rewrite lookup_insert_ne.
Qed.

Definition is_int64 (z : Z) : Prop := (-9223372036854775808 <= z < 9223372036854775808)%Z.

Lemma int64_id z : is_int64 z -> int64 z = z.
Proof. unfold is_int64, int64. intros Hz. rewrite Z.mod_small; lia. Qed.

(** The lag of a projection: every shard of the journal has one, no other
    has; it is the time by which the committed offset trails the newest event
    of the shard, never negative, and zero exactly when the offset has
    reached it (for timestamps and offsets whose difference fits an int64). *)
Theorem lag_is_distance e os offsets range name m :
  (forall o, range o ≡ₚ map_to_list o) ->
  ProjectionLag e (Some os) (Ok offsets) range name = Ok m ->
  (forall shard, offsets !! shard = None -> m !! shard = None) /\
  forall shard latest, offsets !! shard = Some latest -> exists off, GetCurrentOffset os name shard = Ok off /\
    let committed := match off with Some o => OffsetValue o | None => 0%Z end in
    is_int64 (latest - committed) ->
    m !! shard = Some (Z.max 0 (latest - committed)) /\ (m !! shard = Some 0%Z <-> (latest <= committed)%Z).
Proof.
  intros Hrange. unfold ProjectionLag. destruct (Started e); simpl; [|done]. intros Hl.
  assert (NoDup (range offsets).*1) as Hnd by (rewrite Hrange; apply NoDup_fst_map_to_list).
  destruct (lags_spec _ _ _ _ _ Hl Hnd) as [Hin Hout]. split.
  - intros shard Hnone. rewrite Hout; [apply lookup_empty|]. rewrite Hrange.
    intros ([? latest] & Heq & Hel)%list_elem_of_fmap. simpl in Heq. subst. apply elem_of_map_to_list in Hel. congruence.
  - intros shard latest Hsome. destruct (Hin shard latest) as (off & Hoff & Hm). { rewrite Hrange. by apply elem_of_map_to_list. }
    exists off. split; [done|]. cbv zeta. set (committed := match off with Some o => OffsetValue o | None => 0%Z end). intros Hfit.
    rewrite Hm. unfold shard_lag. fold committed. rewrite int64_id by done.
    assert ((if (latest - committed <? 0)%Z then 0%Z else (latest - committed)%Z) = Z.max 0 (latest - committed)) as ->.
    { destruct (Z.ltb_spec (latest - committed) 0); lia. }
    split; [done|]. split; [intros [= ?]; lia|intros; f_equal; lia].
Qed.
End Lag.
End engine_lifecycle_spec.
