(* ===== verification/EngineSystem.v ===== *)
(** * From the caller to the store

    A dispatched command is followed from the caller through a durable-state
    entity to the store, on any actor system that hosts such entities
    ([Hosts]): one that lets an actor handle its messages one at a time and
    gives a caller the actor's reply or an error. Between the call and the
    answer the entity may handle any other messages, stop, crash and start
    again, other entities may write to the store, and the caller may be told
    of a timeout although its command is, or will be, handled.

    [local]: one such system, a single node, to run the theorems on. *)

From S2P Require Import Prelude GoStrings Tenancy Persistence Egopb StoreApi StateStores Command Protocol EventSourced Saga DurableState DurableStateSpec Stream ActorSystem EngineConfig Engine EngineSpec.
From Stdlib Require Import ZArith Lia.
Open Scope string_scope.
Open Scope list_scope.
Open Scope urd_scope.

Module engine_system.
Import persistence egopb tenancy extensions engine.

(** ** The life of an entity

    What happens to the entity of configuration [c], bound to the tenant [tc],
    and to its store: [None] while no actor runs. The list has the messages
    that were handled, with their instants and replies. *)
Section Life.
Context {D : durablestate.Deps} {St : Type} {SO : api.StateStore St} {SL : api.StateStoreLaws St}.
Import durablestate_spec.

Definition exchange : Type := durablestate.message D * durablestate.Times * durablestate.response.

Inductive served (c : durablestate.Config) (tc : TenantContext) :
    option (durablestate.Actor D) -> St -> list exchange -> option (durablestate.Actor D) -> St -> Prop :=
| served_now o st : served c tc o st [] o st
| served_message a st m T a' st' r pub l o2 st2 : durablestate.Receive D a st m T = (a', st', r, pub) ->
    served c tc (Some a') st' l o2 st2 -> served c tc (Some a) st ((m, T, r) :: l) o2 st2
(** another entity writes to the store *)
| served_elsewhere o st st' l o2 st2 : record st' c = record st c -> served c tc o st' l o2 st2 -> served c tc o st l o2 st2
| served_stop a st ping l o2 st2 : served c tc None (durablestate.PostStop D a st ping).1.1 l o2 st2 -> served c tc (Some a) st l o2 st2
| served_crash a st l o2 st2 : served c tc None st l o2 st2 -> served c tc (Some a) st l o2 st2
| served_start st b l o2 st2 : durablestate.recoverFromStore D (fresh c tc) st = Ok b -> served c tc (Some b) st l o2 st2 -> served c tc None st l o2 st2.

(** A command of that life, and what was before and after it. *)
Lemma served_split c tc o st l1 m T r l2 o2 st2 : served c tc o st (l1 ++ (m, T, r) :: l2) o2 st2 ->
  exists a sa b sb pub, served c tc o st l1 (Some a) sa /\ durablestate.Receive D a sa m T = (b, sb, r, pub) /\ served c tc (Some b) sb l2 o2 st2.
Proof.
  intros H. remember (l1 ++ (m, T, r) :: l2) as l eqn:E. revert l1 E.
  induction H as [o st|a st m' T' a' st' r' pub l o2 st2 Hr H IH|o st st' l o2 st2 Hrec H IH|a st ping l o2 st2 H IH|a st l o2 st2 H IH|st b l o2 st2 Hb H IH]; intros l1 E.
  - by destruct l1.
  - destruct l1 as [|x l1].
    + injection E as <- <- <- <-. exists a, st, a', st', pub. split_and!; [constructor|done|done].
    + injection E as <- ->. destruct (IH l1 eq_refl) as (a1 & sa & b & sb & pub' & H1 & H2 & H3). exists a1, sa, b, sb, pub'. split_and!; [by econstructor|done|done].
  - destruct (IH l1 E) as (a1 & sa & b & sb & pub' & H1 & H2 & H3). exists a1, sa, b, sb, pub'. split_and!; [by eapply served_elsewhere|done|done].
  - destruct (IH l1 E) as (a1 & sa & b & sb & pub' & H1 & H2 & H3). exists a1, sa, b, sb, pub'. split_and!; [by eapply served_stop|done|done].
  - destruct (IH l1 E) as (a1 & sa & b & sb & pub' & H1 & H2 & H3). exists a1, sa, b, sb, pub'. split_and!; [by eapply served_crash|done|done].
  - destruct (IH l1 E) as (a1 & sa & b' & sb & pub' & H1 & H2 & H3). exists a1, sa, b', sb, pub'. split_and!; [by eapply served_start|done|done].
Qed.

(** The entity, running or not, and its record agree on version [v]. *)
Definition in_step (c : durablestate.Config) (tc : TenantContext) (v : N) (o : option (durablestate.Actor D)) (st : St) : Prop :=
  match o with
  | Some a => in_sync c tc a st /\ durablestate.currentVersion D a = v
  | None => exists s, restores (D := D) c tc (record st c) s v
  end.

Context {LD : LawfulDeps D}.

Lemma in_step_elsewhere c tc v o st st' : record st' c = record st c -> in_step c tc v o st -> in_step c tc v o st'.
Proof. intros Hr. destruct o as [a|]; simpl; [|by rewrite Hr]. intros [[? ? ? ?] ?]. split; [|done]. split; by rewrite ?Hr. Qed.

Lemma served_in_step c tc o st l o2 st2 : (durablestate.tenantAware c = true -> tenancy.wf tc) -> (forall s, exists any, durablestate.anyOfState D s = Ok any) ->
  served c tc o st l o2 st2 -> forall v, in_step c tc v o st -> (v + N.of_nat (length l) < two64)%N ->
  exists v2, in_step c tc v2 o2 st2 /\ (v2 <= v + N.of_nat (length l))%N.
Proof.
  intros Hwf Hany. induction 1 as [o st|a st m T a' st' r pub l o2 st2 Hr H IH|o st st' l o2 st2 Hrec H IH|a st ping l o2 st2 H IH|a st l o2 st2 H IH|st b l o2 st2 Hb H IH];
    intros v Hv Hroom.
  - exists v. split; [done|lia].
  - destruct Hv as [Hs <-]. simpl length in *. pose proof (Receive_in_sync c tc a st m T Hwf Hs ltac:(lia)) as Hn. rewrite Hr in Hn. destruct Hn as [Hs' Hle].
    destruct (IH (durablestate.currentVersion D a')) as (v2 & Hv2 & Hle2); [by split|lia|]. exists v2. split; [done|lia].
  - apply IH; [by eapply in_step_elsewhere|done].
  - destruct Hv as [Hs <-]. apply IH; [|done]. destruct (Hany (durablestate.currentState D a)) as [any Ha]. simpl. eexists. by eapply PostStop_restores.
  - destruct Hv as [[_ _ Hres _] <-]. apply IH; [|done]. simpl. eauto.
  - destruct Hv as [s Hres]. destruct (fresh_in_sync c tc st s v b Hwf Hres Hb) as (Hs & _ & Hver). apply IH; [|done]. by split.
Qed.
End Life.

(** ** Systems that host durable-state entities

    [hosted]: the actor that runs under a name; [spawned]: the configuration
    and the tenant it was, or would be, started with; [stored]: their store;
    [meanwhile]: what the actor handles from a request to its answer. What the
    documentation of the library says of a request: the actor handles one
    message at a time, and the caller gets the reply the actor gave to that
    request, or an error. *)
Class Hosts {D : durablestate.Deps} {St msg : Type} {SO : api.StateStore St} {SL : api.StateStoreLaws St}
    (toCmd : msg -> durablestate.Cmd D) (Sys : Type) {ASys : goakt.ActorSystem msg Sys} := {
  hosted : Sys -> string -> option (durablestate.Actor D);
  spawned : Sys -> string -> durablestate.Config * TenantContext;
  stored : Sys -> St;
  meanwhile : Sys -> Context -> string -> msg -> Z -> list (exchange (D := D));
  send_served s ctx n m timeout r s' : goakt.SendSync s ctx n (goakt.Command m) timeout = (r, s') ->
    served (spawned s n).1 (spawned s n).2 (hosted s n) (stored s) (meanwhile s ctx n m timeout) (hosted s' n) (stored s');
  send_answered s ctx n m timeout reply s' : goakt.SendSync s ctx n (goakt.Command m) timeout = (Ok reply, s') ->
    exists T cr, reply = goakt.RCommandReply cr /\ (durablestate.MCommand ctx (toCmd m), T, durablestate.RCommand cr) ∈ meanwhile s ctx n m timeout
}.

Section Local.
Context {D : durablestate.Deps} {St msg : Type} {SO : api.StateStore St} {SL : api.StateStoreLaws St}.
(** The command in a message. *)
Context (toCmd : msg -> durablestate.Cmd D).

(** ** The node *)
Record local := mkLocal {
  registry : list Extension;
  actors : gmap string (durablestate.Actor D);
  states : St;
  (** the instants of the message that is handled, and how long that takes *)
  times : durablestate.Times;
  latency : Z
}.

Definition with_actor (s : local) (n : string) (a : durablestate.Actor D) (st : St) : local :=
  mkLocal (registry s) (<[n := a]> (actors s)) st (times s) (latency s).

Definition lookup_extension (s : local) (id : string) : option Extension := List.find (fun x => bool_decide (ID x = id)) (registry s).
Definition marked (s : local) : bool := match lookup_extension s TenancyExtensionID with Some _ => true | None => false end.

Definition for_durable (d : Dependency) : durablestate.dependency :=
  match d with
  | DepBehavior _ | DepLocalBehavior _ => durablestate.DepBehavior
  | DepEntityTenantScope t => durablestate.DepEntityTenantScope t
  | _ => durablestate.DepOther
  end.
Definition dependencies (opts : list goakt.SpawnOption) : list durablestate.dependency :=
  for_durable <$> concat ((fun o => match o with goakt.WithDependencies l => l | _ => [] end) <$> opts).

Definition no_actor : goakt.Error := goakt.mkError [goakt.ErrOther] "actor not found".

Definition start (s : local) (ctx : Context) (n : string) (k : goakt.Actor) (opts : list goakt.SpawnOption) : result goakt.Error string * local :=
  match k with
  | goakt.DurableStateActor =>
    match actors s !! n with
    | Some _ => (Ok n, s)
    | None =>
      match durablestate.PreStart D n (marked s) (dependencies opts) 0 (Some (states s)) None with
      | Ok a => (Ok n, with_actor s n a (states s))
      | Err e => (Err (goakt.mkError [goakt.ErrOther] (eventsource.error_text (durablestate.print_tbl D) e)), s)
      end
    end
  | _ => (Err (goakt.mkError [goakt.ErrOther] "not hosted here"), s)
  end.

Definition to_message (ctx : Context) (m : goakt.Message msg) : durablestate.message D :=
  match m with
  | goakt.TenantBindingQuery t => durablestate.MTenantBindingQuery t
  | goakt.GetStateCommand => durablestate.MGetState ctx
  | goakt.Command c => durablestate.MCommand ctx (toCmd c)
  end.

Definition request_timeout : goakt.Error := goakt.mkError [goakt.ErrRequestTimeout] "request timed out".

(** A message is handled also when the caller no longer waits for it. *)
Definition ask (s : local) (ctx : Context) (n : string) (m : goakt.Message msg) (timeout : Z) : result goakt.Error goakt.Reply * local :=
  match actors s !! n with
  | None => (Err no_actor, s)
  | Some a =>
    let '(a', st', r, _) := durablestate.Receive D a (states s) (to_message ctx m) (times s) in
    (if (timeout <? latency s)%Z then Err request_timeout
     else Ok match r with durablestate.RCommand r => goakt.RCommandReply r | durablestate.RBinding r => goakt.RTenantBindingReply r end,
     with_actor s n a' st')
  end.

Definition kill (s : local) (ctx : Context) (n : string) : result goakt.Error unit * local :=
  match actors s !! n with
  | None => (Err no_actor, s)
  | Some a =>
    let '(st', _, _) := durablestate.PostStop D a (states s) None in
    (Ok tt, mkLocal (registry s) (delete n (actors s)) st' (times s) (latency s))
  end.

#[export] Instance local_system : goakt.ActorSystem msg local := {|
  goakt.Running _ := true;
  goakt.InCluster _ := false;
  goakt.GetExtension := lookup_extension;
  goakt.Inject s _ := (Ok tt, s);
  goakt.Spawn := start;
  goakt.SpawnOn := start;
  goakt.SpawnSingleton s _ _ _ _ := (Err (goakt.mkError [goakt.ErrOther] "not in a cluster"), s);
  goakt.ActorOf s _ n := match actors s !! n with Some _ => Ok n | None => Err no_actor end;
  goakt.ActorExists s _ n := Ok (bool_decide (is_Some (actors s !! n)));
  goakt.IsRunning s n := bool_decide (is_Some (actors s !! n));
  goakt.Kill := kill;
  goakt.Ask := ask;
  goakt.SendSync := ask
|}.

Definition binding_of (a : durablestate.Actor D) : bool * persistence.Scope :=
  (durablestate.tenantAware (durablestate.config D a), durablestate.scope (durablestate.config D a)).

Lemma start_keeps s ctx n k opts n' x : binding_of <$> actors s !! n' = Some x -> binding_of <$> actors (start s ctx n k opts).2 !! n' = Some x.
Proof.
  intros Hx. unfold start. destruct k; try done. destruct (actors s !! n) eqn:Hn; [done|].
  destruct (durablestate.PreStart _ _ _ _ _ _ _); [|done]. simpl. rewrite lookup_insert_ne; [done|]. intros <-. by rewrite Hn in Hx.
Qed.

Lemma start_named s ctx n k opts p s' : start s ctx n k opts = (Ok p, s') -> p = n.
Proof. unfold start. by repeat case_match; intros [= <- <-]. Qed.

#[export] Instance local_laws : goakt.ActorSystemLaws msg local.
Proof.
  refine {| goakt.binding s n := binding_of <$> actors s !! n |}; try done.
  - intros *. apply start_named.
  - intros *. apply start_named.
  - intros s ctx n p. simpl. destruct (actors s !! n); [by intros [= <-]|done].
  - intros *. apply start_keeps.
  - intros *. apply start_keeps.
  - intros s ctx n t d n'. simpl. unfold ask. destruct (actors s !! n) as [a|] eqn:Hn; [|done]. simpl.
    destruct (decide (n' = n)) as [->|]; [by rewrite lookup_insert_eq, Hn|by rewrite lookup_insert_ne].
  - intros s ctx n t d r s'. simpl. unfold ask. destruct (actors s !! n) as [a|] eqn:Hn; [|done]. simpl.
    destruct (d <? latency s)%Z; [done|]. intros [= <- <-].
    eexists _, _. split; [|reflexivity]. simpl. by rewrite lookup_insert_eq.
Defined.

Definition spawned_with (s : local) (n : string) : durablestate.Config * TenantContext :=
  match actors s !! n with
  | Some a => (durablestate.config D a, durablestate.actorTenant D a)
  | None => (durablestate.mkConfig n 0 (marked s) Unscoped, noTenantContext)
  end.

Definition handled_here (s : local) (ctx : Context) (n : string) (m : msg) : list (exchange (D := D)) :=
  match actors s !! n with
  | Some a => let msg := durablestate.MCommand ctx (toCmd m) in [(msg, times s, (durablestate.Receive D a (states s) msg (times s)).1.2)]
  | None => []
  end.

#[export] Instance local_hosts : Hosts toCmd local.
Proof.
  refine {| hosted s n := actors s !! n; spawned := spawned_with; stored := states; meanwhile s ctx n m _ := handled_here s ctx n m |}.
  - intros s ctx n m timeout r s'. simpl. unfold ask, handled_here. destruct (actors s !! n) as [a|] eqn:Hn; [|intros [= <- <-]; rewrite Hn; constructor].
    destruct (durablestate.Receive D a (states s) (durablestate.MCommand ctx (toCmd m)) (times s)) as [[[a' st'] rep] pub] eqn:Hr.
    simpl. simpl in Hr. rewrite Hr. intros [= <- <-]. simpl. rewrite lookup_insert_eq. eapply served_message; [exact Hr|constructor].
  - intros s ctx n m timeout reply s'. simpl. unfold ask, handled_here. destruct (actors s !! n) as [a|] eqn:Hn; [|done]. simpl.
    destruct (durablestate.processCommand _ _ _ _ _ _) as [[[a' st'] cr] pub]. simpl. destruct (timeout <? latency s)%Z; [done|]. intros [= <- <-].
    eexists _, cr. split; [done|]. left.
Defined.
End Local.

(** ** A command, end to end *)
Section EndToEnd.
Context {D : durablestate.Deps} {LD : durablestate_spec.LawfulDeps D}.
Context {St msg : Type} {SO : api.StateStore St} {SL : api.StateStoreLaws St}.
Context (toCmd : msg -> durablestate.Cmd D) (ofState : durablestate.State D -> msg).
Context (fmt_time : Z -> string) (parse_time : string -> option Z) (range : gmap string string -> list (string * string)).
Hypothesis time_roundtrip : forall t, command.time_ok t -> parse_time (fmt_time t) = Some t.
Hypothesis range_perm : forall c, range c ≡ₚ map_to_list c.
Context (print_tbl : Z -> bool).
Import durablestate_spec.

Context {Sys : Type} {ASys : goakt.ActorSystem msg Sys} {HSys : Hosts (St := St) toCmd Sys}.

Definition UnmarshalNew (x : option Any) : result string msg :=
  match x with Some any => let? s := durablestate.UnmarshalTo D any in Ok (ofState s) | None => Err "nil" end.

Abbreviation Dispatch := (Dispatch (ASys := ASys) fmt_time parse_time range UnmarshalNew print_tbl).

(** A command is answered with a state only when both gates were open and the
    tenant gate let it in. *)
Lemma state_reply_gates (a : durablestate.Actor D) (st : St) ctx cmd T a' st' r pub :
  durablestate.processCommand D a st ctx cmd T = (a', st', CommandReply_StateReply r, pub) ->
  protocol.ctx_err (durablestate.t_gate1 T) ctx = None /\ protocol.ctx_err (durablestate.t_gate2 T) ctx = None /\
  exists t, durablestate.tenantGate D a ctx = Ok t.
Proof.
  unfold durablestate.processCommand, durablestate.sendErrorReply. destruct (durablestate.tenantGate D a ctx) as [t|]; [|done].
  destruct (protocol.CheckDeadline (durablestate.t_gate1 T) ctx _) eqn:G1; [done|]. apply engine_spec.gate_open in G1.
  destruct (durablestate.dispatchToBehavior _ _ _ _ _ _) as [[s v]|]; [|done].
  destruct (durablestate.checkPreconditions _ _ _ _); [|done].
  destruct (protocol.CheckDeadline (durablestate.t_gate2 T) ctx _) eqn:G2; [done|]. apply engine_spec.gate_open in G2. eauto.
Qed.

(** The command [cmd] was handled at the instants [T] by the entity in the
    state [a] over the store [sa], and left [b] and [sb]. *)
Definition handled (s s' : Sys) (id : string) (l : list exchange) ctx cmd T (a : durablestate.Actor D) (sa : St) (b : durablestate.Actor D) (sb : St)
    (r : CommandReply) (pub : list DurableState) : Prop :=
  let '(c, tc) := spawned s id in
  exists l1 l2, l = l1 ++ (durablestate.MCommand ctx cmd, T, durablestate.RCommand r) :: l2 /\
    served c tc (hosted s id) (stored s) l1 (Some a) sa /\
    durablestate.processCommand D a sa ctx cmd T = (b, sb, r, pub) /\
    served c tc (Some b) sb l2 (hosted s' id) (stored s').

(** The success a caller sees, and what it stands for. *)
Definition durable_success (clock : nat -> Z) (e : Engine) (ctx : Context) (md : command.Metadata) (timeout : Z)
    (c : durablestate.Config) (tc : TenantContext) (T : durablestate.Times) (a : durablestate.Actor D) (sb : St) (x : command.Result msg) : Prop :=
  exists d any st, command.outcome x = command.OutcomeSuccess /\ command.State x = Some (ofState st) /\
    record sb c = Some d /\ ResultingState d = Some any /\ durablestate.UnmarshalTo D any = Ok st /\
    VersionNumber d = command.rrevision x /\ command.rrevision x = (durablestate.currentVersion D a + 1)%N /\
    (durablestate.t_gate2 T < clock 2%nat + timeout)%Z /\
    (command.hasDeadline md = true -> durablestate.t_gate2 T < command.deadline md)%Z /\
    protocol.ctx_err (durablestate.t_gate2 T) ctx = None /\
    (durablestate.tenantAware c = true -> forall r, tenantResolver e = Some r ->
       Resolve r (WithDeadline ctx (effectiveDeadline (clock 2%nat) timeout md ctx)) = Ok tc).

Lemma gate_tenant c tc (a : durablestate.Actor D) ctx t : durablestate.config D a = c -> (durablestate.tenantAware c = true -> durablestate.actorTenant D a = tc) ->
  (durablestate.tenantAware c = true -> tenancy.wf tc) -> durablestate.tenantGate D a ctx = Ok t -> durablestate.tenantAware c = true ->
  ctx_tenant ctx = Some tc.
Proof.
  intros Hc Ht Hwf Hg Haw. assert (t = tc) as -> by (by eapply durable_tenantGate_Ok).
  unfold durablestate.tenantGate in Hg. rewrite Hc, Haw in Hg. simpl in Hg.
  apply rbind_Ok in Hg as (t' & Hreq & Hg). apply rbind_Ok in Hg as (u & _ & [= ->]).
  unfold Require, From in Hreq. destruct (ctx_tenant ctx) as [tc'|]; [|done]. destruct (valid tc'); simpl in Hreq; [|done]. by injection Hreq as ->.
Qed.

(** The entity's answer to a command handed over with [ctx'], and what the
    caller makes of it. *)
Lemma told_of_reply clock e ctx md timeout ctx' t' c tc (a : durablestate.Actor D) (sa : St) cmd T b sb cr pub :
  (durablestate.tenantAware c = true -> tenancy.wf tc) -> in_sync c tc a sa -> (durablestate.currentVersion D a + 1 < two64)%N ->
  engine_spec.handed fmt_time clock e ctx md timeout ctx' t' -> durablestate.processCommand D a sa ctx' cmd T = (b, sb, cr, pub) ->
  (exists x, engine_spec.reported UnmarshalNew print_tbl md (Ok (goakt.RCommandReply cr)) = Ok x /\ committed c tc a b sb cr pub /\
     durable_success clock e ctx md timeout c tc T a sb x) \/
  (refused c tc a sa b sb cr pub /\
   forall x, engine_spec.reported UnmarshalNew print_tbl md (Ok (goakt.RCommandReply cr)) = Ok x -> command.outcome x <> command.OutcomeSuccess).
Proof.
  intros Hwf Hs Hroom Hh Hproc. assert (is_u64 (durablestate.currentVersion D a)) as Hu by (unfold is_u64; lia).
  pose proof (processCommand_spec c tc a sa Hwf Hs Hu ctx' cmd T Hroom) as Hspec. rewrite Hproc in Hspec.
  destruct Hspec as [Href|Hcom]; [right|left].
  - split; [done|]. destruct Href as (_ & _ & (text & ->) & _). intros x Hx. cbn [engine_spec.reported] in Hx.
    destruct (protocol.ResultFromReply _ _ _ _) as [x'|] eqn:Hx'; [|done]. injection Hx as ->.
    apply engine_spec.error_reply_is_error in Hx' as [err Herr]. intros Ho. unfold resultToLegacy in Herr. by rewrite Ho in Herr.
  - pose proof Hcom as (Hver & (d & any & Hrec & _ & Hv & Hres & Hany & ->) & _). pose proof (any_state _ _ Hany) as Hst. simpl. rewrite Hst. simpl. eexists. split; [done|]. split; [done|].
    apply state_reply_gates in Hproc as (_ & G2 & t & Hgate).
    exists d, any, (durablestate.currentState D b). destruct (engine_spec.handed_bounded _ _ _ _ _ _ _ _ Hh) as [dl Hdl].
    destruct (engine_spec.handed_deadline _ _ _ _ _ _ _ _ Hh _ Hdl) as (-> & _ & _).
    assert (durablestate.t_gate2 T < effectiveDeadline (clock 2%nat) timeout md ctx)%Z as Hlt.
    { apply engine_spec.ctx_live in G2 as [_ G2]. by apply G2. }
    apply engine_spec.effective_min in Hlt as (Hlt1 & Hlt2 & Hlt3).
    split_and!; [done..|by rewrite Hver, u64_succ_small by lia|done|done| |].
    + apply engine_spec.ctx_live. apply engine_spec.ctx_live in G2 as [Hc _]. rewrite (engine_spec.handed_canceled _ _ _ _ _ _ _ _ Hh) in Hc. done.
    + intros Haw rr Hrr. pose proof (engine_spec.handed_tenant _ _ _ _ _ _ _ _ Hh) as Ht. rewrite Hrr in Ht. destruct Ht as (tc' & Hres' & _ & Htc).
      rewrite (gate_tenant c tc a ctx' t) in Htc; [by injection Htc as <-|apply Hs|apply Hs|done|done|done].
Qed.

(** An error of the system is never read as a success. *)
Lemma send_error_no_success md err x : engine_spec.reported UnmarshalNew print_tbl md (Err err) = Ok x -> command.outcome x <> command.OutcomeSuccess.
Proof.
  simpl. unfold classifySendError. destruct (goakt.Is err goakt.ContextCanceled); [intros Hx; by destruct (engine_spec.canceled_not_run _ _ _ _ Hx) as [-> | ->]|].
  destruct (_ || _); [|done]. intros Hx. by destruct (engine_spec.timed_out_not_run _ _ _ _ Hx) as [-> | ->].
Qed.

(** C14: On any actor system that hosts durable-state entities ([Hosts]), a
    command dispatched to an entity that is in step with its store, whatever
    else happens to the entity between call and answer (other messages,
    stops, crashes, starts, other writers of other records), provided that it
    does not handle so many messages in that time that its version would pass
    2^64-1, and that states can be marshalled. The caller is told of a success
    only when the entity handled this very command and committed it, and then
    the state and the revision it is given are those of the record that commit
    left, the commit was decided before every deadline that applied and, on a
    tenant-aware entity, the resolver had named the entity's own tenant. When it is not told of a
    success, the command was not sent, or the entity handled it and refused
    it, leaving the store as it was, or the system reported an error (a
    timeout, say) instead of the reply, in which case the command may have
    been committed. In every case the entity is in step again. *)
Theorem dispatch_end_to_end clock e (s : Sys) ctx id env m timeout r s' c tc v :
  (durablestate.tenantAware c = true -> tenancy.wf tc) -> (forall st, exists any, durablestate.anyOfState D st = Ok any) ->
  (forall ctx' t', v + N.of_nat (length (meanwhile s ctx' id m t')) < two64)%N ->
  spawned s id = (c, tc) -> in_step c tc v (hosted s id) (stored s) -> command.payload env = Some (goakt.Command m) ->
  Dispatch clock e s ctx id env timeout = (r, s') ->
  exists l, served c tc (hosted s id) (stored s) l (hosted s' id) (stored s') /\
  (exists v', in_step c tc v' (hosted s' id) (stored s')) /\
  ((exists x ctx' T a sa b sb cr pub, r = Ok x /\ handled s s' id l ctx' (toCmd m) T a sa b sb cr pub /\
      committed c tc a b sb cr pub /\ durable_success clock e ctx (command.metadata env) timeout c tc T a sb x) \/
   ((forall x, r = Ok x -> command.outcome x <> command.OutcomeSuccess) /\
    (s' = s \/
     (exists ctx' T a sa b sb cr pub, handled s s' id l ctx' (toCmd m) T a sa b sb cr pub /\ refused c tc a sa b sb cr pub) \/
     (exists ctx' t' err, goakt.SendSync s ctx' id (goakt.Command m) t' = (Err err, s'))))).
Proof.
  intros Hwf Hany Hall Hsp Hv Hp Hd. apply engine_spec.dispatch_cases in Hd as [(-> & Hn & _)|(p & ctx' & t' & reply & Hp' & _ & Hsend & Hr & Hh)].
  { exists []. split; [constructor|]. split; [eauto|]. right. split; [|by left]. intros x Hx Ho. destruct (Hn _ Hx); congruence. }
  rewrite Hp in Hp'. injection Hp' as <-. pose proof (send_served _ _ _ _ _ _ _ Hsend) as Hl. rewrite Hsp in Hl. pose proof (Hall ctx' t') as Hroom.
  exists (meanwhile s ctx' id m t'). split; [done|].
  split; [destruct (served_in_step _ _ _ _ _ _ _ Hwf Hany Hl v Hv Hroom) as (v' & ? & _); eauto|].
  destruct reply as [reply|err]; [|right; split; [intros x Hx; rewrite Hr in Hx; by eapply send_error_no_success|right; right; eauto]].
  destruct (send_answered _ _ _ _ _ _ _ Hsend) as (T & cr & -> & Hin). clear Hsend Hall. set (l := meanwhile s ctx' id m t') in *. clearbody l.
  apply list_elem_of_split in Hin as (l1 & l2 & Hsplit). rewrite Hsplit in Hl.
  destruct (served_split _ _ _ _ _ _ _ _ _ _ _ Hl) as (a & sa & b & sb & pub & H1 & H2 & H3). simpl in H2.
  destruct (durablestate.processCommand D a sa ctx' (toCmd m) T) as [[[b' sb'] cr'] pub'] eqn:Hproc. injection H2 as -> -> -> ->.
  assert (handled s s' id l ctx' (toCmd m) T a sa b sb cr pub) as Hhan by (unfold handled; rewrite Hsp; eauto 8).
  rewrite Hsplit, length_app in Hroom. simpl length in Hroom. assert (v + N.of_nat (length l1) < two64)%N as Hroom1 by (clear -Hroom; lia).
  destruct (served_in_step _ _ _ _ _ _ _ Hwf Hany H1 v Hv Hroom1) as (v1 & [Hs1 Hv1] & Hle).
  destruct (told_of_reply clock e ctx (command.metadata env) timeout ctx' t' c tc a sa (toCmd m) T b sb cr pub Hwf Hs1 ltac:(rewrite Hv1; clear -Hroom Hle; unfold exchange in *; lia) Hh Hproc)
    as [(x & Hx & Hcom & Hsuc)|[Href Hno]].
  - left. exists x, ctx', T, a, sa, b, sb, cr, pub. by rewrite Hr.
  - right. split; [by rewrite Hr|]. right. left. eauto 12.
Qed.
End EndToEnd.
End engine_system.
