(* ===== verification/EngineExamples.v ===== *)
(** * The engine on concrete systems

    The theorems about the engine at work: an engine for one tenant on a node
    that hosts an account entity over the in-memory state store, publishers
    on the lock-free queue; and what the code does where a reader of its
    documentation would not expect it. *)

From S2P Require Import Prelude GoStrings Tenancy Persistence Egopb StoreApi EventStore StateStores Command Protocol EventSourced Saga DurableState DurableStateSpec Queue QueueSpec Stream StreamSpec Delivery Adoption AdoptionSafety AdoptionExamples ActorSystem EngineConfig Engine EngineConfigSpec EngineSpec EngineLifecycleSpec EngineSystem.
From Stdlib Require Import ZArith Lia.
Open Scope string_scope.
Open Scope list_scope.

Module engine_examples.
Import persistence egopb tenancy extensions engine engine_system.
Import durablestate_spec.
#[local] Existing Instances testkit.EventStore_ops testkit.EventStore_laws adoption_examples.snap_ops adoption_examples.snap_laws.

(** ** An engine for the tenant [acme] *)
Definition acme_resolver : TenantResolver := singleTenantResolver acme.
Definition acme_options : list engine_config.Option_ :=
  [engine_config.WithStateStore true; engine_config.WithTenantResolver (Some acme_resolver); engine_config.WithEntityFamilies [2%N]].
Definition acme_engine_config : engine_config.Config := engine_config.NewConfig false 0 acme_options.
Definition acme_engine : Engine := mkEngine acme_engine_config true true ∅ ∅ ∅.

#[local] Instance account_system : goakt.ActorSystem Z (local (D := accountDeps) (St := durablestore.DurableStore)) :=
  local_system (D := accountDeps) (msg := Z) (fun z => z).
#[local] Instance account_system_laws : goakt.ActorSystemLaws Z (local (D := accountDeps) (St := durablestore.DurableStore)) :=
  local_laws (D := accountDeps) (msg := Z) (fun z => z).

Abbreviation node := (local (D := accountDeps) (St := durablestore.DurableStore)).

Definition node0 : node := mkLocal (engine_config_spec.exts (engine_config.GoaktOptions acme_engine_config)) ∅ st0 T0 4.
Definition account_behavior : Behavior := mkBehavior Pointer "*Account" true "account-1".

(** A node where the account runs. *)
Definition node1 : node := mkLocal (registry node0) {[ "account-1" := acme_account ]} st0 T0 4.

Definition deposit_metadata : command.Metadata :=
  command.mkMetadata "op-1" "op-1" "" false noTenantContext false command.noPrincipal false ∅ 7 900 true 0 false.
Lemma deposit_metadata_wf : command.wf_metadata deposit_metadata.
Proof. by split. Qed.
Definition deposit : command.Envelope (option (goakt.Message Z)) := command.mkEnvelope (Some (goakt.Command 5%Z)) deposit_metadata.
Definition ticks (i : nat) : Z := Z.of_nat i.

Abbreviation dispatch := (Dispatch command.decimal_time command.parse_decimal_time map_to_list (UnmarshalNew (D := accountDeps) (msg := Z) (fun z => z)) (fun _ => false)).

Definition deposited := dispatch ticks acme_engine node1 Background "account-1" deposit 1000.

#[local] Instance account_hosts : Hosts (D := accountDeps) (St := durablestore.DurableStore) (fun z : Z => z) node :=
  local_hosts (D := accountDeps) (msg := Z) (fun z => z).

Lemma deposited_success : match fst deposited with Ok x => command.outcome x = command.OutcomeSuccess /\ command.State x = Some 5%Z | Err _ => False end.
Proof. vm_compute. by split. Qed.

Lemma dispatch_end_to_end_witness :
  exists x ctx' T a sa b sb cr pub, fst deposited = Ok x /\ command.State x = Some 5%Z /\
    durablestate.processCommand accountDeps a sa ctx' 5%Z T = (b, sb, cr, pub) /\
    exists d, record sb (durablestate.config accountDeps acme_account) = Some d /\ VersionNumber d = command.rrevision x.
Proof.
  destruct (dispatch_end_to_end (D := accountDeps) (St := durablestore.DurableStore) (fun z => z) (fun z => z)
    command.decimal_time command.parse_decimal_time map_to_list (fun _ => false)
    ticks acme_engine node1 Background "account-1" deposit 5%Z 1000 (fst deposited) (snd deposited)
    (durablestate.config accountDeps acme_account) acme 0%N) as (l & _ & _ & Hres).
  - intros _. by constructor.
  - intros st. exists (any_of_Z st). reflexivity.
  - intros ctx' t'. reflexivity.
  - reflexivity.
  - split; [|reflexivity]. split; simpl; try done. by left.
  - reflexivity.
  - apply surjective_pairing.
  - pose proof deposited_success as Hd.
    destruct Hres as [(x & ctx' & T & a & sa & b & sb & cr & pub & Hr & Hhan & _ & d & any & st & Ho & Hs & Hrec & _ & _ & Hv & _)|[Hno _]].
    + rewrite Hr in Hd. destruct Hhan as (l1 & l2 & _ & _ & Hproc & _).
      exists x, ctx', T, a, sa, b, sb, cr, pub. split; [exact Hr|]. split; [exact (proj2 Hd)|]. split; [exact Hproc|]. exists d. by split.
    + exfalso. destruct (fst deposited) as [x|]; [|exact Hd]. exact (Hno x eq_refl (proj1 Hd)).
Defined.

(** On a slow node the caller is told of a timeout, and the deposit is
    committed all the same. *)
Definition slow_node : node := mkLocal (registry node1) (actors node1) st0 T0 5000.

Theorem timed_out_and_committed :
  match dispatch ticks acme_engine slow_node Background "account-1" deposit 1000 with
  | (Ok x, s') => command.outcome x = command.OutcomeTimedOut /\
      VersionNumber <$> record (states s') (durablestate.config accountDeps acme_account) = Some 1%N
  | _ => False
  end.
Proof. vm_compute. by split. Qed.

Lemma command_reaches_entity_witness :
  exists ctx' t' reply s', goakt.SendSync node1 ctx' "account-1" (goakt.Command 5%Z) t' = (reply, s') /\ (t' <= 1000)%Z /\
    (forall now, protocol.MetadataFromContext command.parse_decimal_time map_to_list now ctx' = Some deposit_metadata) /\
    ctx_tenant ctx' = Some acme.
Proof.
  destruct (engine_spec.command_reaches_entity command.decimal_time command.parse_decimal_time map_to_list
    (UnmarshalNew (D := accountDeps) (msg := Z) (fun z => z)) (fun _ => false)
    (fun t _ => command.decimal_time_roundtrip t) (fun c => reflexivity _)
    ticks acme_engine node1 Background "account-1" deposit 1000 (fst deposited) (snd deposited)) as [[Heq _]|Hs].
  - intros i j Hij. unfold ticks. lia.
  - exact deposit_metadata_wf.
  - vm_compute. discriminate.
  - apply surjective_pairing.
  - exfalso. apply (f_equal (fun s : node => match actors s !! "account-1" with Some a => durablestate.currentVersion accountDeps a | None => 0%N end)) in Heq.
    vm_compute in Heq. discriminate Heq.
  - destruct Hs as (p & ctx' & t' & reply & Hp & _ & Hsend & _ & Hmd & _ & (tc & Hres & Htc & _) & Ht). injection Hp as <-.
    exists ctx', t', reply, (snd deposited). split; [exact Hsend|]. split; [exact Ht|]. split; [exact Hmd|].
    vm_compute in Hres. injection Hres as <-. exact Htc.
Defined.

(** Spawning the account on the empty node. *)
Definition spawned := spawnDurableState (ASys := account_system) acme_engine node0 Background account_behavior [].

Lemma spawn_binds_tenant_witness :
  match spawned with
  | Some (r, s') => r = None /\ goakt.binding s' "account-1" = Some (true, mkScope scopeTenant "acme")
  | None => False
  end.
Proof.
  pose proof (engine_spec.spawn_binds_tenant (ASys := account_system) (ALaws := account_system_laws)
    engine_spec.SpawnDurableState acme_engine node0 Background account_behavior []) as H.
  change (engine_spec.spawn _ acme_engine node0 Background account_behavior []) with spawned in H.
  assert (fst <$> spawned = Some None) as E by (vm_compute; reflexivity).
  destruct spawned as [[r s']|]; [|discriminate E].
  destruct (H r s' acme_resolver eq_refl eq_refl) as (_ & Hb & _).
  injection E as ->.
  destruct (Hb eq_refl) as (t & Ht & _ & Hbind). vm_compute in Ht. injection Ht as <-. by split.
Defined.

(** Another tenant's spawn of the live id fails. *)
Example foreign_spawn_fails :
  match spawnDurableState (ASys := account_system) acme_engine node1 Background account_behavior [Some (runtime.WithTenant "globex")] with
  | Some (Some (ErrSpawnTenantMismatch e), s') => Is e ErrDenied = true /\ states s' = states node1
  | _ => False
  end.
Proof. vm_compute. by split. Qed.

(** ** Configurations *)
Lemma validation_reports_difference_witness :
  DurableStateStoreExtensionID ∈ engine_config.validateActorSystemExtensions
    (fun id => List.find (fun x => bool_decide (ID x = id)) (engine_config_spec.exts (engine_config.GoaktOptions (engine_config.NewConfig true 0 [])))) acme_engine_config.
Proof.
  apply (engine_config_spec.validation_reports_difference acme_engine_config (engine_config.NewConfig true 0 [])).
  - intros id. split.
    + intros Hf. destruct (List.find _ _) as [x|] eqn:E; [|done]. apply find_some in E as [Hin Hid]. exists x.
      split; [by apply list_elem_of_In|by apply bool_decide_eq_true in Hid].
    + intros (x & Hin%list_elem_of_In & Hid) Hf. apply (find_none _ _ Hf) in Hin. by rewrite bool_decide_eq_true_2 in Hin.
  - split; [|]; vm_compute; [set_solver|]. intros Hin. repeat (apply elem_of_cons in Hin as [Hin|Hin]; [discriminate Hin|]).
    by apply not_elem_of_nil in Hin.
Defined.

Lemma tenancy_mode_decided_witness :
  (engine_config.NewEngine (Some node0) (Some (engine_config.NewConfig false 0 (acme_options ++ acme_options)))).1 =
  Err engine_config.ErrAmbiguousTenantResolver.
Proof. exact (engine_config_spec.tenancy_mode_decided false 0 (acme_options ++ acme_options) node0 eq_refl). Defined.

(** ** Erasure over the in-memory stores *)
Definition legacy_engine : Engine := mkEngine (engine_config.NewConfig true 0 [engine_config.WithSnapshotStore true]) true true ∅ ∅ ∅.
Definition snapshot_a : Snapshot := mkSnapshot "a" 2 (Some (mkAny "t" "s")) 0 "" false ∅.
Definition snapshots_a : snapshotstore.SnapshotStore := (api.WriteSnapshot snapshotstore.NewSnapshotStore Unscoped snapshot_a).2.

Lemma snapshots_a_ok : api.snap_ok snapshots_a.
Proof.
  assert (api.WriteSnapshot snapshotstore.NewSnapshotStore Unscoped snapshot_a = (Ok tt, snapshots_a)) as Hw by reflexivity.
  apply api.swrite_ok in Hw as [Hok _]; [done|apply map_Forall_empty|constructor].
Qed.

Abbreviation legacy_events := adoption_examples.legacy_events.
Definition erased := EraseEntity legacy_engine (Some legacy_events) (Some snapshots_a) Background "a" true.

Lemma erasure_removes_history_witness :
  match erased with
  | Some (r, Some st', Some sn') => r = None /\ api.records (default api.noStream (api.view st' Unscoped "a")) = ∅
  | _ => False
  end.
Proof.
  assert (exists last, api.GetLatestEvent legacy_events Unscoped "a" = Ok (Some last)) as [last Hlast] by (vm_compute; eauto).
  assert (match erased with Some (None, Some _, Some _) => true | _ => false end = true) as E by (vm_compute; reflexivity).
  destruct erased as [[[[err|] [st'|]] [sn'|]]|] eqn:He; try discriminate E.
  destruct (engine_lifecycle_spec.erasure_removes_history (St := testkit.EventStore) (Sn := snapshotstore.SnapshotStore)
    legacy_engine legacy_events st' snapshots_a sn' Background "a" Unscoped last) as (_ & _ & Hrec & _).
  - apply (adoption_safety.ok_events _ adoption_examples.legacy_ok). done.
  - exact snapshots_a_ok.
  - reflexivity.
  - exact Hlast.
  - exact He.
  - split; [reflexivity|exact Hrec].
Defined.

(** ** A publisher

    Payloads are numbers, those of the publisher's kind not negative. *)
Section Publisher.
Import delivery.

Definition as_number (z : Z) : option Z := if (z <? 0)%Z then None else Some z.
Definition note (z : Z) : eventstream.Message Z := eventstream.mkMessage EventsTopic z.
Definition idle : world Z Z * bool := (added, false).

(** Two messages are published while the goroutine waits; it takes both,
    finds the queue empty, and offers the one of its kind. *)
Ltac go r := eapply rtc_l; [eapply send_goroutine; r|]; cbn [fst snd returned pc negb andb].
Ltac signals m :=
  eapply rtc_l; [apply send_signal; apply (signal_begin _ _ _ _ (note m))|];
  do 7 (eapply rtc_l; [apply send_signal; eapply (signal_enqueue _ _ _ _ _ None); [reflexivity|discriminate]|]);
  eapply rtc_l; [apply send_signal, signal_notify|].
Ltac dequeues := go ltac:(apply go_dequeue); repeat (go ltac:(eapply go_access; [reflexivity|intros ?; discriminate])).

Lemma two_published : exists w, rtc (send_step as_number) idle (w, false) /\ published (sub w) = [note (-1); note 7] /\ pc w = SWait /\
  active (sub w) = true /\ notify (sub w) = false /\ signalling (sub w) = false.
Proof.
  eexists. split.
  - unfold idle, added, newSubscriber, queue_spec.start. signals (-1)%Z. signals 7%Z.
    go ltac:(apply go_ready).
    do 2 (dequeues; go ltac:(apply go_message; reflexivity)).
    dequeues. go ltac:(apply go_empty; reflexivity).
    do 2 (go ltac:(apply go_deliver; reflexivity)). go ltac:(apply go_drained). apply rtc_refl.
  - split_and!; reflexivity.
Qed.

Lemma publisher_offered_in_order_witness : exists w, rtc (send_step as_number) idle (w, false) /\ log w = [7%Z].
Proof.
  destruct two_published as (w & Hrun & Hp & Hpc & Ha & Hn & Hs). exists w. split; [exact Hrun|].
  destruct (engine_lifecycle_spec.publisher_offered_in_order as_number w false Hrun) as (rest & Heq & Hrest).
  rewrite (Hrest Hpc Ha Hn Hs), app_nil_r in Heq. rewrite <- Heq, Hp. reflexivity.
Defined.
End Publisher.

(** ** Where the documentation promises more *)

(** A full erasure asks the journal where the history ends. Once retention
    has removed every event up to the snapshot (a policy that retains none),
    the journal is empty: the erasure reports success and the snapshot, with
    the whole state, is still there. *)
Theorem erasure_keeps_snapshot :
  let '(st, sn) := eventsource.handleApplyRetention legacy_events snapshots_a true
    (eventsource.mkApplyRetentionRequest "a" 2 2 true false 0 Unscoped) (fun _ => None) (fun _ => None) in
  match EraseEntity legacy_engine (Some st) (Some sn) Background "a" true with
  | Some (r, _, Some sn') => r = None /\ api.sview sn' Unscoped "a" !! 2%N = Some snapshot_a
  | _ => False
  end.
Proof. vm_compute. by split. Qed.

(** Without [full] an erasure changes nothing, whether or not an encryptor is
    configured: no key is deleted. *)
Theorem partial_erasure_is_noop {St Sn} `{api.EventsStore St} `{api.SnapshotStore Sn} e (st : option St) (sn : option Sn) ctx pid :
  exists r, EraseEntity e st sn ctx pid false = Some (r, st, sn).
Proof. unfold EraseEntity. destruct (Started e); simpl; [|eauto]. destruct (erasureScope e ctx); simpl; eauto. Qed.

(** A projection rebuilt from an instant is reset to that instant in
    milliseconds, while offsets are nanoseconds: for every instant up to the
    year 2286 the reset offset lies in the first three hours of 1970, so every
    later event is projected again. *)
Theorem rebuild_ignores_from (from t : Z) : (0 <= from < 10000000000000000000)%Z -> (10800000000000 <= t)%Z ->
  (unix_milli from < t)%Z.
Proof. intros Hf Ht. unfold unix_milli. apply Z.div_lt_upper_bound; lia. Qed.
End engine_examples.
