(* ===== verification/LifecycleSpec.v ===== *)
(** * What the sequencer guarantees

    [undone_exactly_once]: over any calls of [Start] and [Stop], when undoing
    and releasing do not panic, every step that started is undone once, in
    reverse order, and what no step owns is released once unless the sequence
    ran. [start_rule] and [stop_rule] are the rules by which a
    composition root proves what its own steps leave behind. *)

From S2P Require Import Prelude Tenancy Protocol Lifecycle.
From Stdlib Require Import ZArith Lia.
Open Scope list_scope.

Module lifecycle_spec.
Import tenancy lifecycle.

Section Spec.
Context {W E : Type} (now : W -> Z).
Implicit Types (s : Sequence W E) (ctx : Context).

Lemma setState_twice s st st' : setState (setState s st) st' = setState s st'.
Proof. done. Qed.

(** ** The clean-up context *)

(** Clean-up runs under a context that keeps the values of the caller's, that
    the caller can no longer cancel, and that stays open for exactly the
    shutdown timeout. *)
Lemma cleanup_context_open ctx s w t : (now w <= t)%Z ->
  let c := cleanupContext now ctx s w in
  ctx_tenant c = ctx_tenant ctx /\ ctx_carrier c = ctx_carrier ctx /\
  (protocol.ctx_err t c = None <-> (t < now w + timeout s)%Z).
Proof.
  intros Ht c. split_and!; [done..|]. unfold protocol.ctx_err. simpl.
  destruct (Z.leb_spec (now w + timeout s) t); (split; [done|lia]) || (split; [lia|done]).
Qed.

(** ** Rules

    [P i] describes the world before step [i], [Q i] the world that a failing
    step [i] leaves, and that undoing step [i] leaves. *)
Definition stop_keeps (Q : nat -> W -> Prop) (i : nat) (step : Step W E) : Prop :=
  match StepStop step with
  | None => forall w, Q (S i) w -> Q i w
  | Some stop => forall ctx w, Q (S i) w -> (stop ctx w).1 <> Panicked /\ Q i (stop ctx w).2
  end.

Definition start_keeps (P Q : nat -> W -> Prop) (i : nat) (step : Step W E) : Prop :=
  forall start ctx w, StepStart step = Some start -> P i w ->
    match start ctx w with
    | (Ret None, w') => P (S i) w'
    | (_, w') => Q i w'
    end.

Definition releases (P R : W -> Prop) (f : option (action W E)) : Prop :=
  match f with
  | None => forall w, P w -> R w
  | Some f => forall ctx w, P w -> (f ctx w).1 <> Panicked /\ R (f ctx w).2
  end.

Lemma reverse_take_S {A} (l : list A) k x : l !! k = Some x -> reverse (take (S k) l) = x :: reverse (take k l).
Proof. intros H. by rewrite (take_S_r _ _ _ H), reverse_snoc. Qed.

Lemma skipn_S_eq {A} n (l : list A) x rest : x :: rest = drop n l -> drop (S n) l = rest.
Proof. intros H. rewrite <- Nat.add_1_r, <- drop_drop, <- H. done. Qed.

Lemma undo_rule (P : nat -> W -> Prop) (l : list (Step W E)) ctx :
  (forall i step, l !! i = Some step -> stop_keeps P i step) ->
  forall k w, k <= length l -> P k w -> exists errs w', undo ctx (reverse (take k l)) w = (Ret errs, w') /\ P 0 w'.
Proof.
  intros Hl. induction k as [|k IH]; intros w Hk HP; [by eexists _, _|].
  destruct (lookup_lt_is_Some_2 l k) as [step Hs]; [lia|]. rewrite (reverse_take_S _ _ _ Hs). simpl.
  specialize (Hl _ _ Hs). unfold stop_keeps in Hl. destruct (StepStop step) as [stop|].
  - destruct (Hl ctx w HP) as [Hn HP']. destruct (stop ctx w) as [[r|] w1]; [|done].
    destruct (IH w1) as (errs & w2 & -> & HP2); [lia|done|]. by eexists _, _.
  - apply IH; [lia|by apply Hl].
Qed.

Lemma cleanup_rule (P : nat -> W -> Prop) R ctx (rel : bool) s w :
  (forall i step, steps s !! i = Some step -> stop_keeps P i step) -> started s <= length (steps s) ->
  releases (P 0) R (if rel then release s else None) -> P (started s) w ->
  exists errs w', cleanup now ctx rel s w = (Ret errs, set_started s 0, w') /\ R w'.
Proof.
  intros Hl Hk Hrel HP. unfold cleanup. destruct (undo_rule P _ (cleanupContext now ctx s w) Hl _ _ Hk HP) as (errs & w1 & -> & HP1).
  cbn [set_started release]. destruct (if rel then release s else None) as [f|]; simpl in Hrel.
  - destruct (Hrel (cleanupContext now ctx s w) w1 HP1) as [Hn HR]. destruct (f _ w1) as [[r|] w2]; [|done]. by eexists _, _.
  - eexists _, _. split; [done|]. by apply Hrel.
Qed.

(** How the loop leaves: all steps started, or as many as [started] says and
    the next one failed. *)
Lemma start_steps_rule (P Q : nat -> W -> Prop) ctx l :
  (forall i step, l !! i = Some step -> start_keeps P Q i step) -> (forall i w, i < length l -> P i w -> Q i w) ->
  forall s w x s' w', started s <= length l -> P (started s) w -> start_steps now ctx (drop (started s) l) s w = (x, s', w') ->
  s' = set_started s (started s') /\ started s' <= length l /\
  match x with AllStarted => started s' = length l /\ P (length l) w' | _ => Q (started s') w' end.
Proof.
  intros Hl HPQ s. remember (drop (started s) l) as rest eqn:Hrest. revert s Hrest.
  induction rest as [|step rest IH]; intros s Hrest w x s' w' Hle HP; simpl.
  { intros [= <- <- <-]. assert (started s = length l) as Hlen.
    { pose proof (f_equal length Hrest) as Hlen. rewrite length_drop in Hlen. simpl in Hlen. lia. }
    split_and!; [by destruct s|lia|done|by rewrite <- Hlen]. }
  assert (l !! started s = Some step) as Hs. { by rewrite <- (Nat.add_0_r (started s)), <- lookup_drop, <- Hrest. }
  assert (started s < length l) by (by apply lookup_lt_Some in Hs).
  assert (forall w1 x1, x1 <> AllStarted -> Q (started s) w1 -> (x1, s, w1) = (x, s', w') ->
    s' = set_started s (started s') /\ started s' <= length l /\
    match x with AllStarted => started s' = length l /\ P (length l) w' | _ => Q (started s') w' end) as Hleave.
  { intros w1 x1 Hx HP1 [= <- <- <-]. split_and!; [by destruct s|lia|by destruct x1]. }
  destruct (protocol.ctx_err (now w) ctx); [apply Hleave; [done|auto]|].
  destruct (StepStart step) as [start|] eqn:Hst; [|apply Hleave; [done|auto]].
  pose proof (Hl _ _ Hs _ ctx w Hst HP) as Hstep. destruct (start ctx w) as [[[e|]|] w1]; [by apply Hleave| |by apply Hleave].
  intros Hrun. apply IH in Hrun as (Heq & HP' & Hall); [|symmetry; simpl; by eapply skipn_S_eq|simpl; lia|done].
  split_and!; [by rewrite Heq at 1|done|done].
Qed.

Context (P Q : nat -> W -> Prop) (R : W -> Prop) (s : Sequence W E).
Hypothesis steps_start : forall i step, steps s !! i = Some step -> start_keeps P Q i step.
Hypothesis steps_stop : forall i step, steps s !! i = Some step -> stop_keeps Q i step.
Hypothesis before_after : forall i w, i < length (steps s) -> P i w -> Q i w.
Hypothesis released : releases (Q 0) R (release s).

(** [Start] on a new sequence: it runs, or everything is undone and
    released. *)
Lemma start_rule ctx w r s' w' : state s = StateNew -> started s = 0 -> P 0 w -> Start now ctx s w = (r, s', w') ->
  (r = Ret Started_ /\ s' = set_started (setState s StateRunning) (length (steps s)) /\ P (length (steps s)) w') \/
  (r <> Ret Started_ /\ s' = setState s StateFailed /\ R w').
Proof.
  intros Hst H0 HP. unfold Start. rewrite bool_decide_false by (by intros []).
  destruct (start_steps now ctx _ _ w) as [[x s1] w1] eqn:Hrun.
  change (steps (setState s StateStarting)) with (drop 0 (steps s)) in Hrun. rewrite <- H0 in Hrun, HP.
  destruct (start_steps_rule P Q ctx (steps s) steps_start before_after (setState s StateStarting) w x s1 w1) as (Hs1 & Hle & Hx);
    [simpl; lia|done|done|]. simpl in Hs1, Hle.
  assert (forall i step, steps s1 !! i = Some step -> stop_keeps Q i step) as Hstop by (rewrite Hs1; exact steps_stop).
  assert (started s1 <= length (steps s1)) by (by rewrite Hs1 at 2).
  assert (releases (Q 0) R (release s1)) as Hrel by (rewrite Hs1; exact released).
  assert (forall st, setState (set_started s1 0) st = setState s st) as Hback by (intros; rewrite Hs1; unfold set_started, setState; simpl; by rewrite H0).
  destruct x as [|name c|].
  - destruct Hx as [Hn HP1]. intros [= <- <- <-]. left. split_and!; [done| |done]. rewrite Hs1, Hn. done.
  - destruct (cleanup_rule Q R ctx true s1 w1 Hstop H Hrel Hx) as (errs & w2 & -> & HR). intros [= <- <- <-]. right. split_and!; [done|apply Hback|done].
  - destruct (cleanup_rule Q R ctx true s1 w1 Hstop H Hrel Hx) as (errs & w2 & -> & HR). intros [= <- <- <-]. right. split_and!; [done|apply Hback|done].
Qed.
End Spec.

(** [Stop] on a running sequence: everything is undone. *)
Lemma stop_rule {W E} (now : W -> Z) (Q : nat -> W -> Prop) (s : Sequence W E) ctx w r s' w' :
  (forall i step, steps s !! i = Some step -> stop_keeps Q i step) ->
  state s = StateRunning -> started s = length (steps s) -> Q (length (steps s)) w ->
  Stop now ctx s w = (r, s', w') -> r <> Panicked /\ s' = set_started (setState s StateStopped) 0 /\ Q 0 w'.
Proof.
  intros Hstop Hst Hn HQ. unfold Stop. rewrite Hst. rewrite !bool_decide_false by done. simpl.
  destruct (cleanup_rule now Q (Q 0) ctx false (setState s StateStopping) w) as (errs & w1 & -> & HR); [done|simpl; lia|by intros ?|by simpl; rewrite Hn|].
  by intros [= <- <- <-].
Qed.

(** [Stop] on a new sequence: what was handed over is released. *)
Lemma stop_new_rule {W E} (now : W -> Z) (Q R : W -> Prop) (s : Sequence W E) ctx w r s' w' :
  releases Q R (release s) -> state s = StateNew -> started s = 0 -> Q w ->
  Stop now ctx s w = (r, s', w') -> r <> Panicked /\ s' = setState s StateStopped /\ R w'.
Proof.
  intros Hrel Hst Hn HQ. unfold Stop. rewrite Hst. rewrite bool_decide_false, bool_decide_false, bool_decide_true by done. simpl.
  unfold cleanup. simpl. rewrite Hn. simpl. unfold releases in Hrel. destruct (release s) as [f|].
  - destruct (Hrel (cleanupContext now ctx (setState s StateStopping) w) w HQ) as [Hp HR]. destruct (f _ w) as [[e|] w1]; [|done].
    intros [= <- <- <-]. split_and!; [done|by destruct s; simpl in *; subst|done].
  - intros [= <- <- <-]. split_and!; [done|by destruct s; simpl in *; subst|by apply Hrel].
Qed.

(** A sequence that ended admits nothing: [Start] is refused and [Stop] does
    nothing. *)
Lemma ended_inert {W E} (now : W -> Z) (s : Sequence W E) ctx w : state s = StateStopped \/ state s = StateFailed ->
  Start now ctx s w = (Ret (ErrNotStartable (state s)), s, w) /\ Stop now ctx s w = (Ret [], s, w).
Proof. intros Hst. unfold Start, Stop. destruct Hst as [-> | ->]; split; done. Qed.

Lemma not_new_refused {W E} (now : W -> Z) (s : Sequence W E) ctx w : state s <> StateNew ->
  Start now ctx s w = (Ret (ErrNotStartable (state s)), s, w).
Proof. intros Hst. unfold Start. by rewrite bool_decide_true. Qed.

(** ** Every step is undone exactly once *)
Inductive event := EvStart (i : nat) | EvStop (i : nat) | EvRelease.

Section Trace.
Context {W E : Type} (now : W -> Z).

(** The same sequence over a world that also notes which functions were
    called. *)
Definition noted (ev : event) (f : action W E) : action (W * list event) E :=
  fun ctx wl => let '(r, w) := f ctx wl.1 in (r, (w, wl.2 ++ [ev])).
Definition traced_step (i : nat) (st : Step W E) : Step (W * list event) E :=
  mkStep (Name st) (noted (EvStart i) <$> StepStart st) (noted (EvStop i) <$> StepStop st).
Definition traced (s : Sequence W E) : Sequence (W * list event) E :=
  mkSequence (state s) (imap traced_step (steps s)) (noted EvRelease <$> release s) (timeout s) (started s).
Definition tnow (wl : W * list event) : Z := now wl.1.

(** Noting the calls changes nothing else. *)
Definition notes (t : Step (W * list event) E) (st : Step W E) : Prop := exists i, t = traced_step i st.

Lemma undo_traced ctx ts l : Forall2 notes ts l -> forall w tr, exists tr',
  undo ctx ts (w, tr) = ((undo ctx l w).1, ((undo ctx l w).2, tr')).
Proof.
  induction 1 as [|t st ts l [i ->] _ IH]; intros w tr; simpl; [by eexists|].
  destruct (StepStop st) as [stop|]; simpl; [|apply IH]. unfold noted. simpl. destruct (stop ctx w) as [[r|] w1]; [|by eexists].
  destruct (IH w1 (tr ++ [EvStop i])) as [tr' ->]. destruct (undo ctx l w1) as [[errs|] w2]; by eexists.
Qed.

Lemma traced_notes l : Forall2 notes (imap traced_step l) l.
Proof. apply Forall2_same_length_lookup_2; [by rewrite length_imap|]. intros i t st. rewrite list_lookup_imap. intros Ht Hst. rewrite Hst in Ht. injection Ht as <-. by eexists. Qed.

Lemma cleanup_traced ctx rel s w tr : exists tr', cleanup tnow ctx rel (traced s) (w, tr) =
  let '(r, s', w') := cleanup now ctx rel s w in (r, traced s', (w', tr')).
Proof.
  unfold cleanup. assert (Forall2 notes (reverse (take (started s) (imap traced_step (steps s)))) (reverse (take (started s) (steps s)))) as Hn
    by (apply Forall2_reverse, Forall2_take, traced_notes).
  destruct (undo_traced (cleanupContext now ctx s w) _ _ Hn w tr) as [tr1 Hu].
  change (cleanupContext tnow ctx (traced s) (w, tr)) with (cleanupContext now ctx s w). simpl started. simpl steps. rewrite Hu.
  destruct (undo _ (reverse (take (started s) (steps s))) w) as [[errs|] w1]; simpl; [|by eexists].
  destruct rel; simpl; [|by eexists]. destruct (release s) as [f|]; simpl; [|by eexists]. unfold noted. simpl.
  destruct (f _ w1) as [[r|] w2]; by eexists.
Qed.

Lemma start_steps_traced ctx ts l : Forall2 notes ts l -> forall s w tr, exists tr', start_steps tnow ctx ts (traced s) (w, tr) =
  let '(x, s', w') := start_steps now ctx l s w in (x, traced s', (w', tr')).
Proof.
  induction 1 as [|t st ts l [i ->] _ IH]; intros s w tr; simpl; [by eexists|]. unfold tnow at 1. simpl.
  destruct (protocol.ctx_err _ _); [by eexists|]. destruct (StepStart st) as [start|]; simpl; [|by eexists]. unfold noted. simpl.
  destruct (start ctx w) as [[[e|]|] w1]; [by eexists| |by eexists]. apply (IH (set_started s (S (started s)))).
Qed.

Lemma run_traced calls : forall s w tr, exists tr', run tnow calls (traced s) (w, tr) =
  let '(s', w') := run now calls s w in (traced s', (w', tr')).
Proof.
  induction calls as [|[ctx|ctx] calls IH]; intros s w tr; simpl; [by eexists|..].
  - unfold Start. simpl state. case_bool_decide; [apply IH|].
    destruct (start_steps_traced ctx _ _ (traced_notes (steps s)) (setState s StateStarting) w tr) as [tr1 Hs].
    change (setState (traced s) StateStarting) with (traced (setState s StateStarting)). simpl steps in *. rewrite Hs.
    destruct (start_steps now ctx (steps s) _ w) as [[[|name c|] s1] w1]; [apply (IH (setState s1 StateRunning))|..].
    all: destruct (cleanup_traced ctx true s1 w1 tr1) as [tr2 ->]; destruct (cleanup now ctx true s1 w1) as [[[errs|] s2] w2];
      [apply (IH (setState s2 StateFailed))|apply IH].
  - unfold Stop. simpl state. destruct (_ || _); [apply IH|].
    destruct (cleanup_traced ctx (bool_decide (state s = StateNew)) (setState s StateStopping) w tr) as [tr1 Hc].
    change (setState (traced s) StateStopping) with (traced (setState s StateStopping)). rewrite Hc.
    destruct (cleanup now ctx _ _ w) as [[[errs|] s1] w1]; [apply (IH (setState s1 StateStopped))|apply IH].
Qed.

Context (s : Sequence W E).
Abbreviation n := (length (steps s)).

Definition has_stop (i : nat) : bool := match steps s !! i with Some st => match StepStop st with Some _ => true | None => false end | None => false end.
Definition starts (k : nat) : list event := EvStart <$> seq 0 k.
(** From step [k - 1] down to step [i]. *)
Definition stops (i k : nat) : list event := EvStop <$> filter (fun j => has_stop j = true) (reverse (seq i (k - i))).
Definition freed : list event := match release s with Some _ => [EvRelease] | None => [] end.

(** What was called, by the state the sequence is in. In a failed one [k]
    steps had started and the next was called ([c] is 1) or not, because the
    context was done. *)
Inductive history : State -> list event -> Prop :=
| history_new : history StateNew []
| history_running : history StateRunning (starts n)
| history_stopped : history StateStopped (starts n ++ stops 0 n)
| history_unused : history StateStopped freed
| history_failed k c : k < n -> c <= 1 -> history StateFailed (starts (k + c) ++ stops 0 k ++ freed).

(** Undoing a step and releasing do not panic; starting may. *)
Hypothesis calm_stop : forall i st stop ctx w, steps s !! i = Some st -> StepStop st = Some stop -> (stop ctx w).1 <> Panicked.
Hypothesis calm_release : forall f ctx w, release s = Some f -> (f ctx w).1 <> Panicked.
Hypothesis fresh : state s = StateNew /\ started s = 0.

Lemma starts_S k : starts (S k) = starts k ++ [EvStart k].
Proof. unfold starts. by rewrite seq_S, fmap_app. Qed.

Lemma stops_nil k : stops k k = [].
Proof. unfold stops. by rewrite Nat.sub_diag. Qed.

Lemma stops_S i k : i < k -> stops i k = stops (S i) k ++ (if has_stop i then [EvStop i] else []).
Proof.
  intros Hi. unfold stops. replace (k - i) with (S (k - S i)) by lia. cbn [seq]. rewrite reverse_cons, filter_app, fmap_app. f_equal.
  rewrite filter_cons, filter_nil. destruct (decide (has_stop i = true)) as [-> | ->%not_true_is_false]; done.
Qed.

(** The world before step [i], and after undoing down to step [i]. *)
Definition before (i : nat) (wl : W * list event) : Prop := wl.2 = starts i.
Definition after (k c i : nat) (wl : W * list event) : Prop := i <= k /\ wl.2 = starts (k + c) ++ stops i k.
Definition undoing (i : nat) (wl : W * list event) : Prop := exists k c, k < n /\ c <= 1 /\ after k c i wl.

Lemma traced_lookup i st : steps (traced s) !! i = Some st -> exists st0, steps s !! i = Some st0 /\ st = traced_step i st0.
Proof. simpl. rewrite list_lookup_imap. destruct (steps s !! i); simpl; [|done]. intros [= <-]. by eexists. Qed.

Lemma traced_stop k c i st : steps (traced s) !! i = Some st -> forall wl, after k c (S i) wl ->
  match StepStop st with None => after k c i wl | Some stop => forall ctx, (stop ctx wl).1 <> Panicked /\ after k c i (stop ctx wl).2 end.
Proof.
  intros (st0 & Hst & ->)%traced_lookup [w l] [Hi Hl]. simpl in *. subst l.
  assert (stops i k = stops (S i) k ++ match StepStop st0 with Some _ => [EvStop i] | None => [] end) as Hstop.
  { rewrite stops_S by lia. unfold has_stop. rewrite Hst. by destruct (StepStop st0). }
  destruct (StepStop st0) as [stop|] eqn:Hs; simpl.
  - intros ctx. unfold noted. pose proof (calm_stop _ _ _ ctx w Hst Hs) as Hn. cbn [fst snd]. destruct (stop ctx w) as [r w1]. split; [exact Hn|].
    split; [lia|]. simpl. by rewrite <- app_assoc, Hstop.
  - split; [lia|]. simpl. by rewrite Hstop, app_nil_r.
Qed.

Lemma stops_keep k c i st : steps (traced s) !! i = Some st -> stop_keeps (after k c) i st.
Proof. intros Hst. pose proof (traced_stop k c i st Hst) as H. unfold stop_keeps. destruct (StepStop st); eauto. Qed.

Lemma undoing_keep i st : steps (traced s) !! i = Some st -> stop_keeps undoing i st.
Proof.
  intros Hst. unfold stop_keeps. destruct (StepStop st) as [stop|] eqn:Hs.
  - intros ctx wl (k & c & Hk & Hc & Ha). pose proof (traced_stop k c i st Hst wl Ha) as H. rewrite Hs in H. destruct (H ctx).
    split; [done|]. by exists k, c.
  - intros wl (k & c & Hk & Hc & Ha). pose proof (traced_stop k c i st Hst wl Ha) as H. rewrite Hs in H. by exists k, c.
Qed.

Lemma before_undoing i wl : i < n -> before i wl -> undoing i wl.
Proof.
  intros Hi Hb. exists i, 0. split_and!; [lia..|]. split; [done|]. rewrite Nat.add_0_r, stops_nil, app_nil_r. exact Hb.
Qed.

Lemma traced_start i st : steps (traced s) !! i = Some st -> start_keeps before undoing i st.
Proof.
  intros (st0 & Hst & ->)%traced_lookup start ctx [w l] Hs Hb. simpl in Hs. apply fmap_Some in Hs as (f & Hf & ->).
  unfold before in Hb. simpl in Hb. subst l. unfold noted. simpl. destruct (f ctx w) as [r w1].
  assert (undoing i (w1, starts i ++ [EvStart i])) as Hu.
  { exists i, 1. apply lookup_lt_Some in Hst. split_and!; [lia..|]. split; [done|]. simpl. by rewrite Nat.add_1_r, starts_S, stops_nil, app_nil_r. }
  destruct r as [[e|]|]; [done| |done]. unfold before. simpl. by rewrite starts_S.
Qed.

Lemma traced_releases (P R : list event -> Prop) : (forall l, P l -> R (l ++ freed)) ->
  releases (fun wl : W * list event => P wl.2) (fun wl => R wl.2) (release (traced s)).
Proof.
  intros HP. unfold releases, traced, freed in *. simpl. destruct (release s) as [f|] eqn:Hf; simpl.
  - intros ctx [w l] Hl. unfold noted. simpl. pose proof (calm_release f ctx w eq_refl) as Hn. destruct (f ctx w) as [r w1]. split; [exact Hn|]. by apply HP.
  - intros [w l] Hl. specialize (HP _ Hl). by rewrite app_nil_r in HP.
Qed.

(** The states a sequence can be in between calls. *)
Definition at_rest (s' : Sequence (W * list event) E) (wl : W * list event) : Prop :=
  s' = setState (traced s) (state s') /\ state s' <> StateRunning /\ history (state s') wl.2 \/
  s' = set_started (setState (traced s) StateRunning) n /\ wl.2 = starts n.

Lemma start_at_rest ctx w r s' wl : Start tnow ctx (traced s) (w, []) = (r, s', wl) -> at_rest s' wl.
Proof.
  intros Hs. destruct fresh as [Hn H0].
  destruct (start_rule tnow before undoing (fun wl => history StateFailed wl.2) (traced s)) with (ctx := ctx) (w := (w, @nil event)) (r := r) (s' := s') (w' := wl)
    as [(_ & -> & Hb)|(_ & -> & HR)]; [exact traced_start|exact undoing_keep| | |done..| |].
  - intros i wl0 Hi. apply before_undoing. simpl in Hi. by rewrite length_imap in Hi.
  - apply (traced_releases (fun l => exists k c, k < n /\ c <= 1 /\ 0 <= k /\ l = starts (k + c) ++ stops 0 k) (history StateFailed)).
    intros l (k & c & Hk & Hc & _ & ->). rewrite <- app_assoc. by constructor.
  - right. simpl in *. rewrite length_imap in *. done.
  - left. done.
Qed.

Lemma stop_at_rest ctx s0 wl0 r s' wl : at_rest s0 wl0 -> Stop tnow ctx s0 wl0 = (r, s', wl) -> at_rest s' wl.
Proof.
  destruct fresh as [Hn H0]. intros [(Heq & Hr & Hh)|(-> & Hl)] Hs.
  - destruct (decide (state s0 = StateNew)) as [Hnew|Hnew].
    + destruct (stop_new_rule tnow (fun wl => history StateNew wl.2) (fun wl => history StateStopped wl.2) s0 ctx wl0 r s' wl)
        as (_ & -> & HR); [|done|by rewrite Heq|by rewrite <- Hnew|done|].
      * rewrite Heq. apply (traced_releases (history StateNew) (history StateStopped)). intros l Hl. inversion Hl. constructor.
      * left. simpl. rewrite Heq. done.
    + assert (state s0 = StateStopped \/ state s0 = StateFailed) as Hend by (inversion Hh; subst; try congruence; auto).
      destruct (ended_inert tnow s0 ctx wl0 Hend) as [_ Hi]. rewrite Hi in Hs. injection Hs as <- <- <-. by left.
  - destruct (stop_rule tnow (after n 0) (set_started (setState (traced s) StateRunning) n) ctx wl0 r s' wl) as (_ & -> & HQ);
      [intros i st; apply stops_keep|done|simpl; by rewrite length_imap| |done|].
    + simpl. rewrite length_imap. split; [done|]. by rewrite Hl, Nat.add_0_r, stops_nil, app_nil_r.
    + left. split_and!; [simpl; rewrite <- H0; by destruct s|done|]. simpl. destruct HQ as [_ ->]. rewrite Nat.add_0_r. constructor.
Qed.

Lemma start_rest ctx s0 wl0 r s' wl : at_rest s0 wl0 -> Start tnow ctx s0 wl0 = (r, s', wl) -> at_rest s' wl.
Proof.
  intros Hrest Hs. destruct (decide (state s0 = StateNew)) as [Hnew|Hnew].
  - destruct Hrest as [(Heq & _ & Hh)|(-> & _)]; [|done]. rewrite Hnew in *. destruct fresh as [Hn H0].
    assert (s0 = traced s) as ->. { rewrite Heq. unfold setState, traced. simpl. by rewrite Hn. }
    destruct wl0 as [w l]. inversion Hh. simpl in *. subst. by eapply start_at_rest.
  - rewrite (not_new_refused tnow s0 ctx wl0 Hnew) in Hs. by injection Hs as <- <- <-.
Qed.

Lemma run_history calls w s' w' : run now calls s w = (s', w') ->
  exists log, run tnow calls (traced s) (w, []) = (traced s', (w', log)) /\ history (state s') log.
Proof.
  intros Hw. destruct (run_traced calls s w []) as [log Ht]. rewrite Hw in Ht. exists log. split; [done|].
  assert (forall calls s0 wl0 s1 wl1, at_rest s0 wl0 -> run tnow calls s0 wl0 = (s1, wl1) -> at_rest s1 wl1) as Hrun.
  { clear -calm_stop calm_release fresh. induction calls as [|[ctx|ctx] calls IH]; intros s0 wl0 s1 wl1 Hrest; simpl; [by intros [= <- <-]|..].
    - destruct (Start tnow ctx s0 wl0) as [[r s2] wl2] eqn:Hs. apply IH. by eapply start_rest.
    - destruct (Stop tnow ctx s0 wl0) as [[r s2] wl2] eqn:Hs. apply IH. by eapply stop_at_rest. }
  apply Hrun in Ht as [(_ & _ & Hh)|(Heq & Hl)]; [done| |].
  - simpl in Hl. subst log. assert (state s' = StateRunning) as -> by (by change (state s') with (state (traced s')); rewrite Heq). constructor.
  - left. destruct fresh as [Hn H0]. simpl. rewrite Hn. split_and!; [|done|constructor]. unfold traced, setState. simpl. by rewrite Hn.
Qed.

End Trace.

(** C25: Whatever [Start] and [Stop] calls follow each other on a new sequence,
    and however the starts of its steps fail or panic, provided that neither
    undoing a step nor the release panics (both may fail): the steps were
    started in order, each at most once, and the sequence went no further than
    the one that failed or panicked; when it has stopped or failed, exactly
    those that started were undone, once each and in reverse order; and what
    no step owns was released once, last, after a failed start and when
    nothing was ever started, and not at all when it ran and was stopped. *)
Theorem undone_exactly_once {W E} (now : W -> Z) (s : Sequence W E) calls w s' w' :
  (forall i st stop ctx w, steps s !! i = Some st -> StepStop st = Some stop -> (stop ctx w).1 <> Panicked) ->
  (forall f ctx w, release s = Some f -> (f ctx w).1 <> Panicked) ->
  state s = StateNew -> started s = 0 -> run now calls s w = (s', w') ->
  exists log, run (tnow now) calls (traced s) (w, []) = (traced s', (w', log)) /\ history s (state s') log.
Proof. intros Hs Hr Hn H0. by apply run_history. Qed.
End lifecycle_spec.
