(* ===== verification/SagaPump.v ===== *)
(** * How a saga is fed and stopped

    The rest of [src/internal/engine/saga/saga_actor.go]: the goroutine
    [consumeEvents], which forwards the events of the shared stream to the
    saga's own mailbox, and [PostStop], between which and the publishers of
    the stream it runs. The stop channel is a value of its own: [close] of a
    nil or closed channel panics. *)

From S2P Require Import Prelude Tenancy Persistence Egopb StoreApi Command Protocol EventSourced Saga Queue QueueSpec Stream StreamSpec Delivery.
From S2P Require Import ActorSystem EngineConfig Engine.
From Stdlib Require Import ZArith Lia.
Open Scope string_scope.
Open Scope list_scope.

Module saga_pump.
Import egopb.

(** ** The stop channel *)
Inductive chan := NilChan | OpenChan | ClosedChan.

Definition close (c : chan) : option chan := match c with OpenChan => Some ClosedChan | _ => None end.

Section Pump.
Context {D : saga.Deps} (a : saga.Actor D).
Abbreviation Message := (eventstream.Message saga.payload).

(** The subscriber with the goroutine that reads it, [consumeEvents]; its log
    is what was told to the actor. *)
Record pump := mkPump { stopCh : chan; feed : option (delivery.world saga.payload Event) }.

(** The actor [New] returns, and the zero value, which is what the kinds
    registered with a cluster hold. *)
Definition New : pump := mkPump OpenChan None.
Definition zero : pump := mkPump NilChan None.

(** The end of [PreStart], a subscriber of the events topic, and [PostStart],
    which starts the goroutine. *)
Definition subscribe (p : pump) : pump := mkPump (stopCh p) (Some delivery.added).

Definition shut (w : delivery.world saga.payload Event) : delivery.world saga.payload Event :=
  delivery.mkWorld (delivery.Shutdown (delivery.sub w)) (delivery.pc w) (delivery.log w).

Definition PostStop (p : pump) : option pump := c ← close (stopCh p); Some (mkPump c (shut <$> feed p)).

(** One message: only events of others are told to the actor. *)
Definition as_event (m : saga.payload) : option Event :=
  match m with
  | saga.PEvent e => if bool_decide (PersistenceId e = saga.sagaID D a) then None else Some e
  | _ => None
  end.

(** A closed channel is always ready, an open or nil one never. *)
Definition ready (c : chan) : bool := match c with ClosedChan => true | _ => false end.

(** The goroutine, those who publish to the stream, one at a time, and
    [PostStop] take turns. *)
Inductive step : pump -> pump -> Prop :=
| step_publish c f f' pc l : delivery.signal_step f f' -> step (mkPump c (Some (delivery.mkWorld f pc l))) (mkPump c (Some (delivery.mkWorld f' pc l)))
| step_stop p p' : PostStop p = Some p' -> step p p'
| step_consume c w w' : delivery.goroutine_step as_event (ready c) w w' -> step (mkPump c (Some w)) (mkPump c (Some w')).

(** ** Forwarding *)
Definition pump_inv (p : pump) : Prop := exists w, feed p = Some w /\ delivery.dinv as_event w.

Lemma pump_inv_new : pump_inv (subscribe New).
Proof. eexists. split; [done|]. apply delivery.dinv_added. Qed.

Lemma pump_inv_step p p' : step p p' -> pump_inv p -> pump_inv p'.
Proof.
  intros Hs (w & Hw & Hinv). destruct Hs as [c f f' pc l Hs|p p' Hstop|c w0 w' Hs]; simpl in *.
  - injection Hw as <-. eexists. split; [done|]. by eapply delivery.signal_dinv.
  - unfold PostStop in Hstop. destruct (close (stopCh p)) as [c|]; simplify_eq/=. rewrite Hw. simpl. eexists. split; [done|].
    destruct w as [[s act nt sg] pc l]. eapply delivery.shutdown_dinv; [apply delivery.shutdown_wake|].
    by eapply delivery.shutdown_dinv; [apply delivery.shutdown_store|].
  - injection Hw as <-. eexists. split; [done|]. by eapply delivery.goroutine_dinv.
Qed.

(** As long as publications to its subscriber do not overlap, and however the
    accesses of publishing, of the goroutine and a stop interleave: what the
    saga was told is, in order and each once, the events of other entities
    among what was published to it; and while it was not stopped, it was told
    of all of them by the time the goroutine waits without a token and no
    publication is under way. *)
Theorem saga_fed_in_order p w : rtc step (subscribe New) p -> feed p = Some w ->
  exists rest, saga.consumeEvents D a (eventstream.payload <$> delivery.published (delivery.sub w)) = delivery.log w ++ rest /\
    (delivery.pc w = delivery.SWait -> delivery.active (delivery.sub w) = true -> delivery.notify (delivery.sub w) = false ->
     delivery.signalling (delivery.sub w) = false -> rest = []).
Proof.
  intros Hrun Hw. assert (pump_inv p) as (w' & Hw' & Hinv).
  { generalize pump_inv_new. induction Hrun as [|p1 p2 p3 Hs _ IH]; [done|]. intros H. apply IH; [done|]. by eapply pump_inv_step. }
  rewrite Hw in Hw'. injection Hw' as <-. exact (delivery.dinv_delivered as_event w Hinv).
Qed.

(** ** Stopping *)

(** A saga made by [New] stops once: the channel is closed, for good, and the
    subscriber shut down. A second stop panics, since nothing makes a new
    channel when the actor is started again; so does the first stop of a
    zero-valued saga, which is what the kinds registered with a cluster
    hold. *)
Theorem saga_stops_once p : rtc step (subscribe New) p ->
  (stopCh p = OpenChan /\ exists p', PostStop p = Some p' /\ stopCh p' = ClosedChan /\ PostStop (subscribe p') = None) \/
  (stopCh p = ClosedChan /\ PostStop (subscribe p) = None).
Proof.
  intros Hrun. assert (stopCh p = OpenChan \/ stopCh p = ClosedChan) as [Ho|Hc].
  { assert (stopCh (subscribe New) = OpenChan \/ stopCh (subscribe New) = ClosedChan) as H by (by left). revert H.
    induction Hrun as [|p1 p2 p3 Hs _ IH]; [done|]. intros H. apply IH. destruct Hs as [|q q' Hq|]; simpl in *; [done| |done].
    unfold PostStop in Hq. destruct (stopCh q); simplify_eq/=. by right. }
  - left. split; [done|]. unfold PostStop. rewrite Ho. simpl. by eexists.
  - right. split; [done|]. unfold PostStop. simpl. by rewrite Hc.
Qed.

Theorem zero_saga_stop_panics : PostStop (subscribe zero) = None.
Proof. done. Qed.
End Pump.
End saga_pump.
