(* ===== verification/ProjectionActor.v ===== *)
(** * The projection actor

    [lookup]: how an actor finds its collaborators on the actor system
    ([src/internal/extensions/lookup.go]). [projection_actor]: the actor that
    hosts a projection's runner ([src/internal/engine/projection],
    [src/internal/projectionrunner/option.go]): [PreStart], [Receive],
    [PostStop]. *)

From S2P Require Import Prelude GoStrings Tenancy Persistence Egopb EventSourced Projection ActorSystem EngineConfig Engine EngineConfigSpec.
From Stdlib Require Import ZArith Lia.
Open Scope string_scope.
Open Scope list_scope.

Module lookup.
Import extensions.

(** Both wrap [ErrMissingRequiredExtensions]. *)
Inductive error := NotRegistered (id actor : string) | UnexpectedType (id actor : string).

(** [as_T] is the type assertion. *)
Definition Require {T} (as_T : Extension -> option T) (ext : string -> option Extension) (id actor : string) : result error T :=
  match ext id with
  | None => Err (NotRegistered id actor)
  | Some x => match as_T x with Some t => Ok t | None => Err (UnexpectedType id actor) end
  end.

(** A nil of the type is [None]. *)
Definition Optional {T} (as_T : Extension -> option T) (ext : string -> option Extension) (id actor : string) : result error (option T) :=
  match ext id with
  | None => Ok None
  | Some x => match as_T x with Some t => Ok (Some t) | None => Err (UnexpectedType id actor) end
  end.

Definition as_events_store (x : Extension) : option bool := match x with XEventsStore b => Some b | _ => None end.
Definition as_offset_store (x : Extension) : option unit := match x with XOffsetStore => Some tt | _ => None end.
Definition as_projections (x : Extension) : option (gmap string Options) := match x with XProjection m => Some m | _ => None end.
Definition as_adapters (x : Extension) : option (list string) := match x with XEventAdapters l => Some l | _ => None end.
Definition as_stream (x : Extension) : option nat := match x with XEventsStream n => Some n | _ => None end.
Definition as_encryptor (x : Extension) : option unit := match x with XEncryptor => Some tt | _ => None end.
Definition as_telemetry (x : Extension) : option unit := match x with XTelemetry => Some tt | _ => None end.
End lookup.

Module projection_actor.
Import egopb extensions lookup.
Open Scope urd_scope.

Inductive error := ELookup (e : lookup.error) | ENotRegistered (name : string) | EStart (m : string).

Section Actor.
Context {J O H : Type} {JO : projection.Journal J} {OO : projection.Offsets O} {HO : projection.Handler H}.
(** What the extensions hold: event adapters by name, the encryptor, the
    stores, the handlers by name; and the runner's wire codec and panic
    report. *)
Context (adapter : string -> option Any -> N -> result string (option Any)) (enc : eventsource.Encryptor).
Context (journal : J) (offsets : O) (handler : string -> H).
Context (protoUnmarshal : string -> result string Any) (stack : string).
(** What the stores answer when the runner pings them. *)
Context (ping : nat -> result string unit) (done : nat -> bool).

(** [subscribed]: the runner was given the event stream. *)
Record Actor := mkActor {
  runner : option (projection.Config * projection.Sys (J := J) (O := O) (H := H));
  subscribed : bool;
  metrics : bool;
  escalate : option (string -> string)
}.

Definition New : Actor := mkActor None false false None.
Definition SetEscalation (a : Actor) (f : string -> string) : Actor := mkActor (runner a) (subscribed a) (metrics a) (Some f).

(** A configured time, as the runner uses it. *)
Definition offset_of (t : Z) : option Z := if (t =? engine.ZeroTime)%Z then None else Some (engine.unix_milli t).

(** The options applied to a new runner; they replace its defaults. *)
Definition runnerConfig (name : string) (o : Options) (r : projection.Recovery) (adapters : option (list string)) (encryptor : option unit) : projection.Config :=
  projection.mkConfig name r (BufferSize o) (PullInterval o) (offset_of (StartOffset o)) (offset_of (ResetOffset o))
    ((fun _ => enc) <$> encryptor) protoUnmarshal (adapter <$> default [] adapters) stack.

(** [None] is a panic. The registry is normalized ([GoaktOptions]): its
    options have a recovery strategy, without which the runner dereferences
    nil. *)
Definition PreStart (ext : string -> option Extension) (name : string) (a : Actor) : option (result error unit * Actor) :=
  let found :=
    let? _ := Require as_offset_store ext OffsetStoreExtensionID name in
    let? events := Require as_events_store ext EventsStoreExtensionID name in
    let? registry := Require as_projections ext ProjectionExtensionID name in
    Ok (events, registry) in
  match found with
  | Err e => Some (Err (ELookup e), a)
  | Ok (events, registry) =>
    match registry !! name with
    | None => Some (Err (ENotRegistered name), a)
    | Some options =>
      match (let? adapters := Optional as_adapters ext EventAdaptersExtensionID name in
             let? stream := Optional as_stream ext EventsStreamExtensionID name in
             let? encryptor := Optional as_encryptor ext EncryptorExtensionID name in
             let? telemetry := Optional as_telemetry ext TelemetryExtensionID name in
             Ok (adapters, stream, encryptor, telemetry)) with
      | Err e => Some (Err (ELookup e), a)
      | Ok (adapters, stream, encryptor, telemetry) =>
        r ← Recovery options;
        let c := runnerConfig name options r adapters encryptor in
        let subscribed := match stream with Some _ => true | None => false end in
        let metrics := match telemetry with Some _ => true | None => metrics a end in
        '(res, x) ← projection.Start c true events (projection.New journal offsets (handler (Handler options))) ping done;
        let a := mkActor (Some (c, x)) subscribed metrics (escalate a) in
        Some (match res with Ok _ => Ok tt | Err m => Err (EStart m) end, a)
      end
    end
  end.

Definition escalation (a : Actor) (cause : string) : string := match escalate a with None => cause | Some f => f cause end.

Inductive message := PostStart | runnerFailed (err : string) | Other.
Inductive effect := Run | Fail (err : string) | Unhandled.

Definition Receive (m : message) : effect :=
  match m with PostStart => Run | runnerFailed err => Fail err | Other => Unhandled end.

(** What the runner's loop sends the actor when it comes to a verdict. *)
Definition notify (a : Actor) (v : projection.verdict) : option message :=
  match v with projection.Stopped cause => Some (runnerFailed (escalation a cause)) | _ => None end.

Definition PostStop (a : Actor) : option Actor :=
  '(c, x) ← runner a; Some (mkActor (Some (c, projection.Stop x)) (subscribed a) (metrics a) (escalate a)).

(** ** Finding the collaborators *)
Import engine_config engine_config_spec.

(** An actor system built from a configuration answers a lookup with the
    extension registered under the id. *)
Definition serves (c : Config) (ext : string -> option Extension) : Prop :=
  built_with ext (GoaktOptions c) /\ forall id x, ext id = Some x -> x ∈ exts (GoaktOptions c) /\ ID x = id.

Lemma serves_at c ext id x : serves c ext -> x ∈ exts (GoaktOptions c) -> ID x = id ->
  (forall y, y ∈ exts (GoaktOptions c) -> ID y = id -> y = x) -> ext id = Some x.
Proof.
  intros [Hb Hs] Hx Hid Hu. destruct (ext id) as [y|] eqn:Hy; [|exfalso; apply (proj2 (Hb id)); [by exists x|done]].
  destruct (Hs _ _ Hy) as [Hin Hid']. by rewrite (Hu y).
Qed.

Ltac unique_ext := intros y Hy Hid; rewrite elem_exts in Hy; repeat destruct Hy as [Hy|Hy]; subst; try (destruct Hy as [? ->]); simpl in Hid; done.

Lemma find_required c ext : serves c ext -> offsetStore c = true -> projections c <> ∅ ->
  ext OffsetStoreExtensionID = Some XOffsetStore /\ ext EventsStoreExtensionID = Some (XEventsStore (eventsStore c)) /\
  ext ProjectionExtensionID = Some (XProjection (normalize <$> projections c)).
Proof.
  intros Hs Ho Hp. split_and!; (eapply serves_at; [exact Hs|rewrite elem_exts|done|unique_ext]).
  - tauto.
  - tauto.
  - rewrite bool_decide_true by done. tauto.
Qed.

(** A lookup of an optional extension never fails on its type. *)
Lemma find_optional {T} (as_T : Extension -> option T) c ext id name :
  serves c ext -> (forall x, ID x = id -> is_Some (as_T x)) -> exists t, Optional as_T ext id name = Ok t.
Proof.
  intros [_ Hs] Ht. unfold Optional. destruct (ext id) as [x|] eqn:Hx; [|by eexists].
  destruct (Ht x) as [t ->]; [by apply (Hs _ _ Hx)|]. by eexists.
Qed.

Lemma optional_found {T} (as_T : Extension -> option T) c ext id name x t : serves c ext -> x ∈ exts (GoaktOptions c) -> ID x = id ->
  (forall y, y ∈ exts (GoaktOptions c) -> ID y = id -> y = x) -> as_T x = Some t -> Optional as_T ext id name = Ok (Some t).
Proof. intros Hs Hx Hid Hu Ht. unfold Optional. by rewrite (serves_at c ext id x), Ht. Qed.

Lemma optional_absent {T} (as_T : Extension -> option T) c ext id name : serves c ext ->
  (forall y, y ∈ exts (GoaktOptions c) -> ID y <> id) -> Optional as_T ext id name = Ok None.
Proof.
  intros [_ Hs] Hn. unfold Optional. destruct (ext id) as [x|] eqn:Hx; [|done]. destruct (Hs _ _ Hx) as [Hin Hid]. by destruct (Hn x Hin).
Qed.

Lemma find_adapters c ext name : serves c ext -> exists l, Optional as_adapters ext EventAdaptersExtensionID name = Ok l /\ default [] l = eventAdapters c.
Proof.
  intros Hs. destruct (decide (eventAdapters c = [])) as [He|He].
  - exists None. split; [|done]. eapply optional_absent; [exact Hs|].
    intros y Hy Hid. rewrite elem_exts, (bool_decide_false (eventAdapters c <> [])) in Hy by (intros Hx; exact (Hx He)). repeat destruct Hy as [Hy|Hy]; subst; try (destruct Hy as [? ->]); simpl in Hid; done.
  - exists (Some (eventAdapters c)). split; [|done]. apply (optional_found _ c ext _ name (XEventAdapters (eventAdapters c))); [exact Hs| |done|unique_ext|done].
    rewrite elem_exts, (bool_decide_true (eventAdapters c <> [])) by done. tauto.
Qed.

Lemma find_encryptor c ext name : serves c ext ->
  Optional as_encryptor ext EncryptorExtensionID name = Ok (if encryptor c then Some tt else None).
Proof.
  intros Hs. destruct (encryptor c) eqn:He.
  - apply (optional_found _ c ext _ name XEncryptor); [exact Hs| |done|unique_ext|done]. rewrite elem_exts, He. tauto.
  - eapply optional_absent; [exact Hs|]. intros y Hy Hid. rewrite elem_exts, He in Hy. repeat destruct Hy as [Hy|Hy]; subst; try (destruct Hy as [? ->]); simpl in Hid; done.
Qed.

(** A projection the engine was configured with, on an actor system built
    from that configuration: its actor finds everything it needs, and its
    runner has what was registered, under the projection's own name, the
    default recovery strategy where none was given; only the runner itself
    can keep it from starting. When the stores answer at once and no reset is
    asked for, it starts, provided the pull interval is positive; otherwise
    [PreStart] panics. *)
Theorem registered_projection_starts c ext name o a :
  serves c ext -> offsetStore c = true -> eventsStore c = true -> projections c !! name = Some o ->
  exists cfg, projection.name cfg = name /\ projection.maxBufferSize cfg = BufferSize o /\ projection.pullInterval cfg = PullInterval o /\
    projection.startingOffset cfg = offset_of (StartOffset o) /\ projection.resetOffsetTo cfg = offset_of (ResetOffset o) /\
    projection.recovery cfg = default (projection.NewRecovery []) (Recovery o) /\
    projection.eventAdapters cfg = adapter <$> eventAdapters c /\ projection.encryptor cfg = (if encryptor c then Some enc else None) /\
    let start := projection.Start cfg true true (projection.New journal offsets (handler (Handler o))) ping done in
    fst <$> PreStart ext name a = (fun r => match r.1 with Ok _ => Ok tt | Err m => Err (EStart m) end) <$> start /\
    (ping 0%nat = Ok tt -> ResetOffset o = engine.ZeroTime ->
     if (0 <? PullInterval o)%Z
     then exists a' x, PreStart ext name a = Some (Ok tt, a') /\ runner a' = Some (cfg, x) /\ projection.running x = true
     else PreStart ext name a = None).
Proof.
  intros Hs Ho He Hp. assert (projections c <> ∅) as Hne. { intros E. by rewrite E, lookup_empty in Hp. }
  destruct (find_required c ext Hs Ho Hne) as (H1 & H2 & H3). destruct (find_adapters c ext name Hs) as (l & H4 & Hl).
  pose proof (find_encryptor c ext name Hs) as H5.
  destruct (find_optional as_stream c ext EventsStreamExtensionID name Hs) as [st H6]. { by intros []; simpl; try discriminate; eauto. }
  destruct (find_optional as_telemetry c ext TelemetryExtensionID name Hs) as [tl H7]. { by intros []; simpl; try discriminate; eauto. }
  set (r := default (projection.NewRecovery []) (Recovery o)).
  exists (runnerConfig name o r l (if encryptor c then Some tt else None)).
  assert (Recovery (normalize o) = Some r /\ Handler (normalize o) = Handler o /\ BufferSize (normalize o) = BufferSize o /\
    PullInterval (normalize o) = PullInterval o /\ StartOffset (normalize o) = StartOffset o /\ ResetOffset (normalize o) = ResetOffset o) as (N1 & N2 & N3 & N4 & N5 & N6).
  { unfold normalize, r. by destruct (Recovery o) eqn:Hr; simpl; rewrite ?Hr. }
  assert (runnerConfig name (normalize o) r l (if encryptor c then Some tt else None) = runnerConfig name o r l (if encryptor c then Some tt else None)) as Hcfg
    by (unfold runnerConfig; by rewrite N3, N4, N5, N6).
  assert (PreStart ext name a = '(res, x) ← projection.Start (runnerConfig name o r l (if encryptor c then Some tt else None)) true true
      (projection.New journal offsets (handler (Handler o))) ping done;
    Some (match res with Ok _ => Ok tt | Err m => Err (EStart m) end,
      mkActor (Some (runnerConfig name o r l (if encryptor c then Some tt else None), x)) (match st with Some _ => true | None => false end)
        (match tl with Some _ => true | None => metrics a end) (escalate a))) as Hpre.
  { unfold PreStart, Require. rewrite H1, H2, H3. simpl. rewrite lookup_fmap, Hp. simpl. rewrite H4, H5, H6, H7. simpl. rewrite N1. simpl.
    by rewrite Hcfg, He, N2. }
  split_and!; try done.
  - simpl. by rewrite Hl.
  - simpl. by destruct (encryptor c).
  - intros start. split; [rewrite Hpre; unfold start; by destruct (projection.Start _ _ _ _ _ _) as [[[]]|]|].
    intros Hping Hz. rewrite Hpre. unfold projection.Start, projection.preStart. simpl.
    change (projection.retryOn done 5 (fun i => (ping i, S i)) 0%nat) with (projection.attempts (fun i => (ping i, S i)) done 4 1 0%nat).
    simpl. rewrite Hping. unfold offset_of. rewrite Hz, Z.eqb_refl. simpl.
    destruct (Z.ltb_spec 0 (PullInterval o)); destruct (Z.leb_spec (PullInterval o) 0); try lia; simpl; [by eexists _, _|done].
Qed.

(** A verdict that stops the runner for good fails its actor, with the error
    the engine's wrapper makes of the cause; any other leaves it alone. *)
Lemma verdict_escalates a v : Receive <$> notify a v = match v with projection.Stopped cause => Some (Fail (escalation a cause)) | _ => None end.
Proof. by destruct v. Qed.
End Actor.
End projection_actor.
