(* ===== verification/Encryption.v ===== *)
(** * Encryption at rest and crypto-shredding

    [encryption]: the encryptor of payloads ([src/encryption/aes_encryptor.go])
    over a key store ([key_store.go]), and the in-memory key store
    ([src/testkit/keystore.go]). The block cipher is a parameter: [seal] and
    [open] of AES-GCM under a key and a nonce, of which only that opening
    inverts sealing is used. What the code reads from the random source is an
    argument. *)

From S2P Require Import Prelude.
From Stdlib Require Import Lia.
Open Scope string_scope.
Open Scope list_scope.
Open Scope urd_scope.

Module encryption.

Inductive error := ErrKeyNotFound | ERandom (m : string) | EKeySize (n : nat) | ECiphertextTooShort | EOpen | EWrap (message : string) (e : error).

(** ** The in-memory key store *)
Record KeyStore := mkKeyStore { keys : gmap string string; pids : gmap string string }.
Definition NewKeyStore : KeyStore := mkKeyStore ∅ ∅.

(** [random] is what [rand.Read] makes of the 32 bytes, [uuid] a new id. A
    key id that is registered without a key has the nil key. *)
Definition GetOrCreateKey (k : KeyStore) (random : result string string) (uuid persistenceID : string) : result error (string * string) * KeyStore :=
  match pids k !! persistenceID with
  | Some keyID => (Ok (keyID, default "" (keys k !! keyID)), k)
  | None =>
    match random with
    | Err m => (Err (ERandom m), k)
    | Ok key => (Ok (uuid, key), mkKeyStore (<[uuid := key]> (keys k)) (<[persistenceID := uuid]> (pids k)))
    end
  end.

Definition GetKey (k : KeyStore) (keyID : string) : result error string :=
  match keys k !! keyID with Some key => Ok key | None => Err ErrKeyNotFound end.

Definition DeleteKey (k : KeyStore) (persistenceID : string) : KeyStore :=
  match pids k !! persistenceID with
  | None => k
  | Some keyID => mkKeyStore (delete keyID (keys k)) (delete persistenceID (pids k))
  end.

(** ** The encryptor *)
Section AES.
Context (seal : string -> string -> string -> string) (open_ : string -> string -> string -> option string).
Hypothesis open_seal : forall key nonce plaintext, open_ key nonce (seal key nonce plaintext) = Some plaintext.

(** [aes.NewCipher] takes keys of 16, 24 or 32 bytes; [cipher.NewGCM] of such
    a cipher does not fail. *)
Definition NewCipher (key : string) : result error string :=
  if bool_decide (String.length key = 16) || bool_decide (String.length key = 24) || bool_decide (String.length key = 32)
  then Ok key else Err (EKeySize (String.length key)).
Definition NonceSize : nat := 12.

Definition wrap {A} (m : string) (r : result error A) : result error A := rmap_err (EWrap m) r.

(** [nonce] is what the random source gives for the nonce. *)
Definition Encrypt (k : KeyStore) (random : result string string) (uuid : string) (nonce : result string string) (persistenceID plaintext : string) :
    result error (string * string) * KeyStore :=
  let '(r, k) := GetOrCreateKey k random uuid persistenceID in
  (let? (keyID, key) := wrap "failed to get encryption key" r in
   let? block := wrap "failed to create cipher" (NewCipher key) in
   let? nonce := wrap "failed to generate nonce" (rmap_err ERandom nonce) in
   Ok (nonce +:+ seal block nonce plaintext, keyID), k).

Fixpoint take_str (n : nat) (s : string) : string :=
  match n, s with S n, String c s => String c (take_str n s) | _, _ => "" end.
Fixpoint drop_str (n : nat) (s : string) : string :=
  match n, s with S n, String _ s => drop_str n s | _, _ => s end.

Definition Decrypt (k : KeyStore) (persistenceID ciphertext keyID : string) : result error string :=
  let? key := wrap "failed to get decryption key" (GetKey k keyID) in
  let? block := wrap "failed to create cipher" (NewCipher key) in
  if bool_decide (String.length ciphertext < NonceSize) then Err ECiphertextTooShort
  else match open_ block (take_str NonceSize ciphertext) (drop_str NonceSize ciphertext) with
  | None => Err (EWrap "failed to decrypt" EOpen)
  | Some plaintext => Ok plaintext
  end.

(** ** A key store in use *)
Inductive op := OEncrypt (random : result string string) (uuid : string) (nonce : result string string) (persistenceID plaintext : string)
  | ODelete (persistenceID : string).

Definition run_op (k : KeyStore) (o : op) : KeyStore :=
  match o with
  | OEncrypt random uuid nonce pid p => (Encrypt k random uuid nonce pid p).2
  | ODelete pid => DeleteKey k pid
  end.
Definition run (k : KeyStore) (ops : list op) : KeyStore := foldl run_op k ops.

Definition uuids (ops : list op) : list string := omap (fun o => match o with OEncrypt _ u _ _ _ => Some u | ODelete _ => None end) ops.

(** The random source fills what it is asked to fill. *)
Definition filled (n : nat) (r : result string string) : Prop := match r with Ok s => String.length s = n | Err _ => True end.
Definition wf_op (o : op) : Prop := match o with OEncrypt random _ nonce _ _ => filled 32 random /\ filled NonceSize nonce | ODelete _ => True end.

(** *** Strings *)
Lemma length_app_str s1 s2 : String.length (s1 +:+ s2) = String.length s1 + String.length s2.
Proof. induction s1 as [|c s1 IH]; simpl; [done|]. by rewrite IH. Qed.
Lemma take_str_app s1 s2 : take_str (String.length s1) (s1 +:+ s2) = s1.
Proof. induction s1 as [|c s1 IH]; simpl; [by destruct s2|]. by rewrite IH. Qed.
Lemma drop_str_app s1 s2 : drop_str (String.length s1) (s1 +:+ s2) = s2.
Proof. induction s1 as [|c s1 IH]; simpl; [by destruct s2|done]. Qed.

(** *** The invariant: every entity has a key of its own, whose id was given
    out *)
Record wf (k : KeyStore) (issued : list string) : Prop := {
  wf_key : forall pid kid, pids k !! pid = Some kid -> exists key, keys k !! kid = Some key;
  wf_owner : forall kid key, keys k !! kid = Some key -> String.length key = 32 /\ exists pid, pids k !! pid = Some kid;
  wf_inj : forall pid pid' kid, pids k !! pid = Some kid -> pids k !! pid' = Some kid -> pid = pid';
  wf_issued : forall pid kid, pids k !! pid = Some kid -> kid ∈ issued
}.

Lemma wf_new : wf NewKeyStore [].
Proof. split; intros; simplify_map_eq. Qed.

Lemma wf_more k issued issued' : wf k issued -> (forall x, x ∈ issued -> x ∈ issued') -> wf k issued'.
Proof. intros [] Hsub. split; eauto. Qed.

Lemma wf_create k issued random uuid pid r k' : wf k issued -> filled 32 random -> uuid ∉ issued ->
  GetOrCreateKey k random uuid pid = (r, k') -> wf k' (issued ++ [uuid]) /\
  (forall kid key, r = Ok (kid, key) -> pids k' !! pid = Some kid /\ keys k' !! kid = Some key) /\
  (forall pid', pid' <> pid -> pids k' !! pid' = pids k !! pid') /\
  (is_Some (pids k !! pid) -> pids k' !! pid = pids k !! pid) /\
  (forall kid key, keys k !! kid = Some key -> keys k' !! kid = Some key) /\
  (forall kid, kid <> uuid -> keys k' !! kid = keys k !! kid).
Proof.
  intros Hwf Hr Hu. unfold GetOrCreateKey. destruct (pids k !! pid) as [kid0|] eqn:Hp.
  { intros [= <- <-]. split_and!; [eapply wf_more; [exact Hwf|set_solver]| |done..].
    intros kid key [= <- <-]. destruct (wf_key _ _ Hwf _ _ Hp) as [key' Hk]. by rewrite Hk. }
  destruct random as [key|m]; [|intros [= <- <-]; split_and!; [eapply wf_more; [exact Hwf|set_solver]|done..]].
  assert (forall pid', pids k !! pid' = Some uuid -> False) as Hfresh. { intros pid' H. by apply (wf_issued _ _ Hwf) in H. }
  assert (keys k !! uuid = None) as Hnone.
  { destruct (keys k !! uuid) eqn:E; [|done]. apply (wf_owner _ _ Hwf) in E as [_ [pid' H]]. by apply Hfresh in H. }
  intros [= <- <-]. destruct Hwf as [H1 H2 H3 H4]. split_and!; simpl.
  - split; simpl.
    + intros pid' kid. rewrite lookup_insert. case_decide as E; [intros [= <-]; exists key; apply lookup_insert_eq|].
      intros Hk. destruct (H1 _ _ Hk) as [key' Hk']. exists key'. rewrite lookup_insert_ne; [done|]. intros ->. by apply Hfresh in Hk.
    + intros kid key'. rewrite lookup_insert. case_decide as E; [subst; intros [= <-]; split; [exact Hr|exists pid; apply lookup_insert_eq]|].
      intros Hk. destruct (H2 _ _ Hk) as [Hlen [pid' Hp']]. split; [done|]. exists pid'. rewrite lookup_insert_ne; [done|congruence].
    + intros p1 p2 kid. rewrite !lookup_insert. repeat case_decide; subst; try done; [| |apply H3].
      * intros [= <-] Hk. by apply Hfresh in Hk.
      * intros Hk [= <-]. by apply Hfresh in Hk.
    + intros pid' kid. rewrite lookup_insert. case_decide; [intros [= <-]; set_solver|]. intros Hk. apply H4 in Hk. set_solver.
  - intros kid key' [= <- <-]. by rewrite !lookup_insert_eq.
  - intros pid' Hne. by rewrite lookup_insert_ne.
  - intros [x Hx]. congruence.
  - intros kid key' Hk. rewrite lookup_insert_ne; [done|congruence].
  - intros kid Hne. by rewrite lookup_insert_ne.
Qed.

Lemma wf_delete k issued pid : wf k issued -> wf (DeleteKey k pid) issued /\
  (forall pid' kid, pid' <> pid -> pids k !! pid' = Some kid -> pids (DeleteKey k pid) !! pid' = Some kid /\ keys (DeleteKey k pid) !! kid = keys k !! kid) /\
  (forall kid, pids k !! pid = Some kid -> keys (DeleteKey k pid) !! kid = None) /\
  (forall kid, keys k !! kid = None -> keys (DeleteKey k pid) !! kid = None).
Proof.
  intros Hwf. unfold DeleteKey. destruct (pids k !! pid) as [kid0|] eqn:Hp; [|by split_and!].
  destruct Hwf as [H1 H2 H3 H4]. split_and!; simpl.
  - split; simpl.
    + intros pid' kid [Hne Hk]%lookup_delete_Some. destruct (H1 _ _ Hk) as [key Hkey]. exists key. rewrite lookup_delete_ne; [done|].
      intros ->. by apply Hne, (H3 _ _ kid).
    + intros kid key [Hne Hk]%lookup_delete_Some. destruct (H2 _ _ Hk) as [Hlen [pid' Hp']]. split; [done|]. exists pid'.
      rewrite lookup_delete_ne; [done|]. intros ->. congruence.
    + intros p1 p2 kid [_ Hk1]%lookup_delete_Some [_ Hk2]%lookup_delete_Some. by eapply H3.
    + intros pid' kid [_ Hk]%lookup_delete_Some. by eapply H4.
  - intros pid' kid Hne Hk. rewrite !lookup_delete_ne; [done| |done]. intros ->. by apply Hne, (H3 _ _ kid).
  - intros kid [= <-]. apply lookup_delete_eq.
  - intros kid Hk. apply lookup_delete_None. by right.
Qed.

Lemma encrypt_store k random uuid nonce pid p : (Encrypt k random uuid nonce pid p).2 = (GetOrCreateKey k random uuid pid).2.
Proof. unfold Encrypt. by destruct (GetOrCreateKey k random uuid pid). Qed.

Lemma step_wf k issued o : wf k issued -> wf_op o -> (forall u, u ∈ uuids [o] -> u ∉ issued) -> wf (run_op k o) (issued ++ uuids [o]).
Proof.
  destruct o as [random uuid nonce pid p|pid]; simpl; intros Hwf Ho Hu.
  - rewrite encrypt_store. destruct (GetOrCreateKey k random uuid pid) as [r k'] eqn:Hg.
    eapply wf_create in Hg as [Hwf' _]; [done|done|apply Ho|apply Hu; left].
  - rewrite app_nil_r. by apply wf_delete.
Qed.

(** A later operation that is not this entity's deletion leaves its key; and
    a key id that was given out and has no key never gets one again. *)
Lemma step_keeps k issued o pid kid key : wf k issued -> wf_op o -> (forall u, u ∈ uuids [o] -> u ∉ issued) -> o <> ODelete pid ->
  pids k !! pid = Some kid -> keys k !! kid = Some key -> pids (run_op k o) !! pid = Some kid /\ keys (run_op k o) !! kid = Some key.
Proof.
  destruct o as [random uuid nonce pid' p|pid']; simpl; intros Hwf Ho Hu Hne Hp Hk.
  - rewrite encrypt_store. destruct (GetOrCreateKey k random uuid pid') as [r k'] eqn:Hg.
    eapply wf_create in Hg as (_ & _ & Hother & Hsame & Hkeys & _); [|done|apply Ho|apply Hu; left]. simpl. split; [|by apply Hkeys].
    destruct (decide (pid' = pid)) as [->|Hd]; [by rewrite Hsame by eauto|by rewrite Hother].
  - destruct (wf_delete k issued pid' Hwf) as (_ & Hd & _). destruct (Hd pid kid) as [Hp' Hk']; [congruence|done|]. by rewrite Hk'.
Qed.

Lemma step_gone k issued o kid : wf k issued -> wf_op o -> (forall u, u ∈ uuids [o] -> u ∉ issued) -> kid ∈ issued ->
  keys k !! kid = None -> keys (run_op k o) !! kid = None.
Proof.
  destruct o as [random uuid nonce pid' p|pid']; simpl; intros Hwf Ho Hu Hin Hk.
  - rewrite encrypt_store. destruct (GetOrCreateKey k random uuid pid') as [r k'] eqn:Hg.
    eapply wf_create in Hg as (_ & _ & _ & _ & _ & Hkeys); [|done|apply Ho|apply Hu; left]. simpl. rewrite Hkeys; [done|].
    intros ->. apply (Hu uuid); [left|done].
  - by apply (wf_delete k issued pid' Hwf).
Qed.

Lemma uuids_cons o ops : uuids (o :: ops) = uuids [o] ++ uuids ops.
Proof. by destruct o. Qed.

(** Freshness of ids, one operation at a time. *)
Lemma fresh_cons issued o ops : NoDup (issued ++ uuids (o :: ops)) ->
  (forall u, u ∈ uuids [o] -> u ∉ issued) /\ NoDup ((issued ++ uuids [o]) ++ uuids ops).
Proof.
  rewrite uuids_cons, app_assoc. intros Hnd. split; [|done]. apply NoDup_app in Hnd as (Hnd & _). apply NoDup_app in Hnd as (_ & Hne & _).
  intros u Hu Hi. by apply (Hne u).
Qed.

Lemma run_wf ops : forall k issued, wf k issued -> Forall wf_op ops -> NoDup (issued ++ uuids ops) -> wf (run k ops) (issued ++ uuids ops).
Proof.
  induction ops as [|o ops IH]; intros k issued Hwf Hops Hnd; [by rewrite app_nil_r|]. apply Forall_cons in Hops as [Ho Hops].
  apply fresh_cons in Hnd as [Hu Hnd]. rewrite uuids_cons, app_assoc.
  apply IH; [by apply step_wf|done|done].
Qed.

Lemma run_gone ops : forall k issued kid, wf k issued -> Forall wf_op ops -> NoDup (issued ++ uuids ops) -> kid ∈ issued ->
  keys k !! kid = None -> keys (run k ops) !! kid = None.
Proof.
  induction ops as [|o ops IH]; intros k issued kid Hwf Hops Hnd Hin Hk; simpl; [done|]. apply Forall_cons in Hops as [Ho Hops].
  apply fresh_cons in Hnd as [Hu Hnd]. eapply IH; [by apply step_wf|done|done|set_solver|by eapply step_gone].
Qed.

(** After any operations: the key is there exactly when its entity was not
    deleted in between. *)
Lemma run_key ops : forall k issued pid kid key, wf k issued -> Forall wf_op ops -> NoDup (issued ++ uuids ops) ->
  pids k !! pid = Some kid -> keys k !! kid = Some key ->
  (ODelete pid ∉ ops -> keys (run k ops) !! kid = Some key) /\ (ODelete pid ∈ ops -> keys (run k ops) !! kid = None).
Proof.
  induction ops as [|o ops IH]; intros k issued pid kid key Hwf Hops Hnd Hp Hk; simpl.
  { split; [done|by intros []%not_elem_of_nil]. }
  apply Forall_cons in Hops as [Ho Hops]. apply fresh_cons in Hnd as [Hu Hnd]. pose proof (step_wf k issued o Hwf Ho Hu) as Hwf'.
  assert (o = ODelete pid \/ o <> ODelete pid) as [->|Hne].
  { destruct o as [| pid']; [by right|]. destruct (decide (pid' = pid)) as [->|]; [by left|right; congruence]. }
  - split; [intros Hn; exfalso; apply Hn; left|intros _]. eapply run_gone; [exact Hwf'|done|done| |].
    + apply elem_of_app. left. by eapply wf_issued.
    + simpl. destruct (wf_delete k issued pid Hwf) as (_ & _ & Hgone & _). by apply Hgone.
  - destruct (step_keeps k issued o pid kid key Hwf Ho Hu Hne Hp Hk) as [Hp' Hk'].
    destruct (IH _ _ pid kid key Hwf' Hops Hnd Hp' Hk') as [H1 H2]. split.
    + intros Hn. apply H1. intros Hin. apply Hn. by right.
    + intros [Heq|Hin]%elem_of_cons; [by destruct Hne|by apply H2].
Qed.

Lemma cipher_ok key : String.length key = 32 -> NewCipher key = Ok key.
Proof. intros H. unfold NewCipher. by rewrite H. Qed.

(** C26: A payload encrypted at any moment of the life of a key store is read back
    at any later moment, as it was, while its entity's key was not deleted,
    whatever was encrypted or deleted for others; once the key was deleted it
    cannot be read again, whatever follows, even if the entity is given a new
    key. *)
Theorem shredding_is_final before random uuid nonce pid plaintext later ciphertext keyID k1 :
  let op := OEncrypt random uuid nonce pid plaintext in
  Forall wf_op (before ++ op :: later) -> NoDup (uuids (before ++ op :: later)) ->
  Encrypt (run NewKeyStore before) random uuid nonce pid plaintext = (Ok (ciphertext, keyID), k1) ->
  forall pid', Decrypt (run k1 later) pid' ciphertext keyID =
    if decide (pid ∈ omap (fun o => match o with ODelete p => Some p | _ => None end) later)
    then Err (EWrap "failed to get decryption key" ErrKeyNotFound) else Ok plaintext.
Proof.
  intros op Hops Hnd Henc pid'. apply Forall_app in Hops as [Hb Hops]. apply Forall_cons in Hops as [Ho Hl].
  assert (uuids (before ++ op :: later) = uuids before ++ uuids [op] ++ uuids later) as Heq by (unfold uuids at 1; rewrite omap_app; done).
  rewrite Heq in Hnd. assert (NoDup (uuids before)) as Hndb by (apply NoDup_app in Hnd; apply Hnd).
  pose proof (run_wf before NewKeyStore [] wf_new Hb Hndb) as Hwf. simpl in Hwf. set (k := run NewKeyStore before) in *.
  unfold Encrypt in Henc. destruct (GetOrCreateKey k random uuid pid) as [r k'] eqn:Hg.
  eapply wf_create in Hg as (Hwf' & Hr & _); [|exact Hwf|apply Ho|apply NoDup_app in Hnd as (_ & Hne & _); intros Hin; apply (Hne uuid Hin); left].
  injection Henc as Henc ->. destruct r as [[kid key]|]; [|done]. destruct (Hr kid key eq_refl) as [Hp Hk]. simpl in Henc.
  destruct (wf_owner _ _ Hwf' _ _ Hk) as [Hlen _]. rewrite (cipher_ok _ Hlen) in Henc. simpl in Henc.
  destruct nonce as [n|]; simpl in Henc; [|done]. injection Henc as <- <-.
  destruct (run_key later k1 _ pid kid key Hwf' Hl) as [Hstay Hgone]; [by rewrite <- app_assoc|done|done|].
  unfold Decrypt, GetKey. case_decide as Hd.
  - apply list_elem_of_omap in Hd as ([|p] & Hin & Hp'); [done|]. injection Hp' as ->. by rewrite Hgone.
  - rewrite Hstay by (intros Hin; apply Hd, list_elem_of_omap; by exists (ODelete pid)). unfold wrap. cbn [rmap_err rbind]. rewrite (cipher_ok _ Hlen). cbn [rmap_err rbind].
    destruct Ho as [_ Hn]. unfold filled in Hn. rewrite bool_decide_false by (rewrite length_app_str; lia).
    by rewrite <- Hn, take_str_app, drop_str_app, open_seal.
Qed.
End AES.

(** ** A cipher of one's own *)
Definition toy_seal (key nonce plaintext : string) : string := plaintext.
Definition toy_open (key nonce ciphertext : string) : option string := Some ciphertext.

Definition toy_key : string := "0123456789abcdef0123456789abcdef".
Definition toy_nonce : string := "0123456789ab".

Definition toy_later : list op := [OEncrypt (Ok toy_key) "k2" (Ok toy_nonce) "account-2" "b"; ODelete "account-1"; OEncrypt (Ok toy_key) "k3" (Ok toy_nonce) "account-1" "c"].

Lemma shredding_is_final_witness :
  Decrypt toy_open (run toy_seal (Encrypt toy_seal NewKeyStore (Ok toy_key) "k1" (Ok toy_nonce) "account-1" "secret").2 toy_later)
    "account-1" (toy_nonce +:+ "secret") "k1" = Err (EWrap "failed to get decryption key" ErrKeyNotFound).
Proof.
  apply (shredding_is_final toy_seal toy_open (fun _ _ _ => eq_refl) [] (Ok toy_key) "k1" (Ok toy_nonce) "account-1" "secret" toy_later
    (toy_nonce +:+ "secret") "k1").
  - repeat constructor.
  - vm_compute. repeat (constructor; [rewrite ?elem_of_cons, ?elem_of_nil; intuition discriminate|]). constructor.
  - reflexivity.
Defined.
End encryption.
