(* ===== verification/Compose.v ===== *)
(** * Describing a deployment

    [adapter]: how an adapter says what it serves and can do
    ([src/port/adapter/adapter.go]). [compose]: the deployment specification
    and its static validation ([src/compose/spec.go], [errors.go]).
    [adapters]: starting and probing the adapters a composition root owns
    ([src/compose/internal/adapters/adapters.go]). *)

From S2P Require Import Prelude GoStrings Tenancy ActorSystem EventStore Lifecycle.
From Stdlib Require Import ZArith Lia.
Open Scope string_scope.
Open Scope list_scope.

Module adapter.

Definition CapStart := "adapter.start".
Definition CapReady := "adapter.ready".

Record Descriptor := mkDescriptor { Ports : list string; Name : string; Capabilities : list string }.

Definition Declares (d : Descriptor) (c : string) : bool := bool_decide (c ∈ Capabilities d).
Definition Serves (d : Descriptor) (p : string) : bool := bool_decide (p ∈ Ports d).

(** What type assertions and [reflect] see of an adapter: whether it holds a
    nil pointer (or another nil of a kind that has one), and which optional
    interfaces its type implements; [describer] is what [Describe] answers. *)
Record value := mkValue { typed_nil : bool; describer : option Descriptor; starter : bool; pinger : bool }.

(** An [any]: [None] is the nil interface. *)
Abbreviation any := (option value).

Definition isNil (v : any) : bool := match v with None => true | Some v => typed_nil v end.

Definition Describe (v : any) : option Descriptor :=
  match v with Some x => if isNil v then None else describer x | None => None end.
Definition StarterOf (v : any) : bool := match v with Some x => starter x && negb (isNil v) | None => false end.
Definition PingerOf (v : any) : bool := match v with Some x => pinger x && negb (isNil v) | None => false end.
End adapter.

Module compose.
Import adapter.

(** ** [Family], a uint8 bit set *)
Definition EventSourced : N := 1.
Definition DurableState : N := 2.
Definition Saga : N := 4.

Definition PortEventsStore := "persistence.EventsStore".
Definition PortStateStore := "persistence.StateStore".
Definition PortSnapshotStore := "persistence.SnapshotStore".
Definition PortOffsetStore := "offsetstore.OffsetStore".
Definition PortEncryptor := "encryption.Encryptor".
Definition PortTenantResolver := "tenancy.TenantResolver".
Definition PortEventPublisher := "publishing.EventPublisher".
Definition PortStatePublisher := "publishing.StatePublisher".
Definition CapFixedTenant := "tenancy.fixed-tenant".

(** The options of a projection: its handler, and the rest. *)
Record ProjectionOptions := mkProjectionOptions { Handler : any; options : extensions.Options }.

(** A publisher is a value with its [ID], an event adapter one with a name,
    the resolver one with its behaviour. [None] is a nil interface or
    pointer. *)
Record Spec := mkSpec {
  Name : string;
  Families : N;
  EventsStore : any;
  StateStore : any;
  SnapshotStore : any;
  OffsetStore : any;
  Projections : gmap string (option ProjectionOptions);
  EventAdapters : list (option (value * string));
  Encryptor : any;
  TenantResolver : option (value * tenancy.TenantResolver);
  EventPublishers : list (option (value * string));
  StatePublishers : list (option (value * string));
  ShutdownTimeout : Z
}.

Record ValidationError := mkValidationError { Rule : string; Field : string; Problem : string }.

Definition Error (e : ValidationError) : string :=
  "compose: Spec." +:+ Field e +:+ ": " +:+ Problem e +:+ " (" +:+ Rule e +:+ ")".

Definition isTypedNil (v : value) : bool := typed_nil v.

Section Validate.
(** [strconv.IsPrint] behind [%q], [Duration.String] behind [%s]. *)
Context (print_tbl : Z -> bool) (fmt_duration : Z -> string).

Definition q (s : string) : string := l2b (quote_list print_tbl (b2l s)).

(** *** V8 *)
Inductive capability := KnownStart | KnownReady | KnownFixedTenant.

Definition capability_name (c : capability) : string :=
  match c with KnownStart => CapStart | KnownReady => CapReady | KnownFixedTenant => CapFixedTenant end.

(** A value with the resolver it is, when it is one. *)
Definition implemented (c : capability) (v : value) (resolver : option tenancy.TenantResolver) : bool :=
  match c with
  | KnownStart => StarterOf (Some v)
  | KnownReady => PingerOf (Some v)
  | KnownFixedTenant => match tenancy.AsFixedTenantResolver resolver with Some _ => true | None => false end
  end.

Definition knownCapabilities (port : string) : list capability :=
  if bool_decide (port = PortEventPublisher) || bool_decide (port = PortStatePublisher) then [KnownStart; KnownReady]
  else if bool_decide (port = PortTenantResolver) then [KnownFixedTenant] else [].

Fixpoint join_spaces (l : list string) : string :=
  match l with [] => "" | [x] => x | x :: l => x +:+ " " +:+ join_spaces l end.

(** No slot requires a capability ([requiredCapabilities] is empty), so V8c
    has nothing to check. *)
Definition validateDeclared (v : value) (resolver : option tenancy.TenantResolver) (port field : string) : list ValidationError :=
  match Describe (Some v) with
  | None => []
  | Some desc =>
    let name := "adapter " +:+ q (adapter.Name desc) in
    (if Serves desc port then []
     else [mkValidationError "V8" field (name +:+ " does not list the slot's port " +:+ port +:+ " among its ports [" +:+ join_spaces (Ports desc) +:+ "]")]) ++
    concat ((fun c =>
      let declared := Declares desc (capability_name c) in
      let impl := implemented c v resolver in
      if declared && negb impl then [mkValidationError "V8" field (name +:+ " declares capability " +:+ capability_name c +:+ " but does not implement it")]
      else if impl && negb declared then [mkValidationError "V8" field (name +:+ " implements capability " +:+ capability_name c +:+ " but does not declare it")]
      else []) <$> knownCapabilities port)
  end.

(** *** The closures of [Validate] *)

(** What it reports, and whether the value may be inspected further. *)
Definition check (v : any) (required : bool) (rule field why : string) : list ValidationError * bool :=
  match v with
  | None => if required then ([mkValidationError rule field ("required " +:+ why)], false) else ([], false)
  | Some x => if isTypedNil x then ([mkValidationError "V5" field "holds a typed nil value"], false) else ([], true)
  end.

Definition slot (v : any) (resolver : option tenancy.TenantResolver) (port : string) (required : bool) (rule field why : string) : list ValidationError :=
  let '(errs, ok) := check v required rule field why in
  errs ++ match v with Some x => if ok then validateDeclared x resolver port field else [] | None => [] end.

(** *** Publishers *)
Fixpoint validate_publishers (i : nat) (firstByID : gmap string nat) (l : list (option (value * string))) (port fieldName kind : string) : list ValidationError :=
  match l with
  | [] => []
  | p :: l =>
    let field := fieldName +:+ "[" +:+ format_uint (N.of_nat i) +:+ "]" in
    match p with
    | None => mkValidationError "V6" field (kind +:+ " publisher must not be nil") :: validate_publishers (S i) firstByID l port fieldName kind
    | Some (v, id) =>
      if isTypedNil v then mkValidationError "V5" field "holds a typed nil value" :: validate_publishers (S i) firstByID l port fieldName kind
      else match firstByID !! id with
      | Some first =>
        mkValidationError "V6" field ("duplicate " +:+ kind +:+ " publisher ID " +:+ q id +:+ " (first used by " +:+ fieldName +:+ "["
          +:+ format_uint (N.of_nat first) +:+ "])") :: validate_publishers (S i) firstByID l port fieldName kind
      | None => validateDeclared v None port field ++ validate_publishers (S i) (<[id := i]> firstByID) l port fieldName kind
      end
    end
  end.
Definition validatePublishers (l : list (option (value * string))) (port fieldName kind : string) : list ValidationError :=
  validate_publishers 0 ∅ l port fieldName kind.

Definition projection_names (s : Spec) : list string := testkit.sort_strings (fst <$> map_to_list (Projections s)).

Definition validate_projection (s : Spec) (name : string) : list ValidationError :=
  let field := "Projections[" +:+ q name +:+ "]" in
  match Projections s !! name with
  | Some (Some opts) => (check (Handler opts) true "V4" (field +:+ ".Handler") "for every projection").1
  | _ => [mkValidationError "V4" field "projection options must not be nil"]
  end.

Definition validate_adapter (i : nat) (a : option (value * string)) : list ValidationError :=
  let field := "EventAdapters[" +:+ format_uint (N.of_nat i) +:+ "]" in
  match a with
  | None => [mkValidationError "V5" field "event adapter must not be nil"]
  | Some (v, _) => (check (Some v) false "" field "").1
  end.

Definition has_family (s : Spec) (mask : N) : bool := negb (N.land (Families s) mask =? 0)%N.
Definition has_projections (s : Spec) : bool := (0 <? size (Projections s))%nat.

(** Every problem, in the order of the fields; none means nil. *)
Definition Validate (s : Spec) : list ValidationError :=
  (if (Families s =? 0)%N then [mkValidationError "V1" "Families" "at least one entity family must be declared"] else []) ++
  slot (EventsStore s) None PortEventsStore (has_family s (N.lor EventSourced Saga) || has_projections s) "V2" "EventsStore"
    "when EventSourced or Saga is declared or projections are configured" ++
  slot (StateStore s) None PortStateStore (has_family s DurableState) "V3" "StateStore" "when DurableState is declared" ++
  slot (SnapshotStore s) None PortSnapshotStore false "" "SnapshotStore" "" ++
  slot (OffsetStore s) None PortOffsetStore (has_projections s) "V4" "OffsetStore" "when projections are configured" ++
  concat (validate_projection s <$> projection_names s) ++
  concat (imap validate_adapter (EventAdapters s)) ++
  slot (Encryptor s) None PortEncryptor false "" "Encryptor" "" ++
  slot (fst <$> TenantResolver s) (snd <$> TenantResolver s) PortTenantResolver false "" "TenantResolver" "" ++
  validatePublishers (EventPublishers s) PortEventPublisher "EventPublishers" "events" ++
  validatePublishers (StatePublishers s) PortStatePublisher "StatePublishers" "state" ++
  (if (ShutdownTimeout s <? 0)%Z
   then [mkValidationError "V7" "ShutdownTimeout" ("must not be negative, got " +:+ fmt_duration (ShutdownTimeout s) +:+ " (zero means the default)")] else []).
End Validate.
End compose.

Module adapters.
Import adapter.

Record Owned := mkOwned { Kind : string; ID : string; Value : any }.

Section StartAndProbe.
Context {W : Type} (print_tbl : Z -> bool).
(** The adapters' own [Start] and [Ping]. *)
Context (start ping : Owned -> tenancy.Context -> W -> outcome (option string) * W).

Definition name (o : Owned) : string :=
  Kind o +:+ " " +:+ compose.q print_tbl (ID o) +:+
  match Describe (Value o) with Some desc => " (adapter " +:+ compose.q print_tbl (adapter.Name desc) +:+ ")" | None => "" end.

Fixpoint StartAndProbe (ctx : tenancy.Context) (owned : list Owned) (w : W) : outcome (option string) * W :=
  match owned with
  | [] => (Ret None, w)
  | o :: owned =>
    match (if StarterOf (Value o) then start o ctx w else (Ret None, w)) with
    | (Panicked, w) => (Panicked, w)
    | (Ret (Some e), w) => (Ret (Some ("start " +:+ name o +:+ ": " +:+ e)), w)
    | (Ret None, w) =>
      match (if PingerOf (Value o) then ping o ctx w else (Ret None, w)) with
      | (Panicked, w) => (Panicked, w)
      | (Ret (Some e), w) => (Ret (Some ("ping " +:+ name o +:+ ": " +:+ e)), w)
      | (Ret None, w) => StartAndProbe ctx owned w
      end
    end
  end.
End StartAndProbe.
End adapters.
