(* ===== verification/ComposeSpec.v ===== *)
(** * What the validation of a deployment accepts

    [valid_spec] states the rules V1 to V8 without the order and the text of
    the reports; [validate_exact]: [Validate] finds nothing exactly when they
    hold. *)

From S2P Require Import Prelude GoStrings Tenancy ActorSystem EventStore Lifecycle Compose.
From Stdlib Require Import ZArith Lia.
Open Scope string_scope.
Open Scope list_scope.

Module compose_spec.
Import adapter compose.

(** V8: an adapter that describes itself lists the port of its slot, and
    declares a known capability exactly when it has it. *)
Definition truthful (v : value) (resolver : option tenancy.TenantResolver) (port : string) : Prop :=
  forall d, Describe (Some v) = Some d ->
    port ∈ Ports d /\ forall c, c ∈ knownCapabilities port -> capability_name c ∈ Capabilities d <-> implemented c v resolver = true.

Definition usable (v : value) (resolver : option tenancy.TenantResolver) (port : string) : Prop :=
  typed_nil v = false /\ truthful v resolver port.

Definition publisher_ids (l : list (option (value * string))) : list string := snd <$> omap id l.

Definition valid_publishers (l : list (option (value * string))) (port : string) : Prop :=
  (forall p, p ∈ l -> exists v i, p = Some (v, i) /\ usable v None port) /\ NoDup (publisher_ids l).

Record valid_spec (s : Spec) : Prop := {
  v1 : Families s <> 0%N;
  v2 : N.land (Families s) (N.lor EventSourced Saga) <> 0%N \/ Projections s <> ∅ -> EventsStore s <> None;
  v3 : N.land (Families s) DurableState <> 0%N -> StateStore s <> None;
  v4 : Projections s <> ∅ -> OffsetStore s <> None;
  v4_handlers : forall name o, Projections s !! name = Some o -> exists opts h, o = Some opts /\ Handler opts = Some h /\ typed_nil h = false;
  v5_adapters : forall a, a ∈ EventAdapters s -> exists v n, a = Some (v, n) /\ typed_nil v = false;
  v58_stores : forall v port, (v, port) ∈ [(EventsStore s, PortEventsStore); (StateStore s, PortStateStore); (SnapshotStore s, PortSnapshotStore);
    (OffsetStore s, PortOffsetStore); (Encryptor s, PortEncryptor)] -> forall x, v = Some x -> usable x None port;
  v58_resolver : forall v r, TenantResolver s = Some (v, r) -> usable v (Some r) PortTenantResolver;
  v68_events : valid_publishers (EventPublishers s) PortEventPublisher;
  v68_states : valid_publishers (StatePublishers s) PortStatePublisher;
  v7 : (0 <= ShutdownTimeout s)%Z
}.

Section Exact.
Context (print_tbl : Z -> bool) (fmt_duration : Z -> string).

Lemma concat_nil_iff {A} (ls : list (list A)) : concat ls = [] <-> forall l, l ∈ ls -> l = [].
Proof.
  induction ls as [|l ls IH]; simpl; [split; [by intros _ l []%not_elem_of_nil|done]|]. rewrite app_nil, IH. setoid_rewrite elem_of_cons. split.
  - intros [-> H] l' [->|Hl]; auto.
  - intros H. split; auto.
Qed.

Lemma validateDeclared_nil v r port field : validateDeclared print_tbl v r port field = [] <-> truthful v r port.
Proof.
  unfold validateDeclared, truthful. destruct (Describe (Some v)) as [d|]; [|by split]. rewrite app_nil, concat_nil_iff. unfold Serves.
  split.
  - intros [Hp Hc] d' [= <-]. case_bool_decide; [|done]. split; [done|]. intros c Hin.
    specialize (Hc _ (list_elem_of_fmap_2 _ _ _ Hin)). revert Hc. unfold Declares. case_bool_decide; destruct (implemented c v r); done.
  - intros H. destruct (H d eq_refl) as [Hp Hc]. rewrite bool_decide_true by done. split; [done|].
    intros l (c & -> & Hin)%list_elem_of_fmap. specialize (Hc _ Hin). unfold Declares.
    case_bool_decide; destruct (implemented c v r); simpl; try done; exfalso; [by apply Hc in H0|by apply H0, Hc].
Qed.

Lemma slot_nil v r port (required : bool) rule field why : slot print_tbl v r port required rule field why = [] <->
  (required = true -> v <> None) /\ forall x, v = Some x -> usable x r port.
Proof.
  unfold slot, check, isTypedNil, usable. destruct v as [x|].
  - destruct (typed_nil x) eqn:Ht; simpl; [split; [done|intros [_ H]; destruct (H x eq_refl); congruence]|].
    rewrite validateDeclared_nil. split; [intros; split; [done|]; by intros ? [= <-]|intros [_ H]; by apply H].
  - destruct required; simpl; [split; [done|intros [H _]; by destruct H]|]. split; done.
Qed.

Lemma publishers_nil port fieldName kind l : forall i firstByID,
  validate_publishers print_tbl i firstByID l port fieldName kind = [] <->
  (forall p, p ∈ l -> exists v i, p = Some (v, i) /\ usable v None port) /\ NoDup (publisher_ids l) /\
  (forall id, id ∈ publisher_ids l -> firstByID !! id = None).
Proof.
  induction l as [|p l IH]; intros i first; simpl.
  { split; [|done]. intros _. split_and!; [by intros ? []%not_elem_of_nil|constructor|by intros ? []%not_elem_of_nil]. }
  destruct p as [[v id]|]; [|split; [done|intros (H & _); destruct (H None) as (? & ? & ? & _); [left|done]]].
  unfold isTypedNil. destruct (typed_nil v) eqn:Ht.
  { split; [done|]. intros (H & _). destruct (H (Some (v, id))) as (? & ? & [= <- <-] & Hu & _); [left|congruence]. }
  unfold publisher_ids. simpl. setoid_rewrite NoDup_cons. setoid_rewrite elem_of_cons. fold (publisher_ids l). destruct (first !! id) as [k|] eqn:Hf.
  { split; [done|]. intros (_ & _ & H). specialize (H id (or_introl eq_refl)). congruence. }
  rewrite app_nil, validateDeclared_nil, IH. split.
  - intros (Hv & Hl & Hnd & Hnew). split_and!; [intros p [->|Hp]; [by eexists _, _|by apply Hl]| |done|].
    + intros Hin. specialize (Hnew _ Hin). by rewrite lookup_insert_eq in Hnew.
    + intros j [->|Hj]; [done|]. specialize (Hnew _ Hj). by apply lookup_insert_None in Hnew as [? _].
  - intros (Hl & [Hn Hnd] & Hnew). split_and!; [|by auto|done|].
    + destruct (Hl (Some (v, id))) as (? & ? & [= <- <-] & Hu); [by left|apply Hu].
    + intros j Hj. apply lookup_insert_None. split; [by auto|by intros ->].
Qed.

Lemma elem_projection_names s name : name ∈ projection_names s <-> is_Some (Projections s !! name).
Proof.
  unfold projection_names, testkit.sort_strings. rewrite merge_sort_Permutation, list_elem_of_fmap. split.
  - intros ([? o] & -> & Ho%elem_of_map_to_list). by exists o.
  - intros [o Ho]. exists (name, o). split; [done|]. by apply elem_of_map_to_list.
Qed.

Lemma projection_nil s name o : Projections s !! name = Some o -> validate_projection print_tbl s name = [] <->
  exists opts h, o = Some opts /\ Handler opts = Some h /\ typed_nil h = false.
Proof.
  intros Ho. unfold validate_projection. rewrite Ho. destruct o as [opts|]; [|split; [done|by intros (? & ? & ? & _)]].
  destruct (Handler opts) as [h|] eqn:Hh; simpl; [|split; [done|intros (? & ? & [= <-] & ? & _); congruence]].
  unfold isTypedNil. destruct (typed_nil h) eqn:Ht; split; [done|intros (? & ? & [= <-] & ? & ?); congruence|eauto|done].
Qed.

Lemma projections_nil s : concat (validate_projection print_tbl s <$> projection_names s) = [] <->
  forall name o, Projections s !! name = Some o -> exists opts h, o = Some opts /\ Handler opts = Some h /\ typed_nil h = false.
Proof.
  rewrite concat_nil_iff. split.
  - intros H name o Ho. apply (projection_nil s name o Ho), H, list_elem_of_fmap. exists name. split; [done|]. apply elem_projection_names. by exists o.
  - intros H l (name & -> & [o Ho]%elem_projection_names)%list_elem_of_fmap. apply (projection_nil s name o Ho). by eapply H.
Qed.

Lemma adapters_nil l : concat (imap validate_adapter l) = [] <-> forall a, a ∈ l -> exists v n, a = Some (v, n) /\ typed_nil v = false.
Proof.
  assert (forall i a, validate_adapter i a = [] <-> exists v n, a = Some (v, n) /\ typed_nil v = false) as Ha.
  { intros i [[v n]|]; simpl; [|split; [done|by intros (? & ? & ? & _)]]. unfold isTypedNil.
    destruct (typed_nil v) eqn:Ht; split; [done|intros (? & ? & [= <- <-] & ?); congruence|eauto|done]. }
  rewrite concat_nil_iff. split.
  - intros H a [i Hi]%list_elem_of_lookup. apply (Ha i), H, elem_of_lookup_imap. eauto.
  - intros H l' (i & a & -> & Hi)%elem_of_lookup_imap. apply Ha, H. by eapply list_elem_of_lookup_2.
Qed.

Lemma size_pos s : has_projections s = true <-> Projections s <> ∅.
Proof.
  unfold has_projections. rewrite Nat.ltb_lt. rewrite <- map_size_non_empty_iff. lia.
Qed.

Lemma has_family_spec s mask : has_family s mask = true <-> N.land (Families s) mask <> 0%N.
Proof. unfold has_family. rewrite negb_true_iff. apply N.eqb_neq. Qed.

Lemma if_nil {A} (b : bool) (x : A) : (if b then [x] else []) = [] <-> b = false.
Proof. by destruct b. Qed.

(** The validation finds nothing to report exactly in the deployments that
    obey the rules: the families and the projections have the stores they
    need, no slot holds a typed nil, publisher ids are unique per kind, every
    adapter that describes itself tells the truth about its port and its
    optional capabilities, and the timeout is not negative. *)
Theorem validate_exact s : Validate print_tbl fmt_duration s = [] <-> valid_spec s.
Proof.
  unfold Validate, validatePublishers. rewrite !app_nil, !if_nil, !slot_nil, projections_nil, adapters_nil, !publishers_nil.
  rewrite orb_true_iff, size_pos, !has_family_spec, Z.ltb_ge, N.eqb_neq. split.
  - intros (H1 & [H2 S2] & [H3 S3] & [_ S4] & [H5 S5] & Hp & Ha & [_ S6] & [_ S7] & (Hev & Hnd & _) & (Hst & Hnd' & _) & H7).
    split; try done.
    + intros v port. rewrite !elem_of_cons, elem_of_nil. intros [[= -> ->]|[[= -> ->]|[[= -> ->]|[[= -> ->]|[[= -> ->]|[]]]]]]; assumption.
    + intros v r Hr. rewrite Hr in S7. by apply S7.
  - intros [H1 H2 H3 H4 Hh Ha Hs Hr [Hev Hnd] [Hst Hnd'] H7].
    setoid_rewrite list_elem_of_In in Hs.
    pose proof (Hs _ _ (List.in_eq _ _)) as S1. pose proof (Hs _ _ (List.in_cons _ _ _ (List.in_eq _ _))) as S2.
    pose proof (Hs _ _ (List.in_cons _ _ _ (List.in_cons _ _ _ (List.in_eq _ _)))) as S3.
    pose proof (Hs _ _ (List.in_cons _ _ _ (List.in_cons _ _ _ (List.in_cons _ _ _ (List.in_eq _ _))))) as S4.
    pose proof (Hs _ _ (List.in_cons _ _ _ (List.in_cons _ _ _ (List.in_cons _ _ _ (List.in_cons _ _ _ (List.in_eq _ _)))))) as S5.
    split_and!; (assumption || (intros ?; discriminate) || (intros ? _; apply lookup_empty) || idtac).
    intros x Hx. destruct (TenantResolver s) as [[v r]|]; simplify_eq/=. by apply Hr.
Qed.
End Exact.
End compose_spec.
