(* ===== verification/ComposeApp.v ===== *)
(** * The composition root for the actor library

    [src/compose/goakt/app.go], [option.go]: [New] validates a specification,
    [Start] builds and starts what it describes in five steps, [Stop] releases
    it. The steps are functions on [World]: the fields of the [App], the state
    of the actor system, the stream and the engine it owns, the environment
    (the actor library's constructor, the stores, the publishers, the clock)
    and the calls made to that environment, in order. *)

From S2P Require Import Prelude GoStrings Tenancy ActorSystem EventStore Stream EngineConfig Engine Lifecycle Compose.
From Stdlib Require Import ZArith Ascii.
Open Scope string_scope.
Open Scope list_scope.

Module app.
Import tenancy extensions.

(** ** Options ([option.go]) *)

(** A logger, telemetry or cluster configuration: whether it is set. *)
Inductive Option_ :=
| WithLogger (logger : bool)
| WithTelemetry (telemetry : bool)
| WithCluster (cfg : bool) (kinds : list Behavior)
| WithActorSystemOptions (opts : list goakt.Option_).

Record options := mkOptions {
  logger : bool;
  telemetry : bool;
  clusterSet : bool;
  cluster : bool;
  kinds : list Behavior;
  actorOptions : list goakt.Option_
}.

Definition apply (o : options) (opt : Option_) : options :=
  match opt with
  | WithLogger l => mkOptions l (telemetry o) (clusterSet o) (cluster o) (kinds o) (actorOptions o)
  | WithTelemetry t => mkOptions (logger o) t (clusterSet o) (cluster o) (kinds o) (actorOptions o)
  | WithCluster cfg ks => mkOptions (logger o) (telemetry o) true cfg (kinds o ++ ks) (actorOptions o)
  | WithActorSystemOptions l => mkOptions (logger o) (telemetry o) (clusterSet o) (cluster o) (kinds o) (actorOptions o ++ l)
  end.

(** A nil option is skipped. *)
Definition resolve (opts : list (option Option_)) : options :=
  foldl (fun o opt => match opt with Some opt => apply o opt | None => o end) (mkOptions false false false false [] []) opts.

(** [^[a-zA-Z0-9][a-zA-Z0-9-_]*$] *)
Definition alnum (a : ascii) : bool := inr 97 122 (bv a) || inr 65 90 (bv a) || inr 48 57 (bv a).
Definition actorSystemName (name : string) : bool :=
  match b2l name with
  | [] => false
  | a :: l => alnum a && forallb (fun a => alnum a || bool_decide (bv a = 45%Z) || bool_decide (bv a = 95%Z)) l
  end.

Inductive new_error := ErrClusterConfigRequired | ErrClusterKindsRequired | EInvalid (e : compose.ValidationError) | EConfig (e : lifecycle.config_error).

Definition validate (o : options) (spec : compose.Spec) : list new_error :=
  (if clusterSet o then
     (if cluster o then [] else [ErrClusterConfigRequired]) ++
     (if bool_decide (kinds o = []) then [ErrClusterKindsRequired] else [])
   else []) ++
  (if bool_decide (compose.Name spec = "")
   then [EInvalid (compose.mkValidationError "G2" "Name" "required: it names the GoAkt actor system")]
   else if actorSystemName (compose.Name spec) then []
   else [EInvalid (compose.mkValidationError "G2" "Name" "not a valid GoAkt actor-system name: letters, digits, '-' and '_' only, starting with a letter or digit")]).

Definition entityFamilies (families : N) : N :=
  let bit mask out := if negb (N.land families mask =? 0)%N then out else 0%N in
  N.lor (N.lor (bit compose.EventSourced engine_config.EventSourcedFamily) (bit compose.DurableState engine_config.DurableStateFamily))
    (bit compose.Saga engine_config.SagaFamily).

Definition projectionNames (spec : compose.Spec) : list string := testkit.sort_strings (fst <$> map_to_list (compose.Projections spec)).

Definition set {A} (v : option A) : bool := match v with Some _ => true | None => false end.

Definition engineOptions (o : options) (spec : compose.Spec) : list engine_config.Option_ :=
  engine_config.option_of (logger o) engine_config.WithLogger ++
  engine_config.option_of (telemetry o) (engine_config.WithTelemetry true) ++
  engine_config.option_of (bool_decide (kinds o <> [])) (engine_config.WithBehaviorKinds (kinds o)) ++
  [engine_config.WithEntityFamilies [entityFamilies (compose.Families spec)]] ++
  engine_config.option_of (set (compose.StateStore spec)) (engine_config.WithStateStore true) ++
  engine_config.option_of (set (compose.SnapshotStore spec)) (engine_config.WithSnapshotStore true) ++
  engine_config.option_of (set (compose.OffsetStore spec)) (engine_config.WithOffsetStore true) ++
  ((fun name => engine_config.WithProjection name (compose.options <$> (mjoin (compose.Projections spec !! name)))) <$> projectionNames spec) ++
  engine_config.option_of (bool_decide (compose.EventAdapters spec <> []))
    (engine_config.WithEventAdapters (snd <$> omap id (compose.EventAdapters spec))) ++
  engine_config.option_of (set (compose.Encryptor spec)) (engine_config.WithEncryptor true) ++
  match compose.TenantResolver spec with
  | Some (v, r) => [engine_config.WithTenantResolver (if adapter.typed_nil v then None else Some r)]
  | None => []
  end.

(** ** The five steps *)
Definition StepProbeStores := "probe stores".
Definition StepStartActorSystem := "start actor system".
Definition StepStartEngine := "start engine".
Definition StepAttachPublishers := "attach publishers".
Definition StepStartProjections := "start projections".

Inductive error :=
| EPing (store message : string)
| ECreateSystem (e : goakt.Error)
| EStartSystem (e : goakt.Error)
| EStopSystem (e : goakt.Error)
| ECreateEngine (e : engine_config.engine_error)
| EStartEngine (e : engine.error)
| EStopEngine (errs : list engine.error)
| EProbe (message : string)
| EAttach (events : bool) (e : engine.error)
| EStartProjection (name : string) (e : engine.error)
| EStopProjection (name : string) (e : engine.error)
| EClose (events : bool) (id message : string)
| EHook (message : string)
| EJoin (errs : list error).

(** [errors.Join]: nil when there is nothing to join. *)
Definition Join (errs : list error) : option error := match errs with [] => None | _ => Some (EJoin errs) end.

(** Calls to what the App does not implement. *)
Inductive external :=
| XPingStore (name : string)
| XNewSystem
| XStartSystem
| XStopSystem
| XStartPublisher (o : adapters.Owned)
| XPingPublisher (o : adapters.Owned)
| XClosePublisher (events : bool) (id : string).

(** Any of these calls may panic: nothing in the App recovers. *)
Class Environment (Sys Env : Type) := {
  clock : Env -> Z;
  NewActorSystem : string -> list goakt.Option_ -> Env -> outcome (result goakt.Error Sys) * Env;
  StartSystem : Sys -> Context -> Env -> outcome (option goakt.Error) * Sys * Env;
  StopSystem : Sys -> Context -> Env -> outcome (option goakt.Error) * Sys * Env;
  PingStore : string -> Context -> Env -> outcome (option string) * Env;
  StartPublisher : adapters.Owned -> Context -> Env -> outcome (option string) * Env;
  PingPublisher : adapters.Owned -> Context -> Env -> outcome (option string) * Env;
  ClosePublisher : bool -> string -> Context -> Env -> outcome (result string unit) * Env;
  (** the id of the subscriber made for a publisher *)
  NewID : bool -> string -> Env -> string
}.

Section App.
Context {msg Sys Env P Q : Type} {ASys : goakt.ActorSystem msg Sys} {ENV : Environment Sys Env} {QF : Fifo Q (eventstream.Message P)}.
Context (print_tbl : Z -> bool) (fmt_duration : Z -> string).
Context (range : gmap string string -> list (string * string)) (srange : gset string -> list string).
Abbreviation Stream := (eventstream.EventsStream Q).

(** The stores' [Migrate], when they have it. *)
Context (migrators : list (string * option (Env -> outcome (result string unit) * Env))).

(** [env] and [trace] first, then the fields of [App]. The test seam
    [afterStep] is part of the code: [None] is nil. *)
Record World := mkWorld {
  env : Env;
  trace : list external;
  afterHook : option (string -> Env -> outcome (option string) * Env);
  stream : option Stream;
  config : option engine_config.Config;
  sys : option Sys;
  eng : option engine.Engine;
  eventsAttached : bool;
  statesAttached : bool;
  projections : list string
}.

Definition set_env (w : World) (x : Env * list external) : World :=
  mkWorld x.1 x.2 (afterHook w) (stream w) (config w) (sys w) (eng w) (eventsAttached w) (statesAttached w) (projections w).
Definition set_stream (w : World) (b : Stream) : World :=
  mkWorld (env w) (trace w) (afterHook w) (Some b) (config w) (sys w) (eng w) (eventsAttached w) (statesAttached w) (projections w).
Definition set_sys (w : World) (s : Sys) : World :=
  mkWorld (env w) (trace w) (afterHook w) (stream w) (config w) (Some s) (eng w) (eventsAttached w) (statesAttached w) (projections w).
Definition set_eng (w : World) (e : engine.Engine) : World :=
  mkWorld (env w) (trace w) (afterHook w) (stream w) (config w) (sys w) (Some e) (eventsAttached w) (statesAttached w) (projections w).
Definition set_config (w : World) (c : engine_config.Config) : World :=
  mkWorld (env w) (trace w) (afterHook w) (stream w) (Some c) (sys w) (eng w) (eventsAttached w) (statesAttached w) (projections w).
Definition set_attached (w : World) (ev st : bool) : World :=
  mkWorld (env w) (trace w) (afterHook w) (stream w) (config w) (sys w) (eng w) ev st (projections w).
Definition set_projections (w : World) (l : list string) : World :=
  mkWorld (env w) (trace w) (afterHook w) (stream w) (config w) (sys w) (eng w) (eventsAttached w) (statesAttached w) l.

(** A call to the environment is noted. *)
Definition ext {A} (x : external) (r : A * Env) (w : World) : A * World := (r.1, set_env w (r.2, trace w ++ [x])).

Definition now (w : World) : Z := clock (env w).
Abbreviation step := (lifecycle.action World error).

Definition afterStep (name : string) (w : World) : outcome (option error) * World :=
  match afterHook w with
  | None => (Ret None, w)
  | Some f =>
    match f name (env w) with
    | (Panicked, e) => (Panicked, set_env w (e, trace w))
    | (Ret r, e) => (Ret (EHook <$> r), set_env w (e, trace w))
    end
  end.

Definition cleanupContext (spec : compose.Spec) (ctx : Context) (w : World) : Context :=
  lifecycle.WithTimeout (now w) (lifecycle.WithoutCancel ctx)
    (if (compose.ShutdownTimeout spec =? 0)%Z then lifecycle.DefaultShutdownTimeout else compose.ShutdownTimeout spec).

(** What a failing step does about its own work: it joins what undoing it
    returns. *)
Definition undo_self (spec : compose.Spec) (undo : step) (ctx : Context) (err : error) (w : World) : outcome (option error) * World :=
  match undo (cleanupContext spec ctx w) w with
  | (Panicked, w) => (Panicked, w)
  | (Ret r, w) => (Ret (Join (err :: option_list r)), w)
  end.

(** *** Step 1 *)
Fixpoint ping_stores (ctx : Context) (stores : list (string * adapter.any)) (errs : list error) (w : World) : outcome (list error) * World :=
  match stores with
  | [] => (Ret errs, w)
  | (name, store) :: stores =>
    if negb (adapter.PingerOf store) then ping_stores ctx stores errs w
    else match ext (XPingStore name) (PingStore name ctx (env w)) w with
    | (Panicked, w) => (Panicked, w)
    | (Ret r, w) => ping_stores ctx stores (errs ++ option_list (EPing name <$> r)) w
    end
  end.

Definition probeStores (spec : compose.Spec) : step := fun ctx w =>
  match ping_stores ctx [("EventsStore", compose.EventsStore spec); ("StateStore", compose.StateStore spec);
      ("SnapshotStore", compose.SnapshotStore spec); ("OffsetStore", compose.OffsetStore spec)] [] w with
  | (Panicked, w) => (Panicked, w)
  | (Ret errs, w) => match Join errs with Some e => (Ret (Some e), w) | None => afterStep StepProbeStores w end
  end.

(** *** Step 2 *)
Definition close_stream (w : World) : World := match stream w with Some b => set_stream w (eventstream.Close srange b) | None => w end.

Definition stopActorSystem : step := fun ctx w =>
  match sys w with
  | Some s =>
    if goakt.Running s then
      match ext XStopSystem (let '(r, s, e) := StopSystem s ctx (env w) in ((r, s), e)) w with
      | ((Panicked, s), w) => (Panicked, set_sys w s)
      | ((Ret r, s), w) => (Ret (EStopSystem <$> r), close_stream (set_sys w s))
      end
    else (Ret None, close_stream w)
  | None => (Ret None, close_stream w)
  end.

(** [engine.ClusterKinds] *)
Definition ClusterKinds : list goakt.Actor := [goakt.EventSourcedActor; goakt.DurableStateActor; goakt.SagaActor; goakt.ProjectionActor].

(** The engine's configuration; the App's stream is at address 1, the one
    [NewConfig] makes for itself at 0. *)
Definition engineConfig (o : options) (spec : compose.Spec) : engine_config.Config :=
  engine_config.NewConfig (set (compose.EventsStore spec)) 0 (engineOptions o spec ++ [engine_config.WithEventStream (Some 1%nat)]).

Definition actorOpts (o : options) (spec : compose.Spec) : list goakt.Option_ :=
  engine_config.GoaktOptions (engineConfig o spec) ++
  engine_config.option_of (cluster o) (goakt.WithCluster ClusterKinds) ++ actorOptions o.

(** The stream is allocated before the App owns it: when the system cannot be
    made or started, it is closed, after a panic left, and nobody holds it any
    more. *)
Definition startActorSystem (o : options) (spec : compose.Spec) : step := fun ctx w =>
  let b : Stream := eventstream.New in
  match ext XNewSystem (NewActorSystem (compose.Name spec) (actorOpts o spec) (env w)) w with
  | (Panicked, w) => (Panicked, w)
  | (Ret (Err e), w) => (Ret (Some (ECreateSystem e)), w)
  | (Ret (Ok s), w) =>
    match ext XStartSystem (let '(r, s, e) := StartSystem s ctx (env w) in ((r, s), e)) w with
    | ((Panicked, _), w) => (Panicked, w)
    | ((Ret (Some e), _), w) => (Ret (Some (EStartSystem e)), w)
    | ((Ret None, s), w) =>
      let w := set_sys (set_config (set_stream w b) (engineConfig o spec)) s in
      match afterStep StepStartActorSystem w with
      | (Ret (Some err), w) => undo_self spec stopActorSystem ctx err w
      | r => r
      end
    end
  end.

(** *** Step 3 *)
Definition close_publisher (ctx : Context) (events : bool) (id : string) (x : Env * list external) :
    outcome (result string unit) * (Env * list external) :=
  let '(r, e) := ClosePublisher events id ctx x.1 in (r, (e, x.2 ++ [XClosePublisher events id])).

Definition stopEngine : step := fun ctx w =>
  match eng w, stream w with
  | Some e, Some b =>
    let '(errs, e, b, x) := engine.Stop (close_publisher ctx) range srange e b (env w, trace w) in
    (match errs with Panicked => Panicked | Ret [] => Ret None | Ret errs => Ret (Some (EStopEngine errs)) end,
     set_eng (set_stream (set_env w x) b) e)
  | Some _, None => (Panicked, w)
  | None, _ => (Ret None, w)
  end.

Definition startEngine (spec : compose.Spec) : step := fun ctx w =>
  match engine_config.NewEngine (sys w) (config w) with
  | (Err err, s) => (Ret (Some (ECreateEngine err)), match s with Some s => set_sys w s | None => w end)
  | (Ok c, s) =>
    let w := match s with Some s => set_sys w s | None => w end in
    let '(r, e, x) := engine.Start (engine.of_config c) migrators (env w) in
    let w := set_env w (x, trace w) in
    match r with
    | Panicked => (Panicked, w)
    | Ret (Some err) => (Ret (Some (EStartEngine err)), w)
    | Ret None =>
      let w := set_eng w e in
      match afterStep StepStartEngine w with
      | (Ret (Some err), w) => undo_self spec stopEngine ctx err w
      | r => r
      end
    end
  end.

(** *** Step 4 *)
Definition publishers (l : list (option (adapter.value * string))) : list (adapter.value * string) := omap id l.

(** A nil publisher has no [ID] to call; validation excludes it. *)
Definition ownedPublishers (spec : compose.Spec) : list adapters.Owned :=
  ((fun p => adapters.mkOwned "events publisher" p.2 (Some p.1)) <$> publishers (compose.EventPublishers spec)) ++
  ((fun p => adapters.mkOwned "state publisher" p.2 (Some p.1)) <$> publishers (compose.StatePublishers spec)).

Definition with_ids (events : bool) (l : list (adapter.value * string)) (e : Env) : list (string * string) :=
  (fun p => (p.2, NewID events p.2 e)) <$> l.

Definition attach (events : bool) (l : list (adapter.value * string)) (w : World) : outcome (option error) * World :=
  match l, eng w, stream w with
  | [], _, _ => (Ret None, w)
  | _, Some e, Some b =>
    let '(r, e, b) := (if events then engine.AddEventPublishers else engine.AddStatePublishers) e b (with_ids events l (env w)) in
    let w := set_eng (set_stream w b) e in
    match r with
    | Some err => (Ret (Some (EAttach events err)), w)
    | None => (Ret None, if events then set_attached w true (statesAttached w) else set_attached w (eventsAttached w) true)
    end
  | _, _, _ => (Panicked, w)
  end.

Definition attachPublishers (spec : compose.Spec) : step := fun ctx w =>
  match adapters.StartAndProbe print_tbl
      (fun o ctx w => ext (XStartPublisher o) (StartPublisher o ctx (env w)) w)
      (fun o ctx w => ext (XPingPublisher o) (PingPublisher o ctx (env w)) w) ctx (ownedPublishers spec) w with
  | (Panicked, w) => (Panicked, w)
  | (Ret (Some m), w) => (Ret (Some (EProbe m)), w)
  | (Ret None, w) =>
    match attach true (publishers (compose.EventPublishers spec)) w with
    | (Ret None, w) =>
      match attach false (publishers (compose.StatePublishers spec)) w with
      | (Ret None, w) => afterStep StepAttachPublishers w
      | r => r
      end
    | r => r
    end
  end.

(** *** Step 5 *)
Fixpoint stop_projections (ctx : Context) (names : list string) (errs : list error) (w : World) : outcome (list error) * World :=
  match names with
  | [] => (Ret errs, w)
  | name :: names =>
    match eng w, sys w with
    | Some e, Some s =>
      let '(r, s) := engine.StopProjection e s ctx name in
      stop_projections ctx names (errs ++ option_list (EStopProjection name <$> r)) (set_sys w s)
    | _, _ => (Panicked, w)
    end
  end.

Definition stopProjections : step := fun ctx w =>
  match stop_projections ctx (reverse (projections w)) [] w with
  | (Panicked, w) => (Panicked, w)
  | (Ret errs, w) => (Ret (Join errs), set_projections w [])
  end.

Fixpoint start_projections (ctx : Context) (names : list string) (w : World) : outcome (option error) * World :=
  match names with
  | [] => (Ret None, w)
  | name :: names =>
    match eng w, sys w with
    | Some e, Some s =>
      match engine.StartProjection e s ctx name with
      | (Some err, s) => (Ret (Some (EStartProjection name err)), set_sys w s)
      | (None, s) => start_projections ctx names (set_projections (set_sys w s) (projections w ++ [name]))
      end
    | _, _ => (Panicked, w)
    end
  end.

Definition startProjections (spec : compose.Spec) : step := fun ctx w =>
  let r := match start_projections ctx (projectionNames spec) w with
    | (Ret None, w) => afterStep StepStartProjections w
    | r => r
    end in
  match r with
  | (Ret (Some err), w) => undo_self spec stopProjections ctx err w
  | r => r
  end.

(** *** Release *)
Fixpoint close_publishers (events : bool) (ctx : Context) (l : list (adapter.value * string)) (errs : list error) (w : World) :
    outcome (list error) * World :=
  match l with
  | [] => (Ret errs, w)
  | (_, id) :: l =>
    match ext (XClosePublisher events id) (ClosePublisher events id ctx (env w)) w with
    | (Panicked, w) => (Panicked, w)
    | (Ret (Err m), w) => close_publishers events ctx l (errs ++ [EClose events id m]) w
    | (Ret (Ok _), w) => close_publishers events ctx l errs w
    end
  end.

Definition releasePublishers (spec : compose.Spec) : step := fun ctx w =>
  match (if eventsAttached w then (Ret [], w) else close_publishers true ctx (publishers (compose.EventPublishers spec)) [] w) with
  | (Panicked, w) => (Panicked, w)
  | (Ret errs, w) =>
    match (if statesAttached w then (Ret errs, w) else close_publishers false ctx (publishers (compose.StatePublishers spec)) errs w) with
    | (Panicked, w) => (Panicked, w)
    | (Ret errs, w) => (Ret (Join errs), w)
    end
  end.

(** ** [App]

    [published] is whether the engine pointer was published. *)
Record App := mkApp { seq : lifecycle.Sequence World error; world : World; published : bool }.

Definition fresh (e : Env) : World := mkWorld e [] None None None None None false false [].

Definition steps (o : options) (spec : compose.Spec) : list (lifecycle.Step World error) :=
  [lifecycle.mkStep StepProbeStores (Some (probeStores spec)) None;
   lifecycle.mkStep StepStartActorSystem (Some (startActorSystem o spec)) (Some stopActorSystem);
   lifecycle.mkStep StepStartEngine (Some (startEngine spec)) (Some stopEngine);
   lifecycle.mkStep StepAttachPublishers (Some (attachPublishers spec)) None;
   lifecycle.mkStep StepStartProjections (Some (startProjections spec)) (Some stopProjections)].

Definition New (spec : compose.Spec) (opts : list (option Option_)) (e : Env) : result (list new_error) App :=
  let o := resolve opts in
  match (EInvalid <$> compose.Validate print_tbl fmt_duration spec) ++ validate o spec with
  | (_ :: _) as errs => Err errs
  | [] =>
    match lifecycle.New (lifecycle.mkConfig (steps o spec) (Some (releasePublishers spec)) (compose.ShutdownTimeout spec)) with
    | Err err => Err [EConfig err]
    | Ok s => Ok (mkApp s (fresh e) false)
    end
  end.

Inductive start_error := ErrNotStartable (st : lifecycle.State) | StartFailed (e : lifecycle.StartError error).

Definition Start (ctx : Context) (a : App) : outcome (option start_error) * App :=
  match lifecycle.Start now ctx (seq a) (world a) with
  | (Panicked, s, w) => (Panicked, mkApp s w (published a))
  | (Ret lifecycle.Started_, s, w) => (Ret None, mkApp s w true)
  | (Ret (lifecycle.ErrNotStartable st), s, w) => (Ret (Some (ErrNotStartable st)), mkApp s w (published a))
  | (Ret (lifecycle.Failed_ e), s, w) => (Ret (Some (StartFailed e)), mkApp s w (published a))
  end.

Definition Stop (ctx : Context) (a : App) : outcome (list (lifecycle.cleanup_error error)) * App :=
  let '(r, s, w) := lifecycle.Stop now ctx (seq a) (world a) in (r, mkApp s w (published a)).

(** [Engine] and [Runtime]: the engine, once published. *)
Definition Engine (a : App) : option engine.Engine := if published a then eng (world a) else None.

Fixpoint run (calls : list lifecycle.call) (a : App) : App :=
  match calls with
  | [] => a
  | lifecycle.CallStart ctx :: calls => run calls (Start ctx a).2
  | lifecycle.CallStop ctx :: calls => run calls (Stop ctx a).2
  end.
End App.
Arguments World : clear implicits.
Arguments App : clear implicits.
End app.
