(* ===== verification/ComposeAppSpec.v ===== *)
(** * What the composition root owns it releases

    [app_releases_publishers]: over any calls of [Start] and [Stop], and
    whatever the stores, the publishers and the actor library answer, an App
    that has ended has closed every publisher it was given, each once, if what
    undoes a start does not panic.
    [new_exact]: which deployments are accepted. *)

From S2P Require Import Prelude GoStrings Tenancy ActorSystem EventStore Stream EngineConfig Engine EngineConfigSpec Lifecycle LifecycleSpec.
From S2P Require Import Compose ComposeSpec ComposeApp.
From Stdlib Require Import ZArith Lia.
Open Scope string_scope.
Open Scope list_scope.

Module app_spec.
Import app compose_spec lifecycle_spec.

Definition is_close (x : external) : option (bool * string) := match x with XClosePublisher ev id => Some (ev, id) | _ => None end.
Definition closes (tr : list external) : list (bool * string) := omap is_close tr.

Lemma closes_app l1 l2 : closes (l1 ++ l2) = closes l1 ++ closes l2.
Proof. apply omap_app. Qed.

Definition tagged (ev : bool) (ids : list string) : list (bool * string) := (fun i => (ev, i)) <$> ids.

(** What undoes a start may fail; these say that it returns. *)
Section Calm.
Context (Sys Env : Type) {ENV : Environment Sys Env}.
Definition stop_returns : Prop := forall (s : Sys) ctx (e : Env), (StopSystem s ctx e).1.1 <> Panicked.
Definition close_returns : Prop := forall ev id ctx (e : Env), (ClosePublisher (Sys := Sys) ev id ctx e).1 <> Panicked.
End Calm.

Section Spec.
Context {msg Sys Env P Q : Type} {ASys : goakt.ActorSystem msg Sys} {ENV : Environment Sys Env} {QF : Fifo Q (eventstream.Message P)}.
Context (print_tbl : Z -> bool) (fmt_duration : Z -> string).
Context (range : gmap string string -> list (string * string)) (srange : gset string -> list string).
Context (migrators : list (string * option (Env -> outcome (result string unit) * Env))).
Hypothesis range_perm : forall m, range m ≡ₚ map_to_list m.
Hypothesis stops : stop_returns Sys Env.
Hypothesis closing : close_returns Sys Env.
Abbreviation World := (World Sys Env Q).
Abbreviation Stream := (eventstream.EventsStream Q).

(** ** The engine's part *)
Lemma stop_all_trace ctx events l : forall d (b : Stream) (x : Env * list external) errs,
  exists errs' d' b' x', engine.stop_all (close_publisher ctx) events l d b x errs = (Ret errs', d', b', x') /\
    closes x'.2 = closes x.2 ++ tagged events (fst <$> l).
Proof.
  induction l as [|[p s] l IH]; intros d b x errs; simpl; [eexists _, _, _, _; split; [done|by rewrite app_nil_r]|].
  unfold close_publisher at 1. pose proof (closing events p ctx x.1) as Hc. destruct (ClosePublisher events p ctx x.1) as [[r|] e]; [|done].
  destruct r; match goal with |- context [engine.stop_all _ _ _ ?d1 ?b1 ?x1 ?errs1] => destruct (IH d1 b1 x1 errs1) as (? & ? & ? & ? & -> & Hcl) end;
    (eexists _, _, _, _; split; [done|]; rewrite Hcl; simpl; by rewrite closes_app, <- app_assoc).
Qed.

Lemma range_keys (m : gmap string string) l : NoDup l -> dom m = list_to_set l -> (fst <$> range m) ≡ₚ l.
Proof.
  intros Hnd Hdom. rewrite range_perm. apply NoDup_Permutation; [apply NoDup_fst_map_to_list|done|]. intros i.
  rewrite list_elem_of_fmap. rewrite <- (elem_of_list_to_set (C := gset string)), <- Hdom, elem_of_dom. split.
  - intros ([? v] & -> & Hv%elem_of_map_to_list). by exists v.
  - intros [v Hv]. exists (i, v). split; [done|]. by apply elem_of_map_to_list.
Qed.

Lemma engine_stop_closes ctx e (b : Stream) x evs sts : engine.Started e = true -> NoDup evs -> NoDup sts ->
  dom (engine.eventsStreams e) = list_to_set evs -> dom (engine.statesStreams e) = list_to_set sts ->
  exists errs e' b' x', engine.Stop (close_publisher ctx) range srange e b x = (Ret errs, e', b', x') /\
  engine.Started e' = false /\ closes x'.2 ≡ₚ closes x.2 ++ tagged true evs ++ tagged false sts.
Proof.
  intros Hst He Hs Hde Hds. unfold engine.Stop. rewrite Hst. simpl.
  destruct (stop_all_trace ctx true (range (engine.eventsStreams e)) (engine.done e) b x []) as (errs1 & d1 & b1 & x1 & -> & H1).
  destruct (stop_all_trace ctx false (range (engine.statesStreams e)) d1 b1 x1 errs1) as (errs2 & d2 & b2 & x2 & -> & H2).
  eexists _, _, _, _. split_and!; [done|done|]. rewrite H2, H1. unfold tagged.
  rewrite (range_keys _ _ He Hde), (range_keys _ _ Hs Hds). by rewrite <- app_assoc.
Qed.

Lemma register_dom topic pubs : forall m (b : Stream), dom (engine.register topic pubs m b).1 = list_to_set (fst <$> pubs) ∪ dom m.
Proof.
  induction pubs as [|[p s] pubs IH]; intros m b; simpl; [set_solver|]. rewrite IH, dom_insert_L. set_solver.
Qed.

(** Adding publishers keeps the engine running; accepted, they are among
    those it will close. *)
Lemma add_publishers (events : bool) e (b : Stream) pubs r e' b' :
  (if events then engine.AddEventPublishers else engine.AddStatePublishers) e b pubs = (r, e', b') ->
  engine.Started e' = engine.Started e /\
  dom (engine.eventsStreams e') = (match r return gset string with None => if events then list_to_set (fst <$> pubs) else ∅ | Some _ => ∅ end) ∪ dom (engine.eventsStreams e) /\
  dom (engine.statesStreams e') = (match r return gset string with None => if events then ∅ else list_to_set (fst <$> pubs) | Some _ => ∅ end) ∪ dom (engine.statesStreams e).
Proof.
  destruct events; simpl; [unfold engine.AddEventPublishers|unfold engine.AddStatePublishers];
    (destruct (engine.Started e) eqn:Hst; simpl; [|intros [= <- <- <-]; split_and!; [done|set_solver..]]);
    (destruct (engine.duplicatePublisherIDs _ _); [intros [= <- <- <-]; split_and!; [done|set_solver..]|]).
  - pose proof (register_dom engine.EventsTopic pubs (engine.eventsStreams e) b) as Hd. destruct (engine.register _ _ _ _) as [m b1].
    intros [= <- <- <-]. simpl in *. split_and!; [done|done|set_solver].
  - pose proof (register_dom engine.StatesTopic pubs (engine.statesStreams e) b) as Hd. destruct (engine.register _ _ _ _) as [m b1].
    intros [= <- <- <-]. simpl in *. split_and!; [done|set_solver|done].
Qed.

(** ** The world between steps *)
Context (spec : compose.Spec) (o : options).
Abbreviation evs := (publisher_ids (compose.EventPublishers spec)).
Abbreviation sts := (publisher_ids (compose.StatePublishers spec)).
Hypothesis events_distinct : NoDup evs.
Hypothesis states_distinct : NoDup sts.

Definition owned : list (bool * string) := tagged true evs ++ tagged false sts.
Definition attached_of (w : World) : list (bool * string) :=
  (if eventsAttached w then tagged true evs else []) ++ (if statesAttached w then tagged false sts else []).
Definition complete (w : World) : Prop := (eventsAttached w = true \/ evs = []) /\ (statesAttached w = true \/ sts = []).

(** The actor system, if there is one, has ended or was told to. *)
Definition system_released (w : World) : Prop := forall s, sys w = Some s -> goakt.Running s = false \/ XStopSystem ∈ trace w.

(** No engine yet. *)
Record pristine (w : World) : Prop := {
  pr_hook : afterHook w = None;
  pr_eng : eng w = None;
  pr_ev : eventsAttached w = false;
  pr_st : statesAttached w = false;
  pr_closes : closes (trace w) = []
}.
(** The engine runs and holds exactly the publishers that were attached. *)
Record live (w : World) : Prop := {
  lv_hook : afterHook w = None;
  lv_closes : closes (trace w) = [];
  lv_sys : is_Some (sys w);
  lv_stream : is_Some (stream w);
  lv_eng : exists e, eng w = Some e /\ engine.Started e = true /\
    dom (engine.eventsStreams e) = list_to_set (if eventsAttached w then evs else []) /\
    dom (engine.statesStreams e) = list_to_set (if statesAttached w then sts else [])
}.
(** No engine runs; what was attached is closed, and nothing else. *)
Record idle (w : World) : Prop := {
  id_hook : afterHook w = None;
  id_closes : closes (trace w) ≡ₚ attached_of w;
  id_eng : forall e, eng w = Some e -> engine.Started e = false
}.

Definition before_step (i : nat) (w : World) : Prop :=
  match i with
  | 0 | 1 => pristine w /\ sys w = None
  | 2 => pristine w /\ is_Some (sys w) /\ is_Some (stream w) /\ is_Some (config w)
  | 3 => live w
  | _ => live w /\ complete w
  end.
(** [C] says whether everything had been attached. *)
Definition after_undo (C : Prop) (i : nat) (w : World) : Prop :=
  (if (i <=? 2)%nat then idle w else live w) /\ (i <= 1 -> system_released w) /\ (C -> complete w).

(** ** Calls to the environment *)

(** Nothing but the environment changed, and nothing was closed. *)
Definition same (w w' : World) : Prop := exists e l, w' = set_env w (e, trace w ++ l) /\ closes l = [].

Lemma same_calls_refl w : same w w.
Proof. exists (env w), []. rewrite app_nil_r. by destruct w. Qed.

Lemma same_trans w1 w2 w3 : same w1 w2 -> same w2 w3 -> same w1 w3.
Proof.
  intros (e1 & l1 & -> & H1) (e2 & l2 & -> & H2). exists e2, (l1 ++ l2). split; [simpl; by rewrite app_assoc|]. by rewrite closes_app, H1, H2.
Qed.

Lemma ext_same {A} x (r : A * Env) w : is_close x = None -> same w (ext x r w).2.
Proof. intros Hx. exists r.2, [x]. split; [done|]. unfold closes. simpl. by rewrite Hx. Qed.

Lemma pristine_same w w' : same w w' -> pristine w -> pristine w'.
Proof. intros (e & l & -> & Hl) []. split; try done. simpl. by rewrite closes_app, pr_closes0, Hl. Qed.

Lemma live_same w w' : same w w' -> live w -> live w'.
Proof. intros (e & l & -> & Hl) []. split; try done. simpl. by rewrite closes_app, lv_closes0, Hl. Qed.

Lemma ping_same ctx stores : forall errs w, same w (ping_stores ctx stores errs w).2.
Proof.
  induction stores as [|[n st] stores IH]; intros errs w; simpl; [apply same_calls_refl|]. destruct (adapter.PingerOf st); simpl; [|apply IH].
  pose proof (ext_same (XPingStore n) (PingStore n ctx (env w)) w eq_refl) as Hs. unfold ext in *. simpl in *.
  destruct (PingStore n ctx (env w)) as [[r|] e]; simpl in *; [|done]. eapply same_trans; [exact Hs|apply IH].
Qed.

Lemma probe_same start ping ctx l : (forall o ctx w, same w (start o ctx w).2) -> (forall o ctx w, same w (ping o ctx w).2) ->
  forall w, same w (adapters.StartAndProbe print_tbl start ping ctx l w).2.
Proof.
  intros Hs Hp. induction l as [|x l IH]; intros w; simpl; [apply same_calls_refl|].
  assert (same w (if adapter.StarterOf (adapters.Value x) then start x ctx w else (Ret None, w)).2) as H1 by (destruct (adapter.StarterOf _); [apply Hs|apply same_calls_refl]).
  destruct (if adapter.StarterOf (adapters.Value x) then _ else _) as [[[e|]|] w1]; simpl in *; [done| |done].
  assert (same w1 (if adapter.PingerOf (adapters.Value x) then ping x ctx w1 else (Ret None, w1)).2) as H2 by (destruct (adapter.PingerOf _); [apply Hp|apply same_calls_refl]).
  destruct (if adapter.PingerOf (adapters.Value x) then _ else _) as [[[e|]|] w2]; simpl in *; [by eapply same_trans| |by eapply same_trans].
  eapply same_trans; [exact H1|]. eapply same_trans; [exact H2|apply IH].
Qed.

Lemma afterStep_nil name (w : World) : afterHook w = None -> afterStep name w = (Ret None, w).
Proof. unfold afterStep. by intros ->. Qed.

(** ** Undoing *)
Lemma live_set_sys w s l : live w -> live (set_projections (set_sys w s) l).
Proof. intros []. by split. Qed.

Lemma live_projections w l : live w -> live (set_projections w l).
Proof. intros []. by split. Qed.

Lemma stop_projections_live ctx names : forall errs w, live w ->
  exists errs' s, stop_projections ctx names errs w = (Ret errs', set_sys w s).
Proof.
  induction names as [|name names IH]; intros errs w Hl; destruct (lv_sys w Hl) as [s Hs]; simpl.
  - exists errs, s. by destruct w; simpl in *; subst.
  - destruct (lv_eng w Hl) as (e & He & _). rewrite He, Hs. destruct (engine.StopProjection e s ctx name) as [r s1].
    assert (live (set_sys w s1)) as Hl1 by (destruct Hl; by split).
    destruct (IH (errs ++ option_list (EStopProjection name <$> r)) _ Hl1) as (errs' & s2 & ->). by exists errs', s2.
Qed.

Lemma stopProjections_live ctx w : live w ->
  exists r s, stopProjections ctx w = (Ret r, set_projections (set_sys w s) []).
Proof.
  intros Hl. unfold stopProjections. destruct (stop_projections_live ctx (reverse (projections w)) [] w Hl) as (errs & s & ->). by eexists _, s.
Qed.

Lemma stopEngine_live ctx w : live w -> exists r e b x, stopEngine range srange ctx w = (Ret r, set_eng (set_stream (set_env w x) b) e) /\
  engine.Started e = false /\ closes x.2 ≡ₚ attached_of w.
Proof.
  intros []. destruct lv_eng0 as (e & He & Hst & Hev & Hss), lv_stream0 as [b Hb]. unfold stopEngine. rewrite He, Hb.
  destruct (engine_stop_closes ctx e b (env w, trace w) (if eventsAttached w then evs else []) (if statesAttached w then sts else []))
    as (errs & e' & b' & x' & -> & Hoff & Hc); try done.
  3: exists (match errs with [] => None | _ => Some (EStopEngine errs) end), e', b', x'; split_and!; [by destruct errs|done|];
    rewrite Hc; simpl; rewrite lv_closes0; unfold attached_of; by destruct (eventsAttached w), (statesAttached w).
  - destruct (eventsAttached w); [done|constructor].
  - destruct (statesAttached w); [done|constructor].
Qed.

Lemma stopActorSystem_idle ctx w : idle w -> (stopActorSystem srange ctx w).1 <> Panicked /\ idle (stopActorSystem srange ctx w).2 /\
  system_released (stopActorSystem srange ctx w).2 /\ (complete w -> complete (stopActorSystem srange ctx w).2).
Proof.
  intros []. unfold stopActorSystem. destruct (sys w) as [s|] eqn:Hs; [destruct (goakt.Running s) eqn:Hr|].
  - unfold ext, close_stream. pose proof (stops s ctx (env w)) as Hst. destruct (StopSystem s ctx (env w)) as [[[r|] s'] e]; [|done]. simpl.
    split_and!; [done|..]; destruct (stream w); simpl; try done.
    1,2: split; try done; simpl; by rewrite closes_app, app_nil_r.
    1,2: intros s0 _; right; set_solver.
  - unfold close_stream. split_and!; [done|..]; destruct (stream w); simpl; try done; intros s0 Hs0; left; simpl in Hs0; congruence.
  - unfold close_stream. split_and!; [done|..]; destruct (stream w); simpl; try done; intros s0 Hs0; simpl in Hs0; congruence.
Qed.

Lemma close_publishers_trace events ctx l : forall errs (w : World), exists errs' e tr,
  close_publishers events ctx l errs w = (Ret errs', set_env w (e, tr)) /\
  closes tr = closes (trace w) ++ tagged events (snd <$> l) /\ (forall x, x ∈ trace w -> x ∈ tr).
Proof.
  induction l as [|[v i] l IH]; intros errs w; simpl.
  { exists errs, (env w), (trace w). split_and!; [by destruct w|by rewrite app_nil_r|done]. }
  unfold ext. pose proof (closing events i ctx (env w)) as Hc. destruct (ClosePublisher events i ctx (env w)) as [[r|] e]; [|done]. simpl.
  destruct r; match goal with |- context [close_publishers _ _ _ ?errs1 ?w1] => destruct (IH errs1 w1) as (errs' & e1 & tr & -> & Hc1 & Hin) end;
    (eexists errs', e1, tr; split_and!; [done|rewrite Hc1; simpl; by rewrite closes_app, <- app_assoc|intros x Hx; apply Hin; simpl; set_solver]).
Qed.

Lemma release_idle ctx w : idle w -> system_released w -> (releasePublishers spec ctx w).1 <> Panicked /\
  closes (trace (releasePublishers spec ctx w).2) ≡ₚ owned /\ system_released (releasePublishers spec ctx w).2 /\
  eng (releasePublishers spec ctx w).2 = eng w.
Proof.
  intros [] Hsys. unfold releasePublishers.
  destruct (close_publishers_trace true ctx (publishers (compose.EventPublishers spec)) [] w) as (errs1 & e1 & tr1 & H1 & Hc1 & Hin1).
  set (w1 := if eventsAttached w then w else set_env w (e1, tr1)).
  assert (exists l, (if eventsAttached w then (Ret [], w) else close_publishers true ctx (publishers (compose.EventPublishers spec)) [] w) = (Ret l, w1)) as [l ->].
  { unfold w1. destruct (eventsAttached w); [by eexists|]. rewrite H1. by eexists. }
  destruct (close_publishers_trace false ctx (publishers (compose.StatePublishers spec)) l w1) as (errs2 & e2 & tr2 & H2 & Hc2 & Hin2).
  assert (statesAttached w1 = statesAttached w) as Hst by (unfold w1; by destruct (eventsAttached w)).
  assert (sys w1 = sys w) as Hs1 by (unfold w1; by destruct (eventsAttached w)).
  assert (eng w1 = eng w) as He1 by (unfold w1; by destruct (eventsAttached w)).
  assert (forall x, x ∈ trace w -> x ∈ trace w1) as Hin by (unfold w1; destruct (eventsAttached w); [done|exact Hin1]).
  assert (closes (trace w1) ≡ₚ tagged true evs ++ (if statesAttached w then tagged false sts else [])) as Hc.
  { unfold w1. destruct (eventsAttached w) eqn:Hev; simpl; [|rewrite Hc1]; rewrite id_closes0; unfold attached_of; rewrite Hev; [done|].
    simpl. by rewrite Permutation_app_comm. }
  unfold owned. rewrite Hst. destruct (statesAttached w).
  - simpl. split_and!; [done|done| |done]. intros s. rewrite Hs1. intros Hs. destruct (Hsys s Hs); auto.
  - rewrite H2. simpl. split_and!; [done| | |done].
    + rewrite Hc2, Hc. by rewrite app_nil_r.
    + intros s. simpl. rewrite Hs1. intros Hs. destruct (Hsys s Hs); auto.
Qed.

Lemma pristine_idle w : pristine w -> idle w.
Proof. intros []. split; [done| |congruence]. unfold attached_of. by rewrite pr_ev0, pr_st0, pr_closes0. Qed.

Lemma pristine_undo C i w : i <= 2 -> pristine w -> (i <= 1 -> sys w = None) -> (C -> False) -> after_undo C i w.
Proof.
  intros Hi Hp Hs HC. unfold after_undo. destruct (Nat.leb_spec i 2); [|lia]. split_and!; [by apply pristine_idle| |by intros []%HC].
  intros H1 s. by rewrite Hs.
Qed.

Lemma before_after_undo i w : i < 5 -> before_step i w -> after_undo False i w.
Proof.
  intros Hi. destruct i as [|[|[|[|[|]]]]]; [| | | | |lia]; simpl; intros H; try (apply pristine_undo; [lia|tauto..]); try (intros; tauto).
  - apply pristine_undo; [lia|tauto|lia|done].
  - split_and!; [done|lia|done].
  - split_and!; [apply H|lia|done].
Qed.

Lemma ids_of (events : bool) l (e : Env) : fst <$> with_ids events l e = snd <$> l.
Proof. unfold with_ids. rewrite <- list_fmap_compose. done. Qed.

(** ** Starting *)
Lemma attach_live (events : bool) (w : World) r w' :
  let l := publishers (if events then compose.EventPublishers spec else compose.StatePublishers spec) in
  live w -> attach events l w = (r, w') -> live w' /\
  (r = Ret None -> (if events then eventsAttached w' = true \/ evs = [] else statesAttached w' = true \/ sts = []) /\
    (if events then statesAttached w' = statesAttached w else eventsAttached w' = eventsAttached w)).
Proof.
  intros l [Hh Hc Hsy [b Hb] (e & He & Hst & Hev & Hss)]. unfold attach. rewrite He, Hb. destruct l as [|p l0] eqn:Hl.
  { intros [= <- <-]. split; [split; try done; eauto|]. intros _. unfold l in Hl. unfold publisher_ids, publishers in *. destruct events; rewrite Hl; auto. }
  destruct ((if events then engine.AddEventPublishers else engine.AddStatePublishers) e b (with_ids events (p :: l0) (env w))) as [[res e'] b'] eqn:Hadd.
  apply add_publishers in Hadd as (Hst' & Hev' & Hss'). rewrite ids_of, <- Hl in Hev', Hss'.
  destruct res as [err|].
  { intros [= <- <-]. split; [|done]. split; try done. simpl. exists e'. split_and!; [done|congruence|set_solver..]. }
  unfold l in Hev', Hss'. destruct events; intros [= <- <-]; (split; [|intros _; split; [by left|done]]);
    (split; try done; simpl; exists e'; split_and!; [done|congruence| |]).
  1,3: rewrite Hev', Hev; change (snd <$> publishers (compose.EventPublishers spec)) with evs; destruct (eventsAttached w); set_solver.
  1,2: rewrite Hss', Hss; change (snd <$> publishers (compose.StatePublishers spec)) with sts; destruct (statesAttached w); set_solver.
Qed.

Lemma start_projections_live ctx names : forall w, live w -> exists r s l,
  start_projections ctx names w = (Ret r, set_projections (set_sys w s) l).
Proof.
  induction names as [|name names IH]; intros w Hl; destruct (lv_sys w Hl) as [s Hs]; simpl.
  - exists None, s, (projections w). by destruct w; simpl in *; subst.
  - destruct (lv_eng w Hl) as (e & He & _). rewrite He, Hs. destruct (engine.StartProjection e s ctx name) as [[err|] s1].
    + exists (Some (EStartProjection name err)), s1, (projections w). by destruct w.
    + destruct (IH (set_projections (set_sys w s1) (projections w ++ [name]))) as (r & s2 & l & ->); [by apply live_set_sys|]. by exists r, s2, l.
Qed.

Lemma live_undo i w : live w -> 3 <= i -> after_undo False i w.
Proof. intros Hl Hi. unfold after_undo. destruct (Nat.leb_spec i 2); [lia|]. split_and!; [done|lia|done]. Qed.

Lemma startActorSystem_keeps ctx w : before_step 1 w ->
  match startActorSystem srange o spec ctx w with (Ret None, w') => before_step 2 w' | (_, w') => after_undo False 1 w' end.
Proof.
  intros [Hp Hs].
  assert (forall e l, closes l = [] -> pristine (set_env w (e, trace w ++ l))) as Hext.
  { intros e l Hl. destruct Hp. split; try done. simpl. by rewrite closes_app, pr_closes0, Hl. }
  unfold startActorSystem, ext. destruct (NewActorSystem _ _ (env w)) as [[[s|err]|] e1]; simpl; try (by apply pristine_undo; [lia|apply Hext|..]).
  rewrite <- app_assoc. destruct (StartSystem s ctx e1) as [[[[err|]|] s1] e2]; simpl; try (by apply pristine_undo; [lia|apply Hext|..]).
  rewrite afterStep_nil by apply Hp. split_and!; [|by eexists..]. destruct (Hext e2 ([XNewSystem] ++ [XStartSystem]) eq_refl). by split.
Qed.

Lemma startEngine_keeps ctx w : before_step 2 w ->
  match startEngine range srange migrators spec ctx w with (Ret None, w') => before_step 3 w' | (_, w') => after_undo False 2 w' end.
Proof.
  intros (Hp & [s Hs] & [b Hb] & [c Hc]). unfold startEngine. rewrite Hs, Hc.
  assert (exists s', (engine_config.NewEngine (Some s) (Some c)).2 = Some s') as [s' Hs'].
  { unfold engine_config.NewEngine. repeat case_match; simpl; eauto. }
  destruct (engine_config.NewEngine (Some s) (Some c)) as [[c'|err] s1]; simpl in Hs'; subst s1.
  - unfold engine.Start. simpl. destruct (if engine_config.schemaMigration c' then _ else _) as [[[err|]|] x].
    1,3: apply pristine_undo; [lia| |lia|done]; destruct Hp; by split.
    + simpl. rewrite afterStep_nil by apply Hp. destruct Hp. split; try done. simpl. eexists. split_and!; [done|done|..]; simpl; rewrite ?pr_ev0, ?pr_st0; done.
  - apply pristine_undo; [lia| |lia|done]. destruct Hp. by split.
Qed.

Lemma attachPublishers_keeps ctx w : before_step 3 w ->
  match attachPublishers print_tbl spec ctx w with (Ret None, w') => before_step 4 w' | (_, w') => after_undo False 3 w' end.
Proof.
  intros Hl. unfold attachPublishers.
  assert (same w (adapters.StartAndProbe print_tbl (fun o ctx w => ext (XStartPublisher o) (StartPublisher o ctx (env w)) w)
    (fun o ctx w => ext (XPingPublisher o) (PingPublisher o ctx (env w)) w) ctx (ownedPublishers spec) w).2) as Hsame
    by (apply probe_same; intros; by apply ext_same).
  destruct (adapters.StartAndProbe _ _ _ _ _ _) as [[[m|]|] w1]; apply live_same in Hsame; try done; simpl in Hsame; try (by apply live_undo).
  destruct (attach true _ w1) as [r2 w2] eqn:H2. apply (attach_live true) in H2 as [Hl2 Hev]; [|done].
  destruct r2 as [[e|]|]; try (by apply live_undo). destruct (Hev eq_refl) as [Hev1 _].
  destruct (attach false _ w2) as [r3 w3] eqn:H3. apply (attach_live false) in H3 as [Hl3 Hst]; [|done].
  destruct r3 as [[e|]|]; try (by apply live_undo). destruct (Hst eq_refl) as [Hst1 Hst2].
  rewrite afterStep_nil by apply Hl3. split; [done|]. split; [by rewrite Hst2|done].
Qed.

Lemma startProjections_keeps ctx w : before_step 4 w ->
  match startProjections spec ctx w with (Ret None, w') => before_step 5 w' | (_, w') => after_undo False 4 w' end.
Proof.
  intros [Hl Hc]. unfold startProjections. destruct (start_projections_live ctx (projectionNames spec) w Hl) as (r & s & l & ->).
  pose proof (live_set_sys w s l Hl) as Hl1. destruct r as [err|].
  - unfold undo_self. destruct (stopProjections_live (cleanupContext spec ctx (set_projections (set_sys w s) l)) _ Hl1) as (r & s' & ->).
    apply live_undo; [by apply live_set_sys|lia].
  - rewrite afterStep_nil by apply Hl1. split; [done|exact Hc].
Qed.

Abbreviation app_steps := (steps print_tbl range srange migrators o spec).

Lemma steps_start i st : app_steps !! i = Some st -> start_keeps before_step (after_undo False) i st.
Proof.
  intros Hst start ctx w Hs. destruct i as [|[|[|[|[|]]]]]; try done; injection Hst as <-; injection Hs as <-;
    [|apply startActorSystem_keeps|apply startEngine_keeps|apply attachPublishers_keeps|apply startProjections_keeps].
  intros [Hp Hs]. unfold probeStores.
  match goal with |- context [ping_stores ctx ?l [] w] => pose proof (ping_same ctx l [] w) as Hsame; destruct (ping_stores ctx l [] w) as [[errs|] w1] end.
  all: simpl in Hsame; destruct Hsame as (e & l & -> & Hcl); assert (pristine (set_env w (e, trace w ++ l))) as Hp1 by (eapply pristine_same; [by exists e, l|done]).
  - simpl. destruct (Join errs); [by apply pristine_undo; [lia|..]|]. by rewrite afterStep_nil by apply Hp1.
  - by apply pristine_undo; [lia|..].
Qed.

Lemma steps_stop C i st : app_steps !! i = Some st -> stop_keeps (after_undo C) i st.
Proof.
  intros Hst. unfold stop_keeps. destruct i as [|[|[|[|[|]]]]]; try done; injection Hst as <-; simpl; unfold after_undo; simpl.
  - intros w (Hi & Hs & HC). split_and!; [done|by auto|done].
  - intros ctx w (Hi & _ & HC). destruct (stopActorSystem_idle ctx w Hi) as (H1 & H2 & H3 & H4). by split_and!; auto.
  - intros ctx w (Hl & _ & HC). destruct (stopEngine_live ctx w Hl) as (r & e & b & x & -> & Hoff & Hc). split; [done|].
    split_and!; [|lia|done]. split; [apply Hl|exact Hc|]. simpl. by intros ? [= <-].
  - intros w (Hl & _ & HC). split_and!; [done|lia|done].
  - intros ctx w (Hl & _ & HC). destruct (stopProjections_live ctx w Hl) as (r & s & ->). split; [done|]. split_and!; [by apply live_set_sys|lia|done].
Qed.

(** ** The App *)

(** Everything the App was given is closed, each publisher once; its engine,
    if it had one, refuses work; its actor system has ended or was told to. *)
Record ended (w : World) : Prop := {
  en_closes : closes (trace w) ≡ₚ owned;
  en_eng : forall e, eng w = Some e -> engine.Started e = false;
  en_sys : system_released w
}.

Lemma releases_ended : releases (after_undo False 0) ended (Some (releasePublishers spec)).
Proof.
  intros ctx w (Hi & Hs & _). destruct (release_idle ctx w Hi) as (H1 & H2 & H3 & H4); [apply Hs; lia|]. split; [done|]. split; [done| |done].
  rewrite H4. apply Hi.
Qed.

Lemma complete_ended w : after_undo True 0 w -> ended w.
Proof.
  intros (Hi & Hs & Hc). destruct (Hc I) as [He Hst]. split; [|apply Hi|apply Hs; lia]. rewrite (id_closes w Hi). unfold attached_of, owned.
  destruct He as [-> | ->], Hst as [-> | ->]; try done; by destruct (eventsAttached w), (statesAttached w).
Qed.

Context (s0 : lifecycle.Sequence World error).
Hypothesis built : s0 = lifecycle.mkSequence lifecycle.StateNew app_steps (Some (releasePublishers spec)) (lifecycle.timeout s0) 0.

(** The four states an App can be in between calls. *)
Definition app_inv (a : App Sys Env Q) : Prop :=
  (seq a = s0 /\ published a = false /\ before_step 0 (world a)) \/
  (seq a = lifecycle.set_started (lifecycle.setState s0 lifecycle.StateRunning) 5 /\ published a = true /\ before_step 5 (world a)) \/
  (seq a = lifecycle.setState s0 lifecycle.StateStopped /\ ended (world a)) \/
  (seq a = lifecycle.setState s0 lifecycle.StateFailed /\ published a = false /\ ended (world a)).

Lemma start_inv ctx a : app_inv a -> app_inv (Start ctx a).2.
Proof.
  intros Hinv. unfold Start. destruct Hinv as [(Hs & Hp & HP)|Hinv].
  - destruct (lifecycle.Start now ctx (seq a) (world a)) as [[r s1] w1] eqn:Hst. rewrite Hs in Hst.
    apply (start_rule now before_step (after_undo False) ended) in Hst as [(-> & -> & HP1)|(Hr & -> & HE)].
    + right; left. rewrite built in *. done.
    + right; right; right. destruct r as [[]|]; done.
    + rewrite built. apply steps_start.
    + rewrite built. apply steps_stop.
    + rewrite built. apply before_after_undo.
    + rewrite built. apply releases_ended.
    + by rewrite built.
    + by rewrite built.
    + done.
  - rewrite not_new_refused by (destruct Hinv as [(-> & _)|[(-> & _)|(-> & _)]]; done). right. simpl. by destruct a.
Qed.

Lemma stop_inv ctx a : app_inv a -> app_inv (Stop ctx a).2.
Proof.
  intros Hinv. unfold Stop. destruct (lifecycle.Stop now ctx (seq a) (world a)) as [[r s1] w1] eqn:Hst.
  destruct Hinv as [(Hs & Hp & HP)|[(Hs & Hp & HP)|Hinv]]; [rewrite Hs in Hst..|].
  - apply (stop_new_rule now (after_undo False 0) ended) in Hst as (_ & -> & HE); [|rewrite built; apply releases_ended|by rewrite built..|].
    + right; right; left. done.
    + apply before_after_undo; [lia|done].
  - destruct HP as [Hl Hc]. apply (stop_rule now (after_undo True)) in Hst as (_ & -> & HE).
    + right; right; left. split; [simpl; by rewrite built|by apply complete_ended].
    + rewrite built. apply steps_stop.
    + done.
    + by rewrite built.
    + rewrite built. split_and!; [done|simpl; lia|done].
  - assert (lifecycle.state (seq a) = lifecycle.StateStopped \/ lifecycle.state (seq a) = lifecycle.StateFailed) as Hend
      by (destruct Hinv as [(-> & _)|(-> & _)]; auto).
    destruct (ended_inert now _ ctx (world a) Hend) as [_ Hi]. rewrite Hi in Hst. injection Hst as <- <- <-. right; right. simpl. by destruct a.
Qed.

Lemma run_inv calls : forall a, app_inv a -> app_inv (run calls a).
Proof.
  induction calls as [|[ctx|ctx] calls IH]; intros a Ha; simpl; [done|apply IH, start_inv, Ha|apply IH, stop_inv, Ha].
Qed.
End Spec.

(** ** Which deployments are accepted *)
Section New.
Context {msg Sys Env P Q : Type} {ASys : goakt.ActorSystem msg Sys} {ENV : Environment Sys Env} {QF : Fifo Q (eventstream.Message P)}.
Context (print_tbl : Z -> bool) (fmt_duration : Z -> string).
Context (range : gmap string string -> list (string * string)) (srange : gset string -> list string).
Context (migrators : list (string * option (Env -> outcome (result string unit) * Env))).
Abbreviation New := (New (Q := Q) print_tbl fmt_duration range srange migrators).

(** G1 and G2. *)
Definition valid_options (o : options) (spec : compose.Spec) : Prop :=
  (clusterSet o = true -> cluster o = true /\ kinds o <> []) /\ actorSystemName (compose.Name spec) = true.

Lemma validate_nil o spec : validate o spec = [] <-> valid_options o spec.
Proof.
  unfold validate, valid_options. rewrite app_nil. f_equiv.
  - destruct (clusterSet o); [|by split]. rewrite app_nil. destruct (cluster o); simpl; [|split; [by intros []|by intros []]].
    case_bool_decide as Hk; split; [by intros []|intros Hc; by destruct (Hc eq_refl)|done|done].
  - case_bool_decide as Hn; [rewrite Hn; by split|]. by destruct (actorSystemName _).
Qed.

Lemma new_valid spec opts e a : New spec opts e = Ok a -> valid_spec spec /\ valid_options (resolve opts) spec /\
  seq a = lifecycle.mkSequence lifecycle.StateNew (steps print_tbl range srange migrators (resolve opts) spec)
    (Some (releasePublishers spec)) (lifecycle.timeout (seq a)) 0 /\ published a = false /\ world a = fresh e.
Proof.
  unfold New. rewrite <- (validate_exact print_tbl fmt_duration spec), <- validate_nil.
  destruct (compose.Validate print_tbl fmt_duration spec); simpl; [|done]. destruct (validate (resolve opts) spec); simpl; [|done].
  unfold lifecycle.New. simpl. destruct (_ <? _)%Z; [done|]. by intros [= <-].
Qed.

(** C36: [New] accepts a deployment exactly when it obeys the rules V1 to V8, G1
    and G2; it starts nothing: no call is made, and the App has no engine. *)
Theorem new_exact spec opts e :
  ((exists a, New spec opts e = Ok a) <-> valid_spec spec /\ valid_options (resolve opts) spec) /\
  forall a, New spec opts e = Ok a -> world a = fresh e /\ Engine a = None /\ lifecycle.state (seq a) = lifecycle.StateNew.
Proof.
  split; [split|].
  - intros [a (? & ? & _)%new_valid]. done.
  - intros [Hv Ho]. pose proof (v7 _ Hv) as H7. unfold New. apply (validate_exact print_tbl fmt_duration) in Hv as ->. apply validate_nil in Ho as ->.
    simpl. unfold lifecycle.New. simpl. destruct (Z.ltb_spec (compose.ShutdownTimeout spec) 0); [lia|]. by eexists.
  - intros a (_ & _ & Hs & Hp & Hw)%new_valid. unfold Engine. by rewrite Hs, Hp.
Qed.

(** C19: Suppose that stopping the actor system and closing a publisher, which
    may fail, do not panic. Then, whatever calls of [Start] and [Stop] an
    accepted App receives, whatever the stores, the publishers and the actor
    library answer, and even if the pings of the stores, the construction and
    the start of the actor system or the starts and pings of the publishers
    panic: while the App is new or runs, no publisher was closed;
    once it has stopped or failed, every publisher of the specification was
    closed, each exactly once, attached or not, its engine refuses work, and
    the actor system it held has ended or was told to. The engine is handed
    out only after a start that succeeded. *)
Theorem app_releases_publishers spec opts e a calls :
  (forall m, range m ≡ₚ map_to_list m) -> stop_returns Sys Env -> close_returns Sys Env -> New spec opts e = Ok a ->
  let a' := run calls a in
  match lifecycle.state (seq a') with
  | lifecycle.StateNew => closes (trace (world a')) = [] /\ Engine a' = None
  | lifecycle.StateRunning => closes (trace (world a')) = [] /\ exists eng, Engine a' = Some eng /\ engine.Started eng = true
  | lifecycle.StateStopped => ended spec (world a')
  | lifecycle.StateFailed => ended spec (world a') /\ Engine a' = None
  | lifecycle.StateStarting | lifecycle.StateStopping => False
  end.
Proof.
  intros Hrange Hstops Hcloses (Hv & _ & Hseq & Hp & Hw)%new_valid a'.
  assert (app_inv spec (seq a) a') as Hinv.
  { eapply run_inv; [exact Hrange|exact Hstops|exact Hcloses|apply (v68_events _ Hv)|apply (v68_states _ Hv)|exact Hseq|]. left. split_and!; [done..|]. by rewrite Hw. }
  unfold Engine. destruct Hinv as [(-> & -> & [[] _])|[(-> & -> & [[] _])|[(-> & HE)|(-> & -> & HE)]]]; simpl; [by rewrite Hseq| |done..].
  split; [done|]. destruct lv_eng0 as (e' & -> & Hst & _). by eexists.
Qed.
End New.
End app_spec.
