(* ===== verification/ComposeEngineSpec.v ===== *)
(** * An accepted deployment fits the engine

    The composition root validates a specification before anything runs; the
    engine makes its own checks when it is built and when it is used.
    [accepted_spec_fits_engine]: the first make the second succeed.
    [unknown_family_unguarded] in [ComposeExamples.v]: where they do not. *)

From S2P Require Import Prelude GoStrings Tenancy ActorSystem EventStore Stream EngineConfig Engine EngineConfigSpec Lifecycle LifecycleSpec.
From S2P Require Import Compose ComposeSpec ComposeApp ComposeAppSpec.
From Stdlib Require Import ZArith Lia.
Open Scope string_scope.
Open Scope list_scope.

Module app_engine_spec.
Import app compose_spec app_spec engine_config engine_config_spec extensions.

(** The projections among the options of a configuration. *)
Definition registered (opts : list engine_config.Option_) : list (string * Options) :=
  omap (fun o => match o with WithProjection n (Some x) => Some (n, x) | _ => None end) opts.

Lemma NewConfig_projections store ns opts n x : NoDup (registered opts).*1 ->
  projections (NewConfig store ns opts) !! n = Some x <-> (n, x) ∈ registered opts.
Proof.
  induction opts as [|o opts IH] using rev_ind; [intros _; unfold registered; simpl; rewrite elem_of_nil; by split|].
  rewrite NewConfig_snoc. unfold registered. rewrite omap_app. fold (registered opts).
  destruct o as [| | | |n' [x'|]| | | | | |[]| |[]]; simpl; rewrite ?app_nil_r; try exact IH.
  rewrite fmap_app, NoDup_app. intros (Hnd & Hne & _). simpl. rewrite elem_of_app, list_elem_of_singleton.
  destruct (decide (n' = n)) as [->|Hn].
  - rewrite lookup_insert_eq. split; [intros [= ->]; by right|]. intros [Hin|[= ->]]; [|done]. exfalso.
    apply (Hne n); [apply list_elem_of_fmap; by exists (n, x)|left].
  - rewrite lookup_insert_ne, IH by done. split; [by left|]. intros [|[= -> _]]; done.
Qed.

Lemma omap_option_of {A B} (f : A -> option B) b x : f x = None -> omap f (option_of b x) = [].
Proof. intros Hx. destruct b; simpl; by rewrite ?Hx. Qed.

Lemma omap_of_fmap {A B C} (f : B -> option C) (g : A -> B) (l : list A) : omap f (g <$> l) = omap (fun x => f (g x)) l.
Proof. induction l as [|x l IH]; [done|]. rewrite fmap_cons. cbn [omap list_omap]. change (list_omap B C f (g <$> l)) with (omap f (g <$> l)). by rewrite IH. Qed.

Lemma omap_same {A B} (f g : A -> option B) (l : list A) : (forall x, f x = g x) -> omap f l = omap g l.
Proof.
  intros H. induction l as [|x l IH]; [done|]. cbn [omap list_omap]. rewrite H.
  change (list_omap A B f l) with (omap f l). change (list_omap A B g l) with (omap g l). by rewrite IH.
Qed.

Lemma omap_none {A B} (f : A -> option B) (l : list A) : (forall x, f x = None) -> omap f l = [].
Proof. intros Hf. induction l as [|x l IH]; simpl; [done|]. by rewrite Hf. Qed.

Section Fit.
Context (o : options) (spec : compose.Spec).
Abbreviation c := (engineConfig o spec).
Abbreviation copts := (engineOptions o spec ++ [WithEventStream (Some 1%nat)]).

(** What the specification contributes, by kind of option. *)
Lemma omap_options {B} (f : engine_config.Option_ -> option B) :
  (forall b, f (WithStateStore b) = None /\ f (WithSnapshotStore b) = None /\ f (WithOffsetStore b) = None /\ f (engine_config.WithTelemetry b) = None /\ f (WithEncryptor b) = None) ->
  f engine_config.WithLogger = None -> (forall l, f (WithBehaviorKinds l) = None) -> (forall l, f (WithEventAdapters l) = None) -> (forall s, f (WithEventStream s) = None) ->
  omap f copts = omap f [WithEntityFamilies [app.entityFamilies (compose.Families spec)]] ++
    omap f ((fun name => WithProjection name (compose.options <$> mjoin (compose.Projections spec !! name))) <$> projectionNames spec) ++
    omap f match compose.TenantResolver spec with Some (v, r) => [WithTenantResolver (if adapter.typed_nil v then None else Some r)] | None => [] end.
Proof.
  intros Hb Hl Hk Ha Hs. unfold engineOptions. rewrite !omap_app, !(omap_option_of f) by (auto; apply Hb). simpl. rewrite Hs.
  by rewrite !app_nil_r.
Qed.

Lemma spec_families : families copts = [app.entityFamilies (compose.Families spec)].
Proof.
  unfold families. rewrite omap_options by done. rewrite omap_of_fmap, (omap_none _ (projectionNames spec)) by done.
  by destruct (compose.TenantResolver spec) as [[v r]|].
Qed.

Lemma spec_resolvers : resolvers copts = match compose.TenantResolver spec with Some (v, r) => if adapter.typed_nil v then [] else [r] | None => [] end.
Proof.
  unfold resolvers. rewrite omap_options by done. rewrite omap_of_fmap, (omap_none _ (projectionNames spec)) by done.
  destruct (compose.TenantResolver spec) as [[v r]|]; [|done]. simpl. by destruct (adapter.typed_nil v).
Qed.

Lemma projectionNames_NoDup : NoDup (projectionNames spec).
Proof. unfold projectionNames, testkit.sort_strings. rewrite merge_sort_Permutation. apply NoDup_fst_map_to_list. Qed.

Lemma spec_registered : registered copts =
  omap (fun name => (fun x => (name, compose.options x)) <$> mjoin (compose.Projections spec !! name)) (projectionNames spec).
Proof.
  unfold registered. rewrite omap_options by done. rewrite omap_of_fmap.
  rewrite (omap_same _ (fun n => (fun x => (n, compose.options x)) <$> mjoin (compose.Projections spec !! n)) (projectionNames spec))
    by (intros n; by destruct (mjoin (compose.Projections spec !! n))).
  simpl. destruct (compose.TenantResolver spec) as [[v r]|]; simpl; by rewrite app_nil_r.
Qed.

Lemma spec_projections n x : projections c !! n = Some x <-> exists p, compose.Projections spec !! n = Some (Some p) /\ compose.options p = x.
Proof.
  unfold engineConfig. rewrite NewConfig_projections; rewrite spec_registered.
  - rewrite list_elem_of_omap. split.
    + intros (n' & _ & Hx). destruct (compose.Projections spec !! n') as [[p|]|] eqn:Hp; simpl in Hx; simplify_eq. eauto.
    + intros (p & Hp & <-). exists n. rewrite Hp. split; [|done]. apply (elem_projection_names spec n). by eexists.
  - pose proof projectionNames_NoDup as Hnd. induction (projectionNames spec) as [|n' l IH]; simpl; [constructor|]. apply NoDup_cons in Hnd as [Hn Hnd].
    destruct (mjoin (compose.Projections spec !! n')); simpl; [|by apply IH]. constructor; [|by apply IH].
    intros ([? ?] & -> & Hin)%list_elem_of_fmap. apply list_elem_of_omap in Hin as (n2 & Hn2 & Heq). destruct (mjoin _); simplify_eq/=. done.
Qed.

Lemma entityFamilies_bit i : (i < 3)%N -> N.testbit (app.entityFamilies (compose.Families spec)) i = N.testbit (compose.Families spec) i.
Proof.
  intros Hi. unfold app.entityFamilies, compose.EventSourced, compose.DurableState, compose.Saga.
  pose proof (land_bit (compose.Families spec) 0) as H0. pose proof (land_bit (compose.Families spec) 1) as H1. pose proof (land_bit (compose.Families spec) 2) as H2.
  change (2 ^ 0)%N with 1%N in H0. change (2 ^ 1)%N with 2%N in H1. change (2 ^ 2)%N with 4%N in H2.
  assert (forall m j, (N.land (compose.Families spec) m = 0%N <-> N.testbit (compose.Families spec) j = false) ->
    negb (N.land (compose.Families spec) m =? 0)%N = N.testbit (compose.Families spec) j) as Hb.
  { intros m j H. destruct (N.eqb_spec (N.land (compose.Families spec) m) 0) as [E|E]; simpl; [symmetry; by apply H|].
    destruct (N.testbit (compose.Families spec) j); [done|]. exfalso. by apply E, H. }
  rewrite (Hb _ _ H0), (Hb _ _ H1), (Hb _ _ H2).
  assert (i = 0 \/ i = 1 \/ i = 2)%N as [-> |[-> | ->]] by lia; destruct (N.testbit _ 0), (N.testbit _ 1), (N.testbit _ 2); done.
Qed.

Lemma NewConfig_kinds store ns opts k : k ∈ behaviorKinds (NewConfig store ns opts) -> exists l, WithBehaviorKinds l ∈ opts /\ k ∈ l.
Proof.
  induction opts as [|x opts IH] using rev_ind; [by intros []%not_elem_of_nil|]. rewrite NewConfig_snoc. setoid_rewrite elem_of_app.
  assert (k ∈ behaviorKinds (NewConfig store ns opts) -> exists l, (WithBehaviorKinds l ∈ opts \/ WithBehaviorKinds l ∈ [x]) /\ k ∈ l) as Hold.
  { intros (l & ? & ?)%IH. eauto. }
  destruct x as [| | | |n' [x'|]| | | |ks| |[]| |[]]; simpl; try exact Hold. intros [Hk|Hk]%elem_of_app; [by apply Hold|].
  exists ks. split; [right; left|done].
Qed.

Lemma spec_kinds k : k ∈ behaviorKinds c -> k ∈ kinds o.
Proof.
  intros (l & Hl & Hk)%NewConfig_kinds. unfold engineOptions in Hl. rewrite !elem_of_app, !elem_option_of, !list_elem_of_singleton, list_elem_of_fmap in Hl.
  destruct (compose.TenantResolver spec) as [[v r]|]; rewrite ?list_elem_of_singleton, ?elem_of_nil in Hl;
    repeat match goal with H : _ \/ _ |- _ => destruct H | H : _ /\ _ |- _ => destruct H | H : exists _, _ |- _ => destruct H end; simplify_eq; done.
Qed.

Lemma find_none {A} (f : A -> bool) (l : list A) : (forall x, x ∈ l -> f x = false) -> List.find f l = None.
Proof.
  induction l as [|x l IH]; intros H; simpl; [done|]. rewrite (H x) by left. apply IH. intros y Hy. apply H. by right.
Qed.

(** An accepted specification, on a running actor system that was built from
    it: the engine can be made of it (the checks of [NewEngine] hold; what is
    left is what the library answers when kinds are registered), it resolves
    tenants as the specification says, it knows exactly the projections the
    App will start, and, when a known family is declared, it spawns exactly
    the declared families. *)
Theorem accepted_spec_fits_engine {msg Sys} {ASys : goakt.ActorSystem msg Sys} (s : Sys) :
  valid_spec spec -> goakt.Running s = true -> built_with (goakt.GetExtension s) (actorOpts o spec) ->
  (forall k, k ∈ kinds o -> bad_kind k = false) ->
  ((NewEngine (Some s) (Some c)).1 = Ok c \/ exists err, (NewEngine (Some s) (Some c)).1 = Err (ErrInject err)) /\
  engine.tenantResolver (engine.of_config c) = snd <$> compose.TenantResolver spec /\
  (forall n, is_Some (projections c !! n) <-> is_Some (compose.Projections spec !! n)) /\
  (N.land (compose.Families spec) 7 <> 0%N -> forall i, (i < 3)%N ->
    engine.requireFamily (engine.of_config c) (2 ^ i) = None <-> N.testbit (compose.Families spec) i = true).
Proof.
  intros Hv Hrun Hbuilt Hkinds.
  destruct (NewConfig_resolver (set (compose.EventsStore spec)) 0 copts) as [Hr Hn]. rewrite spec_resolvers in Hr, Hn. fold c in Hr, Hn.
  assert (tenantResolver c = snd <$> compose.TenantResolver spec /\ (tenantResolverCount c <= 1)%Z /\ ((0 < tenantResolverCount c)%Z -> tenantResolver c <> None)) as (Hr' & Hn' & Hn'').
  { rewrite Hr, Hn. pose proof (v58_resolver _ Hv) as H8. destruct (compose.TenantResolver spec) as [[v r]|]; simpl; [|by split_and!; [|lia..]].
    destruct (H8 v r eq_refl) as [-> _]. simpl. by split_and!; [|lia|]. }
  split_and!.
  - unfold NewEngine. rewrite Hrun. simpl. destruct (Z.ltb_spec 1 (tenantResolverCount c)); [lia|]. simpl.
    assert ((0 <? tenantResolverCount c)%Z && match tenantResolver c with Some _ => false | None => true end = false) as ->.
    { destruct (Z.ltb_spec 0 (tenantResolverCount c)) as [Hlt|]; [|done]. specialize (Hn'' Hlt). by destruct (tenantResolver c). }
    assert (validateActorSystemExtensions (goakt.GetExtension s) c = []) as ->.
    { unfold validateActorSystemExtensions. destruct (filter _ (checks c)) as [|[id b] l] eqn:Hf; [done|]. exfalso.
      assert ((id, b) ∈ (id, b) :: l) as Hin by left. rewrite <- Hf in Hin. apply list_elem_of_filter in Hin as [[Hb Hnone] Hin]. simpl in *. subst b.
      apply registered_required in Hin as (x & Hx & Hid). assert (goakt.GetExtension s id <> None) as Hsome; [|by apply Hsome].
      apply Hbuilt. exists x. split; [|done]. unfold actorOpts. rewrite exts_app. apply elem_of_app. by left. }
    rewrite (find_none bad_kind) by (intros k Hk; by apply Hkinds, spec_kinds).
    destruct (goakt.Inject s _) as [[[]|err] s']; simpl; eauto.
  - exact Hr'.
  - intros n. split.
    + intros [x (p & Hp & _)%spec_projections]. by eexists.
    + intros [p Hp]. destruct (v4_handlers _ Hv _ _ Hp) as (opts & h & -> & _). exists (compose.options opts). apply spec_projections. eauto.
  - intros Hknown i Hi. unfold engineConfig. rewrite family_guard_exact by done. rewrite spec_families.
    setoid_rewrite list_elem_of_singleton. split.
    + intros [(f & -> & Hf)|Hnone]; [by rewrite entityFamilies_bit in Hf|]. exfalso. apply Hknown. apply N.bits_inj_0. intros j.
      rewrite N.land_spec. destruct (N.ltb_spec j 3) as [Hj|Hj].
      * rewrite <- entityFamilies_bit, (Hnone _ j eq_refl Hj) by done. done.
      * change 7%N with (N.ones 3). by rewrite N.ones_spec_high, andb_false_r.
    + intros Hbit. left. eexists. split; [done|]. by rewrite entityFamilies_bit.
Qed.
End Fit.
End app_engine_spec.
