(* ===== verification/ComposeExamples.v ===== *)
(** * Deployments at work

    A small actor library, and deployments whose publishers fail at different
    moments: the theorems about the composition root at those inputs, and a
    declaration of families the validation accepts and the engine ignores. *)

From S2P Require Import Prelude GoStrings Tenancy ActorSystem EventStore Queue QueueSpec Stream EngineConfig Engine EngineConfigSpec Lifecycle LifecycleSpec.
From S2P Require Import Compose ComposeSpec ComposeApp ComposeAppSpec ComposeEngineSpec.
From Stdlib Require Import ZArith Lia.
Open Scope string_scope.
Open Scope list_scope.

Module app_examples.
Import app app_spec compose_spec extensions.

(** ** An actor library: what is registered, and what runs *)
Record node := mkNode { running : bool; registry : list Extension; actors : list string }.

#[local] Instance node_system : goakt.ActorSystem unit node := {|
  goakt.Running := running;
  goakt.InCluster := fun _ => false;
  goakt.GetExtension := fun s id => List.find (fun x => bool_decide (ID x = id)) (registry s);
  goakt.Inject := fun s _ => (Ok tt, s);
  goakt.Spawn := fun s _ n _ _ => (Ok n, mkNode (running s) (registry s) (n :: actors s));
  goakt.SpawnOn := fun s _ n _ _ => (Ok n, mkNode (running s) (registry s) (n :: actors s));
  goakt.SpawnSingleton := fun s _ n _ _ => (Ok n, mkNode (running s) (registry s) (n :: actors s));
  goakt.ActorOf := fun _ _ n => Ok n;
  goakt.ActorExists := fun s _ n => Ok (bool_decide (n ∈ actors s));
  goakt.IsRunning := fun s n => bool_decide (n ∈ actors s);
  goakt.Kill := fun s _ n => (Ok tt, mkNode (running s) (registry s) (filter (fun m => m <> n) (actors s)));
  goakt.Ask := fun s _ _ _ _ => (Ok goakt.ROther, s);
  goakt.SendSync := fun s _ _ _ _ => (Ok goakt.ROther, s)
|}.

(** The environment: the id of a publisher that panics when it is probed, and
    one whose [Close] fails; time stands still. *)
Record demo_env := mkEnv { dead : string; sticky : string }.

#[local] Instance demo_environment : Environment node demo_env := {|
  clock := fun _ => 0%Z;
  NewActorSystem := fun _ opts e => (Ret (Ok (mkNode false (engine_config_spec.exts opts) [])), e);
  StartSystem := fun s _ e => (Ret None, mkNode true (registry s) (actors s), e);
  StopSystem := fun s _ e => (Ret None, mkNode false (registry s) [], e);
  PingStore := fun _ _ e => (Ret None, e);
  StartPublisher := fun _ _ e => (Ret None, e);
  PingPublisher := fun o _ e => (if bool_decide (adapters.ID o = dead e) then Panicked else Ret None, e);
  ClosePublisher := fun _ id _ e => (Ret (if bool_decide (id = sticky e) then Err "already gone" else Ok tt), e);
  NewID := fun _ id _ => "subscriber of " +:+ id
|}.

Abbreviation unit_queue := (queue.Queue (V := eventstream.Message unit)).
#[local] Instance unit_fifo : Fifo unit_queue (eventstream.Message unit) := queue_fifo (fun _ => None).

Definition store : adapter.value := adapter.mkValue false None false true.
Definition kafka : adapter.value :=
  adapter.mkValue false (Some (adapter.mkDescriptor [compose.PortEventPublisher; compose.PortStatePublisher] "kafka" [adapter.CapReady])) false true.

Definition orders_options : Options := mkOptions "orders" 100 engine.ZeroTime engine.ZeroTime 1000 None None.
Definition orders_projection : compose.ProjectionOptions := compose.mkProjectionOptions (Some (adapter.mkValue false None false false)) orders_options.

Definition orders_spec : compose.Spec :=
  compose.mkSpec "Orders" 5 (Some store) None None (Some store) {[ "orders" := Some orders_projection ]} [] None
    None [Some (kafka, "orders"); Some (kafka, "audit")] [Some (kafka, "orders")] 0.

Definition no_table (z : Z) : bool := false.
Definition duration_text (d : Z) : string := "".
Abbreviation New0 := (New (Q := unit_queue) no_table duration_text map_to_list elements []).

Definition orders_app (e : demo_env) : App node demo_env unit_queue :=
  mkApp (lifecycle.mkSequence lifecycle.StateNew (steps no_table map_to_list elements [] (resolve []) orders_spec)
    (Some (releasePublishers orders_spec)) lifecycle.DefaultShutdownTimeout 0) (fresh e) false.

Lemma orders_accepted e : New0 orders_spec [] e = Ok (orders_app e).
Proof. reflexivity. Qed.

Abbreviation bg := tenancy.Background.
Definition a_life : list lifecycle.call := [lifecycle.CallStart bg; lifecycle.CallStop bg; lifecycle.CallStart bg; lifecycle.CallStop bg].

(** A life without incidents, and one whose second publisher panics when it
    is probed. *)
Definition healthy := run a_life (orders_app (mkEnv "" "orders")).
Definition broken := run a_life (orders_app (mkEnv "audit" "")).

Lemma demo_stops : stop_returns node demo_env.
Proof. discriminate. Qed.

Lemma demo_closes : close_returns node demo_env.
Proof. discriminate. Qed.

Lemma app_releases_publishers_witness :
  closes (trace (world healthy)) ≡ₚ [(true, "orders"); (true, "audit"); (false, "orders")] /\
  closes (trace (world broken)) ≡ₚ [(true, "orders"); (true, "audit"); (false, "orders")] /\ Engine broken = None.
Proof.
  pose proof (app_releases_publishers no_table duration_text map_to_list elements [] orders_spec [] (mkEnv "" "orders") (orders_app (mkEnv "" "orders"))
    a_life (fun _ => reflexivity _) demo_stops demo_closes (orders_accepted _)) as H1.
  pose proof (app_releases_publishers no_table duration_text map_to_list elements [] orders_spec [] (mkEnv "audit" "") (orders_app (mkEnv "audit" ""))
    a_life (fun _ => reflexivity _) demo_stops demo_closes (orders_accepted _)) as H2.
  split; [|split].
  - assert (lifecycle.state (seq (run a_life (orders_app (mkEnv "" "orders")))) = lifecycle.StateStopped) as Hs by (vm_compute; reflexivity).
    cbv zeta in H1. rewrite Hs in H1. apply (en_closes _ _ H1).
  - assert (lifecycle.state (seq (run a_life (orders_app (mkEnv "audit" "")))) = lifecycle.StateFailed) as Hs by (vm_compute; reflexivity).
    cbv zeta in H2. rewrite Hs in H2. apply (en_closes _ _ (proj1 H2)).
  - assert (lifecycle.state (seq (run a_life (orders_app (mkEnv "audit" "")))) = lifecycle.StateFailed) as Hs by (vm_compute; reflexivity).
    cbv zeta in H2. rewrite Hs in H2. apply H2.
Defined.

(** ** A [Close] that panics

    The same environment, except that closing the publisher [sticky] panics. *)
Definition fragile : Environment node demo_env := {|
  clock := fun _ => 0%Z;
  NewActorSystem := fun _ opts e => (Ret (Ok (mkNode false (engine_config_spec.exts opts) [])), e);
  StartSystem := fun s _ e => (Ret None, mkNode true (registry s) (actors s), e);
  StopSystem := fun s _ e => (Ret None, mkNode false (registry s) [], e);
  PingStore := fun _ _ e => (Ret None, e);
  StartPublisher := fun _ _ e => (Ret None, e);
  PingPublisher := fun _ _ e => (Ret None, e);
  ClosePublisher := fun _ id _ e => (if bool_decide (id = sticky e) then Panicked else Ret (Ok tt), e);
  NewID := fun _ id _ => "subscriber of " +:+ id
|}.

(** [Stop] has no counterpart to the deferred clean-up of [Start]: on an App
    that was never started, a publisher that panics when it is closed leaves
    the sequence stopping; the next [Stop] takes that for a sequence without
    started steps, releases nothing, reports success and ends stopped, with
    the last publisher never closed. *)
Theorem panicking_close_leaks_publishers : exists a,
  New (ENV := fragile) (Q := unit_queue) no_table duration_text map_to_list elements [] orders_spec [] (mkEnv "" "audit") = Ok a /\
  let '(r1, a1) := Stop (ENV := fragile) bg a in
  let '(r2, a2) := Stop (ENV := fragile) bg a1 in
  r1 = Panicked /\ lifecycle.state (seq a1) = lifecycle.StateStopping /\
  r2 = Ret [] /\ lifecycle.state (seq a2) = lifecycle.StateStopped /\
  closes (trace (world a2)) = [(true, "orders"); (true, "audit")].
Proof. eexists. split; [reflexivity|]. vm_compute. by split_and!. Qed.

(** ** The sequencer: three steps, the last of which fails *)
Section Sequencer.
Import lifecycle lifecycle_spec.

Definition count (d : Z) : action Z string := fun _ w => (Ret None, (w + d)%Z).
Definition refuse : action Z string := fun _ w => (Ret (Some "no"), w).
Definition three : Sequence Z string :=
  mkSequence StateNew [mkStep "one" (Some (count 1)) (Some (count (-1))); mkStep "two" (Some (count 10)) None; mkStep "three" (Some refuse) (Some (count 5))]
    (Some (count 1000)) 30 0.

Lemma undone_exactly_once_witness : exists log,
  run (tnow (fun _ => 0%Z)) [CallStart bg; CallStop bg] (traced three) (0%Z, []) = (traced (setState three StateFailed), (1010%Z, log)) /\
  history three StateFailed log /\ log = [EvStart 0; EvStart 1; EvStart 2; EvStop 0; EvRelease].
Proof.
  destruct (undone_exactly_once (fun _ => 0%Z) three) with (calls := [CallStart bg; CallStop bg]) (w := 0%Z) (s' := setState three StateFailed) (w' := 1010%Z)
    as (log & Hrun & Hh).
  - intros i st stop ctx w Hi Hs. destruct i as [|[|[|]]]; [| | |done]; injection Hi as <-; try discriminate Hs; injection Hs as <-; discriminate.
  - intros f ctx w [= <-]. discriminate.
  - done.
  - done.
  - reflexivity.
  - exists log. split; [exact Hrun|]. split; [exact Hh|]. apply (f_equal (fun x => x.2.2)) in Hrun. symmetry. exact Hrun.
Defined.
End Sequencer.

(** ** Families *)

Definition orders_config : engine_config.Config := engineConfig (resolve []) orders_spec.
Definition orders_node : node := mkNode true (engine_config_spec.exts (actorOpts (resolve []) orders_spec)) [].

Lemma orders_node_built : engine_config_spec.built_with (goakt.GetExtension orders_node) (actorOpts (resolve []) orders_spec).
Proof.
  intros id. unfold goakt.GetExtension. simpl goakt.GetExtension. cbn [node_system]. change (registry orders_node) with (engine_config_spec.exts (actorOpts (resolve []) orders_spec)).
  generalize (engine_config_spec.exts (actorOpts (resolve []) orders_spec)) as l. induction l as [|x l IH]; simpl.
  - split; [done|by intros (? & []%not_elem_of_nil & _)].
  - case_bool_decide as Hx; [split; [intros _; exists x; split; [left|done]|done]|]. rewrite IH. split.
    + intros (y & Hy & Hid). exists y. split; [by right|done].
    + intros (y & [->|Hy]%elem_of_cons & Hid); [done|]. eauto.
Qed.

Lemma orders_valid : valid_spec orders_spec.
Proof. apply (validate_exact no_table duration_text). vm_compute. reflexivity. Qed.

Lemma accepted_spec_fits_engine_witness :
  engine.requireFamily (engine.of_config orders_config) 1 = None /\ engine.requireFamily (engine.of_config orders_config) 2 <> None /\
  is_Some (engine_config.projections orders_config !! "orders").
Proof.
  destruct (app_engine_spec.accepted_spec_fits_engine (ASys := node_system) (resolve []) orders_spec orders_node orders_valid eq_refl orders_node_built)
    as (_ & _ & Hp & Hf); [by intros k []%not_elem_of_nil|].
  specialize (Hf ltac:(discriminate)). split_and!.
  - apply (Hf 0%N); [lia|reflexivity].
  - intros H2. apply (Hf 1%N) in H2; [discriminate|lia].
  - apply Hp. exists (Some orders_projection). reflexivity.
Defined.

(** A deployment that declares an unknown family bit and nothing else is
    accepted without any store, and the engine built for it admits spawns of
    every family: the declaration is dropped, and none declared means no
    guard. *)
Definition odd_spec : compose.Spec := compose.mkSpec "Odd" 8 None None None None ∅ [] None None [] [] 0.

Theorem unknown_family_unguarded : valid_spec odd_spec /\
  forall i, (i < 3)%N -> engine.requireFamily (engine.of_config (engineConfig (resolve []) odd_spec)) (2 ^ i) = None.
Proof.
  split; [apply (validate_exact no_table duration_text); vm_compute; reflexivity|].
  intros i Hi. assert (i = 0 \/ i = 1 \/ i = 2)%N as [-> |[-> | ->]] by lia; reflexivity.
Qed.
End app_examples.
