(* ===== verification/ActorExamples.v ===== *)
(** * A projection and a saga, started

    The actor that hosts the projection of [ComposeExamples.v], on the actor
    system built for it; a projection the validation accepts and whose actor
    panics as it starts; and a saga fed by a stream. *)

From S2P Require Import Prelude GoStrings Tenancy Persistence Egopb StoreApi EventStore StateStores EventSourced Projection ProjectionSpec ProjectionExamples.
From S2P Require Import Command Protocol Saga SagaSpec SagaExamples Queue QueueSpec Stream StreamSpec ActorSystem EngineConfig Engine EngineConfigSpec SagaPump ProjectionActor.
From S2P Require Import Lifecycle Compose ComposeSpec ComposeApp ComposeExamples.
From Stdlib Require Import ZArith Lia.
Open Scope string_scope.
Open Scope list_scope.

Module actor_examples.
Import egopb extensions projection_examples app_examples.

(** ** The projection *)

(** The actor system of a configuration, as [ComposeExamples.v] builds it. *)
Definition lookup_in (l : list Extension) (id : string) : option Extension := List.find (fun x => bool_decide (ID x = id)) l.

Lemma serves_config c : projection_actor.serves c (lookup_in (engine_config_spec.exts (engine_config.GoaktOptions c))).
Proof.
  split.
  - intros id. unfold lookup_in. rewrite <- not_eq_None_Some || idtac. split.
    + intros Hf. destruct (List.find _ _) as [x|] eqn:Hx; [|done]. apply List.find_some in Hx as [Hin Hid]. exists x.
      split; [by apply list_elem_of_In|by apply bool_decide_eq_true in Hid].
    + intros (x & Hin & Hid) Hn. eapply List.find_none in Hn; [|by apply list_elem_of_In]. by rewrite bool_decide_true in Hn.
  - intros id x Hx. apply List.find_some in Hx as [Hin Hid]. split; [by apply list_elem_of_In|by apply bool_decide_eq_true in Hid].
Qed.

Abbreviation no_adapter := (fun (_ : string) (_ : option Any) (_ : N) => Err (E := string) (A := option Any) "none").
Definition plain : eventsource.Encryptor := eventsource.mkEncryptor (fun _ _ s => Ok (s, "")) (fun _ _ s _ => Ok s).
Definition no_codec (s : string) : result string Any := Err "no wire format".
Abbreviation PreStart0 := (projection_actor.PreStart (J := slog) (O := offsetstore.OffsetStore) (H := script) no_adapter plain j0 o0 (fun _ => silent) no_codec "stack" (fun _ => Ok tt) (fun _ => false)).
Abbreviation fresh := (projection_actor.New (J := slog) (O := offsetstore.OffsetStore) (H := script)).

Lemma registered_projection_starts_witness : exists a cfg x,
  PreStart0 (lookup_in (engine_config_spec.exts (engine_config.GoaktOptions orders_config))) "orders" fresh = Some (Ok tt, a) /\
  projection_actor.runner a = Some (cfg, x) /\ projection.running x = true /\ projection.name cfg = "orders" /\ projection.maxBufferSize cfg = 100%Z.
Proof.
  destruct (projection_actor.registered_projection_starts (J := slog) (O := offsetstore.OffsetStore) (H := script) no_adapter plain j0 o0 (fun _ => silent) no_codec "stack"
    (fun _ => Ok tt) (fun _ => false) orders_config (lookup_in (engine_config_spec.exts (engine_config.GoaktOptions orders_config))) "orders" orders_options fresh)
    as (cfg & Hn & Hb & _ & _ & _ & _ & _ & _ & _ & Hok).
  - apply serves_config.
  - reflexivity.
  - reflexivity.
  - vm_compute. reflexivity.
  - destruct (Hok eq_refl eq_refl) as (a & x & Hp & Hr & Hx). exists a, cfg, x. split_and!; done.
Defined.

(** The same deployment with the pull interval left at its zero value: the
    composition root accepts it, and the actor panics as it starts. *)
Definition idle_options : Options := mkOptions "orders" 100 engine.ZeroTime engine.ZeroTime 0 None None.
Definition idle_spec : compose.Spec :=
  compose.mkSpec "Orders" 5 (Some store) None None (Some store)
    {[ "orders" := Some (compose.mkProjectionOptions (Some (adapter.mkValue false None false false)) idle_options) ]} [] None None [] [] 0.

Theorem unset_pull_interval_panics : compose_spec.valid_spec idle_spec /\
  PreStart0 (lookup_in (engine_config_spec.exts (engine_config.GoaktOptions (app.engineConfig (app.resolve []) idle_spec)))) "orders" fresh = None.
Proof. split; [apply (compose_spec.validate_exact no_table duration_text); vm_compute; reflexivity|vm_compute; reflexivity]. Qed.
End actor_examples.
