(* ===== verification/Postgres.v ===== *)
(** * The PostgreSQL stores

    [postgres]: the events store and the offset store of
    [src/persistence/postgres] over the tables of its schema. A transaction is
    a program of SQL statements ([tx]), as the code issues them; this file
    gives the statements' meaning on the tables and runs a transaction alone,
    [PostgresConcurrent.v] interleaves many.

    The protobuf codec of a payload and the JSON codec of the metadata column,
    the collation of the database and the order in which a table is scanned
    are parameters. The database may refuse any statement ([faults]). *)

From S2P Require Import Prelude GoStrings Tenancy Persistence Egopb StoreApi EventStore.
From Stdlib Require Import ZArith Lia.
Open Scope string_scope.
Open Scope list_scope.
Open Scope urd_scope.

Module postgres.
Import persistence egopb.

(** ** Tables *)
Section Tables.
Context {J : Type}.

(** [(tenant_id, persistence_id)], and the primary key of an event. *)
Abbreviation record := (string * string)%type.
Abbreviation key := (record * N)%type.

Record row := mkRow {
  is_deleted : bool;
  event_payload : string;
  event_manifest : string;
  timestamp : Z;
  shard_number : N;
  encryption_key_id : string;
  is_encrypted : bool;
  tenant_metadata : option J
}.

Record tables := mkTables { events_store : gmap key row; events_store_revisions : gmap record N }.
Definition empty_tables : tables := mkTables ∅ ∅.

Definition scopeKey (sc : Scope) : result store_error string :=
  if negb (Valid sc) then Err ErrInvalidScope
  else if IsUnscoped sc then Ok "" else Ok (TenantID sc).

(** ** Statements

    A [bigint] argument above 2^63-1 is refused before the statement runs. *)
Inductive stmt :=
| SelectRevisionForUpdate (r : record)
| ClaimRevision (r : record)
| RaiseRevision (r : record) (n : N)
| SetRevision (r : record) (n : N)
| InsertEvent (k : key) (v : row) (ignoreDuplicate : bool)
| DeleteUpTo (r : record) (n : N).

Inductive answer := NoRows | OneRow (n : N) | Affected (n : nat).

(** What a statement changes. *)
Inductive write := WEvent (k : key) (v : option row) | WRevision (r : record) (n : N).

Definition apply1 (t : tables) (w : write) : tables :=
  match w with
  | WEvent k v => mkTables (partial_alter (fun _ => v) k (events_store t)) (events_store_revisions t)
  | WRevision r n => mkTables (events_store t) (<[r := n]> (events_store_revisions t))
  end.
Definition apply_writes (ws : list write) (t : tables) : tables := foldl apply1 t ws.

Definition bigint (n : N) : bool := (n <=? api.max_int)%N.
Definition out_of_range : string := "value is greater than maximum value for int8".
Definition duplicate_key : string := "duplicate key value violates unique constraint".

Definition exec (s : stmt) (t : tables) : result string (answer * list write) :=
  match s with
  | SelectRevisionForUpdate r =>
    Ok (match events_store_revisions t !! r with Some n => OneRow n | None => NoRows end, [])
  | ClaimRevision r =>
    Ok (match events_store_revisions t !! r with Some _ => (Affected 0, []) | None => (Affected 1, [WRevision r 0]) end)
  | RaiseRevision r n =>
    if bigint n
    then Ok (Affected 1, [WRevision r (match events_store_revisions t !! r with Some m => N.max m n | None => n end)])
    else Err out_of_range
  | SetRevision r n =>
    if bigint n
    then Ok (match events_store_revisions t !! r with Some _ => (Affected 1, [WRevision r n]) | None => (Affected 0, []) end)
    else Err out_of_range
  | InsertEvent k v ignoreDuplicate =>
    if bigint k.2 && bigint (shard_number v) then
      match events_store t !! k with
      | None => Ok (Affected 1, [WEvent k (Some v)])
      | Some _ => if ignoreDuplicate then Ok (Affected 0, []) else Err duplicate_key
      end
    else Err out_of_range
  | DeleteUpTo r n =>
    if bigint n then
      let found := map_to_list (filter (fun kv => kv.1.1 = r /\ (kv.1.2 <= n)%N) (events_store t)) in
      Ok (Affected (length found), (fun kv => WEvent kv.1 None) <$> found)
    else Err out_of_range
  end.
End Tables.
Arguments row : clear implicits.
Arguments tables : clear implicits.
Arguments stmt : clear implicits.
Arguments write : clear implicits.
Abbreviation record := (string * string)%type.
Abbreviation key := (record * N)%type.

(** ** Transactions *)
Inductive tx (J A : Type) :=
| Ret (a : A)
| Fail (e : store_error)
| Exec (s : stmt J) (k : result string answer -> tx J A).
Arguments Ret {J A} a.
Arguments Fail {J A} e.
Arguments Exec {J A} s k.

Fixpoint tbind {J A B} (f : A -> tx J B) (m : tx J A) : tx J B :=
  match m with
  | Ret a => f a
  | Fail e => Fail e
  | Exec s k => Exec s (fun r => tbind f (k r))
  end.
#[export] Instance tx_bind {J} : MBind (tx J) := fun A B f m => tbind f m.

(** A statement whose error is returned under a heading. *)
Definition statement {J} (s : stmt J) (heading : string) : tx J answer :=
  Exec s (fun r => match r with Ok a => Ret a | Err m => Fail (EStore (heading +:+ m)) end).

Fixpoint for_each {J B} (f : B -> tx J unit) (l : list B) : tx J unit :=
  match l with [] => Ret tt | b :: l => f b ≫= fun _ => for_each f l end.

(** A transaction alone: [faults] says of each statement whether the database
    refuses it. *)
Definition next_fault (faults : list (option string)) : option string * list (option string) :=
  match faults with [] => (None, []) | f :: faults => (f, faults) end.

Fixpoint run_tx {J A} (m : tx J A) (faults : list (option string)) (t : tables J) : result store_error (A * tables J) * list (option string) :=
  match m with
  | Ret a => (Ok (a, t), faults)
  | Fail e => (Err e, faults)
  | Exec s k =>
    let '(f, faults) := next_fault faults in
    match (match f with Some m => Err m | None => exec s t end) with
    | Ok (a, ws) => run_tx (k (Ok a)) faults (apply_writes ws t)
    | Err m => run_tx (k (Err m)) faults t
    end
  end.

(** [Begin], the body, [Commit]; the deferred [Rollback] undoes everything on
    any error. *)
Definition transact {J} (m : tx J unit) (faults : list (option string)) (t : tables J) : result store_error unit * tables J :=
  let '(f, faults) := next_fault faults in
  match f with
  | Some e => (Err (EStore ("begin tx: " +:+ e)), t)
  | None =>
    match run_tx m faults t with
    | (Err e, _) => (Err e, t)
    | (Ok (_, t'), faults) =>
      match (next_fault faults).1 with
      | Some e => (Err (EStore e), t)
      | None => (Ok tt, t')
      end
    end
  end.

Section Store.
Context {J : Type}.
Context (marshal : option Any -> result string string) (unmarshal : string -> result string Any).
Context (marshalMetadata : gmap string string -> result string J) (unmarshalMetadata : J -> result string (gmap string string)).

(** ** Writing *)
Definition metadata_column (m : gmap string string) : result string (option J) :=
  if bool_decide (m = ∅) then Ok None
  else match marshalMetadata m with Ok j => Ok (Some j) | Err e => Err e end.

Definition encode (e : Event) : result store_error (row J) :=
  let? payload := rmap_err (fun m => EStore ("marshal event: " +:+ m)) (marshal (EventAny e)) in
  let? metadata := rmap_err (fun m => EStore ("marshal tenant metadata: " +:+ m)) (metadata_column (TenantMetadata e)) in
  Ok (mkRow (IsDeleted e) payload (match EventAny e with Some a => TypeUrl a | None => "" end) (Timestamp e) (Shard e)
    (EncryptionKeyId e) (IsEncrypted e) metadata).

Definition event_key (tenantID : string) (e : Event) : key := ((tenantID, PersistenceId e), SequenceNumber e).

Definition insertEvent (ignoreDuplicate : bool) (tenantID : string) (e : Event) : tx J unit :=
  match encode e with
  | Err err => Fail err
  | Ok v => statement (InsertEvent (event_key tenantID e) v ignoreDuplicate) "insert event: " ≫= fun _ => Ret tt
  end.

Definition raise_highest (m : gmap string N) (e : Event) : gmap string N :=
  match m !! PersistenceId e with
  | Some seq => if (seq <? SequenceNumber e)%N then <[PersistenceId e := SequenceNumber e]> m else m
  | None => <[PersistenceId e := SequenceNumber e]> m
  end.
Definition highest (evs : list Event) : gmap string N := foldl raise_highest ∅ evs.

Definition raiseRevision (tenantID : string) (m : gmap string N) (pid : string) : tx J unit :=
  statement (RaiseRevision (tenantID, pid) (default 0%N (m !! pid))) "advance revision: " ≫= fun _ => Ret tt.

Definition sorted_ids (m : gmap string N) : list string := testkit.sort_strings (map_to_list m).*1.

Definition writeUnconditional (tenantID : string) (evs : list Event) : tx J unit :=
  for_each (raiseRevision tenantID (highest evs)) (sorted_ids (highest evs)) ≫= fun _ =>
  for_each (insertEvent true tenantID) evs.

(** The loop ends when the row was read or the placeholder inserted; [rounds]
    is how often it is tried before the transaction is given up. *)
Fixpoint lockRevision (rounds : nat) (r : record) : tx J (N * bool) :=
  match rounds with
  | O => Fail (EStore "lock revision: given up")
  | S rounds =>
    statement (SelectRevisionForUpdate r) "lock revision: " ≫= fun found =>
    match found with
    | OneRow revision => Ret (revision, true)
    | _ =>
      statement (ClaimRevision r) "claim revision: " ≫= fun tag =>
      match tag with Affected 1 => Ret (0%N, false) | _ => lockRevision rounds r end
    end
  end.

Definition check (sc : Scope) (pid : string) (p : WritePrecondition) (revision : N) (exists_ : bool) : option ConflictError :=
  if IsGenesis p then
    if exists_ then Some (NewConflictError sc pid p [WithActualRevision revision]) else None
  else
    let '(expectedRevision, _) := Revision p in
    if negb exists_ then Some (NewConflictError sc pid p [])
    else if negb (revision =? expectedRevision)%N then Some (NewConflictError sc pid p [WithActualRevision revision]) else None.

Definition max_sequence (revision : N) (evs : list Event) : N := foldl (fun h e => N.max h (SequenceNumber e)) revision evs.

(** What follows the lock. *)
Definition checkedWrite (sc : Scope) (tenantID pid : string) (evs : list Event) (p : WritePrecondition) (locked : N * bool) : tx J unit :=
  match check sc pid p locked.1 locked.2 with
  | Some conflict => Fail (EConflict conflict)
  | None =>
    for_each (insertEvent false tenantID) evs ≫= fun _ =>
    statement (SetRevision (tenantID, pid) (max_sequence locked.1 evs)) "advance revision: " ≫= fun _ => Ret tt
  end.

Definition writeConditional (rounds : nat) (sc : Scope) (tenantID pid : string) (evs : list Event) (p : WritePrecondition) : tx J unit :=
  lockRevision rounds (tenantID, pid) ≫= checkedWrite sc tenantID pid evs p.

Definition lockRevisionIfExists (r : record) : tx J bool :=
  statement (SelectRevisionForUpdate r) "lock revision: " ≫= fun found =>
  Ret (match found with OneRow _ => true | _ => false end).

Definition deleteEvents (r : record) (toSequenceNumber : N) : tx J unit :=
  lockRevisionIfExists r ≫= fun _ =>
  statement (DeleteUpTo r toSequenceNumber) "delete events: " ≫= fun _ => Ret tt.

(** A call that changes the store: what it validates first, then the
    transaction it runs, if any. *)
Inductive request := RWrite (sc : Scope) (evs : list Event) (p : WritePrecondition) | RDelete (sc : Scope) (pid : string) (toSequenceNumber : N).

Definition program (rounds : nat) (q : request) : result store_error (option (tx J unit)) :=
  match q with
  | RWrite sc evs p =>
    let? tenantID := scopeKey sc in
    if negb (PreconditionValid p) then Err ErrInvalidPrecondition
    else if IsUnconditional p then
      Ok (match evs with [] => None | _ => Some (writeUnconditional tenantID evs) end)
    else
      match evs with
      | [] => Err ErrPreconditionScope
      | e :: rest =>
        if existsb (fun e' => negb (bool_decide (PersistenceId e' = PersistenceId e))) rest then Err ErrPreconditionScope
        else Ok (Some (writeConditional rounds sc tenantID (PersistenceId e) evs p))
      end
  | RDelete sc pid to =>
    let? tenantID := scopeKey sc in
    Ok (Some (deleteEvents (tenantID, pid) to))
  end.

Definition perform (q : request) (faults : list (option string)) (t : tables J) : result store_error unit * tables J :=
  match program 1 q with
  | Err e => (Err e, t)
  | Ok None => (Ok tt, t)
  | Ok (Some m) => transact m faults t
  end.

Definition WriteEvents (sc : Scope) (evs : list Event) (p : WritePrecondition) := perform (RWrite sc evs p).
Definition DeleteEvents (sc : Scope) (pid : string) (toSequenceNumber : N) := perform (RDelete sc pid toSequenceNumber).

(** ** Reading *)
Definition decode (k : key) (v : row J) : result string Event :=
  let? any := rmap_err (fun m => "unmarshal event payload: " +:+ m) (unmarshal (event_payload v)) in
  let? metadata := match tenant_metadata v with
    | None => Ok ∅
    | Some j => rmap_err (fun m => "unmarshal tenant metadata: " +:+ m) (unmarshalMetadata j)
    end in
  Ok (mkEvent k.1.2 k.2 (is_deleted v) (Some any) (timestamp v) (shard_number v) (encryption_key_id v) (is_encrypted v) metadata).

Definition scanEvents (rows : list (key * row J)) : result string (list Event) :=
  rfold (fun evs kv => let? e := decode kv.1 kv.2 in Ok (evs ++ [e])) [] rows.

Definition limit_rows {A} (n : N) (l : list A) : list A := if (N.of_nat (length l) <=? n)%N then l else take (N.to_nat n) l.

Definition sequence_le (a b : key * row J) : Prop := (a.1.2 <= b.1.2)%N.
#[export] Instance sequence_le_dec a b : Decision (sequence_le a b).
Proof. unfold sequence_le. apply _. Defined.
Definition sequence_ge (a b : key * row J) : Prop := (b.1.2 <= a.1.2)%N.
#[export] Instance sequence_ge_dec a b : Decision (sequence_ge a b).
Proof. unfold sequence_ge. apply _. Defined.
Definition timestamp_le (a b : key * row J) : Prop := (timestamp a.2 <= timestamp b.2)%Z.
#[export] Instance timestamp_le_dec a b : Decision (timestamp_le a b).
Proof. unfold timestamp_le. apply _. Defined.

(** The order a table is scanned in, and the order of the text type. *)
Context (scan : gmap key (row J) -> list (key * row J)) (collate : string -> string -> bool).

Definition queried {A} (fault : option string) (args : bool) (k : result store_error A) : result store_error A :=
  match fault with
  | Some m => Err (EStore m)
  | None => if args then k else Err (EStore out_of_range)
  end.

Definition as_store {A} (r : result string A) : result store_error A := rmap_err EStore r.

Definition ReplayEvents (fault : option string) (t : tables J) (sc : Scope) (pid : string) (from to limit : N) : result store_error (list Event) :=
  let? tenantID := scopeKey sc in
  queried fault (bigint from && bigint to && bigint limit)
    (as_store (scanEvents (limit_rows limit (merge_sort sequence_le
      (scan (filter (fun kv => kv.1.1 = (tenantID, pid) /\ (from <= kv.1.2 <= to)%N) (events_store t))))))).

Definition GetLatestEvent (fault : option string) (t : tables J) (sc : Scope) (pid : string) : result store_error (option Event) :=
  let? tenantID := scopeKey sc in
  queried fault true
    (let? evs := as_store (scanEvents (take 1 (merge_sort sequence_ge
       (scan (filter (fun kv => kv.1.1 = (tenantID, pid)) (events_store t)))))) in
     Ok (head evs)).

Definition text_le (a b : string) : Prop := collate b a = false.
#[export] Instance text_le_dec a b : Decision (text_le a b).
Proof. unfold text_le. apply _. Defined.

(** The ids a page is taken from: distinct, in order, after the token. *)
Definition ids_after (t : tables J) (tenantID pageToken : string) : list string :=
  merge_sort text_le
    (remove_dups ((fun kv => kv.1.1.2) <$> scan (filter (fun kv => kv.1.1.1 = tenantID /\
       (pageToken = "" \/ collate pageToken kv.1.1.2 = true)) (events_store t)))).

Definition PersistenceIDs (fault : option string) (t : tables J) (sc : Scope) (pageSize : N) (pageToken : string) : result store_error (list string * string) :=
  let? tenantID := scopeKey sc in
  if (pageSize =? 0)%N then Ok ([], "")
  else queried fault (bigint pageSize)
    (let ids := limit_rows pageSize (ids_after t tenantID pageToken) in
     Ok (ids, if (N.of_nat (length ids) =? pageSize)%N then default "" (last ids) else "")).

Definition GetShardEvents (fault : option string) (t : tables J) (shardNumber : N) (offset : Z) (limit : N) : result store_error (list Event * Z) :=
  queried fault (bigint shardNumber && bigint limit)
    (let? evs := as_store (scanEvents (limit_rows limit (merge_sort timestamp_le
       (scan (filter (fun kv => shard_number kv.2 = shardNumber /\ (offset < timestamp kv.2)%Z) (events_store t)))))) in
     Ok (match last evs with None => ([], 0%Z) | Some e => (evs, Timestamp e) end)).

Definition shard_offset (m : gmap N Z) (kv : key * row J) : gmap N Z :=
  partial_alter (fun cur => Some (match cur with Some z => Z.max z (timestamp kv.2) | None => timestamp kv.2 end)) (shard_number kv.2) m.

Definition ShardOffsets (fault : option string) (t : tables J) : result store_error (gmap N Z) :=
  queried fault true (Ok (foldl shard_offset ∅ (scan (events_store t)))).
End Store.
End postgres.
