(* ===== verification/PostgresSpec.v ===== *)
(** * The PostgreSQL events store keeps the contract of an events store

    A transaction alone: what each call does to the tables, and that the store
    then agrees with the in-memory store of [EventStore.v], call by call
    ([stores_agree]). *)

From S2P Require Import Prelude GoStrings Tenancy Persistence Egopb StoreApi EventStore Postgres.
From Stdlib Require Import ZArith Lia.
Open Scope string_scope.
Open Scope list_scope.
Open Scope urd_scope.

Module postgres_spec.
Import persistence egopb postgres.

(** ** Running a transaction alone *)
Definition eval {J A} (m : tx J A) (t : tables J) : result store_error (A * tables J) := (run_tx m [] t).1.

Lemma run_nil {J A} (m : tx J A) t : (run_tx m [] t).2 = [].
Proof. revert t. induction m as [a|e|s k IH]; intros t; [done..|]. simpl. destruct (exec s t) as [[a ws]|e]; apply IH. Qed.

Lemma eval_Exec {J A} s (k : _ -> tx J A) t :
  eval (Exec s k) t = match exec s t with Ok (a, ws) => eval (k (Ok a)) (apply_writes ws t) | Err m => eval (k (Err m)) t end.
Proof. unfold eval. simpl. by destruct (exec s t) as [[]|]. Qed.

Lemma eval_bind {J A B} (f : A -> tx J B) m t :
  eval (m ≫= f) t = match eval m t with Ok (a, t') => eval (f a) t' | Err e => Err e end.
Proof.
  revert t. induction m as [a|e|s k IH]; intros t; [done..|]. change (Exec s k ≫= f) with (Exec s (fun r => k r ≫= f)).
  rewrite !eval_Exec. destruct (exec s t) as [[a ws]|e]; apply IH.
Qed.

Lemma eval_statement {J} (s : stmt J) h t :
  eval (statement s h) t = match exec s t with Ok (a, ws) => Ok (a, apply_writes ws t) | Err m => Err (EStore (h +:+ m)) end.
Proof. unfold statement. rewrite eval_Exec. by destruct (exec s t) as [[]|]. Qed.

(** A program that stops, with an error of the store, at the first statement
    that is refused. *)
Inductive strict {J A} : tx J A -> Prop :=
| strict_Ret a : strict (Ret a)
| strict_Fail e : strict (Fail e)
| strict_Exec s k : (forall m, exists m', k (Err m) = Fail (EStore m')) -> (forall a, strict (k (Ok a))) -> strict (Exec s k).

Lemma strict_bind {J A B} (f : A -> tx J B) m : strict m -> (forall a, strict (f a)) -> strict (m ≫= f).
Proof.
  intros Hm Hf. induction Hm as [a|e|s k He _ IH]; [apply Hf|constructor|].
  change (Exec s k ≫= f) with (Exec s (fun r => k r ≫= f)). constructor; [|done].
  intros m. destruct (He m) as [m' ->]. by exists m'.
Qed.

Lemma strict_statement {J} (s : stmt J) h : strict (statement s h).
Proof. constructor; [by eexists|constructor]. Qed.

Lemma strict_for_each {J B} (f : B -> tx J unit) l : (forall b, strict (f b)) -> strict (for_each f l).
Proof. intros Hf. induction l as [|b l IH]; [constructor|]. simpl. apply strict_bind; [apply Hf|done]. Qed.

(** A fault either shows as an error of the store or was not met. *)
Lemma strict_faults {J A} (m : tx J A) faults t : strict m ->
  (exists s, (run_tx m faults t).1 = Err (EStore s)) \/ (run_tx m faults t).1 = eval m t.
Proof.
  intros Hm. revert faults t. induction Hm as [a|e|s k He _ IH]; intros faults t; [by right..|].
  rewrite eval_Exec. simpl. destruct (next_fault faults) as [[f|] faults'].
  - destruct (He f) as [m' ->]. left. by exists m'.
  - destruct (exec s t) as [[a ws]|e]; [apply IH|]. destruct (He e) as [m' ->]. left. by exists m'.
Qed.

(** What a call returns: an error of the store, and nothing changed, or what
    the body alone makes of the tables. *)
Lemma transact_spec {J} (m : tx J unit) faults t : strict m ->
  (exists s, transact m faults t = (Err (EStore s), t)) \/
  transact m faults t = match eval m t with Ok (_, t') => (Ok tt, t') | Err e => (Err e, t) end.
Proof.
  intros Hm. unfold transact. destruct (next_fault faults) as [[f|] fs]; [left; by eexists|].
  destruct (strict_faults m fs t Hm) as [[s Hs]|Hs]; destruct (run_tx m fs t) as [r fs']; simpl in Hs; subst r.
  - left. by exists s.
  - destruct (eval m t) as [[[] t']|e]; [|by right]. destruct (next_fault fs') as [[f|] fs'']; [left; by eexists|by right].
Qed.

Lemma records_foldl_put s s' evs : api.records s = api.records s' -> api.records (foldl api.put s evs) = api.records (foldl api.put s' evs).
Proof. revert s s'. induction evs as [|e evs IH]; intros s s' Hs; [done|]. simpl. apply IH. simpl. by rewrite Hs. Qed.

(** ** What is on the tables *)
Section Spec.
Context {J : Type}.
Context (marshal : option Any -> result string string) (unmarshal : string -> result string Any).
Context (marshalMetadata : gmap string string -> result string J) (unmarshalMetadata : J -> result string (gmap string string)).
Abbreviation decode := (decode unmarshal unmarshalMetadata).
Abbreviation encode := (encode marshal marshalMetadata).
Abbreviation insertEvent := (insertEvent marshal marshalMetadata).

(** The events a record holds. *)
Definition by_record (t : tables J) : gmap record (gmap N (row J)) := map_curry (M1 := gmap record) (M2 := gmap N) (events_store t).

Definition recs (t : tables J) (r : record) : gmap N Event :=
  map_imap (fun n v => rok (decode (r, n) v)) (default ∅ (by_record t !! r)).

Lemma lookup_recs t r n : recs t r !! n = events_store t !! (r, n) ≫= fun v => rok (decode (r, n) v).
Proof.
  unfold recs. rewrite map_lookup_imap. rewrite <- (lookup_map_curry (M1 := gmap record) (M2 := gmap N) (events_store t)). change (map_curry (M1 := gmap record) (M2 := gmap N) (events_store t)) with (by_record t).
  by destruct (by_record t !! r); simpl; rewrite ?lookup_empty.
Qed.

Definition view (t : tables J) (sc : Scope) (pid : string) : option api.stream :=
  match scopeKey sc with
  | Ok tenantID => (fun n => api.mkStream n (recs t (tenantID, pid))) <$> events_store_revisions t !! (tenantID, pid)
  | Err _ => None
  end.

(** Every event has a revision row, which does not trail it, and is read
    back. *)
Record db_ok (t : tables J) : Prop := {
  ok_revision : forall k v, events_store t !! k = Some v -> exists n, events_store_revisions t !! k.1 = Some n /\ (k.2 <= n)%N;
  ok_decode : forall k v, events_store t !! k = Some v -> exists e, decode k v = Ok e
}.

(** An event that reads back as it was written. *)
Definition storable (e : Event) : Prop :=
  exists v, encode e = Ok v /\ forall tenantID, decode (event_key tenantID e) v = Ok e.

Lemma decode_key k v e : decode k v = Ok e -> PersistenceId e = k.1.2 /\ SequenceNumber e = k.2.
Proof.
  unfold postgres.decode. destruct (unmarshal _); simpl; [|done].
  destruct (match tenant_metadata v with Some j => _ | None => _ end); simpl; [|done]. by intros [= <-].
Qed.

Lemma db_ok_empty : db_ok empty_tables.
Proof. by split. Qed.

Lemma recs_stream_ok t sc pid s : db_ok t -> view t sc pid = Some s -> api.stream_ok s.
Proof.
  intros Ht. unfold view. destruct (scopeKey sc) as [tenant|]; [|done]. intros (n & Hn & ->)%fmap_Some. intros i e. simpl.
  rewrite lookup_recs. intros (v & Hv & He)%bind_Some. destruct (decode _ v) as [e'|] eqn:Hd; [|done]. injection He as ->.
  apply decode_key in Hd as [_ Hd]. simpl in Hd. destruct (ok_revision _ Ht _ _ Hv) as (n' & Hn' & Hle). simpl in *. split; [done|]. congruence.
Qed.

(** ** Inserting events *)
Lemma eval_insertEvent ign tenant e t t' : eval (insertEvent ign tenant e) t = Ok (tt, t') -> storable e ->
  exists v, encode e = Ok v /\ events_store_revisions t' = events_store_revisions t /\
    match events_store t !! event_key tenant e with
    | None => events_store t' = <[event_key tenant e := v]> (events_store t)
    | Some _ => ign = true /\ t' = t
    end.
Proof.
  intros H (v & Hv & _). exists v. split; [done|]. unfold postgres.insertEvent in H. rewrite Hv in H.
  rewrite eval_bind, eval_statement in H. unfold exec in H. destruct (_ && _); [|done].
  destruct (events_store t !! event_key tenant e) as [w|].
  - destruct ign; [|done]. injection H as <-. done.
  - injection H as <-. done.
Qed.

Lemma recs_insert t t' tenant e v : events_store t' = <[event_key tenant e := v]> (events_store t) ->
  (forall tenantID, decode (event_key tenantID e) v = Ok e) ->
  forall r, recs t' r = if decide (r = (tenant, PersistenceId e)) then <[SequenceNumber e := e]> (recs t r) else recs t r.
Proof.
  intros He Hd r. apply map_eq. intros n. rewrite lookup_recs, He. case_decide as Hr.
  - subst r. destruct (decide (n = SequenceNumber e)) as [->|Hn].
    + rewrite !lookup_insert_eq. simpl. pose proof (Hd tenant) as Hd'. unfold event_key in Hd'. by rewrite Hd'.
    + rewrite lookup_insert_ne, lookup_insert_ne by (unfold event_key; congruence). by rewrite lookup_recs.
  - rewrite lookup_insert_ne by (unfold event_key; congruence). by rewrite lookup_recs.
Qed.

(** The keys of a batch are new and distinct. *)
Definition unused (t : tables J) (tenant : string) (evs : list Event) : Prop :=
  NoDup (event_key tenant <$> evs) /\ Forall (fun e => events_store t !! event_key tenant e = None) evs.

Lemma eval_inserts ign tenant evs t t' : eval (for_each (insertEvent ign tenant) evs) t = Ok (tt, t') ->
  Forall storable evs -> (ign = true -> unused t tenant evs) ->
  events_store_revisions t' = events_store_revisions t /\
  (forall r, recs t' r = if decide (r.1 = tenant) then api.records (foldl api.put (api.mkStream 0 (recs t r)) (api.of_pid r.2 evs)) else recs t r) /\
  (forall k v, events_store t' !! k = Some v -> events_store t !! k = Some v \/
     exists e, e ∈ evs /\ k = event_key tenant e /\ encode e = Ok v).
Proof.
  revert t. induction evs as [|e evs IH]; intros t H Hst Hun.
  - injection H as <-. split_and!; [done| |auto]. intros r. by case_decide.
  - simpl in H. rewrite eval_bind in H. destruct (eval (insertEvent ign tenant e) t) as [[[] t1]|] eqn:H1; [|done].
    apply Forall_cons in Hst as [He Hst]. destruct (eval_insertEvent _ _ _ _ _ H1 He) as (v & Hv & Hrev & Hins).
    assert (events_store t !! event_key tenant e = None) as Hnone.
    { destruct (events_store t !! event_key tenant e) eqn:Hk; [|done]. destruct Hins as [Hi _]. destruct (Hun Hi) as [_ [Hx _]%Forall_cons]. congruence. }
    rewrite Hnone in Hins. destruct (IH t1 H Hst) as (Hrev' & Hrec & Hrows).
    { intros Hi. destruct (Hun Hi) as [Hnd Hf]. inversion Hnd as [|? ? Hni Hnd']; subst. apply Forall_cons in Hf as [_ Hf]. split; [done|].
      apply Forall_forall. intros e' He'. rewrite Hins, lookup_insert_ne; [by eapply Forall_forall in Hf|]. intros Heq. apply Hni. rewrite Heq. by apply list_elem_of_fmap_2. }
    split_and!; [by rewrite Hrev'| |].
    + intros r. rewrite Hrec. destruct He as (v' & Hv' & Hd). rewrite Hv in Hv'. injection Hv' as <-. rewrite (recs_insert _ _ _ _ _ Hins Hd).
      case_decide as Ht; [|by rewrite decide_False by (intros ->; by apply Ht)]. destruct r as [ten pid]. simpl in *. subst ten.
      unfold api.of_pid. destruct (decide (pid = PersistenceId e)) as [->|Hp].
      * rewrite decide_True by done. rewrite filter_cons_True by done. simpl. unfold api.put at 3. simpl.
        apply records_foldl_put. done.
      * rewrite decide_False by congruence. by rewrite filter_cons_False by done.
    + intros k w Hk. destruct (Hrows k w Hk) as [Hk1|(e' & He' & Hk' & Hw)].
      * rewrite Hins in Hk1. apply lookup_insert_Some in Hk1 as [[<- <-]|[_ Hk1]]; [|by left]. right. exists e. split; [by left|done].
      * right. exists e'. split; [by right|done].
Qed.

(** ** Revisions *)
Definition of_store {A} (r : result store_error A) : Prop := match r with Err e => exists s, e = EStore s | Ok _ => True end.

Lemma of_store_statement (s : stmt J) h t : of_store (eval (statement s h) t).
Proof. rewrite eval_statement. destruct (exec s t) as [[]|]; simpl; eauto. Qed.

Lemma of_store_bind {A B} (f : A -> tx J B) m t : of_store (eval m t) -> (forall a t', of_store (eval (f a) t')) -> of_store (eval (m ≫= f) t).
Proof. intros Hm Hf. rewrite eval_bind. destruct (eval m t) as [[]|]; [apply Hf|done]. Qed.

Lemma of_store_for_each {B} (f : B -> tx J unit) l t : (forall b t', of_store (eval (f b) t')) -> of_store (eval (for_each f l) t).
Proof. intros Hf. revert t. induction l as [|b l IH]; intros t; [done|]. simpl. by apply of_store_bind. Qed.

Lemma of_store_insertEvent ign tenant e t : of_store (eval (insertEvent ign tenant e) t).
Proof.
  unfold postgres.insertEvent. destruct (encode e) as [v|err] eqn:He.
  - apply of_store_bind; [apply of_store_statement|done].
  - unfold postgres.encode in He. destruct (marshal _); simpl in He; [|injection He as <-; simpl; by eexists].
    destruct (metadata_column _ _); simpl in He; [done|]. injection He as <-. simpl. by eexists.
Qed.

Definition set_revision (t : tables J) (r : record) (n : N) : tables J := mkTables (events_store t) (<[r := n]> (events_store_revisions t)).

Lemma eval_lock rounds r t : eval (lockRevision (S rounds) r) t =
  Ok (match events_store_revisions t !! r with Some n => ((n, true), t) | None => ((0%N, false), set_revision t r 0) end).
Proof.
  cbn [lockRevision]. rewrite eval_bind, eval_statement. cbn [exec]. destruct (events_store_revisions t !! r) as [n|] eqn:Hr; [done|].
  rewrite eval_bind, eval_statement. simpl. by rewrite Hr.
Qed.

Lemma batch_max_ge n evs : (n <= max_sequence n evs)%N /\ Forall (fun e => (SequenceNumber e <= max_sequence n evs)%N) evs.
Proof.
  unfold max_sequence. revert n. induction evs as [|e evs IH]; intros n; [split; [done|constructor]|]. simpl.
  destruct (IH (N.max n (SequenceNumber e))) as [H1 H2]. split; [lia|]. constructor; [lia|done].
Qed.

Lemma of_pid_all pid evs : Forall (fun e => PersistenceId e = pid) evs -> api.of_pid pid evs = evs.
Proof. induction 1 as [|e evs He _ IH]; [done|]. unfold api.of_pid in *. rewrite filter_cons_True by done. by rewrite IH. Qed.
Lemma of_pid_none pid evs : Forall (fun e => PersistenceId e <> pid) evs -> api.of_pid pid evs = [].
Proof. induction 1 as [|e evs He _ IH]; [done|]. unfold api.of_pid in *. by rewrite filter_cons_False. Qed.

(** A batch was written: its events, and the revisions they reach. *)
Record written (t t' : tables J) (tenant : string) (evs : list Event) : Prop := {
  w_revision : forall r, events_store_revisions t' !! r =
    if decide (r.1 = tenant /\ api.of_pid r.2 evs <> []) then Some (max_sequence (default 0%N (events_store_revisions t !! r)) (api.of_pid r.2 evs))
    else events_store_revisions t !! r;
  w_recs : forall r, recs t' r = if decide (r.1 = tenant) then api.records (foldl api.put (api.mkStream 0 (recs t r)) (api.of_pid r.2 evs)) else recs t r;
  w_rows : forall k v, events_store t' !! k = Some v -> events_store t !! k = Some v \/
    exists e, e ∈ evs /\ k = event_key tenant e /\ encode e = Ok v
}.

(** A conditional write alone: the conflict its check finds, an error of the
    store, or the events and the revision. *)
Lemma eval_conditional rounds sc tenant pid evs p t : evs <> [] -> Forall storable evs -> Forall (fun e => PersistenceId e = pid) evs ->
  let found := events_store_revisions t !! (tenant, pid) in
  match check sc pid p (default 0%N found) (bool_decide (found <> None)) with
  | Some c => eval (writeConditional marshal marshalMetadata (S rounds) sc tenant pid evs p) t = Err (EConflict c)
  | None =>
    match eval (writeConditional marshal marshalMetadata (S rounds) sc tenant pid evs p) t with
    | Err e => exists s, e = EStore s
    | Ok (_, t') => written t t' tenant evs
    end
  end.
Proof.
  intros Hne Hst Hpid found. unfold writeConditional. rewrite eval_bind, eval_lock. fold found.
  set (locked := match found with Some n => ((n, true), t) | None => ((0%N, false), set_revision t (tenant, pid) 0) end).
  assert (locked.1 = (default 0%N found, bool_decide (found <> None)) /\ events_store locked.2 = events_store t /\
    events_store_revisions locked.2 = <[(tenant, pid) := default 0%N found]> (events_store_revisions t)) as (H1 & H2 & H3).
  { unfold locked, found. destruct (events_store_revisions t !! (tenant, pid)) as [n|] eqn:Hn; simpl; [|done].
    split_and!; [done..|]. by rewrite insert_id. }
  destruct locked as [[n ex] t1] eqn:Hl. simpl in H1, H2, H3. injection H1 as -> ->. unfold checkedWrite. cbn [fst snd].
  destruct (check sc pid p _ _) as [c|]; [done|]. rewrite eval_bind.
  pose proof (of_store_for_each (insertEvent false tenant) evs t1 (of_store_insertEvent false tenant)) as Hof.
  destruct (eval (for_each (insertEvent false tenant) evs) t1) as [[[] t2]|] eqn:Hi; [|exact Hof].
  destruct (eval_inserts _ _ _ _ _ Hi Hst) as (Hrev & Hrec & Hrows); [done|].
  rewrite eval_bind, eval_statement. cbn [exec]. destruct (bigint _); [|simpl; by eexists].
  rewrite Hrev, H3, lookup_insert_eq. cbn [apply_writes foldl apply1]. split.
  - intros [ten id]. cbn [events_store_revisions fst snd]. rewrite Hrev, H3, insert_insert_eq.
    destruct (decide ((ten, id) = (tenant, pid))) as [[= -> ->]|Hr].
    + rewrite lookup_insert_eq, of_pid_all, decide_True by done. done.
    + rewrite lookup_insert_ne by done. case_decide as Hd; [|done]. destruct Hd as [-> Hd]. destruct Hd. apply of_pid_none. eapply Forall_impl; [exact Hpid|].
      intros e He Heq. apply Hr. congruence.
  - intros r. change (recs (mkTables (events_store t2) _) r) with (recs t2 r). rewrite Hrec. unfold recs, by_record. by rewrite H2.
  - intros k v Hk. rewrite <- H2. by apply Hrows.
Qed.

(** An unconditional write alone. *)
Lemma eval_raises tenant m ids (t t' : tables J) : eval (for_each (raiseRevision tenant m) ids) t = Ok (tt, t') ->
  events_store t' = events_store t /\
  forall r, events_store_revisions t' !! r =
    if decide (r.1 = tenant /\ r.2 ∈ ids) then Some (N.max (default 0%N (events_store_revisions t !! r)) (default 0%N (m !! r.2)))
    else events_store_revisions t !! r.
Proof.
  revert t. induction ids as [|id ids IH]; intros t H.
  - injection H as <-. split; [done|]. intros r. rewrite decide_False; [done|]. by intros [_ ?%elem_of_nil].
  - cbn [for_each] in H. rewrite eval_bind in H. unfold raiseRevision at 1 in H. rewrite eval_bind, eval_statement in H. cbn [exec] in H.
    destruct (bigint _); [|done]. cbn in H. apply IH in H as [He Hr]. split; [done|]. intros [ten pid]. rewrite Hr. cbn [fst snd events_store_revisions].
    destruct (decide (ten = tenant)) as [->|Ht]; [|rewrite !decide_False by (by intros [? _]); by rewrite lookup_insert_ne by congruence].
    destruct (decide (pid = id)) as [->|Hp].
    + rewrite (decide_True _ _ (conj eq_refl (list_elem_of_here id ids))), lookup_insert_eq. cbn [default].
      case_decide; f_equal; destruct (events_store_revisions t !! (tenant, id)); simpl; lia.
    + rewrite lookup_insert_ne by congruence. destruct (decide (pid ∈ ids)) as [Hin|Hin].
      * rewrite !decide_True; [done|split; [done|by right]|done].
      * rewrite !decide_False; [done|by intros [_ [?|?]%elem_of_cons]|by intros [_ ?]].
Qed.

Lemma highest_lookup evs pid : highest evs !! pid =
  if decide (api.of_pid pid evs = []) then None else Some (max_sequence 0 (api.of_pid pid evs)).
Proof.
  unfold highest. induction evs as [|e evs IH] using rev_ind; [done|]. rewrite foldl_snoc. unfold api.of_pid, max_sequence in *.
  rewrite filter_app. cbn [filter list_filter]. set (m := foldl raise_highest ∅ evs) in *. unfold raise_highest. destruct (decide (PersistenceId e = pid)) as [<-|Hne].
  - destruct (decide (filter _ evs ++ [e] = [])) as [Hx|_]; [by apply app_nil in Hx as [_ ?]|]. rewrite foldl_app, IH. simpl.
    destruct (decide (filter _ evs = [])) as [Hnil|]; [rewrite Hnil; simpl; by rewrite lookup_insert_eq, N.max_0_l|].
    destruct (N.ltb_spec (foldl (fun h e => N.max h (SequenceNumber e)) 0%N (filter (fun e0 => PersistenceId e0 = PersistenceId e) evs)) (SequenceNumber e)).
    + rewrite lookup_insert_eq. f_equal. lia.
    + rewrite IH. f_equal. lia.
  - rewrite app_nil_r, <- IH. destruct (m !! PersistenceId e); [destruct (_ <? _)%N; [|done]|]; by rewrite lookup_insert_ne.
Qed.

Lemma elem_sorted_ids m pid : pid ∈ sorted_ids m <-> m !! pid <> None.
Proof.
  unfold sorted_ids, testkit.sort_strings. rewrite merge_sort_Permutation. rewrite list_elem_of_fmap. split.
  - intros ([k n] & -> & Hin%elem_of_map_to_list). simpl. congruence.
  - destruct (m !! pid) as [n|] eqn:Hm; [|done]. intros _. exists (pid, n). by rewrite elem_of_map_to_list.
Qed.

Lemma max_sequence_max n m evs : max_sequence (N.max n m) evs = N.max n (max_sequence m evs).
Proof. unfold max_sequence. revert m. induction evs as [|e evs IH]; intros m; [done|]. simpl. rewrite <- IH. f_equal. lia. Qed.

Lemma eval_unconditional tenant evs t : Forall storable evs -> unused t tenant evs ->
  match eval (writeUnconditional marshal marshalMetadata tenant evs) t with
  | Err e => exists s, e = EStore s
  | Ok (_, t') => written t t' tenant evs
  end.
Proof.
  intros Hst Hun. unfold writeUnconditional. rewrite eval_bind.
  assert (of_store (eval (for_each (raiseRevision tenant (highest evs)) (sorted_ids (highest evs))) t)) as Hof.
  { apply of_store_for_each. intros b t'. apply of_store_bind; [apply of_store_statement|done]. }
  destruct (eval (for_each (raiseRevision tenant _) _) t) as [[[] t1]|] eqn:Hr; [|exact Hof].
  apply eval_raises in Hr as [He Hrev].
  pose proof (of_store_for_each (insertEvent true tenant) evs t1 (of_store_insertEvent true tenant)) as Hof'.
  destruct (eval (for_each (insertEvent true tenant) evs) t1) as [[[] t2]|] eqn:Hi; [|exact Hof'].
  destruct (eval_inserts _ _ _ _ _ Hi Hst) as (Hrev' & Hrec & Hrows); [intros _; unfold unused; by rewrite He|]. split.
  - intros [ten pid]. rewrite Hrev', Hrev. cbn [fst snd]. destruct (decide (ten = tenant)) as [->|]; [|by rewrite !decide_False by (by intros [? _])].
    rewrite highest_lookup. destruct (decide (api.of_pid pid evs = [])) as [Hn|Hn].
    + rewrite decide_False, decide_False; [done|by intros [_ ?]|]. intros [_ Hin]. apply elem_sorted_ids in Hin. by rewrite highest_lookup, decide_True in Hin.
    + rewrite decide_True, decide_True; [|done|split; [done|]; apply elem_sorted_ids; by rewrite highest_lookup, decide_False].
      f_equal. simpl. by rewrite <- max_sequence_max, N.max_0_r.
  - intros r. rewrite Hrec. unfold recs, by_record. by rewrite He.
  - intros k v Hk. rewrite <- He. by apply Hrows.
Qed.

(** ** What a written batch means to the readers *)
Lemma scopeKey_inj sc sc' x : wf_scope sc -> wf_scope sc' -> scopeKey sc = Ok x -> scopeKey sc' = Ok x -> sc = sc'.
Proof.
  intros [|id Hid] [|id' Hid']; unfold scopeKey, TenantID; simpl; intros H1 H2; by simplify_eq/=.
Qed.

Lemma scopeKey_wf sc : wf_scope sc -> exists tenant, scopeKey sc = Ok tenant.
Proof. intros [|id Hid]; by eexists. Qed.

Lemma written_view t t' sc tenant evs : db_ok t -> wf_scope sc -> scopeKey sc = Ok tenant -> written t t' tenant evs ->
  forall sc' pid, wf_scope sc' -> view t' sc' pid =
    if decide (sc' = sc /\ api.of_pid pid evs <> []) then Some (api.commit (view t sc pid) (api.of_pid pid evs)) else view t sc' pid.
Proof.
  intros Ht Hwf Hk [Hrev Hrec _] sc' pid Hwf'. destruct (scopeKey_wf _ Hwf') as [ten Hten]. unfold view at 1. rewrite Hten, Hrev, Hrec. cbn [fst snd].
  destruct (decide (ten = tenant)) as [->|Hne].
  - assert (sc' = sc) as -> by (by eapply scopeKey_inj). destruct (decide (api.of_pid pid evs = [])) as [Hn|Hn].
    + rewrite !decide_False by (by intros [_ ?]). unfold view. rewrite Hten, Hn. done.
    + rewrite !decide_True by done. simpl. f_equal. unfold view. rewrite Hten. destruct (api.commit _ _) as [cn cr] eqn:Hc.
      pose proof (f_equal api.srevision Hc) as Hc1. pose proof (f_equal api.records Hc) as Hc2. simpl in Hc1, Hc2.
      rewrite api.srevision_commit in Hc1. f_equal.
      * rewrite <- Hc1. unfold max_sequence. by destruct (events_store_revisions t !! (tenant, pid)).
      * rewrite <- Hc2. unfold api.commit. apply records_foldl_put. destruct (events_store_revisions t !! (tenant, pid)) as [n|] eqn:Hr; [done|].
        simpl. apply map_eq. intros i. rewrite lookup_recs, lookup_empty. destruct (events_store t !! (tenant, pid, i)) as [v|] eqn:Hv; [|done].
        destruct (ok_revision _ Ht _ _ Hv) as (n & Hn' & _). simpl in Hn'. congruence.
  - rewrite !decide_False; [by unfold view; rewrite Hten|intros [-> _]; congruence|by intros [? _]].
Qed.

Lemma written_ok t t' tenant evs : db_ok t -> Forall storable evs -> written t t' tenant evs -> db_ok t'.
Proof.
  intros Ht Hst [Hrev _ Hrows]. split; intros k v Hk; apply Hrows in Hk as [Hk|(e & He & -> & Hv)].
  - destruct (ok_revision _ Ht _ _ Hk) as (n & Hn & Hle). rewrite Hrev. case_decide; [|by exists n]. eexists. split; [done|].
    rewrite Hn. etrans; [exact Hle|]. apply batch_max_ge.
  - rewrite Hrev. unfold event_key. cbn [fst snd]. assert (e ∈ api.of_pid (PersistenceId e) evs) as Hin by (by apply list_elem_of_filter).
    rewrite decide_True by (split; [done|]; intros Hn; rewrite Hn in Hin; by apply elem_of_nil in Hin). eexists. split; [done|].
    eapply Forall_forall in Hin; [|apply batch_max_ge]. exact Hin.
  - by apply (ok_decode _ Ht).
  - eapply Forall_forall in Hst as (v' & Hv' & Hd); [|exact He]. rewrite Hv in Hv'. injection Hv' as <-. eauto.
Qed.

(** ** Deleting events *)
Lemma apply_deletes ks (t : tables J) : apply_writes ((fun k => WEvent k None) <$> ks) t =
  mkTables (filter (fun kv => kv.1 ∉ ks) (events_store t)) (events_store_revisions t).
Proof.
  revert t. induction ks as [|k ks IH]; intros t.
  - destruct t as [es rs]. simpl. f_equal. symmetry. apply map_filter_id. intros i x _ []%elem_of_nil.
  - change (apply_writes ((fun k => WEvent k None) <$> k :: ks) t) with (apply_writes ((fun k => WEvent k None) <$> ks) (apply1 t (WEvent k None))).
    rewrite IH. simpl. f_equal. apply map_eq. intros i. apply option_eq. intros v.
    rewrite !map_lookup_filter_Some. change (partial_alter (fun _ => None) k (events_store t)) with (delete k (events_store t)).
    rewrite lookup_delete_Some. simpl. rewrite not_elem_of_cons. naive_solver.
Qed.

Lemma eval_delete r to (t : tables J) : eval (deleteEvents r to) t =
  if bigint to then Ok (tt, mkTables (filter (fun kv => ~ (kv.1.1 = r /\ (kv.1.2 <= to)%N)) (events_store t)) (events_store_revisions t))
  else Err (EStore ("delete events: " +:+ out_of_range)).
Proof.
  unfold deleteEvents, lockRevisionIfExists. rewrite !eval_bind, eval_statement. cbn [exec].
  change (apply_writes [] t) with t. cbn [eval run_tx fst]. rewrite eval_bind, eval_statement. cbn [exec]. destruct (bigint to); [|done].
  set (found := map_to_list _). replace ((fun kv => WEvent kv.1 None) <$> found) with ((fun k => WEvent (J := J) k None) <$> found.*1) by (by rewrite <- list_fmap_compose).
  rewrite apply_deletes. unfold eval. cbn [run_tx fst]. do 3 f_equal. apply map_filter_ext. intros k v Hv. simpl. unfold found. rewrite list_elem_of_fmap. split.
  - intros Hn [H1 H2]. apply Hn. exists (k, v). split; [done|]. apply elem_of_map_to_list. by apply map_lookup_filter_Some.
  - intros Hn ([k' v'] & -> & Hin). apply elem_of_map_to_list, map_lookup_filter_Some in Hin as [_ Hin]. by apply Hn.
Qed.

Lemma deleted_view t sc tenant pid to : db_ok t -> wf_scope sc -> scopeKey sc = Ok tenant ->
  let t' := mkTables (filter (fun kv => ~ (kv.1.1 = (tenant, pid) /\ (kv.1.2 <= to)%N)) (events_store t)) (events_store_revisions t) in
  db_ok t' /\ forall sc' pid', wf_scope sc' -> view t' sc' pid' =
    if decide (sc' = sc /\ pid' = pid) then (fun s => api.truncate s to) <$> view t sc pid else view t sc' pid'.
Proof.
  intros Ht Hwf Hk t'. split.
  - split; intros k v Hv; apply map_lookup_filter_Some in Hv as [Hv _]; [by apply (ok_revision _ Ht) in Hv|by apply (ok_decode _ Ht) in Hv].
  - intros sc' pid' Hwf'. destruct (scopeKey_wf _ Hwf') as [ten Hten]. unfold view at 1. rewrite Hten. cbn [t' events_store_revisions].
    destruct (decide (sc' = sc /\ pid' = pid)) as [[-> ->]|Hne].
    + assert (ten = tenant) as -> by congruence. unfold view. rewrite Hk. destruct (events_store_revisions t !! (tenant, pid)) as [rev|]; [|done]. simpl. unfold api.truncate. simpl. do 2 f_equal.
      apply map_eq. intros i. apply option_eq. intros e. rewrite lookup_recs, map_lookup_filter_Some, lookup_recs. cbn [t' events_store]. rewrite !bind_Some. setoid_rewrite map_lookup_filter_Some. simpl. split.
      * intros (v & [Hv Hn] & He). split; [eauto|]. apply N.lt_nge. intros Hle. by apply Hn.
      * intros [(v & Hv & He) Hlt]. exists v. split; [split; [done|]|done]. intros [_ Hle]. lia.
    + unfold view. rewrite Hten. destruct (events_store_revisions t !! (ten, pid')) as [rev|]; [|done]. simpl. do 2 f_equal. apply map_eq. intros i. rewrite !lookup_recs. f_equal. cbn [t' events_store].
      apply option_eq. intros v. rewrite map_lookup_filter_Some. split; [by intros [? _]|]. intros Hv. split; [done|]. simpl. intros [Heq _]. injection Heq as -> ->.
      apply Hne. split; [|done]. by eapply scopeKey_inj.
Qed.

(** ** Reading *)
Lemma view_records t sc tenant pid : db_ok t -> scopeKey sc = Ok tenant -> api.records (default api.noStream (view t sc pid)) = recs t (tenant, pid).
Proof.
  intros Ht Hk. unfold view. rewrite Hk. destruct (events_store_revisions t !! (tenant, pid)) as [n|] eqn:Hr; [done|]. simpl.
  apply map_eq. intros i. rewrite lookup_recs, lookup_empty. destruct (events_store t !! (tenant, pid, i)) as [v|] eqn:Hv; [|done].
  destruct (ok_revision _ Ht _ _ Hv) as (n & Hn & _). simpl in Hn. congruence.
Qed.

Abbreviation scanEvents := (scanEvents unmarshal unmarshalMetadata).
Abbreviation reads := (Forall2 (fun kv e => decode kv.1 kv.2 = Ok e)).

Lemma scan_acc rows acc : Forall (fun kv => exists e, decode kv.1 kv.2 = Ok e) rows ->
  exists evs, rfold (fun evs kv => let? e := decode kv.1 kv.2 in Ok (evs ++ [e])) acc rows = Ok (acc ++ evs) /\ reads rows evs.
Proof.
  intros Hr. revert acc. induction Hr as [|kv rows [e He] _ IH]; intros acc.
  - exists []. by rewrite app_nil_r.
  - destruct (IH (acc ++ [e])) as (evs & Hevs & Hf). exists (e :: evs). simpl. rewrite He. simpl. rewrite Hevs, <- app_assoc. split; [done|]. by constructor.
Qed.

Lemma scan_reads rows : Forall (fun kv => exists e, decode kv.1 kv.2 = Ok e) rows -> exists evs, scanEvents rows = Ok evs /\ reads rows evs.
Proof. intros Hr. destruct (scan_acc rows [] Hr) as (evs & Hevs & Hf). by exists evs. Qed.

Lemma limit_rows_take {A} n (l : list A) : limit_rows n l = take (N.to_nat n) l.
Proof. unfold limit_rows. destruct (N.leb_spec (N.of_nat (length l)) n); [|done]. rewrite take_ge; [done|lia]. Qed.

Section Reading.
Context (scan : gmap key (row J) -> list (key * row J)).
Hypothesis scan_perm : forall m, scan m ≡ₚ map_to_list m.

(** The rows of one record, in the order of a query. *)
Lemma elem_scan (P : key * row J -> Prop) `{!forall kv, Decision (P kv)} (R : relation (key * row J)) `{!RelDecision R} t kv :
  kv ∈ merge_sort R (scan (filter P (events_store t))) <-> events_store t !! kv.1 = Some kv.2 /\ P kv.
Proof. destruct kv as [k v]. by rewrite merge_sort_Permutation, scan_perm, elem_of_map_to_list, map_lookup_filter_Some. Qed.

Lemma NoDup_scan (P : key * row J -> Prop) `{!forall kv, Decision (P kv)} (R : relation (key * row J)) `{!RelDecision R} t :
  NoDup (merge_sort R (scan (filter P (events_store t)))).
Proof. rewrite merge_sort_Permutation, scan_perm. apply NoDup_map_to_list. Qed.

Lemma reads_elem rows evs e : reads rows evs -> e ∈ evs <-> exists kv, kv ∈ rows /\ decode kv.1 kv.2 = Ok e.
Proof.
  intros Hf. induction Hf as [|kv e' rows evs Hd _ IH].
  - split; [by intros ?%elem_of_nil|by intros (kv & ?%elem_of_nil & _)].
  - rewrite elem_of_cons, IH. split.
    + intros [->|(kv' & Hin & He)]; [exists kv; split; [left|done]|exists kv'; split; [by right|done]].
    + intros (kv' & [->|Hin]%elem_of_cons & He); [left; congruence|right; eauto].
Qed.

Lemma reads_sorted r rows evs : reads rows evs -> NoDup rows -> Forall (fun kv => kv.1.1 = r) rows ->
  (forall kv kv', kv ∈ rows -> kv' ∈ rows -> kv.1 = kv'.1 -> kv = kv') -> StronglySorted sequence_le rows -> StronglySorted api.seq_lt evs.
Proof.
  intros Hf. induction Hf as [|kv e rows evs Hd Hf IH]; intros Hnd Hr Hinj Hs; [constructor|].
  apply NoDup_cons in Hnd as [Hni Hnd]. apply Forall_cons in Hr as [Hr0 Hr]. apply StronglySorted_inv in Hs as [Hs Hlt]. constructor.
  - apply IH; [done..| |done]. intros kv1 kv2 H1 H2. apply Hinj; by right.
  - apply Forall_forall. intros e' He'. eapply reads_elem in He' as (kv' & Hin & Hd'); [|exact Hf].
    apply decode_key in Hd as [_ Hd]. apply decode_key in Hd' as [_ Hd']. rewrite Forall_forall in Hlt, Hr. specialize (Hlt _ Hin). specialize (Hr _ Hin).
    unfold sequence_le in Hlt. unfold api.seq_lt. rewrite Hd, Hd'. apply N.le_neq. split; [done|]. intros Heq. apply Hni.
    rewrite (Hinj kv kv'); [done|left|by right|]. destruct kv as [[a b] ?], kv' as [[a' b'] ?]. simpl in *. congruence.
Qed.

#[local] Instance sequence_le_total : Total (sequence_le (J := J)).
Proof. intros a b. unfold sequence_le. lia. Qed.
#[local] Instance sequence_le_trans : Transitive (sequence_le (J := J)).
Proof. intros a b c. unfold sequence_le. lia. Qed.
#[local] Instance sequence_ge_total : Total (sequence_ge (J := J)).
Proof. intros a b. unfold sequence_ge. lia. Qed.
#[local] Instance sequence_ge_trans : Transitive (sequence_ge (J := J)).
Proof. intros a b c. unfold sequence_ge. lia. Qed.

Lemma replay_spec t sc tenant pid from to limit : db_ok t -> scopeKey sc = Ok tenant -> bigint from && bigint to && bigint limit = true ->
  exists all, api.range_of (view t sc pid) from to all /\
    ReplayEvents unmarshal unmarshalMetadata scan None t sc pid from to limit = Ok (take (N.to_nat limit) all).
Proof.
  intros Ht Hk Hb. set (rows := merge_sort sequence_le (scan (filter (fun kv => kv.1.1 = (tenant, pid) /\ (from <= kv.1.2 <= to)%N) (events_store t)))).
  destruct (scan_reads rows) as (all & _ & Hf).
  { apply Forall_forall. intros kv [Hkv _]%elem_scan. by apply (ok_decode _ Ht) in Hkv. }
  exists all. split; [split|].
  - apply (reads_sorted (tenant, pid) rows); [done|apply NoDup_scan| | |apply StronglySorted_merge_sort; apply _].
    + apply Forall_forall. by intros kv [_ [? _]]%elem_scan.
    + intros [k v] [k' v'] [Hkv _]%elem_scan [Hkv' _]%elem_scan. simpl. intros ->. simpl in *. congruence.
  - intros e. rewrite (view_records _ _ _ _ Ht Hk), lookup_recs, (reads_elem _ _ _ Hf). split.
    + intros ([k v] & [Hv [H1 H2]]%elem_scan & Hd). simpl in *. pose proof (decode_key _ _ _ Hd) as [_ Hseq]. destruct k as [r n]. simpl in *. subst. split; [done|]. rewrite Hv. simpl. by rewrite Hd.
    + intros [Hle (v & Hv & Hd)%bind_Some]. exists ((tenant, pid, SequenceNumber e), v). destruct (decode _ v) as [e'|] eqn:E; [|done]. injection Hd as ->. split; [by apply elem_scan|done].
  - unfold ReplayEvents. rewrite Hk. cbn [rbind]. unfold queried. rewrite Hb. fold rows. rewrite limit_rows_take.
    destruct (scan_reads (take (N.to_nat limit) rows)) as (evs & Hevs & Hf').
    { apply Forall_take, Forall_forall. intros kv [Hkv _]%elem_scan. by apply (ok_decode _ Ht) in Hkv. }
    rewrite Hevs. simpl. f_equal. clear Hevs. revert evs Hf'. generalize (N.to_nat limit) as n. clear -Hf. induction Hf as [|kv e rows all Hd _ IH]; intros [|n] evs Hf'; simpl in *; inversion Hf' as [|? ? ? ? Hd' Hf'']; subst; [done..|].
    f_equal; [congruence|]. by apply IH.
Qed.

Lemma latest_spec t sc tenant pid : db_ok t -> scopeKey sc = Ok tenant ->
  exists r, api.latest_of (view t sc pid) r /\ GetLatestEvent unmarshal unmarshalMetadata scan None t sc pid = Ok r.
Proof.
  intros Ht Hk. set (rows := merge_sort sequence_ge (scan (filter (fun kv => kv.1.1 = (tenant, pid)) (events_store t)))).
  assert (StronglySorted sequence_ge rows) as Hs by (apply StronglySorted_merge_sort; apply _).
  assert (forall kv, kv ∈ rows <-> events_store t !! kv.1 = Some kv.2 /\ kv.1.1 = (tenant, pid)) as Hin by (intros kv; apply elem_scan).
  unfold GetLatestEvent. rewrite Hk. cbn [rbind queried]. fold rows. destruct rows as [|[k v] rows'].
  - exists None. split; [|done]. simpl. rewrite (view_records _ _ _ _ Ht Hk). apply map_eq. intros i. rewrite lookup_recs, lookup_empty.
    destruct (events_store t !! (tenant, pid, i)) as [v|] eqn:Hv; [|done]. exfalso. apply (not_elem_of_nil (tenant, pid, i, v)). by apply Hin.
  - destruct (proj1 (Hin (k, v)) (list_elem_of_here _ _)) as [Hv Hr]. destruct (ok_decode _ Ht _ _ Hv) as [e He]. simpl in *.
    exists (Some e). unfold postgres.scanEvents. simpl. rewrite He. split; [|done]. rewrite (view_records _ _ _ _ Ht Hk). pose proof (decode_key _ _ _ He) as [_ Hseq]. destruct k as [r n]. simpl in *. subst. split.
    + rewrite lookup_recs, Hv. simpl. by rewrite He.
    + intros i e'. rewrite lookup_recs. intros (v' & Hv' & Hd)%bind_Some. destruct (decode _ v') as [e''|] eqn:Hd'; [|done]. injection Hd as ->.
      apply decode_key in Hd' as [_ Hd']. simpl in Hd'. rewrite Hd'.
      pose proof (proj2 (Hin (tenant, pid, i, v')) (conj Hv' eq_refl)) as [Heq|Hin']%elem_of_cons; [injection Heq as -> _; done|].
      apply StronglySorted_inv in Hs as [_ Hs]. rewrite Forall_forall in Hs. by apply (Hs _ Hin').
Qed.

(** ** The two stores side by side *)
Abbreviation program := (program marshal marshalMetadata).
Abbreviation perform := (perform marshal marshalMetadata).

Definition testkit_perform (q : request) (x : testkit.EventStore) : result store_error unit * testkit.EventStore :=
  match q with
  | RWrite sc evs p => testkit.WriteEvents x sc evs p
  | RDelete sc pid to => testkit.DeleteEvents x sc pid to
  end.

Definition agree (x : testkit.EventStore) (t : tables J) : Prop := forall sc pid, wf_scope sc -> testkit.stream_of x sc pid = view t sc pid.

(** Calls whose events read back as written, and that do not use a number
    twice without a precondition: such an event the tables keep as it was
    first written, and the in-memory store as it was written last. *)
Definition acceptable (t : tables J) (q : request) : Prop :=
  match q with
  | RWrite sc evs p => wf_scope sc /\ Forall storable evs /\
      (IsUnconditional p = true -> forall tenant, scopeKey sc = Ok tenant -> unused t tenant evs)
  | RDelete sc _ _ => wf_scope sc
  end.

Lemma strict_insertEvent ign tenant e : strict (insertEvent ign tenant e).
Proof. unfold postgres.insertEvent. destruct (encode e); [|constructor]. apply strict_bind; [apply strict_statement|constructor]. Qed.

Lemma strict_lockRevision rounds r : strict (J := J) (lockRevision rounds r).
Proof.
  induction rounds as [|rounds IH]; [constructor|]. cbn [lockRevision]. apply strict_bind; [apply strict_statement|]. intros found.
  assert (strict (J := J) (statement (ClaimRevision r) "claim revision: " ≫= fun tag => match tag with Affected 1 => Ret (0%N, false) | _ => lockRevision rounds r end)) as Hc.
  { apply strict_bind; [apply strict_statement|]. intros [| |[|[|]]]; (apply IH || constructor). }
  destruct found; (exact Hc || constructor).
Qed.

Lemma strict_program rounds q m : program rounds q = Ok (Some m) -> strict m.
Proof.
  destruct q as [sc evs p|sc pid to]; simpl; destruct (scopeKey sc) as [tenant|]; simpl; try done.
  - destruct (negb _); [done|]. destruct (IsUnconditional p).
    + destruct evs as [|e evs]; [done|]. intros [= <-]. apply strict_bind; [|intros _]; apply strict_for_each; intros b; [|apply strict_insertEvent].
      apply strict_bind; [apply strict_statement|constructor].
    + destruct evs as [|e evs]; [done|]. destruct (existsb _ _); [done|]. intros [= <-]. apply strict_bind; [apply strict_lockRevision|].
      intros [n ex]. unfold checkedWrite. destruct (check _ _ _ _ _); [constructor|]. apply strict_bind; [apply strict_for_each, strict_insertEvent|].
      intros _. apply strict_bind; [apply strict_statement|constructor].
  - intros [= <-]. unfold deleteEvents, lockRevisionIfExists. apply strict_bind; [apply strict_bind; [apply strict_statement|constructor]|].
    intros _. apply strict_bind; [apply strict_statement|constructor].
Qed.

(** The check a conditional writer makes is the precondition, and finds the
    conflict the in-memory store reports. *)
Lemma check_agrees x t sc tenant pid p : agree x t -> wf_scope sc -> scopeKey sc = Ok tenant -> PreconditionValid p = true -> IsUnconditional p = false ->
  let found := events_store_revisions t !! (tenant, pid) in
  check sc pid p (default 0%N found) (bool_decide (found <> None)) =
  if testkit.cond_holds p (testkit.log_of x (sc, pid)) then None else Some (testkit.conflict_for x sc pid p).
Proof.
  intros Ha Hwf Hk Hp Hu found. pose proof (Ha sc pid Hwf) as Hv. unfold testkit.stream_of, view in Hv. rewrite Hk in Hv. fold found in Hv.
  unfold check, testkit.cond_holds, testkit.conflict_for. destruct (testkit.log_of x (sc, pid)) as [l|]; destruct found as [n|]; simpl in Hv; try done.
  - injection Hv as Hl _. unfold testkit.log_stream in Hl. simpl in *. rewrite <- Hl. destruct (IsGenesis p); [done|]. destruct (Revision p) as [rev b]. simpl.
    by destruct (testkit.lrevision l =? rev)%N.
  - simpl. destruct (IsGenesis p); [done|]. by destruct (Revision p).
Qed.

Lemma write_agrees x t sc evs p tenant t' : testkit.wf_store x -> db_ok t -> agree x t -> wf_scope sc -> scopeKey sc = Ok tenant ->
  Forall storable evs -> written t t' tenant evs -> forall x', testkit.WriteEvents x sc evs p = (Ok tt, x') -> agree x' t'.
Proof.
  intros Hx Ht Ha Hwf Hk Hst Hw x' Hw' sc' pid Hwf'. apply testkit.WriteEvents_Ok in Hw' as (_ & _ & _ & _ & Hv); [|done].
  rewrite Hv, (written_view _ _ _ _ _ Ht Hwf Hk Hw) by done. by rewrite !Ha.
Qed.

Lemma single_forall e evs : existsb (fun e' => negb (bool_decide (PersistenceId e' = PersistenceId e))) evs = false ->
  Forall (fun e' => PersistenceId e' = PersistenceId e) (e :: evs).
Proof.
  intros H. constructor; [done|]. induction evs as [|e' evs IH]; [constructor|]. simpl in H. bool_prop. by constructor; [|apply IH].
Qed.

(** One call on both stores. *)
Lemma call_agrees x t q faults : testkit.wf_store x -> db_ok t -> agree x t -> acceptable t q ->
  (exists m, perform q faults t = (Err (EStore m), t)) \/
  ((perform q faults t).1 = (testkit_perform q x).1 /\ db_ok (perform q faults t).2 /\ testkit.wf_store (testkit_perform q x).2 /\
   agree (testkit_perform q x).2 (perform q faults t).2).
Proof.
  intros Hx Ht Ha Hq. unfold postgres.perform. destruct (program 1 q) as [[m|]|e] eqn:Hp.
  - destruct (transact_spec m faults t (strict_program _ _ _ Hp)) as [Hs|Hs]; [by left|]. rewrite Hs. clear Hs.
    destruct q as [sc evs p|sc pid to]; simpl in Hp, Hq |- *.
    + destruct Hq as (Hwf & Hst & Hun). destruct (scopeKey_wf _ Hwf) as [tenant Hk]. rewrite Hk in Hp. simpl in Hp.
      destruct (PreconditionValid p) eqn:Hpv; [|done]. simpl in Hp. destruct (IsUnconditional p) eqn:Hu.
      * destruct evs as [|e evs]; [done|]. injection Hp as <-. pose proof (eval_unconditional tenant _ t Hst (Hun eq_refl _ Hk)) as He.
        destruct (eval _ t) as [[[] t']|err]; [|destruct He as [s ->]; left; by exists s]. right.
        assert (exists x', testkit.WriteEvents x sc (e :: evs) p = (Ok tt, x')) as [x' Hw'].
        { unfold testkit.WriteEvents. rewrite (wf_scope_valid _ Hwf), Hpv, Hu. simpl. destruct (testkit.writeUnconditional_spec x sc (e :: evs) Hx) as (x' & Hw & _). eauto. }
        rewrite Hw'. simpl. split_and!; [done|by eapply written_ok|by apply testkit.WriteEvents_Ok in Hw' as [? _]|by eapply write_agrees].
      * destruct evs as [|e evs]; [done|]. destruct (existsb _ evs) eqn:Hsingle; [done|]. injection Hp as <-. pose proof (single_forall _ _ Hsingle) as Hall.
        pose proof (eval_conditional 0 sc tenant (PersistenceId e) (e :: evs) p t ltac:(discriminate) Hst Hall) as He. cbv zeta in He.
        rewrite (check_agrees x) in He by done.
        assert (testkit.WriteEvents x sc (e :: evs) p = testkit.writeConditional x sc (PersistenceId e) (e :: evs) p) as Hwe.
        { rewrite testkit.WriteEvents_conditional by (done || by apply wf_scope_valid). rewrite testkit.single_target_existsb in Hsingle. by apply negb_false_iff in Hsingle as ->. }
        rewrite testkit.writeConditional_spec in Hwe. destruct (testkit.cond_holds _ _).
        -- destruct (eval _ t) as [[[] t']|err]; [|destruct He as [s ->]; left; by exists s]. right. rewrite Hwe. simpl.
           split_and!; [done|by eapply written_ok|by apply testkit.WriteEvents_Ok in Hwe as [? _]|by eapply write_agrees].
        -- right. rewrite He, Hwe. done.
    + destruct (scopeKey_wf _ Hq) as [tenant Hk]. rewrite Hk in Hp. simpl in Hp. injection Hp as <-. rewrite eval_delete. destruct (bigint to); [|left; by eexists]. right.
      destruct (deleted_view t sc tenant pid to Ht Hq Hk) as [Hok Hv]. destruct (testkit.DeleteEvents_spec x sc pid to Hx (wf_scope_valid _ Hq)) as (x' & -> & Hx' & Hv').
      split_and!; [done..|]. intros sc' pid' Hwf'. simpl. rewrite Hv', Hv by done. by rewrite !Ha.
  - right. destruct q as [sc evs p|sc pid to]; simpl in Hp, Hq; [|by destruct (scopeKey sc)]. destruct Hq as (Hwf & _). destruct (scopeKey_wf _ Hwf) as [tenant Hk]. rewrite Hk in Hp. simpl in Hp.
    destruct (PreconditionValid p) eqn:Hpv; [|done]. simpl in Hp. destruct (IsUnconditional p) eqn:Hu; [|destruct evs; [done|]; by destruct (existsb _ _)].
    destruct evs; [|done]. simpl. unfold testkit.WriteEvents. rewrite (wf_scope_valid _ Hwf), Hpv, Hu. done.
  - right. destruct q as [sc evs p|sc pid to]; simpl in Hp, Hq |- *; [|by destruct (scopeKey_wf _ Hq) as [tenant Hk]; rewrite Hk in Hp].
    destruct Hq as (Hwf & _). destruct (scopeKey_wf _ Hwf) as [tenant Hk]. rewrite Hk in Hp. simpl in Hp. unfold testkit.WriteEvents. rewrite (wf_scope_valid _ Hwf). simpl.
    destruct (PreconditionValid p); simpl in *; [|by simplify_eq]. destruct (IsUnconditional p); [by destruct evs|]. destruct evs as [|e' evs]; [by simplify_eq|].
    destruct (existsb _ evs); [|done]. by simplify_eq.
Qed.

(** A run on both stores from empty ones: a call the database refuses is not
    made on the other. *)
Inductive lockstep : testkit.EventStore * tables J -> testkit.EventStore * tables J -> Prop :=
| lockstep_refused x t q faults m : acceptable t q -> perform q faults t = (Err (EStore m), t) -> lockstep (x, t) (x, t)
| lockstep_call x t q faults : acceptable t q -> (forall m, (perform q faults t).1 <> Err (EStore m)) ->
    lockstep (x, t) ((testkit_perform q x).2, (perform q faults t).2).

Lemma latest_row_unique s r r' : api.latest_of s r -> api.latest_of s r' -> r = r'.
Proof.
  destruct r as [e|], r' as [e'|]; simpl; [|intros [H1 _] H2|intros H1 [H2 _]|done].
  - intros [H1 M1] [H2 M2]. assert (SequenceNumber e = SequenceNumber e') as Heq. { apply N.le_antisymm; [by eapply M2|by eapply M1]. } congruence.
  - by rewrite H2, lookup_empty in H1.
  - by rewrite H1, lookup_empty in H2.
Qed.

(** C17: Both stores used from empty with the same acceptable calls, that is
    (see [acceptable]) calls in a well-formed scope whose events the database
    can read back as written, and whose sequence numbers, when the write has
    no precondition, are not in use: whatever acceptable call comes next, what
    one answers the other answers, the conflicts and the revisions they report
    included, unless the database refuses it, which changes nothing; and every
    latest event, and every replay whose bounds and limit fit a [bigint], read
    from one is read from the other. (On a sequence number in use they differ:
    the table keeps its record, the in-memory store takes the new one.) *)
Theorem stores_agree x t : rtc lockstep (testkit.NewEventsStore, empty_tables) (x, t) ->
  (forall q faults, acceptable t q -> (exists m, perform q faults t = (Err (EStore m), t)) \/ (perform q faults t).1 = (testkit_perform q x).1) /\
  (forall sc pid from to limit, wf_scope sc -> bigint from && bigint to && bigint limit = true ->
     testkit.ReplayEvents x sc pid from to limit = Some (ReplayEvents unmarshal unmarshalMetadata scan None t sc pid from to limit)) /\
  (forall sc pid, wf_scope sc -> testkit.GetLatestEvent x sc pid = GetLatestEvent unmarshal unmarshalMetadata scan None t sc pid).
Proof.
  intros Hrun. assert (testkit.wf_store x /\ db_ok t /\ agree x t) as (Hx & Ht & Ha).
  { assert (forall w, rtc lockstep w (x, t) -> testkit.wf_store w.1 /\ db_ok w.2 /\ agree w.1 w.2 -> testkit.wf_store x /\ db_ok t /\ agree x t) as H.
    { clear Hrun. intros w Hw. remember (x, t) as w' eqn:E. induction Hw as [|w1 w2 w3 Hs _ IH]; [by subst|]. intros (Hx & Ht & Ha). apply (IH E).
      destruct Hs as [y u q faults m _ _|y u q faults Hq Hr]; [done|]. destruct (call_agrees y u q faults Hx Ht Ha Hq) as [[m Hm]|(_ & ? & ? & ?)]; [|done].
      destruct (Hr m). by rewrite Hm. }
    apply (H _ Hrun). split_and!; [apply map_Forall_empty|apply db_ok_empty|]. intros sc pid Hwf. unfold view. destruct (scopeKey sc); done. }
  split_and!.
  - intros q faults Hq. destruct (call_agrees x t q faults Hx Ht Ha Hq) as [?|(? & _)]; [by left|by right].
  - intros sc pid from to limit Hwf Hb. destruct (scopeKey_wf _ Hwf) as [tenant Hk]. destruct (replay_spec t sc tenant pid from to limit Ht Hk Hb) as (all & Hr & ->).
    destruct (testkit.ReplayEvents_spec x sc pid from to limit Hx (wf_scope_valid _ Hwf)) as (all' & Hr' & ->). { bool_prop. unfold bigint in *. by bool_prop. }
    rewrite Ha in Hr' by done. by rewrite (api.range_of_unique _ _ _ _ _ Hr Hr').
  - intros sc pid Hwf. destruct (scopeKey_wf _ Hwf) as [tenant Hk]. destruct (latest_spec t sc tenant pid Ht Hk) as (r & Hr & ->).
    destruct (testkit.GetLatestEvent_spec x sc pid Hx (wf_scope_valid _ Hwf)) as (r' & -> & Hr'). rewrite Ha in Hr' by done. by rewrite (latest_row_unique _ _ _ Hr Hr').
Qed.
End Reading.
End Spec.
End postgres_spec.
