(* ===== verification/PostgresPages.v ===== *)
(** * Listing the ids of a PostgreSQL events store

    Paging through [PersistenceIDs] lists every id once, whatever the
    collation of the database; an event that shares its timestamp with the
    last of a batch is skipped by whoever reads a shard batch by batch. *)

From S2P Require Import Prelude GoStrings Tenancy Persistence Egopb StoreApi EventStore Postgres PostgresSpec.
From Stdlib Require Import ZArith Lia.
Open Scope string_scope.
Open Scope list_scope.
Open Scope urd_scope.

Module postgres_pages.
Import persistence egopb postgres postgres_spec.

Section Pages.
Context {J : Type} (scan : gmap key (row J) -> list (key * row J)) (collate : string -> string -> bool).
Hypothesis scan_perm : forall m, scan m ≡ₚ map_to_list m.

(** The order of the text type, a strict total order. *)
Abbreviation text_lt := (fun a b => collate a b = true).
Hypothesis collate_irrefl : forall a, collate a a = false.
Hypothesis collate_trans : forall a b c, collate a b = true -> collate b c = true -> collate a c = true.
Hypothesis collate_total : forall a b, a <> b -> collate a b = false -> collate b a = true.

Abbreviation ids_after := (ids_after scan collate).

Lemma collate_asym a b : collate a b = true -> collate b a = false.
Proof. intros Hab. destruct (collate b a) eqn:Hba; [|done]. pose proof (collate_trans _ _ _ Hab Hba) as Haa. by rewrite collate_irrefl in Haa. Qed.

#[local] Instance text_le_total : Total (text_le collate).
Proof. intros a b. unfold text_le. destruct (collate b a) eqn:Hba; [right; by apply collate_asym|by left]. Qed.
#[local] Instance text_le_trans : Transitive (text_le collate).
Proof.
  intros a b c. unfold text_le. intros Hab Hbc. destruct (collate c a) eqn:Hca; [|done]. destruct (decide (a = b)) as [->|Hne]; [congruence|].
  assert (collate a b = true) as Hab' by (by apply collate_total). rewrite (collate_trans _ _ _ Hca Hab') in Hbc. done.
Qed.

Lemma text_lt_le a b : text_le collate a b -> a <> b -> text_lt a b.
Proof. unfold text_le. intros Hle Hne. by apply collate_total. Qed.

(** What a page is taken from, in strict order. *)
Lemma ids_after_sorted t tenant token : StronglySorted text_lt (ids_after t tenant token).
Proof.
  unfold postgres.ids_after. set (l := remove_dups _). assert (NoDup (merge_sort (text_le collate) l)) as Hnd by (rewrite merge_sort_Permutation; apply NoDup_remove_dups).
  pose proof (StronglySorted_merge_sort (text_le collate) l) as Hs. induction Hs as [|a l' Hs IH Hf]; [constructor|].
  apply NoDup_cons in Hnd as [Hni Hnd]. constructor; [by apply IH|]. rewrite Forall_forall in Hf |- *. intros b Hb. apply text_lt_le; [by apply Hf|]. by intros ->.
Qed.

Definition listed (t : tables J) (tenant pid : string) : Prop := exists n v, events_store t !! (tenant, pid, n) = Some v.

Lemma elem_ids_after t tenant token pid : pid ∈ ids_after t tenant token <-> listed t tenant pid /\ (token = "" \/ collate token pid = true).
Proof.
  unfold postgres.ids_after. rewrite merge_sort_Permutation, elem_of_remove_dups, list_elem_of_fmap. split.
  - intros ([[[ten id] n] v] & -> & Hin). rewrite scan_perm, elem_of_map_to_list, map_lookup_filter_Some in Hin. destruct Hin as [Hv [Ht Hc]]. simpl in *. subst. split; [by exists n, v|done].
  - intros [(n & v & Hv) Hc]. exists ((tenant, pid, n), v). split; [done|]. rewrite scan_perm, elem_of_map_to_list, map_lookup_filter_Some. done.
Qed.

Lemma text_sorted_unique l l' : StronglySorted text_lt l -> StronglySorted text_lt l' -> (forall x, x ∈ l <-> x ∈ l') -> l = l'.
Proof.
  revert l'. induction l as [|a l IH]; intros [|b l'] Hs Hs' Heq; [done| | |].
  - exfalso. apply (not_elem_of_nil b), Heq. left.
  - exfalso. apply (not_elem_of_nil a), Heq. left.
  - apply StronglySorted_inv in Hs as [Hs Hf]. apply StronglySorted_inv in Hs' as [Hs' Hf']. rewrite Forall_forall in Hf, Hf'.
    assert (a = b) as ->.
    { assert (a ∈ b :: l') as [|Ha]%elem_of_cons by (apply Heq; left); [done|]. assert (b ∈ a :: l) as [|Hb]%elem_of_cons by (apply Heq; left); [done|].
      apply Hf' in Ha. apply Hf in Hb. simpl in *. rewrite (collate_asym _ _ Ha) in Hb. done. }
    f_equal. apply IH; [done..|]. intros x. specialize (Heq x). rewrite !elem_of_cons in Heq.
    split; intros Hx; [destruct (proj1 Heq (or_intror Hx)) as [->|]; [|done]; apply Hf in Hx|destruct (proj2 Heq (or_intror Hx)) as [->|]; [|done]; apply Hf' in Hx]; simpl in Hx; by rewrite collate_irrefl in Hx.
Qed.

Lemma StronglySorted_split (pre rest : list string) : StronglySorted text_lt (pre ++ rest) ->
  StronglySorted text_lt rest /\ forall a b, a ∈ pre -> b ∈ rest -> text_lt a b.
Proof.
  induction pre as [|a pre IH]; simpl; intros Hs; [split; [done|]; by intros ? ? ?%elem_of_nil|].
  apply StronglySorted_inv in Hs as [Hs Hf]. destruct (IH Hs) as [Hs' Hlt]. split; [done|]. intros x y [->|Hx]%elem_of_cons Hy; [|by apply Hlt].
  rewrite Forall_forall in Hf. apply Hf. apply elem_of_app. by right.
Qed.

(** Where the pages before it end, a page begins. *)
Lemma ids_after_rest t tenant pre token rest : ids_after t tenant "" = (pre ++ [token]) ++ rest -> token <> "" -> ids_after t tenant token = rest.
Proof.
  intros Hall Hne. pose proof (ids_after_sorted t tenant "") as Hs. rewrite Hall in Hs. destruct (StronglySorted_split _ _ Hs) as [Hs' Hlt].
  apply text_sorted_unique; [apply ids_after_sorted|done|]. intros x. rewrite elem_ids_after. split.
  - intros [Hl [?|Hc]]; [done|]. assert (x ∈ (pre ++ [token]) ++ rest) as Hx by (rewrite <- Hall; apply elem_ids_after; auto).
    apply elem_of_app in Hx as [[Hx|Hx]%elem_of_app|Hx]; [| |done].
    + rewrite <- app_assoc in Hs. destruct (StronglySorted_split _ _ Hs) as [_ Hlt']. specialize (Hlt' x token Hx ltac:(left)). simpl in Hlt'. by rewrite (collate_asym _ _ Hlt') in Hc.
    + apply list_elem_of_singleton in Hx as ->. by rewrite collate_irrefl in Hc.
  - intros Hx. split; [|right; apply Hlt; [apply elem_of_app; right; left|done]].
    assert (x ∈ ids_after t tenant "") as Hin by (rewrite Hall; apply elem_of_app; by right). by apply elem_ids_after in Hin as [? _].
Qed.

(** Calling until the token is empty; [None] when [fuel] pages were not
    enough. *)
Fixpoint list_all (t : tables J) (sc : Scope) (pageSize : N) (fuel : nat) (token : string) : option (list string) :=
  match fuel with
  | O => None
  | S fuel =>
    match PersistenceIDs scan collate None t sc pageSize token with
    | Err _ => None
    | Ok (ids, next) => if bool_decide (next = "") then Some ids else (ids ++.) <$> list_all t sc pageSize fuel next
    end
  end.

Lemma list_all_from t sc tenant pageSize : scopeKey sc = Ok tenant -> (0 < pageSize)%N -> bigint pageSize = true -> ~ listed t tenant "" ->
  forall rest fuel pre token, ids_after t tenant "" = pre ++ rest -> ids_after t tenant token = rest -> length rest < fuel ->
  list_all t sc pageSize fuel token = Some rest.
Proof.
  intros Hk Hpos Hb Hne rest fuel. revert rest. induction fuel as [|fuel IH]; intros rest pre token Hall Hrest Hlen; [lia|]. simpl.
  unfold PersistenceIDs. rewrite Hk. cbn [rbind]. destruct (N.eqb_spec pageSize 0); [lia|]. unfold queried. rewrite Hb, Hrest, limit_rows_take.
  destruct (N.eqb_spec (N.of_nat (length (take (N.to_nat pageSize) rest))) pageSize) as [Hfull|Hpart].
  - destruct (last (take (N.to_nat pageSize) rest)) as [next|] eqn:Hl.
    2:{ apply last_None in Hl. rewrite Hl in Hfull. simpl in Hfull. lia. }
    simpl. apply last_Some in Hl as [page Hl]. assert (next ∈ ids_after t tenant "") as Hin.
    { rewrite Hall. apply elem_of_app. right. rewrite <- (take_drop (N.to_nat pageSize) rest), Hl. apply elem_of_app. left. apply elem_of_app. right. left. }
    assert (next <> "") as Hnn by (intros ->; by apply elem_ids_after in Hin as [? _]). rewrite bool_decide_false by done.
    assert (ids_after t tenant "" = ((pre ++ page) ++ [next]) ++ drop (N.to_nat pageSize) rest) as Hall'.
    { rewrite Hall, <- (take_drop (N.to_nat pageSize) rest) at 1. rewrite Hl. by rewrite !app_assoc. }
    rewrite (IH (drop (N.to_nat pageSize) rest) ((pre ++ page) ++ [next])); [|done|by eapply ids_after_rest|].
    + simpl. by rewrite take_drop.
    + rewrite length_drop. assert (0 < length rest) by (rewrite <- (take_drop (N.to_nat pageSize) rest), length_app; lia). lia.
  - simpl. f_equal. apply take_ge. rewrite length_take in Hpart. lia.
Qed.

(** C38: For a positive page size that fits a [bigint], from the first page to
    the empty token: every id that has an event in the scope, each once; one
    page more than there are ids is enough. No id may be the empty string,
    which reads as the end. *)
Theorem pages_list_each_once t sc tenant pageSize : scopeKey sc = Ok tenant -> (0 < pageSize)%N -> bigint pageSize = true -> ~ listed t tenant "" ->
  exists ids, (forall fuel, length ids < fuel -> list_all t sc pageSize fuel "" = Some ids) /\ NoDup ids /\ forall pid, pid ∈ ids <-> listed t tenant pid.
Proof.
  intros Hk Hpos Hb Hne. exists (ids_after t tenant ""). split_and!.
  - intros fuel Hf. by apply (list_all_from t sc tenant pageSize Hk Hpos Hb Hne _ fuel []).
  - unfold postgres.ids_after. rewrite merge_sort_Permutation. apply NoDup_remove_dups.
  - intros pid. rewrite elem_ids_after. naive_solver.
Qed.
End Pages.
End postgres_pages.
