(* ===== verification/PostgresConcurrent.v ===== *)
(** * Concurrent transactions on the PostgreSQL events store

    Any number of connections run the transactions of [Postgres.v] at once,
    statement by statement, under the isolation PostgreSQL gives by default:
    a statement sees what is committed and what its own transaction wrote, a
    row that another transaction inserted, changed or locked is waited for.
    The writers take the row of [events_store_revisions] first; [serializable]
    shows that this makes them atomic, as long as deletions are asked for
    records that have that row, [writers_never_deadlock] that no calls whatever
    wait for each other in a circle. *)

From S2P Require Import Prelude GoStrings Tenancy Persistence Egopb StoreApi EventStore Postgres PostgresSpec AdoptionFences.
From Stdlib Require Import ZArith Lia.
Open Scope string_scope.
Open Scope list_scope.
Open Scope urd_scope.

Module postgres_concurrent.
Import persistence egopb postgres postgres_spec.

(** ** Connections *)
Section Locks.
Context {J : Type}.

Definition record_of (s : stmt J) : record :=
  match s with
  | SelectRevisionForUpdate r | ClaimRevision r | RaiseRevision r _ | SetRevision r _ | DeleteUpTo r _ => r
  | InsertEvent k _ _ => k.1
  end.

(** The rows of [events_store_revisions] a statement locks, given its answer. *)
Definition locks (s : stmt J) (a : answer) : gset record :=
  match s, a with
  | SelectRevisionForUpdate r, OneRow _ => {[ r ]}
  | ClaimRevision r, Affected 1 => {[ r ]}
  | RaiseRevision r _, _ => {[ r ]}
  | SetRevision r _, Affected 1 => {[ r ]}
  | _, _ => ∅
  end.

(** A connection in a transaction: what is left to run, what it wrote, the
    revision rows it holds. *)
Record conn := mkConn { asked : request; body : tx J unit; pending : list (write J); held : gset record }.

Record state := mkState { committed : tables J; conns : gmap nat conn; log : list request }.

Definition visible (s : state) (c : conn) : tables J := apply_writes (pending c) (committed s).

(** What a statement of [c] finds another connection [c'] in the way of. A row
    another transaction inserted and has not committed is invisible to a
    [SELECT], and waited for by an insert of the same key; a committed row
    makes [ON CONFLICT DO NOTHING] return at once. *)
Definition in_the_way (s : state) (c c' : conn) (q : stmt J) : Prop :=
  match q with
  | SelectRevisionForUpdate r => events_store_revisions (visible s c) !! r <> None /\ r ∈ held c'
  | ClaimRevision r => events_store_revisions (committed s) !! r = None /\ r ∈ held c'
  | RaiseRevision r _ | SetRevision r _ => r ∈ held c'
  | InsertEvent k _ _ => exists v, WEvent k v ∈ pending c'
  | DeleteUpTo r n => exists k v, k.1 = r /\ (k.2 <= n)%N /\ events_store (visible s c) !! k <> None /\ WEvent k v ∈ pending c'
  end.

Definition waits (s : state) (i j : nat) : Prop :=
  exists c c' q k, i <> j /\ conns s !! i = Some c /\ conns s !! j = Some c' /\ body c = Exec q k /\ in_the_way s c c' q.
End Locks.
Arguments conn : clear implicits.
Arguments state : clear implicits.

Section Concurrent.
Context {J : Type}.
Context (marshal : option Any -> result string string) (marshalMetadata : gmap string string -> result string J).
Abbreviation program := (program marshal marshalMetadata).
Abbreviation perform := (perform marshal marshalMetadata).

(** The database may refuse a statement, and a connection may be lost, at any
    time. *)
Inductive step : state J -> state J -> Prop :=
| step_begin t cs l i rounds q m : cs !! i = None -> program rounds q = Ok (Some m) ->
    step (mkState t cs l) (mkState t (<[i := mkConn q m [] ∅]> cs) l)
| step_exec t cs l i c s k a ws : cs !! i = Some c -> body c = Exec s k -> (forall j, ~ waits (mkState t cs l) i j) ->
    exec s (apply_writes (pending c) t) = Ok (a, ws) ->
    step (mkState t cs l) (mkState t (<[i := mkConn (asked c) (k (Ok a)) (pending c ++ ws) (held c ∪ locks s a)]> cs) l)
| step_refused t cs l i c s k m : cs !! i = Some c -> body c = Exec s k ->
    step (mkState t cs l) (mkState t (<[i := mkConn (asked c) (k (Err m)) (pending c) (held c)]> cs) l)
| step_commit t cs l i c : cs !! i = Some c -> body c = Ret tt ->
    step (mkState t cs l) (mkState (apply_writes (pending c) t) (delete i cs) (l ++ [asked c]))
| step_rollback t cs l i c : cs !! i = Some c -> step (mkState t cs l) (mkState t (delete i cs) l).

(** A deletion asked for a record that has its revision row: it was written,
    and that write committed. *)
Definition established (t : tables J) (q : request) : Prop :=
  match q with
  | RWrite _ _ _ => True
  | RDelete sc pid _ => forall tenant, scopeKey sc = Ok tenant -> events_store_revisions t !! (tenant, pid) <> None
  end.

(** The steps of users who begin deletions of such records only. *)
Definition prudent (s s' : state J) : Prop :=
  step s s' /\ forall i c, conns s !! i = None -> conns s' !! i = Some c -> established (committed s) (asked c).

(** The requests one after the other, each alone. *)
Fixpoint serial (t : tables J) (l : list request) : option (tables J) :=
  match l with
  | [] => Some t
  | q :: l => match perform q [] t with (Ok _, t') => serial t' l | (Err _, _) => None end
  end.

(** ** What depends on one record only *)
Definition same_record (t t' : tables J) (r : record) : Prop :=
  events_store_revisions t !! r = events_store_revisions t' !! r /\ forall n, events_store t !! (r, n) = events_store t' !! (r, n).

Lemma exec_same s t t' : same_record t t' (record_of s) -> exec s t = exec s t'.
Proof.
  intros [Hr He]. destruct s as [r|r|r n|r n|[r n] v b|r n]; simpl in *; rewrite ?Hr, ?He; try done.
  destruct (bigint n); [|done]. replace (filter _ (events_store t)) with (filter (fun kv => kv.1.1 = r /\ (kv.1.2 <= n)%N) (events_store t')); [done|].
  apply map_eq. intros [r' i]. apply option_eq. intros v. rewrite !map_lookup_filter_Some. simpl. split; intros [Hv [-> Hle]]; (split; [|done]); congruence.
Qed.

Definition write_record (w : write J) : record := match w with WEvent k _ => k.1 | WRevision r _ => r end.

Lemma exec_writes s t a ws : exec s t = Ok (a, ws) -> Forall (fun w => write_record w = record_of s) ws.
Proof.
  destruct s as [r|r|r n|r n|k v b|r n]; simpl; intros H; case_all_in H; repeat constructor; try done.
  apply Forall_fmap, Forall_forall. intros [k v] Hin. apply elem_of_map_to_list, map_lookup_filter_Some in Hin as [_ [? _]]. done.
Qed.

Lemma same_apply1 t t' w r : same_record t t' r -> same_record (apply1 t w) (apply1 t' w) r.
Proof.
  intros [Hr He]. destruct w as [k v|r' n]; split; simpl; try done.
  - intros n. destruct (decide (k = (r, n))) as [->|Hne]; [by rewrite !lookup_partial_alter_eq|]. by rewrite !lookup_partial_alter_ne.
  - destruct (decide (r' = r)) as [->|Hne]; [by rewrite !lookup_insert_eq|]. by rewrite !lookup_insert_ne.
Qed.

Lemma same_apply ws t t' r : same_record t t' r -> same_record (apply_writes ws t) (apply_writes ws t') r.
Proof. revert t t'. induction ws as [|w ws IH]; intros t t' H; [done|]. simpl. by apply IH, same_apply1. Qed.

Lemma other_apply ws t r : Forall (fun w => write_record w <> r) ws -> same_record t (apply_writes ws t) r.
Proof.
  intros Hf. revert t. induction Hf as [|w ws Hw _ IH]; intros t; [done|]. destruct (IH (apply1 t w)) as [Hr He]. simpl. split.
  - rewrite <- Hr. destruct w as [k v|r' n]; simpl in *; [done|]. by rewrite lookup_insert_ne.
  - intros n. rewrite <- He. destruct w as [[r' i] v|r' i]; simpl in *; [|done]. rewrite lookup_partial_alter_ne; [done|]. congruence.
Qed.

Lemma apply_writes_app ws ws' (t : tables J) : apply_writes (ws ++ ws') t = apply_writes ws' (apply_writes ws t).
Proof. apply foldl_app. Qed.

(** ** Replaying a transaction *)

(** [m], alone on [t], comes to [m'] having written [ws], by statements about
    the records of [H]. *)
Inductive replays (H : gset record) (m : tx J unit) (t : tables J) : tx J unit -> list (write J) -> Prop :=
| replays_start : replays H m t m []
| replays_exec s k ws a ws' : replays H m t (Exec s k) ws -> record_of s ∈ H -> exec s (apply_writes ws t) = Ok (a, ws') ->
    replays H m t (k (Ok a)) (ws ++ ws').

(** The first statement, and the one after. *)
Lemma replays_next H m t m1 ws s k a ws' m' ws2 : replays H m t m1 ws -> m1 = Exec s k -> exec s (apply_writes ws t) = Ok (a, ws') -> record_of s ∈ H ->
  k (Ok a) = m' -> ws ++ ws' = ws2 -> replays H m t m' ws2.
Proof. intros Hr -> He Hin <- <-. by eapply replays_exec. Qed.

Lemma replays_eval H m t m' ws : replays H m t m' ws -> eval m t = eval m' (apply_writes ws t).
Proof. induction 1 as [|s k ws a ws' _ IH _ He]; [done|]. by rewrite IH, eval_Exec, He, apply_writes_app. Qed.

Lemma replays_more H H' m t m' ws : replays H m t m' ws -> H ⊆ H' -> replays H' m t m' ws.
Proof. intros Hr Hs. induction Hr as [|s k ws a ws' _ IH Hin He]; [constructor|]. by eapply replays_exec; [exact IH|apply Hs|]. Qed.

Lemma replays_frame H m t t' m' ws : replays H m t m' ws -> (forall r, r ∈ H -> same_record t t' r) -> replays H m t' m' ws.
Proof.
  intros Hr Hs. induction Hr as [|s k ws a ws' _ IH Hin He]; [constructor|]. eapply replays_exec; [exact IH|done|].
  rewrite <- He. symmetry. by apply exec_same, same_apply, Hs.
Qed.

Lemma replays_writes H m t m' ws : replays H m t m' ws -> Forall (fun w => write_record w ∈ H) ws.
Proof.
  induction 1 as [|s k ws a ws' _ IH Hin He]; [constructor|]. apply Forall_app. split; [done|].
  eapply Forall_impl; [by eapply exec_writes|]. by intros w ->.
Qed.

(** ** What a transaction touches

    [covered H m]: holding [H], every statement of [m] is about a record held
    or locks its record, which then comes after all those held. *)
Definition above (H : gset record) (r : record) : Prop := forall r', r' ∈ H -> r'.1 = r.1 /\ testkit.str_ltb r'.2 r.2 = true.

Inductive covered {A} : gset record -> tx J A -> Prop :=
| covered_Ret H a : covered H (Ret a)
| covered_Fail H e : covered H (Fail e)
| covered_Exec H s k : record_of s ∈ H \/ (exists r n, s = RaiseRevision r n /\ above H r) ->
    (forall a, covered (H ∪ locks s a) (k (Ok a))) -> covered H (Exec s k).

Lemma covered_bind {A B} H (m : tx J A) (f : A -> tx J B) : covered H m -> (forall a H', H ⊆ H' -> covered H' (f a)) -> covered H (m ≫= f).
Proof.
  induction 1 as [H a|H e|H s k Hs _ IH]; intros Hf; [by apply Hf|constructor|].
  change (Exec s k ≫= f) with (Exec s (fun r => k r ≫= f)). constructor; [done|]. intros a. apply IH. intros b H' Hsub. apply Hf. set_solver.
Qed.

Lemma covered_statement H (s : stmt J) h : record_of s ∈ H -> covered H (statement s h).
Proof. intros Hin. constructor; [by left|]. intros a. constructor. Qed.

Lemma covered_inserts H tenant ign evs : Forall (fun e => (tenant, PersistenceId e) ∈ H) evs -> covered H (for_each (insertEvent marshal marshalMetadata ign tenant) evs).
Proof.
  intros Hf. revert H Hf. induction evs as [|e evs IH]; intros H Hf; [constructor|]. apply Forall_cons in Hf as [He Hf]. cbn [for_each]. apply covered_bind.
  - unfold insertEvent. destruct (encode _ _ e); [|constructor]. apply covered_bind; [by apply covered_statement|constructor].
  - intros _ H' Hsub. apply IH. eapply Forall_impl; [exact Hf|]. intros e' He'. by apply Hsub.
Qed.

Lemma covered_raises tenant m ids H (rest : tx J unit) : StronglySorted (fun a b => testkit.str_ltb a b = true) ids -> (forall r id, r ∈ H -> id ∈ ids -> r.1 = tenant /\ testkit.str_ltb r.2 id = true) ->
  (forall H', (forall id, id ∈ ids -> (tenant, id) ∈ H') -> H ⊆ H' -> covered H' rest) ->
  covered H (for_each (raiseRevision tenant m) ids ≫= fun _ => rest).
Proof.
  revert H. induction ids as [|id ids IH]; intros H Hs Hab Hrest; [apply Hrest; [by intros ? ?%elem_of_nil|done]|].
  apply StronglySorted_inv in Hs as [Hs Hf]. rewrite Forall_forall in Hf. apply covered_Exec.
  - right. eexists _, _. split; [done|]. intros r Hr. apply Hab; [done|left].
  - intros a. apply (IH (H ∪ {[(tenant, id)]})); [done| |].
    + intros r id' [Hr|Hr%elem_of_singleton]%elem_of_union Hid; [apply Hab; [done|by right]|subst r; split; [done|by apply Hf]].
    + intros H' Hin Hsub. apply Hrest; [|set_solver]. intros id' [->|Hid]%elem_of_cons; [set_solver|by apply Hin].
Qed.

Lemma sorted_ids_sorted m : StronglySorted (fun a b => testkit.str_ltb a b = true) (sorted_ids m).
Proof.
  unfold sorted_ids, testkit.sort_strings. assert (NoDup (merge_sort String.le (map_to_list m).*1)) as Hnd by (rewrite merge_sort_Permutation; apply NoDup_fst_map_to_list).
  pose proof (StronglySorted_merge_sort String.le (map_to_list m).*1) as Hs. induction Hs as [|a l Hs IH Hf]; [constructor|].
  apply NoDup_cons in Hnd as [Hni Hnd]. constructor; [by apply IH|]. rewrite Forall_forall in Hf |- *. intros b Hb. apply testkit.str_ltb_spec. split; [by apply Hf|]. by intros ->.
Qed.

(** ** Where a connection stands *)
Definition claim_then (f : nat) (r : record) : tx J (N * bool) :=
  statement (ClaimRevision r) "claim revision: " ≫= fun tag => match tag with Affected 1 => Ret (0%N, false) | _ => lockRevision f r end.

(** [careful]: every deletion was begun on a record that has its row. A
    deletion that found none holds nothing, neither before nor after its
    [DELETE]; while there are such, the transactions of the others can no
    longer be replayed, but they still lock in order. *)
Inductive phase (careful : bool) (t : tables J) (c : conn J) : Prop :=
| phase_failed e : body c = Fail e -> phase careful t c
| phase_loop r k f : held c = ∅ -> pending c = [] -> program 1 (asked c) = Ok (Some (lockRevision 1 r ≫= k)) ->
    (forall x H, r ∈ H -> covered H (k x)) -> body c = lockRevision f r ≫= k \/ body c = claim_then f r ≫= k -> phase careful t c
| phase_delete r to : held c = ∅ -> pending c = [] -> program 1 (asked c) = Ok (Some (deleteEvents r to)) -> body c = deleteEvents r to ->
    (careful = true -> events_store_revisions t !! r <> None) -> phase careful t c
| phase_unlocked r to : careful = false -> held c = ∅ -> pending c = [] -> body c = (statement (DeleteUpTo r to) "delete events: " ≫= fun _ => Ret tt) -> phase careful t c
| phase_deleted : careful = false -> held c = ∅ -> body c = Ret tt -> phase careful t c
| phase_locked : (careful = true -> exists m, program 1 (asked c) = Ok (Some m) /\ replays (held c) m t (body c) (pending c)) ->
    Forall (fun w => write_record w ∈ held c) (pending c) -> covered (held c) (body c) -> phase careful t c.

Lemma phase_replayed b t c m : program 1 (asked c) = Ok (Some m) -> replays (held c) m t (body c) (pending c) -> covered (held c) (body c) -> phase b t c.
Proof. intros Hm Hr Hc. apply phase_locked; [by exists m|by eapply replays_writes|done]. Qed.

Lemma begin_phase b t rounds q m : program rounds q = Ok (Some m) -> (b = true -> established t q) -> phase b t (mkConn q m [] ∅).
Proof.
  destruct q as [sc evs p|sc pid to]; simpl; destruct (scopeKey sc) as [tenant|] eqn:Hk; simpl; try done.
  - destruct (PreconditionValid p) eqn:Hp; [|done]. simpl. destruct (IsUnconditional p) eqn:Hu; (destruct evs as [|e evs]; [done|]).
    + intros [= <-] _. eapply phase_replayed; [by simpl; rewrite Hk; simpl; rewrite Hp, Hu|constructor|]. simpl held.
      apply covered_raises; [apply sorted_ids_sorted|by intros r id ?%elem_of_empty|]. intros H Hin _. apply covered_inserts. apply Forall_forall. intros e' He'. apply Hin.
      apply elem_sorted_ids. rewrite highest_lookup. rewrite decide_False; [done|]. intros Hn. assert (e' ∈ api.of_pid (PersistenceId e') (e :: evs)) as Hx by (by apply list_elem_of_filter).
      rewrite Hn in Hx. by apply elem_of_nil in Hx.
    + destruct (existsb _ evs) eqn:Hs; [done|]. intros [= <-] _. eapply (phase_loop _ _ _ (tenant, PersistenceId e) _ rounds); [done..| | |by left].
      * simpl. rewrite Hk. simpl. by rewrite Hp, Hu, Hs.
      * intros [n ex] H Hin. unfold checkedWrite. destruct (check _ _ _ _ _); [constructor|]. apply covered_bind.
        -- apply covered_inserts. eapply Forall_impl; [exact (single_forall _ _ Hs)|]. simpl. by intros e' ->.
        -- intros _ H' Hsub. apply covered_bind; [apply covered_statement; by apply Hsub|constructor].
  - intros [= <-] He. eapply (phase_delete _ _ _ (tenant, pid) to); try done; [by simpl; rewrite Hk|]. intros Hb. by apply (He Hb).
Qed.

Lemma exec_phase b t c s k a ws : phase b t c -> body c = Exec s k -> exec s (apply_writes (pending c) t) = Ok (a, ws) ->
  phase b t (mkConn (asked c) (k (Ok a)) (pending c ++ ws) (held c ∪ locks s a)).
Proof.
  intros [e Hb|r k' f Hh Hp Hm Hc Hb|r to Hh Hp Hm Hb Hr|r to Hu Hh Hp Hb|Hu Hh Hb|Hm Hw Hc] Hbody He.
  - congruence.
  - rewrite Hp, Hh in *. simpl in He. destruct Hb as [Hb|Hb]; rewrite Hb in Hbody.
    + destruct f as [|f]; [done|]. injection Hbody as <- <-. simpl in He. injection He as <- <-. destruct (events_store_revisions t !! r) as [n|] eqn:Hn.
      * eapply phase_replayed; [exact Hm| |simpl; apply Hc; set_solver]. cbn [body pending held].
        eapply (replays_next _ _ _ _ [] (SelectRevisionForUpdate r) _ (OneRow n) []); [constructor|reflexivity|simpl; by rewrite Hn|simpl; set_solver|reflexivity|done].
      * eapply (phase_loop _ _ _ r k' f); simpl; [set_solver|done|exact Hm|exact Hc|by right].
    + injection Hbody as <- <-. simpl in He. destruct (events_store_revisions t !! r) as [n|] eqn:Hn; injection He as <- <-; simpl.
      * eapply (phase_loop _ _ _ r k' f); simpl; [set_solver|done|exact Hm|exact Hc|by left].
      * eapply phase_replayed; [exact Hm| |simpl; apply Hc; set_solver]. cbn [body pending held].
        eapply (replays_next _ _ _ (claim_then 0 r ≫= k') [] (ClaimRevision r) _ (Affected 1) [WRevision r 0]); [|reflexivity|simpl; by rewrite Hn|simpl; set_solver|reflexivity|done].
        eapply (replays_next _ _ _ _ [] (SelectRevisionForUpdate r) _ NoRows []); [constructor|reflexivity|simpl; by rewrite Hn|simpl; set_solver|reflexivity|done].
  - rewrite Hp, Hh in *. rewrite Hb in Hbody. injection Hbody as <- <-. simpl in He. injection He as <- <-. destruct (events_store_revisions t !! r) as [n|] eqn:Hn.
    + eapply phase_replayed; [exact Hm| |]; cbn [body pending held].
      * eapply (replays_next _ _ _ _ [] (SelectRevisionForUpdate r) _ (OneRow n) []); [constructor|reflexivity|simpl; by rewrite Hn|simpl; set_solver|reflexivity|done].
      * apply covered_Exec; [left; simpl; set_solver|]. intros a. constructor.
    + destruct b; [by destruct (Hr eq_refl)|]. apply (phase_unlocked _ _ _ r to); simpl; [done|set_solver|done|done].
  - rewrite Hb in Hbody. injection Hbody as <- <-. apply phase_deleted; simpl; [done|rewrite Hh; set_solver|done].
  - congruence.
  - rewrite Hbody in *. inversion Hc as [| |? ? ? Hs Hk]; subst. assert (record_of s ∈ held c ∪ locks s a) as Hin' by (destruct Hs as [Hin|(r & n & -> & _)]; simpl; set_solver).
    apply phase_locked; [|apply Forall_app; split|apply Hk]; simpl.
    + intros Hb. destruct (Hm Hb) as (m & Hm' & Hr). exists m. split; [done|]. eapply replays_exec; [eapply replays_more; [exact Hr|set_solver]|done|exact He].
    + eapply Forall_impl; [exact Hw|]. simpl. set_solver.
    + eapply Forall_impl; [by eapply exec_writes|]. simpl. by intros w ->.
Qed.

(** Another connection's commit, which is about records it holds. *)
Lemma frame_phase b t t' c : (b = true -> forall r, r ∈ held c -> same_record t t' r) ->
  (forall r, events_store_revisions t !! r <> None -> events_store_revisions t' !! r <> None) -> phase b t c -> phase b t' c.
Proof.
  intros Hs Hmono [e Hb|r k' f Hh Hp Hm Hc Hb|r to Hh Hp Hm Hb Hr|r to Hu Hh Hp Hb|Hu Hh Hb|Hm Hw Hc].
  - by eapply phase_failed.
  - by eapply phase_loop.
  - eapply phase_delete; eauto.
  - by eapply phase_unlocked.
  - by eapply phase_deleted.
  - apply phase_locked; [|done|done]. intros Hb. destruct (Hm Hb) as (m & Hm' & Hr). exists m. split; [done|]. eapply replays_frame; [exact Hr|by apply Hs].
Qed.

Lemma apply_keeps_revisions ws (t : tables J) r : events_store_revisions t !! r <> None -> events_store_revisions (apply_writes ws t) !! r <> None.
Proof.
  revert t. induction ws as [|w ws IH]; intros t Ht; [done|]. simpl. apply IH. destruct w as [k v|r' n]; simpl; [done|].
  destruct (decide (r' = r)) as [->|]; [by rewrite lookup_insert_eq|by rewrite lookup_insert_ne].
Qed.

(** A connection that is not about to roll back, nor a deletion that found no
    row and is about to commit, wrote to records it holds. *)
Lemma phase_writes b t c : phase b t c -> (forall e, body c <> Fail e) -> b = true \/ body c <> Ret tt -> Forall (fun w => write_record w ∈ held c) (pending c).
Proof.
  intros [e Hb|r k' f Hh Hp Hm Hc Hb|r to Hh Hp Hm Hb Hr|r to Hu Hh Hp Hb|Hu Hh Hb|Hm Hw Hc] Hnf Hd; [by destruct (Hnf e)|rewrite Hp; constructor..| |done].
  destruct Hd; congruence.
Qed.

(** ** The invariant *)
Record inv (careful : bool) (t0 : tables J) (s : state J) : Prop := {
  inv_serial : careful = true -> serial t0 (log s) = Some (committed s);
  inv_phase : forall i c, conns s !! i = Some c -> phase careful (committed s) c;
  inv_strict : forall i c, conns s !! i = Some c -> strict (body c);
  inv_exclusive : forall i j (c c' : conn J) r, i <> j -> conns s !! i = Some c -> conns s !! j = Some c' -> r ∈ held c -> r ∈ held c' -> False
}.

(** A row is locked when nobody else has it. *)
Lemma locks_free (s : state J) i j c c' q k a ws r : i <> j -> conns s !! i = Some c -> conns s !! j = Some c' -> body c = Exec q k -> ~ waits s i j ->
  exec q (visible s c) = Ok (a, ws) -> r ∈ locks q a -> r ∉ held c'.
Proof.
  intros Hne Hi Hj Hb Hw He Hr Hh. apply Hw. exists c, c', q, k. split_and!; [done..|].
  destruct q as [r'|r'|r' n|r' n|key v b|r' n]; simpl in *.
  - injection He as <- <-. destruct (events_store_revisions (visible s c) !! r') as [n|] eqn:Hv; [|by apply elem_of_empty in Hr]. apply elem_of_singleton in Hr as ->. done.
  - destruct (events_store_revisions (visible s c) !! r') as [n|] eqn:Hv; injection He as <- <-; [by apply elem_of_empty in Hr|].
    apply elem_of_singleton in Hr as ->. split; [|done]. unfold visible in Hv.
    destruct (events_store_revisions (committed s) !! r') eqn:Hc; [|done]. exfalso. by apply (apply_keeps_revisions (pending c) (committed s) r'); [rewrite Hc|].
  - by apply elem_of_singleton in Hr as ->.
  - destruct (bigint n); [|done]. destruct (events_store_revisions _ !! _); injection He as <- <-; [|by apply elem_of_empty in Hr]. by apply elem_of_singleton in Hr as ->.
  - by apply elem_of_empty in Hr.
  - by apply elem_of_empty in Hr.
Qed.

Lemma serial_snoc t l q t' t2 : serial t l = Some t' -> perform q [] t' = (Ok tt, t2) -> serial t (l ++ [q]) = Some t2.
Proof.
  revert t. induction l as [|q' l IH]; intros t Hs Hp; simpl in *; [injection Hs as ->; by rewrite Hp|].
  destruct (perform q' [] t) as [[[]|] t1]; [|done]. by apply IH.
Qed.

(** A connection that has run to its end did what the call alone does. *)
Lemma phase_done t c : phase true t c -> body c = Ret tt -> perform (asked c) [] t = (Ok tt, apply_writes (pending c) t).
Proof.
  intros [e Hb|r k' f Hh Hp Hm Hc Hb|r to Hh Hp Hm Hb Hr|r to Hu Hh Hp Hb|Hu Hh Hb|Hm Hw Hc] Hd.
  - congruence.
  - rewrite Hd in Hb. destruct Hb as [Hb|Hb]; [by destruct f|done].
  - by rewrite Hd in Hb.
  - done.
  - done.
  - destruct (Hm eq_refl) as (m & Hm' & Hr). unfold postgres.perform. rewrite Hm'. apply replays_eval in Hr. rewrite Hd in Hr. unfold transact. simpl.
    pose proof (run_nil m t) as Hn. destruct (run_tx m [] t) as [res fs] eqn:E. simpl in Hn. subst fs.
    change res with ((res, @nil (option string)).1) in E. unfold eval in Hr at 1. rewrite E in Hr. simpl in Hr. by rewrite Hr.
Qed.

Lemma conn_step_inv b t0 s s' : step s s' -> (b = true -> prudent s s') -> inv b t0 s -> inv b t0 s'.
Proof.
  intros Hs Hpru [Hser Hph Hst Hex]. destruct Hs as [t cs l i rounds q m Hi Hm|t cs l i c q k a ws Hi Hb Hnb He|t cs l i c q k m Hi Hb|t cs l i c Hi Hb|t cs l i c Hi]; simpl in *.
  - split; simpl; [done|..].
    + intros j c [[<- <-]|[_ Hj]]%lookup_insert_Some; [|by eapply Hph].
      eapply begin_phase; [exact Hm|]. intros Hb. destruct (Hpru Hb) as [_ Hest]. apply (Hest i (mkConn q m [] ∅)); simpl; [done|by rewrite lookup_insert_eq].
    + intros j c [[<- <-]|[_ Hj]]%lookup_insert_Some; [by eapply strict_program|by eapply Hst].
    + intros j j' c c' r Hne [[<- <-]|[_ Hj]]%lookup_insert_Some [[<- <-]|[_ Hj']]%lookup_insert_Some; simpl; try set_solver.
  - pose proof (Hph i c Hi) as Hpi. pose proof (Hst i c Hi) as Hsi. rewrite Hb in Hsi. inversion Hsi as [| |? ? _ Hk]; subst. split; simpl; [done|..].
    + intros j c' [[<- <-]|[_ Hj]]%lookup_insert_Some; [by eapply exec_phase|by eapply Hph].
    + intros j c' [[<- <-]|[_ Hj]]%lookup_insert_Some; [apply Hk|by eapply Hst].
    + assert (forall j c' r, i <> j -> cs !! j = Some c' -> r ∈ held c ∪ locks q a -> r ∈ held c' -> False) as Hnew.
      { intros j c' r Hne Hj [Hr|Hr]%elem_of_union Hr'; [by apply (Hex i j c c' r)|].
        by apply (locks_free (mkState t cs l) i j c c' q k a ws r). }
      intros j j' c1 c2 r Hne [[<- <-]|[Hij Hj]]%lookup_insert_Some [[<- <-]|[Hij' Hj']]%lookup_insert_Some; simpl; [done|by apply (Hnew j')| |by apply (Hex j j')].
      intros H1 H2. by apply (Hnew j c1 r).
  - pose proof (Hst i c Hi) as Hsi. rewrite Hb in Hsi. inversion Hsi as [| |? ? Hf _]; subst. destruct (Hf m) as [m' Hm']. split; simpl; [done|..].
    + intros j c' [[<- <-]|[_ Hj]]%lookup_insert_Some; [by eapply phase_failed|by eapply Hph].
    + intros j c' [[<- <-]|[_ Hj]]%lookup_insert_Some; [simpl; rewrite Hm'; constructor|by eapply Hst].
    + intros j j' c1 c2 r Hne [[<- <-]|[Hij Hj]]%lookup_insert_Some [[<- <-]|[Hij' Hj']]%lookup_insert_Some; simpl;
        [done|by apply (Hex i j')|by apply (Hex j i)|by apply (Hex j j')].
  - pose proof (Hph i c Hi) as Hpi. split; simpl.
    + intros ->. eapply serial_snoc; [by apply Hser|by apply phase_done].
    + intros j c' [Hne Hj]%lookup_delete_Some. eapply frame_phase; [| |by eapply Hph].
      * intros Hbt r Hr. apply other_apply. eapply Forall_impl; [eapply phase_writes; [exact Hpi|by rewrite Hb|by left]|]. simpl. intros w Hw Heq. rewrite Heq in Hw. by apply (Hex i j c c' r).
      * intros r. apply apply_keeps_revisions.
    + intros j c' [_ Hj]%lookup_delete_Some. by eapply Hst.
    + intros j j' c1 c2 r Hne [_ Hj]%lookup_delete_Some [_ Hj']%lookup_delete_Some. by apply (Hex j j').
  - split; simpl; [done|..].
    + intros j c' [_ Hj]%lookup_delete_Some. by eapply Hph.
    + intros j c' [_ Hj]%lookup_delete_Some. by eapply Hst.
    + intros j j' c1 c2 r Hne [_ Hj]%lookup_delete_Some [_ Hj']%lookup_delete_Some. by apply (Hex j j').
Qed.

Lemma pg_inv_start b t0 : inv b t0 (mkState t0 ∅ []).
Proof. split; simpl; [done|by intros ? ? ?%lookup_empty_Some..|]. intros ? ? ? ? ? _ ?%lookup_empty_Some. done. Qed.

Lemma prudent_inv t0 s : rtc prudent (mkState t0 ∅ []) s -> inv true t0 s.
Proof.
  intros Hrun. generalize (pg_inv_start true t0). induction Hrun as [|s1 s2 s3 Hs _ IH]; [done|]. intros H0. apply IH.
  destruct Hs as [Hs Hp]. by eapply conn_step_inv.
Qed.

Lemma conn_reachable_inv t0 s : rtc step (mkState t0 ∅ []) s -> inv false t0 s.
Proof.
  intros Hrun. generalize (pg_inv_start false t0). induction Hrun as [|s1 s2 s3 Hs _ IH]; [done|]. intros H0. apply IH. by eapply conn_step_inv.
Qed.

(** C11: Whatever connections are opened, whatever they write, however their
    statements interleave, whichever statements the database refuses and
    whichever connections are lost: as long as every deletion is begun on a
    record that has its revision row at that time ([prudent]), the tables are
    what the committed calls make of them one after the other, each run alone,
    in the order they committed, and each of those calls succeeds. (Without
    the condition this fails: a deletion that finds no revision row takes no
    lock.) *)
Theorem serializable t0 s : rtc prudent (mkState t0 ∅ []) s -> serial t0 (log s) = Some (committed s).
Proof. intros Hrun. by apply (inv_serial _ _ _ (prudent_inv _ _ Hrun)). Qed.

(** ** Waiting *)

(** A connection waits for a record another holds, above all it holds. *)
Lemma waits_above b t0 s i j : inv b t0 s -> waits s i j -> (exists j', waits s j j') ->
  exists c q k c', conns s !! i = Some c /\ body c = Exec q k /\ conns s !! j = Some c' /\ record_of q ∈ held c' /\ above (held c) (record_of q).
Proof.
  intros [_ Hph _ Hex] (c & c' & q & k & Hne & Hi & Hj & Hb & Hway) (j' & cj & _ & qj & kj & _ & Hj2 & _ & Hbj & _). rewrite Hj in Hj2. injection Hj2 as <-.
  assert (record_of q ∈ held c') as Hh.
  { assert (forall x v, WEvent x v ∈ pending c' -> x.1 ∈ held c') as Hp.
    { intros x v Hin. pose proof (phase_writes _ _ _ (Hph j c' Hj)) as Hf. specialize (Hf ltac:(by rewrite Hbj) ltac:(right; by rewrite Hbj)). rewrite Forall_forall in Hf. by apply (Hf _ Hin). }
    destruct q as [r|r|r n|r n|x v ign|r n]; simpl in *; [by destruct Hway as [_ ?]|by destruct Hway as [_ ?]|done|done| |].
    - destruct Hway as [w Hw]. by apply (Hp _ _ Hw).
    - destruct Hway as (x & w & <- & _ & _ & Hw). by apply (Hp _ _ Hw). }
  exists c, q, k, c'. split_and!; try done.
  destruct (Hph i c Hi) as [e Hf|r k' f Hh' _ _ _ _|r to Hh' _ _ _ _|r to _ Hh' _ _|_ _ Hr|_ _ Hc].
  - congruence.
  - rewrite Hh'. by intros r' ?%elem_of_empty.
  - rewrite Hh'. by intros r' ?%elem_of_empty.
  - rewrite Hh'. by intros r' ?%elem_of_empty.
  - congruence.
  - rewrite Hb in Hc. inversion Hc as [| |? ? ? Hs _]; subst. destruct Hs as [Hin|(r & n & -> & Hab)]; [|done]. by destruct (Hex i j c c' (record_of q)).
Qed.

Definition waited_for (s : state J) (tenant : string) (i : nat) : option string :=
  c ← conns s !! i; match body c with Exec q _ => if decide ((record_of q).1 = tenant) then Some (record_of q).2 else None | _ => None end.

(** C31: However the connections interleave, no set of them waits only for each
    other: of several that wait, one waits for a connection that runs. *)
Theorem writers_never_deadlock t0 s D : rtc step (mkState t0 ∅ []) s -> D <> [] -> ~ (forall i, i ∈ D -> exists j, j ∈ D /\ waits s i j).
Proof.
  intros Hrun Hne Hall. pose proof (conn_reachable_inv _ _ Hrun) as Hinv.
  assert (forall i, i ∈ D -> exists c q k j c', j ∈ D /\ conns s !! i = Some c /\ body c = Exec q k /\ conns s !! j = Some c' /\ record_of q ∈ held c' /\ above (held c) (record_of q)) as Hw.
  { intros i Hi. destruct (Hall i Hi) as (j & Hj & Hij). destruct (Hall j Hj) as (j' & _ & Hjj').
    destruct (waits_above false t0 s i j Hinv Hij) as (c & q & k & c' & ?); [eauto|]. exists c, q, k, j, c'. tauto. }
  destruct D as [|i0 D]; [done|]. set (l := i0 :: D) in *. destruct (Hw i0) as (c0 & q0 & k0 & _ & _ & _ & Hc0 & Hb0 & _); [left|].
  set (tenant := (record_of q0).1). destruct (adoption_fences.greatest (omap (waited_for s tenant) l)) as (m & Hm & Hmax).
  { intros Hnil. assert ((record_of q0).2 ∈ omap (waited_for s tenant) l) as Hin; [|by rewrite Hnil in Hin; apply elem_of_nil in Hin].
    apply list_elem_of_omap. exists i0. split; [left|]. unfold waited_for. rewrite Hc0. simpl. rewrite Hb0. by rewrite decide_True. }
  apply list_elem_of_omap in Hm as (i & Hi & Hm). destruct (Hw i Hi) as (c & q & k & j & c' & Hj & Hc & Hb & Hc' & Hheld & _).
  unfold waited_for in Hm. rewrite Hc in Hm. simpl in Hm. rewrite Hb in Hm. destruct (decide _) as [Ht|]; [|done]. injection Hm as <-.
  destruct (Hw j Hj) as (c2 & q2 & k2 & j2 & c2' & _ & Hc2 & Hb2 & _ & _ & Hab). rewrite Hc' in Hc2. injection Hc2 as <-.
  destruct (Hab _ Hheld) as [Ht2 Hlt]. assert ((record_of q2).2 ∈ omap (waited_for s tenant) l) as Hin.
  { apply list_elem_of_omap. exists j. split; [done|]. unfold waited_for. rewrite Hc'. simpl. rewrite Hb2. rewrite decide_True; [done|]. congruence. }
  specialize (Hmax _ Hin). congruence.
Qed.

(** ** Executing a schedule *)
Definition writes_key (p : key -> bool) (w : write J) : bool := match w with WEvent k _ => p k | WRevision _ _ => false end.

Definition in_the_wayb (s : state J) (c c' : conn J) (q : stmt J) : bool :=
  match q with
  | SelectRevisionForUpdate r => bool_decide (events_store_revisions (visible s c) !! r <> None) && bool_decide (r ∈ held c')
  | ClaimRevision r => bool_decide (events_store_revisions (committed s) !! r = None) && bool_decide (r ∈ held c')
  | RaiseRevision r _ | SetRevision r _ => bool_decide (r ∈ held c')
  | InsertEvent k _ _ => existsb (writes_key (fun k' => bool_decide (k' = k))) (pending c')
  | DeleteUpTo r n => existsb (writes_key (fun k => bool_decide (k.1 = r) && (k.2 <=? n)%N && match events_store (visible s c) !! k with Some _ => true | None => false end)) (pending c')
  end.

Lemma writes_key_spec p ws : existsb (writes_key p) ws = true <-> exists k v, p k = true /\ WEvent k v ∈ ws.
Proof.
  rewrite existsb_exists. split.
  - intros ([k v|r n] & Hin & Hp); [|done]. exists k, v. split; [done|]. by apply list_elem_of_In.
  - intros (k & v & Hp & Hin). exists (WEvent k v). split; [by apply list_elem_of_In|done].
Qed.

Lemma in_the_way_dec s c c' q : in_the_way s c c' q -> in_the_wayb s c c' q = true.
Proof.
  destruct q as [r|r|r n|r n|k v b|r n]; simpl; rewrite ?andb_true_iff, ?bool_decide_eq_true; try done.
  - intros [w Hw]. apply writes_key_spec. exists k, w. by rewrite bool_decide_eq_true.
  - intros (k & w & Hk & Hle & Hv & Hw). apply writes_key_spec. exists k, w. split; [|done]. rewrite (bool_decide_true _ Hk). simpl.
    apply N.leb_le in Hle as ->. by destruct (events_store _ !! k).
Qed.

Definition waitingb (s : state J) (i : nat) (c : conn J) (q : stmt J) : bool :=
  existsb (fun jc => negb (jc.1 =? i)%nat && in_the_wayb s c jc.2 q) (map_to_list (conns s)).

(** Connection [i] runs its next statement, commits or rolls back; [None] when
    it waits. *)
Definition run_conn (s : state J) (i : nat) : option (state J) :=
  c ← conns s !! i;
  match body c with
  | Ret _ => Some (mkState (apply_writes (pending c) (committed s)) (delete i (conns s)) (log s ++ [asked c]))
  | Fail _ => Some (mkState (committed s) (delete i (conns s)) (log s))
  | Exec q k =>
    if waitingb s i c q then None
    else Some (match exec q (visible s c) with
      | Ok (a, ws) => mkState (committed s) (<[i := mkConn (asked c) (k (Ok a)) (pending c ++ ws) (held c ∪ locks q a)]> (conns s)) (log s)
      | Err m => mkState (committed s) (<[i := mkConn (asked c) (k (Err m)) (pending c) (held c)]> (conns s)) (log s)
      end)
  end.

Lemma run_conn_step s i s' : run_conn s i = Some s' -> step s s'.
Proof.
  unfold run_conn. destruct s as [t cs l]. simpl. destruct (cs !! i) as [c|] eqn:Hi; [|done]. simpl. destruct (body c) as [[]|e|q k] eqn:Hb.
  - intros [= <-]. by apply step_commit.
  - intros [= <-]. by eapply step_rollback.
  - destruct (waitingb _ _ _ _) eqn:Hw; [done|]. intros [= <-]. unfold visible. simpl. destruct (exec q (apply_writes (pending c) t)) as [[a ws]|m] eqn:He.
    + eapply step_exec; [done|done| |done]. intros j (c1 & c' & q' & k' & Hne & Hi' & Hj & Hb' & Hway). simpl in *. rewrite Hi in Hi'. injection Hi' as <-. rewrite Hb in Hb'. injection Hb' as <- _.
      apply not_true_iff_false in Hw. apply Hw. unfold waitingb. apply existsb_exists. exists (j, c'). split; [by apply list_elem_of_In, elem_of_map_to_list|]. simpl.
      rewrite (in_the_way_dec _ _ _ _ Hway), andb_true_r. apply negb_true_iff, Nat.eqb_neq. done.
    + by eapply step_refused.
Qed.

(** A schedule: requests that arrive on fresh connections, and turns. *)
Inductive turn := Begin (i rounds : nat) (q : request) | Run (i : nat).

Definition schedule (s : state J) (x : turn) : option (state J) :=
  match x with
  | Run i => run_conn s i
  | Begin i rounds q =>
    match program rounds q, conns s !! i with
    | Ok (Some m), None => Some (mkState (committed s) (<[i := mkConn q m [] ∅]> (conns s)) (log s))
    | _, _ => None
    end
  end.
Fixpoint schedule_all (s : state J) (xs : list turn) : option (state J) :=
  match xs with [] => Some s | x :: xs => s' ← schedule s x; schedule_all s' xs end.

Lemma schedule_step s x s' : schedule s x = Some s' -> step s s'.
Proof.
  destruct x as [i rounds q|i]; [|by apply run_conn_step]. unfold schedule.
  destruct (program rounds q) as [[m|]|] eqn:Hp; [|done|done]. destruct (conns s !! i) eqn:Hi; [done|]. intros [= <-]. destruct s as [t cs l]. by eapply step_begin.
Qed.

Lemma schedule_reaches s xs s' : schedule_all s xs = Some s' -> rtc step s s'.
Proof.
  revert s. induction xs as [|x xs IH]; intros s; cbn [schedule_all]; [intros [= ->]; apply rtc_refl|].
  intros (s1 & Hs & Hr)%bind_Some. eapply rtc_l; [by eapply schedule_step|by apply IH].
Qed.

(** The same with a look at every deletion that begins. *)
Definition establishedb (t : tables J) (q : request) : bool :=
  match q with
  | RWrite _ _ _ => true
  | RDelete sc pid _ => match scopeKey sc with Ok tenant => bool_decide (events_store_revisions t !! (tenant, pid) <> None) | Err _ => true end
  end.
Definition careful_turn (s : state J) (x : turn) : bool := match x with Begin _ _ q => establishedb (committed s) q | Run _ => true end.
Fixpoint careful_all (s : state J) (xs : list turn) : bool :=
  match xs with [] => true | x :: xs => careful_turn s x && match schedule s x with Some s' => careful_all s' xs | None => false end end.

Lemma careful_prudent s x s' : schedule s x = Some s' -> careful_turn s x = true -> prudent s s'.
Proof.
  intros Hs Hc. split; [by eapply schedule_step|]. intros j c Hn Hj. destruct x as [i rounds q|i]; simpl in *.
  - destruct (postgres.program marshal marshalMetadata rounds q) as [[m|]|]; [|done|done]. destruct (conns s !! i) eqn:Hi; [done|]. injection Hs as <-. simpl in Hj.
    destruct (decide (i = j)) as [->|Hne]; [|by rewrite lookup_insert_ne, Hn in Hj]. rewrite lookup_insert_eq in Hj. injection Hj as <-. simpl.
    destruct q as [|sc pid to]; [done|]. intros tenant Ht. simpl in Hc. rewrite Ht in Hc. by apply bool_decide_eq_true in Hc.
  - unfold run_conn in Hs. destruct (conns s !! i) as [ci|] eqn:Hi; [|done]. simpl in Hs. assert (i <> j) as Hne by (intros ->; congruence). exfalso.
    destruct (body ci) as [|e|q k]; [injection Hs as <-; simpl in Hj; by rewrite lookup_delete_ne, Hn in Hj..|].
    destruct (waitingb _ _ _ _); [done|]. destruct (exec q _) as [[a ws]|m]; injection Hs as <-; simpl in Hj; by rewrite lookup_insert_ne, Hn in Hj.
Qed.

Lemma careful_reaches s xs s' : schedule_all s xs = Some s' -> careful_all s xs = true -> rtc prudent s s'.
Proof.
  revert s. induction xs as [|x xs IH]; intros s; cbn [schedule_all careful_all]; [intros [= ->] _; apply rtc_refl|].
  intros (s1 & Hs & Hr)%bind_Some (Hc & Hcs)%andb_prop. rewrite Hs in Hcs. eapply rtc_l; [by eapply careful_prudent|by apply IH].
Qed.
End Concurrent.
End postgres_concurrent.
