(* ===== verification/PostgresProjection.v ===== *)
(** * Projections over the PostgreSQL stores

    [pg_offsets]: the offset store of [src/persistence/postgres/offset_store.go].
    [pg_journal]: the events store as the journal of the projection runner,
    which keeps the contract the runner relies on while no two events of a
    shard share a timestamp; both stores then carry the theorems of
    [ProjectionSpec.v]. *)

From S2P Require Import Prelude GoStrings Tenancy Persistence Egopb StoreApi EventStore EventSourced Projection ProjectionSpec Postgres PostgresSpec.
From Stdlib Require Import ZArith Lia.
Open Scope string_scope.
Open Scope list_scope.
Open Scope urd_scope.

Module pg_offsets.
Import egopb postgres.

(** [offsets_store], by projection and shard: the offset and its time. *)
Abbreviation OffsetStore := (gmap (string * N) (Z * Z)).

Definition WriteOffset (x : OffsetStore) (offset : Offset) : result string unit * OffsetStore :=
  if bigint (ShardNumber offset) then (Ok tt, <[(ProjectionName offset, ShardNumber offset) := (OffsetValue offset, OffsetTimestamp offset)]> x)
  else (Err out_of_range, x).

Definition GetCurrentOffset (x : OffsetStore) (projectionName : string) (shardNumber : N) : result string (option Offset) :=
  if bigint shardNumber then Ok ((fun v => mkOffset shardNumber projectionName v.1 v.2) <$> x !! (projectionName, shardNumber))
  else Err out_of_range.

(** Only the offset is set; its time stays. *)
Definition ResetOffset (x : OffsetStore) (projectionName : string) (value : Z) : OffsetStore :=
  map_imap (fun k v => Some (if bool_decide (k.1 = projectionName) then (value, v.2) else v)) x.

#[export] Instance offsets : projection.Offsets OffsetStore := {|
  projection.WriteOffset := WriteOffset;
  projection.GetCurrentOffset := GetCurrentOffset;
  projection.ResetOffset o n v := Some (Ok tt, ResetOffset o n v)
|}.

#[export] Instance offsets_laws : projection_spec.OffsetsLaws OffsetStore.
Proof.
  refine {| projection_spec.oview := fun o n sh => (fun v => mkOffset sh n v.1 v.2) <$> o !! (n, sh) |}.
  - intros o n sh r. simpl. unfold GetCurrentOffset. destruct (bigint sh); [|done]. by intros [= <-].
  - intros o off o'. simpl. unfold WriteOffset. destruct (bigint _); [|done]. intros [= <-] n sh. case_decide as Hd.
    + injection Hd as -> ->. rewrite lookup_insert_eq. simpl. by destruct off.
    + by rewrite lookup_insert_ne.
  - intros o off e o'. simpl. unfold WriteOffset. destruct (bigint _); [done|]. by intros [= _ <-].
Defined.

(** A reset reaches every shard of the projection and no other projection. *)
Lemma reset_reaches o name value n sh : projection_spec.oview (ResetOffset o name value) n sh =
  (fun off => if bool_decide (n = name) then mkOffset sh n value (OffsetTimestamp off) else off) <$> projection_spec.oview o n sh.
Proof.
  simpl. unfold ResetOffset. rewrite map_lookup_imap. destruct (o !! (n, sh)) as [v|]; [|done]. simpl. by destruct (bool_decide (n = name)).
Qed.
End pg_offsets.

Module pg_journal.
Import persistence egopb postgres postgres_spec projection projection_spec.

Section Journal.
Context {J : Type}.
Context (unmarshal : string -> result string Any) (unmarshalMetadata : J -> result string (gmap string string)).
Context (scan : gmap key (row J) -> list (key * row J)).
Hypothesis scan_perm : forall m, scan m ≡ₚ map_to_list m.
Abbreviation decode := (decode unmarshal unmarshalMetadata).
Abbreviation scanEvents := (scanEvents unmarshal unmarshalMetadata).
Abbreviation reads := (Forall2 (fun kv e => decode kv.1 kv.2 = Ok e)).

(** Tables whose events are told apart, within a shard, by their time. *)
Record ordered := mkOrdered {
  tabs : tables J;
  tabs_ok : db_ok unmarshal unmarshalMetadata tabs;
  tabs_distinct : forall k k' v v', events_store tabs !! k = Some v -> events_store tabs !! k' = Some v' ->
    shard_number v = shard_number v' -> timestamp v = timestamp v' -> k = k'
}.

Definition message {A} (r : result store_error A) : result string A := rmap_err (fun e => match e with EStore m => m | _ => "" end) r.

#[export] Instance journal : Journal ordered := {|
  ShardOffsets j := message (postgres.ShardOffsets scan None (tabs j));
  GetShardEvents j sh off lim := message (postgres.GetShardEvents unmarshal unmarshalMetadata scan None (tabs j) sh off lim)
|}.

#[local] Instance timestamp_le_total : Total (timestamp_le (J := J)).
Proof. intros a b. unfold timestamp_le. lia. Qed.
#[local] Instance timestamp_le_trans : Transitive (timestamp_le (J := J)).
Proof. intros a b c. unfold timestamp_le. lia. Qed.

Definition shard_rows (j : ordered) (sh : N) : list (key * row J) :=
  merge_sort timestamp_le (scan (filter (fun kv => shard_number kv.2 = sh) (events_store (tabs j)))).
Definition slog (j : ordered) (sh : N) : list Event := match scanEvents (shard_rows j sh) with Ok evs => evs | Err _ => [] end.

Lemma elem_shard_rows j sh kv : kv ∈ shard_rows j sh <-> events_store (tabs j) !! kv.1 = Some kv.2 /\ shard_number kv.2 = sh.
Proof. apply (elem_scan scan scan_perm). Qed.

Lemma decode_row k v e : decode k v = Ok e -> Timestamp e = timestamp v /\ Shard e = shard_number v.
Proof.
  unfold postgres.decode. destruct (unmarshal _); simpl; [|done].
  destruct (match tenant_metadata v with Some j => _ | None => _ end); simpl; [|done]. by intros [= <-].
Qed.

Lemma slog_reads j sh : scanEvents (shard_rows j sh) = Ok (slog j sh) /\ reads (shard_rows j sh) (slog j sh).
Proof.
  destruct (scan_reads unmarshal unmarshalMetadata (shard_rows j sh)) as (evs & Hevs & Hf).
  { apply Forall_forall. intros kv [Hkv _]%elem_shard_rows. by apply (ok_decode _ _ _ (tabs_ok j)) in Hkv. }
  unfold slog. by rewrite Hevs.
Qed.

(** The order of the time is strict. *)
Lemma rows_strict j sh : StronglySorted (fun a b => (timestamp a.2 < timestamp b.2)%Z) (shard_rows j sh).
Proof.
  assert (NoDup (shard_rows j sh)) as Hnd by apply (NoDup_scan scan scan_perm).
  assert (StronglySorted timestamp_le (shard_rows j sh)) as Hs by (apply StronglySorted_merge_sort; apply _).
  assert (forall kv, kv ∈ shard_rows j sh -> events_store (tabs j) !! kv.1 = Some kv.2 /\ shard_number kv.2 = sh) as Hin by (intros kv; apply elem_shard_rows).
  induction Hs as [|a l Hs IH Hf]; [constructor|]. apply NoDup_cons in Hnd as [Hni Hnd]. constructor; [apply IH; [done|]; intros kv Hkv; apply Hin; by right|].
  rewrite Forall_forall in Hf |- *. intros b Hb. specialize (Hf _ Hb). unfold timestamp_le in Hf. apply Z.le_neq. split; [done|]. intros Heq. apply Hni.
  destruct (Hin a ltac:(left)) as [Ha Hsa]. destruct (Hin b ltac:(by right)) as [Hb' Hsb].
  assert (a.1 = b.1) as Hk by (eapply tabs_distinct; [exact Ha|exact Hb'|congruence|done]). destruct a as [k v], b as [k' v']. simpl in *. subst k'. rewrite Ha in Hb'. by injection Hb' as ->.
Qed.

Lemma slog_sorted j sh : StronglySorted before (slog j sh).
Proof.
  pose proof (rows_strict j sh) as Hs. destruct (slog_reads j sh) as [_ Hf]. induction Hf as [|kv e rows evs Hd Hf IH]; [constructor|].
  apply StronglySorted_inv in Hs as [Hs Hlt]. constructor; [by apply IH|]. apply Forall_forall. intros e' He'. eapply reads_elem in He' as (kv' & Hin & Hd'); [|exact Hf].
  rewrite Forall_forall in Hlt. specialize (Hlt _ Hin). apply decode_row in Hd as [Hd _]. apply decode_row in Hd' as [Hd' _]. unfold before. by rewrite Hd, Hd'.
Qed.

Lemma sorted_rows_unique (l l' : list (key * row J)) : StronglySorted (fun a b => (timestamp a.2 < timestamp b.2)%Z) l ->
  StronglySorted timestamp_le l' -> l ≡ₚ l' -> l = l'.
Proof.
  intros Hs Hs' Hp. apply (StronglySorted_unique_strong timestamp_le); [| |done|done].
  2:{ clear -Hs. induction Hs as [|a l Hs IH Hf]; constructor; [done|]. eapply Forall_impl; [exact Hf|]. unfold timestamp_le. simpl. lia. }
  intros a b Ha Hb Hab Hba. rewrite <- Hp in Hb. unfold timestamp_le in *. clear Hs' Hp l'. induction Hs as [|x l Hs IH Hf]; [by apply elem_of_nil in Ha|].
  rewrite Forall_forall in Hf. apply elem_of_cons in Ha as [->|Ha], Hb as [->|Hb]; [done|apply Hf in Hb; simpl in *; lia|apply Hf in Ha; simpl in *; lia|by apply IH].
Qed.

Lemma StronglySorted_filter {A} (R : relation A) (P : A -> Prop) `{!forall x, Decision (P x)} l : StronglySorted R l -> StronglySorted R (filter P l).
Proof.
  induction 1 as [|a l Hs IH Hf]; [constructor|]. rewrite filter_cons. case_decide; [|done]. constructor; [done|].
  rewrite Forall_forall in Hf |- *. intros b [_ Hb]%list_elem_of_filter. by apply Hf.
Qed.

(** What is read after an offset is what comes after it. *)
Lemma rows_after j sh off : merge_sort timestamp_le (scan (filter (fun kv => shard_number kv.2 = sh /\ (off < timestamp kv.2)%Z) (events_store (tabs j)))) =
  filter (fun kv => (off < timestamp kv.2)%Z) (shard_rows j sh).
Proof.
  symmetry. apply sorted_rows_unique; [apply StronglySorted_filter, rows_strict|apply StronglySorted_merge_sort; apply _|].
  apply NoDup_Permutation; [apply NoDup_filter, (NoDup_scan scan scan_perm)|apply (NoDup_scan scan scan_perm)|].
  intros kv. rewrite list_elem_of_filter, elem_shard_rows. etrans; [|symmetry; apply (elem_scan scan scan_perm)]. tauto.
Qed.

Lemma reads_filter off rows evs : reads rows evs -> reads (filter (fun kv => (off < timestamp kv.2)%Z) rows) (filter (fun e => (off < Timestamp e)%Z) evs).
Proof.
  induction 1 as [|kv e rows evs Hd _ IH]; [constructor|]. rewrite !filter_cons. pose proof (decode_row _ _ _ Hd) as [-> _]. case_decide; [by constructor|done].
Qed.

Lemma reads_unique rows evs evs' : reads rows evs -> reads rows evs' -> evs = evs'.
Proof.
  intros Hf. revert evs'. induction Hf as [|kv e rows evs Hd _ IH]; intros evs' Hf'; inversion Hf' as [|? e' ? ? Hd' Hf'']; subst; [done|].
  f_equal; [congruence|by apply IH].
Qed.

Lemma reads_scan rows evs : reads rows evs -> scanEvents rows = Ok evs.
Proof.
  intros Hf. destruct (scan_reads unmarshal unmarshalMetadata rows) as (evs' & -> & Hf'); [|by rewrite (reads_unique _ _ _ Hf Hf')].
  clear -Hf. induction Hf; constructor; eauto.
Qed.

(** The offsets of the shards. *)
Lemma shard_offsets_fold (rows : list (key * row J)) m sh : foldl shard_offset m rows !! sh =
  foldl (fun acc kv => if decide (shard_number kv.2 = sh) then Some (match acc with Some z => Z.max z (timestamp kv.2) | None => timestamp kv.2 end) else acc) (m !! sh) rows.
Proof.
  revert m. induction rows as [|kv rows IH]; intros m; [done|]. simpl. rewrite IH. f_equal. unfold shard_offset. case_decide as Hd.
  - subst. by rewrite lookup_partial_alter_eq.
  - by rewrite lookup_partial_alter_ne.
Qed.

Definition newest (rows : list (key * row J)) : option Z :=
  foldl (fun acc kv => Some (match acc with Some z => Z.max z (timestamp kv.2) | None => timestamp kv.2 end)) None rows.

Lemma newest_perm rows rows' : rows ≡ₚ rows' -> newest rows = newest rows'.
Proof.
  unfold newest. generalize (@None Z) as acc. intros acc Hp. revert acc. induction Hp as [|x l l' _ IH|x y l|l l' l'' _ IH _ IH']; intros acc; simpl; [done|apply IH| |by rewrite IH].
  f_equal. f_equal. destruct acc; lia.
Qed.

Lemma fold_shard sh (rows : list (key * row J)) acc :
  foldl (fun acc kv => if decide (shard_number kv.2 = sh) then Some (match acc with Some z => Z.max z (timestamp kv.2) | None => timestamp kv.2 end) else acc) acc rows =
  foldl (fun acc (kv : key * row J) => Some (match acc with Some z => Z.max z (timestamp kv.2) | None => timestamp kv.2 end)) acc (filter (fun kv => shard_number kv.2 = sh) rows).
Proof. revert acc. induction rows as [|kv rows IH]; intros acc; [done|]. rewrite filter_cons. simpl. case_decide; simpl; apply IH. Qed.

Lemma newest_sorted rows : StronglySorted (fun a b => (timestamp a.2 < timestamp b.2)%Z) rows -> newest rows = (fun kv => timestamp kv.2) <$> last rows.
Proof.
  induction rows as [|kv rows IH] using rev_ind; intros Hs; [done|]. unfold newest in *. rewrite foldl_snoc, last_snoc.
  assert (forall kv', kv' ∈ rows -> (timestamp kv'.2 < timestamp kv.2)%Z) as Hlt.
  { clear IH. induction rows as [|a rows IH']; [by intros ? ?%elem_of_nil|]. simpl in Hs. apply StronglySorted_inv in Hs as [Hs Hf]. rewrite Forall_forall in Hf.
    intros kv' [->|Hin]%elem_of_cons; [apply Hf, elem_of_app; right; left|by apply IH']. }
  rewrite IH; [|clear -Hs; induction rows as [|a rows IH]; [constructor|]; simpl in Hs; apply StronglySorted_inv in Hs as [Hs Hf]; constructor; [by apply IH|by apply Forall_app in Hf as [? _]]].
  simpl. destruct (last rows) as [kv'|] eqn:Hl; [|done]. simpl. f_equal. specialize (Hlt kv'). apply last_Some in Hl as [l ->]. specialize (Hlt ltac:(apply elem_of_app; right; left)). lia.
Qed.

Lemma reads_last rows evs : reads rows evs -> Timestamp <$> last evs = (fun kv => timestamp kv.2) <$> last rows.
Proof.
  induction 1 as [|kv e rows evs Hd Hf IH]; [done|]. destruct Hf as [|kv' e' rows' evs' Hd' Hf']; simpl in *; [|exact IH]. by apply decode_row in Hd as [-> _].
Qed.

#[export] Instance journal_laws : JournalLaws ordered.
Proof.
  refine {| projection_spec.log := slog |}.
  - intros j sh off lim evs next. simpl. unfold postgres.GetShardEvents, queried. destruct (bigint sh && bigint lim); [|done].
    rewrite rows_after, limit_rows_take. destruct (slog_reads j sh) as [_ Hf]. apply (reads_filter off) in Hf.
    rewrite (reads_scan (take (N.to_nat lim) (filter _ (shard_rows j sh))) (take (N.to_nat lim) (filter (fun e => (off < Timestamp e)%Z) (slog j sh)))) by (by apply Forall2_take).
    simpl. destruct (last _) as [e|] eqn:Hl; intros [= <- <-].
    + split; [done|]. intros e'. rewrite Hl. by intros [= <-].
    + split; [|done]. symmetry. by apply last_None.
  - intros j m sh. simpl. intros [= <-]. rewrite shard_offsets_fold, lookup_empty, fold_shard. destruct (slog_reads j sh) as [_ Hf]. rewrite (reads_last _ _ Hf), <- (newest_sorted _ (rows_strict j sh)).
    apply newest_perm. apply NoDup_Permutation; [apply NoDup_filter; rewrite scan_perm; apply NoDup_map_to_list|apply (NoDup_scan scan scan_perm)|].
    intros [k v]. rewrite list_elem_of_filter, scan_perm, elem_of_map_to_list, elem_shard_rows. simpl. tauto.
Defined.
End Journal.
End pg_journal.
