(* ===== verification/PostgresSchema.v ===== *)
(** * The schema migrator of the PostgreSQL stores

    [schema]: [src/persistence/postgres/schema.go] and [schema_migrator.go].
    The database is the recorded versions (the table [ego_schema_migrations],
    which may not exist) and the objects of its catalog; what a schema file
    does to the objects is a parameter, since it is SQL, and the database may
    refuse any statement. The advisory lock makes migrators take turns, so a
    run is sequential; a run stopped at any statement is completed by the
    next. *)

From S2P Require Import Prelude GoStrings.
From Stdlib Require Import ZArith Lia.
Open Scope string_scope.
Open Scope list_scope.
Open Scope urd_scope.

Module schema.

Inductive error :=
| ErrNotConnected
| ErrUnsupportedSchema
| ErrSchemaAhead (current latest : N)
| EReadDir (m : string)
| EBadName (name : string)
| EVersionZero (name : string)
| EDuplicate (previous name : string) (version : N)
| EReadFile (name m : string)
| EEmpty (name : string)
| ENoFiles (dir : string)
| EGap (version : N)
| EStatement (what m : string).

(** ** The embedded files *)
Record schemaFile := mkSchemaFile { version : N; name : string; sql : string }.

(** A directory entry: its name, whether it is a directory, and what reading
    it gives. *)
Record entry := mkEntry { entry_name : string; is_dir : bool; content : result string string }.

Definition has_suffix (suffix s : string) : bool :=
  match strip_prefix (reverse (b2l suffix)) (reverse (b2l s)) with Some _ => true | None => false end.

(** [strconv.ParseUint(prefix, 10, 32)]. *)
Definition parse_uint32 (s : bytes) : option N :=
  n ← parse_uint_list s; if (n <? 4294967296)%N then Some n else None.

Definition load_entry (byVersion : gmap N schemaFile) (e : entry) : result error (gmap N schemaFile) :=
  if is_dir e || negb (has_suffix ".sql" (entry_name e)) then Ok byVersion
  else
    match (match cut_list (b2l "_") (b2l (entry_name e)) with Some (prefix, _) => parse_uint32 prefix | None => None end) with
    | None => Err (EBadName (entry_name e))
    | Some v =>
      if (v =? 0)%N then Err (EVersionZero (entry_name e))
      else match byVersion !! v with
      | Some previous => Err (EDuplicate (name previous) (entry_name e) v)
      | None =>
        match content e with
        | Err m => Err (EReadFile (entry_name e) m)
        | Ok text =>
          if bool_decide (trim_space text = "") then Err (EEmpty (entry_name e))
          else Ok (<[v := mkSchemaFile v (entry_name e) text]> byVersion)
        end
      end
    end.

(** The files numbered from [v] on, [n] of them. *)
Fixpoint collect (byVersion : gmap N schemaFile) (n : nat) (v : N) : result error (list schemaFile) :=
  match n with
  | O => Ok []
  | S n =>
    match byVersion !! v with
    | None => Err (EGap v)
    | Some file => let? files := collect byVersion n (v + 1)%N in Ok (file :: files)
    end
  end.

Definition loadSchemaFiles (entries : result string (list entry)) (dir : string) : result error (list schemaFile) :=
  let? entries := rmap_err EReadDir entries in
  let? byVersion := rfold load_entry ∅ entries in
  if (size byVersion =? 0)%nat then Err (ENoFiles dir) else collect byVersion (size byVersion) 1.

Fixpoint pendingSchemaFiles (files : list schemaFile) (current : N) : list schemaFile :=
  match files with
  | [] => []
  | f :: rest => if (current <? version f)%N then files else pendingSchemaFiles rest current
  end.

Definition checkSchemaNotAhead (current latest : N) : result error unit :=
  if (latest <? current)%N then Err (ErrSchemaAhead current latest) else Ok tt.

(** ** Databases that predate recorded versions *)
Definition baselineMarkers : list string :=
  ["events_store.tenant_id"; "index.idx_events_store_shard"; "events_store_revisions"; "events_store.tenant_metadata"; "offsets_store"].

Fixpoint markers_found (found : gset string) (markers : list string) : N :=
  match markers with
  | [] => 0
  | m :: markers => if bool_decide (m ∈ found) then 1 + markers_found found markers else 0
  end%N.

Definition inferSchemaVersion (found : gset string) : result error N :=
  if bool_decide ("events_store" ∈ found) && negb (bool_decide (default "" (head baselineMarkers) ∈ found)) then Err ErrUnsupportedSchema
  else Ok (markers_found found baselineMarkers).

(** ** The migrator *)
Record database := mkDatabase { versions : option (gset N); objects : gset string }.

Definition highest (vs : gset N) : option N := match elements vs with [] => None | v :: l => Some (foldl N.max v l) end.

Section Migrator.
(** What the SQL of a file does to the objects of the database. *)
Context (ddl : string -> gset string -> result string (gset string)).

(** Statements take the next of [faults]. *)
Abbreviation faults := (list (option string)).
Definition M (A : Type) := faults -> database -> (result error A * faults) * database.
Definition ret {A} (a : A) : M A := fun fs d => ((Ok a, fs), d).
Definition fail {A} (e : error) : M A := fun fs d => ((Err e, fs), d).
Definition bind {A B} (m : M A) (f : A -> M B) : M B := fun fs d =>
  match m fs d with ((Ok a, fs), d) => f a fs d | ((Err e, fs), d) => ((Err e, fs), d) end.
Definition next_fault (fs : faults) : option string * faults := match fs with [] => (None, []) | f :: fs => (f, fs) end.
Definition stmt {A} (what : string) (f : database -> result string (A * database)) : M A := fun fs d =>
  let '(fault, fs) := next_fault fs in
  match fault with
  | Some m => ((Err (EStatement what m), fs), d)
  | None => match f d with Ok (a, d') => ((Ok a, fs), d') | Err m => ((Err (EStatement what m), fs), d) end
  end.

(** All or nothing: [Begin], the body, [Commit], or [Rollback]. *)
Definition atomically {A} (what : string) (body : M A) : M A := fun fs d =>
  match bind (stmt ("begin " +:+ what) (fun d => Ok (tt, d))) (fun _ => bind body (fun a => bind (stmt ("commit " +:+ what) (fun d => Ok (tt, d))) (fun _ => ret a))) fs d with
  | ((Ok a, fs), d') => ((Ok a, fs), d')
  | ((Err e, fs), _) => ((Err e, fs), d)
  end.

Definition recordedVersion : M (option N) := stmt "read the recorded version" (fun d => Ok (versions d ≫= highest, d)).
Definition readCatalog : M (gset string) := stmt "inspect the database" (fun d => Ok (objects d, d)).

Definition createVersions : M unit :=
  stmt "create ego_schema_migrations" (fun d => Ok (tt, mkDatabase (Some (default ∅ (versions d))) (objects d))).

Definition series (v : N) : gset N := list_to_set (N.of_nat <$> seq 1 (N.to_nat v)).

Definition recordBaseline : M N :=
  bind readCatalog (fun found =>
  match inferSchemaVersion found with
  | Err e => fail e
  | Ok v =>
    if (v =? 0)%N then ret 0%N
    else bind (stmt "record the baseline version" (fun d => Ok (tt, mkDatabase (Some (default ∅ (versions d) ∪ series v)) (objects d)))) (fun _ => ret v)
  end).

Definition applySchemaFile (f : schemaFile) : M unit :=
  atomically (name f)
    (bind (stmt ("apply " +:+ name f) (fun d => match ddl (sql f) (objects d) with Ok o => Ok (tt, mkDatabase (versions d) o) | Err m => Err m end)) (fun _ =>
     stmt ("record " +:+ name f) (fun d =>
       if bool_decide (version f ∈ default ∅ (versions d)) then Err "duplicate key value violates unique constraint"
       else Ok (tt, mkDatabase (Some (default ∅ (versions d) ∪ {[ version f ]})) (objects d))))).

Fixpoint applyAll (fs : list schemaFile) : M unit :=
  match fs with [] => ret tt | f :: fs => bind (applySchemaFile f) (fun _ => applyAll fs) end.

(** Under the lock; [files] is not empty. *)
Definition migrateLocked (files : list schemaFile) : M unit :=
  bind createVersions (fun _ =>
  bind recordedVersion (fun recorded =>
  bind (match recorded with Some v => ret v | None => recordBaseline end) (fun current =>
  match checkSchemaNotAhead current (default 0%N (version <$> last files)) with
  | Err e => fail e
  | Ok _ => applyAll (pendingSchemaFiles files current)
  end))).

(** The lock is released whatever happened; a failed release is an error only
    if there was none. *)
Definition Migrate (connected : bool) (files : result error (list schemaFile)) : M unit := fun fs d =>
  if negb connected then ((Err ErrNotConnected, fs), d)
  else match files with
  | Err e => ((Err e, fs), d)
  | Ok files =>
    bind (stmt "acquire a connection" (fun d => Ok (tt, d))) (fun _ =>
    bind (stmt "take the advisory lock" (fun d => Ok (tt, d))) (fun _ fs d =>
    let '((r, fs), d) := migrateLocked files fs d in
    let '((u, fs), d) := stmt "release the advisory lock" (fun d => Ok (tt, d)) fs d in
    ((match r, u with Ok _, Err e => Err e | _, _ => r end, fs), d))) fs d
  end.

Definition SchemaVersion (connected : bool) : M N := fun fs d =>
  if negb connected then ((Err ErrNotConnected, fs), d)
  else bind (stmt "look for ego_schema_migrations" (fun d => Ok (bool_decide (versions d <> None), d))) (fun exists_ =>
       if exists_ then bind recordedVersion (fun v => ret (default 0%N v)) else ret 0%N) fs d.
End Migrator.
End schema.
