(* ===== verification/PostgresSchemaSpec.v ===== *)
(** * Migrations are complete, resumable and idempotent *)

From S2P Require Import Prelude GoStrings PostgresSchema.
From Stdlib Require Import ZArith Lia.
Open Scope string_scope.
Open Scope list_scope.
Open Scope urd_scope.

Module schema_spec.
Import schema.

(** ** The files *)
Definition numbered (files : list schemaFile) : Prop := forall i f, files !! i = Some f -> version f = (N.of_nat i + 1)%N.

Lemma load_entry_wf m e m' : load_entry m e = Ok m' -> (forall v f, m !! v = Some f -> version f = v /\ v <> 0%N) -> forall v f, m' !! v = Some f -> version f = v /\ v <> 0%N.
Proof.
  unfold load_entry. intros H Hm. case_all_in H; try (by injection H as <-); [done|].
  intros v f [[<- <-]|[_ Hv]]%lookup_insert_Some; [simpl; by bool_prop|by apply Hm].
Qed.

Lemma rfold_wf entries m m' : rfold load_entry m entries = Ok m' -> (forall v f, m !! v = Some f -> version f = v /\ v <> 0%N) -> forall v f, m' !! v = Some f -> version f = v /\ v <> 0%N.
Proof.
  revert m. induction entries as [|e entries IH]; intros m H Hm; simpl in H; [by injection H as <-|].
  destruct (load_entry m e) as [m1|] eqn:He; [|done]. eapply IH; [exact H|]. by eapply load_entry_wf.
Qed.

Lemma collect_numbered m n v files : (forall v f, m !! v = Some f -> version f = v /\ v <> 0%N) -> collect m n v = Ok files ->
  length files = n /\ forall i f, files !! i = Some f -> version f = (v + N.of_nat i)%N /\ m !! version f = Some f.
Proof.
  intros Hm. revert v files. induction n as [|n IH]; intros v files; simpl; [by intros [= <-]|].
  destruct (m !! v) as [f|] eqn:Hv; [|done]. destruct (collect m n (v + 1)%N) as [rest|] eqn:Hc; [|done]. intros [= <-].
  apply IH in Hc as [Hl Hi]. split; [simpl; by rewrite Hl|]. destruct (Hm _ _ Hv) as [Hvf _]. intros [|i] f' Hf; simpl in Hf; [injection Hf as <-; split; [lia|by rewrite Hvf]|].
  apply Hi in Hf as [Hf ?]. split; [lia|done].
Qed.

(** Files that load are numbered from one without a gap, and there is one at
    least. *)
Lemma load_numbered entries dir files : loadSchemaFiles entries dir = Ok files -> numbered files /\ files <> [].
Proof.
  unfold loadSchemaFiles. destruct entries as [entries|]; [|done]. simpl. destruct (rfold load_entry ∅ entries) as [m|] eqn:Hm; [|done]. simpl.
  destruct (Nat.eqb_spec (size m) 0) as [|Hs]; [done|]. intros Hc. apply collect_numbered in Hc as [Hl Hi]; [|by eapply rfold_wf]. split.
  - intros i f Hf. apply Hi in Hf as [-> _]. lia.
  - intros ->. by apply Hs.
Qed.

Lemma markers_bound found l : (markers_found found l <= N.of_nat (length l))%N.
Proof. induction l as [|m l IH]; simpl; [done|]. case_bool_decide; lia. Qed.

Lemma pending_drop files current : numbered files -> pendingSchemaFiles files current = drop (N.to_nat current) files.
Proof.
  assert (forall l n, (forall i f, l !! i = Some f -> version f = (n + N.of_nat i + 1)%N) -> forall c, (n <= c)%N -> pendingSchemaFiles l c = drop (N.to_nat (c - n)) l) as H.
  { induction l as [|f l IH]; intros n Hn c Hle; [by rewrite drop_nil|]. simpl. pose proof (Hn 0%nat f eq_refl) as Hf.
    destruct (N.ltb_spec c (version f)).
    - by replace (c - n)%N with 0%N by lia.
    - rewrite (IH (n + 1)%N); [|intros i f' Hf'; rewrite (Hn (S i) f' Hf'); lia|lia].
      by replace (N.to_nat (c - n)) with (S (N.to_nat (c - (n + 1)))) by lia. }
  intros Hn. rewrite (H files 0%N); [by rewrite N.sub_0_r| |lia]. intros i f Hf. by rewrite (Hn i f Hf).
Qed.

(** ** The recorded versions *)
Lemma foldl_max_spec l v : foldl N.max v l ∈ v :: l /\ forall x, x ∈ v :: l -> (x <= foldl N.max v l)%N.
Proof.
  revert v. induction l as [|a l IH]; intros v; simpl.
  - split; [left|]. intros x ->%list_elem_of_singleton. done.
  - destruct (IH (N.max v a)) as [H1 H2]. split.
    + apply elem_of_cons in H1 as [H1|H1]; [|right; by right]. rewrite H1. destruct (N.max_spec v a) as [[_ ->]|[_ ->]]; [right; left|left].
    + assert (N.max v a <= foldl N.max (N.max v a) l)%N as Hm by (apply H2; left).
      intros x [->|[->|Hx]%elem_of_cons]%elem_of_cons; [lia|lia|apply H2; by right].
Qed.

Lemma highest_spec vs v : highest vs = Some v <-> v ∈ vs /\ forall x, x ∈ vs -> (x <= v)%N.
Proof.
  unfold highest. destruct (elements vs) as [|a l] eqn:E.
  - apply elements_empty_iff in E. split; [done|]. intros [Hv _]. exfalso. rewrite E in Hv. by apply elem_of_empty in Hv.
  - destruct (foldl_max_spec l a) as [H1 H2]. assert (forall x, x ∈ vs <-> x ∈ a :: l) as Hin by (intros x; by rewrite <- E, elem_of_elements). split.
    + intros [= <-]. split; [by apply Hin|]. intros x Hx. by apply H2, Hin.
    + intros [Hv Hmax]. f_equal. apply N.le_antisymm; [by apply Hmax, Hin|by apply H2, Hin].
Qed.

Lemma highest_union vs v : (forall x, x ∈ vs -> (x < v)%N) -> highest (vs ∪ {[ v ]}) = Some v.
Proof. intros Hv. apply highest_spec. split; [set_solver|]. intros x [Hx|Hx%elem_of_singleton]%elem_of_union; [apply Hv in Hx; lia|lia]. Qed.

Lemma highest_series v : v <> 0%N -> highest (∅ ∪ series v) = Some v.
Proof.
  intros Hv. apply highest_spec. unfold series. split.
  - rewrite union_empty_l_L, elem_of_list_to_set, list_elem_of_fmap. exists (N.to_nat v). split; [lia|]. apply elem_of_seq. lia.
  - intros x. rewrite union_empty_l_L, elem_of_list_to_set, list_elem_of_fmap. intros (n & -> & Hn%elem_of_seq). lia.
Qed.

Lemma highest_None vs : highest vs = None -> vs = ∅.
Proof. unfold highest. destruct (elements vs) as [|a l] eqn:E; [|done]. intros _. by apply elements_empty_iff, leibniz_equiv in E. Qed.

(** ** One file *)
Section Migrations.
Context (ddl : string -> gset string -> result string (gset string)).
Abbreviation applyAll := (applyAll ddl).
Abbreviation migrateLocked := (migrateLocked ddl).

Definition effect (f : schemaFile) (d : database) : result error database :=
  match ddl (sql f) (objects d) with
  | Err m => Err (EStatement ("apply " +:+ name f) m)
  | Ok o =>
    if bool_decide (version f ∈ default ∅ (versions d)) then Err (EStatement ("record " +:+ name f) "duplicate key value violates unique constraint")
    else Ok (mkDatabase (Some (default ∅ (versions d) ∪ {[ version f ]})) o)
  end.

Lemma apply_alone f d : applySchemaFile ddl f [] d = match effect f d with Ok d' => ((Ok tt, []), d') | Err e => ((Err e, []), d) end.
Proof.
  unfold applySchemaFile, atomically, effect, bind, stmt. simpl. destruct (ddl (sql f) (objects d)) as [o|m]; simpl; [|done]. by case_bool_decide.
Qed.

Lemma apply_faults f fs d r fs' d' : applySchemaFile ddl f fs d = ((r, fs'), d') ->
  (d' = d /\ exists e, r = Err e) \/ (effect f d = Ok d' /\ r = Ok tt).
Proof.
  unfold applySchemaFile, atomically, effect, bind, stmt, ret. intros H. case_all_in H; eauto 10.
Qed.

Fixpoint effects (l : list schemaFile) (d : database) : result error database :=
  match l with [] => Ok d | f :: l => let? d' := effect f d in effects l d' end.

Lemma applyAll_app l1 l2 d x : effects l1 d = Ok x -> applyAll (l1 ++ l2) [] d = applyAll l2 [] x.
Proof.
  revert d. induction l1 as [|f l1 IH]; intros d; simpl; [by intros [= <-]|]. destruct (effect f d) as [d1|] eqn:Hf; [|done]. simpl. intros Hx.
  unfold bind. rewrite apply_alone, Hf. by apply IH.
Qed.

(** Where files are applied, a fault stops between two of them. *)
Lemma applyAll_faults l fs d r fs' x : applyAll l fs d = ((r, fs'), x) -> exists l1 l2, l = l1 ++ l2 /\ effects l1 d = Ok x /\ (r = Ok tt -> l2 = []).
Proof.
  revert fs d. induction l as [|f l IH]; intros fs d; simpl; [intros [= <- <- <-]; by exists [], []|]. unfold bind.
  destruct (applySchemaFile ddl f fs d) as [[r1 fs1] d1] eqn:Ha. apply apply_faults in Ha as [[-> [e ->]]|[He ->]].
  - intros [= <- <- <-]. by exists [], (f :: l).
  - intros Hl. apply IH in Hl as (l1 & l2 & -> & Hx & Hr). exists (f :: l1), l2. simpl. rewrite He. done.
Qed.

Lemma effects_highest l d x c : effects l d = Ok x -> (versions d ≫= highest = Some c \/ (c = 0%N /\ default ∅ (versions d) = ∅)) ->
  (forall i f, l !! i = Some f -> version f = (c + N.of_nat i + 1)%N) -> l <> [] -> versions x ≫= highest = Some (c + N.of_nat (length l))%N.
Proof.
  revert d c. induction l as [|f l IH]; intros d c Hx Hc Hn Hne; [done|]. simpl in Hx. unfold effect in Hx. destruct (ddl _ _) as [o|]; [|done].
  case_bool_decide; [done|]. simpl in Hx. pose proof (Hn 0%nat f eq_refl) as Hf.
  assert (highest (default ∅ (versions d) ∪ {[version f]}) = Some (version f)) as Hh.
  { apply highest_union. intros v Hv. destruct Hc as [Hc|[-> Hc]]; [|rewrite Hc in Hv; by apply elem_of_empty in Hv].
    destruct (versions d) as [vs|]; [|done]. simpl in *. apply highest_spec in Hc as [_ Hc]. apply Hc in Hv. lia. }
  destruct l as [|g l]; [injection Hx as <-; simpl; rewrite Hh; f_equal; lia|].
  erewrite (IH _ (version f) Hx); [simpl; f_equal; lia|left; exact Hh| |done]. intros i f' Hf'. rewrite (Hn (S i) f' Hf'). lia.
Qed.

(** ** A run *)
Definition created (d : database) : database := mkDatabase (Some (default ∅ (versions d))) (objects d).

(** The version a run begins at, and the database it then has. *)
Definition start (d : database) : result error (N * database) :=
  match highest (default ∅ (versions d)) with
  | Some c => Ok (c, created d)
  | None => let? v := inferSchemaVersion (objects d) in
    Ok (v, if (v =? 0)%N then created d else mkDatabase (Some (default ∅ (versions d) ∪ series v)) (objects d))
  end.

Definition latest (files : list schemaFile) : N := default 0%N (version <$> last files).

Lemma locked_alone files d : migrateLocked files [] d =
  match start d with
  | Err e => ((Err e, []), created d)
  | Ok (c, d2) => match checkSchemaNotAhead c (latest files) with Err e => ((Err e, []), d2) | Ok _ => applyAll (pendingSchemaFiles files c) [] d2 end
  end.
Proof.
  unfold schema.migrateLocked, start, bind, createVersions, recordedVersion, recordBaseline, readCatalog, stmt, ret, fail. simpl. fold (created d) (latest files).
  destruct (highest (default ∅ (versions d))) as [c|]; [by destruct (checkSchemaNotAhead c _)|]. unfold bind.
  destruct (inferSchemaVersion (objects d)) as [v|] eqn:Hi; simpl; rewrite ?Hi; [|done].
  destruct (N.eqb_spec v 0) as [->|]; simpl; by destruct (checkSchemaNotAhead _ _).
Qed.

Lemma locked_faults files fs d r fs' x : migrateLocked files fs d = ((r, fs'), x) ->
  (r <> Ok tt /\ (x = d \/ x = created d)) \/
  exists c d2 l1 l2, start d = Ok (c, d2) /\ pendingSchemaFiles files c = l1 ++ l2 /\ effects l1 d2 = Ok x /\
    (l1 <> [] \/ r = Ok tt -> checkSchemaNotAhead c (latest files) = Ok tt) /\ (r = Ok tt -> l2 = []).
Proof.
  assert (forall c d2 g, start d = Ok (c, d2) -> (match checkSchemaNotAhead c (latest files) with Err e => ((Err e, g), d2) | Ok _ => applyAll (pendingSchemaFiles files c) g d2 end) = ((r, fs'), x) ->
    exists c d2 l1 l2, start d = Ok (c, d2) /\ pendingSchemaFiles files c = l1 ++ l2 /\ effects l1 d2 = Ok x /\ (l1 <> [] \/ r = Ok tt -> checkSchemaNotAhead c (latest files) = Ok tt) /\ (r = Ok tt -> l2 = [])) as Hfiles.
  { intros c d2 g Hs H. exists c, d2. destruct (checkSchemaNotAhead c (latest files)) as [[]|e].
    - apply applyAll_faults in H as (l1 & l2 & ? & ? & ?). exists l1, l2. done.
    - injection H as <- _ <-. exists [], (pendingSchemaFiles files c). split_and!; try done. by intros [?|?]. }
  unfold schema.migrateLocked, bind, createVersions, recordedVersion, recordBaseline, readCatalog, stmt, ret, fail. fold (latest files).
  intros H. destruct (next_fault fs) as [[m|] fs1]; [injection H as <- _ <-; left; split; [done|by left]|]. fold (created d) in H.
  destruct (next_fault fs1) as [[m|] fs2]; [injection H as <- _ <-; left; split; [done|by right]|]. simpl in H.
  unfold start in *. destruct (highest (default ∅ (versions d))) as [c|]; [right; eapply (Hfiles c (created d)); [done|]; by destruct (checkSchemaNotAhead c _)|].
  unfold bind in H. simpl in H. destruct (next_fault fs2) as [[m|] fs3]; [injection H as <- _ <-; left; split; [done|by right]|].
  destruct (inferSchemaVersion (objects d)) as [v|]; [|injection H as <- _ <-; left; split; [done|by right]]. simpl in *.
  destruct (v =? 0)%N eqn:Hv; [apply N.eqb_eq in Hv; right; simpl in H; eapply Hfiles; [done|]; rewrite Hv; by destruct (checkSchemaNotAhead _ _)|].
  simpl in H. destruct (next_fault fs3) as [[m|] fs4]; [injection H as <- _ <-; left; split; [done|by right]|].
  right. eapply Hfiles; [done|]. by destruct (checkSchemaNotAhead _ _).
Qed.

Lemma start_created d : start (created d) = start d.
Proof. done. Qed.

Lemma start_again d c d2 : start d = Ok (c, d2) -> start d2 = Ok (c, d2).
Proof.
  unfold start at 1. destruct (highest (default ∅ (versions d))) as [c'|] eqn:Hh.
  - intros [= <- <-]. rewrite start_created. unfold start. by rewrite Hh.
  - destruct (inferSchemaVersion (objects d)) as [v|] eqn:Hi; [|done]. simpl. intros [= <- <-]. destruct (N.eqb_spec v 0) as [->|Hv].
    + rewrite start_created. unfold start. rewrite Hh, Hi. done.
    + apply highest_None in Hh. unfold start. simpl. rewrite Hh, highest_series by done. unfold created. simpl. done.
Qed.

Lemma start_version d c d2 : start d = Ok (c, d2) -> versions d2 ≫= highest = Some c \/ (c = 0%N /\ default ∅ (versions d2) = ∅).
Proof.
  unfold start. destruct (highest (default ∅ (versions d))) as [c'|] eqn:Hh.
  - intros [= <- <-]. by left.
  - destruct (inferSchemaVersion (objects d)) as [v|] eqn:Hi; [|done]. simpl. intros [= <- <-]. apply highest_None in Hh. destruct (N.eqb_spec v 0) as [->|Hv].
    + right. split; [done|]. simpl. done.
    + left. simpl. by rewrite Hh, highest_series.
Qed.

Lemma effects_versions l d x : effects l d = Ok x -> l <> [] -> exists vs, versions x = Some vs.
Proof.
  revert d. induction l as [|f l IH]; intros d Hx Hne; [done|]. simpl in Hx. destruct (effect f d) as [d1|] eqn:Hf; [|done]. simpl in Hx.
  destruct l as [|g l]; [|by eapply IH]. injection Hx as <-. unfold effect in Hf. destruct (ddl _ _); [|done]. case_bool_decide; [done|]. injection Hf as <-. by eexists.
Qed.

Lemma latest_length files : numbered files -> latest files = N.of_nat (length files).
Proof.
  intros Hn. unfold latest. destruct files as [|f files] using rev_ind; [done|]. rewrite last_snoc, length_app. simpl.
  rewrite (Hn (length files) f); [lia|]. rewrite lookup_app_r, Nat.sub_diag; done.
Qed.

(** Where a run stopped, another begins. *)
Lemma stopped_again files d c d2 l1 l2 x : numbered files -> start d = Ok (c, d2) -> pendingSchemaFiles files c = l1 ++ l2 -> l1 <> [] -> effects l1 d2 = Ok x ->
  start x = Ok ((c + N.of_nat (length l1))%N, x) /\ pendingSchemaFiles files (c + N.of_nat (length l1)) = l2 /\ (c + N.of_nat (length l1) <= latest files)%N.
Proof.
  intros Hn Hs Hp Hne He. rewrite pending_drop in Hp by done.
  assert (forall i f, l1 !! i = Some f -> version f = (c + N.of_nat i + 1)%N) as Hv.
  { intros i f Hf. assert (files !! (N.to_nat c + i)%nat = Some f) as Hf'. { rewrite <- lookup_drop, Hp. by apply lookup_app_l_Some. } rewrite (Hn _ _ Hf'). lia. }
  pose proof (effects_highest _ _ _ _ He (start_version _ _ _ Hs) Hv Hne) as Hh. destruct (effects_versions _ _ _ He Hne) as [vs Hvs]. split_and!.
  - unfold start. rewrite Hvs in Hh |- *. simpl in *. rewrite Hh. unfold created. rewrite Hvs. simpl. destruct x; simpl in *. by subst.
  - rewrite pending_drop by done. replace (N.to_nat (c + N.of_nat (length l1))) with (N.to_nat c + length l1)%nat by lia. by rewrite <- drop_drop, Hp, drop_app_length.
  - rewrite latest_length by done. assert (length (drop (N.to_nat c) files) = length (l1 ++ l2)) as Hl by (by rewrite Hp). rewrite length_drop, length_app in Hl.
    assert (0 < length l1) by (destruct l1; [done|simpl; lia]). lia.
Qed.

Lemma not_ahead c files : (c <= latest files)%N -> checkSchemaNotAhead c (latest files) = Ok tt.
Proof. intros Hle. unfold checkSchemaNotAhead. by destruct (N.ltb_spec (latest files) c); [lia|]. Qed.

Lemma locked_resumes files fs d r fs' x : numbered files -> migrateLocked files fs d = ((r, fs'), x) -> migrateLocked files [] x = migrateLocked files [] d.
Proof.
  intros Hn H. apply locked_faults in H as [[_ [->| ->]]|(c & d2 & l1 & l2 & Hs & Hp & He & Hc & _)]; [done| |].
  - by rewrite !locked_alone, start_created.
  - rewrite !locked_alone, Hs. destruct (decide (l1 = [])) as [->|Hne].
    + injection He as <-. rewrite (start_again _ _ _ Hs). done.
    + destruct (stopped_again files d c d2 l1 l2 x Hn Hs Hp Hne He) as (-> & -> & Hle). rewrite (not_ahead _ _ Hle), Hc by (by left).
      rewrite Hp. by rewrite (applyAll_app _ _ _ _ He).
Qed.

Lemma locked_done files fs d fs' x : numbered files -> migrateLocked files fs d = ((Ok tt, fs'), x) ->
  start x = Ok (latest files, x).
Proof.
  intros Hn H. apply locked_faults in H as [[? _]|(c & d2 & l1 & l2 & Hs & Hp & He & Hc & Hl2)]; [done|]. specialize (Hl2 eq_refl). specialize (Hc (or_intror eq_refl)). subst l2. rewrite app_nil_r in Hp.
  unfold checkSchemaNotAhead in Hc. destruct (N.ltb_spec (latest files) c) as [|Hle]; [done|].
  destruct (decide (l1 = [])) as [->|Hne].
  - injection He as <-. rewrite (start_again _ _ _ Hs). do 2 f_equal. rewrite pending_drop in Hp by done. rewrite latest_length in * by done.
    assert (length (drop (N.to_nat c) files) = 0%nat) as Hl by (by rewrite Hp). rewrite length_drop in Hl. lia.
  - destruct (stopped_again files d c d2 l1 [] x Hn Hs) as (Hx & Hp' & Hle'); [by rewrite app_nil_r|done|done|]. rewrite Hx. do 2 f_equal.
    rewrite pending_drop in Hp' by done. rewrite latest_length in * by done. assert (length (drop (N.to_nat (c + N.of_nat (length l1))) files) = 0%nat) as Hl by (by rewrite Hp'). rewrite length_drop in Hl. lia.
Qed.

Lemma done_stable files fs x r fs' x' : numbered files -> files <> [] -> start x = Ok (latest files, x) -> migrateLocked files fs x = ((r, fs'), x') -> x' = x.
Proof.
  intros Hn Hne Hs H. assert (created x = x) as Hc.
  { destruct (start_version _ _ _ Hs) as [Hh|[Hz _]].
    - unfold created. destruct x as [[vs|] o]; [done|by simpl in Hh].
    - rewrite latest_length in Hz by done. destruct files; [done|]. simpl in Hz. lia. }
  apply locked_faults in H as [[_ [->| ->]]|(c & d2 & l1 & l2 & Hs' & Hp & He & _)]; [done|done|]. rewrite Hs in Hs'. injection Hs' as <- <-.
  rewrite pending_drop, latest_length, Nat2N.id, drop_all in Hp by done. symmetry in Hp. apply app_nil in Hp as [-> _]. by injection He as <-.
Qed.

(** C23: A migration that is stopped at any statement, by a refusal of the database
    or a lost connection: the next one ends exactly as the first would have,
    with the same schema, the same recorded versions and the same answer. One
    that succeeds has recorded the last version of the embedded files, and no
    later run changes anything. *)
Theorem migrate_resumes entries dir fs d r fs' x :
  let files := loadSchemaFiles entries dir in
  Migrate ddl true files fs d = ((r, fs'), x) ->
  Migrate ddl true files [] x = Migrate ddl true files [] d /\
  (r = Ok tt -> (exists f l, files = Ok (l ++ [f]) /\ SchemaVersion true [] x = ((Ok (version f), []), x)) /\
    forall fs2, (Migrate ddl true files fs2 x).2 = x).
Proof.
  intros files. unfold Migrate. simpl. destruct files as [fl|e] eqn:Hf; [|intros [= <- <- <-]; done]. destruct (load_numbered _ _ _ Hf) as [Hn Hne].
  unfold bind, stmt. intros H. assert ((r <> Ok tt /\ x = d) \/ exists g r' g', migrateLocked fl g d = ((r', g'), x) /\ (r = Ok tt -> r' = Ok tt)) as [[Hr ->]|(g & r' & g' & Hl & Hr)].
  { destruct (next_fault fs) as [[m|] fs1]; [injection H as <- _ <-; by left|]. destruct (next_fault fs1) as [[m|] fs2]; [injection H as <- _ <-; by left|].
    destruct (migrateLocked fl fs2 d) as [[r' g'] x'] eqn:Hl. right. exists fs2, r', g'. destruct (next_fault g') as [[m|] fs3]; injection H as <- _ <-; by destruct r'. }
  { split; [done|]. by intros. }
  split; [simpl; by rewrite (locked_resumes _ _ _ _ _ _ Hn Hl)|]. intros ->. specialize (Hr eq_refl) as ->. pose proof (locked_done _ _ _ _ _ Hn Hl) as Hs. split.
  - destruct fl as [|f l _] using rev_ind; [done|]. exists f, l. split; [done|]. destruct (start_version _ _ _ Hs) as [Hh|[Hz _]].
    + unfold SchemaVersion, bind, recordedVersion, stmt, ret. simpl. destruct (versions x) as [vs|] eqn:Hv; [|done]. simpl in Hh |- *. rewrite Hv. simpl. rewrite Hh. unfold latest. by rewrite last_snoc.
    + rewrite latest_length, length_app in Hz by done. simpl in Hz. lia.
  - intros fs2. destruct (next_fault fs2) as [[m|] g1]; [done|]. destruct (next_fault g1) as [[m|] g2]; [done|].
    destruct (migrateLocked fl g2 x) as [[r' g3] x'] eqn:Hl'. apply (done_stable _ _ _ _ _ _ Hn Hne Hs) in Hl' as ->. by destruct (next_fault g3) as [[m|] g4].
Qed.
End Migrations.
End schema_spec.
