(* ===== verification/PostgresExamples.v ===== *)
(** * The PostgreSQL stores at work

    The theorems on the PostgreSQL stores at concrete inputs, and four
    behaviours of them: a deletion that finds no revision row is not
    serialized with the writes, a write that repeats a sequence number leaves
    the record of the table but replaces that of the in-memory store, the
    replay both data migrations ask for is always refused, and reading a shard
    batch by batch skips an event that shares its time with the last of a
    batch, as the events of one command do. *)

From S2P Require Import Prelude GoStrings Tenancy Persistence Egopb StoreApi EventStore Postgres PostgresSpec PostgresPages PostgresConcurrent.
From S2P Require Import EventSourced Projection ProjectionSpec PostgresProjection PostgresSchema PostgresSchemaSpec ProjectionExamples.
From Stdlib Require Import ZArith Lia.
Open Scope string_scope.
Open Scope list_scope.
Open Scope urd_scope.

Module postgres_examples.
Import persistence egopb postgres postgres_spec.

(** ** Codecs: payloads of one type, metadata kept as it is *)
Abbreviation Meta := (gmap string string).
Definition marshal (a : option Any) : result string string := Ok (match a with Some a => Value a | None => "" end).
Definition unmarshal (s : string) : result string Any := Ok (mkAny "t" s).
Definition to_json (m : Meta) : result string Meta := Ok m.
Definition of_json (m : Meta) : result string Meta := Ok m.
Abbreviation Perform := (perform (J := Meta) marshal to_json).
Abbreviation Tables := (tables Meta).

Definition ev (pid : string) (n : N) (ts : Z) (payload : string) : Event := mkEvent pid n false (Some (mkAny "t" payload)) ts 1 "" false ∅.

Lemma ev_storable pid n ts p : storable marshal unmarshal to_json of_json (ev pid n ts p).
Proof. eexists. split; reflexivity. Qed.

(** ** Side by side with the in-memory store *)
Definition genesis : request := RWrite Unscoped [ev "a" 1 10 "x"; ev "a" 2 20 "y"] ExpectGenesis.
Definition stale : request := RWrite Unscoped [ev "a" 3 30 "z"] (ExpectRevision 1).
Definition one_write : Tables := (Perform genesis [] empty_tables).2.
Definition one_write_mem : testkit.EventStore := (testkit_perform genesis testkit.NewEventsStore).2.

Lemma stores_agree_witness :
  (Perform stale [] one_write).1 = (testkit_perform stale one_write_mem).1 /\
  testkit.ReplayEvents one_write_mem Unscoped "a" 2 9 5 = Some (Ok [ev "a" 2 20 "y"]).
Proof.
  destruct (stores_agree (J := Meta) marshal unmarshal to_json of_json map_to_list (fun _ => reflexivity _) one_write_mem one_write) as (Hcall & Hreplay & _).
  - eapply rtc_l; [|apply rtc_refl]. apply (lockstep_call marshal unmarshal to_json of_json testkit.NewEventsStore empty_tables genesis []); [|by vm_compute].
    split_and!; [constructor|repeat constructor; apply ev_storable|done].
  - split.
    + assert (acceptable marshal unmarshal to_json of_json one_write stale) as Ha by (split_and!; [constructor|repeat constructor; apply ev_storable|done]).
      destruct (Hcall stale [] Ha) as [[m Hm]|He]; [|exact He]. apply (f_equal fst) in Hm. vm_compute in Hm. discriminate Hm.
    + rewrite Hreplay; [reflexivity|constructor|reflexivity].
Defined.

(** A batch without a precondition that repeats a sequence number, as a caller
    who retries may: the table keeps the record it has ([ON CONFLICT DO
    NOTHING]), the in-memory store takes the new one. *)
Definition repeated : request := RWrite Unscoped [ev "a" 2 99 "again"] Unconditional.

Theorem duplicate_kept_or_replaced :
  (Perform repeated [] one_write).1 = Ok tt /\ (testkit_perform repeated one_write_mem).1 = Ok tt /\
  GetLatestEvent unmarshal of_json map_to_list None (Perform repeated [] one_write).2 Unscoped "a" = Ok (Some (ev "a" 2 20 "y")) /\
  testkit.GetLatestEvent (testkit_perform repeated one_write_mem).2 Unscoped "a" = Ok (Some (ev "a" 2 99 "again")).
Proof. vm_compute. auto. Qed.

(** ** Pages of two, three ids *)
Definition three_ids : Tables := (Perform (RWrite Unscoped [ev "b" 1 1 ""; ev "a" 1 2 ""; ev "c" 1 3 ""] Unconditional) [] empty_tables).2.

Lemma pages_list_each_once_witness : exists ids, postgres_pages.list_all map_to_list testkit.str_ltb three_ids Unscoped 2 (S (length ids)) "" = Some ids /\ NoDup ids /\ "b" ∈ ids.
Proof.
  destruct (postgres_pages.pages_list_each_once (J := Meta) map_to_list testkit.str_ltb (fun _ => reflexivity _)) with (t := three_ids) (sc := Unscoped) (tenant := "") (pageSize := 2%N)
    as (ids & Hall & Hnd & Hin).
  - apply AdoptionFences.adoption_fences.str_ltb_irrefl.
  - apply AdoptionFences.adoption_fences.str_ltb_trans.
  - apply AdoptionFences.adoption_fences.str_ltb_total.
  - reflexivity.
  - lia.
  - reflexivity.
  - intros (n & v & Hv). assert (bool_decide (map_Forall (fun (k : key) (_ : row Meta) => k.1.2 <> "") (events_store three_ids)) = true) as Hf by (vm_compute; reflexivity).
    apply bool_decide_eq_true in Hf. by apply Hf in Hv.
  - exists ids. split; [apply Hall, Nat.lt_succ_diag_r|]. split; [exact Hnd|]. apply Hin. eexists 1%N, _. reflexivity.
Defined.

(** ** Two writers *)
Import postgres_concurrent.
Definition rival : request := RWrite Unscoped [ev "a" 1 11 "other"] ExpectGenesis.
Definition empty_state : state Meta := mkState empty_tables ∅ [].

(** Both find no row; the first claims it, the second waits, finds the row
    committed, reads it, and reports the conflict. A deletion begun as soon as
    the row is committed waits for the second. *)
Definition trim : request := RDelete Unscoped "a" 1.
Definition race : list turn := [Begin 0 1 genesis; Begin 1 2 rival; Run 0; Run 1; Run 0; Run 0; Run 0; Run 0; Run 0; Begin 2 1 trim; Run 1; Run 1; Run 1; Run 2; Run 2; Run 2].
Definition after_race : state Meta := default empty_state (schedule_all marshal to_json empty_state race).

Lemma race_runs : schedule_all marshal to_json empty_state race = Some after_race.
Proof. reflexivity. Qed.

Lemma race_careful : careful_all marshal to_json empty_state race = true.
Proof. vm_compute. reflexivity. Qed.

Lemma serializable_witness : serial marshal to_json empty_tables [genesis; trim] = Some (committed after_race) /\ size (events_store (committed after_race)) = 1.
Proof.
  split; [|reflexivity]. pose proof (serializable marshal to_json empty_tables after_race (careful_reaches marshal to_json _ _ _ race_runs race_careful)) as H.
  assert (log after_race = [genesis; trim]) as Hl by (vm_compute; reflexivity). rewrite Hl in H. exact H.
Defined.

(** ** A deletion that finds no revision row

    It takes no lock. After its [SELECT] the record is written and that write
    commits; a second batch passes over the first event, which is there, and
    inserts the next; the deletion, which sees the first event only, removes
    it and commits; then the batch commits. The second event stays without the
    first, as no order of the three calls leaves them: *)
Definition batch : request := RWrite Unscoped [ev "a" 1 10 "x"; ev "a" 2 20 "y"] Unconditional.
Definition first : request := RWrite Unscoped [ev "a" 1 10 "x"] ExpectGenesis.
Definition purge : request := RDelete Unscoped "a" 5.
Definition unlocked : list turn := [Begin 0 1 purge; Run 0; Begin 1 1 first; Run 1; Run 1; Run 1; Run 1; Run 1; Begin 2 1 batch; Run 2; Run 2; Run 2; Run 0; Run 0; Run 2].

Definition stored (t : Tables) (n : N) : bool := match events_store t !! (("", "a"), n) with Some _ => true | None => false end.

Theorem unlocked_deletion_not_serializable : exists s, rtc (step marshal to_json) empty_state s /\ log s = [first; purge; batch] /\
  forall l, l ≡ₚ log s -> serial marshal to_json empty_tables l <> Some (committed s).
Proof.
  destruct (schedule_all marshal to_json empty_state unlocked) as [s|] eqn:Hs; [|by vm_compute in Hs].
  exists s. assert (log s = [first; purge; batch] /\ stored (committed s) 1 = false /\ stored (committed s) 2 = true) as (Hl & H1 & H2).
  { assert (match schedule_all marshal to_json empty_state unlocked with Some s => log s = [first; purge; batch] /\ stored (committed s) 1 = false /\ stored (committed s) 2 = true | None => False end) as H
      by (vm_compute; auto). by rewrite Hs in H. }
  split; [by apply (schedule_reaches marshal to_json _ _ _ Hs)|]. split; [exact Hl|]. intros l Hp Hser.
  assert (forallb (fun l => match serial marshal to_json empty_tables l with Some t => eqb (stored t 1) (stored t 2) | None => true end) (permutations [first; purge; batch]) = true) as Hall by (vm_compute; reflexivity).
  rewrite forallb_forall in Hall. specialize (Hall l). rewrite Hl in Hp. rewrite Hser, H1, H2 in Hall. discriminate Hall.
  apply list_elem_of_In, permutations_Permutation. by symmetry.
Qed.

(** Two batches over the same ids, in opposite orders: the second waits for
    the first, which waits for nobody. *)
Definition ab : request := RWrite Unscoped [ev "a" 1 1 ""; ev "b" 1 2 ""] Unconditional.
Definition ba : request := RWrite Unscoped [ev "b" 2 3 ""; ev "a" 2 4 ""] Unconditional.
Definition crossing : state Meta := default empty_state (schedule_all marshal to_json empty_state [Begin 0 1 ab; Begin 1 1 ba; Run 0]).

Lemma writers_never_deadlock_witness : run_conn crossing 1 = None /\ ~ (forall i, i ∈ [0; 1] -> exists j, j ∈ [0; 1] /\ waits crossing i j).
Proof.
  split; [reflexivity|]. apply (writers_never_deadlock marshal to_json empty_tables crossing [0; 1]); [|discriminate].
  apply (schedule_reaches marshal to_json empty_state [Begin 0 1 ab; Begin 1 1 ba; Run 0]). reflexivity.
Defined.

(** ** Reading shards *)

(** The events of one command have one time. Read two at a time, as the
    runner reads with a buffer of two, the third is never read: the next read
    begins after that time. *)
Definition one_command : Tables := (Perform (RWrite Unscoped [ev "a" 1 10 "x"; ev "a" 2 10 "y"; ev "a" 3 10 "z"] ExpectGenesis) [] empty_tables).2.
Abbreviation shard_events := (GetShardEvents (J := Meta) unmarshal of_json map_to_list None).

Theorem shard_tie_skipped : exists evs next, shard_events one_command 1 0 2 = Ok (evs, next) /\ length evs = 2 /\ shard_events one_command 1 next 2 = Ok ([], 0%Z).
Proof. eexists _, _. split; [vm_compute; reflexivity|]. split; reflexivity. Qed.

(** ** The replay the data migrations ask for *)
Definition maxReplaySequence : N := 18446744073709551615.

Theorem whole_range_refused (t : Tables) sc pid limit : wf_scope sc ->
  ReplayEvents unmarshal of_json map_to_list None t sc pid 1 maxReplaySequence limit = Err (EStore out_of_range).
Proof. intros [|id Hid]; reflexivity. Qed.

(** ** Migrating a database *)
Definition demo_ddl (sql : string) (o : gset string) : result string (gset string) := Ok ({[ sql ]} ∪ o).
Definition entries : result string (list schema.entry) :=
  Ok [schema.mkEntry "002_second.sql" false (Ok "events_store_revisions"); schema.mkEntry "README" false (Err "never read"); schema.mkEntry "001_first.sql" false (Ok "events_store")].
Definition fresh_db : schema.database := schema.mkDatabase None ∅.

(** The connection is lost while the second file is applied. *)
Definition lost : list (option string) := [None; None; None; None; None; None; None; None; None; None; Some "connection lost"].
Abbreviation Migrate0 := (schema.Migrate demo_ddl true (schema.loadSchemaFiles entries "schema")).
Definition half_done : schema.database := (Migrate0 lost fresh_db).2.

Lemma migrate_resumes_witness : schema.versions half_done = Some {[ 1%N ]} /\ Migrate0 [] half_done = Migrate0 [] fresh_db /\ schema.SchemaVersion true [] (Migrate0 [] half_done).2 = ((Ok 2%N, []), (Migrate0 [] half_done).2).
Proof.
  split; [reflexivity|]. split.
  - apply (schema_spec.migrate_resumes demo_ddl entries "schema" lost fresh_db (Err (schema.EStatement "apply 002_second.sql" "connection lost")) [] half_done). reflexivity.
  - destruct (schema_spec.migrate_resumes demo_ddl entries "schema" [] half_done (Ok tt) [] (Migrate0 [] half_done).2) as [_ H]; [reflexivity|].
    destruct (H eq_refl) as [(f & l & Hf & Hv) _]. rewrite Hv. vm_compute in Hf. injection Hf as Hf. destruct l as [|f1 [|f2 [|f3 l]]]; simplify_eq/=. reflexivity.
Defined.
End postgres_examples.
