(* ===== verification/Publishers.v ===== *)
(** * The publishers

    [publisher]: the Kafka, NATS, Pulsar and WebSocket publishers of
    [src/publisher], for events and for states. What the broker's library does
    is a parameter, acting on a world of its own; a publisher is its [started]
    flag and the topic it was made for. [address]: the checks of the server
    addresses. *)

From S2P Require Import Prelude GoStrings.
From Stdlib Require Import ZArith Lia.
Open Scope string_scope.
Open Scope list_scope.
Open Scope urd_scope.

Module publisher.

Inductive broker := Kafka | Nats | Pulsar | WebSocket.
Inductive error := ErrPublisherNotStarted | EBroker (m : string).

(** What is handed to the library; a [None] is a field the broker does not
    have. *)
Record message := mkMessage { topic : option string; key : option string; orderingKey : option string; payload : string }.

Record Publisher := mkPublisher { broker_of : broker; destination : string; started : bool }.

Section Publishing.
Context {R W : Type}.
(** Records, their id and their encoding, which can fail. *)
Context (persistenceID : R -> string) (marshal : R -> result string string).
(** The library: sending, draining and closing. *)
Context (send : message -> W -> result string unit * W) (drain close_ closeClient : W -> result string unit * W).

(** The message of a record; a record that does not encode has the nil
    payload. *)
Definition message_of (p : Publisher) (r : R) : message :=
  let body := match marshal r with Ok b => b | Err _ => "" end in
  match broker_of p with
  | Kafka => mkMessage (Some (destination p)) (Some (persistenceID r)) None body
  | Nats => mkMessage (Some (destination p)) None None body
  | Pulsar => mkMessage None (Some (persistenceID r)) (Some (persistenceID r)) body
  | WebSocket => mkMessage None None None body
  end.

Definition lift (r : result string unit * W) : result error unit * W := (rmap_err EBroker r.1, r.2).

Definition Publish (p : Publisher) (r : R) (w : W) : result error unit * W :=
  if negb (started p) then (Err ErrPublisherNotStarted, w) else lift (send (message_of p r) w).

Definition stop (p : Publisher) : Publisher := mkPublisher (broker_of p) (destination p) false.

Definition Close (p : Publisher) (w : W) : (result error unit * Publisher) * W :=
  match broker_of p with
  | Kafka => let '(r, w) := lift (close_ w) in ((r, stop p), w)
  | Nats =>
    let '(r, w) := lift (drain w) in
    match r with
    | Err e => ((Err e, stop p), w)
    | Ok _ => let '(_, w) := close_ w in ((Ok tt, stop p), w)
    end
  | Pulsar => let '(_, w) := close_ w in let '(_, w) := closeClient w in ((Ok tt, stop p), w)
  | WebSocket =>
    if started p then let '(r, w) := lift (close_ w) in ((r, stop p), w) else ((Ok tt, p), w)
  end.

(** ** A publisher in use *)
Inductive op := OPublish (r : R) | OClose.

(** The answers, and the messages handed to the library, in order. *)
Fixpoint run (p : Publisher) (ops : list op) (w : W) : list (result error unit) * list message * W :=
  match ops with
  | [] => ([], [], w)
  | OPublish r :: ops =>
    let '(a, w) := Publish p r w in
    let '(rs, ms, w) := run p ops w in
    (a :: rs, (if started p then [message_of p r] else []) ++ ms, w)
  | OClose :: ops =>
    let '((a, p), w) := Close p w in
    let '(rs, ms, w) := run p ops w in
    (a :: rs, ms, w)
  end.

Definition published (ops : list op) : list R := omap (fun o => match o with OPublish r => Some r | OClose => None end) ops.

Lemma close_stops p w : started (Close p w).1.2 = false /\ broker_of (Close p w).1.2 = broker_of p /\ destination (Close p w).1.2 = destination p.
Proof.
  unfold Close. destruct p as [[] d st]; simpl; repeat case_step; simplify_eq/=; done.
Qed.

Lemma run_stopped p ops w : started p = false -> (run p ops w).1.2 = [] /\
  forall i r, ops !! i = Some (OPublish r) -> (run p ops w).1.1 !! i = Some (Err ErrPublisherNotStarted).
Proof.
  revert p w. induction ops as [|[r|] ops IH]; intros p w Hp; simpl; [done|..].
  - unfold Publish. rewrite Hp. simpl. destruct (IH p w Hp) as [Hm Hi]. destruct (run p ops w) as [[rs ms] w']. simpl in *. split; [done|].
    intros [|i] r' Hr; simpl in *; [done|by eapply Hi].
  - destruct (Close p w) as [[a p'] w'] eqn:Hc. pose proof (close_stops p w) as (Hs & _). rewrite Hc in Hs. simpl in Hs. destruct (IH p' w' Hs) as [Hm Hi].
    destruct (run p' ops w') as [[rs ms] w'']. simpl in *. split; [done|]. intros [|i] r' Hr; simpl in *; [done|by eapply Hi].
Qed.

(** What reaches the broker is what was published before the first close, in
    order, and every later publication is refused. *)
Lemma nothing_after_close p before after w : started p = true -> OClose ∉ before ->
  (run p (before ++ OClose :: after) w).1.2 = message_of p <$> published before /\
  forall i r, after !! i = Some (OPublish r) -> (run p (before ++ OClose :: after) w).1.1 !! (length before + S i)%nat = Some (Err ErrPublisherNotStarted).
Proof.
  intros Hp. revert w. induction before as [|[r|] before IH]; intros w Hn; simpl.
  - destruct (Close p w) as [[a p'] w'] eqn:Hc. pose proof (close_stops p w) as (Hs & _). rewrite Hc in Hs. simpl in Hs.
    destruct (run_stopped p' after w' Hs) as [Hm Hi]. destruct (run p' after w') as [[rs ms] w'']. simpl in *. done.
  - destruct (Publish p r w) as [a w1]. destruct (IH w1) as [Hm Hi]; [by intros Hx; apply Hn; right|]. destruct (run p _ w1) as [[rs ms] w2]. simpl in *. rewrite Hp. simpl. rewrite Hm. done.
  - destruct Hn. left.
Qed.

(** Closing the WebSocket publisher again does nothing. *)
Lemma websocket_closes_once p w w' : broker_of p = WebSocket -> Close (Close p w).1.2 w' = ((Ok tt, (Close p w).1.2), w').
Proof.
  intros Hb. pose proof (close_stops p w) as (Hs & Hb' & _). unfold Close at 1. rewrite Hb', Hb, Hs. done.
Qed.

(** A record that does not encode is published as an empty message, and the
    publication reported as done. *)
Theorem unencodable_published_empty p r w m : started p = true -> marshal r = Err m -> (forall x, (send x w).1 = Ok tt) ->
  exists x, payload x = "" /\ Publish p r w = (Ok tt, (send x w).2).
Proof.
  intros Hp Hm Hs. exists (message_of p r). split; [unfold message_of; rewrite Hm; by destruct (broker_of p)|].
  unfold Publish, lift. rewrite Hp. simpl. by rewrite Hs.
Qed.
End Publishing.
Arguments op : clear implicits.
End publisher.

Module address.
(** [validation.NewTCPAddressValidator]. *)
Section Address.
Context (tcpAddress : string -> result string unit).

(** [None] is a panic: the second half of a string that has no such
    separator. *)
Definition validate (scheme : string) (server : string) : option (result string unit) :=
  if negb (has_prefix scheme server) then Some (Err ("invalid nats server address: " +:+ server))
  else match cut_list (b2l (scheme +:+ "://")) (b2l server) with
  | None => None
  | Some (_, hostAndPort) => Some (tcpAddress (l2b hostAndPort))
  end.

Definition ServerAddrValidator : string -> option (result string unit) := validate "nats".
Definition URLValidator : string -> option (result string unit) := validate "pulsar".

(** An address that begins like the scheme and is not one panics, and so does
    the address of a Pulsar server behind TLS. *)
Theorem address_check_panics : ServerAddrValidator "nats:4222" = None /\ URLValidator "pulsar+ssl://broker:6651" = None.
Proof. by split. Qed.
End Address.
End address.
