(* ===== verification/Scenario.v ===== *)
(** * The scenarios of the test kit

    [scenario] and [durable_scenario]: [src/testkit/scenario.go], which runs a
    behavior without an engine. [scenario_predicts_entity] and
    [durable_scenario_predicts_entity]: what it reports is what the entities of
    [EventSourced.v] and [DurableState.v] do. [runner]: the chain of checks
    ([src/internal/runner/runner.go]) that actors run as they start. *)

From S2P Require Import Prelude GoStrings Tenancy Persistence Egopb StoreApi StateStores Command Protocol EventSourced DurableState EventSourcedCorrect.
From Stdlib Require Import ZArith Lia.
Open Scope string_scope.
Open Scope list_scope.
Open Scope urd_scope.

Module scenario.
Import egopb tenancy eventsource.

Section Scenario.
Context (D : Deps).

(** [None]: no prior state was given. *)
Record EventSourcedScenario := mkScenario { priorState : option (State D); priorEvents : list (DomainEvent D) }.

Inductive outcome :=
| Arranged (m : string)
| Failed (m : string)
| Produced (events : list (DomainEvent D)) (state : State D).

Definition ForEventSourcedBehavior : EventSourcedScenario := mkScenario None [].
Definition Given (s : EventSourcedScenario) (state : State D) : EventSourcedScenario := mkScenario (Some state) (priorEvents s).
Definition GivenEvents (s : EventSourcedScenario) (events : list (DomainEvent D)) : EventSourcedScenario := mkScenario (priorState s) events.

Definition apply_events (events : list (DomainEvent D)) (state : State D) : result string (State D) :=
  rfold (fun s e => HandleEvent D Background e s) state events.

Definition When (s : EventSourcedScenario) (cmd : Cmd D) : outcome :=
  match apply_events (priorEvents s) (default (InitialState D) (priorState s)) with
  | Err m => Arranged ("given events could not be applied: " +:+ m)
  | Ok state =>
    match HandleCommand D Background cmd state with
    | Err m => Failed m
    | Ok events =>
      match apply_events events state with
      | Err m => Failed m
      | Ok state => Produced events state
      end
    end
  end.

(** What the assertions accept, [eqE] and [eqS] being [proto.Equal]. *)
Definition ThenEvents (eqE : DomainEvent D -> DomainEvent D -> bool) (o : outcome) (expected : list (DomainEvent D)) : bool :=
  match o with Produced events _ => (length events =? length expected)%nat && forallb (fun p => eqE p.1 p.2) (zip expected events) | _ => false end.
Definition ThenState (eqS : State D -> State D -> bool) (o : outcome) (expected : State D) : bool :=
  match o with Produced _ state => eqS expected state | _ => false end.
Definition ThenNoEvents (o : outcome) : bool := match o with Produced [] _ => true | _ => false end.
Definition ThenError (contains : string -> bool) (o : outcome) : bool := match o with Failed m => contains m | _ => false end.

(** ** The entity *)
Hypothesis plain : encryptor D = None.

Lemma envelopes_of (a : Actor D) events tc s n ts :
  match apply_events events s with
  | Err m => buildEnvelopes D a Background events tc s n ts = Err (EText m)
  | Ok s' => exists envs n', buildEnvelopes D a Background events tc s n ts = Ok (envs, s', n') /\ (EventAny <$> envs) = (fun e => Some (anyOfEvent D e)) <$> events
  end.
Proof.
  unfold apply_events, buildEnvelopes. induction events as [|e events IH] using rev_ind; [by exists [], n|]. rewrite !rfold_app.
  destruct (rfold _ s events) as [s1|m]; simpl; [|by rewrite IH]. destruct IH as (envs & n' & -> & Hany). simpl.
  destruct (HandleEvent D Background e s1) as [s2|m]; simpl; [|done]. unfold marshalEvent. rewrite plain. simpl.
  eexists _, _. split; [done|]. by rewrite !fmap_app, Hany.
Qed.

(** A scenario in the state the entity is in, without history, predicts the
    entity on a command that carries nothing: it refuses with the same error,
    answers its state when there is nothing to persist, or asks for exactly
    these events to be persisted and holds exactly this state ready for when
    they are. *)
Theorem scenario_predicts_entity (a : Actor D) cmd T : HandleEnvelope D = None -> tenantAware (config D a) = false ->
  match When (Given ForEventSourcedBehavior (currentState D a)) cmd with
  | Arranged _ => False
  | Failed m => processCommandAndReply D a Background cmd T = sendErrorReply D a (EText m)
  | Produced [] s => s = currentState D a /\ processCommandAndReply D a Background cmd T = sendStateReply D a
  | Produced events s => exists a' envs p, processCommandAndReply D a Background cmd T = (a', [Stash; PipeTo (mkPersistEventsRequest envs p (scope (config D a)))]) /\
      (EventAny <$> envs) = (fun e => Some (anyOfEvent D e)) <$> events /\ directPendingState D (direct D a') = s /\ currentState D a' = currentState D a
  end.
Proof.
  intros Henv Hten. unfold When, processCommandAndReply, tenantGate, dispatchToBehavior. simpl. rewrite Hten, Henv. simpl.
  destruct (HandleCommand D Background cmd (currentState D a)) as [events|m]; [|done].
  pose proof (envelopes_of a events noTenantContext (currentState D a) (eventsCounter D a) (t_build T)) as He.
  destruct (apply_events events (currentState D a)) as [s|m] eqn:Ha.
  - destruct He as (envs & n' & Hb & Hany). destruct events as [|e events]; [injection Ha as <-; done|]. rewrite Hb. unfold verifyTenantForPersist, establishActorTenant. rewrite Hten. simpl.
    eexists _, envs, _. done.
  - destruct events as [|e events]; [done|]. by rewrite He.
Qed.
End Scenario.

(** The counter of [EventSourcedCorrect.v], at 3, is told to add 5. *)
Definition counter_at_3 : Actor eventsource_correct.counterDeps :=
  set_state eventsource_correct.counterDeps (eventsource_correct.counter0 0 0 None) 3%Z.

Lemma scenario_predicts_entity_witness :
  exists a' envs p, processCommandAndReply eventsource_correct.counterDeps counter_at_3 Background [5%Z] eventsource_correct.T0 =
      (a', [Stash; PipeTo (mkPersistEventsRequest envs p persistence.Unscoped)]) /\
    (EventAny <$> envs) = [Some (anyOfEvent eventsource_correct.counterDeps 5%Z)] /\ directPendingState eventsource_correct.counterDeps (direct eventsource_correct.counterDeps a') = 8%Z /\
    currentState eventsource_correct.counterDeps a' = 3%Z.
Proof. exact (scenario_predicts_entity eventsource_correct.counterDeps eq_refl counter_at_3 [5%Z] eventsource_correct.T0 eq_refl eq_refl). Defined.
End scenario.

Module durable_scenario.
Import egopb tenancy durablestate.

Section Scenario.
Context (D : Deps).

Record DurableStateScenario := mkScenario { priorState : option (State D); priorVersion : N }.
Inductive outcome := Failed (m : string) | Produced (state : State D) (version : N).

Definition ForDurableStateBehavior : DurableStateScenario := mkScenario None 0.
Definition Given (s : DurableStateScenario) (state : State D) (version : N) : DurableStateScenario := mkScenario (Some state) version.

Definition When (s : DurableStateScenario) (cmd : Cmd D) : outcome :=
  match HandleCommand D Background cmd (priorVersion s) (default (InitialState D) (priorState s)) with
  | Err m => Failed m
  | Ok (newState, newVersion) => Produced newState newVersion
  end.

Definition ThenState (eqS : State D -> State D -> bool) (o : outcome) (expected : State D) : bool :=
  match o with Produced state _ => eqS expected state | Failed _ => false end.
Definition ThenVersion (o : outcome) (expected : N) : bool := match o with Produced _ version => (version =? expected)%N | Failed _ => false end.
Definition ThenError (contains : string -> bool) (o : outcome) : bool := match o with Failed m => contains m | Produced _ _ => false end.

Section Entity.
Context {St : Type} `{api.StateStore St}.

(** A scenario in the state and at the version the entity holds predicts the
    entity on a command that carries nothing: the same refusal, or a commit of
    this state at this version, which the entity's own checks may still
    refuse. *)
Theorem durable_scenario_predicts_entity (a : Actor D) (st : St) cmd T : HandleEnvelope D = None -> tenantAware (config D a) = false ->
  match When (Given ForDurableStateBehavior (currentState D a) (currentVersion D a)) cmd with
  | Failed m => processCommand D a st Background cmd T = (a, st, sendErrorReply D (EText m), [])
  | Produced s v =>
    match checkPreconditions D a s v with
    | Err e => processCommand D a st Background cmd T = (a, st, sendErrorReply D e, [])
    | Ok _ => processCommand D a st Background cmd T =
        match commitState D a st s v (t_commit T) noTenantContext persistence.Unconditional with
        | (a', st', Some e, pub) => (recoverFromConflictIfNeeded D a' st' e, st', sendErrorReply D e, pub)
        | (a', st', None, pub) => let '(a'', r) := sendStateReply D a' in (a'', st', r, pub)
        end
    end
  end.
Proof.
  intros Henv Hten. unfold When, processCommand, tenantGate, dispatchToBehavior, verifyTenantForPersist. simpl. rewrite Hten, Henv. simpl.
  destruct (HandleCommand D Background cmd _ _) as [[s v]|m]; [|done]. by destruct (checkPreconditions D a s v) as [[]|e].
Qed.
End Entity.
End Scenario.
End durable_scenario.

Module runner.
(** A chain of checks over some state of the caller; a check answers the error
    it found, if any. [multierr.AppendInto] on an error already there is the
    argument [combine]. *)
Section Chain.
Context {C E W : Type} (combine : E -> E -> E) (background : C).

Record Chain := mkChain { returnFirst : bool; err : option E; ctx : C }.
Definition check := W -> option E * W.

Definition WithFailFast (c : Chain) : Chain := mkChain true (err c) (ctx c).
Definition WithRunAll (c : Chain) : Chain := mkChain false (err c) (ctx c).
Definition WithContext (x : C) (c : Chain) : Chain := mkChain (returnFirst c) (err c) x.
Definition New (opts : list (Chain -> Chain)) : Chain := foldl (fun c opt => opt c) (mkChain false None background) opts.

Definition AppendInto (c : Chain) (x : E) : Chain :=
  mkChain (returnFirst c) (Some (match err c with Some y => combine y x | None => x end)) (ctx c).

Definition AddRunner (c : Chain) (fn : check) (w : W) : Chain * W :=
  if returnFirst c then
    match err c with
    | Some _ => (c, w)
    | None => let '(e, w) := fn w in (match e with Some _ => mkChain (returnFirst c) e (ctx c) | None => c end, w)
    end
  else
    let '(e, w) := fn w in (match e with Some x => AppendInto c x | None => c end, w).

Definition AddContextRunner (c : Chain) (fn : C -> check) (w : W) : Chain * W := AddRunner c (fn (ctx c)) w.

Definition AddContextRunnerIf (c : Chain) (condition : bool) (fn : C -> check) (w : W) : Chain * W :=
  if negb condition then (c, w) else AddContextRunner c fn w.

Fixpoint AddRunners (c : Chain) (fns : list check) (w : W) : Chain * W :=
  match fns with
  | [] => (c, w)
  | f :: fns => if returnFirst c && bool_decide (is_Some (err c)) then (c, w) else let '(c, w) := AddRunner c f w in AddRunners c fns w
  end.

Definition Run (c : Chain) : option E := err c.

(** ** The meaning of a chain *)
(** The checks one after the other, up to the first that fails. *)
Fixpoint sequence (fns : list check) (w : W) : option E * W :=
  match fns with [] => (None, w) | f :: fns => match f w with (Some e, w) => (Some e, w) | (None, w) => sequence fns w end end.

(** All of them, and every error found. *)
Fixpoint collect (fns : list check) (w : W) : list E * W :=
  match fns with
  | [] => ([], w)
  | f :: fns => let '(e, w) := f w in let '(es, w) := collect fns w in (option_list e ++ es, w)
  end.

Definition combined (es : list E) : option E :=
  match es with [] => None | e :: es => Some (foldl combine e es) end.

Lemma fail_fast_sequence fns w : let '(c, w') := AddRunners (New [WithFailFast]) fns w in (Run c, w') = sequence fns w.
Proof.
  revert w. induction fns as [|f fns IH]; intros w; [done|]. simpl. unfold AddRunner at 1. simpl. destruct (f w) as [[e|] w1]; [|apply IH].
  by destruct fns; simpl.
Qed.

Lemma run_all_from c fns w : returnFirst c = false ->
  let '(c', w') := AddRunners c fns w in
  let '(es, w'') := collect fns w in
  w' = w'' /\ Run c' = combined (option_list (err c) ++ es).
Proof.
  revert c w. induction fns as [|f fns IH]; intros c w Hc; simpl; [by destruct (err c) eqn:He; simpl|].
  rewrite Hc. simpl. unfold AddRunner. rewrite Hc. destruct (f w) as [[e|] w1]; simpl.
  - specialize (IH (AppendInto c e) w1 Hc). destruct (AddRunners _ fns w1) as [c' w']. destruct (collect fns w1) as [es w2]. destruct IH as [-> ->].
    split; [done|]. simpl. by destruct (err c).
  - specialize (IH c w1 Hc). destruct (AddRunners _ fns w1) as [c' w']. by destruct (collect fns w1) as [es w2].
Qed.

(** Without [WithFailFast] every check runs and the answer is all their
    errors. *)
Lemma run_all_collects fns w :
  let '(c, w') := AddRunners (New [WithRunAll]) fns w in
  let '(es, w'') := collect fns w in
  w' = w'' /\ Run c = combined es.
Proof. by apply (run_all_from (New [WithRunAll])). Qed.
End Chain.
End runner.
