(* ===== verification/Conformance.v ===== *)
(** * The conformance suites of the stores ([src/persistence/conformance])

    The isolation checks an adapter's author runs against an events, a state
    or a snapshot store ([events.go], [state.go], [snapshot.go]), and the two
    ways of running them ([check.go]). A check is a program over the calls of
    the store's interface: it sees what a caller can see of an answer, and a
    failed requirement stops it. So the same check runs on every store that has
    the interface. A marker is a [float64] of the source with an integer value
    below [2^53], here that integer; readings of the clock are an argument; the
    packing of a marker into a message and [proto.Equal] are parameters. *)

From S2P Require Import Prelude GoStrings Tenancy Persistence Egopb StoreApi Adoption.
From Stdlib Require Import ZArith Lia.
Open Scope string_scope.
Open Scope list_scope.
Open Scope urd_scope.

Module conformance.
Import persistence egopb.

(** ** Programs over an interface *)
Inductive prog (Op : Type -> Type) (A : Type) : Type :=
| Ret (a : A)
| FailNow (m : string)
| Call (B : Type) (o : Op B) (k : B -> prog Op A).
Arguments Ret {Op A} a.
Arguments FailNow {Op A} m.
Arguments Call {Op A B} o k.

Fixpoint pbind {Op A B} (f : A -> prog Op B) (p : prog Op A) : prog Op B :=
  match p with
  | Ret a => f a
  | FailNow m => FailNow m
  | Call o k => Call o (fun b => pbind f (k b))
  end.
#[export] Instance prog_bind {Op} : MBind (prog Op) := fun A B f p => pbind f p.
Definition call {Op A} (o : Op A) : prog Op A := Call o Ret.

(** An implementation of an interface; [None]: the call panics. *)
Definition handler (Op : Type -> Type) (S : Type) := forall B, Op B -> S -> option (B * S).

Inductive verdict := Passed | Failed (m : string) | Panicked.

Fixpoint run {Op S A} (h : handler Op S) (p : prog Op A) (s : S) : verdict :=
  match p with
  | Ret _ => Passed
  | FailNow m => Failed m
  | Call o k => match h _ o s with Some (b, s) => run h (k b) s | None => Panicked end
  end.

(** ** What a caller sees *)
(** Of an error: [errors.Is] of [ErrConcurrencyConflict] and [errors.As] of a
    [ConflictError], with its scope. *)
Inductive seen := NoError | Conflict (sc : Scope) | OtherError.
Definition see {A} (r : result store_error A) : seen :=
  match r with Ok _ => NoError | Err (EConflict e) => Conflict (cscope e) | Err _ => OtherError end.
Definition read {A} (r : result store_error A) : result unit A := rmap_err (fun _ => tt) r.

Inductive events_op : Type -> Type :=
| WriteEvents (sc : Scope) (evs : list Event) (p : WritePrecondition) : events_op seen
| DeleteEvents (sc : Scope) (pid : string) (to : N) : events_op seen
| ReplayEvents (sc : Scope) (pid : string) (from to limit : N) : events_op (result unit (list Event))
| GetLatestEvent (sc : Scope) (pid : string) : events_op (result unit (option Event))
| PersistenceIDs (sc : Scope) (pageSize : N) (pageToken : string) : events_op (result unit (list string * string)).

Inductive state_op : Type -> Type :=
| WriteState (sc : Scope) (d : DurableState) (p : WritePrecondition) : state_op seen
| GetLatestState (sc : Scope) (pid : string) : state_op (result unit (option DurableState)).

Inductive snapshot_op : Type -> Type :=
| WriteSnapshot (sc : Scope) (s : Snapshot) : snapshot_op seen
| DeleteSnapshots (sc : Scope) (pid : string) (to : N) : snapshot_op seen
| GetLatestSnapshot (sc : Scope) (pid : string) : snapshot_op (result unit (option Snapshot)).

(** The stores of [StoreApi.v] as implementations. *)
Definition events_handler {St} `{api.EventsStore St} `{adoption.Enumerable St} : handler events_op St := fun B o st =>
  match o with
  | WriteEvents sc evs p => let '(r, st) := api.WriteEvents st sc evs p in Some (see r, st)
  | DeleteEvents sc pid to => let '(r, st) := api.DeleteEvents st sc pid to in Some (see r, st)
  | ReplayEvents sc pid from to limit => r ← api.ReplayEvents st sc pid from to limit; Some (read r, st)
  | GetLatestEvent sc pid => Some (read (api.GetLatestEvent st sc pid), st)
  | PersistenceIDs sc pageSize pageToken => r ← adoption.PersistenceIDs st sc pageSize pageToken; Some (read r, st)
  end.

Definition state_handler {St} `{api.StateStore St} : handler state_op St := fun B o st =>
  match o with
  | WriteState sc d p => let '(r, st) := api.WriteState st sc d p in Some (see r, st)
  | GetLatestState sc pid => Some (read (api.GetLatestState st sc pid), st)
  end.

Definition snapshot_handler {Sn} `{api.SnapshotStore Sn} : handler snapshot_op Sn := fun B o st =>
  match o with
  | WriteSnapshot sc s => let '(r, st) := api.WriteSnapshot st sc s in Some (see r, st)
  | DeleteSnapshots sc pid to => let '(r, st) := api.DeleteSnapshots st sc pid to in Some (see r, st)
  | GetLatestSnapshot sc pid => Some (read (api.GetLatestSnapshot st sc pid), st)
  end.

(** ** Requirements ([report.go]) *)
Section Requirements.
Context {Op : Type -> Type}.

Definition requireTrue (ok : bool) (m : string) : prog Op unit := if ok then Ret tt else FailNow m.
Definition requireNoError (e : seen) : prog Op unit := match e with NoError => Ret tt | _ => FailNow "expected no error" end.
Definition requireRead {A} (r : result unit A) : prog Op A := match r with Ok a => Ret a | Err _ => FailNow "expected no error" end.
Definition requireNil {A} (v : option A) : prog Op unit := match v with None => Ret tt | Some _ => FailNow "expected nil" end.
Definition requireNotNil {A} (v : option A) : prog Op A := match v with Some a => Ret a | None => FailNow "expected a non-nil value, got nil" end.
Definition requireEmpty {A} (l : list A) : prog Op unit := match l with [] => Ret tt | _ => FailNow "expected empty" end.
Definition requireMarker (expected actual : Z) : prog Op unit := requireTrue (expected =? actual)%Z "not equal".
(** The same elements, as often, in any order. *)
Definition requireElementsMatch (expected actual : list string) : prog Op unit :=
  requireTrue (bool_decide (merge_sort String.le expected = merge_sort String.le actual)) "elements differ".
Definition requireNotContains (l : list string) (x : string) : prog Op unit := requireTrue (bool_decide (x ∉ l)) "expected not to contain".
(** [requireError], [requireErrorIs], [errors.As]: the scope of the conflict. *)
Definition requireConflict (e : seen) : prog Op Scope :=
  match e with
  | NoError => FailNow "expected an error, got nil"
  | OtherError => FailNow "expected the error to match"
  | Conflict sc => Ret sc
  end.

Definition mustTenantScope (id : string) : prog Op Scope := match NewTenantScope id with Ok sc => Ret sc | Err _ => FailNow "expected no error" end.
End Requirements.

Section Checks.
(** [anypb.New] of an account with an id and a balance, the balance
    [Any.UnmarshalTo] finds in a message, and [proto.Equal]. *)
Context (pack : string -> Z -> Any) (balance : Any -> result string Z).
Context {proto_equal_event : Event -> Event -> bool} {proto_equal_state : DurableState -> DurableState -> bool} {proto_equal_snapshot : Snapshot -> Snapshot -> bool}.
(** The readings of the clock, in the order of the check's writes. *)
Context (now : nat -> Z).

(** ** Helpers ([helpers.go]) *)
Definition marker {Op} (a : option Any) : prog Op Z :=
  match a with Some a => match balance a with Ok z => Ret z | Err _ => FailNow "expected no error" end | None => FailNow "expected no error" end.

Definition eventBatch (i : nat) (pid : string) (sequenceNumber : N) (m : Z) : list Event :=
  [mkEvent pid sequenceNumber false (Some (pack pid m)) (now i) 1 "" false ∅].
Definition eventMarker {Op} (e : Event) : prog Op Z := marker (EventAny e).

Definition stateRecord (pid : string) (versionNumber : N) (m : Z) : DurableState := mkDurableState pid versionNumber (Some (pack pid m)) 0 0 ∅.
Definition stateMarker {Op} (d : DurableState) : prog Op Z := marker (ResultingState d).

Definition snapshotRecord (pid : string) (sequenceNumber : N) (m : Z) : Snapshot := mkSnapshot pid sequenceNumber (Some (pack pid m)) 0 "" false ∅.
Definition snapshotMarker {Op} (s : Snapshot) : prog Op Z := marker (sState s).

(** ** Events stores ([events.go]) *)
Definition write_events (sc : Scope) (evs : list Event) (p : WritePrecondition) : prog events_op unit := call (WriteEvents sc evs p) ≫= requireNoError.
Definition latest_event (sc : Scope) (pid : string) : prog events_op (option Event) := call (GetLatestEvent sc pid) ≫= requireRead.
(** A record is there and is the one marked [m]. *)
Definition reads_event (sc : Scope) (pid : string) (m : Z) : prog events_op unit :=
  e ← latest_event sc pid; e ← requireNotNil e; actual ← eventMarker e; requireMarker m actual.

Definition eventsOtherTenantGetsNothing : prog events_op unit :=
  tenantA ← mustTenantScope "tenant-a"; tenantB ← mustTenantScope "tenant-b"; let id := "read-isolation" in
  _ ← write_events tenantA (eventBatch 0 id 1 111) Unconditional;
  got ← latest_event tenantB id;
  _ ← requireNil got;
  replayed ← call (ReplayEvents tenantB id 1 1 10);
  replayed ← requireRead replayed;
  requireEmpty replayed.

Definition eventsUnscopedAndTenantDoNotCrossRead : prog events_op unit :=
  tenantA ← mustTenantScope "tenant-a";
  let idWrittenByTenant := "unscoped-cross-read-tenant-wrote" in
  _ ← write_events tenantA (eventBatch 0 idWrittenByTenant 1 111) Unconditional;
  gotUnscoped ← latest_event Unscoped idWrittenByTenant;
  _ ← requireNil gotUnscoped;
  let idWrittenByUnscoped := "unscoped-cross-read-unscoped-wrote" in
  _ ← write_events Unscoped (eventBatch 1 idWrittenByUnscoped 1 222) Unconditional;
  gotTenant ← latest_event tenantA idWrittenByUnscoped;
  requireNil gotTenant.

Definition eventsBothTenantsReadOwnRecord : prog events_op unit :=
  tenantA ← mustTenantScope "tenant-a"; tenantB ← mustTenantScope "tenant-b"; let id := "both-write-own-read" in
  _ ← write_events tenantA (eventBatch 0 id 1 111) Unconditional;
  _ ← write_events tenantB (eventBatch 1 id 1 222) Unconditional;
  _ ← reads_event tenantA id 111;
  reads_event tenantB id 222.

Definition eventsOtherTenantWriteLeavesRecordUntouched : prog events_op unit :=
  tenantA ← mustTenantScope "tenant-a"; tenantB ← mustTenantScope "tenant-b"; let id := "write-isolation" in
  _ ← write_events tenantA (eventBatch 0 id 1 111) Unconditional;
  before ← latest_event tenantA id; before ← requireNotNil before;
  _ ← write_events tenantB (eventBatch 1 id 1 999) Unconditional;
  after ← latest_event tenantA id; after ← requireNotNil after;
  requireTrue (proto_equal_event before after) "tenant B's write must not modify tenant A's record for the same persistence_id".

Definition eventsDeleteIsScoped : prog events_op unit :=
  tenantA ← mustTenantScope "tenant-a"; tenantB ← mustTenantScope "tenant-b"; let id := "delete-isolation" in
  _ ← write_events tenantA (eventBatch 0 id 1 111) Unconditional;
  _ ← write_events tenantB (eventBatch 1 id 1 222) Unconditional;
  deleted ← call (DeleteEvents tenantB id 100);
  _ ← requireNoError deleted;
  _ ← reads_event tenantA id 111;
  gotB ← latest_event tenantB id;
  requireNil gotB.

Definition eventsExpectGenesisSucceedsForNewTenant : prog events_op unit :=
  tenantA ← mustTenantScope "tenant-a"; tenantB ← mustTenantScope "tenant-b"; let id := "genesis-cross-tenant" in
  _ ← write_events tenantA (eventBatch 0 id 1 111) ExpectGenesis;
  _ ← write_events tenantB (eventBatch 1 id 1 222) ExpectGenesis;
  reads_event tenantB id 222.

Definition eventsExpectRevisionConflictCarriesScope : prog events_op unit :=
  tenantA ← mustTenantScope "tenant-a"; let id := "conflict-carries-scope" in
  _ ← write_events tenantA (eventBatch 0 id 1 111) ExpectGenesis;
  err ← call (WriteEvents tenantA (eventBatch 1 id 2 222) (ExpectRevision 999));
  sc ← requireConflict err;
  requireTrue (Equal sc tenantA) "the conflict must carry the scope the failed write actually targeted".

Definition eventsConflictNotObservableInAnotherScope : prog events_op unit :=
  tenantA ← mustTenantScope "tenant-a"; tenantB ← mustTenantScope "tenant-b"; let id := "conflict-not-cross-scope" in
  _ ← write_events tenantA (eventBatch 0 id 1 111) ExpectGenesis;
  err ← call (WriteEvents tenantA (eventBatch 1 id 1 999) ExpectGenesis);
  _ ← requireConflict err;
  write_events tenantB (eventBatch 2 id 1 222) ExpectGenesis.

Definition eventsPersistenceIDsScopedToOwnTenant : prog events_op unit :=
  tenantA ← mustTenantScope "tenant-a"; tenantB ← mustTenantScope "tenant-b"; let sharedID := "shared-id" in let aOnlyID := "a-only-id" in
  _ ← write_events tenantA (eventBatch 0 sharedID 1 1) Unconditional;
  _ ← write_events tenantB (eventBatch 1 sharedID 1 2) Unconditional;
  _ ← write_events Unscoped (eventBatch 2 sharedID 1 3) Unconditional;
  _ ← write_events tenantA (eventBatch 3 aOnlyID 1 4) Unconditional;
  idsA ← call (PersistenceIDs tenantA 100 ""); idsA ← requireRead idsA;
  _ ← requireElementsMatch [sharedID; aOnlyID] idsA.1;
  idsB ← call (PersistenceIDs tenantB 100 ""); idsB ← requireRead idsB;
  _ ← requireElementsMatch [sharedID] idsB.1;
  requireNotContains idsB.1 aOnlyID.

Definition pageSize : N := 4.
Definition total : nat := 13.
Definition digit (n : nat) : string := String (Ascii.ascii_of_nat (48 + n)) EmptyString.
(** [fmt.Sprintf("pagination-id-%03d", i)], [i] below 1000 *)
Definition pagination_id (i : nat) : string := "pagination-id-" +:+ digit (i / 100) +:+ digit ((i / 10) `mod` 10) +:+ digit (i `mod` 10).

Fixpoint write_ids (tenant : Scope) (is_ : list nat) : prog events_op unit :=
  match is_ with
  | [] => Ret tt
  | i :: is_ => _ ← write_events tenant (eventBatch i (pagination_id i) 1 (Z.of_nat i)) Unconditional; write_ids tenant is_
  end.

(** The ids of all the pages and how many pages there were. The loop stops by
    itself at the page after [total + 1], which is the fuel it is given. *)
Fixpoint read_pages (tenant : Scope) (fuel : nat) (token : string) (pages : nat) (got : list string) : prog events_op (list string * nat) :=
  match fuel with
  | O => FailNow "pagination did not terminate"
  | S fuel =>
    r ← call (PersistenceIDs tenant pageSize token); r ← requireRead r;
    let pages := S pages in
    _ ← requireTrue (pages <=? total + 1)%nat "pagination did not terminate: nextPageToken never became empty";
    let got := got ++ r.1 in
    if bool_decide (r.2 = "") then Ret (got, pages) else read_pages tenant fuel r.2 pages got
  end.

Definition eventsPersistenceIDsPaginationCoversEveryIDExactlyOnce : prog events_op unit :=
  tenant ← mustTenantScope "pagination-tenant";
  _ ← write_ids tenant (seq 0 total);
  r ← read_pages tenant (S (S total)) "" 0 [];
  _ ← requireTrue (bool_decide (NoDup r.1)) "a persistence id was returned more than once across pages";
  _ ← requireTrue (bool_decide (list_to_set (C := gset string) (pagination_id <$> seq 0 total) = list_to_set r.1)) "pagination must cover every written persistence id exactly once, with none skipped at a page boundary";
  requireTrue (4 <=? r.2)%nat "the test setup must actually force multiple pages".

Definition eventsUnscopedNeverCollidesWithForgedTenant : prog events_op unit :=
  forgedTenant ← mustTenantScope "unscoped"; let id := "forging-guard" in
  _ ← write_events Unscoped (eventBatch 0 id 1 111) ExpectGenesis;
  _ ← write_events forgedTenant (eventBatch 1 id 1 222) ExpectGenesis;
  _ ← reads_event Unscoped id 111;
  reads_event forgedTenant id 222.

Record Check (Op : Type -> Type) := mkCheck { Name : string; Run : prog Op unit }.
Arguments mkCheck {Op} Name Run.
Arguments Name {Op} c.
Arguments Run {Op} c.

Definition EventsStoreChecks : list (Check events_op) :=
  [mkCheck "ReadIsolation/OtherTenantGetsNothing" eventsOtherTenantGetsNothing;
   mkCheck "ReadIsolation/UnscopedAndTenantDoNotCrossRead" eventsUnscopedAndTenantDoNotCrossRead;
   mkCheck "ReadIsolation/BothTenantsReadTheirOwnRecord" eventsBothTenantsReadOwnRecord;
   mkCheck "WriteIsolation/OtherTenantWriteLeavesRecordUntouched" eventsOtherTenantWriteLeavesRecordUntouched;
   mkCheck "WriteIsolation/DeleteIsScoped" eventsDeleteIsScoped;
   mkCheck "CAS/ExpectGenesisSucceedsForNewTenantOnEstablishedID" eventsExpectGenesisSucceedsForNewTenant;
   mkCheck "CAS/ExpectRevisionConflictCarriesItsScope" eventsExpectRevisionConflictCarriesScope;
   mkCheck "CAS/ConflictInOneScopeNotObservableInAnother" eventsConflictNotObservableInAnotherScope;
   mkCheck "Enumeration/PersistenceIDsScopedToOwnTenant" eventsPersistenceIDsScopedToOwnTenant;
   mkCheck "Enumeration/PersistenceIDsPaginationCoversEveryIDExactlyOnce" eventsPersistenceIDsPaginationCoversEveryIDExactlyOnce;
   mkCheck "Unscoped/NeverCollidesWithTenantNamedUnscoped" eventsUnscopedNeverCollidesWithForgedTenant].

(** ** State stores ([state.go]) *)
Definition write_state (sc : Scope) (d : DurableState) (p : WritePrecondition) : prog state_op unit := call (WriteState sc d p) ≫= requireNoError.
Definition latest_state (sc : Scope) (pid : string) : prog state_op (option DurableState) := call (GetLatestState sc pid) ≫= requireRead.
Definition reads_state (sc : Scope) (pid : string) (m : Z) : prog state_op unit :=
  d ← latest_state sc pid; d ← requireNotNil d; actual ← stateMarker d; requireMarker m actual.

Definition stateOtherTenantGetsNothing : prog state_op unit :=
  tenantA ← mustTenantScope "tenant-a"; tenantB ← mustTenantScope "tenant-b"; let id := "read-isolation" in
  _ ← write_state tenantA (stateRecord id 1 111) Unconditional;
  got ← latest_state tenantB id;
  requireNil got.

Definition stateUnscopedAndTenantDoNotCrossRead : prog state_op unit :=
  tenantA ← mustTenantScope "tenant-a";
  let idWrittenByTenant := "unscoped-cross-read-tenant-wrote" in
  _ ← write_state tenantA (stateRecord idWrittenByTenant 1 111) Unconditional;
  gotUnscoped ← latest_state Unscoped idWrittenByTenant;
  _ ← requireNil gotUnscoped;
  let idWrittenByUnscoped := "unscoped-cross-read-unscoped-wrote" in
  _ ← write_state Unscoped (stateRecord idWrittenByUnscoped 1 222) Unconditional;
  gotTenant ← latest_state tenantA idWrittenByUnscoped;
  requireNil gotTenant.

Definition stateBothTenantsReadOwnRecord : prog state_op unit :=
  tenantA ← mustTenantScope "tenant-a"; tenantB ← mustTenantScope "tenant-b"; let id := "both-write-own-read" in
  _ ← write_state tenantA (stateRecord id 1 111) Unconditional;
  _ ← write_state tenantB (stateRecord id 1 222) Unconditional;
  _ ← reads_state tenantA id 111;
  reads_state tenantB id 222.

Definition stateOtherTenantWriteLeavesRecordUntouched : prog state_op unit :=
  tenantA ← mustTenantScope "tenant-a"; tenantB ← mustTenantScope "tenant-b"; let id := "write-isolation" in
  _ ← write_state tenantA (stateRecord id 1 111) Unconditional;
  before ← latest_state tenantA id; before ← requireNotNil before;
  _ ← write_state tenantB (stateRecord id 1 999) Unconditional;
  after ← latest_state tenantA id; after ← requireNotNil after;
  requireTrue (proto_equal_state before after) "tenant B's write must not modify tenant A's record for the same persistence_id".

Definition stateExpectGenesisSucceedsForNewTenant : prog state_op unit :=
  tenantA ← mustTenantScope "tenant-a"; tenantB ← mustTenantScope "tenant-b"; let id := "genesis-cross-tenant" in
  _ ← write_state tenantA (stateRecord id 1 111) ExpectGenesis;
  _ ← write_state tenantB (stateRecord id 1 222) ExpectGenesis;
  reads_state tenantB id 222.

Definition stateExpectRevisionConflictCarriesScope : prog state_op unit :=
  tenantA ← mustTenantScope "tenant-a"; let id := "conflict-carries-scope" in
  _ ← write_state tenantA (stateRecord id 1 111) ExpectGenesis;
  err ← call (WriteState tenantA (stateRecord id 2 222) (ExpectRevision 999));
  sc ← requireConflict err;
  requireTrue (Equal sc tenantA) "the conflict must carry the scope the failed write actually targeted".

Definition stateConflictNotObservableInAnotherScope : prog state_op unit :=
  tenantA ← mustTenantScope "tenant-a"; tenantB ← mustTenantScope "tenant-b"; let id := "conflict-not-cross-scope" in
  _ ← write_state tenantA (stateRecord id 1 111) ExpectGenesis;
  err ← call (WriteState tenantA (stateRecord id 1 999) ExpectGenesis);
  _ ← requireConflict err;
  write_state tenantB (stateRecord id 1 222) ExpectGenesis.

Definition stateUnscopedNeverCollidesWithForgedTenant : prog state_op unit :=
  forgedTenant ← mustTenantScope "unscoped"; let id := "forging-guard" in
  _ ← write_state Unscoped (stateRecord id 1 111) ExpectGenesis;
  _ ← write_state forgedTenant (stateRecord id 1 222) ExpectGenesis;
  _ ← reads_state Unscoped id 111;
  reads_state forgedTenant id 222.

Definition StateStoreChecks : list (Check state_op) :=
  [mkCheck "ReadIsolation/OtherTenantGetsNothing" stateOtherTenantGetsNothing;
   mkCheck "ReadIsolation/UnscopedAndTenantDoNotCrossRead" stateUnscopedAndTenantDoNotCrossRead;
   mkCheck "ReadIsolation/BothTenantsReadTheirOwnRecord" stateBothTenantsReadOwnRecord;
   mkCheck "WriteIsolation/OtherTenantWriteLeavesRecordUntouched" stateOtherTenantWriteLeavesRecordUntouched;
   mkCheck "CAS/ExpectGenesisSucceedsForNewTenantOnEstablishedID" stateExpectGenesisSucceedsForNewTenant;
   mkCheck "CAS/ExpectRevisionConflictCarriesItsScope" stateExpectRevisionConflictCarriesScope;
   mkCheck "CAS/ConflictInOneScopeNotObservableInAnother" stateConflictNotObservableInAnotherScope;
   mkCheck "Unscoped/NeverCollidesWithTenantNamedUnscoped" stateUnscopedNeverCollidesWithForgedTenant].

(** ** Snapshot stores ([snapshot.go]) *)
Definition write_snapshot (sc : Scope) (s : Snapshot) : prog snapshot_op unit := call (WriteSnapshot sc s) ≫= requireNoError.
Definition latest_snapshot (sc : Scope) (pid : string) : prog snapshot_op (option Snapshot) := call (GetLatestSnapshot sc pid) ≫= requireRead.
Definition reads_snapshot (sc : Scope) (pid : string) (m : Z) : prog snapshot_op unit :=
  s ← latest_snapshot sc pid; s ← requireNotNil s; actual ← snapshotMarker s; requireMarker m actual.

Definition snapshotOtherTenantGetsNothing : prog snapshot_op unit :=
  tenantA ← mustTenantScope "tenant-a"; tenantB ← mustTenantScope "tenant-b"; let id := "read-isolation" in
  _ ← write_snapshot tenantA (snapshotRecord id 1 111);
  got ← latest_snapshot tenantB id;
  requireNil got.

Definition snapshotUnscopedAndTenantDoNotCrossRead : prog snapshot_op unit :=
  tenantA ← mustTenantScope "tenant-a";
  let idWrittenByTenant := "unscoped-cross-read-tenant-wrote" in
  _ ← write_snapshot tenantA (snapshotRecord idWrittenByTenant 1 111);
  gotUnscoped ← latest_snapshot Unscoped idWrittenByTenant;
  _ ← requireNil gotUnscoped;
  let idWrittenByUnscoped := "unscoped-cross-read-unscoped-wrote" in
  _ ← write_snapshot Unscoped (snapshotRecord idWrittenByUnscoped 1 222);
  gotTenant ← latest_snapshot tenantA idWrittenByUnscoped;
  requireNil gotTenant.

Definition snapshotBothTenantsReadOwnRecord : prog snapshot_op unit :=
  tenantA ← mustTenantScope "tenant-a"; tenantB ← mustTenantScope "tenant-b"; let id := "both-write-own-read" in
  _ ← write_snapshot tenantA (snapshotRecord id 1 111);
  _ ← write_snapshot tenantB (snapshotRecord id 1 222);
  _ ← reads_snapshot tenantA id 111;
  reads_snapshot tenantB id 222.

Definition snapshotOtherTenantWriteLeavesRecordUntouched : prog snapshot_op unit :=
  tenantA ← mustTenantScope "tenant-a"; tenantB ← mustTenantScope "tenant-b"; let id := "write-isolation" in
  _ ← write_snapshot tenantA (snapshotRecord id 1 111);
  before ← latest_snapshot tenantA id; before ← requireNotNil before;
  _ ← write_snapshot tenantB (snapshotRecord id 1 999);
  after ← latest_snapshot tenantA id; after ← requireNotNil after;
  requireTrue (proto_equal_snapshot before after) "tenant B's write must not modify tenant A's snapshot for the same persistence_id and sequence number".

Definition snapshotDeleteIsScoped : prog snapshot_op unit :=
  tenantA ← mustTenantScope "tenant-a"; tenantB ← mustTenantScope "tenant-b"; let id := "delete-isolation" in
  _ ← write_snapshot tenantA (snapshotRecord id 1 111);
  _ ← write_snapshot tenantB (snapshotRecord id 1 222);
  deleted ← call (DeleteSnapshots tenantB id 100);
  _ ← requireNoError deleted;
  _ ← reads_snapshot tenantA id 111;
  gotB ← latest_snapshot tenantB id;
  requireNil gotB.

Definition snapshotUnscopedNeverCollidesWithForgedTenant : prog snapshot_op unit :=
  forgedTenant ← mustTenantScope "unscoped"; let id := "forging-guard" in
  _ ← write_snapshot Unscoped (snapshotRecord id 1 111);
  _ ← write_snapshot forgedTenant (snapshotRecord id 1 222);
  _ ← reads_snapshot Unscoped id 111;
  reads_snapshot forgedTenant id 222.

Definition SnapshotStoreChecks : list (Check snapshot_op) :=
  [mkCheck "ReadIsolation/OtherTenantGetsNothing" snapshotOtherTenantGetsNothing;
   mkCheck "ReadIsolation/UnscopedAndTenantDoNotCrossRead" snapshotUnscopedAndTenantDoNotCrossRead;
   mkCheck "ReadIsolation/BothTenantsReadTheirOwnRecord" snapshotBothTenantsReadOwnRecord;
   mkCheck "WriteIsolation/OtherTenantWriteLeavesRecordUntouched" snapshotOtherTenantWriteLeavesRecordUntouched;
   mkCheck "WriteIsolation/DeleteIsScoped" snapshotDeleteIsScoped;
   mkCheck "Unscoped/NeverCollidesWithTenantNamedUnscoped" snapshotUnscopedNeverCollidesWithForgedTenant].
End Checks.
Arguments mkCheck {Op} Name Run.
Arguments Name {Op} c.
Arguments Run {Op} c.

(** ** Running a suite ([check.go])

    Every check has a fresh store of its own, connected first. *)
Section Running.
Context {Op : Type -> Type} {S : Type} (h : handler Op S) (Connect : S -> result string S) (newStore : S).

Record CheckResult := mkCheckResult { cName : string; cFailed : bool; Errors : list string }.

(** The checks run without a test; a check that panics takes the process with
    it. *)
Definition captureCheck (c : Check Op) : option CheckResult :=
  match Connect newStore with
  | Err m => Some (mkCheckResult (Name c) true ["connect: " +:+ m])
  | Ok store =>
    match run h (Run c) store with
    | Passed => Some (mkCheckResult (Name c) false [])
    | Failed m => Some (mkCheckResult (Name c) true [m])
    | Panicked => None
    end
  end.
Definition captureChecks (checks : list (Check Op)) : option (list CheckResult) := mapM captureCheck checks.

(** The checks as subtests: one whose store cannot be reached is skipped. *)
Inductive subtest := Skipped | Ran (v : verdict).
Definition runConformance (checks : list (Check Op)) : list (string * subtest) :=
  (fun c => (Name c, match Connect newStore with Err _ => Skipped | Ok store => Ran (run h (Run c) store) end)) <$> checks.
End Running.
End conformance.
