(* ===== verification/ConformanceSpec.v ===== *)
(** * What the conformance suites prove

    [contract_passes_events_suite] and its siblings: a store that keeps the
    contract of [StoreApi.v] and does not fail passes the isolation checks.
    [scope_blind_events_store_caught]: such a store, used behind a layer that
    ignores the scope, is caught. Both by simulation: a run on the store is the
    run on the abstract contents the contract describes, which is computed. *)

From S2P Require Import Prelude GoStrings Tenancy Persistence Egopb StoreApi EventStore StateStores Command Adoption AdoptionRerun AdoptionExamples Conformance.
From Stdlib Require Import ZArith Lia.
Open Scope string_scope.
Open Scope list_scope.
Open Scope urd_scope.

Module conformance_spec.
Import persistence egopb conformance.

(** ** Simulation *)
Definition simulates {Op S V} (R : S -> V -> Prop) (h : handler Op S) (ref : handler Op V) : Prop :=
  forall B (o : Op B) s v b v', R s v -> ref B o v = Some (b, v') -> exists s', h B o s = Some (b, s') /\ R s' v'.

Lemma run_simulates {Op S V A} R (h : handler Op S) (ref : handler Op V) (p : prog Op A) s v :
  simulates R h ref -> R s v -> run ref p v <> Panicked -> run h p s = run ref p v.
Proof.
  intros Hsim. revert s v. induction p as [a|m|B o k IH]; intros s v HR Hp; [done..|]. simpl in *.
  destruct (ref B o v) as [[b v']|] eqn:Ho; [|done]. destruct (Hsim _ _ _ _ _ _ HR Ho) as (s' & -> & HR'). by apply IH.
Qed.

(** ** Ignoring the scope *)
Definition blind_events {S} (h : handler events_op S) : handler events_op S := fun B o =>
  match o in events_op B return S -> option (B * S) with
  | WriteEvents _ evs p => h _ (WriteEvents Unscoped evs p)
  | DeleteEvents _ pid to => h _ (DeleteEvents Unscoped pid to)
  | ReplayEvents _ pid from to limit => h _ (ReplayEvents Unscoped pid from to limit)
  | GetLatestEvent _ pid => h _ (GetLatestEvent Unscoped pid)
  | PersistenceIDs _ size token => h _ (PersistenceIDs Unscoped size token)
  end.
Definition blind_states {S} (h : handler state_op S) : handler state_op S := fun B o =>
  match o in state_op B return S -> option (B * S) with
  | WriteState _ d p => h _ (WriteState Unscoped d p)
  | GetLatestState _ pid => h _ (GetLatestState Unscoped pid)
  end.
Definition blind_snapshots {S} (h : handler snapshot_op S) : handler snapshot_op S := fun B o =>
  match o in snapshot_op B return S -> option (B * S) with
  | WriteSnapshot _ s => h _ (WriteSnapshot Unscoped s)
  | DeleteSnapshots _ pid to => h _ (DeleteSnapshots Unscoped pid to)
  | GetLatestSnapshot _ pid => h _ (GetLatestSnapshot Unscoped pid)
  end.

Lemma blind_events_simulates {S V} R (h : handler events_op S) (ref : handler events_op V) : simulates R h ref -> simulates R (blind_events h) (blind_events ref).
Proof. intros Hsim B o. destruct o; apply Hsim. Qed.
Lemma blind_states_simulates {S V} R (h : handler state_op S) (ref : handler state_op V) : simulates R h ref -> simulates R (blind_states h) (blind_states ref).
Proof. intros Hsim B o. destruct o; apply Hsim. Qed.
Lemma blind_snapshots_simulates {S V} R (h : handler snapshot_op S) (ref : handler snapshot_op V) : simulates R h ref -> simulates R (blind_snapshots h) (blind_snapshots ref).
Proof. intros Hsim B o. destruct o; apply Hsim. Qed.

(** ** The contents a contract describes

    As implementations, partial: [None] where the contract leaves the answer
    open, or where the suites need none. *)
Definition contents := Scope -> string -> option api.stream.

Definition newest (s : option api.stream) : option (option Event) :=
  let s := default api.noStream s in
  if bool_decide (api.records s = ∅) then Some None else Some <$> api.records s !! api.srevision s.

Definition wrote (v : contents) (sc : Scope) (evs : list Event) : contents := fun sc' pid' =>
  if decide (sc' = sc /\ api.of_pid pid' evs <> []) then Some (api.commit (v sc pid') (api.of_pid pid' evs)) else v sc' pid'.
Definition deleted (v : contents) (sc : Scope) (pid : string) (to : N) : contents := fun sc' pid' =>
  if decide (sc' = sc /\ pid' = pid) then (fun s => api.truncate s to) <$> v sc pid else v sc' pid'.

Definition events_ref : handler events_op contents := fun B o v =>
  match o in events_op B return option (B * contents) with
  | WriteEvents sc evs p =>
    if negb (Valid sc && PreconditionValid p && api.single_target evs) then None
    else if api.holds p (v sc (api.target evs))
    then Some (NoError, wrote v sc evs)
    else Some (Conflict sc, v)
  | DeleteEvents sc pid to =>
    if negb (Valid sc) then None
    else Some (NoError, deleted v sc pid to)
  | ReplayEvents sc pid from to limit =>
    if negb (Valid sc && (limit <=? api.max_int)%N) then None
    else if bool_decide (api.records (default api.noStream (v sc pid)) = ∅) then Some (Ok [], v) else None
  | GetLatestEvent sc pid => if negb (Valid sc) then None else r ← newest (v sc pid); Some (Ok r, v)
  | PersistenceIDs _ _ _ => None
  end.

Definition replaced (v : Scope -> string -> option DurableState) (sc : Scope) (d : DurableState) : Scope -> string -> option DurableState := fun sc' pid' =>
  if decide (sc' = sc /\ pid' = dPersistenceId d) then Some d else v sc' pid'.

Definition states_ref : handler state_op (Scope -> string -> option DurableState) := fun B o v =>
  match o in state_op B return option (B * (Scope -> string -> option DurableState)) with
  | WriteState sc d p =>
    if negb (Valid sc && PreconditionValid p) then None
    else if api.state_holds p (v sc (dPersistenceId d))
    then Some (NoError, replaced v sc d)
    else Some (Conflict sc, v)
  | GetLatestState sc pid => if negb (Valid sc) then None else Some (Ok (v sc pid), v)
  end.

(** The one snapshot of a record, as many as the suite writes. *)
Definition only (m : gmap N Snapshot) : option (option Snapshot) :=
  match map_to_list m with
  | [] => Some None
  | [(n, s)] => if (sSequenceNumber s =? n)%N then Some (Some s) else None
  | _ => None
  end.

#[export] Instance wf_scope_dec sc : Decision (wf_scope sc).
Proof.
  destruct sc as [[] id].
  - right. inversion 1.
  - destruct (decide (id = "")) as [->|Hne]; [left; constructor|right; by inversion 1].
  - destruct (tenancy.NewTenantID id) as [id'|e] eqn:Hid; [destruct (decide (id' = id)) as [->|Hne]; [left; by constructor|]|].
    + right. inversion 1. congruence.
    + right. inversion 1. congruence.
Defined.

Definition kept (v : Scope -> string -> gmap N Snapshot) (sc : Scope) (s : Snapshot) : Scope -> string -> gmap N Snapshot := fun sc' pid' =>
  if decide (sc' = sc /\ pid' = sPersistenceId s) then <[sSequenceNumber s := s]> (v sc' pid') else v sc' pid'.
Definition dropped (v : Scope -> string -> gmap N Snapshot) (sc : Scope) (pid : string) (to : N) : Scope -> string -> gmap N Snapshot := fun sc' pid' =>
  if decide (sc' = sc /\ pid' = pid) then filter (fun kv => (to < kv.1)%N) (v sc' pid') else v sc' pid'.

Definition snapshots_ref : handler snapshot_op (Scope -> string -> gmap N Snapshot) := fun B o v =>
  match o in snapshot_op B return option (B * (Scope -> string -> gmap N Snapshot)) with
  | WriteSnapshot sc s =>
    if bool_decide (wf_scope sc)
    then Some (NoError, kept v sc s)
    else None
  | DeleteSnapshots sc pid to =>
    if bool_decide (wf_scope sc)
    then Some (NoError, dropped v sc pid to)
    else None
  | GetLatestSnapshot sc pid => if bool_decide (wf_scope sc) then r ← only (v sc pid); Some (Ok r, v) else None
  end.

(** ** Stores that do not fail *)
Class ReliableConflicts (St : Type) `{api.EventsStoreLaws St} : Prop :=
  conflict_reported st sc evs p : api.store_ok st -> Valid sc = true -> PreconditionValid p = true -> api.single_target evs = true ->
    api.holds p (api.view st sc (api.target evs)) = false ->
    exists e, (api.WriteEvents st sc evs p).1 = Err (EConflict e) /\ cscope e = sc.

Class ReliableStateStore (St : Type) `{api.StateStoreLaws St} := {
  state_up : St -> Prop;
  state_written st sc d p : state_up st -> Valid sc = true -> PreconditionValid p = true ->
    state_up (api.WriteState st sc d p).2 /\
    if api.state_holds p (api.dview st sc (dPersistenceId d)) then (api.WriteState st sc d p).1 = Ok tt
    else exists e, (api.WriteState st sc d p).1 = Err (EConflict e) /\ cscope e = sc;
  state_read st sc pid : state_up st -> Valid sc = true -> exists r, api.GetLatestState st sc pid = Ok r
}.

Class ReliableSnapshots (Sn : Type) `{api.SnapshotStoreLaws Sn} : Prop := {
  snapshot_written st sc s : api.snap_ok st -> wf_scope sc -> (api.WriteSnapshot st sc s).1 = Ok tt;
  snapshot_deleted st sc pid to : api.snap_ok st -> wf_scope sc -> (api.DeleteSnapshots st sc pid to).1 = Ok tt
}.

Section Events.
Context {St : Type} `{api.ReliableEventsStore St} `{!ReliableConflicts St} `{!adoption_rerun.ReliableDelete (St := St)} `{!adoption.Enumerable St}.

Definition holds_contents (st : St) (v : contents) : Prop := api.store_ok st /\ forall sc pid, api.view st sc pid = v sc pid.

Lemma newest_latest s r r' : (forall s', s = Some s' -> api.stream_ok s') -> newest s = Some r -> api.latest_of s r' -> r' = r.
Proof.
  intros Hok. unfold newest. assert (api.stream_ok (default api.noStream s)) as Hs by (destruct s; [by apply Hok|apply map_Forall_empty]).
  case_bool_decide as He.
  - intros [= <-]. destruct r' as [e|]; [|done]. intros [Hr _]. by rewrite He, lookup_empty in Hr.
  - intros (e & Hn & ->)%fmap_Some. destruct r' as [e'|]; [|done]. intros [Hr Hm]. f_equal.
    destruct (Hs _ _ Hn) as [Hseq _]. destruct (Hs _ _ Hr) as [_ Hle]. pose proof (Hm _ _ Hn) as Hle'.
    assert (SequenceNumber e' = api.srevision (default api.noStream s)) as Heq by lia. rewrite Heq in Hr. congruence.
Qed.

Lemma empty_replay s from to l : api.records (default api.noStream s) = ∅ -> api.range_of s from to l -> l = [].
Proof. intros He [_ Hl]. destruct l as [|e l]; [done|]. destruct (proj1 (Hl e)) as [_ Hr]; [left|]. by rewrite He, lookup_empty in Hr. Qed.

Lemma events_simulated : simulates holds_contents events_handler events_ref.
Proof.
  intros B o st v b v' [Hok Hv] Ho. destruct o as [sc evs p|sc pid to|sc pid from to limit|sc pid|sc size token]; simpl in *; [..|done].
  - destruct (Valid sc) eqn:Hsc, (PreconditionValid p) eqn:Hp, (api.single_target evs) eqn:Hst; simplify_eq/=.
    destruct (api.holds p (v sc (api.target evs))) eqn:Hh; simplify_eq.
    + destruct (api.write_succeeds st sc evs p) as [st' Hw]; [by rewrite ?Hv..|]. rewrite Hw. exists st'. split; [done|].
      destruct (api.write_ok _ _ _ _ _ Hok Hw) as (Hok' & _ & _ & _ & Hv'). split; [done|]. intros sc' pid'. rewrite Hv'. unfold wrote, deleted. by rewrite !Hv.
    + destruct (conflict_reported st sc evs p) as (e & He & <-); [by rewrite ?Hv..|]. destruct (api.WriteEvents st _ evs p) as [r st'] eqn:Hw. simpl in He. subst r.
      rewrite (api.write_err _ _ _ _ _ _ Hok Hw). exists st. done.
  - destruct (Valid sc) eqn:Hsc; simplify_eq/=. destruct (adoption_rerun.delete_succeeds st sc pid to) as [st' Hd]; [done..|]. rewrite Hd. exists st'. split; [done|].
    destruct (api.delete_ok _ _ _ _ _ Hok Hd) as (Hok' & _ & Hv'). split; [done|]. intros sc' pid'. rewrite Hv'. unfold wrote, deleted. by rewrite !Hv.
  - destruct (Valid sc) eqn:Hsc, (N.leb_spec limit api.max_int); simplify_eq/=. case_bool_decide as He; simplify_eq.
    destruct (api.replay_succeeds st sc pid from to limit) as [l Hl]; [done..|]. rewrite Hl. destruct (api.replay_ok _ _ _ _ _ _ _ Hok ltac:(done) Hl) as (all & Hall & ->).
    rewrite Hv in Hall. rewrite (empty_replay _ _ _ _ He Hall). exists st. by rewrite take_nil.
  - destruct (Valid sc) eqn:Hsc; simplify_eq/=. destruct (newest (v sc pid)) as [r|] eqn:Hn; simplify_eq/=.
    destruct (api.latest_succeeds st sc pid) as [r' Hr]; [done..|]. rewrite Hr. pose proof (api.latest_ok _ _ _ _ Hok Hr) as Hl.
    assert (r' = r) as ->. { eapply newest_latest; [|done|by rewrite <- Hv]. intros s' Hs. eapply api.view_ok; [done|]. by rewrite Hv. }
    by exists st.
Qed.
End Events.

Section States.
Context {St : Type} `{ReliableStateStore St}.

Definition holds_states (st : St) (v : Scope -> string -> option DurableState) : Prop := state_up st /\ forall sc pid, api.dview st sc pid = v sc pid.

Lemma states_simulated : simulates holds_states state_handler states_ref.
Proof.
  intros B o st v b v' [Hok Hv] Ho. destruct o as [sc d p|sc pid]; simpl in *.
  - destruct (Valid sc) eqn:Hsc, (PreconditionValid p) eqn:Hp; simplify_eq/=.
    destruct (state_written st sc d p Hok Hsc Hp) as [Hok' Hw]. rewrite Hv in Hw.
    destruct (api.WriteState st sc d p) as [r st'] eqn:Hr. simpl in *. destruct (api.state_holds p _); simplify_eq.
    + exists st'. split; [done|]. split; [done|]. destruct (api.dwrite_ok _ _ _ _ _ Hr) as (_ & _ & Hv'). intros sc' pid'. rewrite Hv'. unfold replaced, kept, dropped. by rewrite Hv.
    + destruct Hw as (e & -> & <-). rewrite (api.dwrite_err _ _ _ _ _ _ Hr). by exists st.
  - destruct (Valid sc) eqn:Hsc; simplify_eq/=. destruct (state_read st sc pid Hok Hsc) as [r Hr]. rewrite Hr. rewrite (api.dlatest_ok _ _ _ _ Hr), Hv. by exists st.
Qed.
End States.

Section Snapshots.
Context {Sn : Type} `{api.ReliableSnapshotStore Sn} `{!ReliableSnapshots Sn}.

Definition holds_snapshots (st : Sn) (v : Scope -> string -> gmap N Snapshot) : Prop := api.snap_ok st /\ forall sc pid, api.sview st sc pid = v sc pid.

Lemma only_latest m r r' : only m = Some r -> api.latest_snapshot m r' -> r' = r.
Proof.
  unfold only. pose proof (fun n s => elem_of_map_to_list m n s) as Hin. destruct (map_to_list m) as [|[n s] [|]] eqn:Hm; [|destruct (sSequenceNumber s =? n)%N; [|done]|done].
  - intros [= <-]. apply map_to_list_empty_iff in Hm as ->. destruct r' as [s|]; [|done]. intros [Hs _]. by rewrite lookup_empty in Hs.
  - intros [= <-]. destruct r' as [s'|]; simpl.
    + intros [Hs _]. apply Hin, list_elem_of_singleton in Hs. by simplify_eq.
    + intros ->. assert ((n, s) ∈ [(n, s)]) as Hs by left. apply Hin in Hs. by rewrite lookup_empty in Hs.
Qed.

Lemma snapshots_simulated : simulates holds_snapshots snapshot_handler snapshots_ref.
Proof.
  intros B o st v b v' [Hok Hv] Ho. destruct o as [sc s|sc pid to|sc pid]; simpl in *; case_bool_decide as Hsc; simplify_eq/=.
  - pose proof (snapshot_written st sc s Hok Hsc) as Hr. destruct (api.WriteSnapshot st sc s) as [r st'] eqn:Hw. simpl in Hr. subst r. exists st'. split; [done|].
    destruct (api.swrite_ok _ _ _ _ Hok Hsc Hw) as [Hok' Hv']. split; [done|]. intros sc' pid'. rewrite Hv'. unfold replaced, kept, dropped. by rewrite Hv.
  - pose proof (snapshot_deleted st sc pid to Hok Hsc) as Hr. destruct (api.DeleteSnapshots st sc pid to) as [r st'] eqn:Hw. simpl in Hr. subst r. exists st'. split; [done|].
    destruct (api.sdelete_ok _ _ _ _ _ Hok Hsc Hw) as [Hok' Hv']. split; [done|]. intros sc' pid'. rewrite Hv'. unfold replaced, kept, dropped. by rewrite Hv.
  - destruct (only (v sc pid)) as [r|] eqn:Hn; simplify_eq/=. destruct (api.slatest_succeeds st sc pid Hok Hsc) as [r' Hr]. rewrite Hr.
    pose proof (api.slatest_ok _ _ _ _ Hok Hsc Hr) as Hl. rewrite Hv in Hl. rewrite (only_latest _ _ _ Hn Hl). by exists st.
Qed.
End Snapshots.

(** ** Running a check on the contents, call by call *)
Lemma run_call {Op S A B} (h : handler Op S) (o : Op B) (k : B -> prog Op A) s b s' r :
  h B o s = Some (b, s') -> run h (k b) s' = r -> run h (Call o k) s = r.
Proof. intros Ho. simpl. by rewrite Ho. Qed.

Section Calls.
Implicit Types (v : contents).

Lemma ref_write v sc evs p : Valid sc && PreconditionValid p && api.single_target evs = true -> api.holds p (v sc (api.target evs)) = true ->
  events_ref _ (WriteEvents sc evs p) v = Some (NoError, wrote v sc evs).
Proof. intros H1 H2. simpl. by rewrite H1, H2. Qed.
Lemma ref_conflict v sc evs p : Valid sc && PreconditionValid p && api.single_target evs = true -> api.holds p (v sc (api.target evs)) = false ->
  events_ref _ (WriteEvents sc evs p) v = Some (Conflict sc, v).
Proof. intros H1 H2. simpl. by rewrite H1, H2. Qed.
Lemma ref_delete v sc pid to : Valid sc = true -> events_ref _ (DeleteEvents sc pid to) v = Some (NoError, deleted v sc pid to).
Proof. intros H1. simpl. by rewrite H1. Qed.
Lemma ref_latest v sc pid r : newest (v sc pid) = Some r -> Valid sc = true -> events_ref _ (GetLatestEvent sc pid) v = Some (Ok r, v).
Proof. intros H1 H2. simpl. by rewrite H1, H2. Qed.
Lemma ref_replay v sc pid from to limit : Valid sc && (limit <=? api.max_int)%N = true -> bool_decide (api.records (default api.noStream (v sc pid)) = ∅) = true ->
  events_ref _ (ReplayEvents sc pid from to limit) v = Some (Ok [], v).
Proof. intros H1 H2. simpl. by rewrite H1, H2. Qed.

Lemma ref_write_state (v : Scope -> string -> option DurableState) sc d p : Valid sc && PreconditionValid p = true -> api.state_holds p (v sc (dPersistenceId d)) = true ->
  states_ref _ (WriteState sc d p) v = Some (NoError, replaced v sc d).
Proof. intros H1 H2. simpl. by rewrite H1, H2. Qed.
Lemma ref_conflict_state (v : Scope -> string -> option DurableState) sc d p : Valid sc && PreconditionValid p = true -> api.state_holds p (v sc (dPersistenceId d)) = false ->
  states_ref _ (WriteState sc d p) v = Some (Conflict sc, v).
Proof. intros H1 H2. simpl. by rewrite H1, H2. Qed.
Lemma ref_latest_state (v : Scope -> string -> option DurableState) sc pid r : v sc pid = r -> Valid sc = true -> states_ref _ (GetLatestState sc pid) v = Some (Ok r, v).
Proof. intros <- H2. simpl. by rewrite H2. Qed.

Lemma ref_write_snapshot (v : Scope -> string -> gmap N Snapshot) sc s : bool_decide (wf_scope sc) = true -> snapshots_ref _ (WriteSnapshot sc s) v = Some (NoError, kept v sc s).
Proof. intros H1. simpl. by rewrite H1. Qed.
Lemma ref_delete_snapshots (v : Scope -> string -> gmap N Snapshot) sc pid to : bool_decide (wf_scope sc) = true -> snapshots_ref _ (DeleteSnapshots sc pid to) v = Some (NoError, dropped v sc pid to).
Proof. intros H1. simpl. by rewrite H1. Qed.
Lemma ref_latest_snapshot (v : Scope -> string -> gmap N Snapshot) sc pid r : only (v sc pid) = Some r -> bool_decide (wf_scope sc) = true ->
  snapshots_ref _ (GetLatestSnapshot sc pid) v = Some (Ok r, v).
Proof. intros H1 H2. simpl. by rewrite H1, H2. Qed.
End Calls.

(** ** The theorems *)
Section Suites.
Context (pack : string -> Z -> Any) (balance : Any -> result string Z) (balance_pack : forall id m, balance (pack id m) = Ok m).
Context (eqE : Event -> Event -> bool) (eqD : DurableState -> DurableState -> bool) (eqS : Snapshot -> Snapshot -> bool).
Context (eqE_spec : forall e e', eqE e e' = true <-> e = e') (eqD_spec : forall d d', eqD d d' = true <-> d = d') (eqS_spec : forall s s', eqS s s' = true <-> s = s').
Context (now : nat -> Z).

Lemma eqE_refl e : eqE e e = true.
Proof. by apply eqE_spec. Qed.
Lemma eqD_refl d : eqD d d = true.
Proof. by apply eqD_spec. Qed.
Lemma eqS_refl s : eqS s s = true.
Proof. by apply eqS_spec. Qed.

(** Records with different markers differ. *)
Lemma pack_inj id id' m m' : pack id m = pack id' m' -> m = m'.
Proof. intros Heq. apply (f_equal balance) in Heq. rewrite !balance_pack in Heq. congruence. Qed.
Lemma differ {A} (eqA : A -> A -> bool) (spec : forall x y, eqA x y = true <-> x = y) (payload : A -> option Any) x y id m m' :
  payload x = Some (pack id m) -> payload y = Some (pack id m') -> m <> m' -> eqA x y = false.
Proof. intros Hx Hy Hm. apply not_true_iff_false. rewrite spec. intros ->. destruct Hm. apply (pack_inj id id). congruence. Qed.

Abbreviation events_checks := (EventsStoreChecks pack balance (proto_equal_event := eqE) now).
Abbreviation state_checks := (StateStoreChecks pack balance (proto_equal_state := eqD)).
Abbreviation snapshot_checks := (SnapshotStoreChecks pack balance (proto_equal_snapshot := eqS)).

Ltac head := match goal with |- run ?h ?p ?v = ?r => let p' := eval lazy head in p in change (run h p' v = r) end; rewrite ?balance_pack, ?eqE_refl, ?eqD_refl, ?eqS_refl.
Ltac by_computing := vm_compute; reflexivity.
Ltac answer := cbn [blind_events blind_states blind_snapshots];
  first [apply ref_write; by_computing | apply ref_conflict; by_computing | apply ref_delete; by_computing | apply ref_replay; by_computing
    | apply ref_write_state; by_computing | apply ref_conflict_state; by_computing
    | apply ref_write_snapshot; by_computing | apply ref_delete_snapshots; by_computing
    | match goal with
      | |- events_ref _ (GetLatestEvent ?sc ?pid) ?v = _ => let r := eval vm_compute in (newest (v sc pid)) in
        match r with Some ?r => apply (ref_latest v sc pid r); by_computing end
      | |- states_ref _ (GetLatestState ?sc ?pid) ?v = _ => let r := eval vm_compute in (v sc pid) in apply (ref_latest_state v sc pid r); by_computing
      | |- snapshots_ref _ (GetLatestSnapshot ?sc ?pid) ?v = _ => let r := eval vm_compute in (only (v sc pid)) in
        match r with Some ?r => apply (ref_latest_snapshot v sc pid r); by_computing end
      end].
Ltac runs := repeat (head; first [reflexivity | eapply run_call; [answer|]]).
Ltac each tac := repeat (apply List.Forall_cons; [tac|]); apply List.Forall_nil.

Definition enumerates (c : Check events_op) : bool := has_prefix "Enumeration/" (Name c).
Definition empty {A} : Scope -> string -> option A := fun _ _ => None.

Lemma ref_passes_events : Forall (fun c => enumerates c = true \/ run events_ref (Run c) empty = Passed) events_checks.
Proof. unfold EventsStoreChecks. each ltac:(first [left; reflexivity | right; cbn [Run]; runs]). Qed.
Lemma ref_passes_states : Forall (fun c => run states_ref (Run c) empty = Passed) state_checks.
Proof. unfold StateStoreChecks. each ltac:(cbn [Run]; runs). Qed.
Lemma ref_passes_snapshots : Forall (fun c => run snapshots_ref (Run c) (fun _ _ => ∅) = Passed) snapshot_checks.
Proof. unfold SnapshotStoreChecks. each ltac:(cbn [Run]; runs). Qed.

Ltac fails := cbn [Run]; eexists; unfold empty; runs.
Ltac differing := first [erewrite (differ eqE eqE_spec EventAny) by done | erewrite (differ eqD eqD_spec ResultingState) by done | erewrite (differ eqS eqS_spec sState) by done].

Lemma ref_catches_events : Forall (fun c => enumerates c = true \/ exists m, run (blind_events events_ref) (Run c) empty = Failed m) events_checks.
Proof. unfold EventsStoreChecks. each ltac:(first [left; reflexivity | right; fails; try (head; differing; reflexivity)]). Qed.
Lemma ref_catches_states : Forall (fun c => exists m, run (blind_states states_ref) (Run c) empty = Failed m) state_checks.
Proof. unfold StateStoreChecks. each ltac:(fails; try (head; differing; reflexivity)). Qed.
Lemma ref_catches_snapshots : Forall (fun c => exists m, run (blind_snapshots snapshots_ref) (Run c) (fun _ _ => ∅) = Failed m) snapshot_checks.
Proof. unfold SnapshotStoreChecks. each ltac:(fails; try (head; differing; reflexivity)). Qed.

Lemma suite_on {Op S V} R (h : handler Op S) (ref : handler Op V) (skip : Check Op -> bool) (P : verdict -> Prop) checks s v :
  simulates R h ref -> R s v -> (forall x, P x -> x <> Panicked) ->
  Forall (fun c => skip c = true \/ P (run ref (Run c) v)) checks -> Forall (fun c => skip c = true \/ P (run h (Run c) s)) checks.
Proof.
  intros Hsim HR HP Href. eapply Forall_impl; [exact Href|]. intros c [Hc|Hc]; [by left|right]. by rewrite (run_simulates R h ref _ s v Hsim HR (HP _ Hc)).
Qed.

Definition caught (x : verdict) : Prop := exists m, x = Failed m.
Lemma caught_no_panic x : caught x -> x <> Panicked.
Proof. by intros [m ->]. Qed.
Lemma passed_no_panic x : x = Passed -> x <> Panicked.
Proof. by intros ->. Qed.

Section EventsSuite.
Context {St : Type} `{api.ReliableEventsStore St} `{!ReliableConflicts St} `{!adoption_rerun.ReliableDelete (St := St)} `{!adoption.Enumerable St}.

(** C37: An events store that keeps the contract and does not fail, and holds
    nothing yet, passes every isolation check of the suite; how it lists its
    ids is not part of that contract. *)
Theorem contract_passes_events_suite (st : St) : api.store_ok st -> (forall sc pid, api.view st sc pid = None) ->
  Forall (fun c => enumerates c = true \/ run events_handler (Run c) st = Passed) events_checks.
Proof.
  intros Hok Hv. by apply (suite_on holds_contents events_handler events_ref enumerates (fun x => x = Passed) events_checks st empty events_simulated);
    [split|apply passed_no_panic|apply ref_passes_events].
Qed.

(** Behind a layer that drops the tenant of every call, the same store fails
    every isolation check of the suite: none of them can be passed without
    isolation. *)
Theorem scope_blind_events_store_caught (st : St) : api.store_ok st -> (forall sc pid, api.view st sc pid = None) ->
  Forall (fun c => enumerates c = true \/ exists m, run (blind_events events_handler) (Run c) st = Failed m) events_checks.
Proof.
  intros Hok Hv. by apply (suite_on holds_contents _ _ enumerates caught events_checks st empty (blind_events_simulates _ _ _ events_simulated));
    [split|apply caught_no_panic|apply ref_catches_events].
Qed.
End EventsSuite.

Section StateSuite.
Context {St : Type} `{ReliableStateStore St}.

Theorem contract_passes_state_suite (st : St) : state_up st -> (forall sc pid, api.dview st sc pid = None) ->
  Forall (fun c => run state_handler (Run c) st = Passed) state_checks /\
  Forall (fun c => exists m, run (blind_states state_handler) (Run c) st = Failed m) state_checks.
Proof.
  intros Hok Hv. assert (holds_states st empty) as HR by done. split.
  - eapply Forall_impl; [exact ref_passes_states|]. intros c Hc. simpl in Hc. rewrite (run_simulates _ _ _ _ _ _ states_simulated HR); [done|by rewrite Hc].
  - eapply Forall_impl; [exact ref_catches_states|]. intros c [m Hc]. rewrite (run_simulates _ _ _ _ _ _ (blind_states_simulates _ _ _ states_simulated) HR); [by exists m|by rewrite Hc].
Qed.
End StateSuite.

Section SnapshotSuite.
Context {Sn : Type} `{api.ReliableSnapshotStore Sn} `{!ReliableSnapshots Sn}.

Theorem contract_passes_snapshot_suite (st : Sn) : api.snap_ok st -> (forall sc pid, api.sview st sc pid = ∅) ->
  Forall (fun c => run snapshot_handler (Run c) st = Passed) snapshot_checks /\
  Forall (fun c => exists m, run (blind_snapshots snapshot_handler) (Run c) st = Failed m) snapshot_checks.
Proof.
  intros Hok Hv. assert (holds_snapshots st (fun _ _ => ∅)) as HR by done. split.
  - eapply Forall_impl; [exact ref_passes_snapshots|]. intros c Hc. simpl in Hc. rewrite (run_simulates _ _ _ _ _ _ snapshots_simulated HR); [done|by rewrite Hc].
  - eapply Forall_impl; [exact ref_catches_snapshots|]. intros c [m Hc]. rewrite (run_simulates _ _ _ _ _ _ (blind_snapshots_simulates _ _ _ snapshots_simulated) HR); [by exists m|by rewrite Hc].
Qed.
End SnapshotSuite.
End Suites.

(** ** The in-memory stores *)
#[export] Existing Instances testkit.EventStore_ops testkit.EventStore_laws testkit.EventStore_reliable durablestore.DurableStore_ops durablestore.DurableStore_laws adoption_examples.list_event_store adoption_examples.in_memory_delete.

#[export] Instance in_memory_conflicts : ReliableConflicts testkit.EventStore.
Proof.
  intros st sc evs p Hok Hsc Hp Hst Hh. pose proof (testkit.WriteEvents_holds st sc evs p Hok Hsc Hp Hst) as Hw. simpl in *. rewrite Hh in Hw. rewrite Hw.
  eexists. split; [done|]. unfold testkit.conflict_for. by case_match.
Qed.

#[export] Instance in_memory_states : ReliableStateStore durablestore.DurableStore.
Proof.
  refine {| state_up d := durablestore.connected d = true |}; simpl.
  - intros d sc s p Hc Hsc Hp. rewrite durablestore.WriteState_spec by done. destruct (api.state_holds _ _); [done|]. split; [done|].
    eexists. split; [done|]. unfold durablestore.conflict. by case_match.
  - intros d sc pid Hc Hsc. unfold durablestore.GetLatestState. rewrite Hc, Hsc. by eexists.
Defined.

(** Packing as decimal text. *)
Definition text_pack (_ : string) (m : Z) : Any := mkAny "account" (command.decimal_time m).
Definition text_balance (a : Any) : result string Z := match command.parse_decimal_time (Value a) with Some m => Ok m | None => Err "malformed" end.
Lemma text_balance_pack id m : text_balance (text_pack id m) = Ok m.
Proof. unfold text_balance. simpl. by rewrite command.decimal_time_roundtrip. Qed.
Definition structural {A} `{EqDecision A} (x y : A) : bool := bool_decide (x = y).
Lemma structural_spec {A} `{EqDecision A} (x y : A) : structural x y = true <-> x = y.
Proof. apply bool_decide_eq_true. Qed.

Definition memory : testkit.EventStore := testkit.Connect testkit.NewEventsStore.
Definition memory_checks : list (Check events_op) := EventsStoreChecks text_pack text_balance (proto_equal_event := structural) (fun _ => 0%Z).

Lemma contract_passes_events_suite_witness :
  Forall (fun c => enumerates c = true \/ run events_handler (Run c) memory = Passed) memory_checks.
Proof.
  apply (contract_passes_events_suite text_pack text_balance text_balance_pack structural structural_spec (fun _ => 0%Z) memory); [apply map_Forall_empty|done].
Defined.

Lemma scope_blind_events_store_caught_witness :
  Forall (fun c => enumerates c = true \/ exists m, run (blind_events events_handler) (Run c) memory = Failed m) memory_checks.
Proof.
  apply (scope_blind_events_store_caught text_pack text_balance text_balance_pack structural structural_spec (fun _ => 0%Z) memory); [apply map_Forall_empty|done].
Defined.

(** Every check of the three suites, enumeration included, passes on a fresh
    in-memory store. *)
Definition connected {S} (connect : S -> S) : S -> result string S := fun s => Ok (connect s).
Definition events_store_results : option (list CheckResult) :=
  captureChecks (events_handler) (connected testkit.Connect) testkit.NewEventsStore
    memory_checks.
Definition state_store_results : option (list CheckResult) :=
  captureChecks state_handler (connected durablestore.Connect) durablestore.NewDurableStore
    (StateStoreChecks text_pack text_balance (proto_equal_state := structural)).
Definition snapshot_store_results : option (list CheckResult) :=
  captureChecks (snapshot_handler (H := snapshotstore.SnapshotStore_ops map_to_list)) (connected snapshotstore.Connect) snapshotstore.NewSnapshotStore
    (SnapshotStoreChecks text_pack text_balance (proto_equal_snapshot := structural)).

Example in_memory_stores_conform :
  (fmap (M := list) cFailed <$> events_store_results) = Some (replicate 11 false) /\
  (fmap (M := list) cFailed <$> state_store_results) = Some (replicate 8 false) /\
  (fmap (M := list) cFailed <$> snapshot_store_results) = Some (replicate 6 false).
Proof. vm_compute. done. Qed.
End conformance_spec.
